(* ===== verification/_CoqProject ===== *)
-Q . S2P
Prelude.v
GoStrings.v
GoUtf8.v
GoJson.v
GoUnmarshal.v
GoTime.v
FloatInts.v
GoCalendar.v
Metrics.v
Amount.v
CoreBreaker.v
EnvConfig.v
Ledger.v
Storage.v
LedgerBreaker.v
Processor.v
Exact.v
Sessions.v
Wire.v
KafkaConsumer.v
ProcessorReload.v
ReloadLoop.v
Partitioner.v
IngestionReload.v
Ingestion.v
Api.v
RateBound.v
Pools.v
GoFloat.v
Servers.v
GrpcShutdown.v
System.v
InOrder.v
ServiceMetrics.v
Startup.v
Lifecycle.v
Kube.v
PromQuery.v
PartitionMap.v
MapContract.v
Operator.v
OperatorMetrics.v
