(* ===== verification/Prelude.v ===== *)
(** * Transaction control plane: verification development

    ** The program

    Trades enter through the ingestion service (cmd/ingestion, internal/api,
    internal/ingestion): a REST or gRPC handler authenticates, rate-limits and
    validates a request, and publishes it to Kafka through a chain of decorators
    (metrics over backpressure over a circuit breaker over the Kafka publisher),
    on a partition that belongs to the tenant.  The processor (cmd/processor,
    internal/processor, internal/ledger) consumes the topic, retries, routes what
    it cannot handle to a dead-letter topic, and reconciles every transaction into
    a Postgres ledger and a per-instrument position and P&L, behind one circuit
    breaker per repository.  The operator (operator/) watches each tenant's lag and
    latency through Prometheus, scales or isolates the tenant, and hands its
    partition range to the two services through a shared ConfigMap that both
    reload.

    ** The files

    - Prelude: Go errors and results, machine integers with their wrap-around,
      hint databases ([go_ints], [go_str]) and tactics ([unfold_ints], [bool_props],
      [case_all]) of the development.
    - GoStrings, GoTime, GoFloat: the parts of strings, unicode/utf8, strconv
      (ParseFloat included) and time.ParseDuration the code calls, on byte strings;
      GoFloat also holds cmd/ingestion's rate limit configuration.
    - GoUtf8, GoJson, GoUnmarshal: unicode/utf8's validation and encoding/json, a
      document read into and written from a tree, and json.Unmarshal and Decode into
      structs and maps of structs, described by their fields.
    - FloatInts: float64 arithmetic on integers below 2^53.
    - GoCalendar: time.Parse and Format for RFC 3339, with the calendar.
    - Metrics: internal/metrics, the name and label checks (the regular expression
      is matched by derivatives) and the constructors over a Prometheus client.
    - Amount: internal/ledger/amount.go.
    - CoreBreaker: internal/corebreaker/corebreaker.go, and concurrent callers.
    - EnvConfig: the configuration functions, one module per owner ([Pool]:
      internal/ledger/storage/pool.go, [Producer]: internal/ingestion/kafka/
      publisher.go, [Consumer]: internal/processor/kafka/consumer.go, [Services]:
      the two main.go).
    - Ledger: internal/ledger/ledger.go; the repository ports as classes
      ([TransactionRepository], [ReconciledStateRepository]), programs over them
      ([prog], [run], [call]) and what an implementation promises
      ([RepositoryLaws]).
    - Storage: internal/ledger/storage, the stores over a Postgres server at the
      statements they issue; an instance of the laws.
    - LedgerBreaker: internal/ledger/breaker.go; laws in, laws out.
    - Processor: internal/processor/processor.go, accounting and Reconcile, and a
      pool of concurrent calls.
    - Exact: when a stored state is the accounting of all of its key's rows, and that
      folding the newest row in keeps it so.
    - Sessions: Reconcile calls on overlapping database sessions, an INSERT drawing
      its id first and committing later; in-order delivery, as Reconcile's comment
      asks for.
    - Wire, KafkaConsumer: the JSON of events and dead letters, and
      internal/processor/kafka/consumer.go over a [KafkaClient].
    - ProcessorReload, ReloadLoop: internal/processor/kafka/reload.go, one reload,
      and the ticker loop next to Consumer.Close as a step relation.
    - Partitioner, IngestionReload: internal/ingestion/kafka/partitioner.go and
      reload.go, and the ticker loop next to the partitioner's calls and
      Publisher.Close as a step relation.
    - Ingestion: internal/ingestion and the Kafka publisher; the chain.
    - Api: internal/api handlers, authentication, rate limiter.
    - RateBound: the rate limiter's decisions against integer token buckets.
    - Pools: the sync.Pools of transaction_handler.go under concurrent requests.
    - Servers: internal/api/server.go, grpc_server.go and health.go, the routing of
      net/http's patterns ([Mux]), both transports over one publisher, and the
      routes of the processor's metrics server.
    - GrpcShutdown: GRPCServer.Start and Shutdown, the latter as a step relation.
    - System: internal/processor/metrics.go and how the two main.go stack the
      components; the end-to-end theorems.
    - InOrder: one processor as the only writer accounts for every transaction.
    - ServiceMetrics: the NewMetrics functions of both services and what they
      record, over a Prometheus client; what the registry shows and can hold.
    - Startup: NewPublisher, NewConsumer and the construction part of the two run
      functions, every early return included.
    - Lifecycle: the goroutines, channels and shutdown of the two run functions as
      step relations ([IngestionRun], [ProcessorRun]).
    - Kube: the Kubernetes objects the operator uses, the API client as a class
      with laws, and an in-memory client that keeps them.
    - PromQuery: operator/internal/promquery, the PromQL selectors its texts are, and
      operator/cmd/main.go's variables.
    - PartitionMap: operator/internal/controller/tenant_partition_map.go.
    - MapContract: the map the operator writes against the readers of both services.
    - Operator: operator/internal/controller (controller, dedicated pool, metrics).
    - OperatorMetrics: the operator's metrics over a Prometheus client, its run
      function, and its readings of what the services export.

    Definitions carry the names of the Go symbols; a method is [Type_Method] where
    the bare name would clash.  State is passed explicitly: an operation takes the
    world it works on and returns the new one.  A Go error is a value of [error], a
    fallible call a [result]; a panic is [None], [Panicked] or [Panic].  Integers are Z with
    [int32], [int64], [uint32], [uint64] wherever Go's arithmetic wraps; float64 is
    SpecFloat's binary64.  Instants are nanoseconds since the Unix epoch.

    ** What the theorems show

    Each property's comment starts with its number, C1 to C40.
    - End to end (System, InOrder, Startup, C1-C3, C20, C35): an event acknowledged by
      gRPC or REST and delivered is in the ledger with its own key's state moved up to
      it, or in the dead-letter topic, or another trade holds its event id; under any
      faults of the database the processor loses no record, from whatever environment
      it was started (KAFKA_MAX_RETRIES below MaxInt64 - 1), and while it is the only
      writer and dead-letters nothing its accounting is exact; the one offset the
      API accepts and the processor refuses.
    - Reconciler (Processor, Sessions, C4-C8, C16-C17): events of a key that arrive in
      order are accounted for exactly once; no interleaving of concurrent or
      repeated calls with any faults counts a ledger row twice; nil means the call's
      own trade is recorded, unless a different trade came under its event id; the
      effect of one call on every branch; both also on sessions whose INSERTs
      overlap; the int64 accounting equals the unbounded one where it fits and
      conserves position.
    - Operator (Operator, PartitionMap, MapContract, C9-C11, C27): what a pass changes
      and leaves for the signals it observed, out-of-date reads included; no lost update on the shared map; the services read from its bytes
      what the operator holds; and passes that settle.
    - Repositories (Storage, LedgerBreaker, C12-C14): the Postgres stores refine the
      repository contract, breakers preserve it, and are transparent to business
      outcomes.
    - Circuit breaker (CoreBreaker, C18-C19): tripping, and at most one probe under
      concurrent callers.
    - Consumer (KafkaConsumer, ReloadLoop, C21-C23, C26): every record accounted for,
      bounded retries, dead letters that can be read back, and a Close that follows
      the last reload.
    - Partitioner (Partitioner, IngestionReload, C24-C25): isolation, and isolation,
      stickiness and range across hot reloads.
    - Amounts (C28-C29), publishing (Ingestion, C32), API and servers (Api, Pools,
      Servers, RateBound, C15, C31, C33-C34, C40): pooling is invisible, the
      publisher is guarded, where the transports agree, the answers tell what
      happened, and how many requests a key gets through.
    - Runs (Lifecycle, GrpcShutdown, C36-C39): a service stops, with all goroutines
      finished, and what it returns (for the processor
      Lifecycle.ProcessorRun.processor_run_ends); a shutdown drains or says why not.
    - Metrics (Metrics, ServiceMetrics, OperatorMetrics, C30): an operator that reads
      back what the services had recorded when they were last scraped; conventions enforced
      (Metrics.constructor_enforces) and a bounded number of series
      (ServiceMetrics.ProcessorRegistry.processor_series_bounded).
    Under these lie round trips without a number: GoJson.readDocument_encode (a
    written document reads back, its strings made valid UTF-8), GoCalendar.parse_format
    (a formatted time parses back), Ingestion.Publish_decodes (a published event
    decodes to its transaction).
    Further theorems show where the code does less than its comments say, with the
    input that shows it: Processor.superseded_redelivery_not_applied,
    Sessions.overlapping_callers_lose_a_trade,
    Processor.MaxAmount_buys_wrap, CoreBreaker.straggler_admits_second_probe,
    KafkaConsumer.reconcileWithRetry_wraps, Partitioner.single_partition_panics,
    Partitioner.reservation_overflow_escapes, Partitioner.observed_start_moves,
    EnvConfig.Consumer.parsePartitionList_truncates, PartitionMap.null_map_panics,
    Operator.defaulted_deployments_never_settle, Operator.deleted_tenant_keeps_entry,
    Operator.repeated_pass_isolates, Operator.isolated_state_leaves,
    PromQuery.unchecked_readings, GoFloat.nan_rate_unlimited,
    Servers.limits_per_transport, Lifecycle.IngestionRun.startErr_read_races,
    KafkaConsumer.dead_letter_loses_bytes, System.offset_25h_dead_lettered,
    Processor.colliding_event_swallowed, Api.year_zero_parts.

    ** Interfaces and assumptions

    Code outside the repository is a class of operations, with a class of laws that
    states what its documentation promises, and a concrete instance that keeps
    them in a witness: [Columns]/[ColumnLaws] (Postgres column types as pgx encodes
    them), [Codec]/[CodecLaws] (google/uuid,
    timestamppb's range check and conversion, and the text of an error), [KafkaClient]/[KafkaLaws] (acknowledged records stay),
    [KubeClient]/[KubeLaws] (optimistic concurrency, the status subresource,
    finalizers, CreateOrUpdate, reads from a cache that may lag behind), [Prometheus]/[PrometheusLaws] (a registry of metric vectors and
    their samples), [HealthServer]/[HealthLaws] (grpc-go's health service),
    [GrpcServer]/[GrpcServerLaws] (a grpc-go server: GracefulStop waits for handlers, Stop
    closes connections and does not),
    [TenantObserver], [FloatConversion]; the order in which Go ranges over a map is an
    argument, a permutation of its entries; the constructors of the Kafka
    client, the pgx pool, the Prometheus API client and the controller manager are
    arguments of the functions that call them.  A query of the operator is text,
    read as PromQL's syntax has it, and a selector of a gauge is answered with one
    sample per process that exported the series at its last scrape
    ([OperatorMetrics.scrapes]).  The operator's reads may be answered out of date:
    the keys of such reads are [missed], and what a pass promises of an object is
    exempt from them only (C9); in the interleavings of C10 reads are answered as of
    the server's store.
    Postgres statements are atomic and autocommitted; the sequence that hands out
    ids is not: in Sessions an INSERT takes effect after it has drawn its id, and
    overlapping ones commit in any order, so the repository contract asks for
    unused ids, and for growing ones only of a single caller ([Insert_newer]).
    Deadlines and cancellations reach a callee as errors it may return, so
    contexts are not threaded; in Lifecycle a Shutdown returns, its context having a
    deadline.  Log output is not modelled.

    ** Bounds and fuel

    [Run] takes the number of polls: the Go loop is unbounded, and the theorems
    hold for every number.  [retryLoop] runs over maxRetries + 1, its own bound; the
    one value at which Go's loop variable would wrap (MaxInt64 - 1) is excluded by
    hypothesis.  [durationGroups] takes the length of the text, each round consuming
    a byte.  The JSON reader runs on twice the length of the text plus two, which
    GoJson.nextValue_fuel shows to be enough, and refuses what nests deeper than
    10000 levels as Go does.  mutateTenantPartitionMap takes a number of API calls, because a lost
    create race starts it over; the budget is an argument of the operator's
    Reconcile, a call that exceeds it is an outcome of its own, and two, a Get and one
    write, are shown to be enough when the Get was up to date and nothing else
    creates the map meanwhile (C9); the concurrent theorem runs it call by call
    without a bound.  FormatUint's
    digit loop runs 20 rounds, the most digits a uint64 has.  The runs of Lifecycle
    are shown to have at most 21 and 8 steps, and GrpcShutdown's at most 8 of its own,
    by a measure.  Readings below 2^53
    (C30) are those a float64 gauge holds exactly, and so are the tokens of C40.  Everything else is structural.

    ** Not modelled

    Generated protobuf and deepcopy code, and scheme registration; measured
    latencies, which are counted but not valued; the Go runtime and process
    collectors; the HTTP servers' timeouts; running the migrations;
    controller-runtime's manager, flags and watches.
    The rate limiter's tokens between whole seconds are computed as the code does, but
    C40 speaks of whole seconds only, where float64 rounds nothing. *)
From stdpp Require Export base tactics option list strings gmap sorting relations.
From Stdlib Require Export Ascii ZArith Lia.

#[global] Open Scope Z_scope.

(** ** Errors

    A Go [error] value is the chain that [errors.New] and [fmt.Errorf] build.
    [Errorf]'s argument is the format string of the [fmt.Errorf] call: it
    identifies the message, whose interpolated values carry no control flow. *)

(** The package-level error variables of the program. *)
Inductive sentinel :=
  | ErrOpen                    (* internal/corebreaker *)
  | ErrInvalidConfig           (* internal/corebreaker *)
  | ErrNotFound                (* internal/ledger *)
  | ErrDuplicateEvent          (* internal/ledger *)
  | ErrStaleReconciledState    (* internal/ledger *)
  | ErrInvalidPoolConfig       (* internal/ledger/storage *)
  | ErrPublishQueueFull        (* internal/ingestion *)
  | ErrInvalidBackpressureConfig (* internal/ingestion *)
  | ErrInvalidProducerConfig   (* internal/ingestion/kafka, ErrInvalidConfig *)
  | ErrInvalidConsumerConfig   (* internal/processor/kafka, ErrInvalidConfig *)
  | ErrInvalidMetricName       (* internal/metrics *)
  | ErrHighCardinalityLabel    (* internal/metrics *)
  | ErrServerStopped           (* google.golang.org/grpc *)
  | StatusNotFound             (* apierrors.IsNotFound *)
  | StatusAlreadyExists        (* apierrors.IsAlreadyExists *)
  | StatusConflict             (* apierrors.IsConflict *)
  | ErrSyntax                  (* strconv *)
  | ErrRange.                  (* strconv *)

#[global] Instance sentinel_eq_dec : EqDecision sentinel.
Proof. solve_decision. Defined.

Inductive error :=
  | Sentinel (s : sentinel)               (* a package-level error variable *)
  | Errorf (msg : string)                 (* fmt.Errorf without a %w verb *)
  | Wrapf (msg : string) (e : error)      (* fmt.Errorf with one %w verb *)
  | Wrapf2 (msg : string) (e1 e2 : error). (* fmt.Errorf with two %w verbs *)

#[global] Instance error_eq_dec : EqDecision error.
Proof. solve_decision. Defined.

(** [errors.Is]: whether the chain (or tree) of [e] reaches the sentinel. *)
Fixpoint errors_Is (e : error) (s : sentinel) : bool :=
  match e with
  | Sentinel s' => bool_decide (s' = s)
  | Errorf _ => false
  | Wrapf _ e => errors_Is e s
  | Wrapf2 _ e1 e2 => errors_Is e1 s || errors_Is e2 s
  end.

(** ** Results: a Go function returning [(A, error)]. *)
Inductive result (A : Type) :=
  | Ok (a : A)
  | Err (e : error).
Arguments Ok {A} a.
Arguments Err {A} e.

#[global] Instance result_eq_dec `{EqDecision A} : EqDecision (result A).
Proof. solve_decision. Defined.

#[global] Instance result_ret : MRet result := λ A a, Ok a.
#[global] Instance result_bind : MBind result :=
  λ A B f r, match r with Ok a => f a | Err e => Err e end.
#[global] Instance result_fmap : FMap result :=
  λ A B f r, match r with Ok a => Ok (f a) | Err e => Err e end.

Definition is_Ok {A} (r : result A) : Prop := ∃ a, r = Ok a.

(** [if err != nil { return fmt.Errorf("msg: %w", err) }] *)
Definition wrap_err {A} (msg : string) (r : result A) : result A :=
  match r with Ok a => Ok a | Err e => Err (Wrapf msg e) end.

Lemma result_bind_Ok {A B} (f : A → result B) (r : result A) b :
  r ≫= f = Ok b ↔ ∃ a, r = Ok a ∧ f a = Ok b.
Proof. destruct r; cbn; naive_solver. Qed.

Lemma wrap_err_Ok {A} msg (r : result A) a : wrap_err msg r = Ok a ↔ r = Ok a.
Proof. destruct r; cbn; naive_solver. Qed.

Lemma wrap_err_Err {A} msg (r : result A) e :
  wrap_err msg r = Err e ↔ ∃ e', r = Err e' ∧ e = Wrapf msg e'.
Proof. destruct r; cbn; naive_solver. Qed.

(** ** Machine integers: Z with Go's wrap-around written out. *)
Definition MaxInt32 : Z := 2147483647.
Definition MinInt32 : Z := -2147483648.
Definition MaxInt64 : Z := 9223372036854775807.
Definition MinInt64 : Z := -9223372036854775808.
Definition MaxUint32 : Z := 4294967295.
Definition MaxUint64 : Z := 18446744073709551615.

Definition in_int32 (z : Z) : Prop := MinInt32 ≤ z ≤ MaxInt32.
Definition in_int64 (z : Z) : Prop := MinInt64 ≤ z ≤ MaxInt64.
Definition in_uint32 (z : Z) : Prop := 0 ≤ z ≤ MaxUint32.
Definition in_uint64 (z : Z) : Prop := 0 ≤ z ≤ MaxUint64.

(** Conversions to a width: the value an [intN]/[uintN] operation keeps. *)
Definition int32 (z : Z) : Z := (z + 2147483648) mod 4294967296 - 2147483648.
Definition int64 (z : Z) : Z :=
  (z + 9223372036854775808) mod 18446744073709551616 - 9223372036854775808.
Definition uint32 (z : Z) : Z := z mod 4294967296.
Definition uint64 (z : Z) : Z := z mod 18446744073709551616.

(** big.Int.IsInt64 *)
Definition is_int64b (z : Z) : bool := (MinInt64 <=? z) && (z <=? MaxInt64).

Ltac unfold_ints :=
  unfold int32, int64, uint32, uint64, in_int32, in_int64, in_uint32, in_uint64,
    is_int64b, MaxInt32, MinInt32, MaxInt64, MinInt64, MaxUint32, MaxUint64 in *.

(** Linear arithmetic over fixed-width values, wrap-around included. *)
Ltac int_lia := unfold_ints; Z.to_euclidean_division_equations; lia.

Lemma int64_id z : in_int64 z → int64 z = z.
Proof. intros. int_lia. Qed.
Lemma int32_id z : in_int32 z → int32 z = z.
Proof. intros. int_lia. Qed.
Lemma uint64_id z : in_uint64 z → uint64 z = z.
Proof. intros. int_lia. Qed.
Lemma uint32_id z : in_uint32 z → uint32 z = z.
Proof. intros. int_lia. Qed.
Lemma int64_range z : in_int64 (int64 z).
Proof. int_lia. Qed.
Lemma int32_range z : in_int32 (int32 z).
Proof. int_lia. Qed.
Lemma uint64_range z : in_uint64 (uint64 z).
Proof. int_lia. Qed.
Lemma uint32_range z : in_uint32 (uint32 z).
Proof. int_lia. Qed.

Lemma is_int64b_spec z : is_int64b z = true ↔ in_int64 z.
Proof. unfold is_int64b, in_int64. rewrite andb_true_iff, !Z.leb_le. done. Qed.

Create HintDb go_ints.
Create Rewrite HintDb go_ints_rw.
#[export] Hint Resolve int64_range int32_range uint64_range uint32_range : go_ints.
#[export] Hint Rewrite int64_id int32_id uint64_id uint32_id
  using (unfold_ints; lia) : go_ints_rw.

(** ** Case analysis used throughout: split on the scrutinee of a [match] or
    an [if], turning boolean tests into propositions. *)
Ltac bool_props :=
  repeat match goal with
  | H : (_ && _) = true |- _ => apply andb_true_iff in H as [? ?]
  | H : (_ || _) = false |- _ => apply orb_false_iff in H as [? ?]
  | H : negb _ = true |- _ => apply negb_true_iff in H
  | H : negb _ = false |- _ => apply negb_false_iff in H
  | H : (_ <=? _) = true |- _ => apply Z.leb_le in H
  | H : (_ <=? _) = false |- _ => apply Z.leb_gt in H
  | H : (_ <? _) = true |- _ => apply Z.ltb_lt in H
  | H : (_ <? _) = false |- _ => apply Z.ltb_ge in H
  | H : (_ >? _) = true |- _ => rewrite Z.gtb_ltb in H
  | H : (_ >? _) = false |- _ => rewrite Z.gtb_ltb in H
  | H : (_ >=? _) = true |- _ => rewrite Z.geb_leb in H
  | H : (_ >=? _) = false |- _ => rewrite Z.geb_leb in H
  | H : (_ =? _) = true |- _ => apply Z.eqb_eq in H
  | H : (_ =? _) = false |- _ => apply Z.eqb_neq in H
  | H : bool_decide _ = true |- _ => apply bool_decide_eq_true in H
  | H : bool_decide _ = false |- _ => apply bool_decide_eq_false in H
  end.

(** Destruct the innermost scrutinee of the goal or of a hypothesis. *)
Ltac case_step :=
  match goal with
  | |- context [match ?x with _ => _ end] =>
      lazymatch x with context [match _ with _ => _ end] => fail | _ => destruct x eqn:? end
  | _ : context [match ?x with _ => _ end] |- _ =>
      lazymatch x with context [match _ with _ => _ end] => fail | _ => destruct x eqn:? end
  end; simplify_eq/=; bool_props.

Ltac case_all := repeat case_step.

(** ** Sublists *)
Lemma elem_of_sublist {A} (x : A) l k : x ∈ l → l `sublist_of` k → x ∈ k.
Proof. intros Hx Hs. by eapply elem_of_submseteq, sublist_submseteq. Qed.

