(* ===== verification/GoStrings.v ===== *)
(** * Go strings and strconv

    A Go [string] is a byte sequence: it is modelled by [string], whose
    [ascii] characters are 8-bit bytes.  This file holds the parts of the
    packages [strings], [unicode/utf8] and [strconv] the program calls, with
    the lemmas its clients need: byte loops and rune loops agree on ASCII
    classes, decimal digits evaluate by Horner's rule, [ParseUint] accepts
    exactly the in-range digit strings, and [FormatUint] prints them. *)
From S2P Require Import Prelude.

(** ** Bytes *)
Definition byte (c : ascii) : Z := Z.of_N (N_of_ascii c).

Lemma byte_range c : 0 ≤ byte c < 256.
Proof.
  unfold byte. pose proof (N_ascii_bounded c). lia.
Qed.

Lemma byte_inj c1 c2 : byte c1 = byte c2 → c1 = c2.
Proof.
  unfold byte. intros H%N2Z.inj.
  rewrite <- (ascii_N_embedding c1), <- (ascii_N_embedding c2). congruence.
Qed.

Fixpoint bytes (s : string) : list Z :=
  match s with "" => [] | String c s => byte c :: bytes s end.

Fixpoint string_take (n : nat) (s : string) : string :=
  match n, s with
  | S n, String c s => String c (string_take n s)
  | _, _ => ""
  end.

Fixpoint string_drop (n : nat) (s : string) : string :=
  match n, s with
  | S n, String _ s => string_drop n s
  | _, _ => s
  end.

(** strings.Repeat for a one-byte string. *)
Fixpoint string_repeat (c : ascii) (n : nat) : string :=
  match n with O => "" | S n => String c (string_repeat c n) end.

Fixpoint string_forallb (p : ascii → bool) (s : string) : bool :=
  match s with "" => true | String c s => p c && string_forallb p s end.

Lemma app_nil_l s : "" +:+ s = s.
Proof. done. Qed.
Lemma app_cons c s t : String c s +:+ t = String c (s +:+ t).
Proof. done. Qed.
Lemma app_nil_r s : s +:+ "" = s.
Proof. induction s as [|c s IH]; [done|]. by rewrite app_cons, IH. Qed.
Lemma app_assoc s t u : (s +:+ t) +:+ u = s +:+ (t +:+ u).
Proof. induction s as [|c s IH]; [done|]. by rewrite !app_cons, IH. Qed.
Create Rewrite HintDb go_str.
#[export] Hint Rewrite app_nil_l app_cons app_nil_r app_assoc : go_str.

Lemma length_string_app s t :
  String.length (s +:+ t) = (String.length s + String.length t)%nat.
Proof. induction s as [|c s IH]; [done|]. rewrite app_cons. cbn. by rewrite IH. Qed.

Lemma string_take_drop n s : string_take n s +:+ string_drop n s = s.
Proof.
  revert s. induction n as [|n IH]; intros [|c s]; try done.
  cbn. by rewrite app_cons, IH.
Qed.

Lemma length_string_take n s :
  (n ≤ String.length s)%nat → String.length (string_take n s) = n.
Proof.
  revert s. induction n as [|n IH]; intros [|c s] Hn; cbn in *; try lia.
  rewrite IH; lia.
Qed.

Lemma length_string_drop n s :
  String.length (string_drop n s) = (String.length s - n)%nat.
Proof. revert s. induction n as [|n IH]; intros [|c s]; cbn; try done. Qed.

Lemma length_string_repeat c n : String.length (string_repeat c n) = n.
Proof. induction n; cbn; by f_equal. Qed.

Lemma string_forallb_app p s t :
  string_forallb p (s +:+ t) = string_forallb p s && string_forallb p t.
Proof.
  induction s as [|c s IH]; [done|]. rewrite app_cons. cbn.
  by rewrite IH, andb_assoc.
Qed.

Lemma string_forallb_impl (p q : ascii → bool) s :
  (∀ c, p c = true → q c = true) → string_forallb p s = true → string_forallb q s = true.
Proof.
  intros Hpq. induction s as [|c s IH]; [done|]. cbn. intros [??]%andb_true_iff.
  apply andb_true_iff. auto.
Qed.

Lemma string_forallb_repeat p c n : p c = true → string_forallb p (string_repeat c n) = true.
Proof. intros Hc. induction n; cbn; [done|]. by rewrite Hc. Qed.

(** ** Splitting at a byte *)

(** The text before and after the first byte that satisfies [p]: the value of
    [s\[:idx\]] and [s\[idx+1:\]] for [idx := strings.IndexAny(s, ...)]. *)
Fixpoint cut_byte (p : ascii → bool) (s : string) : option (string * string) :=
  match s with
  | "" => None
  | String c s' =>
      if p c then Some ("", s')
      else '(pre, post) ← cut_byte p s'; Some (String c pre, post)
  end.

(** strings.Cut with a one-byte separator: (before, after, found). *)
Definition Cut (s : string) (sep : ascii) : string * string * bool :=
  match cut_byte (λ c, bool_decide (c = sep)) s with
  | Some (pre, post) => (pre, post, true)
  | None => (s, "", false)
  end.

Lemma cut_byte_None p s :
  string_forallb (λ c, negb (p c)) s = true → cut_byte p s = None.
Proof.
  induction s as [|c s IH]; [done|]. cbn. intros [Hc Hs]%andb_true_iff.
  apply negb_true_iff in Hc. by rewrite Hc, IH.
Qed.

Lemma cut_byte_app p s c t :
  string_forallb (λ c, negb (p c)) s = true → p c = true →
  cut_byte p (s +:+ String c t) = Some (s, t).
Proof.
  intros Hs Hc. induction s as [|d s IH]; [rewrite app_nil_l; cbn; by rewrite Hc|].
  cbn in Hs. apply andb_true_iff in Hs as [Hd Hs]. apply negb_true_iff in Hd.
  rewrite app_cons. cbn. by rewrite Hd, IH.
Qed.

Lemma cut_byte_Some p s pre post :
  cut_byte p s = Some (pre, post) →
  ∃ c, s = pre +:+ String c post ∧ p c = true ∧ string_forallb (λ c, negb (p c)) pre = true.
Proof.
  revert pre. induction s as [|c s IH]; intros pre; [done|]. cbn.
  destruct (p c) eqn:Hc; [intros; simplify_eq; by exists c|].
  destruct (cut_byte p s) as [[pre' post']|] eqn:Hs; cbn; [|done].
  intros; simplify_eq. destruct (IH pre' eq_refl) as (d & -> & Hd & Hpre).
  exists d. rewrite app_cons. split_and!; [done|done|]. cbn. by rewrite Hc.
Qed.

(** strings.HasPrefix and strings.CutPrefix. *)
Fixpoint CutPrefix (s prefix : string) {struct prefix} : option string :=
  match prefix, s with
  | "", _ => Some s
  | String p prefix, String c s => if decide (p = c) then CutPrefix s prefix else None
  | String _ _, "" => None
  end.

Lemma CutPrefix_Some s prefix t : CutPrefix s prefix = Some t ↔ s = prefix +:+ t.
Proof.
  revert s. induction prefix as [|p prefix IH]; intros s; cbn.
  - rewrite app_nil_l. split; congruence.
  - rewrite app_cons. destruct s as [|c s]; [split; discriminate|].
    case_decide; subst; [rewrite IH|]; split; congruence.
Qed.

(** strings.Split with a one-byte separator; never empty. *)
Fixpoint Split (s : string) (sep : ascii) : list string :=
  match s with
  | "" => [""]
  | String c s' =>
      if decide (c = sep) then "" :: Split s' sep
      else match Split s' sep with
           | f :: fs => String c f :: fs
           | [] => [String c ""]
           end
  end.

(** strings.Join with a one-byte separator. *)
Fixpoint Join (l : list string) (sep : ascii) : string :=
  match l with
  | [] => ""
  | [f] => f
  | f :: fs => f +:+ String sep (Join fs sep)
  end.

Definition no_byte (sep : ascii) (s : string) : bool :=
  string_forallb (λ c, negb (bool_decide (c = sep))) s.

Lemma Split_no_sep s sep : no_byte sep s = true → Split s sep = [s].
Proof.
  unfold no_byte. induction s as [|c s IH]; [done|]. cbn.
  intros [Hc Hs]%andb_true_iff. bool_props. rewrite decide_False by done.
  by rewrite IH.
Qed.

Lemma Split_app s sep t :
  no_byte sep s = true → Split (s +:+ String sep t) sep = s :: Split t sep.
Proof.
  unfold no_byte. induction s as [|c s IH].
  - intros _. rewrite app_nil_l. cbn. by rewrite decide_True.
  - cbn. intros [Hc Hs]%andb_true_iff. bool_props. rewrite app_cons. cbn.
    rewrite decide_False by done. by rewrite IH.
Qed.

Lemma Split_Join l sep :
  l ≠ [] → Forall (λ s, no_byte sep s = true) l → Split (Join l sep) sep = l.
Proof.
  intros Hne Hl. induction Hl as [|s l Hs Hl IH]; [done|].
  destruct l as [|t l]; [by apply Split_no_sep|].
  change (Join (s :: t :: l) sep) with (s +:+ String sep (Join (t :: l) sep)).
  rewrite Split_app by done. by rewrite IH.
Qed.

(** ** Runes: the [for _, char := range s] loop

    Go decodes UTF-8; an invalid sequence yields [RuneError] for one byte. *)
Definition RuneError : Z := 65533.

Definition in_range (lo hi : Z) (c : ascii) : bool := (lo <=? byte c) && (byte c <=? hi).
Definition continuation (c : ascii) : bool := in_range 128 191 c.

(** The accept range of the second byte, by leading byte (utf8's table). *)
Definition second_ok (b0 b1 : ascii) : bool :=
  let x := byte b0 in
  if (194 <=? x) && (x <=? 223) then continuation b1
  else if x =? 224 then in_range 160 191 b1
  else if x =? 237 then in_range 128 159 b1
  else if (225 <=? x) && (x <=? 239) then continuation b1
  else if x =? 240 then in_range 144 191 b1
  else if x =? 244 then in_range 128 143 b1
  else if (241 <=? x) && (x <=? 243) then continuation b1
  else false.

Definition rune2 (b0 b1 : ascii) : Z :=
  Z.lor (Z.shiftl (Z.land (byte b0) 31) 6) (Z.land (byte b1) 63).
Definition rune3 (b0 b1 b2 : ascii) : Z :=
  Z.lor (Z.lor (Z.shiftl (Z.land (byte b0) 15) 12) (Z.shiftl (Z.land (byte b1) 63) 6))
        (Z.land (byte b2) 63).
Definition rune4 (b0 b1 b2 b3 : ascii) : Z :=
  Z.lor (Z.lor (Z.lor (Z.shiftl (Z.land (byte b0) 7) 18) (Z.shiftl (Z.land (byte b1) 63) 12))
               (Z.shiftl (Z.land (byte b2) 63) 6))
        (Z.land (byte b3) 63).

Fixpoint runes (s : string) : list Z :=
  match s with
  | "" => []
  | String b0 s1 =>
      if byte b0 <? 128 then byte b0 :: runes s1
      else match s1 with
      | "" => RuneError :: runes s1
      | String b1 s2 =>
          if negb (second_ok b0 b1) then RuneError :: runes s1
          else if byte b0 <? 224 then rune2 b0 b1 :: runes s2
          else match s2 with
          | "" => RuneError :: runes s1
          | String b2 s3 =>
              if negb (continuation b2) then RuneError :: runes s1
              else if byte b0 <? 240 then rune3 b0 b1 b2 :: runes s3
              else match s3 with
              | "" => RuneError :: runes s1
              | String b3 s4 =>
                  if negb (continuation b3) then RuneError :: runes s1
                  else rune4 b0 b1 b2 b3 :: runes s4
              end
          end
      end
  end.

(** A rune decoded from a non-ASCII leading byte is never ASCII. *)
Lemma lor_ge_l a b : 0 ≤ a → 0 ≤ b → a ≤ Z.lor a b.
Proof.
  intros Ha Hb. apply Z.ldiff_le; [by apply Z.lor_nonneg|].
  apply Z.bits_inj'. intros n Hn.
  rewrite Z.ldiff_spec, Z.lor_spec, Z.bits_0. by destruct (Z.testbit a n), (Z.testbit b n).
Qed.

Lemma lor_ge_r a b : 0 ≤ a → 0 ≤ b → b ≤ Z.lor a b.
Proof. intros. rewrite Z.lor_comm. by apply lor_ge_l. Qed.

Ltac rune_bits :=
  unfold rune2, rune3, rune4;
  change 31 with (Z.ones 5); change 15 with (Z.ones 4);
  change 7 with (Z.ones 3); change 63 with (Z.ones 6);
  rewrite ?Z.land_ones by lia; rewrite ?Z.shiftl_mul_pow2 by lia;
  change (2 ^ 5) with 32; change (2 ^ 4) with 16; change (2 ^ 3) with 8;
  change (2 ^ 6) with 64; change (2 ^ 12) with 4096; change (2 ^ 18) with 262144.

(** Every subterm of a nonnegative [Z.lor] is a lower bound of it. *)
Ltac lor_bounds :=
  repeat match goal with
  | |- context [Z.lor ?a ?b] =>
      lazymatch a with context [Z.lor _ _] => fail | _ => idtac end;
      lazymatch b with context [Z.lor _ _] => fail | _ => idtac end;
      let H1 := fresh in let H2 := fresh in let r := fresh in
      assert (a ≤ Z.lor a b) as H1 by (apply lor_ge_l; int_lia);
      assert (b ≤ Z.lor a b) as H2 by (apply lor_ge_r; int_lia);
      generalize dependent (Z.lor a b); intros r H1 H2
  end.

Lemma rune2_ge b0 b1 : 128 ≤ byte b0 < 224 → second_ok b0 b1 = true → 128 ≤ rune2 b0 b1.
Proof.
  unfold second_ok, continuation, in_range. intros Hb Hs.
  pose proof (byte_range b1). rune_bits. lor_bounds. case_all; int_lia.
Qed.

Lemma rune3_ge b0 b1 b2 : 224 ≤ byte b0 < 240 → second_ok b0 b1 = true → 128 ≤ rune3 b0 b1 b2.
Proof.
  unfold second_ok, continuation, in_range. intros Hb Hs.
  pose proof (byte_range b1). pose proof (byte_range b2). rune_bits. lor_bounds. case_all; int_lia.
Qed.

Lemma rune4_ge b0 b1 b2 b3 : 240 ≤ byte b0 → second_ok b0 b1 = true → 128 ≤ rune4 b0 b1 b2 b3.
Proof.
  unfold second_ok, continuation, in_range. intros Hb Hs.
  pose proof (byte_range b1). pose proof (byte_range b2). pose proof (byte_range b3).
  rune_bits. lor_bounds. case_all; int_lia.
Qed.

(** A [range] loop that tests an ASCII class is the byte loop. *)
Lemma range_loop_ascii (p : Z → bool) s :
  (∀ z, p z = true → z < 128) → forallb p (runes s) = forallb p (bytes s).
Proof.
  intros Hp. induction s as [|b0 s1 IH]; [done|].
  assert (∀ z, 128 ≤ z → p z = false) as Hbig.
  { intros z Hz. destruct (p z) eqn:E; [|done]. apply Hp in E. lia. }
  cbn [runes bytes]. destruct (byte b0 <? 128) eqn:H0; bool_props.
  { cbn. by rewrite IH. }
  transitivity false; [|cbn; by rewrite (Hbig (byte b0))].
  pose proof (byte_range b0).
  repeat case_match; cbn [forallb]; bool_props; apply andb_false_iff; left; apply Hbig;
    try (unfold RuneError; lia).
  - apply rune2_ge; [lia|done].
  - apply rune3_ge; [lia|done].
  - apply rune4_ge; [lia|done].
Qed.

Lemma bytes_forallb (p : Z → bool) s :
  forallb p (bytes s) = string_forallb (λ c, p (byte c)) s.
Proof. induction s as [|c s IH]; cbn; [done|]. by rewrite IH. Qed.

(** ** strconv: decimal digits *)
Definition digit_rune (z : Z) : bool := (48 <=? z) && (z <=? 57).
Definition is_digit (c : ascii) : bool := digit_rune (byte c).
Definition all_digits (s : string) : bool := string_forallb is_digit s.

(** Horner evaluation of a digit string from the accumulator [n]. *)
Fixpoint horner (n : Z) (s : string) : Z :=
  match s with "" => n | String c s => horner (n * 10 + (byte c - 48)) s end.

Definition cutoff64 : Z := MaxUint64 / 10 + 1.

(** strconv.ParseUint(s, 10, bitSize), with [max] = 2^bitSize - 1. *)
Fixpoint parse_uint_loop (max n : Z) (s : string) : result Z :=
  match s with
  | "" => Ok n
  | String c s =>
      if negb (is_digit c) then Err (Sentinel ErrSyntax)
      else if cutoff64 <=? n then Err (Sentinel ErrRange)
      else
        let n := uint64 (n * 10) in
        let n1 := uint64 (n + (byte c - 48)) in
        if (n1 <? n) || (max <? n1) then Err (Sentinel ErrRange)
        else parse_uint_loop max n1 s
  end.

Definition ParseUint (s : string) (max : Z) : result Z :=
  match s with
  | "" => Err (Sentinel ErrSyntax)
  | _ => parse_uint_loop max 0 s
  end.

(** strconv.ParseInt(s, 10, bitSize) with [half] = 2^(bitSize-1); a sign is
    consumed first, a magnitude beyond the signed range is ErrRange. *)
Definition ParseInt (s : string) (half : Z) : result Z :=
  match s with
  | "" => Err (Sentinel ErrSyntax)
  | String c rest =>
      let neg := bool_decide (c = "-"%char) in
      let digits := if neg || bool_decide (c = "+"%char) then rest else s in
      un ← ParseUint digits (2 * half - 1);
      if negb neg && (half <=? un) then Err (Sentinel ErrRange)
      else if neg && (half <? un) then Err (Sentinel ErrRange)
      else Ok (if neg then - un else un)
  end.

(** strconv.Atoi on a 64-bit platform. *)
Definition Atoi (s : string) : result Z := ParseInt s 9223372036854775808.

(** strconv.FormatUint(n, 10): 20 digits are enough for a uint64. *)
Definition digit_char (d : Z) : ascii := ascii_of_N (Z.to_N (48 + d)).

Fixpoint format_digits (fuel : nat) (n : Z) (acc : string) : string :=
  match fuel with
  | O => acc
  | S fuel =>
      let acc := String (digit_char (n mod 10)) acc in
      if n <? 10 then acc else format_digits fuel (n / 10) acc
  end.

Definition FormatUint (n : Z) : string := format_digits 20 n "".

(** strconv.Itoa *)
Definition Itoa (n : Z) : string :=
  if n <? 0 then String "-" (FormatUint (- n)) else FormatUint n.

Lemma byte_digit_char d : 0 ≤ d < 10 → byte (digit_char d) = 48 + d.
Proof.
  intros. unfold byte, digit_char. rewrite N_ascii_embedding; lia.
Qed.

Lemma is_digit_range c : is_digit c = true ↔ 48 ≤ byte c ≤ 57.
Proof. unfold is_digit, digit_rune. rewrite andb_true_iff, !Z.leb_le. done. Qed.

Lemma is_digit_digit_char d : 0 ≤ d < 10 → is_digit (digit_char d) = true.
Proof. intros. apply is_digit_range. rewrite byte_digit_char; lia. Qed.

Lemma horner_app n s t : horner n (s +:+ t) = horner (horner n s) t.
Proof. revert n. induction s as [|c s IH]; intros n; [done|]. rewrite app_cons. cbn. apply IH. Qed.

Lemma horner_shift n s :
  horner n s = n * 10 ^ Z.of_nat (String.length s) + horner 0 s.
Proof.
  revert n. induction s as [|c s IH]; intros n; cbn [horner String.length].
  - change (10 ^ Z.of_nat 0) with 1. lia.
  - rewrite IH, (IH (0 * 10 + _)), Nat2Z.inj_succ, Z.pow_succ_r by lia. ring.
Qed.

Lemma horner_bounds s :
  all_digits s = true → 0 ≤ horner 0 s < 10 ^ Z.of_nat (String.length s).
Proof.
  unfold all_digits. induction s as [|c s IH]; cbn [horner String.length string_forallb]; [lia|].
  intros [Hc%is_digit_range Hs]%andb_true_iff. rewrite horner_shift, Nat2Z.inj_succ, Z.pow_succ_r by lia.
  specialize (IH Hs). nia.
Qed.

Lemma horner_ge n s : 0 ≤ n → all_digits s = true → n ≤ horner n s.
Proof.
  intros Hn Hs. rewrite horner_shift. pose proof (horner_bounds s Hs).
  assert (0 < 10 ^ Z.of_nat (String.length s)) by (apply Z.pow_pos_nonneg; lia). nia.
Qed.

(** [ParseUint] accepts exactly the in-range digit strings. *)
Lemma parse_uint_loop_Ok max n s v :
  0 ≤ n ≤ max → max ≤ MaxUint64 →
  parse_uint_loop max n s = Ok v ↔ all_digits s = true ∧ horner n s = v ∧ v ≤ max.
Proof.
  intros Hn Hmax. revert n Hn. unfold all_digits.
  induction s as [|c s IH]; intros n Hn; cbn [parse_uint_loop string_forallb horner].
  { split; [intros [= <-]; split_and!; [done|done|lia]|by intros (_ & -> & _)]. }
  destruct (is_digit c) eqn:Hc; cbn [negb andb]; [|split; [done|by intros []]].
  apply is_digit_range in Hc.
  assert (∀ m, 0 ≤ m → all_digits s = true → m ≤ horner m s) as Hge by (intros; by apply horner_ge).
  destruct (Z.leb_spec cutoff64 n) as [Hcut|Hcut].
  { split; [done|]. intros (Hs & Hv & Hle). exfalso.
    specialize (Hge (n * 10 + (byte c - 48)) ltac:(lia) Hs).
    change cutoff64 with 1844674407370955162 in Hcut. unfold_ints; lia. }
  change cutoff64 with 1844674407370955162 in Hcut.
  rewrite (uint64_id (n * 10)) by (unfold_ints; lia).
  destruct (Z.le_gt_cases (n * 10 + (byte c - 48)) max) as [Hle|Hgt].
  - rewrite uint64_id by (unfold_ints; lia).
    destruct (Z.ltb_spec (n * 10 + (byte c - 48)) (n * 10)); [lia|].
    destruct (Z.ltb_spec max (n * 10 + (byte c - 48))); [lia|]. cbn [orb].
    apply IH. lia.
  - split.
    + intros H. exfalso. revert H.
      destruct (Z.ltb_spec (uint64 (n * 10 + (byte c - 48))) (n * 10)); [done|].
      destruct (Z.ltb_spec max (uint64 (n * 10 + (byte c - 48)))) as [|Hx]; [done|].
      unfold uint64 in *. unfold_ints. Z.to_euclidean_division_equations. lia.
    + intros (Hs & Hv & Hle). exfalso.
      specialize (Hge (n * 10 + (byte c - 48)) ltac:(lia) Hs). lia.
Qed.

Lemma ParseUint_Ok max s v :
  0 ≤ max ≤ MaxUint64 →
  ParseUint s max = Ok v ↔ s ≠ "" ∧ all_digits s = true ∧ horner 0 s = v ∧ v ≤ max.
Proof.
  intros Hmax. unfold ParseUint. destruct s as [|c s]; [split; [done|by intros []]|].
  rewrite parse_uint_loop_Ok by lia. naive_solver.
Qed.

(** The digits [format_digits] prints evaluate to the number. *)
Lemma format_digits_spec fuel n acc :
  0 ≤ n < 10 ^ Z.of_nat fuel → (0 < fuel)%nat →
  ∃ ds, format_digits fuel n acc = ds +:+ acc ∧ all_digits ds = true ∧ horner 0 ds = n ∧ ds ≠ "".
Proof.
  revert n acc. induction fuel as [|fuel IH]; intros n acc Hn Hf; [lia|].
  cbn [format_digits]. pose proof (Z.mod_pos_bound n 10 eq_refl) as Hm.
  destruct (Z.ltb_spec n 10) as [Hlt|Hge].
  - exists (String (digit_char (n mod 10)) ""). split_and!; [done| |  |done].
    + unfold all_digits. cbn. by rewrite is_digit_digit_char.
    + cbn. rewrite byte_digit_char by lia. rewrite Z.mod_small; lia.
  - rewrite Nat2Z.inj_succ, Z.pow_succ_r in Hn by lia.
    assert (0 < fuel)%nat by (destruct fuel; [change (10 ^ Z.of_nat 0) with 1 in Hn; lia|lia]).
    destruct (IH (n / 10) (String (digit_char (n mod 10)) acc)) as (ds & -> & Hds & Hval & Hne);
      [Z.to_euclidean_division_equations; lia|done|].
    exists (ds +:+ String (digit_char (n mod 10)) ""). split_and!.
    + by rewrite app_assoc, app_cons, app_nil_l.
    + unfold all_digits in *. rewrite string_forallb_app, Hds. cbn. by rewrite is_digit_digit_char.
    + rewrite horner_app, Hval. cbn. rewrite byte_digit_char by lia.
      Z.to_euclidean_division_equations; lia.
    + destruct ds; [done|]. by rewrite app_cons.
Qed.

Lemma FormatUint_spec n :
  in_uint64 n → all_digits (FormatUint n) = true ∧ horner 0 (FormatUint n) = n ∧ FormatUint n ≠ "".
Proof.
  intros Hn. destruct (format_digits_spec 20 n "") as (ds & Heq & ?).
  - change (10 ^ Z.of_nat 20) with 100000000000000000000. unfold_ints; lia.
  - lia.
  - unfold FormatUint. rewrite Heq, app_nil_r. done.
Qed.

Lemma ParseUint_FormatUint n max :
  in_uint64 n → n ≤ max ≤ MaxUint64 → ParseUint (FormatUint n) max = Ok n.
Proof.
  intros Hn Hmax. destruct (FormatUint_spec n Hn) as (? & ? & ?).
  apply ParseUint_Ok; [unfold_ints; lia|]. naive_solver lia.
Qed.

Lemma horner_nonneg s : all_digits s = true → 0 ≤ horner 0 s.
Proof. apply (horner_ge 0 s). lia. Qed.

Lemma ParseInt_range s half v : 0 < half ≤ 9223372036854775808 →
  ParseInt s half = Ok v → - half ≤ v < half.
Proof.
  intros Hh. unfold ParseInt. destruct s as [|c rest]; [done|].
  intros (un & Hu & H)%result_bind_Ok. apply ParseUint_Ok in Hu as (_ & Hd & <- & _); [|unfold_ints; lia].
  apply horner_nonneg in Hd.
  destruct (bool_decide (c = "-"%char)); cbn in H, Hd;
    (destruct (half <? _) eqn:? in H || destruct (half <=? _) eqn:? in H); simplify_eq; bool_props; lia.
Qed.

(** Atoi inverts the decimal digits of a number it can represent. *)
Lemma Atoi_FormatUint n : 0 ≤ n ≤ MaxInt64 → Atoi (FormatUint n) = Ok n.
Proof.
  intros Hn. assert (in_uint64 n) as Hu by (unfold_ints; lia).
  destruct (FormatUint_spec n Hu) as (Hd & _ & Hne). unfold Atoi, ParseInt.
  destruct (FormatUint n) as [|c rest] eqn:E; [done|].
  unfold all_digits in Hd. cbn in Hd. apply andb_true_iff in Hd as [Hc _]. apply is_digit_range in Hc.
  rewrite !(bool_decide_eq_false_2 (c = _)) by (intros ->; destruct Hc as [Hc _]; by apply Hc).
  cbn [orb]. rewrite <-E, ParseUint_FormatUint by (unfold_ints; lia). cbn.
  destruct (Z.leb_spec 9223372036854775808 n); [unfold_ints; lia|done].
Qed.

Lemma FormatUint_head n : in_uint64 n → ∃ c t, FormatUint n = String c t ∧ is_digit c = true.
Proof.
  intros Hn. destruct (FormatUint_spec n Hn) as (Hd & _ & Hne). destruct (FormatUint n) as [|c t]; [done|].
  exists c, t. split; [done|]. unfold all_digits in Hd. cbn in Hd. by apply andb_true_iff in Hd as [Hd _].
Qed.

(** ParseInt inverts Itoa within the width. *)
Lemma ParseInt_Itoa n half : 0 < half ≤ 9223372036854775808 → - half ≤ n < half → ParseInt (Itoa n) half = Ok n.
Proof.
  intros Hh Hn. unfold Itoa. destruct (Z.ltb_spec n 0).
  - unfold ParseInt. rewrite bool_decide_eq_true_2 by done. cbn [orb].
    rewrite ParseUint_FormatUint by (unfold_ints; lia). cbn. destruct (Z.ltb_spec half (- n)); [lia|]. f_equal. lia.
  - destruct (FormatUint_head n) as (c & t & E & Hc); [unfold_ints; lia|]. unfold ParseInt. rewrite E. apply is_digit_range in Hc.
    rewrite !(bool_decide_eq_false_2 (c = _)) by (intros ->; destruct Hc as [Hc _]; by apply Hc).
    cbn [orb]. rewrite <-E, ParseUint_FormatUint by (unfold_ints; lia). cbn.
    by destruct (Z.leb_spec half n); [lia|].
Qed.
