(* ===== verification/GoUtf8.v ===== *)
(** * UTF-8 as unicode/utf8 reads it

    A byte string as the sequence of the runes utf8.DecodeRune finds in it, each
    with its bytes, and the single bytes it rejects; the string with every rejected
    byte replaced by U+FFFD, as encoding/json replaces them; utf8.AppendRune. *)
From S2P Require Import Prelude GoStrings.

Inductive chunk :=
  | Seq (bytes : string)    (* a valid sequence of one to four bytes *)
  | Bad (b : ascii).        (* a byte DecodeRune rejects: RuneError, width 1 *)

Fixpoint chunks (s : string) : list chunk :=
  match s with
  | "" => []
  | String b0 s1 =>
      if byte b0 <? 128 then Seq (String b0 "") :: chunks s1
      else match s1 with
      | "" => Bad b0 :: chunks s1
      | String b1 s2 =>
          if negb (second_ok b0 b1) then Bad b0 :: chunks s1
          else if byte b0 <? 224 then Seq (String b0 (String b1 "")) :: chunks s2
          else match s2 with
          | "" => Bad b0 :: chunks s1
          | String b2 s3 =>
              if negb (continuation b2) then Bad b0 :: chunks s1
              else if byte b0 <? 240 then Seq (String b0 (String b1 (String b2 ""))) :: chunks s3
              else match s3 with
              | "" => Bad b0 :: chunks s1
              | String b3 s4 =>
                  if negb (continuation b3) then Bad b0 :: chunks s1
                  else Seq (String b0 (String b1 (String b2 (String b3 "")))) :: chunks s4
              end
          end
      end
  end.

Definition chunk_bytes (c : chunk) : string := match c with Seq q => q | Bad b => String b "" end.

Definition replacement : string :=
  String (ascii_of_N 239) (String (ascii_of_N 191) (String (ascii_of_N 189) "")).

Definition clean (c : chunk) : string := match c with Seq q => q | Bad _ => replacement end.

Fixpoint concatStrings (l : list string) : string := match l with [] => "" | s :: l => s +:+ concatStrings l end.

(** The string with each rejected byte replaced by U+FFFD. *)
Definition ToValid (s : string) : string := concatStrings (clean <$> chunks s).

Definition is_seq (c : chunk) : bool := match c with Seq _ => true | Bad _ => false end.

(** utf8.ValidString *)
Definition ValidString (s : string) : bool := forallb is_seq (chunks s).

#[global] Arguments ValidString : simpl never.
#[global] Arguments ToValid : simpl never.

(** ** Sequences *)
Inductive sequence_ok : string → Prop :=
  | ok1 b0 : byte b0 < 128 → sequence_ok (String b0 "")
  | ok2 b0 b1 : 128 ≤ byte b0 < 224 → second_ok b0 b1 = true → sequence_ok (String b0 (String b1 ""))
  | ok3 b0 b1 b2 : 224 ≤ byte b0 < 240 → second_ok b0 b1 = true → continuation b2 = true →
      sequence_ok (String b0 (String b1 (String b2 "")))
  | ok4 b0 b1 b2 b3 : 240 ≤ byte b0 → second_ok b0 b1 = true → continuation b2 = true → continuation b3 = true →
      sequence_ok (String b0 (String b1 (String b2 (String b3 "")))).

Definition chunk_ok (c : chunk) : Prop := match c with Seq q => sequence_ok q | Bad b => 128 ≤ byte b end.

(** One chunk at a time: what [chunks] does at the head. *)
Lemma chunks_cons s : s ≠ "" → ∃ c t, chunks s = c :: chunks t ∧ s = chunk_bytes c +:+ t ∧ chunk_ok c.
Proof.
  destruct s as [|b0 s1]; [done|]. intros _. cbn [chunks].
  destruct (Z.ltb_spec (byte b0) 128) as [L0|L0].
  { exists (Seq (String b0 "")), s1. split; [done|]. split; [done|by constructor]. }
  assert (∃ c t, Bad b0 :: chunks s1 = c :: chunks t ∧ String b0 s1 = chunk_bytes c +:+ t ∧ chunk_ok c) as Hbad
    by (exists (Bad b0), s1; done).
  destruct s1 as [|b1 s2]; [done|]. destruct (second_ok b0 b1) eqn:H1; cbn [negb]; [|done].
  destruct (Z.ltb_spec (byte b0) 224) as [L1|L1].
  { exists (Seq (String b0 (String b1 ""))), s2. split; [done|]. split; [done|by constructor]. }
  destruct s2 as [|b2 s3]; [done|]. destruct (continuation b2) eqn:H2; cbn [negb]; [|done].
  destruct (Z.ltb_spec (byte b0) 240) as [L2|L2].
  { exists (Seq (String b0 (String b1 (String b2 "")))), s3. split; [done|]. split; [done|by constructor]. }
  destruct s3 as [|b3 s4]; [done|]. destruct (continuation b3) eqn:H3; cbn [negb]; [|done].
  exists (Seq (String b0 (String b1 (String b2 (String b3 ""))))), s4. split; [done|]. split; [done|by constructor].
Qed.

Lemma chunk_bytes_length c : chunk_ok c → (0 < String.length (chunk_bytes c))%nat.
Proof. destruct c as [q|b]; cbn; [by destruct 1; cbn; lia|lia]. Qed.

(** Induction over a string by its chunks. *)
Lemma by_chunks (P : string → Prop) :
  P "" → (∀ c t, chunk_ok c → chunks (chunk_bytes c +:+ t) = c :: chunks t → P t → P (chunk_bytes c +:+ t)) → ∀ s, P s.
Proof.
  intros H0 Hc s. remember (String.length s) as n eqn:Hn. revert s Hn.
  induction n as [n IH] using lt_wf_ind. intros s ->.
  destruct (decide (s = "")) as [->|Hs]; [done|].
  destruct (chunks_cons s Hs) as (c & t & E & -> & Hok). pose proof (chunk_bytes_length c Hok).
  apply Hc; [done|done|]. eapply IH; [|reflexivity]. rewrite length_string_app. lia.
Qed.

Lemma second_high b0 b1 : second_ok b0 b1 = true → 128 ≤ byte b1.
Proof. unfold second_ok, continuation, in_range. intros H. case_all; bool_props; lia. Qed.

Lemma continuation_high b : continuation b = true → 128 ≤ byte b.
Proof. unfold continuation, in_range. intros. bool_props. lia. Qed.

(** A valid sequence is one chunk, whatever follows it. *)
Lemma chunks_sequence q t : sequence_ok q → chunks (q +:+ t) = Seq q :: chunks t.
Proof.
  destruct 1 as [b0 H|b0 b1 H H1|b0 b1 b2 H H1 H2|b0 b1 b2 b3 H H1 H2 H3];
    rewrite !app_cons, app_nil_l; cbn [chunks].
  - destruct (Z.ltb_spec (byte b0) 128); [done|lia].
  - destruct (Z.ltb_spec (byte b0) 128); [lia|]. rewrite H1. cbn. by destruct (Z.ltb_spec (byte b0) 224); [|lia].
  - destruct (Z.ltb_spec (byte b0) 128); [lia|]. rewrite H1, H2. cbn.
    destruct (Z.ltb_spec (byte b0) 224); [lia|]. by destruct (Z.ltb_spec (byte b0) 240); [|lia].
  - destruct (Z.ltb_spec (byte b0) 128); [lia|]. rewrite H1, H2, H3. cbn.
    destruct (Z.ltb_spec (byte b0) 224); [lia|]. by destruct (Z.ltb_spec (byte b0) 240); [lia|].
Qed.

Lemma chunks_ascii c t : byte c < 128 → chunks (String c t) = Seq (String c "") :: chunks t.
Proof. intros H. apply (chunks_sequence (String c "")). by constructor. Qed.

Lemma chunks_app_ok l t :
  Forall (λ c, ∃ q, c = Seq q ∧ sequence_ok q) l → chunks (concatStrings (chunk_bytes <$> l) +:+ t) = l ++ chunks t.
Proof.
  induction 1 as [|c l (q & -> & Hq) _ IH]; [done|]. rewrite fmap_cons. cbn [concatStrings chunk_bytes].
  rewrite app_assoc, chunks_sequence by done. by rewrite IH.
Qed.

Lemma concatStrings_chunks s : concatStrings (chunk_bytes <$> chunks s) = s.
Proof. induction s as [|c t Hc E IH] using by_chunks; [done|]. rewrite E, fmap_cons. cbn [concatStrings]. by rewrite IH. Qed.

Lemma chunks_ok s : Forall chunk_ok (chunks s).
Proof. induction s as [|c t Hc E IH] using by_chunks; [constructor|]. rewrite E. by constructor. Qed.

Lemma ToValid_cons c t : chunks (chunk_bytes c +:+ t) = c :: chunks t →
  ToValid (chunk_bytes c +:+ t) = clean c +:+ ToValid t.
Proof. intros E. unfold ToValid. by rewrite E. Qed.

(** A valid string is left as it is. *)
Lemma ToValid_valid s : ValidString s = true → ToValid s = s.
Proof.
  unfold ValidString. induction s as [|c t Hc E IH] using by_chunks; [done|].
  rewrite (ToValid_cons c t E), E. cbn. intros [Hs Ht]%andb_true_iff. rewrite IH by done. by destruct c.
Qed.

Lemma clean_ok c : chunk_ok c → sequence_ok (clean c).
Proof. destruct c as [q|b]; cbn; [done|]. intros _. apply ok3; vm_compute; done. Qed.

Lemma chunks_ToValid s : chunks (ToValid s) = (λ c, Seq (clean c)) <$> chunks s.
Proof.
  induction s as [|c t Hc E IH] using by_chunks; [done|].
  rewrite (ToValid_cons c t E), chunks_sequence by (by apply clean_ok). by rewrite E, fmap_cons, IH.
Qed.

(** Replacing once is enough. *)
Lemma ToValid_ValidString s : ValidString (ToValid s) = true.
Proof. unfold ValidString. rewrite chunks_ToValid. induction (chunks s) as [|c l IH]; [done|exact IH]. Qed.

Lemma ValidString_ascii s : string_forallb (λ c, byte c <? 128) s = true → ValidString s = true.
Proof.
  unfold ValidString. induction s as [|c s IH]; [done|]. cbn [string_forallb]. intros [Hc Hs]%andb_true_iff. bool_props.
  rewrite chunks_ascii by done. cbn. auto.
Qed.

#[export] Hint Resolve ValidString_ascii ToValid_ValidString : go_str.

(** ** utf8.AppendRune, for the \u escapes *)
Definition utf8_byte (z : Z) : ascii := ascii_of_N (Z.to_N z).

Definition AppendRune (r : Z) : string :=
  if (0 <=? r) && (r <? 128) then String (utf8_byte r) ""
  else if (0 <=? r) && (r <? 2048) then
    String (utf8_byte (192 + r / 64)) (String (utf8_byte (128 + r mod 64)) "")
  else if (r <? 0) || (1114111 <? r) || ((55296 <=? r) && (r <=? 57343)) then replacement
  else if r <? 65536 then
    String (utf8_byte (224 + r / 4096)) (String (utf8_byte (128 + r / 64 mod 64)) (String (utf8_byte (128 + r mod 64)) ""))
  else
    String (utf8_byte (240 + r / 262144)) (String (utf8_byte (128 + r / 4096 mod 64))
      (String (utf8_byte (128 + r / 64 mod 64)) (String (utf8_byte (128 + r mod 64)) ""))).

Lemma ValidString_app q t : sequence_ok q → ValidString (q +:+ t) = ValidString t.
Proof. intros H. unfold ValidString. by rewrite chunks_sequence. Qed.

Lemma byte_utf8_byte z : 0 ≤ z < 256 → byte (utf8_byte z) = z.
Proof. intros. unfold byte, utf8_byte. rewrite N_ascii_embedding; lia. Qed.

Lemma continuation_byte z : 0 ≤ z < 64 → continuation (utf8_byte (128 + z)) = true.
Proof. intros. unfold continuation, in_range. rewrite byte_utf8_byte by lia. apply andb_true_iff; split; apply Z.leb_le; lia. Qed.

(** What AppendRune writes is one valid sequence. *)
Lemma AppendRune_ok r : sequence_ok (AppendRune r).
Proof.
  assert (sequence_ok replacement) as Hr by (apply ok3; vm_compute; done).
  assert (∀ x, 0 ≤ x mod 64 < 64) as Hm by (intros; apply Z.mod_pos_bound; lia).
  unfold AppendRune. destruct ((0 <=? r) && (r <? 128)) eqn:E1; [bool_props; apply ok1; rewrite byte_utf8_byte by lia; lia|].
  destruct ((0 <=? r) && (r <? 2048)) eqn:E2.
  { bool_props. apply andb_false_iff in E1 as [E1|E1]; bool_props; [lia|].
    assert (2 ≤ r / 64 < 32) by (Z.to_euclidean_division_equations; lia).
    apply ok2; [rewrite byte_utf8_byte by lia; lia|]. unfold second_ok. rewrite byte_utf8_byte, continuation_byte by (lia || apply Hm).
    destruct (Z.leb_spec 194 (192 + r / 64)), (Z.leb_spec (192 + r / 64) 223); done || lia. }
  destruct (_ || _) eqn:E3; [done|]. bool_props. apply andb_false_iff in E2 as [E2|E2]; bool_props; [lia|].
  destruct (Z.ltb_spec r 65536) as [Hlt|Hge].
  - assert (0 ≤ r / 4096 < 16) by (Z.to_euclidean_division_equations; lia).
    apply ok3; [rewrite byte_utf8_byte by lia; lia| |by apply continuation_byte].
    apply andb_false_iff in H0. rewrite Z.leb_gt, Z.leb_gt in H0. pose proof (Hm (r / 64)).
    unfold second_ok, continuation, in_range. rewrite !byte_utf8_byte by lia.
    assert (r / 4096 = 0 → 32 ≤ r / 64 mod 64) by (Z.to_euclidean_division_equations; lia).
    assert (r / 4096 = 13 → r / 64 mod 64 < 32) by (Z.to_euclidean_division_equations; lia).
    case_all; lia || (apply andb_true_iff; split; apply Z.leb_le; lia) || (rewrite andb_false_iff, ?Z.leb_gt in *; lia).
  - assert (0 ≤ r / 262144 ≤ 4) by (Z.to_euclidean_division_equations; lia).
    apply ok4; [rewrite byte_utf8_byte by lia; lia| |by apply continuation_byte..]. pose proof (Hm (r / 4096)).
    unfold second_ok, continuation, in_range. rewrite !byte_utf8_byte by lia.
    assert (r / 262144 = 0 → 16 ≤ r / 4096 mod 64) by (Z.to_euclidean_division_equations; lia).
    assert (r / 262144 = 4 → r / 4096 mod 64 < 16) by (Z.to_euclidean_division_equations; lia).
    case_all; lia || (apply andb_true_iff; split; apply Z.leb_le; lia) || (rewrite andb_false_iff, ?Z.leb_gt in *; lia).
Qed.
