(* ===== verification/GoJson.v ===== *)
(** * JSON as encoding/json reads and writes it

    Values with their strings unquoted and their numbers as written; the grammar
    of the scanner, nesting limit included; Marshal's text, with its escapes; and
    how Unmarshal stores a value into a struct or a map: exact names before folded
    ones, null as no value, unknown names skipped, a mismatch reported at the end.
    The theorems: reading back what was written gives the value with its strings
    made valid UTF-8, and the reader's fuel is always enough. *)
From S2P Require Import Prelude GoStrings GoUtf8.

Inductive json :=
  | JNull
  | JBool (b : bool)
  | JNumber (lit : string)
  | JString (s : string)
  | JArray (vs : list json)
  | JObject (ms : list (string * json)).

(** Induction with the elements and members. *)
Section json_induction.
Context (P : json → Prop) (Hnull : P JNull) (Hbool : ∀ b, P (JBool b)) (Hnumber : ∀ lit, P (JNumber lit))
  (Hstring : ∀ s, P (JString s)) (Harray : ∀ vs, Forall P vs → P (JArray vs))
  (Hobject : ∀ ms, Forall (λ m, P m.2) ms → P (JObject ms)).

Fixpoint json_nested (v : json) : P v :=
  match v with
  | JNull => Hnull
  | JBool b => Hbool b
  | JNumber lit => Hnumber lit
  | JString s => Hstring s
  | JArray vs => Harray vs ((fix go vs : Forall P vs :=
      match vs with [] => List.Forall_nil _ | v :: vs => @List.Forall_cons _ P v vs (json_nested v) (go vs) end) vs)
  | JObject ms => Hobject ms ((fix go ms : Forall (λ m, P m.2) ms :=
      match ms with [] => List.Forall_nil _ | (k, v) :: ms => @List.Forall_cons _ (λ m, P m.2) (k, v) ms (json_nested v) (go ms) end) ms)
  end.
End json_induction.

(** ** Characters *)
Definition quote : ascii := "034"%char.
Definition backslash : ascii := "\"%char.

Definition eqc (c d : ascii) : bool := Ascii.eqb c d.
Definition one_of (cs : list ascii) (c : ascii) : bool := existsb (eqc c) cs.

(** isSpace *)
Definition isSpace (c : ascii) : bool := one_of [" "; "009"; "013"; "010"]%char c.

Fixpoint skipSpace (s : string) : string :=
  match s with String c t => if isSpace c then skipSpace t else s | "" => "" end.

Definition hexValue (c : ascii) : option Z :=
  let b := byte c in
  if is_digit c then Some (b - 48)
  else if (97 <=? b) && (b <=? 102) then Some (b - 87)
  else if (65 <=? b) && (b <=? 70) then Some (b - 55)
  else None.

Definition is_hex (c : ascii) : bool := match hexValue c with Some _ => true | None => false end.

(** ** Reading strings *)

(** From after the opening quote to after the closing one: the raw contents. *)
Fixpoint scanString (s : string) : option (string * string) :=
  match s with
  | "" => None
  | String c s1 =>
      if eqc c quote then Some ("", s1)
      else if byte c <? 32 then None
      else if eqc c backslash then
        match s1 with
        | "" => None
        | String e s2 =>
            if one_of ["b"; "f"; "n"; "r"; "t"; backslash; "/"; quote]%char e
            then prod_map (λ raw, String c (String e raw)) id <$> scanString s2
            else if eqc e "u"%char then
              match s2 with
              | String h1 (String h2 (String h3 (String h4 s3))) =>
                  if is_hex h1 && is_hex h2 && is_hex h3 && is_hex h4
                  then prod_map (λ raw, String c (String e (String h1 (String h2 (String h3 (String h4 raw)))))) id
                         <$> scanString s3
                  else None
              | _ => None
              end
            else None
        end
      else prod_map (String c) id <$> scanString s1
  end.

Definition getu4 (h1 h2 h3 h4 : ascii) : option Z :=
  a ← hexValue h1; b ← hexValue h2; c ← hexValue h3; d ← hexValue h4;
  Some (((a * 16 + b) * 16 + c) * 16 + d).

(** utf16.IsSurrogate and utf16.DecodeRune: None is ReplacementChar. *)
Definition IsSurrogate (r : Z) : bool := (55296 <=? r) && (r <? 57344).
Definition DecodeRune (r1 r2 : Z) : option Z :=
  if (55296 <=? r1) && (r1 <? 56320) && (56320 <=? r2) && (r2 <? 57344)
  then Some ((r1 - 55296) * 1024 + (r2 - 56320) + 65536) else None.

(** The byte a one-letter escape stands for. *)
Definition unescape1 (e : ascii) : option ascii :=
  if one_of [quote; backslash; "/"%char] e then Some e
  else if eqc e "b"%char then Some "008"%char
  else if eqc e "f"%char then Some "012"%char
  else if eqc e "n"%char then Some "010"%char
  else if eqc e "r"%char then Some "013"%char
  else if eqc e "t"%char then Some "009"%char
  else None.

(** A \u escape at the head of the chunks: its value and what follows. *)
Definition escape4 (cs : list chunk) : option (Z * list chunk) :=
  match cs with
  | Seq (String b "") :: Seq (String u "") :: cs =>
      if eqc b backslash && eqc u "u"%char then
        match cs with
        | Seq (String h1 "") :: Seq (String h2 "") :: Seq (String h3 "") :: Seq (String h4 "") :: cs =>
            (λ r, (r, cs)) <$> getu4 h1 h2 h3 h4
        | _ => None
        end
      else None
  | _ => None
  end.

(** unquote, by runes; [fuel] is their number. *)
Fixpoint unquoteChunks (fuel : nat) (cs : list chunk) : option string :=
  match fuel, cs with
  | _, [] => Some ""
  | O, _ => None
  | S fuel, Seq (String c "") :: rest =>
      if eqc c backslash then
        match escape4 cs with
        | Some (r, after) =>
            if IsSurrogate r then
              match escape4 after with
              | Some (r2, after2) =>
                  match DecodeRune r r2 with
                  | Some r => String.append (AppendRune r) <$> unquoteChunks fuel after2
                  | None => String.append replacement <$> unquoteChunks fuel after
                  end
              | None => String.append replacement <$> unquoteChunks fuel after
              end
            else String.append (AppendRune r) <$> unquoteChunks fuel after
        | None =>
            match rest with
            | Seq (String e "") :: rest => e ← unescape1 e; String e <$> unquoteChunks fuel rest
            | _ => None
            end
        end
      else String c <$> unquoteChunks fuel rest
  | S fuel, c :: rest => String.append (clean c) <$> unquoteChunks fuel rest
  end.

Definition unquote (raw : string) : option string := unquoteChunks (length (chunks raw)) (chunks raw).

Definition readString (s : string) : option (string * string) :=
  '(raw, rest) ← scanString s; text ← unquote raw; Some (text, rest).

(** ** Reading numbers: the literal and what follows *)
Fixpoint takeDigits (s : string) : string * string :=
  match s with
  | String c t => if is_digit c then let '(d, r) := takeDigits t in (String c d, r) else ("", s)
  | "" => ("", "")
  end.

Definition takeDigits1 (s : string) : option (string * string) :=
  let '(d, r) := takeDigits s in match d with "" => None | _ => Some (d, r) end.

Definition readInteger (s : string) : option (string * string) :=
  match s with
  | String c t => if eqc c "0"%char then Some ("0", t) else takeDigits1 s
  | "" => None
  end.

Definition readFraction (s : string) : option (string * string) :=
  match s with
  | String c t => if eqc c "."%char then prod_map (String c) id <$> takeDigits1 t else Some ("", s)
  | "" => Some ("", "")
  end.

Definition readExponent (s : string) : option (string * string) :=
  match s with
  | String c t =>
      if one_of ["e"; "E"]%char c then
        match t with
        | String sg u => if one_of ["+"; "-"]%char sg
                         then prod_map (λ d, String c (String sg d)) id <$> takeDigits1 u
                         else prod_map (String c) id <$> takeDigits1 t
        | "" => None
        end
      else Some ("", s)
  | "" => Some ("", "")
  end.

Definition readNumber (s : string) : option (string * string) :=
  let '(sign, s) := match s with
                    | String c t => if eqc c "-"%char then (String c "", t) else ("", s)
                    | "" => ("", s)
                    end in
  '(i, s) ← readInteger s; '(f, s) ← readFraction s; '(e, s) ← readExponent s;
  Some (sign +:+ i +:+ f +:+ e, s).

(** ** Reading values *)
Definition maxNestingDepth : nat := 10000.

(** [depth] is the number of containers that may still be opened. *)
Fixpoint readValue (fuel depth : nat) (s : string) : option (json * string) :=
  match fuel with
  | O => None
  | S fuel =>
      match skipSpace s with
      | "" => None
      | String c t =>
          if eqc c "{"%char then
            match depth with
            | O => None
            | S depth =>
                match skipSpace t with
                | String d u => if eqc d "}"%char then Some (JObject [], u)
                                else prod_map JObject id <$> readMembers fuel depth t
                | "" => None
                end
            end
          else if eqc c "["%char then
            match depth with
            | O => None
            | S depth =>
                match skipSpace t with
                | String d u => if eqc d "]"%char then Some (JArray [], u)
                                else prod_map JArray id <$> readElements fuel depth t
                | "" => None
                end
            end
          else if eqc c quote then prod_map JString id <$> readString t
          else if is_digit c || eqc c "-"%char then prod_map JNumber id <$> readNumber (String c t)
          else match CutPrefix (String c t) "true", CutPrefix (String c t) "false", CutPrefix (String c t) "null" with
               | Some r, _, _ => Some (JBool true, r)
               | None, Some r, _ => Some (JBool false, r)
               | None, None, Some r => Some (JNull, r)
               | None, None, None => None
               end
      end
  end
with readMembers (fuel depth : nat) (s : string) : option (list (string * json) * string) :=
  match fuel with
  | O => None
  | S fuel =>
      match skipSpace s with
      | String c t =>
          if negb (eqc c quote) then None
          else
            '(key, u) ← readString t;
            match skipSpace u with
            | String d u =>
                if negb (eqc d ":"%char) then None
                else
                  '(v, u) ← readValue fuel depth u;
                  match skipSpace u with
                  | String d u =>
                      if eqc d ","%char then prod_map (cons (key, v)) id <$> readMembers fuel depth u
                      else if eqc d "}"%char then Some ([(key, v)], u) else None
                  | "" => None
                  end
            | "" => None
            end
      | "" => None
      end
  end
with readElements (fuel depth : nat) (s : string) : option (list json * string) :=
  match fuel with
  | O => None
  | S fuel =>
      '(v, u) ← readValue fuel depth s;
      match skipSpace u with
      | String d u =>
          if eqc d ","%char then prod_map (cons v) id <$> readElements fuel depth u
          else if eqc d "]"%char then Some ([v], u) else None
      | "" => None
      end
  end.

(** The next value of an input and what follows it. *)
Definition nextValue (s : string) : option (json * string) := readValue (2 * String.length s + 2) maxNestingDepth s.

(** A whole input: one value in white space. *)
Definition readDocument (s : string) : option json :=
  '(v, rest) ← nextValue s; match skipSpace rest with "" => Some v | _ => None end.

(** Examples are written with apostrophes for quotes. *)
Fixpoint dq (s : string) : string :=
  match s with "" => "" | String c t => String (if eqc c "'"%char then quote else c) (dq t) end.

Example readDocument_samples :
  readDocument (dq " {'a': [1, -2.5e+3, true, null], 'b' : {} }") =
    Some (JObject [("a", JArray [JNumber "1"; JNumber "-2.5e+3"; JBool true; JNull]); ("b", JObject [])]) ∧
  readDocument (dq "{'a':1,}") = None ∧ readDocument (dq "[01]") = None ∧ readDocument (dq "1 2") = None ∧
  readDocument (dq "'\u0041\ud83d\ude00\ud800x\n'") =
    Some (JString ("A" +:+ AppendRune 128512 +:+ replacement +:+ "x" +:+ String "010" "")) ∧
  readDocument (dq "'\x'") = None ∧ readDocument (String quote (String (ascii_of_N 255) (String quote ""))) = Some (JString replacement) ∧
  nextValue (dq "nullx") = Some (JNull, "x") ∧ nextValue (dq "1.x") = None.
Proof. vm_compute. done. Qed.

(** ** Writing *)
Definition hexDigit (n : Z) : ascii := if n <? 10 then utf8_byte (48 + n) else utf8_byte (87 + n).

(** An ASCII byte in a string, as the HTML-safe encoder writes it. *)
Definition escapeByte (c : ascii) : string :=
  let b := byte c in
  if eqc c quote || eqc c backslash then String backslash (String c "")
  else if b =? 8 then "\b"
  else if b =? 12 then "\f"
  else if b =? 10 then "\n"
  else if b =? 13 then "\r"
  else if b =? 9 then "\t"
  else if (b <? 32) || one_of ["<"; ">"; "&"]%char c
  then "\u00" +:+ String (hexDigit (b / 16)) (String (hexDigit (b mod 16)) "")
  else String c "".

Definition lineSeparator : string := AppendRune 8232.       (* U+2028 *)
Definition paragraphSeparator : string := AppendRune 8233.  (* U+2029 *)

Definition escapeChunk (c : chunk) : string :=
  match c with
  | Seq (String c "") => escapeByte c
  | Seq q => if bool_decide (q = lineSeparator) then "\u2028"
             else if bool_decide (q = paragraphSeparator) then "\u2029" else q
  | Bad _ => "\ufffd"
  end.

Definition escapeString (s : string) : string := concatStrings (escapeChunk <$> chunks s).

(** appendString *)
Definition quoteString (s : string) : string := String quote (escapeString s +:+ String quote "").

Definition comma (l : list string) : string := Join l ","%char.

(** Marshal's text of a value. *)
Fixpoint encode (v : json) : string :=
  match v with
  | JNull => "null"
  | JBool b => if b then "true" else "false"
  | JNumber lit => lit
  | JString s => quoteString s
  | JArray vs => "[" +:+ comma (encode <$> vs) +:+ "]"
  | JObject ms => "{" +:+ comma ((λ '(k, v), quoteString k +:+ ":" +:+ encode v) <$> ms) +:+ "}"
  end.

Example encode_sample :
  encode (JObject [("a<b", JString ("x" +:+ String "010" (String quote (String (ascii_of_N 200) "")))); ("n", JNumber "-3")]) =
    dq "{'a\u003cb':'x\n\'\ufffd','n':-3}".
Proof. vm_compute. done. Qed.

(** ** Reading back a string *)
Definition ascii_chunks (a : string) : list chunk := (λ c, Seq (String c "")) <$> String.list_ascii_of_string a.

Definition is_ascii (s : string) : bool := string_forallb (λ c, byte c <? 128) s.

Lemma chunks_ascii_app a t : is_ascii a = true → chunks (a +:+ t) = ascii_chunks a ++ chunks t.
Proof.
  unfold is_ascii, ascii_chunks. induction a as [|c a IH]; [done|]. cbn [string_forallb]. intros [Hc Ha]%andb_true_iff. bool_props.
  rewrite app_cons, chunks_ascii by done. rewrite IH by done. done.
Qed.

Lemma escapeByte_ascii c : byte c < 128 → is_ascii (escapeByte c) = true.
Proof. destruct c as [[] [] [] [] [] [] [] []]; intros H; (by vm_compute) || (exfalso; revert H; by vm_compute). Qed.

Lemma scan_plain c t : (eqc c quote || (byte c <? 32) || eqc c backslash) = false →
  scanString (String c t) = prod_map (String c) id <$> scanString t.
Proof. intros [[H1 H2]%orb_false_iff H3]%orb_false_iff. cbn [scanString]. by rewrite H1, H2, H3. Qed.

Lemma scan_short e t : one_of ["b"; "f"; "n"; "r"; "t"; backslash; "/"; quote]%char e = true →
  scanString (String backslash (String e t)) = prod_map (λ raw, String backslash (String e raw)) id <$> scanString t.
Proof. intros H. cbn [scanString]. by rewrite H. Qed.

Lemma scan_u h1 h2 h3 h4 t : is_hex h1 && is_hex h2 && is_hex h3 && is_hex h4 = true →
  scanString (String backslash (String "u" (String h1 (String h2 (String h3 (String h4 t)))))) =
    prod_map (λ raw, String backslash (String "u" (String h1 (String h2 (String h3 (String h4 raw)))))) id <$> scanString t.
Proof. intros H. cbn [scanString]. rewrite H. done. Qed.

Lemma scan_escapeByte c t : byte c < 128 →
  scanString (escapeByte c +:+ t) = prod_map (String.append (escapeByte c)) id <$> scanString t.
Proof.
  destruct c as [[] [] [] [] [] [] [] []]; intros H; try (exfalso; revert H; by vm_compute); clear H;
    (match goal with |- context [escapeByte ?c] =>
       let e := eval vm_compute in (escapeByte c) in change (escapeByte c) with e end);
    rewrite ?app_cons, app_nil_l;
    first [rewrite scan_u by reflexivity | rewrite scan_short by reflexivity | rewrite scan_plain by reflexivity];
    by destruct (scanString t) as [[raw rest]|].
Qed.

(** Bytes over 127 are scanned as they are. *)
Lemma scan_high a t : string_forallb (λ c, 128 <=? byte c) a = true →
  scanString (a +:+ t) = prod_map (String.append a) id <$> scanString t.
Proof.
  induction a as [|c a IH]; intros H; [rewrite app_nil_l; by destruct (scanString t) as [[]|]|].
  cbn [string_forallb] in H. apply andb_true_iff in H as [Hc Ha]. bool_props.
  rewrite app_cons, scan_plain, IH; [|done|].
  2:{ assert (eqc c quote = false ∧ eqc c backslash = false) as [-> ->].
      { split; apply Ascii.eqb_neq; intros ->; revert Hc; by vm_compute. }
      destruct (Z.ltb_spec (byte c) 32); [lia|done]. }
  by destruct (scanString t) as [[]|].
Qed.

(** ** Chunks and their escapes *)
Definition multibyte (q : string) : Prop := sequence_ok q ∧ string_forallb (λ c, 128 <=? byte c) q = true ∧
  match q with String _ "" => False | _ => True end.

Lemma sequence_split q : sequence_ok q → (∃ c, q = String c "" ∧ byte c < 128) ∨ multibyte q.
Proof.
  intros Hq. pose proof Hq as Hq0. unfold multibyte.
  destruct Hq as [b0 H|b0 b1 H H1|b0 b1 b2 H H1 H2|b0 b1 b2 b3 H H1 H2 H3]; [left; eauto|right..];
    (split; [done|]); (split; [|done]); cbn [string_forallb];
    try apply second_high in H1; try apply continuation_high in H2; try apply continuation_high in H3;
    rewrite ?andb_true_r, ?andb_true_iff, ?Z.leb_le; lia.
Qed.

Lemma escapeChunk_multibyte q : multibyte q →
  escapeChunk (Seq q) = (if bool_decide (q = lineSeparator) then "\u2028"
                         else if bool_decide (q = paragraphSeparator) then "\u2029" else q).
Proof. intros (_ & _ & H). by destruct q as [|? [|]]. Qed.

Lemma scan_escapeChunk c t : chunk_ok c →
  scanString (escapeChunk c +:+ t) = prod_map (String.append (escapeChunk c)) id <$> scanString t.
Proof.
  assert (∀ h1 h2 h3 h4, is_hex h1 && is_hex h2 && is_hex h3 && is_hex h4 = true →
    let e := String backslash (String "u" (String h1 (String h2 (String h3 (String h4 ""))))) in
    scanString (e +:+ t) = prod_map (String.append e) id <$> scanString t) as Hu.
  { intros * H. cbn zeta. rewrite !app_cons, app_nil_l, scan_u by done. by destruct (scanString t) as [[]|]. }
  destruct c as [q|b]; intros H; [|by apply Hu].
  destruct (sequence_split q H) as [(c & -> & Hc)|Hm]; [by apply scan_escapeByte|].
  rewrite escapeChunk_multibyte by done. destruct (bool_decide (q = lineSeparator)); [by apply Hu|].
  destruct (bool_decide (q = paragraphSeparator)); [by apply Hu|]. apply scan_high, Hm.
Qed.

Lemma scan_escapeString s t :
  scanString (escapeString s +:+ String quote t) = Some (escapeString s, t).
Proof.
  unfold escapeString. pose proof (chunks_ok s) as Hok. induction Hok as [|c cs Hc Hcs IH]; [done|].
  rewrite fmap_cons. cbn [concatStrings]. rewrite app_assoc, scan_escapeChunk by done. by rewrite IH.
Qed.

(** What one escape reads back as, in front of any chunks. *)
Lemma unquote_escapeByte c fuel cs : byte c < 128 →
  unquoteChunks (S fuel) (ascii_chunks (escapeByte c) ++ cs) = String c <$> unquoteChunks fuel cs.
Proof.
  destruct c as [[] [] [] [] [] [] [] []]; intros H; (reflexivity || (exfalso; revert H; by vm_compute)).
Qed.

Lemma chunks_escapeChunk c t : chunk_ok c → ∃ cs,
  chunks (escapeChunk c +:+ t) = cs ++ chunks t ∧ (1 ≤ length cs)%nat ∧
  ∀ fuel rest, unquoteChunks (S fuel) (cs ++ rest) = String.append (clean c) <$> unquoteChunks fuel rest.
Proof.
  intros H. destruct c as [q|b].
  2:{ exists (ascii_chunks "\ufffd"). split; [by apply chunks_ascii_app|]. split; [cbn; lia|reflexivity]. }
  destruct (sequence_split q H) as [(c & -> & Hc)|Hm].
  - exists (ascii_chunks (escapeByte c)). split; [by apply chunks_ascii_app, escapeByte_ascii|]. split.
    + cbn [escapeChunk]. unfold ascii_chunks, escapeByte. rewrite length_fmap. case_all; cbn; lia.
    + intros. rewrite unquote_escapeByte by done. by destruct (unquoteChunks fuel rest).
  - rewrite escapeChunk_multibyte by done. destruct (bool_decide_reflect (q = lineSeparator)) as [->|_].
    { exists (ascii_chunks "\u2028"). split; [by apply chunks_ascii_app|]. split; [cbn; lia|reflexivity]. }
    destruct (bool_decide_reflect (q = paragraphSeparator)) as [->|_].
    { exists (ascii_chunks "\u2029"). split; [by apply chunks_ascii_app|]. split; [cbn; lia|reflexivity]. }
    exists [Seq q]. split; [by apply chunks_sequence|]. split; [done|]. destruct Hm as (_ & _ & Hm). by destruct q as [|? [|]].
Qed.


(** Fuel for the number of chunks left is enough. *)
Lemma unquote_escape s fuel : (length (chunks (escapeString s)) ≤ fuel)%nat →
  unquoteChunks fuel (chunks (escapeString s)) = Some (ToValid s).
Proof.
  unfold escapeString, ToValid. pose proof (chunks_ok s) as Hok. revert fuel.
  induction Hok as [|c cs Hc Hcs IH]; intros fuel; [by destruct fuel|]. rewrite !fmap_cons. cbn [concatStrings].
  destruct (chunks_escapeChunk c (concatStrings (escapeChunk <$> cs)) Hc) as (l & -> & Hl & Hu).
  rewrite length_app. intros Hf. destruct fuel as [|fuel]; [lia|]. rewrite Hu, IH by lia. done.
Qed.

Lemma readString_quoteString s t : readString (escapeString s +:+ String quote t) = Some (ToValid s, t).
Proof. unfold readString, unquote. rewrite scan_escapeString. cbn. by rewrite unquote_escape. Qed.

(** ** Reading back a number *)

(** What may follow a number: no byte that would continue it. *)
Definition number_end (rest : string) : bool :=
  match rest with "" => true | String c _ => negb (is_digit c || one_of ["."; "e"; "E"]%char c) end.

Definition not_digit (rest : string) : bool := match rest with "" => true | String c _ => negb (is_digit c) end.

Lemma number_end_not_digit rest : number_end rest = true → not_digit rest = true.
Proof. destruct rest as [|c t]; cbn; [done|]. by destruct (is_digit c). Qed.

Lemma takeDigits_app s d r rest : not_digit rest = true → takeDigits s = (d, r) → takeDigits (s +:+ rest) = (d, r +:+ rest).
Proof.
  intros Hr. revert d. induction s as [|c s IH]; intros d; cbn [takeDigits].
  - intros [= <- <-]. rewrite !app_nil_l. destruct rest as [|c t]; [done|]. cbn in *. by destruct (is_digit c).
  - rewrite app_cons. cbn [takeDigits]. destruct (is_digit c); [|by intros [= <- <-]].
    destruct (takeDigits s) as [d' r'] eqn:E. intros [= <- <-]. by rewrite (IH d' eq_refl).
Qed.

Lemma takeDigits1_app s d r rest : not_digit rest = true →
  takeDigits1 s = Some (d, r) → takeDigits1 (s +:+ rest) = Some (d, r +:+ rest).
Proof.
  intros Hr. unfold takeDigits1. destruct (takeDigits s) as [d' r'] eqn:E. rewrite (takeDigits_app s d' r') by done.
  destruct d'; naive_solver.
Qed.

Lemma readNumber_app s lit r rest : number_end rest = true →
  readNumber s = Some (lit, r) → readNumber (s +:+ rest) = Some (lit, r +:+ rest).
Proof.
  intros Hr. pose proof (number_end_not_digit rest Hr) as Hd.
  assert (∀ s i r, readInteger s = Some (i, r) → readInteger (s +:+ rest) = Some (i, r +:+ rest)) as Hi.
  { intros [|c t] i q; [done|]. rewrite app_cons. unfold readInteger. destruct (eqc c "0"%char); [naive_solver|].
    rewrite <-app_cons. by apply takeDigits1_app. }
  assert (∀ s i r, readFraction s = Some (i, r) → readFraction (s +:+ rest) = Some (i, r +:+ rest)) as Hf.
  { intros [|c t] i q; rewrite ?app_nil_l, ?app_cons; unfold readFraction.
    - intros [= <- <-]. rewrite app_nil_l. destruct rest as [|c t]; [done|]. cbn in Hr.
      unfold eqc in *. destruct (Ascii.eqb c "."%char); [by rewrite !orb_true_r in Hr|done].
    - destruct (eqc c "."%char); [|naive_solver]. destruct (takeDigits1 t) as [[d q']|] eqn:E; [|done].
      rewrite (takeDigits1_app t d q' rest Hd E). naive_solver. }
  assert (∀ s i r, readExponent s = Some (i, r) → readExponent (s +:+ rest) = Some (i, r +:+ rest)) as He.
  { intros [|c t] i q; rewrite ?app_nil_l, ?app_cons; unfold readExponent.
    - intros [= <- <-]. rewrite app_nil_l. destruct rest as [|c t]; [done|]. cbn in Hr.
      destruct (one_of ["e"; "E"]%char c) eqn:E; [|done]. cbn in E, Hr. apply negb_true_iff in Hr.
      by rewrite E, !orb_true_r in Hr.
    - destruct (one_of ["e"; "E"]%char c); [|naive_solver]. destruct t as [|sg u]; [done|]. rewrite app_cons.
      destruct (one_of ["+"; "-"]%char sg).
      + destruct (takeDigits1 u) as [[d q']|] eqn:E; [|done]. rewrite (takeDigits1_app u d q' rest Hd E). naive_solver.
      + destruct (takeDigits1 (String sg u)) as [[d q']|] eqn:E; [|done].
        apply (takeDigits1_app _ _ _ rest Hd) in E. rewrite app_cons in E. rewrite E. naive_solver. }
  unfold readNumber. intros H.
  assert (∀ sign s, (('(i, s) ← readInteger s; '(f, s) ← readFraction s; '(e, s) ← readExponent s;
     Some (sign +:+ i +:+ f +:+ e, s)) = Some (lit, r)) →
     (('(i, s) ← readInteger (s +:+ rest); '(f, s) ← readFraction s; '(e, s) ← readExponent s;
     Some (sign +:+ i +:+ f +:+ e, s)) = Some (lit, r +:+ rest))) as Hall.
  { clear H. intros sign u H. destruct (readInteger u) as [[i u1]|] eqn:E1; [|done]. cbn in H.
    rewrite (Hi _ _ _ E1). cbn. destruct (readFraction u1) as [[f u2]|] eqn:E2; [|done]. cbn in H.
    rewrite (Hf _ _ _ E2). cbn. destruct (readExponent u2) as [[e u3]|] eqn:E3; [|done]. cbn in H.
    rewrite (He _ _ _ E3). cbn. naive_solver. }
  destruct s as [|c t]; [done|]. rewrite app_cons. destruct (eqc c "-"%char); [by apply Hall|].
  rewrite <-app_cons. by apply Hall.
Qed.

Definition number_ok (lit : string) : bool := bool_decide (readNumber lit = Some (lit, "")).

Lemma readNumber_ok lit rest : number_ok lit = true → number_end rest = true → readNumber (lit +:+ rest) = Some (lit, rest).
Proof. intros H%bool_decide_eq_true Hr. by apply (readNumber_app lit lit "" rest). Qed.

Lemma takeDigits_all s : all_digits s = true → takeDigits s = (s, "").
Proof.
  unfold all_digits. induction s as [|c s IH]; [done|]. cbn. intros [-> Hs]%andb_true_iff. by rewrite IH.
Qed.

(** A formatted number has no leading zero. *)
Lemma format_digits_head fuel n acc : 0 < n < 10 ^ Z.of_nat fuel →
  ∃ c t, format_digits fuel n acc = String c t ∧ c ≠ "0"%char.
Proof.
  revert n acc. induction fuel as [|fuel IH]; intros n acc Hn; [change (10 ^ Z.of_nat 0) with 1 in Hn; lia|].
  cbn [format_digits]. rewrite Nat2Z.inj_succ, Z.pow_succ_r in Hn by lia. destruct (Z.ltb_spec n 10).
  - eexists _, _. split; [done|]. intros E%(f_equal byte). rewrite Z.mod_small, byte_digit_char in E by lia.
    change (byte "0") with 48 in E. lia.
  - apply IH. Z.to_euclidean_division_equations; lia.
Qed.

Lemma readNumber_digits sign c t : (sign = "" ∨ sign = "-") → all_digits (String c t) = true → (c = "0"%char → t = "") →
  readNumber (sign +:+ String c t) = Some (sign +:+ String c t, "").
Proof.
  intros Hs Hd H0.
  assert (readInteger (String c t) = Some (String c t, "")) as Hi.
  { unfold readInteger, eqc. destruct (Ascii.eqb_spec c "0"%char) as [->|_]; [by rewrite H0|].
    unfold takeDigits1. by rewrite takeDigits_all. }
  unfold readNumber. destruct Hs as [->| ->].
  - rewrite !app_nil_l. unfold eqc. destruct (Ascii.eqb_spec c "-"%char) as [->|_]; [done|]. rewrite Hi. cbn.
    by rewrite app_nil_r.
  - rewrite app_cons, app_nil_l. cbn [eqc Ascii.eqb Bool.eqb]. rewrite Hi. cbn. by rewrite app_nil_r.
Qed.

Lemma FormatUint_shape n : in_uint64 n → ∃ c t, FormatUint n = String c t ∧ all_digits (String c t) = true ∧ (c = "0"%char → t = "").
Proof.
  intros Hn. destruct (FormatUint_spec n Hn) as (Hd & _ & Hne).
  destruct (Z.eq_dec n 0) as [->|Hz]; [by exists "0"%char, ""|].
  destruct (format_digits_head 20 n "") as (c & t & E & Hc).
  { change (10 ^ Z.of_nat 20) with 100000000000000000000. unfold_ints; lia. }
  unfold FormatUint in *. rewrite E in *. by exists c, t.
Qed.

Lemma number_ok_Itoa n : in_int64 n → number_ok (Itoa n) = true.
Proof.
  intros Hn. unfold number_ok, Itoa. apply bool_decide_eq_true. destruct (Z.ltb_spec n 0).
  - destruct (FormatUint_shape (- n)) as (c & t & -> & Hd & H0); [unfold_ints; lia|].
    exact (readNumber_digits "-" c t (or_intror eq_refl) Hd H0).
  - destruct (FormatUint_shape n) as (c & t & -> & Hd & H0); [unfold_ints; lia|].
    exact (readNumber_digits "" c t (or_introl eq_refl) Hd H0).
Qed.

(** ** Reading back a value *)
Fixpoint cleaned (v : json) : json :=
  match v with
  | JString s => JString (ToValid s)
  | JArray vs => JArray (cleaned <$> vs)
  | JObject ms => JObject ((λ '(k, v), (ToValid k, cleaned v)) <$> ms)
  | v => v
  end.

Fixpoint nesting (v : json) : nat :=
  match v with
  | JArray vs => S (max_list (nesting <$> vs))
  | JObject ms => S (max_list ((λ '(_, v), nesting v) <$> ms))
  | _ => 0
  end.

Fixpoint numbers_ok (v : json) : bool :=
  match v with
  | JNumber lit => number_ok lit
  | JArray vs => forallb numbers_ok vs
  | JObject ms => forallb (λ '(_, v), numbers_ok v) ms
  | _ => true
  end.

Lemma number_head lit : number_ok lit = true →
  ∃ c t, lit = String c t ∧ (is_digit c || eqc c "-"%char) = true.
Proof.
  intros H%bool_decide_eq_true. destruct lit as [|c t]; [done|]. exists c, t. split; [done|].
  apply orb_true_iff. unfold readNumber in H. destruct (eqc c "-"%char) eqn:E; [by right|]. left.
  destruct (readInteger (String c t)) as [[i r]|] eqn:Ei; [|done]. clear H. unfold readInteger in Ei.
  unfold eqc in *. destruct (Ascii.eqb_spec c "0"%char) as [->|_]; [done|]. unfold takeDigits1 in Ei. cbn in Ei.
  by destruct (is_digit c).
Qed.

Definition value_head (c : ascii) : bool := negb (isSpace c || one_of ["]"; "}"]%char c).

Lemma number_value_head c : (is_digit c || eqc c "-"%char) = true →
  value_head c = true ∧ eqc c "{"%char = false ∧ eqc c "["%char = false ∧ eqc c quote = false.
Proof. destruct c as [[] [] [] [] [] [] [] []]; vm_compute; intros H; [discriminate H || done..]. Qed.

Lemma encode_head v rest : numbers_ok v = true → ∃ c t, encode v +:+ rest = String c t ∧ value_head c = true.
Proof.
  destruct v as [|[]|lit|s|vs|ms]; cbn [encode numbers_ok]; intros H; try (by eexists _, _).
  apply number_head in H as (c & t & -> & Hc). eexists _, _. split; [done|]. by apply number_value_head.
Qed.

Lemma skipSpace_head c t : value_head c = true → skipSpace (String c t) = String c t.
Proof. intros H. cbn [skipSpace]. unfold value_head in H. by destruct (isSpace c). Qed.

(** One lemma per kind of value, for any fuel that is not used up. *)
Lemma readValue_number fuel depth lit rest : number_ok lit = true → number_end rest = true →
  readValue (S fuel) depth (lit +:+ rest) = Some (JNumber lit, rest).
Proof.
  intros Hl Hr. pose proof (readNumber_ok lit rest Hl Hr) as Hn. apply number_head in Hl as (c & t & -> & Hc).
  pose proof (number_value_head c Hc) as (Hv & H1 & H2 & H3). rewrite app_cons in *.
  cbn [readValue]. rewrite skipSpace_head, H1, H2, H3, Hc, Hn by done. done.
Qed.

Lemma readValue_string fuel depth s rest :
  readValue (S fuel) depth (quoteString s +:+ rest) = Some (JString (ToValid s), rest).
Proof.
  unfold quoteString. rewrite app_cons, app_assoc, app_cons, app_nil_l. cbn [readValue]. rewrite skipSpace_head by done.
  change (eqc quote "{") with false. change (eqc quote "[") with false.
  change (eqc quote quote) with true. cbn iota. by rewrite readString_quoteString.
Qed.

Lemma readElements_step fuel depth v more : readValue fuel depth (encode v +:+ more) = Some (cleaned v, more) →
  readElements (S fuel) depth (encode v +:+ more) =
    match skipSpace more with
    | String d u =>
        if eqc d ","%char then prod_map (cons (cleaned v)) id <$> readElements fuel depth u
        else if eqc d "]"%char then Some ([cleaned v], u) else None
    | "" => None
    end.
Proof. intros E. cbn [readElements]. by rewrite E. Qed.

Lemma readMembers_step fuel depth k v more : readValue fuel depth (encode v +:+ more) = Some (cleaned v, more) →
  readMembers (S fuel) depth (quoteString k +:+ ":" +:+ encode v +:+ more) =
    match skipSpace more with
    | String d u =>
        if eqc d ","%char then prod_map (cons (ToValid k, cleaned v)) id <$> readMembers fuel depth u
        else if eqc d "}"%char then Some ([(ToValid k, cleaned v)], u) else None
    | "" => None
    end.
Proof.
  intros E. unfold quoteString. rewrite app_cons, app_assoc, app_cons, app_nil_l, app_cons, app_nil_l.
  cbn [readMembers]. rewrite skipSpace_head by done.
  change (eqc quote quote) with true. cbn iota. rewrite readString_quoteString. cbn [mbind option_bind negb].
  rewrite skipSpace_head by done. change (eqc ":" ":") with true. cbn [negb]. by rewrite E.
Qed.

Lemma readValue_array fuel depth t : (∃ c u, t = String c u ∧ value_head c = true) →
  readValue (S fuel) (S depth) (String "[" t) = prod_map JArray id <$> readElements fuel depth t.
Proof.
  intros (c & u & -> & Hc). cbn [readValue]. rewrite skipSpace_head by done.
  change (eqc "[" "{") with false. change (eqc "[" "[") with true. cbn iota. rewrite skipSpace_head by done.
  assert (eqc c "]"%char = false) as -> by (unfold value_head, one_of in Hc; cbn in Hc; bool_props; done). done.
Qed.

Lemma readValue_object fuel depth k t :
  readValue (S fuel) (S depth) (String "{" (quoteString k +:+ t)) = prod_map JObject id <$> readMembers fuel depth (quoteString k +:+ t).
Proof. unfold quoteString. rewrite app_cons. done. Qed.

Lemma comma_cons s l : comma (s :: l) = match l with [] => s | _ => s +:+ String "," (comma l) end.
Proof. by destruct l. Qed.

Definition member (m : string * json) : string := quoteString m.1 +:+ ":" +:+ encode m.2.
Definition cleaned_member (m : string * json) : string * json := (ToValid m.1, cleaned m.2).

Lemma encode_object ms : encode (JObject ms) = "{" +:+ comma (member <$> ms) +:+ "}".
Proof. cbn [encode]. do 3 f_equal. apply list_fmap_ext. by intros _ [k v] _. Qed.
Lemma cleaned_object ms : cleaned (JObject ms) = JObject (cleaned_member <$> ms).
Proof. cbn [cleaned]. f_equal. apply list_fmap_ext. by intros _ [k v] _. Qed.
Lemma nesting_object ms : nesting (JObject ms) = S (max_list ((λ m, nesting m.2) <$> ms)).
Proof. cbn [nesting]. do 2 f_equal. apply list_fmap_ext. by intros _ [k v] _. Qed.
Lemma numbers_ok_object ms : numbers_ok (JObject ms) = forallb (λ m, numbers_ok m.2) ms.
Proof. cbn [numbers_ok]. induction ms as [|[k v] ms IH]; [done|]. cbn. by rewrite IH. Qed.

Lemma max_list_cons n l : max_list (n :: l) = Nat.max n (max_list l).
Proof. done. Qed.

(** What a value must do for its container to be read back. *)
Definition reads_back (v : json) : Prop := numbers_ok v = true → ∀ fuel depth rest,
  (nesting v ≤ depth)%nat → (2 * String.length (encode v) ≤ fuel)%nat → number_end rest = true →
  readValue fuel depth (encode v +:+ rest) = Some (cleaned v, rest).

Lemma readElements_encode vs : Forall reads_back vs → vs ≠ [] → forallb numbers_ok vs = true → ∀ fuel depth rest,
  (max_list (nesting <$> vs) ≤ depth)%nat → (2 * String.length (comma (encode <$> vs)) + 1 ≤ fuel)%nat →
  readElements fuel depth (comma (encode <$> vs) +:+ String "]" rest) = Some (cleaned <$> vs, rest).
Proof.
  induction 1 as [|v vs Hv Hvs IH]; [done|]. intros _ Hok fuel depth rest Hd Hf.
  cbn [forallb] in Hok. apply andb_true_iff in Hok as [Hok Hoks]. rewrite !fmap_cons in *. rewrite max_list_cons in Hd.
  destruct fuel as [|fuel]; [lia|]. rewrite comma_cons in *. destruct vs as [|w vs].
  - cbn [fmap list_fmap] in *. rewrite readElements_step; [done|]. apply Hv; [done|lia|lia|done].
  - specialize (λ H, IH H Hoks). rewrite !(fmap_cons encode) in *.
    rewrite length_string_app in Hf. cbn [String.length] in Hf.
    rewrite app_assoc, app_cons, readElements_step; [|apply Hv; [done|lia|lia|done]].
    change (skipSpace (String "," ?x)) with (String "," x). change (eqc "," ",") with true. cbn iota.
    rewrite IH by (done || lia). done.
Qed.

Lemma readMembers_encode ms : Forall (λ m, reads_back m.2) ms → ms ≠ [] → forallb (λ m, numbers_ok m.2) ms = true →
  ∀ fuel depth rest, (max_list ((λ m, nesting m.2) <$> ms) ≤ depth)%nat →
  (2 * String.length (comma (member <$> ms)) + 1 ≤ fuel)%nat →
  readMembers fuel depth (comma (member <$> ms) +:+ String "}" rest) = Some (cleaned_member <$> ms, rest).
Proof.
  induction 1 as [|[k v] ms Hv Hvs IH]; [done|]. intros _ Hok fuel depth rest Hd Hf.
  cbn [forallb snd] in Hok, Hv. apply andb_true_iff in Hok as [Hok Hoks]. rewrite !fmap_cons in *. rewrite max_list_cons in Hd.
  destruct fuel as [|fuel]; [lia|]. rewrite comma_cons in *.
  cbn [snd] in Hd. change (cleaned_member (k, v)) with (ToValid k, cleaned v). change (member (k, v)) with (quoteString k +:+ ":" +:+ encode v) in *.
  destruct ms as [|w ms].
  - cbn [fmap list_fmap] in Hf |- *. rewrite !length_string_app in Hf.
    rewrite !app_assoc, readMembers_step; [done|]. apply Hv; [done|lia|lia|done].
  - specialize (λ H, IH H Hoks). rewrite !(fmap_cons member) in *.
    rewrite !length_string_app in Hf. cbn [String.length] in Hf.
    rewrite !app_assoc, (app_cons ","), readMembers_step; [|apply Hv; [done|lia|lia|done]].
    change (skipSpace (String "," ?x)) with (String "," x). change (eqc "," ",") with true. cbn iota.
    rewrite IH by (done || lia). done.
Qed.

Lemma encode_length v : numbers_ok v = true → (1 ≤ String.length (encode v))%nat.
Proof.
  intros H. destruct (encode_head v "" H) as (c & t & E & _). rewrite app_nil_r in E. rewrite E. cbn. lia.
Qed.

Lemma readValue_encode v : reads_back v.
Proof.
  induction v as [|b|lit|s|vs IH|ms IH] using json_nested; intros Hok fuel depth rest Hd Hf Hr;
    pose proof (encode_length _ Hok); (destruct fuel as [|fuel]; [lia|]).
  - done.
  - by destruct b.
  - by apply readValue_number.
  - apply readValue_string.
  - cbn [encode numbers_ok nesting] in *. destruct depth as [|depth]; [lia|].
    rewrite !app_cons, app_nil_l, app_assoc, app_cons, app_nil_l in *.
    destruct vs as [|v vs]; [done|]. rewrite readValue_array.
    + rewrite readElements_encode; [done|done|done|done|lia|]. cbn [String.length] in Hf. rewrite length_string_app in Hf.
      cbn [String.length] in Hf. lia.
    + cbn [forallb] in Hok. apply andb_true_iff in Hok as [Hok _]. rewrite fmap_cons, comma_cons. destruct (encode <$> vs); rewrite ?app_assoc; by apply encode_head.
  - rewrite encode_object, cleaned_object, nesting_object, numbers_ok_object in *. destruct depth as [|depth]; [lia|].
    rewrite !app_cons, app_nil_l, app_assoc, app_cons, app_nil_l in *.
    destruct ms as [|[k v] ms]; [done|].
    assert (∃ t, comma (member <$> (k, v) :: ms) +:+ String "}" rest = quoteString k +:+ t) as [t Et].
    { rewrite fmap_cons, comma_cons. change (member (k, v)) with (quoteString k +:+ ":" +:+ encode v).
      destruct (member <$> ms); rewrite !app_assoc; eauto. }
    rewrite Et, readValue_object, <-Et, readMembers_encode; [done|done|done|done|lia|].
    cbn [String.length] in Hf. rewrite length_string_app in Hf. cbn [String.length] in Hf. lia.
Qed.

(** What [encode] writes, [readDocument] reads, up to strings made valid. *)
Lemma readDocument_encode v : numbers_ok v = true → (nesting v ≤ maxNestingDepth)%nat → readDocument (encode v) = Some (cleaned v).
Proof.
  intros Hok Hd. unfold readDocument, nextValue. rewrite <-(app_nil_r (encode v)) at 2.
  rewrite (readValue_encode v Hok); [done|done|lia|done].
Qed.

(** ** The fuel is enough: more of it changes nothing *)
Lemma skipSpace_length s : (String.length (skipSpace s) ≤ String.length s)%nat.
Proof. induction s as [|c s IH]; cbn [skipSpace]; [done|]. destruct (isSpace c); cbn; lia. Qed.

Lemma scanString_length s raw rest : scanString s = Some (raw, rest) → (String.length rest < String.length s)%nat.
Proof.
  revert raw rest. induction s as [s IH] using (induction_ltof1 _ String.length). unfold ltof in IH. intros raw rest.
  destruct s as [|c s1]; [done|]. cbn [scanString]. destruct (eqc c quote); [intros [= <- <-]; cbn; lia|].
  assert (∀ f u, (String.length u < String.length (String c s1))%nat →
    prod_map f id <$> scanString u = Some (raw, rest) → (String.length rest < String.length (String c s1))%nat) as Hrec.
  { intros f u Hu. destruct (scanString u) as [[a b]|] eqn:E; [|done]. intros [= <- <-]. apply IH in E; [|done]. lia. }
  destruct (byte c <? 32); [done|]. destruct (eqc c backslash); [|apply Hrec; cbn; lia].
  destruct s1 as [|e s2]; [done|]. destruct (one_of _ e); [apply Hrec; cbn; lia|]. destruct (eqc e "u"%char); [|done].
  destruct s2 as [|h1 [|h2 [|h3 [|h4 s3]]]]; try done. destruct (_ && _); [|done]. apply Hrec. cbn. lia.
Qed.

Lemma readString_length s text rest : readString s = Some (text, rest) → (String.length rest < String.length s)%nat.
Proof.
  unfold readString. destruct (scanString s) as [[raw r]|] eqn:E; [|done]. cbn. destruct (unquote raw); [|done].
  intros [= <- <-]. by eapply scanString_length.
Qed.

Lemma takeDigits_length s : (String.length (takeDigits s).1 + String.length (takeDigits s).2 = String.length s)%nat.
Proof. induction s as [|c s IH]; [done|]. cbn. destruct (is_digit c), (takeDigits s); cbn in *; lia. Qed.

Lemma takeDigits1_length s d r : takeDigits1 s = Some (d, r) → (String.length r < String.length s)%nat.
Proof.
  unfold takeDigits1. pose proof (takeDigits_length s). destruct (takeDigits s) as [[|c d'] r']; [done|].
  intros [= <- <-]. cbn in *. lia.
Qed.

Lemma readNumber_length s lit rest : readNumber s = Some (lit, rest) → (String.length rest < String.length s)%nat.
Proof.
  assert (∀ s i r, readInteger s = Some (i, r) → (String.length r < String.length s)%nat) as Hi.
  { intros [|c t] i r; [done|]. cbn [readInteger]. destruct (eqc c "0"%char); [intros [= <- <-]; cbn; lia|apply takeDigits1_length]. }
  assert (∀ s i r, readFraction s = Some (i, r) → (String.length r ≤ String.length s)%nat) as Hf.
  { intros [|c t] i r; cbn [readFraction]; [naive_solver|]. destruct (eqc c "."%char); [|naive_solver].
    destruct (takeDigits1 t) as [[d q]|] eqn:E; [|done]. apply takeDigits1_length in E. intros [= <- <-]. cbn. lia. }
  assert (∀ s i r, readExponent s = Some (i, r) → (String.length r ≤ String.length s)%nat) as He.
  { intros [|c t] i r; cbn [readExponent]; [naive_solver|]. destruct (one_of _ c); [|naive_solver].
    destruct t as [|sg u]; [done|]. destruct (one_of _ sg).
    - destruct (takeDigits1 u) as [[d q]|] eqn:E; [|done]. apply takeDigits1_length in E. intros [= <- <-]. cbn. lia.
    - destruct (takeDigits1 (String sg u)) as [[d q]|] eqn:E; [|done]. apply takeDigits1_length in E.
      intros [= <- <-]. cbn in *. lia. }
  unfold readNumber. intros H.
  assert (∀ sign u, (('(i, s) ← readInteger u; '(f, s) ← readFraction s; '(e, s) ← readExponent s;
     Some (sign +:+ i +:+ f +:+ e, s)) = Some (lit, rest)) → (String.length rest < String.length u)%nat) as Hall.
  { clear H. intros sign u H. destruct (readInteger u) as [[i u1]|] eqn:E1; [|done]. cbn in H.
    destruct (readFraction u1) as [[f u2]|] eqn:E2; [|done]. cbn in H.
    destruct (readExponent u2) as [[e u3]|] eqn:E3; [|done]. cbn in H. simplify_eq.
    apply Hi in E1. apply Hf in E2. apply He in E3. lia. }
  destruct s as [|c t]; [done|]. destruct (eqc c "-"%char); apply Hall in H; cbn in *; lia.
Qed.

Lemma CutPrefix_length s p r : CutPrefix s p = Some r → (String.length r ≤ String.length s)%nat.
Proof. intros ->%CutPrefix_Some. rewrite length_string_app. lia. Qed.

(** Reading consumes. *)
Lemma read_length fuel :
  (∀ depth s v r, readValue fuel depth s = Some (v, r) → (String.length r < String.length s)%nat) ∧
  (∀ depth s v r, readMembers fuel depth s = Some (v, r) → (String.length r < String.length s)%nat) ∧
  (∀ depth s v r, readElements fuel depth s = Some (v, r) → (String.length r < String.length s)%nat).
Proof.
  induction fuel as [|fuel (IHv & IHm & IHe)]; [done|]. split_and!; intros depth s v r.
  - cbn [readValue]. pose proof (skipSpace_length s). destruct (skipSpace s) as [|c t]; [done|]. cbn in H.
    destruct (eqc c "{"%char).
    { destruct depth as [|depth]; [done|]. pose proof (skipSpace_length t). destruct (skipSpace t) as [|d u]; [done|]. cbn in H0.
      destruct (eqc d "}"%char); [intros [= <- <-]; lia|]. destruct (readMembers fuel depth t) as [[ms u']|] eqn:E; [|done].
      apply IHm in E. intros [= <- <-]. lia. }
    destruct (eqc c "["%char).
    { destruct depth as [|depth]; [done|]. pose proof (skipSpace_length t). destruct (skipSpace t) as [|d u]; [done|]. cbn in H0.
      destruct (eqc d "]"%char); [intros [= <- <-]; lia|]. destruct (readElements fuel depth t) as [[ms u']|] eqn:E; [|done].
      apply IHe in E. intros [= <- <-]. lia. }
    destruct (eqc c quote).
    { destruct (readString t) as [[x u]|] eqn:E; [|done]. apply readString_length in E. intros [= <- <-]. lia. }
    destruct (is_digit c || eqc c "-"%char).
    { destruct (readNumber (String c t)) as [[x u]|] eqn:E; [|done]. apply readNumber_length in E. intros [= <- <-]. cbn in *. lia. }
    assert (∀ p q, CutPrefix (String c t) (String p q) = Some r → (String.length r < S (String.length t))%nat) as Hp.
    { intros p q. cbn. destruct (decide (p = c)); [|done]. intros ?%CutPrefix_length. lia. }
    destruct (CutPrefix _ "true") eqn:E1; [intros [= <- ->]; apply Hp in E1; lia|].
    destruct (CutPrefix _ "false") eqn:E2; [intros [= <- ->]; apply Hp in E2; lia|].
    destruct (CutPrefix _ "null") eqn:E3; [intros [= <- ->]; apply Hp in E3; lia|done].
  - cbn [readMembers]. pose proof (skipSpace_length s). destruct (skipSpace s) as [|c t]; [done|]. cbn in H.
    destruct (negb (eqc c quote)); [done|]. destruct (readString t) as [[key u]|] eqn:E; [|done]. apply readString_length in E. cbn [mbind option_bind].
    pose proof (skipSpace_length u). destruct (skipSpace u) as [|d u1]; [done|]. cbn in H0. destruct (negb (eqc d ":"%char)); [done|].
    destruct (readValue fuel depth u1) as [[w u2]|] eqn:E2; [|done]. apply IHv in E2. cbn [mbind option_bind].
    pose proof (skipSpace_length u2). destruct (skipSpace u2) as [|e u3]; [done|]. cbn in H1. destruct (eqc e ","%char).
    + destruct (readMembers fuel depth u3) as [[ms u4]|] eqn:E3; [|done]. apply IHm in E3. intros [= <- <-]. lia.
    + destruct (eqc e "}"%char); [|done]. intros [= <- <-]. lia.
  - cbn [readElements]. destruct (readValue fuel depth s) as [[w u2]|] eqn:E2; [|done]. apply IHv in E2. cbn [mbind option_bind].
    pose proof (skipSpace_length u2). destruct (skipSpace u2) as [|e u3]; [done|]. cbn in H. destruct (eqc e ","%char).
    + destruct (readElements fuel depth u3) as [[ms u4]|] eqn:E3; [|done]. apply IHe in E3. intros [= <- <-]. lia.
    + destruct (eqc e "]"%char); [|done]. intros [= <- <-]. lia.
Qed.

Lemma read_fuel fuel :
  (∀ depth s g, (2 * String.length s + 1 ≤ fuel)%nat → (fuel ≤ g)%nat → readValue g depth s = readValue fuel depth s) ∧
  (∀ depth s g, (2 * String.length s + 2 ≤ fuel)%nat → (fuel ≤ g)%nat → readMembers g depth s = readMembers fuel depth s) ∧
  (∀ depth s g, (2 * String.length s + 2 ≤ fuel)%nat → (fuel ≤ g)%nat → readElements g depth s = readElements fuel depth s).
Proof.
  induction fuel as [|fuel (IHv & IHm & IHe)]; [split_and!; lia|].
  split_and!; intros depth s [|g] Hf Hg; try lia.
  - cbn [readValue]. pose proof (skipSpace_length s). destruct (skipSpace s) as [|c t]; [done|]. cbn in H.
    destruct (eqc c "{"%char); [destruct depth as [|depth]; [done|]; destruct (skipSpace t) as [|d u]; [done|]; by rewrite IHm by lia|].
    destruct (eqc c "["%char); [destruct depth as [|depth]; [done|]; destruct (skipSpace t) as [|d u]; [done|]; by rewrite IHe by lia|].
    done.
  - cbn [readMembers]. pose proof (skipSpace_length s). destruct (skipSpace s) as [|c t]; [done|]. cbn in H.
    destruct (negb (eqc c quote)); [done|]. destruct (readString t) as [[key u]|] eqn:E; [|done]. apply readString_length in E. cbn [mbind option_bind].
    pose proof (skipSpace_length u). destruct (skipSpace u) as [|d u1]; [done|]. cbn in H0. destruct (negb (eqc d ":"%char)); [done|].
    rewrite IHv by lia. destruct (readValue fuel depth u1) as [[w u2]|] eqn:E2; [|done]. apply read_length in E2. cbn [mbind option_bind].
    pose proof (skipSpace_length u2). destruct (skipSpace u2) as [|e u3]; [done|]. cbn in H1. by rewrite IHm by lia.
  - cbn [readElements]. rewrite IHv by lia. destruct (readValue fuel depth s) as [[w u2]|] eqn:E2; [|done]. apply read_length in E2. cbn [mbind option_bind].
    pose proof (skipSpace_length u2). destruct (skipSpace u2) as [|e u3]; [done|]. cbn in H. by rewrite IHe by lia.
Qed.

Lemma nextValue_fuel s fuel : (2 * String.length s + 2 ≤ fuel)%nat → readValue fuel maxNestingDepth s = nextValue s.
Proof. intros H. unfold nextValue. apply read_fuel; lia. Qed.

(** ** The strings read are valid UTF-8 *)
Lemma ValidString_cons c t : byte c < 128 → ValidString (String c t) = ValidString t.
Proof. intros H. apply (ValidString_app (String c "")). by constructor. Qed.

Lemma unescape1_ascii e c : unescape1 e = Some c → byte c < 128.
Proof.
  assert (match unescape1 e with Some c => byte c <? 128 | None => true end = true) as H
    by (destruct e as [[] [] [] [] [] [] [] []]; reflexivity).
  intros E. rewrite E in H. by bool_props.
Qed.

Lemma escape4_suffix cs r after : escape4 cs = Some (r, after) → ∃ l, cs = l ++ after.
Proof.
  destruct cs as [|[[|b [|]]|] [|[[|u [|]]|] cs]]; try done. cbn [escape4]. destruct (_ && _); [|done].
  destruct cs as [|[[|h1 [|]]|] [|[[|h2 [|]]|] [|[[|h3 [|]]|] [|[[|h4 [|]]|] cs]]]]; try done.
  intros (x & _ & [= -> ->])%fmap_Some. by eexists [_; _; _; _; _; _].
Qed.

Lemma unquoteChunks_valid fuel cs s : Forall chunk_ok cs → unquoteChunks fuel cs = Some s → ValidString s = true.
Proof.
  revert cs s. induction fuel as [|fuel IH]; intros cs s Hcs; [destruct cs; [by intros [= <-]|done]|].
  assert (∀ f cs' s', Forall chunk_ok cs' → (∀ t, ValidString (f t) = ValidString t) →
    f <$> unquoteChunks fuel cs' = Some s' → ValidString s' = true) as Hrec.
  { intros f cs' s' H' Hf. destruct (unquoteChunks fuel cs') as [t|] eqn:E; [|done]. intros [= <-]. rewrite Hf. by eapply IH. }
  destruct cs as [|c rest]; [by intros [= <-]|]. pose proof (Forall_cons_1 _ _ _ Hcs) as [Hc Hrest].
  assert (String.append (clean c) <$> unquoteChunks fuel rest = Some s → ValidString s = true) as Hclean.
  { apply Hrec; [done|]. intros. by apply ValidString_app, clean_ok. }
  cbn [unquoteChunks]. destruct c as [[|b [|b' q]]|b]; [done| |done|done].
  destruct (eqc b backslash).
  - destruct (escape4 (Seq (String b "") :: rest)) as [[r after]|] eqn:E.
    + assert (Forall chunk_ok after) as Ha by (apply escape4_suffix in E as [l E]; rewrite E in Hcs; by apply Forall_app in Hcs as [_ ?]).
      destruct (IsSurrogate r); [|apply Hrec; [done|intros; apply ValidString_app, AppendRune_ok]].
      assert (String.append replacement <$> unquoteChunks fuel after = Some s → ValidString s = true) as Hrep.
      { apply Hrec; [done|]. intros. apply ValidString_app, (clean_ok (Bad "255")). vm_compute. done. }
      destruct (escape4 after) as [[r2 after2]|] eqn:E2; [|done]. destruct (DecodeRune r r2) as [r'|]; [|done].
      apply Hrec; [|intros; apply ValidString_app, AppendRune_ok].
      apply escape4_suffix in E2 as [l ->]. by apply Forall_app in Ha as [_ ?].
    + destruct rest as [|[[|e [|e' q]]|e] rest]; try done. destruct (unescape1 e) as [x|] eqn:Ex; [|done]. cbn [mbind option_bind].
      apply Forall_cons_1 in Hrest as [_ Hrest]. apply Hrec; [done|]. intros. by apply ValidString_cons, (unescape1_ascii e).
  - apply Hrec; [done|]. intros. apply ValidString_cons. cbn in Hc. by inversion Hc.
Qed.

Lemma readString_valid s text rest : readString s = Some (text, rest) → ValidString text = true.
Proof.
  unfold readString, unquote. destruct (scanString s) as [[raw r]|]; [|done]. cbn.
  destruct (unquoteChunks _ (chunks raw)) as [u|] eqn:E; [|done]. intros [= <- _]. eapply unquoteChunks_valid; [|done]. apply chunks_ok.
Qed.

(** Every string and every key. *)
Fixpoint strings_valid (v : json) : bool :=
  match v with
  | JString s => ValidString s
  | JArray vs => forallb strings_valid vs
  | JObject ms => forallb (λ '(k, v), ValidString k && strings_valid v) ms
  | _ => true
  end.

Lemma read_valid fuel :
  (∀ depth s v r, readValue fuel depth s = Some (v, r) → strings_valid v = true) ∧
  (∀ depth s ms r, readMembers fuel depth s = Some (ms, r) → strings_valid (JObject ms) = true) ∧
  (∀ depth s vs r, readElements fuel depth s = Some (vs, r) → strings_valid (JArray vs) = true).
Proof.
  induction fuel as [|fuel (IHv & IHm & IHe)]; [done|]. split_and!; intros depth s v r.
  - cbn [readValue]. destruct (skipSpace s) as [|c t]; [done|]. destruct (eqc c "{"%char).
    { destruct depth as [|depth]; [done|]. destruct (skipSpace t) as [|d u]; [done|].
      destruct (eqc d "}"%char); [by intros [= <- <-]|]. destruct (readMembers fuel depth t) as [[ms u']|] eqn:E; [|done].
      apply IHm in E. by intros [= <- <-]. }
    destruct (eqc c "["%char).
    { destruct depth as [|depth]; [done|]. destruct (skipSpace t) as [|d u]; [done|].
      destruct (eqc d "]"%char); [by intros [= <- <-]|]. destruct (readElements fuel depth t) as [[ms u']|] eqn:E; [|done].
      apply IHe in E. by intros [= <- <-]. }
    destruct (eqc c quote).
    { destruct (readString t) as [[x u]|] eqn:E; [|done]. apply readString_valid in E. by intros [= <- <-]. }
    destruct (is_digit c || eqc c "-"%char); [by destruct (readNumber (String c t)) as [[x u]|]; [intros [= <- <-]|]|].
    destruct (CutPrefix (String c t) "true"); [by intros [= <- <-]|].
    destruct (CutPrefix (String c t) "false"); [by intros [= <- <-]|].
    destruct (CutPrefix (String c t) "null"); [by intros [= <- <-]|done].
  - cbn [readMembers]. destruct (skipSpace s) as [|c t]; [done|].
    destruct (negb (eqc c quote)); [done|]. destruct (readString t) as [[key u]|] eqn:E; [|done]. apply readString_valid in E. cbn [mbind option_bind].
    destruct (skipSpace u) as [|d u1]; [done|]. destruct (negb (eqc d ":"%char)); [done|].
    destruct (readValue fuel depth u1) as [[w u2]|] eqn:E2; [|done]. apply IHv in E2. cbn [mbind option_bind].
    destruct (skipSpace u2) as [|e u3]; [done|]. destruct (eqc e ","%char).
    + destruct (readMembers fuel depth u3) as [[ms u4]|] eqn:E3; [|done]. apply IHm in E3. intros [= <- <-]. cbn. by rewrite E, E2.
    + destruct (eqc e "}"%char); [|done]. intros [= <- <-]. cbn. by rewrite E, E2.
  - cbn [readElements]. destruct (readValue fuel depth s) as [[w u2]|] eqn:E2; [|done]. apply IHv in E2. cbn [mbind option_bind].
    destruct (skipSpace u2) as [|e u3]; [done|]. destruct (eqc e ","%char).
    + destruct (readElements fuel depth u3) as [[ms u4]|] eqn:E3; [|done]. apply IHe in E3. intros [= <- <-]. cbn. by rewrite E2.
    + destruct (eqc e "]"%char); [|done]. intros [= <- <-]. cbn. by rewrite E2.
Qed.

Lemma readDocument_valid s v : readDocument s = Some v → strings_valid v = true.
Proof.
  unfold readDocument, nextValue. destruct (readValue _ _ s) as [[w r]|] eqn:E; [|done]. cbn [mbind option_bind].
  destruct (skipSpace r); [|done]. intros [= <-]. by eapply read_valid.
Qed.
