(* ===== verification/GoUnmarshal.v ===== *)
(** * encoding/json into Go values

    How Unmarshal and Decoder.Decode store a value into a struct of strings and
    fixed-width integers, or into a map of such structs: exact field names before
    folded ones, null as no value, unknown names skipped, the first mismatch
    reported once everything else is stored; and the text Marshal gives for them. *)
From S2P Require Import Prelude GoStrings GoUtf8 GoJson.

(** ** Field names *)
Definition upper (c : ascii) : ascii := if in_range 97 122 c then utf8_byte (byte c - 32) else c.

(** foldName, as far as it can give an ASCII name: the letters are folded to upper
    case, and of the other runes only U+017F and U+212A fold to a letter. *)
Definition foldChunk (c : chunk) : string :=
  match c with
  | Seq (String c "") => String (upper c) ""
  | Seq q => if bool_decide (q = AppendRune 383) then "S" else if bool_decide (q = AppendRune 8490) then "K" else q
  | Bad _ => replacement
  end.

Definition foldName (s : string) : string := concatStrings (foldChunk <$> chunks s).

(** A field's kind, with what stores into it: [half] is 2^(bits-1). *)
Inductive setter (R : Type) :=
  | SetString (f : string → R → R)
  | SetInt (half : Z) (f : Z → R → R).
Arguments SetString {R} f.
Arguments SetInt {R} half f.

Section structs.
Context {R : Type} (fields : list (string * setter R)).

Fixpoint lookup_field (same : string → bool) (fs : list (string * setter R)) : option (setter R) :=
  match fs with [] => None | (name, st) :: fs => if same name then Some st else lookup_field same fs end.

(** byExactName, then byFoldedName. *)
Definition findField (key : string) : option (setter R) :=
  match lookup_field (String.eqb key) fields with
  | Some st => Some st
  | None => lookup_field (λ name, String.eqb (foldName key) (foldName name)) fields
  end.

(** literalStore and the containers' mismatch: the struct, and whether it fitted. *)
Definition storeField (st : setter R) (v : json) (r : R) : R * bool :=
  match st, v with
  | _, JNull => (r, true)
  | SetString f, JString s => (f s r, true)
  | SetInt half f, JNumber lit =>
      match Atoi lit with
      | Ok n => if (- half <=? n) && (n <? half) then (f n r, true) else (r, false)
      | Err _ => (r, false)
      end
  | _, _ => (r, false)
  end.

Definition storeMember (m : string * json) (r : R) : R * bool :=
  match findField m.1 with Some st => storeField st m.2 r | None => (r, true) end.

Fixpoint storeMembers (ms : list (string * json)) (r : R) : R * bool :=
  match ms with
  | [] => (r, true)
  | m :: ms => let '(r, ok) := storeMember m r in let '(r, oks) := storeMembers ms r in (r, ok && oks)
  end.

Definition storeStruct (v : json) (r : R) : R * bool :=
  match v with
  | JNull => (r, true)
  | JObject ms => storeMembers ms r
  | _ => (r, false)
  end.

Definition typeError : error := Errorf "json: cannot unmarshal %s into Go value of type %s".
Definition syntaxError : error := Errorf "invalid character %s".

Definition stored {A} (p : A * bool) : result A := let '(r, ok) := p in if ok then Ok r else Err typeError.

(** json.Unmarshal(data, &r) *)
Definition unmarshalStruct (data : string) (r : R) : result R :=
  match readDocument data with None => Err syntaxError | Some v => stored (storeStruct v r) end.

(** Decoder.Decode(&r), with what the decoder has not consumed: the input from
    InputOffset on. *)
Definition decodeNext (data : string) (r : R) : result (R * string) :=
  match nextValue data with
  | None => Err syntaxError
  | Some (v, rest) => (λ r, (r, rest)) <$> stored (storeStruct v r)
  end.

(** ** Storing what a struct was written as *)
Lemma storeMembers_cons k v ms r st r' : findField k = Some st → storeField st v r = (r', true) →
  storeMembers ((k, v) :: ms) r = storeMembers ms r'.
Proof. intros Hf Hs. cbn [storeMembers]. unfold storeMember. cbn [fst snd]. rewrite Hf, Hs. by destruct (storeMembers ms r'). Qed.

Lemma storeField_int half f n r : 0 < half ≤ 9223372036854775808 → - half ≤ n < half →
  storeField (SetInt half f) (JNumber (Itoa n)) r = (f n r, true).
Proof.
  intros Hh Hn. unfold storeField, Atoi. rewrite ParseInt_Itoa by lia.
  destruct (Z.leb_spec (- half) n), (Z.ltb_spec n half); done || lia.
Qed.
End structs.

(** ** Maps *)
Section maps.
Context {R : Type} (fields : list (string * setter R)) (zero : R).

(** map[string]R: null is a nil map; every key gets a fresh entry, a later one
    for the same key replacing an earlier one. *)
Fixpoint storeEntries (ms : list (string * json)) (m : gmap string R) : gmap string R * bool :=
  match ms with
  | [] => (m, true)
  | (k, v) :: ms =>
      let '(r, ok) := storeStruct fields v zero in
      let '(m, oks) := storeEntries ms (<[k := r]> m) in (m, ok && oks)
  end.

Definition storeMap (v : json) : option (gmap string R) * bool :=
  match v with
  | JNull => (None, true)
  | JObject ms => let '(m, ok) := storeEntries ms ∅ in (Some m, ok)
  | _ => (None, false)
  end.

(** json.Unmarshal(data, &m) for a nil m. *)
Definition unmarshalMap (data : string) : result (option (gmap string R)) :=
  match readDocument data with None => Err syntaxError | Some v => stored (storeMap v) end.
End maps.

(** Marshal writes a map's entries sorted by key. *)
Definition key_le {A} (a b : string * A) : Prop := String.leb a.1 b.1 = true.
#[global] Instance key_le_dec {A} (a b : string * A) : Decision (key_le a b).
Proof. unfold key_le. apply _. Defined.

Definition map_json {R} (entry : R → json) (m : option (gmap string R)) : json :=
  match m with
  | None => JNull
  | Some m => JObject (prod_map id entry <$> merge_sort key_le (map_to_list m))
  end.

(** ** Reading a written map back *)
Section map_roundtrip.
Context {A R : Type} (fields : list (string * setter R)) (zero : R).
Context (entry : A → json) (entry_ok : A → Prop) (read : A → R).
Context (Hentry : ∀ a, entry_ok a → numbers_ok (entry a) = true ∧ (nesting (entry a) ≤ 1)%nat ∧
  storeStruct fields (cleaned (entry a)) zero = (read a, true)).

Definition map_ok (m : gmap string A) : Prop := map_Forall (λ k a, ValidString k = true ∧ entry_ok a) m.

Lemma storeEntries_written l m : NoDup l.*1 → Forall (λ p, ValidString p.1 = true ∧ entry_ok p.2) l →
  storeEntries fields zero (cleaned_member <$> (prod_map id entry <$> l)) m = ((read <$> list_to_map l) ∪ m, true).
Proof.
  intros Hnd Hl. revert m. induction Hl as [|[k a] l [Hk Ha] Hl IH]; intros m; cbn [fst snd] in *.
  { change (list_to_map []) with (∅ : gmap string A). by rewrite fmap_empty, (left_id_L ∅ (∪)). }
  rewrite !fmap_cons in *. apply NoDup_cons in Hnd as [Hnotin Hnd]. cbn [storeEntries cleaned_member prod_map fst snd id].
  unfold cleaned_member at 1. cbn [prod_map fst snd id]. destruct (Hentry a Ha) as (_ & _ & ->). rewrite IH by done.
  cbn [list_to_map foldr fst snd]. rewrite ToValid_valid by done. f_equal.
  change (foldr (λ p, <[p.1 := p.2]>) ∅ l) with (list_to_map l : gmap string A).
  rewrite fmap_insert, <-insert_union_l, insert_union_r; [done|].
  rewrite lookup_fmap, not_elem_of_list_to_map_1; done.
Qed.

Lemma map_sorted (m : gmap string A) : merge_sort key_le (map_to_list m) ≡ₚ map_to_list m.
Proof. apply merge_sort_Permutation. Qed.

Lemma max_list_le l n : Forall (λ x, (x ≤ n)%nat) l → (max_list l ≤ n)%nat.
Proof. induction 1; [cbn; lia|]. rewrite max_list_cons. lia. Qed.

Lemma unmarshalMap_encode m : map_ok m →
  unmarshalMap fields zero (encode (map_json entry (Some m))) = Ok (Some (read <$> m)).
Proof.
  intros Hm. assert (Forall (λ p, ValidString p.1 = true ∧ entry_ok p.2) (merge_sort key_le (map_to_list m))) as Hl.
  { apply Forall_forall. intros [k r] Hp. rewrite map_sorted in Hp. apply elem_of_map_to_list in Hp. exact (Hm k r Hp). }
  unfold unmarshalMap. rewrite readDocument_encode.
  - unfold map_json. rewrite cleaned_object. cbn [stored storeMap]. rewrite storeEntries_written; [|by rewrite map_sorted; apply NoDup_fst_map_to_list|done].
    cbn. do 2 f_equal. rewrite (right_id_L ∅ (∪)). f_equal. rewrite <-(list_to_map_to_list m) at 2.
    apply list_to_map_proper; [rewrite map_sorted; apply NoDup_fst_map_to_list|apply map_sorted].
  - unfold map_json. rewrite numbers_ok_object. apply forallb_forall. intros [k v] Hin%list_elem_of_In.
    apply list_elem_of_fmap in Hin as ([k' r] & [= -> ->] & Hin). rewrite Forall_forall in Hl. by apply Hentry, (Hl _ Hin).
  - unfold map_json. rewrite nesting_object. transitivity 2%nat; [|apply Nat.leb_le; vm_compute; done]. apply le_n_S, max_list_le.
    rewrite !Forall_fmap. eapply Forall_impl; [exact Hl|]. intros [k r] [_ Hr]. by apply Hentry.
Qed.

(** A null map is written and read as null. *)
Lemma unmarshalMap_nil : unmarshalMap fields zero (encode (map_json entry None)) = Ok None.
Proof. vm_compute. done. Qed.
End map_roundtrip.

(** Keys that were read are valid UTF-8. *)
Lemma storeEntries_keys {R} (fields : list (string * setter R)) zero ms (m : gmap string R) :
  forallb (λ '(k, v), ValidString k && strings_valid v) ms = true → map_Forall (λ k _, ValidString k = true) m →
  map_Forall (λ k _, ValidString k = true) (storeEntries fields zero ms m).1.
Proof.
  revert m. induction ms as [|[k v] ms IH]; intros m; cbn [forallb storeEntries]; [done|].
  intros [Hk Hms]%andb_true_iff Hm. apply andb_true_iff in Hk as [Hk _].
  destruct (storeStruct fields v zero) as [r ok]. specialize (IH (<[k := r]> m) Hms).
  destruct (storeEntries fields zero ms _) as [m' oks]. apply IH. by apply map_Forall_insert_2.
Qed.

Lemma unmarshalMap_keys {R} (fields : list (string * setter R)) zero data m :
  unmarshalMap fields zero data = Ok (Some m) → map_Forall (λ k _, ValidString k = true) m.
Proof.
  unfold unmarshalMap. destruct (readDocument data) as [v|] eqn:E; [|done]. apply readDocument_valid in E.
  destruct v; try done. cbn in *. pose proof (storeEntries_keys fields zero ms ∅ E (map_Forall_empty _)) as H.
  destruct (storeEntries fields zero ms ∅) as [m' ok]. cbn. destruct ok; [|done]. by intros [= <-].
Qed.

(** ** What every stored value satisfies *)
Section invariants.
Context {R : Type} (P : R → Prop).

Definition setter_keeps (st : setter R) : Prop :=
  match st with
  | SetString f => ∀ s r, P r → P (f s r)
  | SetInt half f => ∀ n r, - half ≤ n < half → P r → P (f n r)
  end.

Context (fields : list (string * setter R)) (Hfields : Forall (λ f, setter_keeps f.2) fields).

Lemma lookup_field_keeps same fs st : Forall (λ f, setter_keeps f.2) fs → lookup_field same fs = Some st → setter_keeps st.
Proof. induction 1 as [|[name st'] fs H _ IH]; cbn; [done|]. destruct (same name); [by intros [= <-]|done]. Qed.

Lemma storeField_keeps st v r : setter_keeps st → P r → P (storeField st v r).1.
Proof.
  intros Hst Hr. destruct st as [f|half f], v; cbn; auto. destruct (Atoi lit) as [n|]; [|done].
  destruct (Z.leb_spec (- half) n), (Z.ltb_spec n half); cbn; auto.
Qed.

Lemma storeStruct_keeps v r : P r → P (storeStruct fields v r).1.
Proof.
  intros Hr. destruct v as [|b|lit|s|vs|ms]; cbn; try done. revert r Hr. induction ms as [|[k v] ms IH]; intros r Hr; [done|].
  cbn [storeMembers]. assert (P (storeMember fields (k, v) r).1) as H1.
  { unfold storeMember. cbn. destruct (findField fields k) as [st|] eqn:E; [|done]. apply storeField_keeps; [|done].
    unfold findField in E. destruct (lookup_field (String.eqb k) fields) eqn:E1; [simplify_eq|]; by eapply lookup_field_keeps. }
  destruct (storeMember fields (k, v) r) as [r1 ok]. specialize (IH r1 H1). by destruct (storeMembers fields ms r1).
Qed.

Lemma unmarshalMap_entries zero data m : P zero → unmarshalMap fields zero data = Ok (Some m) → map_Forall (λ _ r, P r) m.
Proof.
  intros Hz. unfold unmarshalMap. destruct (readDocument data) as [[|b|lit|s|vs|ms]|]; try done. cbn.
  assert (∀ m0, map_Forall (λ _ r, P r) m0 → map_Forall (λ _ r, P r) (storeEntries fields zero ms m0).1) as H.
  { induction ms as [|[k v] ms IH]; intros m0 Hm0; [done|]. cbn [storeEntries].
    pose proof (storeStruct_keeps v zero Hz) as Hr. destruct (storeStruct fields v zero) as [r ok].
    specialize (IH (<[k := r]> m0) ltac:(by apply map_Forall_insert_2)). by destruct (storeEntries fields zero ms _). }
  specialize (H ∅ (map_Forall_empty _)). destruct (storeEntries fields zero ms ∅) as [m' []]; cbn; [|done]. by intros [= <-].
Qed.
End invariants.

(** ** Two struct types with the same fields *)
Section simulation.
Context {R R' : Type} (f : R → R').

Definition setter_sim (a : setter R) (b : setter R') : Prop :=
  match a, b with
  | SetString g, SetString g' => ∀ s r, g' s (f r) = f (g s r)
  | SetInt half g, SetInt half' g' => half' = half ∧ ∀ n r, g' n (f r) = f (g n r)
  | _, _ => False
  end.

Definition fields_sim : list (string * setter R) → list (string * setter R') → Prop :=
  Forall2 (λ a b, b.1 = a.1 ∧ setter_sim a.2 b.2).

Context (fields : list (string * setter R)) (fields' : list (string * setter R')) (Hsim : fields_sim fields fields').

Lemma lookup_field_sim same fs fs' : fields_sim fs fs' →
  match lookup_field same fs, lookup_field same fs' with
  | Some a, Some b => setter_sim a b
  | None, None => True
  | _, _ => False
  end.
Proof. induction 1 as [|[n a] [n' b] fs fs' [Hn Hs] _ IH]; cbn in *; [done|]. subst n'. by destruct (same n). Qed.

Lemma storeMember_sim m r : storeMember fields' m (f r) = prod_map f id (storeMember fields m r).
Proof.
  unfold storeMember, findField.
  pose proof (lookup_field_sim (String.eqb m.1) _ _ Hsim) as H1.
  pose proof (lookup_field_sim (λ name, String.eqb (foldName m.1) (foldName name)) _ _ Hsim) as H2.
  assert (∀ a b, setter_sim a b → storeField b m.2 (f r) = prod_map f id (storeField a m.2 r)) as Hst.
  { intros [g|h g] [g'|h' g']; cbn; [..|intros [-> Hg]]; try done; intros; destruct m.2; cbn; try done; [by f_equal|].
    destruct (Atoi lit) as [n|]; [|done]. destruct (_ && _); cbn; by rewrite ?Hg. }
  repeat case_match; try done; auto.
Qed.

Lemma storeStruct_sim v r : storeStruct fields' v (f r) = prod_map f id (storeStruct fields v r).
Proof.
  destruct v as [|b|lit|s|vs|ms]; try done. cbn. revert r. induction ms as [|m ms IH]; intros r; [done|]. cbn [storeMembers].
  rewrite storeMember_sim. destruct (storeMember fields m r) as [r1 ok]. cbn. rewrite IH. by destruct (storeMembers fields ms r1).
Qed.

Lemma unmarshalMap_sim zero data :
  unmarshalMap fields' (f zero) data = fmap (M := option) (fmap (M := gmap string) f) <$> unmarshalMap fields zero data.
Proof.
  unfold unmarshalMap. destruct (readDocument data) as [[|b|lit|s|vs|ms]|]; try done. cbn.
  assert (∀ m : gmap string R, storeEntries fields' (f zero) ms (f <$> m) = prod_map (fmap f) id (storeEntries fields zero ms m)) as H.
  { induction ms as [|[k v] ms IH]; intros m; [done|]. cbn [storeEntries]. rewrite storeStruct_sim.
    destruct (storeStruct fields v zero) as [r ok]. cbn. rewrite <-fmap_insert, IH. by destruct (storeEntries fields zero ms _). }
  specialize (H ∅). rewrite fmap_empty in H. rewrite H. by destruct (storeEntries fields zero ms ∅) as [m' []].
Qed.
End simulation.
