(* ===== verification/GoTime.v ===== *)
(** * Durations and white space, as the Go standard library reads them

    time.ParseDuration with its 64-bit overflow checks and its float64 fraction
    (IEEE 754 through SpecFloat), and strings.TrimSpace over UTF-8.  Every service
    reads its configuration through these two. *)
From Stdlib Require Import SpecFloat.
From S2P Require Import Prelude GoStrings.

(** ** float64 *)
Definition f64_of_Z (z : Z) : spec_float := binary_normalize 53 1024 z 0 false.
Definition f64_mul (x y : spec_float) : spec_float := SFmul 53 1024 x y.
Definition f64_div (x y : spec_float) : spec_float := SFdiv 53 1024 x y.

(** uint64(x) for a finite non-negative x in range. *)
Definition f64_trunc (x : spec_float) : Z :=
  match x with
  | S754_finite _ m e => if 0 <=? e then Z.pos m * 2 ^ e else Z.pos m / 2 ^ (- e)
  | _ => 0
  end.

(** ** time.Duration *)
Definition Nanosecond : Z := 1.
Definition Microsecond : Z := 1000.
Definition Millisecond : Z := 1000000.
Definition Second : Z := 1000000000.
Definition Minute : Z := 60 * Second.
Definition Hour : Z := 60 * Minute.

Definition unitMap (u : string) : option Z :=
  if bool_decide (u = "ns") then Some Nanosecond
  else if bool_decide (u = "us") then Some Microsecond
  else if bool_decide (u = String (ascii_of_N 194) (String (ascii_of_N 181) "s")) then Some Microsecond
  else if bool_decide (u = String (ascii_of_N 206) (String (ascii_of_N 188) "s")) then Some Microsecond
  else if bool_decide (u = "ms") then Some Millisecond
  else if bool_decide (u = "s") then Some Second
  else if bool_decide (u = "m") then Some Minute
  else if bool_decide (u = "h") then Some Hour
  else None.

(** time.leadingInt: None on overflow past 1<<63. *)
Fixpoint leadingInt (x : Z) (s : string) : option (Z * string) :=
  match s with
  | "" => Some (x, "")
  | String c rest =>
      if negb (is_digit c) then Some (x, s)
      else if 9223372036854775808 / 10 <? x then None
      else
        let x := x * 10 + (byte c - 48) in
        if 9223372036854775808 <? x then None else leadingInt x rest
  end.

(** time.leadingFraction: digits past the precision are consumed and dropped. *)
Fixpoint leadingFraction (x scale : Z) (overflow : bool) (s : string) : Z * Z * string :=
  match s with
  | "" => (x, scale, "")
  | String c rest =>
      if negb (is_digit c) then (x, scale, s)
      else if overflow then leadingFraction x scale true rest
      else if 9223372036854775807 / 10 <? x then leadingFraction x scale true rest
      else
        let y := x * 10 + (byte c - 48) in
        if 9223372036854775808 <? y then leadingFraction x scale true rest
        else leadingFraction y (scale * 10) false rest
  end.

(** The unit: the bytes up to the next digit or period. *)
Fixpoint takeUnit (s : string) : string * string :=
  match s with
  | "" => ("", "")
  | String c rest =>
      if bool_decide (c = "."%char) || is_digit c then ("", s)
      else let '(u, rem) := takeUnit rest in (String c u, rem)
  end.

(** One [number unit] group: its nanoseconds and the rest of the text. *)
Definition durationGroup (s : string) : option (Z * string) :=
  match s with
  | "" => None
  | String c0 _ =>
      if negb (bool_decide (c0 = "."%char) || is_digit c0) then None
      else
        '(v, s1) ← leadingInt 0 s;
        let pre := negb (Nat.eqb (String.length s1) (String.length s)) in
        let '(f, scale, s2, post) :=
          match s1 with
          | String "." s1' =>
              let '(f, scale, s2) := leadingFraction 0 1 false s1' in
              (f, scale, s2, negb (Nat.eqb (String.length s2) (String.length s1')))
          | _ => (0, 1, s1, false)
          end in
        if negb pre && negb post then None
        else
          let '(u, s3) := takeUnit s2 in
          if bool_decide (u = "") then None
          else
            unit ← unitMap u;
            if 9223372036854775808 / unit <? v then None
            else
              let v := v * unit in
              let v := if 0 <? f
                       then v + f64_trunc (f64_mul (f64_of_Z f) (f64_div (f64_of_Z unit) (f64_of_Z scale)))
                       else v in
              if 9223372036854775808 <? v then None else Some (v, s3)
  end.

(** The loop over groups; each consumes at least a byte, so the length is fuel
    enough.  The sum is a uint64. *)
Fixpoint durationGroups (fuel : nat) (d : Z) (s : string) : option Z :=
  match s with
  | "" => Some d
  | _ =>
      match fuel with
      | O => None
      | S fuel =>
          '(v, rest) ← durationGroup s;
          let d := uint64 (d + v) in
          if 9223372036854775808 <? d then None else durationGroups fuel d rest
      end
  end.

Definition invalidDuration : error := Errorf "time: invalid duration %q".

Definition ParseDuration (s : string) : result Z :=
  let '(neg, s) :=
    match s with
    | String "-" r => (true, r)
    | String "+" r => (false, r)
    | _ => (false, s)
    end in
  if bool_decide (s = "0") then Ok 0
  else if bool_decide (s = "") then Err invalidDuration
  else
    match durationGroups (String.length s) 0 s with
    | None => Err invalidDuration
    | Some d =>
        if neg then Ok (int64 (- int64 d))
        else if MaxInt64 <? d then Err invalidDuration
        else Ok d
    end.

Example ParseDuration_30m : ParseDuration "30m" = Ok (30 * Minute).
Proof. reflexivity. Qed.
Example ParseDuration_mixed : ParseDuration "-1h2.5s" = Ok (- (Hour + 2500 * Millisecond)).
Proof. vm_compute. reflexivity. Qed.
Example ParseDuration_third : ParseDuration "0.3333333333333333333h" = Ok 1200000000000.
Proof. vm_compute. reflexivity. Qed.
Example ParseDuration_bad : ParseDuration "5" = Err invalidDuration.
Proof. reflexivity. Qed.

Lemma leadingInt_nonneg x s v r : 0 ≤ x → leadingInt x s = Some (v, r) → 0 ≤ v.
Proof.
  revert x. induction s as [|c s IH]; intros x Hx; cbn [leadingInt]; [by intros [= <- <-]|].
  destruct (is_digit c) eqn:Hc; cbn [negb]; [|by intros [= <- <-]].
  apply is_digit_range in Hc. destruct (_ <? _); [done|]. destruct (_ <? _); [done|]. apply IH. lia.
Qed.

Lemma unitMap_pos u n : unitMap u = Some n → 0 < n.
Proof. unfold unitMap. intros H. repeat case_bool_decide; simplify_eq; done. Qed.

Lemma f64_trunc_nonneg x : 0 ≤ f64_trunc x.
Proof.
  destruct x as [| | |neg m e]; cbn; try lia. destruct (0 <=? e) eqn:He; bool_props.
  - pose proof (Z.pow_nonneg 2 e). lia.
  - apply Z.div_pos; [lia|]. apply Z.pow_pos_nonneg; lia.
Qed.

Lemma durationGroup_nonneg s v r : durationGroup s = Some (v, r) → 0 ≤ v.
Proof.
  unfold durationGroup. destruct s as [|c0 s0]; [done|]. destruct (negb _); [done|].
  destruct (leadingInt 0 (String c0 s0)) as [[v0 s1]|] eqn:Hl; cbn; [|done].
  apply leadingInt_nonneg in Hl; [|done].
  match goal with |- context [let '(_, _) := ?x in _] => destruct x as [[[f scale] s2] post] end.
  destruct (_ && _); [done|]. destruct (takeUnit s2) as [u s3]. case_bool_decide; [done|].
  destruct (unitMap u) as [n|] eqn:Hu; cbn; [|done]. apply unitMap_pos in Hu.
  destruct (_ <? _); [done|].
  pose proof (f64_trunc_nonneg (f64_mul (f64_of_Z f) (f64_div (f64_of_Z n) (f64_of_Z scale)))).
  destruct (0 <? f); destruct (_ <? _); try done; intros [= <- <-]; nia.
Qed.

Lemma durationGroups_nonneg fuel d s v : 0 ≤ d → durationGroups fuel d s = Some v → 0 ≤ v.
Proof.
  revert d s. induction fuel as [|fuel IH]; intros d s Hd; destruct s as [|c s]; cbn [durationGroups];
    [by intros [= <-]|done|by intros [= <-]|].
  destruct (durationGroup (String c s)) as [[x rest]|] eqn:E; cbn; [|done].
  apply durationGroup_nonneg in E. destruct (_ <? _); [done|]. apply IH. apply uint64_range.
Qed.

(** A parsed duration is a time.Duration, and only a leading minus makes it negative. *)
Lemma ParseDuration_range s d : ParseDuration s = Ok d → in_int64 d.
Proof.
  unfold ParseDuration.
  match goal with |- context [let '(_, _) := ?x in _] => destruct x as [neg s'] end.
  case_bool_decide; [intros [= <-]; unfold_ints; lia|]. case_bool_decide; [done|].
  destruct (durationGroups _ _ _) as [v|] eqn:E; [|done]. apply durationGroups_nonneg in E; [|done].
  destruct neg; [intros [= <-]; apply int64_range|].
  destruct (MaxInt64 <? v) eqn:Hv; [done|]. intros [= <-]. bool_props. unfold_ints. lia.
Qed.

(** ** strings.TrimSpace *)

(** The UTF-8 encodings of unicode.IsSpace runes. *)
Definition space1 (c : ascii) : bool := ((9 <=? byte c) && (byte c <=? 13)) || (byte c =? 32).
Definition space2 (c1 c2 : ascii) : bool := (byte c1 =? 194) && ((byte c2 =? 133) || (byte c2 =? 160)).
Definition space3 (c1 c2 c3 : ascii) : bool :=
  ((byte c1 =? 225) && (byte c2 =? 154) && (byte c3 =? 128)) ||
  ((byte c1 =? 226) && (byte c2 =? 128) &&
     (((128 <=? byte c3) && (byte c3 <=? 138)) || (byte c3 =? 168) || (byte c3 =? 169) || (byte c3 =? 175))) ||
  ((byte c1 =? 226) && (byte c2 =? 129) && (byte c3 =? 159)) ||
  ((byte c1 =? 227) && (byte c2 =? 128) && (byte c3 =? 128)).

(** Drop leading space; [flip] reads the bytes of a rune back to front. *)
Fixpoint trimLeft (flip : bool) (s : string) : string :=
  match s with
  | "" => ""
  | String c1 s1 =>
      if space1 c1 then trimLeft flip s1
      else
        match s1 with
        | "" => s
        | String c2 s2 =>
            if (if flip then space2 c2 c1 else space2 c1 c2) then trimLeft flip s2
            else
              match s2 with
              | "" => s
              | String c3 s3 =>
                  if (if flip then space3 c3 c2 c1 else space3 c1 c2 c3) then trimLeft flip s3 else s
              end
        end
  end.

Fixpoint rev_string (s acc : string) : string :=
  match s with "" => acc | String c s => rev_string s (String c acc) end.

Definition TrimSpace (s : string) : string :=
  rev_string (trimLeft true (rev_string (trimLeft false s) "")) "".

(** strings.TrimSpace(s) == "" *)
Definition blank (s : string) : bool := bool_decide (TrimSpace s = "").

Example TrimSpace_ex : TrimSpace ("  a b " +:+ String (ascii_of_N 194) (String (ascii_of_N 160) "")) = "a b".
Proof. reflexivity. Qed.

(** A string of ASCII bytes other than white space is left alone. *)
Definition visible (c : ascii) : bool := (33 <=? byte c) && (byte c <=? 127).

Lemma trimLeft_visible flip s : string_forallb visible s = true → trimLeft flip s = s.
Proof.
  destruct s as [|c1 s]; [done|]. cbn. rewrite andb_true_iff. intros [H1 Hs].
  assert (∀ c, visible c = true → space1 c = false) as Hsp1.
  { intros c. unfold visible, space1. intros. bool_props. apply orb_false_iff. split;
      [apply andb_false_iff; right; apply Z.leb_gt; lia|apply Z.eqb_neq; lia]. }
  assert (∀ c k, visible c = true → 128 ≤ k → (byte c =? k) = false) as Hne.
  { intros c k. unfold visible. intros. bool_props. apply Z.eqb_neq. lia. }
  rewrite Hsp1 by done. destruct s as [|c2 s]; [done|]. cbn in Hs. apply andb_true_iff in Hs as [H2 Hs].
  assert ((if flip then space2 c2 c1 else space2 c1 c2) = false) as ->.
  { unfold space2. destruct flip; by rewrite Hne. }
  destruct s as [|c3 s]; [done|]. cbn in Hs. apply andb_true_iff in Hs as [H3 _].
  assert ((if flip then space3 c3 c2 c1 else space3 c1 c2 c3) = false) as ->; [|done].
  unfold space3. destruct flip; by rewrite !(Hne _ 225), !(Hne _ 226), !(Hne _ 227).
Qed.

Lemma rev_string_app s acc : rev_string s acc = rev_string s "" +:+ acc.
Proof.
  revert acc. induction s as [|c s IH]; intros acc; cbn; [done|].
  rewrite IH, (IH (String c "")), app_assoc. done.
Qed.

Lemma rev_string_involutive s : rev_string (rev_string s "") "" = s.
Proof.
  assert (∀ acc, rev_string (rev_string s acc) "" = rev_string acc "" +:+ s) as H; [|by rewrite H].
  induction s as [|c s IH]; intros acc; cbn; [by rewrite app_nil_r|].
  rewrite IH. cbn. by rewrite rev_string_app, app_assoc.
Qed.

Lemma rev_string_forallb p s : string_forallb p (rev_string s "") = string_forallb p s.
Proof.
  induction s as [|c s IH]; cbn; [done|]. rewrite rev_string_app, string_forallb_app, IH. cbn.
  by rewrite andb_true_r, andb_comm.
Qed.

Lemma TrimSpace_visible s : string_forallb visible s = true → TrimSpace s = s.
Proof.
  intros H. unfold TrimSpace. rewrite (trimLeft_visible false) by done.
  rewrite trimLeft_visible by (by rewrite rev_string_forallb). apply rev_string_involutive.
Qed.
