(* ===== verification/FloatInts.v ===== *)
(** * Integers in float64

    What SpecFloat's binary64 operations do on integers a float64 holds exactly:
    conversion, comparison, addition, subtraction and multiplication are those of Z
    as long as every value stays below 2^53. *)
From Stdlib Require Import SpecFloat.
From S2P Require Import Prelude GoTime.

Lemma digits2_size m : digits2_pos m = Pos.size m.
Proof. induction m; cbn; congruence. Qed.

Lemma digits2_bound m k : 0 ≤ k → Z.pos m < 2 ^ k → Z.pos (digits2_pos m) ≤ k.
Proof.
  intros Hk H. rewrite digits2_size. pose proof (Pos.size_le m) as Hs. apply Pos2Z.pos_le_pos in Hs.
  rewrite Pos2Z.inj_pow in Hs. change (Z.pos m~0) with (2 * Z.pos m) in Hs.
  assert (2 ^ Z.pos (Pos.size m) < 2 ^ (k + 1)) as Hlt by (rewrite Z.pow_add_r by lia; lia).
  apply Z.pow_lt_mono_r_iff in Hlt; lia.
Qed.

Lemma shift_pos_succ j m : shift_pos (Pos.succ j) m = (shift_pos j m)~0%positive.
Proof. unfold shift_pos. apply Pos.iter_succ. Qed.

Lemma shift_pos_spec j m : Z.pos (shift_pos j m) = Z.pos m * 2 ^ Z.pos j.
Proof.
  induction j as [|j IH] using Pos.peano_ind; [cbn; lia|].
  rewrite shift_pos_succ, Pos2Z.inj_succ, Z.pow_succ_r by lia.
  change (Z.pos (shift_pos j m)~0) with (2 * Z.pos (shift_pos j m)). lia.
Qed.

Lemma digits2_shift j m : Z.pos (digits2_pos (shift_pos j m)) = Z.pos (digits2_pos m) + Z.pos j.
Proof.
  induction j as [|j IH] using Pos.peano_ind; [cbn; lia|]. rewrite shift_pos_succ. cbn [digits2_pos]. lia.
Qed.

(** A mantissa of exactly 53 digits is kept as it is. *)
Lemma round_aux_exact m e : Z.pos (digits2_pos m) = 53 → -1074 ≤ e ≤ 971 →
  binary_round_aux 53 1024 false (Z.pos m) e loc_Exact = S754_finite false m e.
Proof.
  intros Hd He. assert (shr_fexp 53 1024 (Z.pos m) e loc_Exact = ({| shr_m := Z.pos m; shr_r := false; shr_s := false |}, e)) as Hs.
  { unfold shr_fexp, shr, Zdigits2. rewrite Hd. cbn [shr_record_of_loc].
    assert (fexp 53 1024 (53 + e) - e = 0) as -> by (unfold fexp, emin; lia). done. }
  unfold binary_round_aux. rewrite Hs. cbn [shr_m loc_of_shr_record round_nearest_even]. rewrite Hs. cbn [shr_m].
  destruct (Z.leb_spec e (1024 - 53)); [done|lia].
Qed.

(** The float64 of a positive integer below 2^53: 53 digits, scaled down. *)
Lemma f64_of_pos m : Z.pos m < 2 ^ 53 →
  ∃ m' e, f64_of_Z (Z.pos m) = S754_finite false m' e ∧ e ≤ 0 ∧ Z.pos m' = Z.pos m * 2 ^ (- e) ∧
    Z.pos (digits2_pos m') = 53 ∧ -52 ≤ e.
Proof.
  intros H. pose proof (digits2_bound m 53 ltac:(lia) H) as Hd. unfold f64_of_Z. cbn [binary_normalize].
  unfold binary_round, shl_align.
  assert (fexp 53 1024 (Z.pos (digits2_pos m) + 0) - 0 = Z.pos (digits2_pos m) - 53) as Ef
    by (unfold fexp, emin; lia).
  assert (fexp 53 1024 (Z.pos (digits2_pos m) + 0) = Z.pos (digits2_pos m) - 53) as Ef' by lia.
  rewrite Ef. destruct (Z.pos (digits2_pos m) - 53) as [|j|j] eqn:E; [|lia|].
  - exists m, 0. rewrite round_aux_exact by lia. split; [done|]. cbn. lia.
  - exists (shift_pos j m), (Z.neg j). change (Pos.iter xO m j) with (shift_pos j m).
    assert (Z.pos (digits2_pos (shift_pos j m)) = 53) as Hd' by (rewrite digits2_shift; lia).
    rewrite Ef', round_aux_exact by lia. split; [done|]. split; [lia|]. split; [apply shift_pos_spec|lia].
Qed.

(** ** Rounding what needs no rounding *)
Lemma digits2_range m : 2 ^ (Z.pos (digits2_pos m) - 1) ≤ Z.pos m < 2 ^ Z.pos (digits2_pos m).
Proof.
  rewrite digits2_size. pose proof (Pos.size_le m) as Hl. pose proof (Pos.size_gt m) as Hg.
  apply Pos2Z.pos_le_pos in Hl. apply Pos2Z.pos_lt_pos in Hg. rewrite Pos2Z.inj_pow in Hl, Hg.
  change (Z.pos m~0) with (2 * Z.pos m) in Hl. split; [|done].
  assert (2 ^ Z.pos (Pos.size m) = 2 * 2 ^ (Z.pos (Pos.size m) - 1)) as E; [|lia].
  rewrite <-Z.pow_succ_r by lia. f_equal. lia.
Qed.

Lemma iter_pos_iter {A} (f : A → A) n x : SpecFloat.iter_pos f n x = Pos.iter f x n.
Proof.
  revert x. induction n as [n IH|n IH|]; intros x; cbn; rewrite ?IH; [|done|done].
  by rewrite !Pos.iter_swap.
Qed.

Lemma shr_shift p m : SpecFloat.iter_pos shr_1 p {| shr_m := Z.pos (shift_pos p m); shr_r := false; shr_s := false |} =
  {| shr_m := Z.pos m; shr_r := false; shr_s := false |}.
Proof.
  rewrite iter_pos_iter. induction p as [|p IH] using Pos.peano_ind; [done|].
  rewrite Pos.iter_succ_r, shift_pos_succ. cbn. apply IH.
Qed.

Lemma round_aux_shift p m e : Z.pos (digits2_pos m) = 53 → -1074 ≤ e ≤ 971 →
  binary_round_aux 53 1024 false (Z.pos (shift_pos p m)) (e - Z.pos p) loc_Exact = S754_finite false m e.
Proof.
  intros Hd He. rewrite <-(round_aux_exact m e Hd He).
  assert (shr_fexp 53 1024 (Z.pos (shift_pos p m)) (e - Z.pos p) loc_Exact =
          ({| shr_m := Z.pos m; shr_r := false; shr_s := false |}, e)) as H1.
  { unfold shr_fexp, shr, Zdigits2. rewrite digits2_shift, Hd.
    assert (fexp 53 1024 (53 + Z.pos p + (e - Z.pos p)) - (e - Z.pos p) = Z.pos p) as -> by (unfold fexp, emin; lia).
    cbn [shr_record_of_loc]. rewrite shr_shift. f_equal. lia. }
  assert (shr_fexp 53 1024 (Z.pos m) e loc_Exact = ({| shr_m := Z.pos m; shr_r := false; shr_s := false |}, e)) as H2.
  { unfold shr_fexp, shr, Zdigits2. rewrite Hd.
    assert (fexp 53 1024 (53 + e) - e = 0) as -> by (unfold fexp, emin; lia). done. }
  unfold binary_round_aux. by rewrite H1, H2.
Qed.

(** A scaled integer with at least 53 digits rounds to that integer's float64. *)
Lemma round_aux_int n M E : 0 < n < 2 ^ 53 → -1000 ≤ E ≤ 0 → Z.pos M = n * 2 ^ (- E) → 2 ^ 52 ≤ Z.pos M →
  binary_round_aux 53 1024 false (Z.pos M) E loc_Exact = f64_of_Z n.
Proof.
  intros Hn HE HM Hbig. destruct n as [|m|]; [lia| |lia].
  destruct (f64_of_pos m) as (m' & e & -> & He & Hm & Hd & He'); [lia|].
  pose proof (digits2_range m') as Hr. rewrite Hd in Hr.
  assert (E ≤ e) as Hle.
  { destruct (Z.le_gt_cases E e); [done|]. assert (Z.pos m' = Z.pos M * 2 ^ (E - e)) as Hx.
    { rewrite Hm, HM, <-Z.mul_assoc, <-Z.pow_add_r by lia. do 2 f_equal. lia. }
    assert (2 ^ 1 ≤ 2 ^ (E - e)) by (apply Z.pow_le_mono_r; lia). nia. }
  destruct (e - E) as [|p|p] eqn:Ep; [|clear Hle|lia].
  - assert (E = e) as -> by lia. assert (M = m') as -> by (apply Pos2Z.inj; congruence). apply round_aux_exact; lia.
  - assert (M = shift_pos p m') as ->.
    { apply Pos2Z.inj. rewrite shift_pos_spec, Hm, HM, <-Z.mul_assoc, <-Z.pow_add_r by lia. do 2 f_equal. lia. }
    replace E with (e - Z.pos p) by lia. apply round_aux_shift; lia.
Qed.

Lemma normalize_int n E : 0 ≤ n < 2 ^ 53 → -900 ≤ E ≤ 0 →
  binary_normalize 53 1024 (n * 2 ^ (- E)) E false = f64_of_Z n.
Proof.
  intros Hn HE. assert (0 < 2 ^ (- E)) as Hp by (apply Z.pow_pos_nonneg; lia).
  destruct (n * 2 ^ (- E)) as [|M|M] eqn:HM; [|cbn [binary_normalize]|lia].
  { assert (n = 0) as -> by nia. done. }
  assert (0 < n) as Hpos by nia.
  unfold binary_round, shl_align. pose proof (digits2_range M) as Hr.
  destruct (Z.le_gt_cases 53 (Z.pos (digits2_pos M))) as [Hd|Hd].
  - assert (2 ^ 52 ≤ Z.pos M) as Hbig.
    { etransitivity; [|apply Hr]. apply Z.pow_le_mono_r; lia. }
    assert (0 ≤ fexp 53 1024 (Z.pos (digits2_pos M) + E) - E) by (unfold fexp, emin; lia).
    destruct (fexp 53 1024 _ - E) as [|j|j]; [| |lia]; apply round_aux_int; (done || lia).
  - assert (fexp 53 1024 (Z.pos (digits2_pos M) + E) - E = Z.pos (digits2_pos M) - 53) as -> by (unfold fexp, emin; lia).
    assert (fexp 53 1024 (Z.pos (digits2_pos M) + E) = E + (Z.pos (digits2_pos M) - 53)) as -> by (unfold fexp, emin; lia).
    destruct (Z.pos (digits2_pos M) - 53) as [|j|j] eqn:Ej; [lia|lia|]. change (Pos.iter xO M j) with (shift_pos j M).
    pose proof (digits2_range (shift_pos j M)) as Hs. rewrite digits2_shift in Hs.
    replace (Z.pos (digits2_pos M) + Z.pos j) with 53 in Hs by lia.
    apply round_aux_int; [lia|lia| |apply Hs].
    rewrite shift_pos_spec, <-HM, <-Z.mul_assoc, <-Z.pow_add_r by lia. do 2 f_equal. lia.
Qed.

Lemma shl_align_fst m e ez : ez ≤ e → Z.pos (shl_align m e ez).1 = Z.pos m * 2 ^ (e - ez).
Proof.
  intros H. unfold shl_align. destruct (ez - e) as [|j|j] eqn:E; cbn [fst]; [|lia|].
  - replace (e - ez) with 0 by lia. cbn. lia.
  - change (Pos.iter xO m j) with (shift_pos j m). rewrite shift_pos_spec. do 2 f_equal. lia.
Qed.

(** ** The operations *)
Lemma aligned a m e ez : Z.pos m = a * 2 ^ (- e) → ez ≤ e → e ≤ 0 → Z.pos (shl_align m e ez).1 = a * 2 ^ (- ez).
Proof.
  intros Hm H He. rewrite shl_align_fst, Hm, <-Z.mul_assoc, <-Z.pow_add_r by lia. do 2 f_equal. lia.
Qed.

Lemma add_int a b : 0 ≤ a → 0 ≤ b → a + b < 2 ^ 53 → SFadd 53 1024 (f64_of_Z a) (f64_of_Z b) = f64_of_Z (a + b).
Proof.
  intros Ha Hb Hs. destruct a as [|a|]; [|destruct b as [|b|]; [|..]|]; try lia.
  - rewrite Z.add_0_l. destruct b as [|b|]; [done| |lia]. by destruct (f64_of_pos b ltac:(lia)) as (? & ? & -> & _).
  - rewrite Z.add_0_r. by destruct (f64_of_pos a ltac:(lia)) as (? & ? & -> & _).
  - destruct (f64_of_pos a) as (ma & ea & -> & Hea & Hma & _ & Hea'); [lia|].
    destruct (f64_of_pos b) as (mb & eb & -> & Heb & Hmb & _ & Heb'); [lia|]. cbn [SFadd cond_Zopp].
    rewrite (aligned _ _ _ _ Hma), (aligned _ _ _ _ Hmb), <-Z.mul_add_distr_r by lia. apply normalize_int; lia.
Qed.

Lemma sub_int a b : 0 ≤ b ≤ a → a < 2 ^ 53 → SFsub 53 1024 (f64_of_Z a) (f64_of_Z b) = f64_of_Z (a - b).
Proof.
  intros Hb Hs. destruct b as [|b|]; [| |lia].
  - rewrite Z.sub_0_r. destruct a as [|a|]; [done| |lia]. by destruct (f64_of_pos a ltac:(lia)) as (? & ? & -> & _).
  - destruct a as [|a|]; [lia| |lia].
    destruct (f64_of_pos a) as (ma & ea & -> & Hea & Hma & _ & Hea'); [lia|].
    destruct (f64_of_pos b) as (mb & eb & -> & Heb & Hmb & _ & Heb'); [lia|]. cbn [SFsub cond_Zopp].
    rewrite (aligned _ _ _ _ Hma), (aligned _ _ _ _ Hmb), <-Z.mul_sub_distr_r by lia. apply normalize_int; lia.
Qed.

Lemma mul_int a b : 0 ≤ a < 2 ^ 53 → 0 ≤ b < 2 ^ 53 → a * b < 2 ^ 53 →
  SFmul 53 1024 (f64_of_Z a) (f64_of_Z b) = f64_of_Z (a * b).
Proof.
  intros Ha Hb Hs. destruct a as [|a|]; [|destruct b as [|b|]; [|..]|]; try lia.
  - rewrite Z.mul_0_l. destruct b as [|b|]; [done| |lia]. by destruct (f64_of_pos b ltac:(lia)) as (? & ? & -> & _).
  - rewrite Z.mul_0_r. by destruct (f64_of_pos a ltac:(lia)) as (? & ? & -> & _).
  - destruct (f64_of_pos a) as (ma & ea & -> & Hea & Hma & Hda & Hea'); [lia|].
    destruct (f64_of_pos b) as (mb & eb & -> & Heb & Hmb & Hdb & Heb'); [lia|]. cbn [SFmul xorb].
    apply round_aux_int; [lia|lia| |].
    + rewrite Pos2Z.inj_mul, Hma, Hmb. replace (- (ea + eb)) with (- ea + - eb) by lia.
      rewrite Z.pow_add_r by lia. lia.
    + pose proof (digits2_range ma) as Hra. rewrite Hda in Hra. pose proof (digits2_range mb) as Hrb. rewrite Hdb in Hrb.
      cbn [Z.sub] in *. nia.
Qed.

(** The larger exponent belongs to the larger integer. *)
Lemma scaled_lt a b ma ea mb eb : Z.pos ma = a * 2 ^ (- ea) → Z.pos mb = b * 2 ^ (- eb) →
  2 ^ 52 ≤ Z.pos ma < 2 ^ 53 → 2 ^ 52 ≤ Z.pos mb < 2 ^ 53 → ea < eb → eb ≤ 0 → a < b.
Proof.
  intros Ha Hb Hra Hrb Hlt He. assert (0 < 2 ^ (- ea)) as Hp by (apply Z.pow_pos_nonneg; lia).
  assert (0 < 2 ^ (- eb)) as Hq by (apply Z.pow_pos_nonneg; lia).
  assert (2 ^ (1 + - eb) ≤ 2 ^ (- ea)) as Hle by (apply Z.pow_le_mono_r; lia). rewrite Z.pow_add_r in Hle by lia.
  apply (Z.mul_lt_mono_pos_r (2 ^ (- ea))); [done|]. rewrite <-Ha. assert (0 < b) by nia. nia.
Qed.

Lemma ltb_int a b : 0 ≤ a < 2 ^ 53 → 0 ≤ b < 2 ^ 53 → SFltb (f64_of_Z a) (f64_of_Z b) = (a <? b).
Proof.
  intros Ha Hb. destruct a as [|a|]; [|destruct b as [|b|]; [|..]|]; try lia.
  - destruct b as [|b|]; [done| |lia]. by destruct (f64_of_pos b ltac:(lia)) as (? & ? & -> & _).
  - by destruct (f64_of_pos a ltac:(lia)) as (? & ? & -> & _).
  - destruct (f64_of_pos a) as (ma & ea & -> & Hea & Hma & Hda & Hea'); [lia|].
    destruct (f64_of_pos b) as (mb & eb & -> & Heb & Hmb & Hdb & Heb'); [lia|].
    pose proof (digits2_range ma) as Hra. rewrite Hda in Hra. pose proof (digits2_range mb) as Hrb. rewrite Hdb in Hrb.
    change (53 - 1) with 52 in *. unfold SFltb, SFcompare. destruct (Z.compare_spec ea eb) as [->|Hlt|Hgt].
    + assert (0 < 2 ^ (- eb)) as Hp by (apply Z.pow_pos_nonneg; lia). change (Pos.compare_cont Eq ma mb) with (Pos.compare ma mb).
      destruct (Pos.compare_spec ma mb) as [->|Hc|Hc]; symmetry; [apply Z.ltb_ge|apply Z.ltb_lt|apply Z.ltb_ge]; nia.
    + symmetry. apply Z.ltb_lt. by eapply (scaled_lt _ _ ma ea mb eb).
    + symmetry. apply Z.ltb_ge, Z.lt_le_incl. by eapply (scaled_lt _ _ mb eb ma ea).
Qed.
