(* ===== verification/GoCalendar.v ===== *)
(** * Instants, the calendar and RFC 3339

    A time.Time as its instant and the UTC offset of its location; the proleptic
    Gregorian calendar of the time package; Format with the layout RFC3339Nano and
    Parse with the layouts RFC3339 and RFC3339Nano, which accept the same texts.
    The theorems: formatting a time with a year of four digits and an offset that
    can be written reads back as the same time, and what Parse accepts. *)
From S2P Require Import Prelude GoStrings GoUtf8 GoJson GoTime.

(** [instant] in nanoseconds since the epoch, [zone] in seconds east of UTC. *)
Record Time := { instant : Z; zone : Z }.

#[global] Instance Time_eq_dec : EqDecision Time.
Proof. solve_decision. Defined.

Definition UTC (instant : Z) : Time := {| instant := instant; zone := 0 |}.

(** ** Years, months and days *)
Definition isLeap (y : Z) : bool := (y mod 4 =? 0) && (negb (y mod 100 =? 0) || (y mod 400 =? 0)).

(** Days from January 1 of year 0 to January 1 of [y]. *)
Definition daysBeforeYear (y : Z) : Z := 365 * y + (y + 3) / 4 - (y + 99) / 100 + (y + 399) / 400.

(** Days of the year before month [m]; 13 is the whole year. *)
Definition daysBefore (m y : Z) : Z :=
  default 0 ([0; 0; 31; 59; 90; 120; 151; 181; 212; 243; 273; 304; 334; 365] !! Z.to_nat m)
  + (if (3 <=? m) && isLeap y then 1 else 0).

Definition daysIn (m y : Z) : Z := daysBefore (m + 1) y - daysBefore m y.

(** Days since January 1 of year 0. *)
Definition daysOf (y m d : Z) : Z := daysBeforeYear y + daysBefore m y + (d - 1).

(** The year of a day: the mean year's guess is at most one off. *)
Definition yearOf (n : Z) : Z :=
  let y := n * 400 / 146097 in
  if n <? daysBeforeYear y then y - 1 else if daysBeforeYear (y + 1) <=? n then y + 1 else y.

(** The month of a day of the year. *)
Fixpoint monthFrom (k : nat) (m y yday : Z) : Z :=
  match k with O => m | S k => if daysBefore (m + 1) y <=? yday then monthFrom k (m + 1) y yday else m end.

Definition dateOf (n : Z) : Z * Z * Z :=
  let y := yearOf n in
  let yday := n - daysBeforeYear y in
  let m := monthFrom 11 1 y yday in
  (y, m, yday - daysBefore m y + 1).

Lemma daysBeforeYear_succ y : daysBeforeYear (y + 1) = daysBeforeYear y + (if isLeap y then 366 else 365).
Proof.
  unfold daysBeforeYear, isLeap.
  destruct (Z.eqb_spec (y mod 4) 0), (Z.eqb_spec (y mod 100) 0), (Z.eqb_spec (y mod 400) 0); cbn;
    Z.to_euclidean_division_equations; lia.
Qed.

Lemma yearOf_spec n : daysBeforeYear (yearOf n) ≤ n < daysBeforeYear (yearOf n + 1).
Proof.
  unfold yearOf. set (y := n * 400 / 146097).
  assert (daysBeforeYear (y - 1) ≤ n < daysBeforeYear (y + 2)).
  { unfold daysBeforeYear, y. Z.to_euclidean_division_equations. lia. }
  destruct (Z.ltb_spec n (daysBeforeYear y)); [replace (y - 1 + 1) with y by lia; lia|].
  destruct (Z.leb_spec (daysBeforeYear (y + 1)) n); [replace (y + 1 + 1) with (y + 2) by lia; lia|lia].
Qed.

Lemma daysBeforeYear_mono y z : y ≤ z → daysBeforeYear y ≤ daysBeforeYear z.
Proof. intros. unfold daysBeforeYear. Z.to_euclidean_division_equations. lia. Qed.

Lemma yearOf_unique n y : daysBeforeYear y ≤ n < daysBeforeYear (y + 1) → yearOf n = y.
Proof.
  intros H. pose proof (yearOf_spec n) as H'.
  destruct (Z.lt_trichotomy (yearOf n) y) as [Hl|[Hl|Hl]]; [|done|].
  - pose proof (daysBeforeYear_mono (yearOf n + 1) y). lia.
  - pose proof (daysBeforeYear_mono (y + 1) (yearOf n)). lia.
Qed.

Lemma month_cases m : 1 ≤ m ≤ 12 →
  m = 1 ∨ m = 2 ∨ m = 3 ∨ m = 4 ∨ m = 5 ∨ m = 6 ∨ m = 7 ∨ m = 8 ∨ m = 9 ∨ m = 10 ∨ m = 11 ∨ m = 12.
Proof. lia. Qed.

(** A fact about each month, of a leap year or not. *)
Ltac each_month Hm :=
  destruct (month_cases _ Hm) as [->|[->|[->|[->|[->|[->|[->|[->|[->|[->|[->| ->]]]]]]]]]]];
  match goal with |- context [isLeap ?y] => destruct (isLeap y) end; vm_compute; intuition discriminate.

Lemma daysIn_range m y : 1 ≤ m ≤ 12 → 28 ≤ daysIn m y ≤ 31.
Proof.
  intros Hm. unfold daysIn, daysBefore. each_month Hm.
Qed.

Lemma daysBefore_first y : daysBefore 1 y = 0.
Proof. done. Qed.
Lemma daysBefore_last y : daysBefore 13 y = if isLeap y then 366 else 365.
Proof. unfold daysBefore. by destruct (isLeap y). Qed.

Lemma monthFrom_spec k m y yday : 1 ≤ m → m + Z.of_nat k = 12 → daysBefore m y ≤ yday < daysBefore 13 y →
  let m' := monthFrom k m y yday in 1 ≤ m' ≤ 12 ∧ daysBefore m' y ≤ yday < daysBefore (m' + 1) y.
Proof.
  revert m. induction k as [|k IH]; intros m Hm Hk Hd; cbn [monthFrom].
  - assert (m = 12) as -> by lia. cbv zeta. change (12 + 1) with 13. lia.
  - destruct (Z.leb_spec (daysBefore (m + 1) y) yday); [apply IH; lia|]. cbv zeta. lia.
Qed.

Lemma monthFrom_unique k m y yday m0 : 1 ≤ m → m + Z.of_nat k = 12 → m ≤ m0 ≤ 12 →
  daysBefore m0 y ≤ yday < daysBefore (m0 + 1) y → monthFrom k m y yday = m0.
Proof.
  assert (∀ a b, 1 ≤ a → a ≤ b ≤ 12 → daysBefore a y ≤ daysBefore b y) as Hmono.
  { intros a b Ha Hb. assert (∃ i : nat, b = a + Z.of_nat i) as [i ->] by (exists (Z.to_nat (b - a)); lia).
    induction i as [|i IH]; [by rewrite Z.add_0_r|]. specialize (IH ltac:(lia)).
    pose proof (daysIn_range (a + Z.of_nat i) y ltac:(lia)) as Hd. unfold daysIn in Hd.
    replace (a + Z.of_nat (S i)) with (a + Z.of_nat i + 1) by lia. lia. }
  revert m. induction k as [|k IH]; intros m Hm Hk Hm0 Hd; cbn [monthFrom]; [lia|].
  destruct (Z.leb_spec (daysBefore (m + 1) y) yday) as [Hle|Hgt].
  - apply IH; [lia|lia| |done]. destruct (Z.eq_dec m m0) as [->|]; lia.
  - destruct (Z.eq_dec m m0) as [->|]; [done|]. specialize (Hmono (m + 1) m0 ltac:(lia) ltac:(lia)). lia.
Qed.

(** Every day has one date. *)
Lemma dateOf_spec n : let '(y, m, d) := dateOf n in
  1 ≤ m ≤ 12 ∧ 1 ≤ d ≤ daysIn m y ∧ daysOf y m d = n ∧ daysBeforeYear y ≤ n < daysBeforeYear (y + 1).
Proof.
  unfold dateOf. pose proof (yearOf_spec n) as Hy. pose proof (daysBeforeYear_succ (yearOf n)) as Hs.
  rewrite <-daysBefore_last in Hs. pose proof (monthFrom_spec 11 1 (yearOf n) (n - daysBeforeYear (yearOf n))) as Hm.
  cbv zeta in Hm. destruct Hm as [Hm Hd]; [lia|lia|rewrite daysBefore_first; lia|]. unfold daysIn, daysOf. lia.
Qed.

Lemma dateOf_daysOf y m d : 1 ≤ m ≤ 12 → 1 ≤ d ≤ daysIn m y → dateOf (daysOf y m d) = (y, m, d).
Proof.
  intros Hm Hd. unfold daysIn in Hd.
  assert (0 ≤ daysBefore m y ∧ daysBefore (m + 1) y ≤ daysBefore 13 y) as [H1 H2].
  { unfold daysBefore. each_month Hm. }
  assert (yearOf (daysOf y m d) = y) as Hy.
  { apply yearOf_unique. rewrite daysBeforeYear_succ, <-daysBefore_last. unfold daysOf. lia. }
  unfold dateOf. rewrite Hy. assert (monthFrom 11 1 y (daysOf y m d - daysBeforeYear y) = m) as ->.
  { apply monthFrom_unique; [lia|lia|lia|]. unfold daysOf. lia. }
  unfold daysOf. do 2 f_equal; lia.
Qed.

(** ** Format *)
Fixpoint fixed (w : nat) (n : Z) : string :=
  match w with O => "" | S w => fixed w (n / 10) +:+ String (digit_char (n mod 10)) "" end.

(** appendInt: at least [w] digits. *)
Definition appendInt (x : Z) (w : nat) : string :=
  let u := Z.abs x in
  (if x <? 0 then "-" else "") +:+ (if 10 ^ Z.of_nat w <=? u then FormatUint u else fixed w u).

Fixpoint trimZeros (s : string) : string :=
  match s with
  | "" => ""
  | String c t => match trimZeros t with "" => if eqc c "0"%char then "" else String c "" | t => String c t end
  end.

(** appendNano for the layout's .999999999 *)
Definition appendNano (nanosec : Z) : string :=
  if nanosec =? 0 then "" else String "." (trimZeros (appendInt nanosec 9)).

Definition daysToEpoch : Z := 719528.

(** Day since January 1 of year 0, second of the day and nanosecond, on the
    clock of the time's location. *)
Definition wallSeconds (t : Time) : Z := instant t / Second + zone t.
Definition wallDay (t : Time) : Z := wallSeconds t / 86400 + daysToEpoch.
Definition clock (t : Time) : Z := wallSeconds t mod 86400.
Definition nanosecond (t : Time) : Z := instant t mod Second.

Definition appendZone (offset : Z) : string :=
  if offset =? 0 then "Z"
  else
    let zone := Z.quot offset 60 in
    (if zone <? 0 then "-" else "+") +:+ appendInt (Z.abs zone / 60) 2 +:+ ":" +:+ appendInt (Z.abs zone mod 60) 2.

(** Time.Format(time.RFC3339Nano) *)
Definition format_RFC3339Nano (t : Time) : string :=
  let '(year, month, day) := dateOf (wallDay t) in
  appendInt year 4 +:+ "-" +:+ appendInt month 2 +:+ "-" +:+ appendInt day 2 +:+ "T"
  +:+ appendInt (clock t / 3600) 2 +:+ ":" +:+ appendInt (clock t mod 3600 / 60) 2 +:+ ":" +:+ appendInt (clock t mod 60) 2
  +:+ appendNano (nanosecond t) +:+ appendZone (zone t).

(** ** Parse *)

(** getnum: two digits, or one where [fixed] does not ask for two. *)
Definition getnum (two : bool) (s : string) : option (Z * string) :=
  match s with
  | String a r =>
      if negb (is_digit a) then None
      else match r with
           | String b r' => if is_digit b then Some ((byte a - 48) * 10 + (byte b - 48), r')
                            else if two then None else Some (byte a - 48, r)
           | "" => if two then None else Some (byte a - 48, r)
           end
  | "" => None
  end.

Definition getyear (s : string) : option (Z * string) :=
  match s with
  | String a (String b (String c (String d r))) =>
      if all_digits (String a (String b (String c (String d "")))) then Some (horner 0 (String a (String b (String c (String d "")))), r)
      else None
  | _ => None
  end.

Definition skip (c : ascii) (s : string) : option string :=
  match s with String x r => if eqc x c then Some r else None | "" => None end.

(** parseNanoseconds: digits past the ninth are dropped. *)
Definition parseNanoseconds (digits : string) : Z :=
  let d := string_take 9 digits in horner 0 d * 10 ^ (9 - Z.of_nat (String.length d)).

Definition getfraction (s : string) : Z * string :=
  match s with
  | String p r =>
      if one_of ["."; ","]%char p then
        let '(digits, rest) := takeDigits r in
        match digits with "" => (0, s) | _ => (parseNanoseconds digits, rest) end
      else (0, s)
  | "" => (0, s)
  end.

(** Z07:00, with 24 hours and 60 minutes let through. *)
Definition getzone (s : string) : option (Z * string) :=
  match s with
  | String sign r =>
      if eqc sign "Z"%char then Some (0, r)
      else
        '(hr, r) ← getnum true r; r ← skip ":"%char r; '(mm, r) ← getnum true r;
        if (24 <? hr) || (60 <? mm) then None
        else
          let zoneOffset := (hr * 60 + mm) * 60 in
          if eqc sign "+"%char then Some (zoneOffset, r)
          else if eqc sign "-"%char then Some (- zoneOffset, r) else None
  | "" => None
  end.

Definition in_bounds (lo hi n : Z) : option unit := if (lo <=? n) && (n <=? hi) then Some tt else None.

(** Date(year, month, day, hour, min, sec, nsec, UTC) moved by the offset. *)
Definition timeOf (year month day hour min sec nsec offset : Z) : Time :=
  {| instant := ((daysOf year month day - daysToEpoch) * 86400 + hour * 3600 + min * 60 + sec - offset) * Second + nsec;
     zone := offset |}.

Definition parseTime (s : string) : option Time :=
  '(year, s) ← getyear s; s ← skip "-"%char s;
  '(month, s) ← getnum true s; _ ← in_bounds 1 12 month; s ← skip "-"%char s;
  '(day, s) ← getnum true s; s ← skip "T"%char s;
  '(hour, s) ← getnum false s; _ ← in_bounds 0 23 hour; s ← skip ":"%char s;
  '(min, s) ← getnum true s; _ ← in_bounds 0 59 min; s ← skip ":"%char s;
  '(sec, s) ← getnum true s; _ ← in_bounds 0 59 sec;
  let '(nsec, s) := getfraction s in
  '(offset, s) ← getzone s;
  match s with
  | "" => _ ← in_bounds 1 (daysIn month year) day; Some (timeOf year month day hour min sec nsec offset)
  | _ => None
  end.

(** time.Parse with time.RFC3339 or time.RFC3339Nano *)
Definition parse_RFC3339 (s : string) : result Time :=
  match parseTime s with Some t => Ok t | None => Err (Errorf "parsing time %q as %q: cannot parse %q as %q") end.

#[global] Arguments format_RFC3339Nano : simpl never.
#[global] Arguments parseTime : simpl never.
#[global] Arguments parse_RFC3339 : simpl never.

Example format_samples :
  format_RFC3339Nano (UTC 0) = "1970-01-01T00:00:00Z" ∧
  format_RFC3339Nano {| instant := 1709210096789000000; zone := -18000 |} = "2024-02-29T07:34:56.789-05:00" ∧
  format_RFC3339Nano (UTC (-62167219200 * Second + 1)) = "0000-01-01T00:00:00.000000001Z" ∧
  format_RFC3339Nano (UTC (-62167219200 * Second - 1)) = "-0001-12-31T23:59:59.999999999Z".
Proof. vm_compute. done. Qed.

Example parse_samples :
  parseTime "2024-02-29T07:34:56.789-05:00" = Some {| instant := 1709210096789000000; zone := -18000 |} ∧
  parseTime "2023-02-29T00:00:00Z" = None ∧ parseTime "1970-01-01T0:00:00Z" = Some (UTC 0) ∧
  parseTime "1970-01-01T00:00:00,5Z" = Some (UTC 500000000) ∧ parseTime "1970-01-01T24:00:00Z" = None ∧
  parseTime "1970-01-02T01:00:00+24:60" = Some {| instant := 0; zone := 90000 |} ∧
  parseTime "1970-01-02T01:00:00+25:00" = None ∧ parseTime "1970-01-01t00:00:00Z" = None ∧ parseTime "1970-01-01T00:00:00Z " = None.
Proof. vm_compute. done. Qed.

(** ** Reading back what was formatted *)
Lemma fixed_spec w n : 0 ≤ n < 10 ^ Z.of_nat w →
  all_digits (fixed w n) = true ∧ String.length (fixed w n) = w ∧ horner 0 (fixed w n) = n.
Proof.
  revert n. induction w as [|w IH]; intros n Hn; cbn [fixed].
  { change (10 ^ Z.of_nat 0) with 1 in Hn. split_and!; [done|done|cbn; lia]. }
  rewrite Nat2Z.inj_succ, Z.pow_succ_r in Hn by lia.
  destruct (IH (n / 10)) as (Hd & Hl & Hh); [Z.to_euclidean_division_equations; lia|].
  pose proof (Z.mod_pos_bound n 10 eq_refl). unfold all_digits in *.
  rewrite string_forallb_app, length_string_app, horner_app, Hd, Hl, Hh. cbn. rewrite is_digit_digit_char, byte_digit_char by lia.
  split_and!; [done|lia|Z.to_euclidean_division_equations; lia].
Qed.

Lemma appendInt_fixed n w : 0 ≤ n < 10 ^ Z.of_nat w → appendInt n w = fixed w n.
Proof.
  intros H. unfold appendInt. rewrite Z.abs_eq by lia. destruct (Z.ltb_spec n 0); [lia|].
  destruct (Z.leb_spec (10 ^ Z.of_nat w) n); [lia|]. done.
Qed.

Lemma getnum_appendInt two n r : 0 ≤ n < 100 → getnum two (appendInt n 2 +:+ r) = Some (n, r).
Proof.
  intros Hn. rewrite appendInt_fixed by done. destruct (fixed_spec 2 n Hn) as (Hd & Hl & Hh).
  destruct (fixed 2 n) as [|a [|b [|]]]; try done. unfold all_digits in Hd. cbn in Hd, Hh. bool_props.
  rewrite !app_cons, app_nil_l. cbn. destruct (is_digit a), (is_digit b); try done. cbn. do 2 f_equal. lia.
Qed.

Lemma getyear_appendInt y r : 0 ≤ y < 10000 → getyear (appendInt y 4 +:+ r) = Some (y, r).
Proof.
  intros Hn. rewrite appendInt_fixed by done. destruct (fixed_spec 4 y Hn) as (Hd & Hl & Hh).
  destruct (fixed 4 y) as [|a [|b [|c [|d [|]]]]]; try done. rewrite !app_cons, app_nil_l. cbn [getyear]. by rewrite Hd, Hh.
Qed.

Lemma skip_cons c r : skip c (String c "" +:+ r) = Some r.
Proof. rewrite app_cons, app_nil_l. cbn [skip]. unfold eqc. by rewrite Ascii.eqb_refl. Qed.

Lemma trimZeros_spec s : all_digits s = true →
  all_digits (trimZeros s) = true ∧ (String.length (trimZeros s) ≤ String.length s)%nat ∧
  horner 0 s = horner 0 (trimZeros s) * 10 ^ (Z.of_nat (String.length s) - Z.of_nat (String.length (trimZeros s))).
Proof.
  unfold all_digits. induction s as [|c s IH]; [done|]. cbn [string_forallb]. intros [Hc Hs]%andb_true_iff.
  destruct (IH Hs) as (Hd & Hl & Hh). cbn [trimZeros].
  cbn [horner]. rewrite (horner_shift (0 * 10 + (byte c - 48)) s), Hh.
  destruct (trimZeros s) as [|d t] eqn:E.
  - cbn [horner]. unfold eqc. destruct (Ascii.eqb_spec c "0"%char) as [->|Hne].
    + split_and!; [done|cbn; lia|]. change (byte "0") with 48. cbn. lia.
    + split_and!; [cbn; by rewrite Hc|cbn; lia|]. cbn [String.length horner]. rewrite Nat2Z.inj_succ.
      replace (Z.succ (Z.of_nat (String.length s)) - Z.of_nat 1) with (Z.of_nat (String.length s)) by lia. lia.
  - split_and!; [cbn [string_forallb]; by rewrite Hc|cbn in *; lia|].
    change (String.length (String c (String d t))) with (S (String.length (String d t))).
    change (String.length (String c s)) with (S (String.length s)). rewrite !Nat2Z.inj_succ.
    set (L := Z.of_nat (String.length s)) in *. set (T := String d t) in *.
    replace (Z.succ L - Z.succ (Z.of_nat (String.length T))) with (L - Z.of_nat (String.length T)) by lia.
    change (horner 0 (String c T)) with (horner (0 * 10 + (byte c - 48)) T). rewrite (horner_shift (0 * 10 + (byte c - 48)) T).
    replace L with (Z.of_nat (String.length T) + (L - Z.of_nat (String.length T))) at 1 by lia.
    rewrite Z.pow_add_r by lia. ring.
Qed.

Lemma getfraction_appendNano ns rest : 0 ≤ ns < 1000000000 → number_end rest = true → getfraction (rest) = (0, rest) →
  getfraction (appendNano ns +:+ rest) = (ns, rest).
Proof.
  intros Hns Hr H0. unfold appendNano. destruct (Z.eqb_spec ns 0) as [->|Hne]; [done|].
  rewrite appendInt_fixed by done. destruct (fixed_spec 9 ns Hns) as (Hd & Hl & Hh).
  destruct (trimZeros_spec _ Hd) as (Hd' & Hl' & Hh'). rewrite app_cons. cbn [getfraction]. change (one_of ["."; ","]%char ".") with true. cbn iota.
  rewrite (takeDigits_app _ (trimZeros (fixed 9 ns)) ""); [|by apply number_end_not_digit|by apply takeDigits_all]. rewrite app_nil_l.
  destruct (trimZeros (fixed 9 ns)) as [|c t] eqn:E; [rewrite Hh in Hh'; cbn [horner] in Hh'; lia|]. f_equal. unfold parseNanoseconds.
  replace (string_take 9 (String c t)) with (String c t); [rewrite <-Hh, Hh', Hl; f_equal; lia|].
  rewrite <-(string_take_drop 9 (String c t)) at 1.
  replace (string_drop 9 (String c t)) with ""; [by rewrite app_nil_r|].
  pose proof (length_string_drop 9 (String c t)). destruct (string_drop 9 (String c t)); [done|]. cbn in *. lia.
Qed.

Definition zone_ok (z : Z) : Prop := z mod 60 = 0 ∧ -89940 ≤ z ≤ 89940.

Lemma getzone_appendZone z : zone_ok z → getzone (appendZone z) = Some (z, "").
Proof.
  intros [Hm Hz]. unfold appendZone. destruct (Z.eqb_spec z 0) as [->|Hne]; [done|].
  set (q := Z.quot z 60). assert (z = q * 60 ∧ Z.abs q ≤ 1499 ∧ q ≠ 0) as (Ez & Hq & Hq0) by (unfold q; Z.to_euclidean_division_equations; lia).
  cbv zeta. set (sign := if q <? 0 then "-" else "+").
  assert (∀ r, sign +:+ r = String (if q <? 0 then "-"%char else "+"%char) r) as -> by (intros; unfold sign; by destruct (q <? 0)).
  cbn [getzone]. replace (eqc (if q <? 0 then "-"%char else "+"%char) "Z"%char) with false by (by destruct (q <? 0)).
  rewrite getnum_appendInt by (Z.to_euclidean_division_equations; lia). cbn [mbind option_bind]. rewrite skip_cons. cbn [mbind option_bind].
  rewrite <-(app_nil_r (appendInt (Z.abs q mod 60) 2)), getnum_appendInt by (Z.to_euclidean_division_equations; lia). cbn [mbind option_bind].
  destruct (Z.ltb_spec 24 (Z.abs q / 60)); [Z.to_euclidean_division_equations; lia|].
  destruct (Z.ltb_spec 60 (Z.abs q mod 60)); [Z.to_euclidean_division_equations; lia|]. cbn [orb].
  destruct (Z.ltb_spec q 0).
  - change (eqc "-" "+") with false. change (eqc "-" "-") with true. cbn iota. do 2 f_equal. Z.to_euclidean_division_equations; lia.
  - change (eqc "+" "+") with true. cbn iota. do 2 f_equal. Z.to_euclidean_division_equations; lia.
Qed.

Lemma appendZone_head z : number_end (appendZone z) = true ∧ getfraction (appendZone z) = (0, appendZone z).
Proof. unfold appendZone. destruct (z =? 0); [done|]. cbv zeta. destruct (Z.quot z 60 <? 0); done. Qed.

(** Times whose year has four digits on their own clock. *)
Definition year_ok (t : Time) : Prop := 0 ≤ wallDay t < daysBeforeYear 10000.

Lemma in_bounds_ok lo hi n : lo ≤ n ≤ hi → in_bounds lo hi n = Some tt.
Proof. intros. unfold in_bounds. destruct (Z.leb_spec lo n), (Z.leb_spec n hi); done || lia. Qed.

(** One step of [parseTime] over text that was formatted. *)
Ltac parse_step :=
  first [rewrite skip_cons | rewrite getnum_appendInt by (Z.to_euclidean_division_equations; lia)
        | rewrite in_bounds_ok by (Z.to_euclidean_division_equations; lia)]; cbn [mbind option_bind].

(** The date, the clock and the fraction read back; what is left is the zone. *)
Lemma parse_up_to_zone t : year_ok t → parseTime (format_RFC3339Nano t) =
  '(offset, rest) ← getzone (appendZone (zone t));
  match rest with "" => Some {| instant := instant t + (zone t - offset) * Second; zone := offset |} | _ => None end.
Proof.
  intros Hy. unfold format_RFC3339Nano. pose proof (dateOf_spec (wallDay t)) as Hdate.
  destruct (dateOf (wallDay t)) as [[y m] d]. destruct Hdate as (Hm & Hd & Hdays & Hyear).
  assert (0 ≤ y < 10000) as Hy4.
  { unfold year_ok in Hy. split.
    - destruct (Z.le_gt_cases 0 y); [done|]. pose proof (daysBeforeYear_mono (y + 1) 0). change (daysBeforeYear 0) with 0 in *. lia.
    - destruct (Z.le_gt_cases 10000 y); [|done]. pose proof (daysBeforeYear_mono 10000 y). lia. }
  pose proof (daysIn_range m y Hm) as Hdi. assert (0 ≤ clock t < 86400) as Hc by (apply Z.mod_pos_bound; done).
  assert (0 ≤ nanosecond t < 1000000000) as Hn by (apply Z.mod_pos_bound; done). unfold parseTime.
  rewrite getyear_appendInt by done. cbn [mbind option_bind]. repeat parse_step.
  destruct (appendZone_head (zone t)) as [H1 H2]. rewrite getfraction_appendNano by done.
  destruct (getzone (appendZone (zone t))) as [[offset [|]]|]; [|done..]. cbn [mbind option_bind].
  f_equal. unfold timeOf. rewrite Hdays. destruct t as [i z]. unfold wallDay, clock, nanosecond, wallSeconds in *. cbn [instant zone] in *.
  f_equal. clear -Hc. set (w := i / Second + z) in *. replace (i / Second) with (w - z) in * by (unfold w; lia).
  assert (i = (w - z) * Second + i mod Second) as -> by (unfold w, Second; Z.to_euclidean_division_equations; lia).
  unfold Second. Z.to_euclidean_division_equations; lia.
Qed.

Lemma parse_format t : year_ok t → zone_ok (zone t) → parseTime (format_RFC3339Nano t) = Some t.
Proof.
  intros Hy Hz. rewrite parse_up_to_zone, getzone_appendZone by done. cbn. destruct t as [i z]. cbn. do 2 f_equal. lia.
Qed.

(** An offset of 24 hours and 60 minutes is written as 25 hours, which no layout reads. *)
Lemma parse_format_25h t : year_ok t → Z.abs (zone t) = 90000 → parseTime (format_RFC3339Nano t) = None.
Proof.
  intros Hy Hz. rewrite parse_up_to_zone by done. assert (zone t = 90000 ∨ zone t = -90000) as [-> | ->] by lia; vm_compute; done.
Qed.

(** ** What Parse accepts *)
Lemma digit_value c : is_digit c = true → 0 ≤ byte c - 48 ≤ 9.
Proof. intros H%is_digit_range. lia. Qed.

Lemma getnum_range two s n r : getnum two s = Some (n, r) → 0 ≤ n ≤ 99.
Proof.
  destruct s as [|a r']; [done|]. cbn. destruct (is_digit a) eqn:Ha; [|done]. apply digit_value in Ha. cbn.
  destruct r' as [|b r'']; [destruct two; [done|intros [= <- _]; lia]|].
  destruct (is_digit b) eqn:Hb; [apply digit_value in Hb; intros [= <- _]; lia|]. destruct two; [done|intros [= <- _]; lia].
Qed.

Lemma getyear_range s n r : getyear s = Some (n, r) → 0 ≤ n < 10000.
Proof.
  destruct s as [|a [|b [|c [|d r']]]]; try done. cbn [getyear]. destruct (all_digits _) eqn:Hd; [|done].
  apply horner_bounds in Hd. intros [= <- _]. exact Hd.
Qed.

Lemma takeDigits_digits s : all_digits (takeDigits s).1 = true.
Proof. unfold all_digits. induction s as [|c s IH]; [done|]. cbn. destruct (is_digit c) eqn:E, (takeDigits s); cbn in *; [by rewrite E|done]. Qed.

Lemma string_forallb_take p n s : string_forallb p s = true → string_forallb p (string_take n s) = true.
Proof. revert s. induction n as [|n IH]; intros [|c s]; try done. cbn. intros [-> Hs]%andb_true_iff. by apply IH. Qed.

Lemma parseNanoseconds_range s : all_digits s = true → 0 ≤ parseNanoseconds s < 1000000000.
Proof.
  intros H. unfold parseNanoseconds. cbv zeta. apply (string_forallb_take _ 9) in H. set (d := string_take 9 s) in *.
  pose proof (horner_bounds d H) as Hb. assert (String.length d ≤ 9)%nat as Hl.
  { subst d. clear. generalize 9%nat as n. intros n. revert s. induction n as [|n IH]; intros [|c s]; cbn; try lia. specialize (IH s). lia. }
  assert (10 ^ 9 = 10 ^ Z.of_nat (String.length d) * 10 ^ (9 - Z.of_nat (String.length d))) as E.
  { rewrite <-Z.pow_add_r by lia. f_equal. lia. }
  change (10 ^ 9) with 1000000000 in E. assert (0 < 10 ^ (9 - Z.of_nat (String.length d))) by (apply Z.pow_pos_nonneg; lia). nia.
Qed.

Lemma getfraction_range s n r : getfraction s = (n, r) → 0 ≤ n < 1000000000.
Proof.
  destruct s as [|p t]; [intros [= <- _]; lia|]. cbn. destruct (_ || _); [|intros [= <- _]; lia].
  pose proof (takeDigits_digits t) as Hd. destruct (takeDigits t) as [[|c d] rest]; [intros [= <- _]; lia|].
  intros [= <- _]. by apply parseNanoseconds_range.
Qed.

Lemma getzone_range s n r : getzone s = Some (n, r) → n mod 60 = 0 ∧ -90000 ≤ n ≤ 90000.
Proof.
  destruct s as [|c t]; [done|]. cbn [getzone]. destruct (eqc c "Z"%char); [by intros [= <- _]|].
  destruct (getnum true t) as [[hr u]|] eqn:E1; [|done]. apply getnum_range in E1. cbn [mbind option_bind].
  destruct (skip ":"%char u) as [v|]; [|done]. cbn [mbind option_bind].
  destruct (getnum true v) as [[mm w]|] eqn:E2; [|done]. apply getnum_range in E2. cbn [mbind option_bind].
  destruct (_ || _) eqn:E3; [done|]. bool_props.
  destruct (eqc c "+"%char); [|destruct (eqc c "-"%char); [|done]]; intros [= <- _];
    (split; [Z.to_euclidean_division_equations|]; lia).
Qed.

Lemma in_bounds_Some lo hi n u : in_bounds lo hi n = Some u → lo ≤ n ≤ hi.
Proof. unfold in_bounds. destruct (Z.leb_spec lo n), (Z.leb_spec n hi); done || lia. Qed.

Lemma parseTime_fields s t : parseTime s = Some t → ∃ y m d h mi sec ns off,
  t = timeOf y m d h mi sec ns off ∧ 0 ≤ y < 10000 ∧ 1 ≤ m ≤ 12 ∧ 1 ≤ d ≤ daysIn m y ∧ 0 ≤ h ≤ 23 ∧ 0 ≤ mi ≤ 59 ∧ 0 ≤ sec ≤ 59 ∧
  0 ≤ ns < 1000000000 ∧ off mod 60 = 0 ∧ -90000 ≤ off ≤ 90000.
Proof.
  unfold parseTime. intros H.
  apply bind_Some in H as ((y & s1) & Hy & H). apply bind_Some in H as (s2 & _ & H). apply getyear_range in Hy.
  apply bind_Some in H as ((m & s3) & _ & H). apply bind_Some in H as (u1 & Hm & H). apply bind_Some in H as (s4 & _ & H).
  apply bind_Some in H as ((d & s5) & _ & H). apply bind_Some in H as (s6 & _ & H).
  apply bind_Some in H as ((h & s7) & _ & H). apply bind_Some in H as (u2 & Hh & H). apply bind_Some in H as (s8 & _ & H).
  apply bind_Some in H as ((mi & s9) & _ & H). apply bind_Some in H as (u3 & Hmi & H). apply bind_Some in H as (s10 & _ & H).
  apply bind_Some in H as ((sec & s11) & _ & H). apply bind_Some in H as (u4 & Hsec & H).
  destruct (getfraction s11) as [ns s12] eqn:Hns. apply bind_Some in H as ((off & s13) & Hoff & H).
  destruct s13; [|done]. apply bind_Some in H as (u5 & Hd & [= <-]).
  apply in_bounds_Some in Hm, Hh, Hmi, Hsec, Hd. apply getfraction_range in Hns. apply getzone_range in Hoff.
  exists y, m, d, h, mi, sec, ns, off. intuition done.
Qed.

(** A parsed time has a year of four digits on its own clock and an offset of
    whole minutes, up to 25 hours. *)
Lemma parse_range s t : parseTime s = Some t → year_ok t ∧ zone t mod 60 = 0 ∧ -90000 ≤ zone t ≤ 90000.
Proof.
  intros (y & m & d & h & mi & sec & ns & off & -> & Hy & Hm & Hd & Hh & Hmi & Hsec & Hns & Hoff & Hr)%parseTime_fields.
  split; [|done]. unfold year_ok.
  assert (wallDay (timeOf y m d h mi sec ns off) = daysOf y m d) as ->.
  { unfold wallDay, wallSeconds, timeOf. cbn [instant zone]. unfold Second.
    rewrite Z.div_add_l, (Z.div_small ns) by lia.
    replace ((daysOf y m d - daysToEpoch) * 86400 + h * 3600 + mi * 60 + sec - off + 0 + off)
      with ((daysOf y m d - daysToEpoch) * 86400 + (h * 3600 + mi * 60 + sec)) by lia.
    rewrite Z.div_add_l, (Z.div_small (h * 3600 + mi * 60 + sec)) by lia. lia. }
  assert (dateOf (daysOf y m d) = (y, m, d)) as E by (by apply dateOf_daysOf).
  pose proof (dateOf_spec (daysOf y m d)) as Hspec. rewrite E in Hspec. destruct Hspec as (_ & _ & _ & Hs).
  pose proof (daysBeforeYear_mono 0 y ltac:(lia)). pose proof (daysBeforeYear_mono (y + 1) 10000 ltac:(lia)).
  change (daysBeforeYear 0) with 0 in *. lia.
Qed.

(** ** The text is ASCII *)
Lemma digits_ascii s : all_digits s = true → is_ascii s = true.
Proof. apply string_forallb_impl. intros c H%is_digit_range. apply Z.ltb_lt. lia. Qed.

Lemma is_ascii_app s t : is_ascii (s +:+ t) = is_ascii s && is_ascii t.
Proof. apply string_forallb_app. Qed.

Lemma appendInt_ascii n w : in_uint64 (Z.abs n) → is_ascii (appendInt n w) = true.
Proof.
  intros Hn. unfold appendInt. rewrite is_ascii_app. apply andb_true_iff. split; [by destruct (n <? 0)|].
  apply digits_ascii. destruct (Z.leb_spec (10 ^ Z.of_nat w) (Z.abs n)); [by apply FormatUint_spec|apply fixed_spec; lia].
Qed.

Lemma appendNano_ascii n : 0 ≤ n < 1000000000 → is_ascii (appendNano n) = true.
Proof.
  intros Hn. unfold appendNano. destruct (n =? 0); [done|]. cbn [is_ascii string_forallb]. apply digits_ascii.
  rewrite appendInt_fixed by done. by apply trimZeros_spec, fixed_spec.
Qed.

Lemma format_ascii t : year_ok t → -90000 ≤ zone t ≤ 90000 → is_ascii (format_RFC3339Nano t) = true.
Proof.
  intros Hy Hz. unfold format_RFC3339Nano, year_ok in *. pose proof (dateOf_spec (wallDay t)) as Hdate.
  destruct (dateOf (wallDay t)) as [[y m] d]. destruct Hdate as (Hm & Hd & Hdays & Hyear).
  assert (-1 ≤ y < 10000).
  { split.
    - destruct (Z.le_gt_cases 0 y); [lia|]. pose proof (daysBeforeYear_mono (y + 1) 0). change (daysBeforeYear 0) with 0 in *. lia.
    - destruct (Z.le_gt_cases 10000 y); [|done]. pose proof (daysBeforeYear_mono 10000 y). lia. }
  pose proof (daysIn_range m y Hm). assert (0 ≤ clock t < 86400) as Hc by (apply Z.mod_pos_bound; done).
  assert (0 ≤ nanosecond t < 1000000000) as Hn by (apply Z.mod_pos_bound; done).
  assert (is_ascii (appendZone (zone t)) = true) as Hzone.
  { unfold appendZone. destruct (zone t =? 0); [done|]. cbv zeta. rewrite !is_ascii_app, !appendInt_ascii by int_lia.
    by destruct (Z.quot (zone t) 60 <? 0). }
  rewrite !is_ascii_app, !appendInt_ascii by int_lia. by rewrite Hzone, appendNano_ascii.
Qed.
