(* ===== verification/Metrics.v ===== *)
(** * Metric registration (internal/metrics)

    The regular expressions of package regexp that the name format uses, with
    their language and a derivative matcher; name and label validation; the
    constructors that register a metric, over a Prometheus client given by its
    documented operations; and the bounded tenant label. *)
From Stdlib Require Import SpecFloat.
From S2P Require Import Prelude GoStrings GoTime.

(** ** Regular expressions

    What a pattern anchored by [^] and [$] matches is a language over bytes: the
    classes used hold ASCII only, which no part of a multi-byte rune matches. *)
Module Regex.

Inductive regex :=
  | Void
  | Eps
  | Class (ranges : list (ascii * ascii))   (* [a-z0-9] *)
  | Seq (r1 r2 : regex)
  | Alt (r1 r2 : regex)
  | Star (r : regex).

Definition Plus (r : regex) : regex := Seq r (Star r).

Definition in_class (ranges : list (ascii * ascii)) (c : ascii) : bool :=
  existsb (λ '(lo, hi), (byte lo <=? byte c) && (byte c <=? byte hi)) ranges.

Inductive lang : regex → string → Prop :=
  | lang_Eps : lang Eps ""
  | lang_Class ranges c : in_class ranges c = true → lang (Class ranges) (String c "")
  | lang_Seq r1 r2 s1 s2 : lang r1 s1 → lang r2 s2 → lang (Seq r1 r2) (s1 +:+ s2)
  | lang_AltL r1 r2 s : lang r1 s → lang (Alt r1 r2) s
  | lang_AltR r1 r2 s : lang r2 s → lang (Alt r1 r2) s
  | lang_StarNil r : lang (Star r) ""
  | lang_StarApp r s1 s2 : lang r s1 → lang (Star r) s2 → lang (Star r) (s1 +:+ s2).

Fixpoint nullable (r : regex) : bool :=
  match r with
  | Void | Class _ => false
  | Eps | Star _ => true
  | Seq r1 r2 => nullable r1 && nullable r2
  | Alt r1 r2 => nullable r1 || nullable r2
  end.

(** What may follow a first byte [c]. *)
Fixpoint derive (c : ascii) (r : regex) : regex :=
  match r with
  | Void | Eps => Void
  | Class ranges => if in_class ranges c then Eps else Void
  | Seq r1 r2 =>
      if nullable r1 then Alt (Seq (derive c r1) r2) (derive c r2) else Seq (derive c r1) r2
  | Alt r1 r2 => Alt (derive c r1) (derive c r2)
  | Star r => Seq (derive c r) (Star r)
  end.

Fixpoint MatchString (r : regex) (s : string) : bool :=
  match s with "" => nullable r | String c s => MatchString (derive c r) s end.

#[local] Hint Constructors lang : regex.

Lemma nullable_lang r : nullable r = true ↔ lang r "".
Proof.
  split.
  - induction r; cbn; intros H; try done; auto with regex.
    + bool_props. rewrite <-(app_nil_r ""). auto with regex.
    + apply orb_true_iff in H as [?|?]; auto with regex.
  - remember "" as s eqn:Hs. induction 1; cbn; try done; try congruence.
    + destruct s1; [|done]. rewrite app_nil_l in Hs. by rewrite IHlang1, IHlang2.
    + by rewrite IHlang.
    + by rewrite IHlang, orb_true_r.
Qed.

Lemma lang_Star_cons r c s :
  lang (Star r) (String c s) → ∃ s1 s2, s = s1 +:+ s2 ∧ lang r (String c s1) ∧ lang (Star r) s2.
Proof.
  intros H. remember (Star r) as q eqn:Hq. remember (String c s) as t eqn:Ht. revert c s Ht.
  induction H as [| | | | | |q s1 s2 H1 _ H2 IH]; intros d t Ht; try done.
  injection Hq as ->. destruct s1 as [|e s1].
  - rewrite app_nil_l in Ht. by apply IH.
  - rewrite app_cons in Ht. injection Ht as -> <-. by exists s1, s2.
Qed.

Lemma derive_lang c r s : lang (derive c r) s ↔ lang r (String c s).
Proof.
  revert s. induction r as [| |ranges|r1 IH1 r2 IH2|r1 IH1 r2 IH2|r IH]; intros s; cbn.
  - split; inversion 1.
  - split; inversion 1.
  - destruct (in_class ranges c) eqn:E.
    + split; inversion 1; subst; auto with regex.
    + split; inversion 1; congruence.
  - assert (lang (Seq (derive c r1) r2) s → lang (Seq r1 r2) (String c s)) as Hl.
    { inversion 1; subst. rewrite <-app_cons. constructor; [by apply IH1|done]. }
    assert (∀ s1 s2, String c s = s1 +:+ s2 → lang r1 s1 → lang r2 s2 →
      (nullable r1 = true ∧ lang (derive c r2) s) ∨ lang (Seq (derive c r1) r2) s) as Hr.
    { intros [|d s1] s2; rewrite ?app_nil_l, ?app_cons.
      - intros <- ? ?. left. split; [by apply nullable_lang|by apply IH2].
      - intros [= -> ->] ? ?. right. constructor; [by apply IH1|done]. }
    destruct (nullable r1) eqn:E.
    + split.
      * inversion 1; subst; [auto|]. rewrite <-(app_nil_l (String c s)).
        constructor; [by apply nullable_lang|by apply IH2].
      * inversion 1; subst. destruct (Hr s1 s2) as [[_ ?]|?]; auto with regex.
    + split; [exact Hl|]. inversion 1; subst. destruct (Hr s1 s2) as [[? _]|?]; done.
  - split; inversion 1; subst; (apply lang_AltL + apply lang_AltR); by (apply IH1 + apply IH2).
  - split.
    + inversion 1; subst. rewrite <-app_cons. constructor; [by apply IH|done].
    + intros (s1 & s2 & -> & ? & ?)%lang_Star_cons. constructor; [by apply IH|done].
Qed.

Lemma MatchString_lang r s : MatchString r s = true ↔ lang r s.
Proof.
  revert r. induction s as [|c s IH]; intros r; cbn; [apply nullable_lang|].
  by rewrite IH, derive_lang.
Qed.

Lemma lang_Seq_iff r1 r2 s : lang (Seq r1 r2) s ↔ ∃ s1 s2, s = s1 +:+ s2 ∧ lang r1 s1 ∧ lang r2 s2.
Proof. split; [inversion 1; eauto|intros (? & ? & -> & ? & ?); auto with regex]. Qed.

Lemma lang_Class_iff ranges s : lang (Class ranges) s ↔ ∃ c, s = String c "" ∧ in_class ranges c = true.
Proof. split; [inversion 1; eauto|intros (? & -> & ?); auto with regex]. Qed.
End Regex.
Import Regex.

(** ** Names and labels *)
Definition lower_range : ascii * ascii := ("a", "z")%char.
Definition digit_range : ascii * ascii := ("0", "9")%char.
Definition alnum : regex := Class [lower_range; digit_range].

(** ^[a-z][a-z0-9]*(_[a-z0-9]+)*$ *)
Definition nameFormat : regex :=
  Seq (Class [lower_range])
    (Seq (Star alnum) (Star (Seq (Class [("_", "_")%char]) (Plus alnum)))).

Definition counterSuffix : string := "_total".

Definition gaugeHistogramSuffixes : list string :=
  ["_seconds"; "_bytes"; "_ratio"; "_messages"; "_percent"; "_state"; "_count"].

Definition deniedLabels : gset string :=
  {["transaction_id"; "txn_id"; "trace_id"; "span_id"; "request_id"; "session_id"; "correlation_id";
    "order_id"; "user_id"; "account_id"]}.

(** Histogram bounds, in microseconds. *)
Definition LatencyBucketsSeconds : list Z :=
  [25; 50; 100; 250; 500; 1000; 2500; 5000; 10000; 25000; 50000; 100000].

(** strings.HasSuffix *)
Definition HasSuffix (s suffix : string) : bool :=
  (String.length suffix <=? String.length s)%nat &&
  bool_decide (string_drop (String.length s - String.length suffix) s = suffix).

Fixpoint anySuffix (name : string) (allowedSuffixes : list string) : bool :=
  match allowedSuffixes with
  | [] => false
  | suffix :: rest => if HasSuffix name suffix then true else anySuffix name rest
  end.

Definition validateName (name : string) (allowedSuffixes : list string) : result unit :=
  if negb (MatchString nameFormat name)
  then Err (Wrapf "%w: %q must be lowercase snake_case" (Sentinel ErrInvalidMetricName))
  else if anySuffix name allowedSuffixes then Ok tt
  else Err (Wrapf "%w: %q must end with one of %v" (Sentinel ErrInvalidMetricName)).

(** strings.ToLower, as far as an ASCII result goes: the ASCII letters, and the two
    runes outside ASCII whose lower case is ASCII, U+0130 (i) and U+212A (k).
    Every other rune lowers to runes outside ASCII, and is kept here. *)
Definition lower_byte (c : ascii) : ascii :=
  if in_range 65 90 c then ascii_of_N (Z.to_N (byte c + 32)) else c.

Fixpoint ToLower (s : string) : string :=
  match s with
  | "" => ""
  | String c0 rest0 =>
      match rest0 with
      | String c1 rest1 =>
          if (byte c0 =? 196) && (byte c1 =? 176) then String "i" (ToLower rest1)
          else match rest1 with
               | String c2 rest2 =>
                   if (byte c0 =? 226) && (byte c1 =? 132) && (byte c2 =? 170) then String "k" (ToLower rest2)
                   else String (lower_byte c0) (ToLower rest0)
               | "" => String (lower_byte c0) (ToLower rest0)
               end
      | "" => String (lower_byte c0) ""
      end
  end.

Fixpoint validateLabels (labelNames : list string) : result unit :=
  match labelNames with
  | [] => Ok tt
  | label :: rest =>
      if bool_decide (ToLower label ∈ deniedLabels)
      then Err (Wrapf "%w: %q is a common unbounded identifier" (Sentinel ErrHighCardinalityLabel))
      else validateLabels rest
  end.

(** ** The name format, in words *)
Definition is_alnum : ascii → bool := in_class [lower_range; digit_range].
Definition word (s : string) : Prop := s ≠ "" ∧ string_forallb is_alnum s = true.

(** Words joined by single underscores, the first beginning with a letter. *)
Definition snake_case (s : string) : Prop :=
  ∃ c w ws, s = Join (String c w :: ws) "_" ∧ in_class [lower_range] c = true ∧
    string_forallb is_alnum w = true ∧ Forall word ws.

Lemma lang_Star_Class ranges s : lang (Star (Class ranges)) s ↔ string_forallb (in_class ranges) s = true.
Proof.
  split.
  - remember (Star (Class ranges)) as q eqn:Hq. induction 1 as [| | | | | |q s1 s2 H1 _ _ IH]; try done.
    injection Hq as ->. apply lang_Class_iff in H1 as (c & -> & Hc). rewrite app_cons, app_nil_l. cbn.
    by rewrite Hc, IH.
  - induction s as [|c s IH]; cbn; [constructor|]. intros [Hc Hs]%andb_true_iff.
    rewrite <-(app_nil_l s), <-app_cons. constructor; [by constructor|auto].
Qed.

Lemma lang_word s : lang (Plus alnum) s ↔ word s.
Proof.
  unfold Plus, alnum. rewrite lang_Seq_iff. split.
  - intros (s1 & s2 & -> & (c & -> & Hc)%lang_Class_iff & H2%lang_Star_Class).
    rewrite app_cons, app_nil_l. split; [done|]. cbn. by apply andb_true_iff.
  - intros [Hne Hs]. destruct s as [|c s]; [done|]. cbn in Hs. apply andb_true_iff in Hs as [Hc Hs].
    exists (String c ""), s. split; [done|]. split; [by constructor|by apply lang_Star_Class].
Qed.

(** What follows the first word. *)
Definition tail_words (ws : list string) : string := foldr (λ w t, String "_" (w +:+ t)) "" ws.

Lemma Join_tail w ws : Join (w :: ws) "_" = w +:+ tail_words ws.
Proof.
  revert w. induction ws as [|v ws IH]; intros w; [by rewrite app_nil_r|].
  change (Join (w :: v :: ws) "_") with (w +:+ String "_" (Join (v :: ws) "_")). by rewrite IH.
Qed.

Lemma lang_tail s :
  lang (Star (Seq (Class [("_", "_")%char]) (Plus alnum))) s ↔ ∃ ws, Forall word ws ∧ s = tail_words ws.
Proof.
  split.
  - remember (Star _) as q eqn:Hq. induction 1 as [| | | | |q|q s1 s2 H1 _ _ IH]; try done.
    { by exists []. }
    injection Hq as ->. destruct (IH eq_refl) as (ws & Hws & ->).
    apply lang_Seq_iff in H1 as (u & w & -> & (c & -> & Hc)%lang_Class_iff & Hw%lang_word).
    exists (w :: ws). split; [by constructor|]. rewrite app_cons, app_nil_l, app_cons.
    replace c with "_"%char; [done|]. apply byte_inj. cbn [in_class existsb] in Hc. rewrite orb_false_r in Hc.
    bool_props. lia.
  - intros (ws & Hws & ->). induction Hws as [|w ws Hw _ IH]; cbn; [constructor|].
    rewrite <-app_cons, <-(app_nil_l w), <-app_cons. constructor; [|done].
    constructor; [by constructor|by apply lang_word].
Qed.

Lemma nameFormat_snake_case s : MatchString nameFormat s = true ↔ snake_case s.
Proof.
  rewrite MatchString_lang. unfold nameFormat. rewrite lang_Seq_iff. split.
  - intros (s1 & s2 & -> & (c & -> & Hc)%lang_Class_iff & H2).
    apply lang_Seq_iff in H2 as (w & t & -> & Hw%lang_Star_Class & (ws & Hws & ->)%lang_tail).
    exists c, w, ws. by rewrite Join_tail, !app_cons, app_nil_l.
  - intros (c & w & ws & -> & Hc & Hw & Hws). exists (String c ""), (w +:+ tail_words ws).
    rewrite Join_tail, app_cons. split; [done|]. split; [by constructor|].
    constructor; [by apply lang_Star_Class|]. apply lang_tail. eauto.
Qed.

Lemma HasSuffix_spec s suffix : HasSuffix s suffix = true ↔ ∃ t, s = t +:+ suffix.
Proof.
  unfold HasSuffix. rewrite andb_true_iff, Nat.leb_le, bool_decide_eq_true. split.
  - intros [_ Hd]. exists (string_take (String.length s - String.length suffix) s).
    by rewrite <-Hd at 2; rewrite string_take_drop.
  - intros [t ->]. rewrite length_string_app. split; [lia|].
    replace (_ + _ - _)%nat with (String.length t) by lia.
    induction t as [|c t IH]; [done|]. by rewrite app_cons.
Qed.

Lemma anySuffix_spec name suffixes : anySuffix name suffixes = true ↔ ∃ t suffix, suffix ∈ suffixes ∧ name = t +:+ suffix.
Proof.
  induction suffixes as [|suffix rest IH]; cbn.
  - split; [done|]. intros (? & ? & ?%elem_of_nil & _). done.
  - destruct (HasSuffix name suffix) eqn:E.
    + apply HasSuffix_spec in E as [t ->]. split; [|done]. intros _. exists t, suffix. split; [left|done].
    + rewrite IH. split; intros (t & s & Hs & ->).
      * exists t, s. split; [by right|done].
      * apply elem_of_cons in Hs as [->|Hs]; [|by exists t, s].
        assert (HasSuffix (t +:+ suffix) suffix = true) by (apply HasSuffix_spec; eauto). congruence.
Qed.

Lemma validateName_spec name suffixes :
  (validateName name suffixes = Ok tt ∧ snake_case name ∧ ∃ t suffix, suffix ∈ suffixes ∧ name = t +:+ suffix) ∨
  (∃ e, validateName name suffixes = Err e ∧ errors_Is e ErrInvalidMetricName = true) ∧
  ¬ (snake_case name ∧ ∃ t suffix, suffix ∈ suffixes ∧ name = t +:+ suffix).
Proof.
  unfold validateName. rewrite <-nameFormat_snake_case, <-anySuffix_spec.
  destruct (MatchString nameFormat name), (anySuffix name suffixes); cbn; [left; done|right..];
    (split; [eexists; split; reflexivity|intuition congruence]).
Qed.

Lemma validateLabels_spec labels :
  (validateLabels labels = Ok tt ∧ Forall (λ l, ToLower l ∉ deniedLabels) labels) ∨
  (∃ e, validateLabels labels = Err e ∧ errors_Is e ErrHighCardinalityLabel = true) ∧
  Exists (λ l, ToLower l ∈ deniedLabels) labels.
Proof.
  induction labels as [|label labels IH]; cbn; [by left|]. case_bool_decide as Hd.
  - right. split; [eexists; split; reflexivity|by left].
  - destruct IH as [[? ?]|[? ?]]; [left|right]; (split; [done|]); by constructor.
Qed.

(** ** The Prometheus client library *)
Inductive MetricKind := CounterVec | GaugeVec | HistogramVec.

Record Opts := {
  Namespace : string;
  Subsystem : string;
  Name : string;
  Help : string;
  Buckets : list Z      (* microseconds; histograms only *)
}.

(** The options the program writes: a name, a help text, and a histogram's buckets. *)
Definition plainOpts (name help : string) (buckets : list Z) : Opts :=
  {| Namespace := ""; Subsystem := ""; Name := name; Help := help; Buckets := buckets |}.

(** prometheus.NewCounterVec, NewGaugeVec and NewHistogramVec. *)
Record Collector := { Kind : MetricKind; cOpts : Opts; LabelNames : list string }.

(** What a series holds: a counter's value or a histogram's number of observations,
    or a gauge's value. *)
Inductive sample := Count (n : Z) | Level (v : spec_float).

#[global] Instance spec_float_eq_dec : EqDecision spec_float.
Proof. solve_decision. Defined.
#[global] Instance sample_eq_dec : EqDecision sample.
Proof. solve_decision. Defined.

Definition fresh_sample (k : MetricKind) : sample :=
  match k with GaugeVec => Level (S754_zero false) | CounterVec | HistogramVec => Count 0 end.

(** A registry and the metrics registered on it.  WithLabelValues panics (None) on a
    wrong number of label values.  [registered] and [series] are the fully
    qualified names taken and the series by name and label values. *)
Class Prometheus (P : Type) := {
  BuildFQName : Opts → string;
  Register : Collector → P → result unit * P;
  WithLabelValues : Collector → list string → P → option P;
  gauge_Set : Collector → list string → spec_float → P → P;
  counter_Add : Collector → list string → Z → P → P;
  observer_Observe : Collector → list string → P → P;
  registered : P → gset string;
  series : P → gmap (string * list string) sample
}.

(** A descriptor the library accepts: a name of its grammar, distinct label names of
    its grammar, and for a histogram buckets in strictly increasing order. *)
Definition name_rune (c : ascii) : bool := in_class [("a", "z"); ("A", "Z"); ("0", "9"); ("_", "_"); (":", ":")]%char c.
Definition label_rune (c : ascii) : bool := in_class [("a", "z"); ("A", "Z"); ("0", "9"); ("_", "_")]%char c.
Definition grammatical (p : ascii → bool) (s : string) : bool :=
  match s with "" => false | String c _ => negb (is_digit c) && string_forallb p s end.

Definition well_formed (c : Collector) : bool :=
  grammatical name_rune (Name (cOpts c)) &&
  forallb (λ l, grammatical label_rune l && match CutPrefix l "__" with None => true | Some _ => false end)
    (LabelNames c) &&
  bool_decide (NoDup (LabelNames c)) &&
  match Kind c with
  | HistogramVec => bool_decide (StronglySorted Z.lt (Buckets (cOpts c))) && bool_decide ("le" ∉ LabelNames c)
  | _ => true
  end.

Class PrometheusLaws (P : Type) `{Pr : !Prometheus P} : Prop := {
  BuildFQName_plain o : Namespace o = "" → Subsystem o = "" → BuildFQName o = Name o;
  Register_fresh c p : well_formed c = true → BuildFQName (cOpts c) ∉ registered p →
    ∃ p', Register c p = (Ok tt, p') ∧ registered p' = {[BuildFQName (cOpts c)]} ∪ registered p ∧
      series p' = series p;
  Register_ok c p p' : Register c p = (Ok tt, p') →
    registered p' = {[BuildFQName (cOpts c)]} ∪ registered p ∧ series p' = series p;
  Register_taken c p : BuildFQName (cOpts c) ∈ registered p → ∃ e, Register c p = (Err e, p);
  Register_error c p e p' : Register c p = (Err e, p') → p' = p;
  WithLabelValues_ok c lvs p : length lvs = length (LabelNames c) →
    ∃ p', WithLabelValues c lvs p = Some p' ∧ registered p' = registered p ∧
      series p' = series p ∪ {[(BuildFQName (cOpts c), lvs) := fresh_sample (Kind c)]};
  Set_series c lvs v p : registered (gauge_Set c lvs v p) = registered p ∧
    series (gauge_Set c lvs v p) = <[(BuildFQName (cOpts c), lvs) := Level v]> (series p);
  Add_series c lvs n v p : 0 ≤ v → series p !! (BuildFQName (cOpts c), lvs) = Some (Count n) →
    registered (counter_Add c lvs v p) = registered p ∧
    series (counter_Add c lvs v p) = <[(BuildFQName (cOpts c), lvs) := Count (n + v)]> (series p);
  Observe_series c lvs n p : series p !! (BuildFQName (cOpts c), lvs) = Some (Count n) →
    registered (observer_Observe c lvs p) = registered p ∧
    series (observer_Observe c lvs p) = <[(BuildFQName (cOpts c), lvs) := Count (n + 1)]> (series p)
}.

(** ** The constructors *)
Section constructors.
Context {P : Type} `{Pr : !Prometheus P}.

(** The body the three constructors share, [msg] being the text of its wrapped
    registration error. *)
Definition newVec (kind : MetricKind) (suffixes : list string) (msg : string) (opts : Opts)
    (labelNames : list string) (p : P) : result Collector * P :=
  match validateName (Name opts) suffixes with
  | Err err => (Err err, p)
  | Ok _ =>
      match validateLabels labelNames with
      | Err err => (Err err, p)
      | Ok _ =>
          let vec := {| Kind := kind; cOpts := opts; LabelNames := labelNames |} in
          match Register vec p with
          | (Err err, p) => (Err (Wrapf msg err), p)
          | (Ok _, p) => (Ok vec, p)
          end
      end
  end.

Definition NewCounter : Opts → list string → P → result Collector * P :=
  newVec CounterVec [counterSuffix] "register counter %q: %w".
Definition NewGauge : Opts → list string → P → result Collector * P :=
  newVec GaugeVec gaugeHistogramSuffixes "register gauge %q: %w".
Definition NewHistogram : Opts → list string → P → result Collector * P :=
  newVec HistogramVec gaugeHistogramSuffixes "register histogram %q: %w".
End constructors.

(** ** Bounded tenant labels (internal/metrics/tenant.go) *)
Definition UnknownTenantLabel : string := "unregistered".

(** KnownTenants, a set; nil is the empty one. *)
Definition NewKnownTenants (tenantIDs : list string) : gset string :=
  foldl (λ known tenantID, {[tenantID]} ∪ known) ∅ tenantIDs.

Definition KnownTenants_TenantLabel (known : gset string) (tenantID : string) : string :=
  if bool_decide (tenantID ∈ known) then tenantID else UnknownTenantLabel.

Lemma elem_of_NewKnownTenants tenantIDs t : t ∈ NewKnownTenants tenantIDs ↔ t ∈ tenantIDs.
Proof.
  unfold NewKnownTenants. assert (∀ known : gset string, t ∈ foldl (λ known tenantID, {[tenantID]} ∪ known) known tenantIDs ↔
    t ∈ known ∨ t ∈ tenantIDs) as H.
  { induction tenantIDs as [|u l IH]; intros known; cbn; [set_solver|]. rewrite IH, elem_of_cons. set_solver. }
  rewrite H. set_solver.
Qed.

(** The label values a metric by tenant can have. *)
Definition tenant_labels (known : gset string) : gset string := {[UnknownTenantLabel]} ∪ known.

Lemma TenantLabel_bounded known t : KnownTenants_TenantLabel known t ∈ tenant_labels known.
Proof. unfold KnownTenants_TenantLabel, tenant_labels. case_bool_decide; set_solver. Qed.
#[export] Hint Resolve TenantLabel_bounded : go_str.

Section registration.
Context {P : Type} `{Pr : !Prometheus P} `{Pl : !PrometheusLaws P}.

(** The conventions the package enforces: what a name has to look like, for a
    counter or for a gauge or histogram, and what a label must not be. *)
Definition conventional (kind : MetricKind) (name : string) (labels : list string) : Prop :=
  (snake_case name ∧ ∃ t suffix, suffix ∈ match kind with CounterVec => [counterSuffix] | _ => gaugeHistogramSuffixes end ∧
    name = t +:+ suffix) ∧
  Forall (λ l, ToLower l ∉ deniedLabels) labels.

Lemma conventional_valid kind name labels :
  validateName name match kind with CounterVec => [counterSuffix] | _ => gaugeHistogramSuffixes end = Ok tt →
  validateLabels labels = Ok tt → conventional kind name labels.
Proof.
  intros Hn Hl. unfold conventional.
  destruct (validateName_spec name match kind with CounterVec => [counterSuffix] | _ => gaugeHistogramSuffixes end)
    as [(_ & Hs)|[(e & He & _) _]]; [|congruence].
  destruct (validateLabels_spec labels) as [[_ Hd]|[(e & He & _) _]]; [done|congruence].
Qed.

Definition constructor_of (kind : MetricKind) : Opts → list string → P → result Collector * P :=
  match kind with CounterVec => NewCounter | GaugeVec => NewGauge | HistogramVec => NewHistogram end.

(** A constructor hands out a registered metric exactly when the name and the
    labels follow the conventions and the registry takes it; on a refusal the
    error is the one the package documents and the registry is as it was. *)
Theorem constructor_enforces kind opts labels p :
  let vec := {| Kind := kind; cOpts := opts; LabelNames := labels |} in
  (∀ c p', constructor_of kind opts labels p = (Ok c, p') ↔
     c = vec ∧ conventional kind (Name opts) labels ∧ Register vec p = (Ok tt, p')) ∧
  (∀ e p', constructor_of kind opts labels p = (Err e, p') → p' = p ∧
     (conventional kind (Name opts) labels ∨ errors_Is e ErrInvalidMetricName = true ∨
      errors_Is e ErrHighCardinalityLabel = true)).
Proof.
  set (suffixes := match kind with CounterVec => [counterSuffix] | _ => gaugeHistogramSuffixes end).
  assert (∃ msg, constructor_of kind opts labels p = newVec kind suffixes msg opts labels p) as [msg ->]
    by (destruct kind; eexists; reflexivity).
  unfold newVec, conventional. fold suffixes. cbn zeta.
  destruct (validateName_spec (Name opts) suffixes) as [(-> & Hs & Ht)|[(e & -> & He) Hn]]; [|split; naive_solver].
  destruct (validateLabels_spec labels) as [(-> & Hl)|[(e & -> & He) Hd]].
  - destruct (Register _ p) as [[[]|e] p1] eqn:HR; (split; [naive_solver|]); intros e' p' [= <- <-].
    split; [by eapply Register_error|by left].
  - split; [|naive_solver]. intros c p'. split; [done|]. intros (_ & (_ & Hl) & _).
    apply Exists_exists in Hd as (l & Hin & Hd). rewrite Forall_forall in Hl. by destruct (Hl l Hin).
Qed.
End registration.

(** ** A registry in memory that keeps the laws *)
Record MemRegistry := { memNames : gset string; memSeries : gmap (string * list string) sample }.

Definition memFQName (o : Opts) : string :=
  Join (List.filter (λ s, negb (bool_decide (s = ""))) [Namespace o; Subsystem o] ++ [Name o]) "_".

Definition bump (v : Z) (s : option sample) : sample :=
  match s with Some (Count n) => Count (n + v) | Some (Level l) => Level l | None => Count v end.

Definition memSet (c : Collector) (lvs : list string) (v : sample) (p : MemRegistry) : MemRegistry :=
  {| memNames := memNames p; memSeries := <[(memFQName (cOpts c), lvs) := v]> (memSeries p) |}.

Definition memBump (c : Collector) (lvs : list string) (v : Z) (p : MemRegistry) : MemRegistry :=
  memSet c lvs (bump v (memSeries p !! (memFQName (cOpts c), lvs))) p.

#[export] Instance memPrometheus : Prometheus MemRegistry := {|
  BuildFQName := memFQName;
  Register c p :=
    if well_formed c && bool_decide (memFQName (cOpts c) ∉ memNames p)
    then (Ok tt, {| memNames := {[memFQName (cOpts c)]} ∪ memNames p; memSeries := memSeries p |})
    else (Err (Errorf "duplicate metrics collector registration attempted"), p);
  WithLabelValues c lvs p :=
    if Nat.eqb (length lvs) (length (LabelNames c))
    then Some {| memNames := memNames p;
                 memSeries := memSeries p ∪ {[(memFQName (cOpts c), lvs) := fresh_sample (Kind c)]} |}
    else None;
  gauge_Set c lvs v := memSet c lvs (Level v);
  counter_Add := memBump;
  observer_Observe c lvs := memBump c lvs 1;
  registered := memNames;
  series := memSeries
|}.

#[export] Instance memLaws : PrometheusLaws MemRegistry.
Proof.
  split; cbn.
  - intros o Hn Hs. unfold memFQName. by rewrite Hn, Hs.
  - intros c p Hw Hn. rewrite Hw, bool_decide_true by done. by eexists.
  - intros c p p'. case_match; [|done]. by intros [= <-].
  - intros c p Hin. rewrite bool_decide_false by (by intros []). rewrite andb_false_r. by eexists.
  - intros c p e p'. case_match; [done|]. by intros [= _ <-].
  - intros c lvs p ->. rewrite Nat.eqb_refl. by eexists.
  - done.
  - intros c lvs n v p _ E. unfold memBump. by rewrite E.
  - intros c lvs n p E. unfold memBump. by rewrite E.
Qed.

Definition emptyRegistry : MemRegistry := {| memNames := ∅; memSeries := ∅ |}.

(** A denied label is denied in any case of its letters; a spelling variant is not. *)
Example labels_by_case : (constructor_of GaugeVec (plainOpts "queue_depth_messages" "" []) ["Trace_ID"] emptyRegistry).1 =
    Err (Wrapf "%w: %q is a common unbounded identifier" (Sentinel ErrHighCardinalityLabel)) ∧
  is_Ok (constructor_of GaugeVec (plainOpts "queue_depth_messages" "" []) ["txnid"] emptyRegistry).1.
Proof. split; [reflexivity|eexists; vm_compute; reflexivity]. Qed.

Lemma constructor_enforces_witness :
  conventional CounterVec "orders_total" ["outcome"].
Proof.
  refine (proj1 (proj2 (proj1 (proj1 (constructor_enforces (P := MemRegistry) CounterVec (plainOpts "orders_total" "" []) ["outcome"]
    emptyRegistry) _ _) _))).
  vm_compute. reflexivity.
Defined.
