(* ===== verification/Amount.v ===== *)
(** * Fixed-point amounts (internal/ledger/amount.go)

    Parsing, printing, multiplying and dividing the int64 amounts scaled by
    10^8.  The theorems characterise the accepted literals exactly, relate
    printing to parsing, and bound the error of the truncating operations. *)
From S2P Require Import Prelude GoStrings.

Definition AmountScale : Z := 100000000.
Definition amountFractionDigits : Z := 8.
Definition MaxAmount : Z := 10000000000 * AmountScale.

(** isDigits: a [range] loop over the runes of [s]. *)
Definition isDigits (s : string) : bool :=
  forallb (λ char, negb ((char <? 48) || (57 <? char))) (runes s).

(** mulPow10: the loop runs [power] times; each turn checks before it
    multiplies. *)
Fixpoint mulPow10_loop (turns : nat) (res : Z) : result Z :=
  match turns with
  | O => Ok res
  | S turns =>
      if MaxUint64 / 10 <? res then Err (Errorf "magnitude too large")
      else mulPow10_loop turns (uint64 (res * 10))
  end.

Definition mulPow10 (base power : Z) : result Z :=
  if base =? 0 then Ok 0
  else if (power <? 0) || (19 <? power) then Err (Errorf "magnitude too large")
  else mulPow10_loop (Z.to_nat power) base.

(** The exponent suffix of ParseAmount: mantissa and exponent of [rest]. *)
Definition splitExponent (rest : string) : result (string * Z) :=
  match cut_byte (λ c, bool_decide (c = "e"%char) || bool_decide (c = "E"%char)) rest with
  | None => Ok (rest, 0)
  | Some (mantissa, suffix) =>
      parsedExponent ← wrap_err "amount %q has an invalid exponent: %w" (Atoi suffix);
      if (parsedExponent <? -1000) || (1000 <? parsedExponent)
      then Err (Errorf "amount %q has an exponent out of range")
      else Ok (mantissa, parsedExponent)
  end.

(** The scaling step of ParseAmount: [magnitude] times 10^[power], exactly. *)
Definition scaleMagnitude (magnitude power : Z) : result Z :=
  if 0 <=? power then wrap_err "amount %q is out of range: %w" (mulPow10 magnitude power)
  else
    divisor ← wrap_err "amount %q is out of range: %w" (mulPow10 1 (- power));
    if negb (magnitude mod divisor =? 0)
    then Err (Errorf "amount %q has more than %d fractional digits")
    else Ok (magnitude / divisor).

(** ParseAmount after the sign: split, check the digits, scale, bound. *)
Definition parseUnsigned (rest : string) : result Z :=
  '(mantissa, exponent) ← splitExponent rest;
  let '(wholePart, fracPart, _) := Cut mantissa "." in
  if bool_decide (wholePart = "") || negb (isDigits wholePart) || negb (isDigits fracPart)
  then Err (Errorf "amount %q is not a valid decimal number")
  else
    magnitude ← wrap_err "amount %q is not a valid decimal number: %w"
                  (ParseUint (wholePart +:+ fracPart) MaxUint64);
    let power := exponent - Z.of_nat (String.length fracPart) + amountFractionDigits in
    scaled ← scaleMagnitude magnitude power;
    if MaxInt64 <? scaled then Err (Errorf "amount %q is out of range") else Ok scaled.

Definition ParseAmount (value : string) : result Z :=
  match value with
  | "" => Err (Errorf "amount must not be empty")
  | String c tail =>
      let negative := bool_decide (c = "-"%char) in
      let rest := if negative || bool_decide (c = "+"%char) then tail else value in
      if bool_decide (rest = "") then Err (Errorf "amount %q is not a valid decimal number")
      else
        scaled ← parseUnsigned rest;
        let res := int64 scaled in
        Ok (if negative then int64 (- res) else res)
  end.

Definition FormatAmount (value : Z) : string :=
  let negative := value <? 0 in
  let magnitude :=
    if negative then uint64 (uint64 (int64 (- int64 (value + 1))) + 1) else uint64 value in
  let digits := FormatUint magnitude in
  let digits :=
    if Z.of_nat (String.length digits) <=? amountFractionDigits
    then string_repeat "0" (Z.to_nat (amountFractionDigits - Z.of_nat (String.length digits) + 1))
         +:+ digits
    else digits in
  let split := Z.to_nat (Z.of_nat (String.length digits) - amountFractionDigits) in
  (if negative then "-" else "") +:+ string_take split digits +:+ "." +:+ string_drop split digits.

Definition MulAmount (multiplicand multiplier : Z) : result Z :=
  let product := Z.quot (multiplicand * multiplier) AmountScale in
  if negb (is_int64b product)
  then Err (Errorf "multiply amount: %d * %d overflows int64 once rescaled")
  else Ok product.

Definition DivAmount (dividend divisor : Z) : result Z :=
  if divisor =? 0 then Err (Errorf "divide amount: %d / %d: division by zero")
  else
    let quotient := Z.quot (dividend * AmountScale) divisor in
    if negb (is_int64b quotient)
    then Err (Errorf "divide amount: %d / %d overflows int64 once rescaled")
    else Ok quotient.

(** ** The literals ParseAmount accepts *)

Definition sign_literal (sg : string) (neg : bool) : Prop :=
  (sg = "-" ∧ neg = true) ∨ ((sg = "+" ∨ sg = "") ∧ neg = false).

Definition mantissa_literal (m whole frac : string) : Prop :=
  (m = whole ∧ frac = "" ∨ m = whole +:+ "." +:+ frac) ∧
  whole ≠ "" ∧ all_digits whole = true ∧ all_digits frac = true.

Definition exponent_literal (x : string) (e : Z) : Prop :=
  (x = "" ∧ e = 0) ∨
  ∃ c suffix, x = String c suffix ∧ (c = "e"%char ∨ c = "E"%char) ∧
    Atoi suffix = Ok e ∧ -1000 ≤ e ≤ 1000.

(** [s] is sign, digits, optional fraction, optional exponent. *)
Definition amount_literal (s : string) (neg : bool) (whole frac : string) (e : Z) : Prop :=
  ∃ sg m x, s = sg +:+ m +:+ x ∧ sign_literal sg neg ∧
    mantissa_literal m whole frac ∧ exponent_literal x e.

(** [v] is exactly ±[n] scaled by 10^[p]: nothing is rounded. *)
Definition scaled_by (neg : bool) (n p v : Z) : Prop :=
  v * 10 ^ Z.max 0 (- p) = (if neg then - n else n) * 10 ^ Z.max 0 p.

(** ** Lemmas *)

Lemma isDigits_all_digits s : isDigits s = all_digits s.
Proof.
  unfold isDigits, all_digits. rewrite range_loop_ascii.
  - rewrite bytes_forallb. induction s as [|c s IH]; cbn; [done|]. rewrite IH. f_equal.
    unfold is_digit, digit_rune. destruct (Z.leb_spec 48 (byte c)), (Z.leb_spec (byte c) 57),
      (Z.ltb_spec (byte c) 48), (Z.ltb_spec 57 (byte c)); try lia; done.
  - intros z Hz. bool_props. lia.
Qed.

Lemma pow10_le_19 p : 0 ≤ p ≤ 19 → 10 ^ p ≤ 10000000000000000000.
Proof.
  intros. change 10000000000000000000 with (10 ^ 19). apply Z.pow_le_mono_r; lia.
Qed.

Lemma mulPow10_loop_Ok turns r v :
  0 < r ≤ MaxUint64 →
  mulPow10_loop turns r = Ok v ↔ v = r * 10 ^ Z.of_nat turns ∧ v ≤ MaxUint64.
Proof.
  revert r. induction turns as [|turns IH]; intros r Hr; cbn [mulPow10_loop].
  { change (10 ^ Z.of_nat 0) with 1. rewrite Z.mul_1_r. split; [intros [= <-]; lia|].
    by intros [-> _]. }
  rewrite Nat2Z.inj_succ, Z.pow_succ_r by lia.
  assert (1 ≤ 10 ^ Z.of_nat turns) by (pose proof (Z.pow_pos_nonneg 10 (Z.of_nat turns)); lia).
  change (MaxUint64 / 10) with 1844674407370955161.
  destruct (Z.ltb_spec 1844674407370955161 r) as [Hbig|Hok].
  - split; [done|]. intros [-> Hle]. exfalso. unfold_ints. nia.
  - rewrite uint64_id by (unfold_ints; lia). rewrite IH by (unfold_ints; lia).
    rewrite Z.mul_assoc. done.
Qed.

(** The power-of-ten helper is exact and refuses exactly the overflows. *)
Lemma mulPow10_Ok base power v :
  in_uint64 base →
  mulPow10 base power = Ok v ↔
    (base = 0 ∧ v = 0) ∨
    (0 < base ∧ 0 ≤ power ∧ v = base * 10 ^ power ∧ v ≤ MaxUint64).
Proof.
  intros Hb. unfold mulPow10.
  destruct (Z.eqb_spec base 0) as [->|Hne]; [split; [intros [= <-]; auto|naive_solver lia]|].
  destruct ((power <? 0) || (19 <? power)) eqn:Hp; bool_props.
  - split; [done|]. intros [[??]|(_ & Hp0 & -> & Hle)]; [lia|]. exfalso.
    apply orb_true_iff in Hp as [Hp|Hp]; bool_props; [lia|].
    assert (10 ^ 20 ≤ 10 ^ power) by (apply Z.pow_le_mono_r; lia).
    change (10 ^ 20) with 100000000000000000000 in *. unfold_ints. nia.
  - rewrite mulPow10_loop_Ok by (unfold_ints; lia). rewrite Z2Nat.id by lia.
    unfold_ints. naive_solver lia.
Qed.

Lemma mulPow10_one power v : mulPow10 1 power = Ok v ↔ 0 ≤ power ≤ 19 ∧ v = 10 ^ power.
Proof.
  rewrite mulPow10_Ok by (unfold_ints; lia). rewrite Z.mul_1_l. split.
  - intros [[??]|(_ & Hp & -> & Hle)]; [lia|]. split; [|done]. split; [done|].
    destruct (Z.le_gt_cases power 19); [done|].
    assert (10 ^ 20 ≤ 10 ^ power) by (apply Z.pow_le_mono_r; lia).
    change (10 ^ 20) with 100000000000000000000 in *. unfold_ints. lia.
  - intros [Hp ->]. right. split_and!; try lia. pose proof (pow10_le_19 power Hp). unfold_ints. lia.
Qed.

(** Scaling succeeds exactly when the scaled magnitude is a uint64 integer. *)
Lemma scaleMagnitude_Ok n p v :
  in_uint64 n →
  scaleMagnitude n p = Ok v ↔
    -19 ≤ p ∧ v * 10 ^ Z.max 0 (- p) = n * 10 ^ Z.max 0 p ∧ 0 ≤ v ≤ MaxUint64.
Proof.
  intros Hn. unfold scaleMagnitude. destruct (Z.leb_spec 0 p) as [Hp|Hp].
  - rewrite wrap_err_Ok, mulPow10_Ok by done.
    rewrite Z.max_l, Z.max_r by lia. change (10 ^ 0) with 1. rewrite Z.mul_1_r.
    assert (0 < 10 ^ p) by (apply Z.pow_pos_nonneg; lia). unfold_ints. split.
    + intros [[-> ->]|(? & ? & -> & ?)]; split_and!; nia.
    + intros (_ & -> & ?). destruct (Z.eq_dec n 0); [left; nia|right; split_and!; lia].
  - rewrite result_bind_Ok. rewrite Z.max_r, Z.max_l by lia. change (10 ^ 0) with 1. rewrite Z.mul_1_r.
    assert (0 < 10 ^ (- p)) as Hpos by (apply Z.pow_pos_nonneg; lia). split.
    + intros (d & [Hd ->]%wrap_err_Ok%mulPow10_one & Hv). case_all.
      unfold_ints. split_and!; [lia| |Z.to_euclidean_division_equations; nia..].
      Z.to_euclidean_division_equations. nia.
    + intros (Hp19 & Heq & Hv). exists (10 ^ (- p)).
      rewrite wrap_err_Ok, mulPow10_one. split; [split; [lia|done]|].
      rewrite <- Heq, Z.mod_mul, Z.div_mul by lia. done.
Qed.

(** ParseAmount's value: what the scaled magnitude becomes as an int64. *)
Lemma signed_value (neg : bool) v : 0 ≤ v ≤ MaxInt64 →
  (if neg then int64 (- int64 v) else int64 v) = if neg then - v else v.
Proof. intros. rewrite (int64_id v) by (unfold_ints; lia). destruct neg; [|done].
  apply int64_id. unfold_ints; lia. Qed.

Definition exp_mark (c : ascii) : bool :=
  bool_decide (c = "e"%char) || bool_decide (c = "E"%char).

Lemma digit_not_special c :
  is_digit c = true →
  exp_mark c = false ∧ bool_decide (c = "."%char) = false ∧
  bool_decide (c = "-"%char) = false ∧ bool_decide (c = "+"%char) = false.
Proof.
  intros Hc%is_digit_range. unfold exp_mark.
  repeat split; repeat case_bool_decide; subst; try done; exfalso; revert Hc; vm_compute; intuition congruence.
Qed.

Lemma digits_no_mark s : all_digits s = true →
  string_forallb (λ c, negb (exp_mark c)) s = true ∧
  string_forallb (λ c, negb (bool_decide (c = "."%char))) s = true.
Proof.
  intros Hs. split; (eapply string_forallb_impl; [|exact Hs]); intros c Hc;
    destruct (digit_not_special c Hc) as (H1 & H2 & _); by rewrite ?H1, ?H2.
Qed.

Lemma mantissa_no_mark m whole frac : mantissa_literal m whole frac →
  string_forallb (λ c, negb (exp_mark c)) m = true.
Proof.
  intros ([[-> ->]| ->] & _ & Hw & Hf); [by apply digits_no_mark|].
  destruct (digits_no_mark whole Hw) as [Hw' _]. destruct (digits_no_mark frac Hf) as [Hf' _].
  rewrite !string_forallb_app, Hw', Hf'. done.
Qed.

Lemma splitExponent_Ok rest m e :
  string_forallb (λ c, negb (exp_mark c)) m = true →
  splitExponent rest = Ok (m, e) ↔ ∃ x, rest = m +:+ x ∧ exponent_literal x e.
Proof.
  intros Hm. unfold splitExponent. fold exp_mark.
  change (λ c, bool_decide (c = "e"%char) || bool_decide (c = "E"%char)) with exp_mark.
  split.
  - destruct (cut_byte exp_mark rest) as [[pre post]|] eqn:Hcut.
    + rewrite result_bind_Ok. intros (pe & Hpe%wrap_err_Ok & Heq). case_all.
      apply cut_byte_Some in Hcut as (c & -> & Hc & _). exists (String c post). split; [done|].
      right. exists c, post. split_and!; try done; try lia.
      unfold exp_mark in Hc. apply orb_true_iff in Hc as [?|?]; bool_props; auto.
    + intros [= <- <-]. exists "". rewrite app_nil_r. split; [done|]. by left.
  - intros (x & -> & [[-> ->]|(c & suffix & -> & Hc & Hat & He)]).
    + rewrite app_nil_r, cut_byte_None by done. done.
    + rewrite cut_byte_app by (done || (destruct Hc; subst; done)). rewrite Hat. cbn.
      destruct (Z.ltb_spec e (-1000)); [lia|]. destruct (Z.ltb_spec 1000 e); [lia|]. done.
Qed.

Lemma Cut_mantissa m w f b :
  Cut m "." = (w, f, b) → w ≠ "" → all_digits w = true → all_digits f = true →
  mantissa_literal m w f.
Proof.
  unfold Cut. intros Hcut Hw Hdw Hdf. split_and!; try done.
  destruct (cut_byte _ m) as [[pre post]|] eqn:Hc; simplify_eq; [|by left].
  apply cut_byte_Some in Hc as (c & -> & Hc & _). apply bool_decide_eq_true in Hc as ->. by right.
Qed.

Lemma mantissa_Cut m w f :
  mantissa_literal m w f → ∃ b, Cut m "." = (w, f, b).
Proof.
  intros ([[-> ->]| ->] & _ & Hw & Hf); unfold Cut; destruct (digits_no_mark w Hw) as [_ Hdot].
  - rewrite cut_byte_None by done. eauto.
  - rewrite app_cons, app_nil_l, cut_byte_app by done. eauto.
Qed.

(** The net power of ten applied to the digits. *)
Definition net_power (frac : string) (e : Z) : Z :=
  e - Z.of_nat (String.length frac) + amountFractionDigits.

Lemma parseUnsigned_Ok rest v :
  parseUnsigned rest = Ok v ↔
  ∃ m x w f e, rest = m +:+ x ∧ mantissa_literal m w f ∧ exponent_literal x e ∧
    horner 0 (w +:+ f) ≤ MaxUint64 ∧ -19 ≤ net_power f e ∧
    scaled_by false (horner 0 (w +:+ f)) (net_power f e) v ∧ 0 ≤ v ≤ MaxInt64.
Proof.
  unfold parseUnsigned, scaled_by. rewrite result_bind_Ok. split.
  - intros ([m e] & Hsplit & H). destruct (Cut m ".") as [[w f] b] eqn:Hcut.
    rewrite !isDigits_all_digits in H. case_match eqn:Hc; [done|]. bool_props.
    apply result_bind_Ok in H as (n & Hn%wrap_err_Ok & H).
    apply ParseUint_Ok in Hn as (_ & Hall & Hn & Hle); [|unfold_ints; lia].
    assert (in_uint64 n) by (subst n; pose proof (horner_bounds _ Hall); unfold_ints; lia).
    apply result_bind_Ok in H as (sc & Hsc & H).
    apply scaleMagnitude_Ok in Hsc as (? & ? & ?); [|done]. case_all.
    assert (mantissa_literal m w f) as Hm by eauto using Cut_mantissa.
    apply splitExponent_Ok in Hsplit as (x & -> & Hx); [|by eapply mantissa_no_mark].
    exists m, x, w, f, e. unfold net_power. split_and!; try done; lia.
  - intros (m & x & w & f & e & -> & Hm & Hx & Hn & Hp & Hs & Hv). exists (m, e). split.
    { apply splitExponent_Ok; [by eapply mantissa_no_mark|]. eauto. }
    destruct (mantissa_Cut m w f Hm) as [b ->]. destruct Hm as (_ & Hne & Hw & Hf).
    rewrite !isDigits_all_digits, Hw, Hf, bool_decide_eq_false_2 by done. cbn [orb negb].
    assert (all_digits (w +:+ f) = true) as Hall.
    { unfold all_digits in *. by rewrite string_forallb_app, Hw, Hf. }
    apply result_bind_Ok. exists (horner 0 (w +:+ f)). split.
    { apply wrap_err_Ok, ParseUint_Ok; [unfold_ints; lia|]. split_and!; try done.
      destruct w; [done|]. by rewrite app_cons. }
    pose proof (horner_bounds _ Hall). apply result_bind_Ok. exists v. split.
    { apply scaleMagnitude_Ok; [unfold_ints; lia|]. unfold net_power in *. unfold_ints. split_and!; try done; lia. }
    destruct (Z.ltb_spec MaxInt64 v); [lia|done].
Qed.

Lemma parseUnsigned_range rest v : parseUnsigned rest = Ok v → 0 ≤ v ≤ MaxInt64.
Proof. intros (?&?&?&?&?&_&_&_&_&_&_&?)%parseUnsigned_Ok. done. Qed.

Lemma parseUnsigned_first c s v :
  parseUnsigned (String c s) = Ok v → is_digit c = true.
Proof.
  intros (m & x & w & f & e & Heq & Hm & _)%parseUnsigned_Ok.
  destruct Hm as (Hm & Hne & Hw & _). destruct w as [|d w]; [done|].
  apply andb_true_iff in Hw as [Hd _].
  destruct Hm as [[-> _]| ->]; rewrite !app_cons in Heq; by simplify_eq.
Qed.

(** The sign is consumed first; the rest is read by [parseUnsigned]. *)
Lemma ParseAmount_sign value v :
  ParseAmount value = Ok v ↔
  ∃ sg neg rest u, value = sg +:+ rest ∧ sign_literal sg neg ∧
    parseUnsigned rest = Ok u ∧ v = if neg then - u else u.
Proof.
  unfold sign_literal. split.
  - destruct value as [|c tail]; [done|]. unfold ParseAmount.
    rewrite (bool_decide_decide (_ = "")). case_decide as Hrest; [done|].
    rewrite result_bind_Ok. intros (u & Hu & [= <-]).
    rewrite signed_value by (by eapply parseUnsigned_range).
    destruct (bool_decide_reflect (c = "-"%char)) as [->|];
      [|destruct (bool_decide_reflect (c = "+"%char)) as [->|]]; cbn in *.
    + exists "-", true, tail, u. auto 6.
    + exists "+", false, tail, u. auto 6.
    + exists "", false, (String c tail), u. auto 6.
  - intros (sg & neg & rest & u & -> & Hsg & Hu & ->).
    assert (0 ≤ u ≤ MaxInt64) as Hr by (by eapply parseUnsigned_range).
    rewrite <- (signed_value neg u Hr). clear Hr.
    assert (rest ≠ "") by (intros ->; done).
    destruct Hsg as [[-> ->]|[[-> | ->] ->]];
      rewrite ?app_cons, ?app_nil_l.
    1,2: unfold ParseAmount;
      match goal with |- context [bool_decide (?c = ?c)] =>
        rewrite (bool_decide_eq_true_2 (c = c)) by done end;
      rewrite ?(bool_decide_eq_false_2 ("+"%char = "-"%char)) by done; cbn [orb];
      by rewrite (bool_decide_eq_false_2 (rest = "")), Hu by done.
    destruct rest as [|c rest]; [done|].
    destruct (digit_not_special c) as (_ & _ & Hm & Hp); [by eapply parseUnsigned_first|].
    unfold ParseAmount. rewrite Hm, Hp. cbn [orb].
    by rewrite bool_decide_eq_false_2, Hu by done.
Qed.

Lemma scaled_by_sign (neg : bool) n p u v :
  scaled_by false n p u → v = (if neg then - u else u) → scaled_by neg n p v.
Proof. unfold scaled_by. intros Hu ->. destruct neg; lia. Qed.

Lemma scaled_by_abs (neg : bool) n p v :
  0 ≤ n → scaled_by neg n p v →
  scaled_by false n p (Z.abs v) ∧ v = if neg then - Z.abs v else Z.abs v.
Proof.
  unfold scaled_by. intros Hn Hv.
  assert (0 < 10 ^ Z.max 0 (- p)) by (apply Z.pow_pos_nonneg; lia).
  assert (0 < 10 ^ Z.max 0 p) by (apply Z.pow_pos_nonneg; lia).
  destruct neg; [assert (v ≤ 0) by nia|assert (0 ≤ v) by nia];
    rewrite ?(Z.abs_neq v), ?(Z.abs_eq v) by lia; lia.
Qed.

Lemma ParseAmount_literals value v :
  ParseAmount value = Ok v ↔
  ∃ neg whole frac e, amount_literal value neg whole frac e ∧
    horner 0 (whole +:+ frac) ≤ MaxUint64 ∧
    -19 ≤ net_power frac e ∧
    scaled_by neg (horner 0 (whole +:+ frac)) (net_power frac e) v ∧
    Z.abs v ≤ MaxInt64.
Proof.
  rewrite ParseAmount_sign. unfold amount_literal. split.
  - intros (sg & neg & rest & u & -> & Hsg & Hu & Hv).
    apply parseUnsigned_Ok in Hu as (m & x & w & f & e & -> & Hm & Hx & Hn & Hp & Hs & Hr).
    exists neg, w, f, e. split_and!;
      [by exists sg, m, x|done|done|by eapply scaled_by_sign|destruct neg; lia].
  - intros (neg & w & f & e & (sg & m & x & -> & Hsg & Hm & Hx) & Hn & Hp & Hs & Hr).
    assert (0 ≤ horner 0 (w +:+ f)).
    { apply horner_bounds. destruct Hm as (_ & _ & Hw & Hf). unfold all_digits in *.
      by rewrite string_forallb_app, Hw, Hf. }
    apply scaled_by_abs in Hs as [Hs Hv]; [|done].
    exists sg, neg, (m +:+ x), (Z.abs v). split_and!; try done.
    apply parseUnsigned_Ok. exists m, x, w, f, e. split_and!; try done. lia.
Qed.

(** C28. ParseAmount accepts exactly the decimal literals
    [sign digits \[. digits\] \[e exponent\]] whose digits fit a uint64, whose
    exponent lies in [-1000, 1000], whose net power of ten is at least -19 and
    whose value scaled by 10^8 is an integer of magnitude at most MaxInt64; the
    result is that integer, never a rounded or wrapped one. *)
Theorem ParseAmount_exact value v :
  ParseAmount value = Ok v ↔
  ∃ neg whole frac e, amount_literal value neg whole frac e ∧
    horner 0 (whole +:+ frac) ≤ MaxUint64 ∧
    -19 ≤ net_power frac e ∧
    scaled_by neg (horner 0 (whole +:+ frac)) (net_power frac e) v ∧
    Z.abs v ≤ MaxInt64.
Proof. apply ParseAmount_literals. Qed.

(** ** Printing *)

Lemma FormatAmount_magnitude v :
  in_int64 v →
  (if v <? 0 then uint64 (uint64 (int64 (- int64 (v + 1))) + 1) else uint64 v) = Z.abs v.
Proof. intros. destruct (Z.ltb_spec v 0); int_lia. Qed.

(** The padded digits: more than eight, all decimal, same value. *)
Definition padded (digits : string) : string :=
  if Z.of_nat (String.length digits) <=? amountFractionDigits
  then string_repeat "0" (Z.to_nat (amountFractionDigits - Z.of_nat (String.length digits) + 1))
       +:+ digits
  else digits.

Lemma horner_zeros n : horner 0 (string_repeat "0" n) = 0.
Proof. induction n; cbn; done. Qed.

Lemma padded_spec digits :
  all_digits digits = true →
  all_digits (padded digits) = true ∧ horner 0 (padded digits) = horner 0 digits ∧
  (8 < String.length (padded digits))%nat.
Proof.
  intros Hd. unfold padded, amountFractionDigits, all_digits in *.
  destruct (Z.leb_spec (Z.of_nat (String.length digits)) 8); [|split_and!; [done|done|lia]].
  split_and!.
  - by rewrite string_forallb_app, Hd, string_forallb_repeat.
  - by rewrite horner_app, horner_zeros.
  - rewrite length_string_app, length_string_repeat. lia.
Qed.

Lemma format_parse_roundtrip v :
  in_int64 v → v ≠ MinInt64 → ParseAmount (FormatAmount v) = Ok v.
Proof.
  intros Hv Hmin. apply ParseAmount_literals. unfold FormatAmount.
  rewrite FormatAmount_magnitude by done. fold (padded (FormatUint (Z.abs v))).
  destruct (FormatUint_spec (Z.abs v)) as (Hd & Hval & _); [unfold_ints; lia|].
  destruct (padded_spec _ Hd) as (Hp & Hh & Hlen). revert Hp Hh Hlen. rewrite Hval.
  generalize (padded (FormatUint (Z.abs v))) as ds. intros ds Hp Hh Hlen.
  set (k := Z.to_nat (Z.of_nat (String.length ds) - amountFractionDigits)).
  assert (Z.of_nat k = Z.of_nat (String.length ds) - 8) as Hk by (unfold k, amountFractionDigits; lia).
  assert (all_digits (string_take k ds) = true ∧ all_digits (string_drop k ds) = true) as [Ht Hdr].
  { apply andb_true_iff. unfold all_digits in *. by rewrite <- string_forallb_app, string_take_drop. }
  exists (v <? 0), (string_take k ds), (string_drop k ds), 0.
  unfold net_power, scaled_by. rewrite string_take_drop, Hh, length_string_drop.
  replace (0 - Z.of_nat (String.length ds - k) + amountFractionDigits) with 0
    by (unfold amountFractionDigits; lia).
  change (Z.max 0 (- 0)) with 0. change (Z.max 0 0) with 0. rewrite Z.pow_0_r.
  split_and!; [|unfold_ints; lia|lia|destruct (Z.ltb_spec v 0); lia|unfold_ints; lia].
  eexists _, (string_take k ds +:+ "." +:+ string_drop k ds), "". split_and!.
  - by rewrite !app_nil_r.
  - destruct (v <? 0); [by left|right; auto].
  - split_and!; [by right| |done|done].
    intros Hempty. apply (f_equal String.length) in Hempty.
    rewrite length_string_take in Hempty by lia. cbn in Hempty. lia.
  - by left.
Qed.

(** C29. Every int64 except MinInt64 survives a print/parse round trip, so the
    amount a publisher writes on the wire is the amount the consumer reads. *)
Theorem ParseAmount_FormatAmount v :
  in_int64 v → v ≠ MinInt64 → ParseAmount (FormatAmount v) = Ok v.
Proof. apply format_parse_roundtrip. Qed.

Lemma ParseAmount_FormatAmount_witness :
  in_int64 (-150000000) ∧ ParseAmount (FormatAmount (-150000000)) = Ok (-150000000).
Proof.
  assert (in_int64 (-150000000)) as H by (unfold_ints; lia).
  split; [exact H|]. apply (ParseAmount_FormatAmount (-150000000)); [exact H|unfold_ints; lia].
Defined.

(** The one int64 whose printed form is refused. *)
Example FormatAmount_MinInt64 :
  FormatAmount MinInt64 = "-92233720368.54775808" ∧
  ParseAmount (FormatAmount MinInt64) = Err (Errorf "amount %q is out of range").
Proof. split; vm_compute; reflexivity. Qed.

(** ** Multiplication and division *)

Lemma quot_char a b r : 0 < b →
  Z.quot a b = r ↔ Z.abs r * b ≤ Z.abs a < (Z.abs r + 1) * b ∧ 0 ≤ a * r.
Proof.
  intros Hb. rewrite Z.quot_div, (Z.sgn_pos b), (Z.abs_eq b), Z.mul_1_r by lia.
  assert (Z.abs a / b * b ≤ Z.abs a < (Z.abs a / b + 1) * b) as Hm.
  { pose proof (Z.div_mod (Z.abs a) b). pose proof (Z.mod_pos_bound (Z.abs a) b Hb). nia. }
  assert (0 ≤ Z.abs a / b) by (apply Z.div_pos; lia).
  generalize dependent (Z.abs a / b). intros m Hm Hm0. split.
  - intros <-. destruct (Z.lt_trichotomy a 0) as [Ha|[->|Ha]].
    + rewrite (Z.sgn_neg a) by lia. replace (Z.abs (-1 * m)) with m by lia. nia.
    + cbn in *. lia.
    + rewrite (Z.sgn_pos a) by lia. replace (Z.abs (1 * m)) with m by lia. nia.
  - intros [H1 H2]. assert (Z.abs r = m).
    { assert (Z.abs r < m + 1) by (apply (Z.mul_lt_mono_pos_r b); lia).
      assert (m < Z.abs r + 1) by (apply (Z.mul_lt_mono_pos_r b); lia). lia. }
    destruct (Z.lt_trichotomy a 0) as [Ha|[->|Ha]].
    + rewrite (Z.sgn_neg a) by lia. nia.
    + cbn in *. assert (Z.abs r * b ≤ 0) by lia. nia.
    + rewrite (Z.sgn_pos a) by lia. nia.
Qed.

Lemma MulAmount_quotient a b r :
  MulAmount a b = Ok r ↔
  in_int64 r ∧ 0 ≤ a * b * r ∧
  Z.abs r * AmountScale ≤ Z.abs (a * b) < (Z.abs r + 1) * AmountScale.
Proof.
  unfold MulAmount. pose proof (quot_char (a * b) AmountScale r eq_refl) as Hq.
  pose proof (is_int64b_spec (Z.quot (a * b) AmountScale)) as Hi.
  destruct (is_int64b _); cbn; split.
  - intros [= <-]. destruct Hq as [Hq _]. specialize (Hq eq_refl). tauto.
  - intros (_ & ? & ?). f_equal. apply Hq. tauto.
  - done.
  - intros (Hr & ? & ?). assert (Z.quot (a * b) AmountScale = r) as E by (apply Hq; tauto).
    rewrite E in Hi. exfalso. apply Hi in Hr. done.
Qed.

Lemma DivAmount_quotient a b r :
  DivAmount a b = Ok r ↔
  b ≠ 0 ∧ in_int64 r ∧ 0 ≤ a * b * r ∧
  Z.abs r * Z.abs b ≤ Z.abs a * AmountScale < (Z.abs r + 1) * Z.abs b.
Proof.
  unfold DivAmount. destruct (Z.eqb_spec b 0) as [->|Hb]; [split; [done|tauto]|].
  assert (Z.quot (a * AmountScale) b = r ↔ 0 ≤ a * b * r ∧
    Z.abs r * Z.abs b ≤ Z.abs a * AmountScale < (Z.abs r + 1) * Z.abs b) as Hq.
  { transitivity (Z.quot (a * Z.sgn b * AmountScale) (Z.abs b) = r).
    { destruct (Z.lt_trichotomy b 0) as [H|[H|H]]; [|lia|].
      - rewrite (Z.abs_neq b), (Z.sgn_neg b) by lia.
        replace (a * -1 * AmountScale) with (- (a * AmountScale)) by lia.
        by rewrite Z.quot_opp_opp by lia.
      - rewrite (Z.abs_eq b), (Z.sgn_pos b) by lia. by rewrite Z.mul_1_r. }
    rewrite quot_char by lia. unfold AmountScale.
    destruct (Z.lt_trichotomy b 0) as [H|[H|H]]; [|lia|];
      rewrite ?(Z.abs_neq b), ?(Z.sgn_neg b), ?(Z.abs_eq b), ?(Z.sgn_pos b) by lia;
      split; intros [??]; split_and!; nia. }
  pose proof (is_int64b_spec (Z.quot (a * AmountScale) b)) as Hi.
  destruct (is_int64b _); cbn; split.
  - intros [= <-]. destruct Hq as [Hq _]. specialize (Hq eq_refl). tauto.
  - intros (_ & _ & ?). f_equal. by apply Hq.
  - done.
  - intros (_ & Hr & ?). assert (Z.quot (a * AmountScale) b = r) as E by (by apply Hq).
    rewrite E in Hi. exfalso. apply Hi in Hr. done.
Qed.

(** Fixed-point products and quotients truncate and never wrap: MulAmount
    returns [r] exactly when [r] is an int64 and is the product over 10^8
    truncated toward zero (the discarded part is below one unit of the eighth
    decimal, the sign is the product's); DivAmount refuses a zero divisor and
    otherwise returns [r] exactly when [r] is an int64 and is the scaled dividend
    over the divisor truncated toward zero.  Every other input is an error. *)
Theorem amount_arithmetic_truncates a b r :
  (MulAmount a b = Ok r ↔
   in_int64 r ∧ 0 ≤ a * b * r ∧
   Z.abs r * AmountScale ≤ Z.abs (a * b) < (Z.abs r + 1) * AmountScale) ∧
  (DivAmount a b = Ok r ↔
   b ≠ 0 ∧ in_int64 r ∧ 0 ≤ a * b * r ∧
   Z.abs r * Z.abs b ≤ Z.abs a * AmountScale < (Z.abs r + 1) * Z.abs b).
Proof. split; [apply MulAmount_quotient|apply DivAmount_quotient]. Qed.
