(* ===== verification/CoreBreaker.v ===== *)
(** * Circuit breaker state machine (internal/corebreaker/corebreaker.go)

    The closed/open/half-open machine shared by the publish path and the two
    Postgres repositories.  Instants are nanoseconds in Z; [now] is the reading
    [machine.now()] returns, an argument of the operations that read the clock.
    The second half models concurrent callers as an interleaving step relation
    over the calls the machine has admitted. *)
From S2P Require Import Prelude.

(** ** Data *)
Inductive State := Closed | Open | HalfOpen.

#[global] Instance State_eq_dec : EqDecision State.
Proof. solve_decision. Defined.

Definition State_String (state : State) : string :=
  match state with
  | Closed => "closed"
  | Open => "open"
  | HalfOpen => "half-open"
  end.

Record Config := {
  FailureThreshold : Z;   (* uint32 *)
  OpenTimeout : Z;        (* time.Duration, int64 nanoseconds *)
  ProbeTimeout : Z        (* time.Duration *)
}.

(** The values a Config's Go field types can hold. *)
Definition Config_typed (config : Config) : Prop :=
  in_uint32 (FailureThreshold config) ∧ in_int64 (OpenTimeout config) ∧
  in_int64 (ProbeTimeout config).

Record Machine := {
  config : Config;
  state : State;
  consecutiveFailures : Z;  (* uint32 *)
  openedAt : Z
}.

(** ** Operations *)
Definition Validate (config : Config) : result unit :=
  if FailureThreshold config =? 0
  then Err (Wrapf "%w: FailureThreshold must be positive" (Sentinel ErrInvalidConfig))
  else if OpenTimeout config <=? 0
  then Err (Wrapf "%w: OpenTimeout %s must be a positive duration" (Sentinel ErrInvalidConfig))
  else if ProbeTimeout config <? 0
  then Err (Wrapf "%w: ProbeTimeout %s must not be negative" (Sentinel ErrInvalidConfig))
  else Ok tt.

(** The zero time.Time, before every instant the clock reports. *)
Definition zeroTime : Z := -62135596800000000000.

Definition New (config : Config) : result Machine :=
  _ ← Validate config;
  Ok {| config := config; state := Closed; consecutiveFailures := 0; openedAt := zeroTime |}.

(** time.Time.Sub saturates at the Duration range. *)
Definition time_Sub (t u : Z) : Z :=
  if MaxInt64 <? t - u then MaxInt64
  else if t - u <? MinInt64 then MinInt64
  else t - u.

Definition setState (s : State) (failures opened : Z) (m : Machine) : Machine :=
  {| config := config m; state := s; consecutiveFailures := failures; openedAt := opened |}.

(** Allow: (allowed, isProbe) and the machine afterwards. *)
Definition Allow (now : Z) (m : Machine) : bool * bool * Machine :=
  match state m with
  | Closed => (true, false, m)
  | HalfOpen => (false, false, m)
  | Open =>
      if time_Sub now (openedAt m) <? OpenTimeout (config m) then (false, false, m)
      else (true, true, setState HalfOpen (consecutiveFailures m) (openedAt m) m)
  end.

(** A context is its deadline, if it has one. *)
Definition Context := option Z.

(** context.WithTimeout: an earlier deadline of the parent wins. *)
Definition WithTimeout (now : Z) (ctx : Context) (d : Z) : Context :=
  match ctx with
  | Some deadline => Some (Z.min deadline (now + d))
  | None => Some (now + d)
  end.

Definition ProbeContext (now : Z) (m : Machine) (ctx : Context) (isProbe : bool) : Context :=
  if isProbe && (0 <? ProbeTimeout (config m)) then WithTimeout now ctx (ProbeTimeout (config m))
  else ctx.

(** Record(err): [failed] is [err != nil]. *)
Definition RecordOutcome (now : Z) (failed : bool) (m : Machine) : Machine :=
  match state m with
  | HalfOpen =>
      if failed then setState Open 0 now m
      else setState Closed 0 (openedAt m) m
  | Closed =>
      if failed then
        let failures := uint32 (consecutiveFailures m + 1) in
        if FailureThreshold (config m) <=? failures then setState Open 0 now m
        else setState Closed failures (openedAt m) m
      else setState Closed 0 (openedAt m) m
  | Open => m
  end.

(** ForceOpen, the test hook: open as of [opened], the counter untouched. *)
Definition ForceOpen (opened : Z) (m : Machine) : Machine :=
  setState Open (consecutiveFailures m) opened m.

(** ** Lemmas *)
Lemma time_Sub_lt t u d : 0 < d ≤ MaxInt64 → time_Sub t u < d ↔ t - u < d.
Proof. intros. unfold time_Sub. unfold_ints. case_all; lia. Qed.

Lemma Validate_Ok c : Validate c = Ok tt ↔
  FailureThreshold c ≠ 0 ∧ 0 < OpenTimeout c ∧ 0 ≤ ProbeTimeout c.
Proof. unfold Validate. case_all; split; naive_solver lia. Qed.

Definition Config_wf (c : Config) : Prop := Config_typed c ∧ Validate c = Ok tt.

(** The machine's invariant: the counter counts only while closed, and it
    never reaches the threshold. *)
Definition machine_wf (m : Machine) : Prop :=
  Config_wf (config m) ∧
  match state m with
  | Closed => 0 ≤ consecutiveFailures m < FailureThreshold (config m)
  | _ => consecutiveFailures m = 0
  end.

Lemma Config_wf_bounds c : Config_wf c →
  0 < FailureThreshold c ≤ MaxUint32 ∧ 0 < OpenTimeout c ≤ MaxInt64.
Proof. intros [(?&?&?) (?&?&?)%Validate_Ok]. unfold_ints. lia. Qed.

Lemma New_wf c m : Config_typed c → New c = Ok m →
  machine_wf m ∧ config m = c ∧ state m = Closed ∧ consecutiveFailures m = 0.
Proof.
  intros Ht. unfold New. rewrite result_bind_Ok. intros ([] & Hv & [= <-]). cbn.
  assert (Config_wf c) as Hc by done. pose proof (Config_wf_bounds c Hc).
  unfold machine_wf; cbn. split_and!; try done; lia.
Qed.

Lemma Allow_wf now m : machine_wf m → machine_wf (Allow now m).2 ∧ config (Allow now m).2 = config m.
Proof.
  unfold machine_wf, Allow. intros [Hc Hs]. destruct (state m) eqn:E; cbn; rewrite ?E; [done| |done].
  case_match; cbn; rewrite ?E; done.
Qed.

Lemma RecordOutcome_wf now failed m :
  machine_wf m → machine_wf (RecordOutcome now failed m) ∧
  config (RecordOutcome now failed m) = config m.
Proof.
  unfold machine_wf, RecordOutcome. intros [Hc Hs]. pose proof (Config_wf_bounds _ Hc).
  destruct (state m) eqn:E; [| cbn; by rewrite E|].
  - destruct failed; [|cbn; split_and!; done || lia].
    case_match; bool_props; cbn; split_and!; try done; unfold uint32 in *;
      Z.to_euclidean_division_equations; lia.
  - destruct failed; cbn; split_and!; done || lia.
Qed.



(** ** Tripping *)

(** Outcomes of the calls recorded so far, oldest first: [(failed, instant)]. *)
Definition recordAll (l : list (bool * Z)) (m : Machine) : Machine :=
  fold_left (λ m o, RecordOutcome o.2 o.1 m) l m.

(** Failures since the last success. *)
Definition trailing (l : list (bool * Z)) : Z :=
  fold_left (λ k (o : bool * Z), if o.1 then k + 1 else 0) l 0.

Lemma recordAll_snoc l o m : recordAll (l ++ [o]) m = RecordOutcome o.2 o.1 (recordAll l m).
Proof. unfold recordAll. by rewrite fold_left_app. Qed.
Lemma trailing_snoc l o : trailing (l ++ [o]) = if o.1 then trailing l + 1 else 0.
Proof. unfold trailing. by rewrite fold_left_app. Qed.
Lemma trailing_nonneg l : 0 ≤ trailing l.
Proof. induction l as [|o l IH] using rev_ind; [done|]. rewrite trailing_snoc. case_match; lia. Qed.

Lemma prefix_snoc {A} (p l : list A) x : p `prefix_of` l ++ [x] ↔ p = l ++ [x] ∨ p `prefix_of` l.
Proof.
  split.
  - intros [k Hk]. destruct k as [|y k _] using rev_ind.
    { left. by rewrite List.app_nil_r in Hk. }
    right. rewrite List.app_assoc in Hk. apply app_inj_tail in Hk as [-> _]. by exists k.
  - intros [->|H]; [done|]. by apply prefix_app_r.
Qed.

Lemma recordAll_closed c m l :
  Config_typed c → New c = Ok m →
  let m' := recordAll l m in
  machine_wf m' ∧ config m' = c ∧
  match state m' with
  | Closed => consecutiveFailures m' = trailing l ∧
      ∀ p, p `prefix_of` l → trailing p < FailureThreshold c
  | Open => ∃ p, p `prefix_of` l ∧ FailureThreshold c ≤ trailing p
  | HalfOpen => False
  end.
Proof.
  intros Ht HN. destruct (New_wf c m Ht HN) as (Hwf & Hc & Hs & Hf).
  assert (0 < FailureThreshold c) as Hth.
  { destruct Hwf as [Hcw _]. rewrite Hc in Hcw. apply Config_wf_bounds in Hcw. lia. }
  induction l as [|[failed t] l IH] using rev_ind.
  { cbn. rewrite Hs. split_and!; [done|done|done|]. intros p ->%prefix_nil_inv. done. }
  destruct IH as (Hwf' & Hc' & HI). rewrite recordAll_snoc. cbn [fst snd].
  destruct (RecordOutcome_wf t failed _ Hwf') as [Hwf2 Hc2]. cbn zeta.
  split; [done|]. split; [congruence|]. clear Hwf2 Hc2.
  unfold RecordOutcome. destruct (state (recordAll l m)) eqn:E; cbn [setState state consecutiveFailures].
  - destruct HI as [Hcnt Hall]. destruct failed; cbn [setState state consecutiveFailures].
    + assert (consecutiveFailures (recordAll l m) < FailureThreshold c ≤ MaxUint32) as Hb.
      { destruct Hwf' as [Hcw Hb]. rewrite E in Hb. rewrite Hc' in *.
        apply Config_wf_bounds in Hcw. lia. }
      pose proof (trailing_nonneg l). rewrite uint32_id by (unfold_ints; lia). rewrite Hc', Hcnt.
      destruct (Z.leb_spec (FailureThreshold c) (trailing l + 1)); cbn [setState state consecutiveFailures].
      * exists (l ++ [(true, t)]). rewrite trailing_snoc. cbn. split; [done|lia].
      * rewrite trailing_snoc. cbn. split; [done|].
        intros p [->|Hp]%prefix_snoc; [rewrite trailing_snoc; cbn; lia|auto].
    + rewrite trailing_snoc. split; [done|].
      intros p [->|Hp]%prefix_snoc; [rewrite trailing_snoc; cbn; lia|auto].
  - rewrite E. destruct HI as (p & Hp & ?). exists p. split; [by apply prefix_app_r|done].
  - done.
Qed.

(** C19. A fresh machine stays closed exactly while no prefix of the recorded
    outcomes ends in FailureThreshold consecutive failures: one more failure
    never trips it early, one success in between always resets the count, and
    the uint32 counter cannot wrap. *)
Theorem trips_iff_consecutive_failures c m l :
  Config_typed c → New c = Ok m →
  state (recordAll l m) = Closed ↔
    ∀ p, p `prefix_of` l → trailing p < FailureThreshold c.
Proof.
  intros Ht HN. destruct (recordAll_closed c m l Ht HN) as (_ & _ & HI).
  destruct (state _); [naive_solver| |done].
  split; [done|]. destruct HI as (p & Hp & Hle). intros H. specialize (H p Hp). lia.
Qed.

Definition sampleConfig : Config :=
  {| FailureThreshold := 3; OpenTimeout := 30; ProbeTimeout := 10 |}.
Definition sampleMachine : Machine :=
  {| config := sampleConfig; state := Closed; consecutiveFailures := 0; openedAt := zeroTime |}.

Lemma sampleConfig_typed : Config_typed sampleConfig.
Proof. split_and!; cbn; unfold_ints; lia. Qed.

Lemma trips_iff_consecutive_failures_witness :
  state (recordAll [(true, 1); (true, 2); (false, 3); (true, 4); (true, 5)] sampleMachine) = Closed ∧
  ¬ (∀ p, p `prefix_of` [(true, 1); (true, 2); (true, 3)] → trailing p < 3).
Proof.
  split; [reflexivity|]. intros H.
  apply (trips_iff_consecutive_failures sampleConfig sampleMachine
           [(true, 1); (true, 2); (true, 3)] sampleConfig_typed eq_refl) in H.
  discriminate H.
Defined.

(** ** The half-open gate *)

(** An open machine admits nothing before OpenTimeout has elapsed; the first
    Allow at or after that instant is admitted as the probe; from then on every
    Allow is refused, whatever the clock, until an outcome is recorded; a failed
    outcome re-opens the machine as of its instant and a successful one closes it
    with a zero counter. *)
Theorem open_gate m now later failed t :
  machine_wf m → state m = Open →
  (now - openedAt m < OpenTimeout (config m) → Allow now m = (false, false, m)) ∧
  (OpenTimeout (config m) ≤ now - openedAt m →
    (Allow now m).1 = (true, true) ∧
    let m' := (Allow now m).2 in
    state m' = HalfOpen ∧ Allow later m' = (false, false, m') ∧
    RecordOutcome t failed m' =
      if failed then setState Open 0 t m else setState Closed 0 (openedAt m) m).
Proof.
  intros [Hc Hs] E. apply Config_wf_bounds in Hc as [_ Ho]. unfold Allow. rewrite E.
  destruct (Z.ltb_spec (time_Sub now (openedAt m)) (OpenTimeout (config m))) as [Hlt|Hge].
  - apply time_Sub_lt in Hlt; [|lia]. split; [done|]. lia.
  - split; [intros Hx; apply (time_Sub_lt now (openedAt m)) in Hx; lia|].
    intros _. split; [done|]. cbn. split_and!; [done|done|]. by destruct failed.
Qed.

Lemma open_gate_witness :
  Allow 29 (setState Open 0 0 sampleMachine) = (false, false, setState Open 0 0 sampleMachine) ∧
  (Allow 30 (setState Open 0 0 sampleMachine)).1 = (true, true).
Proof.
  assert (machine_wf (setState Open 0 0 sampleMachine)) as Hwf.
  { split; [split; [apply sampleConfig_typed|reflexivity]|reflexivity]. }
  split.
  - apply (proj1 (open_gate _ 29 0 true 0 Hwf eq_refl)). reflexivity.
  - apply (proj2 (open_gate _ 30 0 true 0 Hwf eq_refl)). vm_compute. congruence.
Defined.

(** ** Concurrent callers

    Many goroutines share one machine; the mutex makes Allow and Record atomic,
    and anything may happen between a call's Allow and its Record.  A system is
    the machine, the clock and the admitted calls that have not recorded yet,
    each with its admission instant. *)
Record Call := { isProbe : bool; startedAt : Z }.

Record System := { machine : Machine; clock : Z; inflight : list Call }.

(** [D] bounds how long a call runs: time does not pass a call's limit while
    the call is in flight. *)
Inductive step (D : Z) : System → System → Prop :=
  | step_tick s t :
      clock s ≤ t → Forall (λ c, t ≤ startedAt c + D) (inflight s) →
      step D s {| machine := machine s; clock := t; inflight := inflight s |}
  | step_admit s probe m' :
      Allow (clock s) (machine s) = (true, probe, m') →
      step D s {| machine := m'; clock := clock s;
                  inflight := {| isProbe := probe; startedAt := clock s |} :: inflight s |}
  | step_reject s probe m' :
      Allow (clock s) (machine s) = (false, probe, m') →
      step D s {| machine := m'; clock := clock s; inflight := inflight s |}
  | step_finish s before c after failed :
      inflight s = before ++ c :: after →
      step D s {| machine := RecordOutcome (clock s) failed (machine s); clock := clock s;
                  inflight := before ++ after |}.

Definition initial (c : Config) (t : Z) (s : System) : Prop :=
  ∃ m, New c = Ok m ∧ s = {| machine := m; clock := t; inflight := [] |}.

Definition probes (s : System) : nat := length (filter (λ c, isProbe c = true) (inflight s)).

(** Within the bound, the machine's state says what is in flight. *)
Definition gate_inv (D : Z) (s : System) : Prop :=
  machine_wf (machine s) ∧
  Forall (λ c, startedAt c ≤ clock s ≤ startedAt c + D) (inflight s) ∧
  match state (machine s) with
  | Closed => Forall (λ c, isProbe c = false) (inflight s)
  | Open => openedAt (machine s) ≤ clock s ∧
      Forall (λ c, isProbe c = false ∧ startedAt c ≤ openedAt (machine s)) (inflight s)
  | HalfOpen => ∃ c, inflight s = [c] ∧ isProbe c = true
  end.

Lemma Forall_remove {A} (P : A → Prop) before c after :
  Forall P (before ++ c :: after) → Forall P (before ++ after).
Proof. rewrite !Forall_app, Forall_cons. tauto. Qed.

Lemma gate_inv_initial c t s D : Config_typed c → initial c t s → gate_inv D s.
Proof.
  intros Ht (m & HN & ->). destruct (New_wf c m Ht HN) as (? & _ & Hs & _).
  split_and!; cbn; [done|done|]. by rewrite Hs.
Qed.

Lemma gate_inv_admit D s probe m' :
  gate_inv D s → D < OpenTimeout (config (machine s)) → 0 ≤ D →
  Allow (clock s) (machine s) = (true, probe, m') →
  gate_inv D {| machine := m'; clock := clock s;
                inflight := {| isProbe := probe; startedAt := clock s |} :: inflight s |}.
Proof.
  intros (Hwf & Htime & Hst) HD HD0 HA.
  destruct (Allow_wf (clock s) _ Hwf) as [Hwf' _]. rewrite HA in Hwf'. cbn in Hwf'.
  assert (Forall (λ c, startedAt c ≤ clock s ≤ startedAt c + D)
            ({| isProbe := probe; startedAt := clock s |} :: inflight s)) as Htime'.
  { constructor; [cbn; lia|done]. }
  split_and!; [done|done|]. cbn [machine inflight clock]. revert HA. unfold Allow.
  destruct (state (machine s)) eqn:E; [| |done].
  - intros [= <- <-]. rewrite E. by constructor.
  - case_match eqn:Hsub; [done|]. intros [= <- <-]. cbn. bool_props. destruct Hst as [_ Hold].
    assert (inflight s = []) as ->; [|eauto].
    destruct (inflight s) as [|c l]; [done|]. exfalso.
    apply Forall_cons in Hold as [[_ ?] _]. apply Forall_cons in Htime as [? _].
    destruct Hwf as [Hc _]. apply Config_wf_bounds in Hc as [_ Ho].
    assert (¬ clock s - openedAt (machine s) < OpenTimeout (config (machine s))); [|lia].
    rewrite <- time_Sub_lt by lia. lia.
Qed.

Lemma gate_inv_finish D s before c after failed :
  gate_inv D s → inflight s = before ++ c :: after →
  gate_inv D {| machine := RecordOutcome (clock s) failed (machine s); clock := clock s;
                inflight := before ++ after |}.
Proof.
  intros (Hwf & Htime & Hst) Hin. rewrite Hin in *.
  destruct (RecordOutcome_wf (clock s) failed _ Hwf) as [Hwf' _].
  pose proof (Forall_remove _ _ _ _ Htime) as Htime'. split_and!; [done|done|].
  cbn [machine inflight clock]. unfold RecordOutcome.
  destruct (state (machine s)) eqn:E.
  - pose proof (Forall_remove _ _ _ _ Hst) as Hnp. destruct failed; [destruct (_ <=? _)|]; cbn; try done.
    split; [lia|]. apply Forall_forall. intros x Hx.
    rewrite Forall_forall in Hnp, Htime'. specialize (Hnp x Hx). specialize (Htime' x Hx). tauto.
  - rewrite E. destruct Hst as [? Hold]. split; [done|]. by eapply Forall_remove.
  - destruct Hst as (d & Hd & _).
    assert (before = [] ∧ after = []) as [-> ->].
    { destruct before as [|y before]; simplify_eq/=; [done|]. by destruct before. }
    destruct failed; cbn; [split; [lia|done]|done].
Qed.

Lemma gate_inv_step D s s' :
  0 ≤ D → D < OpenTimeout (config (machine s)) → step D s s' → gate_inv D s →
  gate_inv D s' ∧ config (machine s') = config (machine s).
Proof.
  intros HD0 HD Hstep Hinv. destruct Hstep as [s t Ht Hall|s probe m' HA|s probe m' HA|s before c after failed Hin].
  - split; [|done]. destruct Hinv as (Hwf & Htime & Hst). split_and!; [done| |].
    + cbn. rewrite Forall_forall in *. intros x Hx. specialize (Htime x Hx). specialize (Hall x Hx).
      cbn in *. lia.
    + cbn. destruct (state (machine s)); [done| |done]. destruct Hst. split; [lia|done].
  - split; [by eapply gate_inv_admit|]. destruct (Allow_wf (clock s) (machine s) (proj1 Hinv)) as [_ Hc].
    by rewrite HA in Hc.
  - assert (m' = machine s) as ->; [|by split; [destruct s|]].
    revert HA. unfold Allow. destruct (state (machine s)); try case_match; naive_solver.
  - split; [by eapply gate_inv_finish|]. cbn. apply RecordOutcome_wf, Hinv.
Qed.

Lemma gate_inv_reachable c t0 s0 s D :
  Config_typed c → 0 ≤ D < OpenTimeout c → initial c t0 s0 → rtc (step D) s0 s →
  gate_inv D s ∧ config (machine s) = c.
Proof.
  intros Ht [HD0 HD] Hinit Hrtc.
  assert (config (machine s0) = c) as Hc0.
  { destruct Hinit as (m & HN & ->). by destruct (New_wf c m Ht HN) as (_ & ? & _). }
  assert (gate_inv D s0) as H0 by eauto using gate_inv_initial.
  clear Hinit. induction Hrtc as [s|s s1 s2 Hstep _ IH]; [done|].
  destruct (gate_inv_step D s s1) as [H1 Hc1]; [done|congruence|done|done|].
  apply IH; congruence || done.
Qed.

(** C18. Single probe: when every call finishes within some D below OpenTimeout,
    then in every interleaving of concurrent callers at most one probe is in
    flight; while the machine is half-open exactly that probe is in flight and
    nothing else, so the recorded outcome is the probe's own; and in the other
    states no probe is in flight. *)
Theorem single_probe c t0 s0 s D :
  Config_typed c → 0 ≤ D < OpenTimeout c → initial c t0 s0 → rtc (step D) s0 s →
  (probes s ≤ 1)%nat ∧
  (state (machine s) = HalfOpen → ∃ call, inflight s = [call] ∧ isProbe call = true) ∧
  (state (machine s) ≠ HalfOpen → probes s = 0%nat).
Proof.
  intros Ht HD Hinit Hrtc.
  destruct (gate_inv_reachable c t0 s0 s D Ht HD Hinit Hrtc) as [(_ & _ & Hst) _].
  assert (∀ l : list Call, Forall (λ c, isProbe c = false) l →
            length (filter (λ c, isProbe c = true) l) = 0%nat) as Hnone.
  { intros l Hl. induction Hl as [|x l Hx Hl IH]; [done|].
    rewrite filter_cons_False by congruence. done. }
  unfold probes. destruct (state (machine s)); [| |].
  - rewrite Hnone by done. split_and!; [lia|done|done].
  - destruct Hst as [_ Hold]. rewrite Hnone by (eapply Forall_impl; [exact Hold|tauto]).
    split_and!; [lia|done|done].
  - destruct Hst as (call & -> & Hp). rewrite filter_cons_True by done. cbn.
    split_and!; [lia|eauto|done].
Qed.

(** One transition of an interleaving, as a function of what happens. *)
Inductive event := Tick (t : Z) | Arrive | Finish (i : nat) (failed : bool).

Definition play (e : event) (s : System) : System :=
  match e with
  | Tick t => {| machine := machine s; clock := t; inflight := inflight s |}
  | Arrive =>
      let '(allowed, probe, m') := Allow (clock s) (machine s) in
      {| machine := m'; clock := clock s;
         inflight := if allowed then {| isProbe := probe; startedAt := clock s |} :: inflight s
                     else inflight s |}
  | Finish i failed =>
      match inflight s !! i with
      | Some _ => {| machine := RecordOutcome (clock s) failed (machine s); clock := clock s;
                     inflight := take i (inflight s) ++ drop (S i) (inflight s) |}
      | None => s
      end
  end.

Lemma play_step D e s :
  match e with
  | Tick t => clock s ≤ t ∧ Forall (λ c, t ≤ startedAt c + D) (inflight s)
  | _ => True
  end → rtc (step D) s (play e s).
Proof.
  destruct e as [t| |i failed]; intros He; cbn [play].
  - destruct He. apply rtc_once. by apply step_tick.
  - destruct (Allow (clock s) (machine s)) as [[[] probe] m'] eqn:HA; apply rtc_once;
      [exact (step_admit D s probe m' HA)|exact (step_reject D s probe m' HA)].
  - destruct (inflight s !! i) as [c|] eqn:Hi; [|done]. apply rtc_once.
    apply (step_finish D s _ c). by rewrite take_drop_middle.
Qed.

(** Run a schedule, checking that time respects the bound [D]. *)
Fixpoint plays (D : Z) (es : list event) (s : System) : option System :=
  match es with
  | [] => Some s
  | e :: es =>
      if match e with
         | Tick t => (clock s <=? t) && forallb (λ c, t <=? startedAt c + D) (inflight s)
         | _ => true
         end
      then plays D es (play e s) else None
  end.

Lemma plays_rtc D es s s' : plays D es s = Some s' → rtc (step D) s s'.
Proof.
  revert s. induction es as [|e es IH]; intros s H; [simplify_eq/=; constructor|].
  cbn in H. case_match eqn:He; [|done]. etrans; [|exact (IH _ H)]. apply play_step.
  destruct e; [|done|done]. bool_props. split; [done|].
  rewrite forallb_forall in H1. apply Forall_forall. intros c Hc%list_elem_of_In.
  apply Z.leb_le. by apply H1.
Qed.

(** An interleaving that respects the bound: admit, fail, wait, probe. *)
Definition sampleSystem : System := {| machine := sampleMachine; clock := 0; inflight := [] |}.
Definition probingSystem : System :=
  {| machine := setState HalfOpen 0 0 sampleMachine; clock := 30;
     inflight := [{| isProbe := true; startedAt := 30 |}] |}.

Lemma single_probe_witness : (probes probingSystem ≤ 1)%nat.
Proof.
  apply (single_probe sampleConfig 0 sampleSystem probingSystem 10 sampleConfig_typed).
  - split; vm_compute; congruence.
  - exists sampleMachine. split; reflexivity.
  - apply plays_rtc with
      [Arrive; Arrive; Arrive; Finish 0 true; Finish 0 true; Finish 0 true; Tick 30; Arrive].
    vm_compute. reflexivity.
Defined.

(** Without such a bound the gate is not exclusive: a call admitted while
    closed that fails only after the machine went half-open is recorded as if it
    were the probe, re-opens the machine, and a second probe is admitted while
    the first is still in flight. *)
Theorem straggler_admits_second_probe :
  ∃ s, rtc (step 1000) sampleSystem s ∧ probes s = 2%nat.
Proof.
  eexists. split.
  - apply plays_rtc with
      [Arrive; Arrive; Arrive; Arrive; Finish 0 true; Finish 0 true; Finish 0 true;
       Tick 30; Arrive; Finish 1 true; Tick 60; Arrive].
    vm_compute. reflexivity.
  - reflexivity.
Qed.
