(* ===== verification/EnvConfig.v ===== *)
(** * Configuration from the environment

    The functions that turn environment variables into the settings of the
    services, over the environment as a function from names to values (unset is
    the empty string, as os.Getenv reports it).  One module per owner:
    internal/ledger/storage/pool.go ([Pool]), internal/ingestion/kafka/publisher.go
    ([Producer]), internal/processor/kafka/consumer.go ([Consumer]), and the
    entry points cmd/ingestion/main.go and cmd/processor/main.go ([Services]). *)
From S2P Require Import Prelude GoStrings GoTime CoreBreaker.

(** os.Getenv. *)
Class Environment := Getenv : string → string.

(** if value := os.Getenv(name); value != "" { dest, err = parse(value) } *)
Definition override `{Genv : !Environment} {A} (name : string) (parse : string → result A) (dest : A) : result A :=
  let value := Getenv name in
  if bool_decide (value = "") then Ok dest else parse value.

(** dest := os.Getenv(name); if dest == "" { dest = default } *)
Definition getenvOr `{Genv : !Environment} (name default : string) : string :=
  if bool_decide (Getenv name = "") then default else Getenv name.

Lemma override_Ok `{Genv : !Environment} {A} name parse (dest v : A) : override name parse dest = Ok v →
  v = dest ∨ ∃ raw, parse raw = Ok v.
Proof. unfold override. case_bool_decide; [intros [= <-]; auto|eauto]. Qed.

(** ** Postgres pool *)
Module Pool.

Record PoolConfig := {
  MaxConns : Z;            (* int32 *)
  MinConns : Z;            (* int32 *)
  MaxConnLifetime : Z;     (* time.Duration *)
  MaxConnIdleTime : Z
}.

Definition LocalPoolConfig : PoolConfig :=
  {| MaxConns := 5; MinConns := 1; MaxConnLifetime := 30 * Minute; MaxConnIdleTime := 5 * Minute |}.

Definition SandboxPoolConfig : PoolConfig :=
  {| MaxConns := 20; MinConns := 5; MaxConnLifetime := 30 * Minute; MaxConnIdleTime := 2 * Minute |}.

Definition validate (cfg : PoolConfig) : result unit :=
  if MaxConns cfg <? 1
  then Err (Wrapf "%w: MaxConns %d must be at least 1" (Sentinel ErrInvalidPoolConfig))
  else if MinConns cfg <? 0
  then Err (Wrapf "%w: MinConns %d must not be negative" (Sentinel ErrInvalidPoolConfig))
  else if MaxConns cfg <? MinConns cfg
  then Err (Wrapf "%w: MinConns %d must not exceed MaxConns %d" (Sentinel ErrInvalidPoolConfig))
  else if MaxConnLifetime cfg <=? 0
  then Err (Wrapf "%w: MaxConnLifetime %s must be a positive duration" (Sentinel ErrInvalidPoolConfig))
  else if MaxConnIdleTime cfg <=? 0
  then Err (Wrapf "%w: MaxConnIdleTime %s must be a positive duration" (Sentinel ErrInvalidPoolConfig))
  else Ok tt.

Definition overrideInt32FromEnv `{Genv : !Environment} (name : string) (dest minAllowed : Z) : result Z :=
  override name (λ value,
    parsed ← wrap_err "parse %s: %w" (ParseInt value 2147483648);
    if parsed <? minAllowed then Err (Errorf "parse %s: value %d is below the minimum allowed %d")
    else Ok (int32 parsed)) dest.

Definition overrideDurationFromEnv `{Genv : !Environment} (name : string) (dest : Z) : result Z :=
  override name (λ value,
    parsed ← wrap_err "parse %s: %w" (ParseDuration value);
    if parsed <=? 0 then Err (Errorf "parse %s: value %s must be a positive duration")
    else Ok parsed) dest.

Definition PoolConfigFromEnv `{Genv : !Environment} : result PoolConfig :=
  let appEnv := getenvOr "APP_ENV" "local" in
  config ← (if bool_decide (appEnv = "local") then Ok LocalPoolConfig
            else if bool_decide (appEnv = "sandbox") then Ok SandboxPoolConfig
            else Err (Errorf "resolve pool config: unknown APP_ENV %q"));
  maxConns ← overrideInt32FromEnv "PGPOOL_MAX_CONNS" (MaxConns config) 1;
  minConns ← overrideInt32FromEnv "PGPOOL_MIN_CONNS" (MinConns config) 0;
  lifetime ← overrideDurationFromEnv "PGPOOL_MAX_CONN_LIFETIME" (MaxConnLifetime config);
  idle ← overrideDurationFromEnv "PGPOOL_MAX_CONN_IDLE_TIME" (MaxConnIdleTime config);
  let config := {| MaxConns := maxConns; MinConns := minConns; MaxConnLifetime := lifetime;
                   MaxConnIdleTime := idle |} in
  _ ← validate config;
  Ok config.

(** NewPool: the settings handed to pgxpool; [ParseConfig] and [NewWithConfig]
    are pgxpool's. *)
Definition NewPool {DSN P} (ParseConfig : string → result DSN) (NewWithConfig : DSN → PoolConfig → result P)
    (databaseURL : string) (cfg : PoolConfig) : result P :=
  _ ← wrap_err "new pool: %w" (validate cfg);
  poolConfig ← wrap_err "parse pool config: %w" (ParseConfig databaseURL);
  wrap_err "create pool: %w" (NewWithConfig poolConfig cfg).

(** What a pool must be to hand out connections within its bounds. *)
Definition usable (cfg : PoolConfig) : Prop :=
  0 ≤ MinConns cfg ≤ MaxConns cfg ∧ 1 ≤ MaxConns cfg ∧
  0 < MaxConnLifetime cfg ∧ 0 < MaxConnIdleTime cfg.

Lemma validate_Ok cfg : validate cfg = Ok tt ↔ usable cfg.
Proof. unfold validate, usable. case_all; split; try done; lia. Qed.

Lemma overrideInt32_range `{Genv : !Environment} name dest minAllowed v :
  minAllowed ≤ dest → in_int32 dest → overrideInt32FromEnv name dest minAllowed = Ok v →
  minAllowed ≤ v ∧ in_int32 v.
Proof.
  intros Hd Hr [->|(raw & H)]%override_Ok; [done|].
  apply result_bind_Ok in H as (n & Hn & H). apply wrap_err_Ok in Hn. apply ParseInt_range in Hn; [|lia].
  destruct (n <? minAllowed) eqn:E; [done|]. injection H as <-. bool_props.
  rewrite int32_id by (unfold_ints; lia). unfold_ints. lia.
Qed.

(** Whatever the environment says, a resolved pool configuration is usable
    (1 <= MaxConns, 0 <= MinConns <= MaxConns, positive lifetimes, both counts
    int32), so NewPool's own validation never rejects it. *)
Theorem PoolConfigFromEnv_usable `{Genv : !Environment} cfg :
  PoolConfigFromEnv = Ok cfg →
  usable cfg ∧ in_int32 (MaxConns cfg) ∧ in_int32 (MinConns cfg) ∧ validate cfg = Ok tt.
Proof.
  unfold PoolConfigFromEnv. intros (base & Hb & H)%result_bind_Ok.
  apply result_bind_Ok in H as (mx & Hmx & H). apply result_bind_Ok in H as (mn & Hmn & H).
  apply result_bind_Ok in H as (lt & Hlt & H). apply result_bind_Ok in H as (id & Hid & H).
  apply result_bind_Ok in H as ([] & Hv & [= <-]).
  assert (1 ≤ MaxConns base ≤ 20 ∧ 0 ≤ MinConns base ≤ 20) as [Hbx Hbn].
  { repeat case_bool_decide; simplify_eq; cbn; lia. }
  apply overrideInt32_range in Hmx as [_ ?]; [|lia|unfold_ints; lia].
  apply overrideInt32_range in Hmn as [_ ?]; [|lia|unfold_ints; lia].
  split_and!; [by apply validate_Ok|done..].
Qed.

Lemma PoolConfigFromEnv_usable_witness :
  usable {| MaxConns := 7; MinConns := 5; MaxConnLifetime := 90 * Minute; MaxConnIdleTime := 2 * Minute |}.
Proof.
  apply (PoolConfigFromEnv_usable (Genv := λ name,
    if bool_decide (name = "APP_ENV") then "sandbox"
    else if bool_decide (name = "PGPOOL_MAX_CONNS") then "7"
    else if bool_decide (name = "PGPOOL_MAX_CONN_LIFETIME") then "1h30m" else "")).
  vm_compute. reflexivity.
Defined.

End Pool.

(** ** Kafka producer *)
Module Producer.

Record Config := {
  Brokers : list string;
  Topic : string;
  RequestTimeout : Z;
  Linger : Z;
  TenantPartitions : list (string * Z);        (* a map, in iteration order *)
  DefaultPartitionsPerTenant : Z;              (* int32 *)
  TenantPartitionSource : option string;       (* FileTenantPartitionSource's path *)
  TenantPartitionReloadInterval : Z
}.

Definition LocalConfig : Config :=
  {| Brokers := ["localhost:9092"]; Topic := "transaction-events"; RequestTimeout := 10 * Second;
     Linger := 5 * Millisecond; TenantPartitions := []; DefaultPartitionsPerTenant := 0;
     TenantPartitionSource := None; TenantPartitionReloadInterval := 0 |}.

Definition invalid (msg : string) : error := Wrapf msg (Sentinel ErrInvalidProducerConfig).

Fixpoint validatePartitions (l : list (string * Z)) : result unit :=
  match l with
  | [] => Ok tt
  | (tenantID, size) :: l =>
      if blank tenantID then Err (invalid "%w: TenantPartitions key must not be blank")
      else if size <? 1 then Err (invalid "%w: TenantPartitions[%q] = %d must be >= 1")
      else validatePartitions l
  end.

Definition validate (cfg : Config) : result unit :=
  if Nat.eqb (length (Brokers cfg)) 0 then Err (invalid "%w: at least one broker is required")
  else if existsb blank (Brokers cfg) then Err (invalid "%w: broker address must not be blank")
  else if blank (Topic cfg) then Err (invalid "%w: topic must not be blank")
  else if RequestTimeout cfg <=? 0 then Err (invalid "%w: RequestTimeout %s must be a positive duration")
  else if Linger cfg <? 0 then Err (invalid "%w: Linger %s must not be negative")
  else if DefaultPartitionsPerTenant cfg <? 0
  then Err (invalid "%w: DefaultPartitionsPerTenant %d must not be negative")
  else validatePartitions (TenantPartitions cfg).

Definition overrideDurationFromEnv `{Genv : !Environment} (name : string) (dest : Z) : result Z :=
  override name (λ value,
    match ParseDuration value with
    | Ok parsed => Ok parsed
    | Err err => Err (Wrapf2 "%w: parse %s: %w" (Sentinel ErrInvalidProducerConfig) err)
    end) dest.

Definition ConfigFromEnv `{Genv : !Environment} : result Config :=
  let config := LocalConfig in
  let brokers := Getenv "KAFKA_BROKERS" in
  let brokers := if bool_decide (brokers = "") then Brokers config else Split brokers ","%char in
  let topic := getenvOr "KAFKA_TOPIC" (Topic config) in
  timeout ← overrideDurationFromEnv "KAFKA_REQUEST_TIMEOUT" (RequestTimeout config);
  linger ← overrideDurationFromEnv "KAFKA_LINGER" (Linger config);
  let path := Getenv "TENANT_PARTITION_MAP_PATH" in
  let source := if bool_decide (path = "") then TenantPartitionSource config else Some path in
  interval ← overrideDurationFromEnv "TENANT_PARTITION_RELOAD_INTERVAL"
               (TenantPartitionReloadInterval config);
  let config := {| Brokers := brokers; Topic := topic; RequestTimeout := timeout; Linger := linger;
                   TenantPartitions := TenantPartitions config;
                   DefaultPartitionsPerTenant := DefaultPartitionsPerTenant config;
                   TenantPartitionSource := source; TenantPartitionReloadInterval := interval |} in
  _ ← validate config;
  Ok config.

End Producer.

(** ** Kafka consumer *)
Module Consumer.

Record Config := {
  Brokers : list string;
  Topic : string;
  GroupID : string;
  DLQTopic : string;
  MaxRetries : Z;                              (* int *)
  ManualPartitions : list Z;                   (* []int32 *)
  TenantID : string;
  TenantPartitionSource : option string;
  TenantPartitionReloadInterval : Z;
  MaxPollRecords : Z
}.

Definition LocalConfig : Config :=
  {| Brokers := ["localhost:9092"]; Topic := "transaction-events"; GroupID := "processor";
     DLQTopic := "transaction-events-dlq"; MaxRetries := 3; ManualPartitions := []; TenantID := "";
     TenantPartitionSource := None; TenantPartitionReloadInterval := 0; MaxPollRecords := 0 |}.

Definition invalid (msg : string) : error := Wrapf msg (Sentinel ErrInvalidConsumerConfig).

Fixpoint parseFields (fields : list string) : result (list Z) :=
  match fields with
  | [] => Ok []
  | field :: fields =>
      parsed ← wrap_err "parse partition %q: %w" (Atoi (TrimSpace field));
      if parsed <? 0 then Err (Errorf "partition %d must not be negative")
      else rest ← parseFields fields; Ok (int32 parsed :: rest)
  end.

Definition parsePartitionList (value : string) : result (list Z) :=
  parseFields (Split value ","%char).

Definition validate (cfg : Config) : result unit :=
  if Nat.eqb (length (Brokers cfg)) 0 then Err (invalid "%w: at least one broker is required")
  else if existsb blank (Brokers cfg) then Err (invalid "%w: broker address must not be blank")
  else if blank (Topic cfg) then Err (invalid "%w: topic must not be blank")
  else if Nat.eqb (length (ManualPartitions cfg)) 0 && blank (GroupID cfg)
  then Err (invalid "%w: group ID must not be blank")
  else if blank (DLQTopic cfg) then Err (invalid "%w: DLQ topic must not be blank")
  else if MaxRetries cfg <? 0 then Err (invalid "%w: MaxRetries must not be negative")
  else if MaxPollRecords cfg <? 0 then Err (invalid "%w: MaxPollRecords must not be negative")
  else if bool_decide (is_Some (TenantPartitionSource cfg)) &&
          (Nat.eqb (length (ManualPartitions cfg)) 0 || blank (TenantID cfg))
  then Err (invalid "%w: TenantPartitionSource requires ManualPartitions and TenantID to be set")
  else Ok tt.

(** A parse failure of a variable, under ErrInvalidConfig. *)
Definition parseVar {A} (msg : string) (r : result A) : result A :=
  match r with
  | Ok v => Ok v
  | Err err => Err (Wrapf2 msg (Sentinel ErrInvalidConsumerConfig) err)
  end.

Definition overrideDurationFromEnv `{Genv : !Environment} (name : string) (dest : Z) : result Z :=
  override name (λ value, parseVar "%w: parse %s: %w" (ParseDuration value)) dest.

Definition ConfigFromEnv `{Genv : !Environment} : result Config :=
  let config := LocalConfig in
  let brokers := Getenv "KAFKA_BROKERS" in
  let brokers := if bool_decide (brokers = "") then Brokers config else Split brokers ","%char in
  let topic := getenvOr "KAFKA_TOPIC" (Topic config) in
  let groupID := getenvOr "KAFKA_CONSUMER_GROUP" (GroupID config) in
  let dlqTopic := getenvOr "KAFKA_DLQ_TOPIC" (DLQTopic config) in
  maxRetries ← override "KAFKA_MAX_RETRIES"
    (λ v, parseVar "%w: parse KAFKA_MAX_RETRIES: %w" (Atoi v)) (MaxRetries config);
  manual ← override "KAFKA_MANUAL_PARTITIONS"
    (λ v, parseVar "%w: parse KAFKA_MANUAL_PARTITIONS: %w" (parsePartitionList v)) (ManualPartitions config);
  let tenantID := getenvOr "TENANT_ID" (TenantID config) in
  let path := Getenv "TENANT_PARTITION_MAP_PATH" in
  let source := if bool_decide (path = "") then TenantPartitionSource config else Some path in
  interval ← overrideDurationFromEnv "TENANT_PARTITION_RELOAD_INTERVAL"
               (TenantPartitionReloadInterval config);
  maxPoll ← override "KAFKA_MAX_POLL_RECORDS"
    (λ v, parseVar "%w: parse KAFKA_MAX_POLL_RECORDS: %w" (Atoi v)) (MaxPollRecords config);
  let config := {| Brokers := brokers; Topic := topic; GroupID := groupID; DLQTopic := dlqTopic;
                   MaxRetries := maxRetries; ManualPartitions := manual; TenantID := tenantID;
                   TenantPartitionSource := source; TenantPartitionReloadInterval := interval;
                   MaxPollRecords := maxPoll |} in
  _ ← validate config;
  Ok config.

(** parsePartitionList accepts indices that are not partitions: it checks the
    sign of the 64-bit integer and then truncates it to int32, so 2^31 becomes a
    negative index and 2^32 + 2 silently becomes partition 2. *)
Theorem parsePartitionList_truncates :
  parsePartitionList "2147483648" = Ok [-2147483648] ∧ parsePartitionList "0, 4294967298" = Ok [0; 2].
Proof. split; vm_compute; reflexivity. Qed.

Lemma parseFields_small fields l : parseFields fields = Ok l → Forall in_int32 l.
Proof.
  revert l. induction fields as [|field fields IH]; intros l; cbn; [by intros [= <-]|].
  intros (n & _ & H)%result_bind_Ok. destruct (n <? 0); [done|].
  apply result_bind_Ok in H as (rest & Hr & [= <-]). constructor; [apply int32_range|auto].
Qed.

(** What validate demands of a consumer. *)
Definition runnable (cfg : Config) : Prop :=
  Brokers cfg ≠ [] ∧ Forall (λ b, blank b = false) (Brokers cfg) ∧ blank (Topic cfg) = false ∧
  (ManualPartitions cfg = [] → blank (GroupID cfg) = false) ∧ blank (DLQTopic cfg) = false ∧
  0 ≤ MaxRetries cfg ∧ 0 ≤ MaxPollRecords cfg ∧
  (is_Some (TenantPartitionSource cfg) → ManualPartitions cfg ≠ [] ∧ blank (TenantID cfg) = false).

Lemma existsb_blank l : existsb blank l = false ↔ Forall (λ b, blank b = false) l.
Proof.
  induction l as [|x l IH]; cbn; [done|]. rewrite orb_false_iff, IH, Forall_cons. done.
Qed.

Lemma length_eqb_nil {A} (l : list A) : Nat.eqb (length l) 0 = bool_decide (l = []).
Proof. by destruct l. Qed.

(** The consumer's configuration is accepted exactly when it can run: brokers
    and topics named, a group or manual partitions, non-negative bounds, and hot
    reload only for a tenant with manual partitions. *)
Theorem Consumer_validate_runnable cfg : validate cfg = Ok tt ↔ runnable cfg.
Proof.
  unfold validate, runnable. rewrite !length_eqb_nil, <-existsb_blank.
  destruct (bool_decide (Brokers cfg = [])) eqn:?; bool_props; [naive_solver|].
  destruct (existsb blank (Brokers cfg)) eqn:?; [naive_solver|].
  destruct (blank (Topic cfg)) eqn:?; [naive_solver|].
  destruct (blank (DLQTopic cfg)) eqn:?; [case_match; naive_solver|].
  destruct (bool_decide (ManualPartitions cfg = [])) eqn:?, (blank (GroupID cfg)) eqn:?; bool_props; cbn;
    try naive_solver; destruct (Z.ltb_spec (MaxRetries cfg) 0), (Z.ltb_spec (MaxPollRecords cfg) 0);
    try (split; [done|intros; exfalso; naive_solver lia]);
    destruct (bool_decide _) eqn:?, (blank (TenantID cfg)) eqn:?; bool_props; cbn; naive_solver lia.
Qed.

End Consumer.

(** ** The entry points *)
Module Services.

(** The trimmed, non-empty entries of a comma-separated list. *)
Fixpoint trimmedFields (fields : list string) : list string :=
  match fields with
  | [] => []
  | field :: fields =>
      let field := TrimSpace field in
      if bool_decide (field = "") then trimmedFields fields else field :: trimmedFields fields
  end.

Definition apiKeysFromEnv `{Genv : !Environment} : result (list string) :=
  let raw := Getenv "INGESTION_API_KEYS" in
  if bool_decide (raw = "")
  then Err (Errorf "INGESTION_API_KEYS must be set to a comma-separated list of accepted API keys")
  else
    let keys := trimmedFields (Split raw ","%char) in
    if Nat.eqb (length keys) 0
    then Err (Errorf "INGESTION_API_KEYS must contain at least one non-empty key")
    else Ok keys.

(** The ingestion and processor services read the same three variables under
    their own prefixes. *)
Definition breakerConfig `{Genv : !Environment} (prefix : string) : result Config :=
  threshold ← override (prefix +:+ "_BREAKER_FAILURE_THRESHOLD")
    (λ v, n ← wrap_err ("parse " +:+ prefix +:+ "_BREAKER_FAILURE_THRESHOLD: %w") (ParseUint v MaxUint32); Ok (uint32 n)) 5;
  openTimeout ← override (prefix +:+ "_BREAKER_OPEN_TIMEOUT")
    (λ v, wrap_err ("parse " +:+ prefix +:+ "_BREAKER_OPEN_TIMEOUT: %w") (ParseDuration v)) (30 * Second);
  probeTimeout ← override (prefix +:+ "_BREAKER_PROBE_TIMEOUT")
    (λ v, wrap_err ("parse " +:+ prefix +:+ "_BREAKER_PROBE_TIMEOUT: %w") (ParseDuration v)) (30 * Second);
  Ok {| FailureThreshold := threshold; OpenTimeout := openTimeout; ProbeTimeout := probeTimeout |}.

Definition ingestionBreakerConfigFromEnv `{Genv : !Environment} : result Config := breakerConfig "INGESTION".
Definition processorBreakerConfigFromEnv `{Genv : !Environment} : result Config := breakerConfig "PROCESSOR".

(** BackpressureConfig's MaxInFlight. *)
Definition backpressureConfigFromEnv `{Genv : !Environment} : result Z :=
  override "INGESTION_BACKPRESSURE_MAX_INFLIGHT"
    (λ v, wrap_err "parse INGESTION_BACKPRESSURE_MAX_INFLIGHT: %w" (Atoi v)) 256.

(** The tenant ids handed to metrics.NewKnownTenants; nil is the empty list. *)
Definition knownTenants `{Genv : !Environment} (name : string) : list string :=
  let raw := Getenv name in
  if bool_decide (raw = "") then [] else trimmedFields (Split raw ","%char).

Definition ingestionKnownTenantsFromEnv `{Genv : !Environment} : list string := knownTenants "INGESTION_KNOWN_TENANTS".
Definition processorKnownTenantsFromEnv `{Genv : !Environment} : list string := knownTenants "PROCESSOR_KNOWN_TENANTS".

(** The ingestion service never starts open: whatever INGESTION_API_KEYS holds,
    a resolved key list is non-empty and has no empty key. *)
Theorem apiKeysFromEnv_closed `{Genv : !Environment} keys :
  apiKeysFromEnv = Ok keys → keys ≠ [] ∧ Forall (λ k, k ≠ "") keys.
Proof.
  unfold apiKeysFromEnv. case_bool_decide; [done|]. set (fields := Split _ _). clearbody fields.
  destruct (trimmedFields fields) as [|k l] eqn:E; [done|]. intros [= <-]. split; [done|].
  rewrite <-E. clear. induction fields as [|f fields IH]; cbn; [constructor|].
  case_bool_decide; [done|]. by constructor.
Qed.

Lemma apiKeysFromEnv_closed_witness :
  ["a"; "b c"] ≠ [] ∧ Forall (λ k, k ≠ "") ["a"; "b c"].
Proof.
  apply (apiKeysFromEnv_closed (Genv := λ _, " a,, b c ,")). vm_compute. reflexivity.
Defined.

(** A breaker configuration resolved from the environment holds values of the
    machine's types, so the breaker it builds starts within its invariant. *)
Theorem breakerConfig_typed `{Genv : !Environment} prefix c m :
  breakerConfig prefix = Ok c → New c = Ok m → machine_wf m.
Proof.
  unfold breakerConfig. intros (th & Hth & H)%result_bind_Ok.
  apply result_bind_Ok in H as (op & Hop & H). apply result_bind_Ok in H as (pr & Hpr & [= <-]).
  intros HN. eapply New_wf; [|exact HN]. split_and!; cbn.
  - apply override_Ok in Hth as [->|(raw & Hr)]; [unfold_ints; lia|].
    apply result_bind_Ok in Hr as (n & _ & [= <-]). apply uint32_range.
  - apply override_Ok in Hop as [->|(raw & Hr)]; [unfold_ints; vm_compute; intuition congruence|].
    apply wrap_err_Ok in Hr. by eapply ParseDuration_range.
  - apply override_Ok in Hpr as [->|(raw & Hr)]; [unfold_ints; vm_compute; intuition congruence|].
    apply wrap_err_Ok in Hr. by eapply ParseDuration_range.
Qed.

Lemma breakerConfig_typed_witness :
  machine_wf {| config := {| FailureThreshold := 5; OpenTimeout := 30 * Second; ProbeTimeout := 30 * Second |};
                state := Closed; consecutiveFailures := 0; openedAt := zeroTime |}.
Proof.
  apply (breakerConfig_typed (Genv := λ _, "") "PROCESSOR"
    {| FailureThreshold := 5; OpenTimeout := 30 * Second; ProbeTimeout := 30 * Second |});
    vm_compute; reflexivity.
Defined.

End Services.
