(* ===== verification/Ledger.v ===== *)
(** * Ledger domain model and repository ports (internal/ledger/ledger.go)

    The rows the processor keeps, and the two repository interfaces as the
    program sees them: calls that take a request and return a result.  Code
    written against the ports is a [prog], a tree of repository calls, so the
    same definition runs sequentially over an implementation ([run]) and call
    by call in an interleaving ([call]).  [RepositoryLaws] states what an
    implementation promises about the rows it keeps, faults included. *)
From S2P Require Import Prelude.

(** ** Domain types *)

(** uuid.UUID: the sixteen raw bytes. *)
Abbreviation UUID := string (only parsing).

Definition SideBuy : string := "BUY".
Definition SideSell : string := "SELL".

Record Transaction := {
  ID : Z;                (* int64 *)
  EventID : UUID;
  TenantID : string;
  SchemaVersion : Z;     (* int16 *)
  Instrument : string;
  Side : string;
  Quantity : Z;          (* int64, scaled *)
  Price : Z;             (* int64, scaled *)
  Currency : string;
  OccurredAt : Z;        (* nanoseconds *)
  ReceivedAt : Z
}.

Record ReconciledState := {
  rsTenantID : string;
  rsInstrument : string;
  Position : Z;          (* int64, scaled *)
  AverageCost : Z;       (* int64, scaled *)
  RealizedPnL : Z;       (* int64, scaled *)
  LastTransactionID : option Z;  (* *int64 *)
  UpdatedAt : Z
}.

#[global] Instance Transaction_eq_dec : EqDecision Transaction.
Proof. solve_decision. Defined.
#[global] Instance ReconciledState_eq_dec : EqDecision ReconciledState.
Proof. solve_decision. Defined.

(** ledger.ReconciledState{TenantID: t, Instrument: i} *)
Definition zeroState (tenant instrument : string) : ReconciledState :=
  {| rsTenantID := tenant; rsInstrument := instrument; Position := 0; AverageCost := 0;
     RealizedPnL := 0; LastTransactionID := None; UpdatedAt := 0 |}.

(** The (tenant, instrument) pair a row belongs to. *)
Abbreviation key := (string * string)%type (only parsing).
Definition txn_key (t : Transaction) : key := (TenantID t, Instrument t).
Definition state_key (st : ReconciledState) : key := (rsTenantID st, rsInstrument st).

(** ** The ports *)
Class TransactionRepository (W : Type) := {
  Insert : Transaction → W → result Transaction * W;
  GetByEventID : UUID → W → result Transaction * W;
  ListByTenant : string → Z → W → result (list Transaction) * W
}.

Class ReconciledStateRepository (W : Type) := {
  Upsert : ReconciledState → W → result unit * W;
  Get : string → string → W → result ReconciledState * W
}.

(** Programs over the ports. *)
Inductive prog (A : Type) : Type :=
  | Return (a : A)
  | CallInsert (txn : Transaction) (k : result Transaction → prog A)
  | CallGetByEventID (id : UUID) (k : result Transaction → prog A)
  | CallGet (tenant instrument : string) (k : result ReconciledState → prog A)
  | CallUpsert (st : ReconciledState) (k : result unit → prog A).
Arguments Return {A} a.
Arguments CallInsert {A} txn k.
Arguments CallGetByEventID {A} id k.
Arguments CallGet {A} tenant instrument k.
Arguments CallUpsert {A} st k.

(** Running a program over an implementation. *)
Fixpoint run {A W} `{!TransactionRepository W, !ReconciledStateRepository W}
    (p : prog A) (w : W) : A * W :=
  match p with
  | Return a => (a, w)
  | CallInsert txn k => let '(r, w) := Insert txn w in run (k r) w
  | CallGetByEventID id k => let '(r, w) := GetByEventID id w in run (k r) w
  | CallGet t i k => let '(r, w) := Get t i w in run (k r) w
  | CallUpsert st k => let '(r, w) := Upsert st w in run (k r) w
  end.

(** ** What the repositories promise

    The stored data: ledger rows in insertion order and one reconciled state
    per (tenant, instrument).  The promises are postconditions of each call; an
    error other than the documented sentinels may come before or after the
    statement took effect. *)
Record Database := {
  rows : list Transaction;
  states : gmap (string * string) ReconciledState
}.

(** The stored row carries the request's identity and trade. *)
Definition same_trade (t row : Transaction) : Prop :=
  EventID row = EventID t ∧ TenantID row = TenantID t ∧ Instrument row = Instrument t ∧
  Side row = Side t ∧ Quantity row = Quantity t ∧ Price row = Price t.

#[global] Instance same_trade_dec t t' : Decision (same_trade t t').
Proof. unfold same_trade. solve_decision. Defined.

Lemma same_trade_sym t t' : same_trade t t' → same_trade t' t.
Proof. intros (?&?&?&?&?&?). by split_and!. Qed.
Lemma same_trade_trans t1 t2 t3 : same_trade t1 t2 → same_trade t2 t3 → same_trade t1 t3.
Proof. intros (?&?&?&?&?&?) (?&?&?&?&?&?). split_and!; congruence. Qed.
Lemma same_trade_key t t' : same_trade t t' → txn_key t = txn_key t'.
Proof. intros (_ & H1 & H2 & _). unfold txn_key. congruence. Qed.
Lemma same_trade_event t t' : same_trade t t' → EventID t = EventID t'.
Proof. by intros (-> & _). Qed.

(** The watermark of a key. *)
Definition watermark (db : Database) (k : key) : option Z :=
  st ← states db !! k; LastTransactionID st.

(** A row with an id of its own; rows of overlapping INSERTs may be committed out of
    the order in which their ids were drawn. *)
Definition inserted (txn : Transaction) (db : Database) (row : Transaction) (db' : Database) : Prop :=
  same_trade txn row ∧
  Forall (λ r, EventID r ≠ EventID txn ∧ ID r ≠ ID row) (rows db) ∧
  db' = {| rows := rows db ++ [row]; states := states db |}.

(** Whether the conflict action's WHERE clause lets [st] replace the row. *)
Definition advances (st : ReconciledState) (db : Database) : bool :=
  match states db !! state_key st with
  | None => true
  | Some old =>
      match LastTransactionID old, LastTransactionID st with
      | None, _ => true
      | Some a, Some b => a <? b
      | Some _, None => false
      end
  end.

(** Equality of states up to the column the store stamps itself. *)
Definition state_equiv (s1 s2 : ReconciledState) : Prop :=
  rsTenantID s1 = rsTenantID s2 ∧ rsInstrument s1 = rsInstrument s2 ∧
  Position s1 = Position s2 ∧ AverageCost s1 = AverageCost s2 ∧
  RealizedPnL s1 = RealizedPnL s2 ∧ LastTransactionID s1 = LastTransactionID s2.

#[global] Instance state_equiv_equivalence : Equivalence state_equiv.
Proof.
  split; unfold state_equiv; [done|by intros x y (?&?&?&?&?&?)|].
  intros x y z (?&?&?&?&?&?) (?&?&?&?&?&?). split_and!; congruence.
Qed.

Definition upserted (st : ReconciledState) (db db' : Database) : Prop :=
  advances st db = true ∧
  ∃ st', state_equiv st st' ∧
    db' = {| rows := rows db; states := <[state_key st := st']> (states db) |}.

Definition insert_post (txn : Transaction) (db : Database) (r : result Transaction) (db' : Database) : Prop :=
  match r with
  | Ok row => inserted txn db row db'
  | Err e =>
      if errors_Is e ErrDuplicateEvent
      then db' = db ∧ Exists (λ row, EventID row = EventID txn) (rows db)
      else db' = db ∨ ∃ row, inserted txn db row db'
  end.

Definition get_by_event_post (id : UUID) (db : Database) (r : result Transaction) (db' : Database) : Prop :=
  db' = db ∧
  match r with
  | Ok row => row ∈ rows db ∧ EventID row = id
  | Err e => errors_Is e ErrNotFound = true → Forall (λ row, EventID row ≠ id) (rows db)
  end.

Definition get_post (k : key) (db : Database) (r : result ReconciledState) (db' : Database) : Prop :=
  db' = db ∧
  match r with
  | Ok st => states db !! k = Some st
  | Err e => errors_Is e ErrNotFound = true → states db !! k = None
  end.

Definition upsert_post (st : ReconciledState) (db : Database) (r : result unit) (db' : Database) : Prop :=
  match r with
  | Ok _ => upserted st db db'
  | Err e =>
      if errors_Is e ErrStaleReconciledState
      then db' = db ∧ advances st db = false
      else db' = db ∨ upserted st db db'
  end.

(** Rows added since [db] have ids above all of its. *)
Definition newer_ids (db db' : Database) : Prop :=
  Forall (λ row, row ∈ rows db ∨ Forall (λ r, ID r < ID row) (rows db)) (rows db').

Lemma newer_ids_refl db : newer_ids db db.
Proof. apply Forall_forall. auto. Qed.

(** The contract between the ports' users and their implementations.  [inv] is
    the implementation's own invariant, which every call keeps. *)
Class RepositoryLaws (W : Type) `{!TransactionRepository W, !ReconciledStateRepository W}
    (view : W → Database) (inv : W → Prop) := {
  Insert_law txn w : inv w →
    insert_post txn (view w) (Insert txn w).1 (view (Insert txn w).2) ∧ inv (Insert txn w).2;
  Insert_newer txn w : inv w → newer_ids (view w) (view (Insert txn w).2);
  GetByEventID_law id w : inv w →
    get_by_event_post id (view w) (GetByEventID id w).1 (view (GetByEventID id w).2) ∧
    inv (GetByEventID id w).2;
  ListByTenant_law tenant since w : inv w →
    view (ListByTenant tenant since w).2 = view w ∧ inv (ListByTenant tenant since w).2;
  Get_law t i w : inv w →
    get_post (t, i) (view w) (Get t i w).1 (view (Get t i w).2) ∧ inv (Get t i w).2;
  Upsert_law st w : inv w →
    upsert_post st (view w) (Upsert st w).1 (view (Upsert st w).2) ∧ inv (Upsert st w).2
}.

(** One call of a program against a database that keeps the contract. *)
Inductive call {A} : prog A → Database → prog A → Database → Prop :=
  | call_insert txn k db r db' :
      insert_post txn db r db' → call (CallInsert txn k) db (k r) db'
  | call_get_by_event id k db r db' :
      get_by_event_post id db r db' → call (CallGetByEventID id k) db (k r) db'
  | call_get t i k db r db' :
      get_post (t, i) db r db' → call (CallGet t i k) db (k r) db'
  | call_upsert st k db r db' :
      upsert_post st db r db' → call (CallUpsert st k) db (k r) db'.

(** A whole run against such a database. *)
Inductive exec {A} : prog A → Database → A → Database → Prop :=
  | exec_return a db : exec (Return a) db a db
  | exec_call p db p' db' a db'' :
      call p db p' db' → exec p' db' a db'' → exec p db a db''.

(** Every run over a lawful implementation is an execution of the contract:
    theorems about [exec] and [call] hold of any such implementation. *)
Lemma run_exec {A W} `{!TransactionRepository W, !ReconciledStateRepository W}
    (view : W → Database) (inv : W → Prop) `{!RepositoryLaws W view inv} (p : prog A) w :
  inv w → exec p (view w) (run p w).1 (view (run p w).2) ∧ inv (run p w).2.
Proof.
  revert w. induction p as [a|txn k IH|id k IH|t i k IH|st k IH]; intros w Hw; cbn.
  - split; [constructor|done].
  - destruct (Insert_law txn w Hw) as [H Hw']. destruct (Insert txn w) as [r w']. cbn in *.
    destruct (IH r w' Hw'). split; [|done]. by eapply exec_call; [constructor|].
  - destruct (GetByEventID_law id w Hw) as [H Hw']. destruct (GetByEventID id w) as [r w']. cbn in *.
    destruct (IH r w' Hw'). split; [|done]. by eapply exec_call; [constructor|].
  - destruct (Get_law t i w Hw) as [H Hw']. destruct (Get t i w) as [r w']. cbn in *.
    destruct (IH r w' Hw'). split; [|done]. by eapply exec_call; [constructor|].
  - destruct (Upsert_law st w Hw) as [H Hw']. destruct (Upsert st w) as [r w']. cbn in *.
    destruct (IH r w' Hw'). split; [|done]. by eapply exec_call; [constructor|].
Qed.

(** ** Shape of the stored data *)
Definition db_wf (db : Database) : Prop :=
  (NoDup (ID <$> rows db) ∧ NoDup (EventID <$> rows db)) ∧
  map_Forall (λ k st, state_key st = k) (states db).

Lemma inserted_wf txn db row db' : db_wf db → inserted txn db row db' → db_wf db'.
Proof.
  intros [[Hi He'] Hk] ((He&_) & Hall & ->). split; [|done]. cbn. rewrite Forall_forall in Hall.
  rewrite !fmap_app, !NoDup_app. split; (split; [done|]; split; [|apply NoDup_singleton]);
    intros x (r & -> & Hr)%list_elem_of_fmap Hx%list_elem_of_singleton; destruct (Hall r Hr); congruence.
Qed.

Lemma state_equiv_key s1 s2 : state_equiv s1 s2 → state_key s1 = state_key s2.
Proof. unfold state_key. intros (?&?&_). congruence. Qed.

Lemma upserted_wf st db db' : db_wf db → upserted st db db' → db_wf db'.
Proof.
  intros [Hs Hk] (_ & st' & He & ->). split; [done|]. cbn.
  apply map_Forall_insert_2; [|done]. by rewrite (state_equiv_key st st').
Qed.

(** Well-formedness is preserved by every repository call, successful,
    failed or ambiguous: ids and event ids stay unique, and each state row stays filed under its own key. *)
Lemma call_preserves_wf {A} (p p' : prog A) db db' :
  call p db p' db' → db_wf db → db_wf db'.
Proof.
  intros Hc Hwf. destruct Hc as [txn k db r db' H|id k db r db' H|t i k db r db' H|st k db r db' H].
  - destruct r as [row|e]; cbn in H; [by eapply inserted_wf|].
    destruct (errors_Is e _); [by destruct H as [-> _]|].
    destruct H as [->|[row H]]; [done|by eapply inserted_wf].
  - by destruct H as [-> _].
  - by destruct H as [-> _].
  - destruct r as [u|e]; cbn in H; [by eapply upserted_wf|].
    destruct (errors_Is e _); [by destruct H as [-> _]|].
    destruct H as [->|H]; [done|by eapply upserted_wf].
Qed.
