(* ===== verification/Storage.v ===== *)
(** * Postgres repositories (internal/ledger/storage)

    The two stores over a Postgres server modelled at the statements they issue:
    the tables of migrations 0001-0003 with their constraints, the BIGSERIAL
    sequence (a failed INSERT burns its value), the server clock, and a schedule
    that says when each statement runs and whether the connection is lost before
    or after it took effect.  pgx's parameter codec is a parameter, [Columns].
    The stores discharge the repository contract of Ledger.v. *)
From S2P Require Import Prelude GoStrings Ledger.

(** ** The server *)

(** What pgx reports: a server error with its SQLSTATE, an empty result of
    QueryRow, or a failure outside the server (network, context). *)
Inductive pgError :=
  | PgError (Code : string)
  | ErrNoRows
  | DriverError (msg : string).

Inductive outcome :=
  | Healthy
  | LostBefore (msg : string)   (* the statement never ran *)
  | LostAfter (msg : string).   (* it ran, its answer was lost *)

Record Postgres := {
  transactions : list Transaction;                        (* in insertion order *)
  reconciled_state : gmap (string * string) ReconciledState;
  transactions_id_seq : Z;                                (* next value *)
  schedule : list (Z * outcome);                          (* one entry per statement *)
  now : Z
}.

(** The column codec: what a row's parameters read back as, or an error. *)
Class Columns := {
  column : Transaction → option Transaction;
  column_state : ReconciledState → option ReconciledState;
  text : string → option string;
  timestamptz : Z → Z;
  order_by : list Transaction → list Transaction   (* ORDER BY occurred_at *)
}.

(** Documented behaviour of the column types: UUID, TEXT and BIGINT values read
    back as written, and ORDER BY sorts the selected rows. *)
Class ColumnLaws `{!Columns} : Prop := {
  column_trade t t' : column t = Some t' → same_trade t t';
  column_state_equiv st st' : column_state st = Some st' → state_equiv st st';
  text_id s s' : text s = Some s' → s' = s;
  order_by_perm l : order_by l ≡ₚ l;
  order_by_sorted l : StronglySorted (λ a b, OccurredAt a ≤ OccurredAt b) (order_by l)
}.

Definition set_tables (rs : list Transaction) (sts : gmap (string * string) ReconciledState)
    (seq : Z) (pg : Postgres) : Postgres :=
  {| transactions := rs; reconciled_state := sts; transactions_id_seq := seq;
     schedule := schedule pg; now := now pg |}.

(** The next statement's instant and fate. *)
Definition tick (pg : Postgres) : outcome * Postgres :=
  match schedule pg with
  | [] => (Healthy, pg)
  | (t, o) :: rest =>
      (o, {| transactions := transactions pg; reconciled_state := reconciled_state pg;
             transactions_id_seq := transactions_id_seq pg; schedule := rest; now := t |})
  end.

(** One autocommitted statement: [body] is its effect on the server. *)
Definition statement {A} (body : Postgres → (pgError + A) * Postgres) (pg : Postgres)
    : (pgError + A) * Postgres :=
  let '(o, pg) := tick pg in
  match o with
  | Healthy => body pg
  | LostBefore msg => (inl (DriverError msg), pg)
  | LostAfter msg => (inl (DriverError msg), (body pg).2)
  end.

Section storage.
Context `{Ccols : !Columns}.

(** CHECK (side IN ('BUY','SELL')), CHECK (quantity > 0), CHECK (price > 0). *)
Definition checks (t : Transaction) : bool :=
  (bool_decide (Side t = SideBuy) || bool_decide (Side t = SideSell)) &&
  (0 <? Quantity t) && (0 <? Price t).

Definition with_id (t : Transaction) (id received : Z) : Transaction :=
  {| ID := id; EventID := EventID t; TenantID := TenantID t; SchemaVersion := SchemaVersion t;
     Instrument := Instrument t; Side := Side t; Quantity := Quantity t; Price := Price t;
     Currency := Currency t; OccurredAt := OccurredAt t; ReceivedAt := received |}.

(** INSERT INTO transactions ... RETURNING ... *)
Definition sql_insert (txn : Transaction) (pg : Postgres) : (pgError + Transaction) * Postgres :=
  match column txn with
  | None => (inl (PgError "22000"), pg)
  | Some t =>
      let id := transactions_id_seq pg in
      if MaxInt64 <? id then (inl (PgError "2200H"), pg)
      else
        let burned := set_tables (transactions pg) (reconciled_state pg) (id + 1) pg in
        let row := with_id t id (now pg) in
        if negb (checks row) then (inl (PgError "23514"), burned)
        else if existsb (λ r, bool_decide (ID r = id) || bool_decide (EventID r = EventID row))
                  (transactions pg)
        then (inl (PgError "23505"), burned)
        else (inr row, set_tables (transactions pg ++ [row]) (reconciled_state pg) (id + 1) pg)
  end.

(** SELECT ... WHERE event_id = $1 *)
Definition sql_select_event (id : UUID) (pg : Postgres) : (pgError + Transaction) * Postgres :=
  match List.find (λ r, bool_decide (EventID r = id)) (transactions pg) with
  | Some row => (inr row, pg)
  | None => (inl ErrNoRows, pg)
  end.

(** SELECT ... WHERE tenant_id = $1 AND occurred_at >= $2 ORDER BY occurred_at *)
Definition sql_select_tenant (tenant : string) (since : Z) (pg : Postgres)
    : (pgError + list Transaction) * Postgres :=
  match text tenant with
  | None => (inl (PgError "22021"), pg)
  | Some tenant =>
      (inr (order_by (base.filter (λ r, TenantID r = tenant ∧ timestamptz since ≤ OccurredAt r)
                        (transactions pg))), pg)
  end.

(** The conflict action's WHERE clause; SQL's NULL < x and x < NULL are not true. *)
Definition sql_advances (old new : ReconciledState) : bool :=
  match LastTransactionID old with
  | None => true
  | Some a => match LastTransactionID new with None => false | Some b => a <? b end
  end.

(** INSERT INTO reconciled_state ... ON CONFLICT DO UPDATE ... WHERE: rows affected. *)
Definition sql_upsert (st : ReconciledState) (pg : Postgres) : (pgError + Z) * Postgres :=
  match column_state st with
  | None => (inl (PgError "22000"), pg)
  | Some st =>
      let st := {| rsTenantID := rsTenantID st; rsInstrument := rsInstrument st;
                   Position := Position st; AverageCost := AverageCost st;
                   RealizedPnL := RealizedPnL st; LastTransactionID := LastTransactionID st;
                   UpdatedAt := now pg |} in
      let write := set_tables (transactions pg) (<[state_key st := st]> (reconciled_state pg))
                     (transactions_id_seq pg) pg in
      let references := match LastTransactionID st with
                        | None => true
                        | Some id => existsb (λ r, bool_decide (ID r = id)) (transactions pg)
                        end in
      let commit := if references then (inr 1, write) else (inl (PgError "23503"), pg) in
      match reconciled_state pg !! state_key st with
      | None => commit
      | Some old => if sql_advances old st then commit else (inr 0, pg)
      end
  end.

(** SELECT ... FROM reconciled_state WHERE tenant_id = $1 AND instrument = $2 *)
Definition sql_select_state (tenant instrument : string) (pg : Postgres)
    : (pgError + ReconciledState) * Postgres :=
  match text tenant, text instrument with
  | Some t, Some i =>
      match reconciled_state pg !! (t, i) with
      | Some st => (inr st, pg)
      | None => (inl ErrNoRows, pg)
      end
  | _, _ => (inl (PgError "22021"), pg)
  end.

(** ** The stores *)

(** A pgx error as a Go error value: none is one of the program's sentinels. *)
Definition pg_error (e : pgError) : error :=
  match e with
  | PgError code => Errorf code
  | ErrNoRows => Errorf "no rows in result set"
  | DriverError msg => Errorf msg
  end.

Definition pgUniqueViolation : string := "23505".

Definition TransactionStore_Insert (txn : Transaction) (pg : Postgres) : result Transaction * Postgres :=
  let '(r, pg) := statement (sql_insert txn) pg in
  match r with
  | inr inserted => (Ok inserted, pg)
  | inl (PgError code) =>
      if bool_decide (code = pgUniqueViolation) then (Err (Sentinel ErrDuplicateEvent), pg)
      else (Err (Wrapf "insert transaction: %w" (pg_error (PgError code))), pg)
  | inl e => (Err (Wrapf "insert transaction: %w" (pg_error e)), pg)
  end.

Definition TransactionStore_GetByEventID (id : UUID) (pg : Postgres) : result Transaction * Postgres :=
  let '(r, pg) := statement (sql_select_event id) pg in
  match r with
  | inr txn => (Ok txn, pg)
  | inl ErrNoRows => (Err (Sentinel ErrNotFound), pg)
  | inl e => (Err (Wrapf "get transaction by event id: %w" (pg_error e)), pg)
  end.

Definition TransactionStore_ListByTenant (tenant : string) (since : Z) (pg : Postgres)
    : result (list Transaction) * Postgres :=
  let '(r, pg) := statement (sql_select_tenant tenant since) pg in
  match r with
  | inr txns => (Ok txns, pg)
  | inl e => (Err (Wrapf "list transactions by tenant: %w" (pg_error e)), pg)
  end.

Definition ReconciledStateStore_Upsert (st : ReconciledState) (pg : Postgres) : result unit * Postgres :=
  let '(r, pg) := statement (sql_upsert st) pg in
  match r with
  | inl e => (Err (Wrapf "upsert reconciled state: %w" (pg_error e)), pg)
  | inr affected =>
      if affected =? 0 then (Err (Sentinel ErrStaleReconciledState), pg) else (Ok tt, pg)
  end.

Definition ReconciledStateStore_Get (tenant instrument : string) (pg : Postgres)
    : result ReconciledState * Postgres :=
  let '(r, pg) := statement (sql_select_state tenant instrument) pg in
  match r with
  | inr st => (Ok st, pg)
  | inl ErrNoRows => (Err (Sentinel ErrNotFound), pg)
  | inl e => (Err (Wrapf "get reconciled state: %w" (pg_error e)), pg)
  end.

#[global] Instance TransactionStore : TransactionRepository Postgres := {|
  Insert := TransactionStore_Insert;
  GetByEventID := TransactionStore_GetByEventID;
  ListByTenant := TransactionStore_ListByTenant |}.

#[global] Instance ReconciledStateStore : ReconciledStateRepository Postgres := {|
  Upsert := ReconciledStateStore_Upsert;
  Get := ReconciledStateStore_Get |}.

(** ** The stores keep the contract *)
Definition tables (pg : Postgres) : Database :=
  {| rows := transactions pg; states := reconciled_state pg |}.

(** The sequence is ahead of every stored id, and the stored rows are what the
    constraints let in. *)
Definition pg_inv (pg : Postgres) : Prop :=
  db_wf (tables pg) ∧
  Forall (λ r, ID r < transactions_id_seq pg ∧ checks r = true) (transactions pg).

Context `{Claws : !ColumnLaws}.

Lemma tick_spec pg : pg_inv pg → tables (tick pg).2 = tables pg ∧ pg_inv (tick pg).2.
Proof. unfold tick. by destruct (schedule pg) as [|[t o] rest]. Qed.

(** To show [P] of a statement's answer, show it of the body's and of a lost
    connection on either side of it. *)
Lemma statement_ind {A} (body : Postgres → (pgError + A) * Postgres)
    (P : pgError + A → Postgres → Prop) pg :
  pg_inv pg →
  (∀ pg', tables pg' = tables pg → pg_inv pg' →
    P (body pg').1 (body pg').2 ∧
    ∀ msg, P (inl (DriverError msg)) pg' ∧ P (inl (DriverError msg)) (body pg').2) →
  P (statement body pg).1 (statement body pg).2.
Proof.
  intros Hi H. destruct (tick_spec pg Hi) as [Ht Hi']. specialize (H _ Ht Hi').
  unfold statement. destruct (tick pg) as [[|msg|msg] pg']; cbn in *.
  - apply H.
  - apply H.
  - apply H.
Qed.

Lemma existsb_false_Forall {A} (f : A → bool) l : existsb f l = false ↔ Forall (λ x, f x = false) l.
Proof.
  induction l as [|x l IH]; cbn; [done|]. rewrite orb_false_iff, IH, Forall_cons. done.
Qed.

(** What the INSERT statement does. *)
Lemma sql_insert_spec txn pg : pg_inv pg →
  let r := (sql_insert txn pg).1 in
  let pg' := (sql_insert txn pg).2 in
  pg_inv pg' ∧
  match r with
  | inr row => inserted txn (tables pg) row (tables pg')
  | inl e => tables pg' = tables pg ∧
      (e = PgError pgUniqueViolation → Exists (λ row, EventID row = EventID txn) (transactions pg)) ∧
      ∃ code, e = PgError code
  end.
Proof.
  intros [Hwf Hids]. unfold sql_insert. destruct (column txn) as [t|] eqn:Hc; [|cbn; split_and!; try done; by eexists].
  apply column_trade in Hc.
  assert (pg_inv (set_tables (transactions pg) (reconciled_state pg) (transactions_id_seq pg + 1) pg)) as Hb.
  { split; [done|]. eapply Forall_impl; [exact Hids|]. cbn. intros x [? ?]. split; [lia|done]. }
  destruct (MaxInt64 <? transactions_id_seq pg) eqn:Hmax; [cbn; split_and!; try done; by eexists|].
  destruct (checks _) eqn:Hck; cbn [negb]; [|cbn; split_and!; try done; by eexists].
  destruct (existsb _ _) eqn:Hex; cbn.
  - split; [done|]. split; [done|]. split; [|by eauto]. intros _.
    apply existsb_exists in Hex as (r & Hr & Hor). apply Exists_exists. exists r.
    split; [by apply list_elem_of_In|]. destruct Hc as (He&_).
    apply orb_true_iff in Hor as [H|H]; bool_props; cbn in *; [|congruence].
    rewrite Forall_forall in Hids. apply list_elem_of_In in Hr. apply Hids in Hr. lia.
  - apply existsb_false_Forall in Hex.
    assert (inserted txn (tables pg) (with_id t (transactions_id_seq pg) (now pg))
      (tables (set_tables (transactions pg ++ [with_id t (transactions_id_seq pg) (now pg)])
         (reconciled_state pg) (transactions_id_seq pg + 1) pg))) as Hins.
    { destruct Hc as (?&?&?&?&?&?). split; [done|]. split; [|done].
      apply Forall_forall. intros r Hr. rewrite Forall_forall in Hex, Hids.
      specialize (Hex r Hr). specialize (Hids r Hr). bool_props. cbn in *. split; [congruence|lia]. }
    split; [|done]. split; [by eapply inserted_wf|].
    apply Forall_app. split; [|by repeat constructor; cbn; [lia|]].
    eapply Forall_impl; [exact Hids|]. cbn. intros x [? ?]. split; [lia|done].
Qed.

Lemma sql_advances_advances st db old :
  states db !! state_key st = Some old → sql_advances old st = advances st db.
Proof. intros H. unfold sql_advances, advances. rewrite H. by repeat case_match. Qed.

Lemma state_equiv_advances st st' db : state_equiv st st' → advances st db = advances st' db.
Proof.
  intros (Ht&Hi&_&_&_&Hl). unfold advances, state_key. by rewrite Ht, Hi, Hl.
Qed.

(** What the conditional upsert does. *)
Lemma sql_upsert_spec st pg : pg_inv pg →
  let r := (sql_upsert st pg).1 in
  let pg' := (sql_upsert st pg).2 in
  pg_inv pg' ∧
  match r with
  | inr n => if n =? 0 then tables pg' = tables pg ∧ advances st (tables pg) = false
             else upserted st (tables pg) (tables pg')
  | inl e => tables pg' = tables pg
  end.
Proof.
  intros [Hwf Hids]. unfold sql_upsert. destruct (column_state st) as [st1|] eqn:Hc; [|done].
  apply column_state_equiv in Hc. set (st2 := {| UpdatedAt := now pg |}).
  assert (state_equiv st st2) as He by (subst st2; destruct Hc as (?&?&?&?&?&?); done).
  assert (∀ references : bool, advances st2 (tables pg) = true →
    let commit := if references
      then (inr 1, set_tables (transactions pg) (<[state_key st2:=st2]> (reconciled_state pg))
              (transactions_id_seq pg) pg)
      else (inl (PgError "23503"), pg) in
    pg_inv commit.2 ∧ match commit.1 with
    | inr n => if n =? 0 then tables commit.2 = tables pg ∧ advances st (tables pg) = false
               else upserted st (tables pg) (tables commit.2)
    | inl e => tables commit.2 = tables pg
    end) as Hcommit.
  { intros [] Ha; [|done]. cbn.
    assert (upserted st (tables pg) (tables (set_tables (transactions pg)
      (<[state_key st2:=st2]> (reconciled_state pg)) (transactions_id_seq pg) pg))) as Hu.
    { split; [by rewrite (state_equiv_advances st st2)|].
      exists st2. split; [done|]. by rewrite (state_equiv_key st st2). }
    split; [|done]. split; [by eapply upserted_wf|done]. }
  destruct (reconciled_state pg !! state_key st2) as [old|] eqn:Hl.
  - rewrite (sql_advances_advances st2 (tables pg) old Hl).
    destruct (advances st2 (tables pg)) eqn:Ha; [by apply Hcommit|].
    cbn. split; [done|]. split; [done|]. by rewrite (state_equiv_advances st st2).
  - apply Hcommit. unfold advances. cbn. by rewrite Hl.
Qed.

Lemma sql_select_event_spec id pg :
  (sql_select_event id pg).2 = pg ∧
  match (sql_select_event id pg).1 with
  | inr row => row ∈ transactions pg ∧ EventID row = id
  | inl e => e = ErrNoRows ∧ Forall (λ row, EventID row ≠ id) (transactions pg)
  end.
Proof.
  unfold sql_select_event. destruct (List.find _ _) as [row|] eqn:E; cbn.
  - apply find_some in E as [Hin ?]. bool_props. by rewrite list_elem_of_In.
  - split_and!; [done..|]. apply Forall_forall. intros row Hin%list_elem_of_In.
    apply (find_none _ _ E) in Hin. by bool_props.
Qed.

Lemma sql_select_state_spec t i pg :
  (sql_select_state t i pg).2 = pg ∧
  match (sql_select_state t i pg).1 with
  | inr st => reconciled_state pg !! (t, i) = Some st
  | inl e => e = ErrNoRows → reconciled_state pg !! (t, i) = None
  end.
Proof.
  unfold sql_select_state. destruct (text t) as [t'|] eqn:Ht; [|done].
  destruct (text i) as [i'|] eqn:Hi; [|done].
  apply text_id in Ht as ->. apply text_id in Hi as ->. by destruct (_ !! _) eqn:E.
Qed.

(** Sentinels come from the stores' own branches only. *)
Lemma pg_error_Is e s : errors_Is (pg_error e) s = false.
Proof. by destruct e. Qed.

(** What the stores see of the two writing statements, losses included. *)
Definition insert_answer (txn : Transaction) (db : Database) (r : pgError + Transaction) (db' : Database) : Prop :=
  match r with
  | inr row => inserted txn db row db'
  | inl (PgError code) => db' = db ∧
      (code = pgUniqueViolation → Exists (λ row, EventID row = EventID txn) (rows db))
  | inl ErrNoRows => False
  | inl (DriverError _) => db' = db ∨ ∃ row, inserted txn db row db'
  end.

Definition upsert_answer (st : ReconciledState) (db : Database) (r : pgError + Z) (db' : Database) : Prop :=
  match r with
  | inr n => if n =? 0 then db' = db ∧ advances st db = false else upserted st db db'
  | inl _ => db' = db ∨ upserted st db db'
  end.

Lemma insert_statement txn pg : pg_inv pg →
  let '(r, pg') := statement (sql_insert txn) pg in
  pg_inv pg' ∧ insert_answer txn (tables pg) r (tables pg').
Proof.
  intros Hi. rewrite (surjective_pairing (statement _ _)).
  apply (statement_ind _ (λ r pg', pg_inv pg' ∧ insert_answer txn (tables pg) r (tables pg'))); [done|].
  intros pg' Ht Hi'. destruct (sql_insert_spec txn pg' Hi') as [Hi'' H].
  rewrite <-Ht.
  destruct (sql_insert txn pg') as [[e|row] pg'']; cbn in *.
  - destruct H as (Hsame & Hdup & code & ->). split; [|intros msg; split; by eauto].
    split_and!; [done..|]. intros ->. by apply Hdup.
  - split; [done|]. intros msg. split; eauto 6.
Qed.

Lemma upsert_statement st pg : pg_inv pg →
  let '(r, pg') := statement (sql_upsert st) pg in
  pg_inv pg' ∧ upsert_answer st (tables pg) r (tables pg').
Proof.
  intros Hi. rewrite (surjective_pairing (statement _ _)).
  apply (statement_ind _ (λ r pg', pg_inv pg' ∧ upsert_answer st (tables pg) r (tables pg'))); [done|].
  intros pg' Ht Hi'. destruct (sql_upsert_spec st pg' Hi') as [Hi'' H]. rewrite <-Ht.
  destruct (sql_upsert st pg') as [[e|n] pg'']; cbn in *; [split; [by auto|intros msg; split; by auto]|].
  split; [done|]. intros msg. split; [by eauto|]. split; [done|].
  destruct (n =? 0); [left; by destruct H|by right].
Qed.

Lemma read_statement {A} (body : Postgres → (pgError + A) * Postgres) (P : pgError + A → Database → Prop) pg :
  pg_inv pg → (∀ pg, (body pg).2 = pg ∧ P (body pg).1 (tables pg)) →
  (∀ msg, P (inl (DriverError msg)) (tables pg)) →
  let '(r, pg') := statement body pg in
  pg_inv pg' ∧ tables pg' = tables pg ∧ P r (tables pg).
Proof.
  intros Hi Hb Hm. rewrite (surjective_pairing (statement _ _)).
  apply (statement_ind _ (λ r pg', pg_inv pg' ∧ tables pg' = tables pg ∧ P r (tables pg))); [done|].
  intros pg' Ht Hi'. destruct (Hb pg') as [-> H]. rewrite Ht in *.
  split; [done|]. intros msg. by split.
Qed.

Definition healthy (pg : Postgres) : Prop := Forall (λ s, s.2 = Healthy) (schedule pg).

Lemma statement_healthy {A} (body : Postgres → (pgError + A) * Postgres) pg :
  healthy pg → ∃ pg', tables pg' = tables pg ∧ transactions_id_seq pg' = transactions_id_seq pg ∧
    healthy pg' ∧ statement body pg = body pg'.
Proof.
  unfold healthy, statement, tick. intros H. destruct (schedule pg) as [|[t o] rest] eqn:E.
  - exists pg. by rewrite E.
  - apply Forall_cons in H as [Ho H]. cbn in Ho. subst o.
    by exists {| transactions := transactions pg; reconciled_state := reconciled_state pg;
             transactions_id_seq := transactions_id_seq pg; schedule := rest; now := t |}.
Qed.

(** An INSERT whose parameters and CHECKs are accepted and whose event id is
    taken fails with a unique violation. *)
Lemma sql_insert_duplicate txn pg :
  is_Some (column txn) → checks txn = true → transactions_id_seq pg ≤ MaxInt64 →
  Exists (λ r, EventID r = EventID txn) (transactions pg) →
  ∃ pg', sql_insert txn pg = (inl (PgError pgUniqueViolation), pg') ∧ tables pg' = tables pg.
Proof.
  intros [t Ht] Hck Hmax Hex. unfold sql_insert. rewrite Ht.
  apply column_trade in Ht as (He&_&_&Hs&Hq&Hp).
  destruct (Z.ltb_spec MaxInt64 (transactions_id_seq pg)); [lia|].
  assert (checks (with_id t (transactions_id_seq pg) (now pg)) = true) as ->.
  { unfold checks. cbn. rewrite Hs, Hq, Hp. exact Hck. }
  replace (existsb _ _) with true; [by eexists|]. symmetry. apply existsb_exists.
  apply Exists_exists in Hex as (r & Hr & E). exists r. split; [by apply list_elem_of_In|].
  apply orb_true_iff. right. apply bool_decide_eq_true. cbn. congruence.
Qed.

Lemma sql_insert_Ok txn pg row pg' : sql_insert txn pg = (inr row, pg') →
  schedule pg' = schedule pg ∧ transactions pg' = transactions pg ++ [row] ∧
  Forall (λ r, EventID r ≠ EventID row) (transactions pg) ∧ EventID row = EventID txn.
Proof.
  unfold sql_insert. intros H. destruct (column txn) as [t|] eqn:Hc; [|done].
  apply column_trade in Hc as (He & _).
  destruct (_ <? _); [done|]. destruct (negb _); [done|].
  destruct (existsb _ _) eqn:Hex; [done|]. simplify_eq/=. split_and!; [done..| |done].
  apply existsb_false_Forall in Hex. eapply Forall_impl; [exact Hex|]. cbn. intros r Hr. by bool_props.
Qed.

Lemma find_last {A} (f : A → bool) l x :
  Forall (λ y, f y = false) l → f x = true → List.find f (l ++ [x]) = Some x.
Proof. induction 1 as [|y l Hy _ IH]; intros Hx; cbn; [by rewrite Hx|]. rewrite Hy. auto. Qed.

(** Round trip and idempotency key: once an insert has succeeded, and while
    the server answers, GetByEventID returns exactly the row Insert returned and
    inserting any transaction with the same event id is refused as a duplicate,
    leaving the tables as they were. *)
Theorem insert_then_lookup txn txn' pg row pg' :
  pg_inv pg → healthy pg → TransactionStore_Insert txn pg = (Ok row, pg') →
  EventID txn' = EventID txn → is_Some (column txn') → checks txn' = true →
  transactions_id_seq pg' ≤ MaxInt64 →
  (TransactionStore_GetByEventID (EventID txn) pg').1 = Ok row ∧
  (TransactionStore_Insert txn' pg').1 = Err (Sentinel ErrDuplicateEvent) ∧
  tables (TransactionStore_Insert txn' pg').2 = tables pg'.
Proof.
  intros Hi Hh Hins Hev Hcol Hck Hmax.
  destruct (statement_healthy (sql_insert txn) pg Hh) as (pg1 & Ht1 & _ & Hh1 & Hst).
  unfold TransactionStore_Insert in Hins. rewrite Hst in Hins.
  destruct (sql_insert txn pg1) as [[[code| |msg]|row'] pg1'] eqn:Hsql;
    [by case_bool_decide|done|done|]. injection Hins as -> ->.
  apply sql_insert_Ok in Hsql as (Hsch & Hrows & Hfresh & He).
  assert (healthy pg') as Hh' by (unfold healthy; by rewrite Hsch).
  split.
  - destruct (statement_healthy (sql_select_event (EventID txn)) pg' Hh') as (pg2 & Ht2 & _ & _ & Hst2).
    unfold TransactionStore_GetByEventID. rewrite Hst2. unfold sql_select_event.
    injection Ht2 as -> _. rewrite Hrows, find_last; [done| |by apply bool_decide_eq_true].
    eapply Forall_impl; [exact Hfresh|]. cbn. intros r ?. apply bool_decide_eq_false. by rewrite <-He.
  - destruct (statement_healthy (sql_insert txn') pg' Hh') as (pg2 & Ht2 & Hseq & _ & Hst2).
    destruct (sql_insert_duplicate txn' pg2 Hcol Hck) as (pg3 & E & Ht3); [lia| |].
    { injection Ht2 as -> _. rewrite Hrows. apply Exists_app. right. constructor. congruence. }
    unfold TransactionStore_Insert. rewrite Hst2, E. cbn. split; [done|by etrans].
Qed.

(** The id of a stored row comes from the sequence. *)
Lemma sql_insert_newer txn pg : pg_inv pg → newer_ids (tables pg) (tables (sql_insert txn pg).2).
Proof.
  intros [_ Hids]. unfold sql_insert. destruct (column txn) as [t|]; [|apply newer_ids_refl].
  destruct (MaxInt64 <? _); [apply newer_ids_refl|]. destruct (negb _); [apply newer_ids_refl|].
  destruct (existsb _ _); [apply newer_ids_refl|]. apply Forall_app. split; [apply newer_ids_refl|].
  apply Forall_singleton. right. eapply Forall_impl; [exact Hids|]. by intros r [? _].
Qed.

Lemma Insert_sequence txn pg : pg_inv pg → newer_ids (tables pg) (tables (TransactionStore_Insert txn pg).2).
Proof.
  intros Hi. assert (newer_ids (tables pg) (tables (statement (sql_insert txn) pg).2)) as H.
  { apply (statement_ind (sql_insert txn) (λ _ pg', newer_ids (tables pg) (tables pg')) pg Hi). intros pg' Ht Hi'. rewrite <-Ht.
    pose proof (sql_insert_newer txn pg' Hi'). split; [done|]. split; [apply newer_ids_refl|done]. }
  unfold TransactionStore_Insert. destruct (statement _ _) as [[[code| |msg]|row] pg']; cbn in *; [by case_bool_decide|done..].
Qed.

Lemma postgres_laws : RepositoryLaws Postgres tables pg_inv.
Proof.
  split; cbn.
  - intros txn pg Hi. pose proof (insert_statement txn pg Hi) as H.
    unfold TransactionStore_Insert. destruct (statement _ _) as [[[code| |msg]|row] pg']; cbn;
      [|by destruct H|naive_solver|naive_solver].
    destruct H as (?&?&Hdup). case_bool_decide; cbn; [|by auto]. split; [split; [done|by apply Hdup]|done].
  - intros txn pg Hi. by apply Insert_sequence.
  - intros id pg Hi.
    pose proof (read_statement (sql_select_event id) (λ r db, match r with
      | inr row => row ∈ rows db ∧ EventID row = id
      | inl e => e = ErrNoRows → Forall (λ row, EventID row ≠ id) (rows db) end) pg Hi) as H.
    unfold TransactionStore_GetByEventID. ospecialize (H _ _); [|done|].
    { intros pg0. destruct (sql_select_event_spec id pg0) as [-> H0]. split; [done|].
      destruct (sql_select_event id pg0) as [[e|row] ?]; [|done]. intros _. apply H0. }
    destruct (statement _ _) as [[[code| |msg]|row] pg']; cbn in *; destruct H as (?&Ht&?); rewrite Ht;
      (split; [split; [done|by cbn; auto]|done]).
  - intros tenant since pg Hi.
    pose proof (read_statement (sql_select_tenant tenant since) (λ _ _, True) pg Hi) as H.
    unfold TransactionStore_ListByTenant. ospecialize (H _ _); [|done|].
    { intros pg0. unfold sql_select_tenant. by destruct (text tenant). }
    destruct (statement _ _) as [[e|l] pg']; cbn; by destruct H as (?&?&_).
  - intros t i pg Hi.
    pose proof (read_statement (sql_select_state t i) (λ r db, match r with
      | inr st => states db !! (t, i) = Some st
      | inl e => e = ErrNoRows → states db !! (t, i) = None end) pg Hi) as H.
    unfold ReconciledStateStore_Get. ospecialize (H _ _); [|done|].
    { intros pg0. destruct (sql_select_state_spec t i pg0) as [-> H0]. split; [done|].
      by destruct (sql_select_state t i pg0) as [[e|st] ?]. }
    destruct (statement _ _) as [[[code| |msg]|st] pg']; cbn in *; destruct H as (?&Ht&?); rewrite Ht;
      (split; [split; [done|by cbn; auto]|done]).
  - intros st pg Hi. pose proof (upsert_statement st pg Hi) as H.
    unfold ReconciledStateStore_Upsert.
    destruct (statement _ _) as [[e|n] pg'], H as [? H]; cbn in *; [by rewrite pg_error_Is|].
    by destruct (n =? 0).
Qed.

(** C12. The Postgres stores keep the repository contract, under any schedule of
    connection losses: an insert appends exactly one row with a fresh, larger id
    or reports a duplicate that is really stored; the conditional upsert advances
    the watermark or reports staleness; reads change nothing and answer from the
    tables; a lost connection leaves the statement either fully applied or not
    applied.  The id sequence stays ahead of every stored row throughout. *)
Theorem storage_laws : RepositoryLaws Postgres tables pg_inv.
Proof. apply postgres_laws. Qed.

(** ListByTenant returns exactly the tenant's stored rows from [since] on,
    each once, in order of OccurredAt, whenever the server answers and accepts the
    tenant id. *)
Theorem ListByTenant_complete tenant since pg l pg' :
  TransactionStore_ListByTenant tenant since pg = (Ok l, pg') →
  l ≡ₚ base.filter (λ r, TenantID r = tenant ∧ timestamptz since ≤ OccurredAt r) (transactions pg) ∧
  StronglySorted (λ a b, OccurredAt a ≤ OccurredAt b) l.
Proof.
  unfold TransactionStore_ListByTenant, statement. destruct (tick pg) as [o pg1] eqn:Htick.
  assert (transactions pg1 = transactions pg) as <-.
  { revert Htick. unfold tick. by destruct (schedule pg) as [|[??] ?]; intros [= <- <-]. }
  destruct o; [|done|done]. unfold sql_select_tenant. destruct (text tenant) as [t|] eqn:Ht; [|done].
  apply text_id in Ht as ->. intros [= <- <-]. split; [apply order_by_perm|apply order_by_sorted].
Qed.

End storage.

(** ** A concrete codec: values read back as written. *)
#[local] Instance occurred_le_dec (a b : Transaction) : Decision (OccurredAt a ≤ OccurredAt b).
Proof. apply _. Defined.

Definition plainColumns : Columns := {|
  column := Some; column_state := Some; text := Some; timestamptz := id;
  order_by := merge_sort (λ a b, OccurredAt a ≤ OccurredAt b) |}.

#[local] Existing Instance plainColumns.

Lemma plainColumnLaws : ColumnLaws.
Proof.
  split; cbn.
  - by intros t t' [= <-].
  - by intros st st' [= <-].
  - by intros s s' [= <-].
  - intros l. apply merge_sort_Permutation.
  - intros l. assert (Transitive (λ a b, OccurredAt a ≤ OccurredAt b)) by (intros a b c; lia).
    assert (Total (λ a b, OccurredAt a ≤ OccurredAt b)) by (intros a b; lia).
    apply (StronglySorted_merge_sort _).
Qed.

Definition emptyPostgres : Postgres :=
  {| transactions := []; reconciled_state := ∅; transactions_id_seq := 1; schedule := []; now := 0 |}.

Definition sampleTrade (event : string) (side : string) (quantity price : Z) : Transaction :=
  {| ID := 0; EventID := event; TenantID := "acme"; SchemaVersion := 1; Instrument := "AAPL";
     Side := side; Quantity := quantity; Price := price; Currency := "USD"; OccurredAt := 7;
     ReceivedAt := 0 |}.

Lemma emptyPostgres_inv : pg_inv emptyPostgres.
Proof. split; [split; [split; constructor|apply map_Forall_empty]|constructor]. Qed.

Lemma storage_laws_witness : RepositoryLaws Postgres tables pg_inv.
Proof. exact (storage_laws (Claws := plainColumnLaws)). Defined.

(** The server after one insert. *)
Definition onePostgres : Postgres := (TransactionStore_Insert (sampleTrade "e1" SideBuy 5 7) emptyPostgres).2.

Lemma insert_then_lookup_witness :
  (TransactionStore_GetByEventID "e1" onePostgres).1 = Ok (with_id (sampleTrade "e1" SideBuy 5 7) 1 0) ∧
  (TransactionStore_Insert (sampleTrade "e1" SideSell 1 1) onePostgres).1 = Err (Sentinel ErrDuplicateEvent) ∧
  tables (TransactionStore_Insert (sampleTrade "e1" SideSell 1 1) onePostgres).2 = tables onePostgres.
Proof.
  refine (insert_then_lookup (Claws := plainColumnLaws) (sampleTrade "e1" SideBuy 5 7)
    (sampleTrade "e1" SideSell 1 1) emptyPostgres _ _ emptyPostgres_inv _ _ _ _ _ _).
  - constructor.
  - reflexivity.
  - reflexivity.
  - by eexists.
  - reflexivity.
  - vm_compute. congruence.
Defined.

Lemma ListByTenant_complete_witness : ∃ l,
  (TransactionStore_ListByTenant "acme" 3 onePostgres).1 = Ok l ∧
  l ≡ₚ [with_id (sampleTrade "e1" SideBuy 5 7) 1 0].
Proof.
  eexists. split; [reflexivity|].
  refine (proj1 (ListByTenant_complete (Claws := plainColumnLaws) "acme" 3 onePostgres _ onePostgres _)).
  reflexivity.
Defined.
