(* ===== verification/LedgerBreaker.v ===== *)
(** * Repository circuit breakers (internal/ledger/breaker.go)

    TransactionRepositoryBreaker and ReconciledStateRepositoryBreaker: decorators
    that put a [CoreBreaker.Machine] in front of each repository.  The world of
    the decorated repositories is the wrapped world, the two machines and the
    readings their clock will give.  A probe's deadline reaches the wrapped
    repository through its context; what it does there is one of the wrapped
    world's own failures. *)
From S2P Require Import Prelude CoreBreaker Ledger Storage.

Definition ignoredForBreaker (err : error) (sentinels : list sentinel) : bool :=
  existsb (errors_Is err) sentinels.

(** recordResult: an ignored error is reported to the machine as nil. *)
Definition recordResult {A} (now : Z) (r : result A) (ignored : list sentinel) (m : Machine) : Machine :=
  match r with
  | Ok _ => RecordOutcome now false m
  | Err err =>
      if ignoredForBreaker err ignored then RecordOutcome now false m
      else RecordOutcome now true m
  end.

Record Guarded (W : Type) := {
  next : W;
  transactionMachine : Machine;
  stateMachine : Machine;
  readings : list Z          (* what machine.now() will return *)
}.
Arguments next {W} _.
Arguments transactionMachine {W} _.
Arguments stateMachine {W} _.
Arguments readings {W} _.
Arguments Build_Guarded {W} _ _ _ _.

(** The constructors: refuse a nil repository and an invalid config. *)
Definition NewTransactionRepositoryBreaker {W} (next : option W) (config : Config) : result (W * Machine) :=
  match next with
  | None => Err (Errorf "new transaction repository breaker: next TransactionRepository must not be nil")
  | Some w => m ← wrap_err "new transaction repository breaker: %w" (New config); Ok (w, m)
  end.

Definition NewReconciledStateRepositoryBreaker {W} (next : option W) (config : Config) : result (W * Machine) :=
  match next with
  | None => Err (Errorf "new reconciled state repository breaker: next ReconciledStateRepository must not be nil")
  | Some w => m ← wrap_err "new reconciled state repository breaker: %w" (New config); Ok (w, m)
  end.

(** A clock reading; the clock stands still when the readings run out. *)
Definition reading (l : list Z) : Z := hd 0 l.

(** The body the five methods share: Allow, the wrapped call, recordResult.
    [at1] and [at2] are the readings at Allow and at Record. *)
Definition protect {W A} (ignored : list sentinel) (call : W → result A * W) (at1 at2 : Z)
    (m : Machine) (w : W) : result A * Machine * W :=
  let '(allowed, _, m) := Allow at1 m in
  if negb allowed then (Err (Sentinel ErrOpen), m, w)
  else
    let '(r, w) := call w in
    (r, recordResult at2 r ignored m, w).

Section breakers.
Context {W : Type} `{!TransactionRepository W, !ReconciledStateRepository W}.

(** A method of the transaction breaker, of the state breaker. *)
Definition on_transactions {A} (ignored : list sentinel) (call : W → result A * W) (g : Guarded W)
    : result A * Guarded W :=
  let '(r, m, w) := protect ignored call (reading (readings g)) (reading (tl (readings g)))
                      (transactionMachine g) (next g) in
  (r, Build_Guarded w m (stateMachine g) (tl (tl (readings g)))).

Definition on_states {A} (ignored : list sentinel) (call : W → result A * W) (g : Guarded W)
    : result A * Guarded W :=
  let '(r, m, w) := protect ignored call (reading (readings g)) (reading (tl (readings g)))
                      (stateMachine g) (next g) in
  (r, Build_Guarded w (transactionMachine g) m (tl (tl (readings g)))).

Definition Breaker_Insert (txn : Transaction) : Guarded W → result Transaction * Guarded W :=
  on_transactions [ErrDuplicateEvent] (Insert txn).
Definition Breaker_GetByEventID (id : UUID) : Guarded W → result Transaction * Guarded W :=
  on_transactions [ErrNotFound] (GetByEventID id).
Definition Breaker_ListByTenant (tenant : string) (since : Z)
    : Guarded W → result (list Transaction) * Guarded W :=
  on_transactions [] (ListByTenant tenant since).
Definition Breaker_Upsert (st : ReconciledState) : Guarded W → result unit * Guarded W :=
  on_states [ErrStaleReconciledState] (Upsert st).
Definition Breaker_Get (tenant instrument : string) : Guarded W → result ReconciledState * Guarded W :=
  on_states [ErrNotFound] (Get tenant instrument).

#[global] Instance TransactionRepositoryBreaker : TransactionRepository (Guarded W) := {|
  Insert := Breaker_Insert; GetByEventID := Breaker_GetByEventID;
  ListByTenant := Breaker_ListByTenant |}.
#[global] Instance ReconciledStateRepositoryBreaker : ReconciledStateRepository (Guarded W) := {|
  Upsert := Breaker_Upsert; Get := Breaker_Get |}.

(** ** Refusals *)

Lemma recordResult_wf {A} t (r : result A) ignored m :
  machine_wf m → machine_wf (recordResult t r ignored m).
Proof. intros H. unfold recordResult. repeat case_match; by apply RecordOutcome_wf. Qed.

Definition refuses (now : Z) (m : Machine) : bool := negb (Allow now m).1.1.

Lemma protect_spec {A} ignored (call : W → result A * W) at1 at2 m w :
  let '(r, m', w') := protect ignored call at1 at2 m w in
  (machine_wf m → machine_wf m') ∧
  if refuses at1 m then r = Err (Sentinel ErrOpen) ∧ w' = w
  else (r, w') = call w.
Proof.
  unfold protect, refuses. pose proof (Allow_wf at1 m) as Hwf.
  destruct (Allow at1 m) as [[allowed p] m1]. cbn in *. destruct allowed; cbn.
  - destruct (call w) as [r w']. split; [|done]. intros H. apply recordResult_wf. by apply Hwf.
  - split; [|done]. intros H. by apply Hwf.
Qed.

(** ** The contract carries over *)
Section laws.
Context (view : W → Database) (inv : W → Prop) `{Hlaws : !RepositoryLaws W view inv}.

Definition guarded_view (g : Guarded W) : Database := view (next g).
Definition guarded_inv (g : Guarded W) : Prop :=
  inv (next g) ∧ machine_wf (transactionMachine g) ∧ machine_wf (stateMachine g).

(** A method keeps a postcondition that the wrapped call has and that a refusal,
    which leaves the data alone, has too. *)
Lemma on_transactions_law {A} (P : Database → result A → Database → Prop) ignored call g :
  (∀ w, inv w → P (view w) (call w).1 (view (call w).2) ∧ inv (call w).2) →
  (∀ db, P db (Err (Sentinel ErrOpen)) db) →
  guarded_inv g →
  P (guarded_view g) (on_transactions ignored call g).1 (guarded_view (on_transactions ignored call g).2) ∧
  guarded_inv (on_transactions ignored call g).2.
Proof.
  intros Hc Ho (Hi & Hm1 & Hm2). unfold on_transactions, guarded_view, guarded_inv.
  pose proof (protect_spec ignored call (reading (readings g)) (reading (tl (readings g)))
    (transactionMachine g) (next g)) as Hs.
  destruct (protect _ _ _ _ _ _) as [[r m'] w']. destruct Hs as [Hm Hs]. cbn.
  destruct (refuses _ _).
  - destruct Hs as [-> ->]. auto.
  - destruct (Hc (next g) Hi). rewrite <-Hs in *. auto.
Qed.

Lemma on_states_law {A} (P : Database → result A → Database → Prop) ignored call g :
  (∀ w, inv w → P (view w) (call w).1 (view (call w).2) ∧ inv (call w).2) →
  (∀ db, P db (Err (Sentinel ErrOpen)) db) →
  guarded_inv g →
  P (guarded_view g) (on_states ignored call g).1 (guarded_view (on_states ignored call g).2) ∧
  guarded_inv (on_states ignored call g).2.
Proof.
  intros Hc Ho (Hi & Hm1 & Hm2). unfold on_states, guarded_view, guarded_inv.
  pose proof (protect_spec ignored call (reading (readings g)) (reading (tl (readings g)))
    (stateMachine g) (next g)) as Hs.
  destruct (protect _ _ _ _ _ _) as [[r m'] w']. destruct Hs as [Hm Hs]. cbn.
  destruct (refuses _ _).
  - destruct Hs as [-> ->]. auto.
  - destruct (Hc (next g) Hi). rewrite <-Hs in *. auto.
Qed.

Lemma guarded_laws : RepositoryLaws (Guarded W) guarded_view guarded_inv.
Proof.
  split.
  - intros txn g. apply (on_transactions_law (insert_post txn)); [apply Insert_law|by left].
  - intros txn g Hg. apply (on_transactions_law (λ db _ db', newer_ids db db')); [|apply newer_ids_refl|done].
    intros w Hw. split; [by apply Insert_newer|exact (proj2 (Insert_law txn w Hw))].
  - intros id g. apply (on_transactions_law (get_by_event_post id)); [apply GetByEventID_law|done].
  - intros tenant since g. apply (on_transactions_law (λ db _ db', db' = db)); [|done].
    apply ListByTenant_law.
  - intros t i g. apply (on_states_law (get_post (t, i))); [apply Get_law|done].
  - intros st g. apply (on_states_law (upsert_post st)); [apply Upsert_law|by left].
Qed.

(** C13. A breaker drops in wherever a repository is expected: decorating lawful
    repositories yields lawful repositories over the same data, in every state of
    the two machines and whatever the clock reads, and the machines' invariants
    are kept. *)
Theorem breaker_laws : RepositoryLaws (Guarded W) guarded_view guarded_inv.
Proof. apply guarded_laws. Qed.
End laws.

(** ** Transparency over a calm repository *)

(** The run of [p] over the bare repositories meets no error but the ones a
    breaker is told to expect. *)
Definition expected {A} (ignored : list sentinel) (r : result A) : bool :=
  match r with Ok _ => true | Err e => ignoredForBreaker e ignored end.

Fixpoint calm {A} (p : prog A) (w : W) : bool :=
  match p with
  | Return _ => true
  | CallInsert txn k =>
      expected [ErrDuplicateEvent] (Insert txn w).1 && calm (k (Insert txn w).1) (Insert txn w).2
  | CallGetByEventID id k =>
      expected [ErrNotFound] (GetByEventID id w).1 && calm (k (GetByEventID id w).1) (GetByEventID id w).2
  | CallGet t i k => expected [ErrNotFound] (Get t i w).1 && calm (k (Get t i w).1) (Get t i w).2
  | CallUpsert st k =>
      expected [ErrStaleReconciledState] (Upsert st w).1 && calm (k (Upsert st w).1) (Upsert st w).2
  end.

Definition closed (g : Guarded W) : Prop :=
  state (transactionMachine g) = Closed ∧ state (stateMachine g) = Closed.

Lemma protect_calm {A} ignored (call : W → result A * W) at1 at2 m w :
  state m = Closed → expected ignored (call w).1 = true →
  ∃ m', state m' = Closed ∧ protect ignored call at1 at2 m w = ((call w).1, m', (call w).2).
Proof.
  intros Hs He. unfold protect, Allow. rewrite Hs. cbn. destruct (call w) as [r w']. cbn in *.
  eexists. split; [|done]. unfold recordResult, RecordOutcome, expected in *. rewrite Hs.
  destruct r; [done|]. by rewrite He.
Qed.

Lemma on_transactions_calm {A} ignored (call : W → result A * W) g :
  closed g → expected ignored (call (next g)).1 = true →
  ∃ g', closed g' ∧ next g' = (call (next g)).2 ∧ on_transactions ignored call g = ((call (next g)).1, g').
Proof.
  intros [H1 H2] He. unfold on_transactions.
  edestruct (protect_calm ignored call) as (m' & Hm & ->); [done..|].
  by exists (Build_Guarded (call (next g)).2 m' (stateMachine g) (tl (tl (readings g)))).
Qed.

Lemma on_states_calm {A} ignored (call : W → result A * W) g :
  closed g → expected ignored (call (next g)).1 = true →
  ∃ g', closed g' ∧ next g' = (call (next g)).2 ∧ on_states ignored call g = ((call (next g)).1, g').
Proof.
  intros [H1 H2] He. unfold on_states.
  edestruct (protect_calm ignored call) as (m' & Hm & ->); [done..|].
  by exists (Build_Guarded (call (next g)).2 (transactionMachine g) m' (tl (tl (readings g)))).
Qed.

(** C14. Business outcomes never trip a breaker: any program whose calls meet only
    successes, duplicates, missing rows and lost compare-and-swaps runs over the
    closed breakers exactly as over the bare repositories, same answers and same
    data, and leaves both machines closed. *)
Theorem breaker_transparent {A} (p : prog A) (g : Guarded W) :
  closed g → calm p (next g) = true →
  (run p g).1 = (run p (next g)).1 ∧ next (run p g).2 = (run p (next g)).2 ∧ closed (run p g).2.
Proof.
  revert g. induction p as [a|txn k IH|id k IH|t i k IH|st k IH]; intros g Hc Hcalm; [done|..];
    cbn in Hcalm; apply andb_true_iff in Hcalm as [He Hcalm].
  - destruct (on_transactions_calm _ (Insert txn) g Hc He) as (g' & Hc' & Hn & E).
    cbn. unfold Breaker_Insert. rewrite E. destruct (Insert txn (next g)) as [r w]. cbn in *. subst w. auto.
  - destruct (on_transactions_calm _ (GetByEventID id) g Hc He) as (g' & Hc' & Hn & E).
    cbn. unfold Breaker_GetByEventID. rewrite E. destruct (GetByEventID id (next g)) as [r w].
    cbn in *. subst w. auto.
  - destruct (on_states_calm _ (Get t i) g Hc He) as (g' & Hc' & Hn & E).
    cbn. unfold Breaker_Get. rewrite E. destruct (Get t i (next g)) as [r w]. cbn in *. subst w. auto.
  - destruct (on_states_calm _ (Upsert st) g Hc He) as (g' & Hc' & Hn & E).
    cbn. unfold Breaker_Upsert. rewrite E. destruct (Upsert st (next g)) as [r w]. cbn in *. subst w. auto.
Qed.
End breakers.

(** ** Over the Postgres stores *)
#[local] Existing Instance plainColumns.

Definition guardedPostgres (pg : Postgres) : Guarded Postgres :=
  Build_Guarded pg sampleMachine sampleMachine [].

Lemma breaker_laws_witness :
  RepositoryLaws (Guarded Postgres) (guarded_view tables) (guarded_inv pg_inv).
Proof. exact (breaker_laws tables pg_inv (Hlaws := postgres_laws (Claws := plainColumnLaws))). Defined.

Definition insertTwice : prog (result Transaction) :=
  CallInsert (sampleTrade "e1" SideBuy 5 7) (λ _,
  CallInsert (sampleTrade "e1" SideBuy 5 7) (λ r, Return r)).

Lemma breaker_transparent_witness :
  (run insertTwice (guardedPostgres emptyPostgres)).1 = Err (Sentinel ErrDuplicateEvent) ∧
  closed (run insertTwice (guardedPostgres emptyPostgres)).2.
Proof.
  destruct (breaker_transparent insertTwice (guardedPostgres emptyPostgres)) as (H1 & _ & H3).
  - split; reflexivity.
  - vm_compute. reflexivity.
  - split; [rewrite H1; vm_compute; reflexivity|exact H3].
Defined.
