(* ===== verification/Processor.v ===== *)
(** * Reconciler (internal/processor/processor.go)

    Weighted-average-cost accounting in int64 arithmetic with Go's wrap-around,
    and Reconcile as a program over the repository ports.  The first group of
    theorems is about the accounting; the second about Reconcile: what a nil
    return means, what it does over Postgres, and that no interleaving of
    concurrent calls with any faults ever applies a ledger row twice. *)
From S2P Require Import Prelude Amount CoreBreaker Ledger Storage LedgerBreaker.

(** ** Accounting *)

Definition with_position (st : ReconciledState) (position averageCost realized : Z) : ReconciledState :=
  {| rsTenantID := rsTenantID st; rsInstrument := rsInstrument st; Position := position;
     AverageCost := averageCost; RealizedPnL := realized;
     LastTransactionID := LastTransactionID st; UpdatedAt := UpdatedAt st |}.

Definition with_watermark (st : ReconciledState) (id : Z) : ReconciledState :=
  {| rsTenantID := rsTenantID st; rsInstrument := rsInstrument st; Position := Position st;
     AverageCost := AverageCost st; RealizedPnL := RealizedPnL st;
     LastTransactionID := Some id; UpdatedAt := UpdatedAt st |}.

Definition applyTrade (st : ReconciledState) (signedQuantity price : Z) : result ReconciledState :=
  let sameDirection := (Position st =? 0) || Bool.eqb (0 <? Position st) (0 <? signedQuantity) in
  if sameDirection then
    existingCost ← wrap_err "compute existing cost basis: %w" (MulAmount (Position st) (AverageCost st));
    addedCost ← wrap_err "compute trade cost: %w" (MulAmount signedQuantity price);
    let newPosition := int64 (Position st + signedQuantity) in
    averageCost ← wrap_err "compute new average cost: %w"
      (DivAmount (int64 (existingCost + addedCost)) newPosition);
    Ok (with_position st newPosition averageCost (RealizedPnL st))
  else
    let positionMagnitude := if Position st <? 0 then int64 (- Position st) else Position st in
    let quantityMagnitude := if signedQuantity <? 0 then int64 (- signedQuantity) else signedQuantity in
    let closingQuantity :=
      if positionMagnitude <? quantityMagnitude then positionMagnitude else quantityMagnitude in
    let pnlPerUnit := if 0 <? Position st then int64 (price - AverageCost st)
                      else int64 (AverageCost st - price) in
    realized ← wrap_err "compute realized pnl: %w" (MulAmount closingQuantity pnlPerUnit);
    let realizedPnL := int64 (RealizedPnL st + realized) in
    let flipQuantity := int64 (quantityMagnitude - closingQuantity) in
    let position := int64 (Position st + signedQuantity) in
    let averageCost := if position =? 0 then 0
                       else if 0 <? flipQuantity then price else AverageCost st in
    Ok (with_position st position averageCost realizedPnL).

Definition applyBuy (st : ReconciledState) (txn : Transaction) : result ReconciledState :=
  applyTrade st (Quantity txn) (Price txn).

Definition applySell (st : ReconciledState) (txn : Transaction) : result ReconciledState :=
  applyTrade st (int64 (- Quantity txn)) (Price txn).

Definition applyTransaction (st : ReconciledState) (txn : Transaction) : result ReconciledState :=
  st ← (if bool_decide (Side txn = SideBuy) then applyBuy st txn
        else if bool_decide (Side txn = SideSell) then applySell st txn
        else Err (Errorf "unknown transaction side %q"));
  Ok (with_watermark st (ID txn)).

(** ** Reconcile, split at its repository calls *)

(** After Upsert. *)
Definition finishUpsert (r : result unit) : prog (result unit) :=
  match r with
  | Ok _ => Return (Ok tt)
  | Err err =>
      if errors_Is err ErrStaleReconciledState then Return (Ok tt)
      else Return (Err (Wrapf "reconcile: upsert reconciled state: %w" err))
  end.

(** From the state onwards. *)
Definition foldInto (inserted : Transaction) (st : ReconciledState) : prog (result unit) :=
  let applied := match LastTransactionID st with
                 | Some id => ID inserted <=? id
                 | None => false
                 end in
  if applied then Return (Ok tt)
  else
    match applyTransaction st inserted with
    | Err err => Return (Err (Wrapf "reconcile: apply transaction %s: %w" err))
    | Ok updated => CallUpsert updated finishUpsert
    end.

(** After States.Get. *)
Definition afterGet (inserted : Transaction) (r : result ReconciledState) : prog (result unit) :=
  match r with
  | Ok st => foldInto inserted st
  | Err err =>
      if negb (errors_Is err ErrNotFound)
      then Return (Err (Wrapf "reconcile: get reconciled state: %w" err))
      else foldInto inserted (zeroState (TenantID inserted) (Instrument inserted))
  end.

(** From the ledger row onwards. *)
Definition withRow (inserted : Transaction) : prog (result unit) :=
  CallGet (TenantID inserted) (Instrument inserted) (afterGet inserted).

(** After GetByEventID. *)
Definition afterDuplicate (r : result Transaction) : prog (result unit) :=
  match r with
  | Ok inserted => withRow inserted
  | Err err => Return (Err (Wrapf "reconcile: get duplicate transaction: %w" err))
  end.

(** After Insert. *)
Definition afterInsert (txn : Transaction) (r : result Transaction) : prog (result unit) :=
  match r with
  | Ok inserted => withRow inserted
  | Err err =>
      if negb (errors_Is err ErrDuplicateEvent)
      then Return (Err (Wrapf "reconcile: insert transaction: %w" err))
      else CallGetByEventID (EventID txn) afterDuplicate
  end.

Definition Reconcile (txn : Transaction) : prog (result unit) :=
  CallInsert txn (afterInsert txn).

(** ** The accounting, against a reference over unbounded integers *)

(** Weighted-average-cost accounting by the position's sign, no machine widths. *)
Definition trade (st : ReconciledState) (q p : Z) : ReconciledState :=
  let P := Position st in
  let A := AverageCost st in
  if 0 <=? P * q
  then with_position st (P + q)
         (Z.quot ((Z.quot (P * A) AmountScale + Z.quot (q * p) AmountScale) * AmountScale) (P + q))
         (RealizedPnL st)
  else with_position st (P + q)
         (if Z.abs q <? Z.abs P then A else if Z.abs q =? Z.abs P then 0 else p)
         (RealizedPnL st + Z.quot (Z.min (Z.abs P) (Z.abs q) * (Z.sgn P * (p - A))) AmountScale).

(** The values one trade goes through are representable. *)
Definition trade_fits (st : ReconciledState) (q p : Z) : Prop :=
  Z.abs (Position st) ≤ MaxInt64 ∧ Z.abs q ≤ MaxInt64 ∧ in_int64 (Position st + q) ∧
  in_int64 (RealizedPnL (trade st q p)) ∧ in_int64 (AverageCost (trade st q p)) ∧
  if 0 <=? Position st * q
  then in_int64 (Z.quot (Position st * AverageCost st) AmountScale) ∧
       in_int64 (Z.quot (q * p) AmountScale) ∧
       in_int64 (Z.quot (Position st * AverageCost st) AmountScale + Z.quot (q * p) AmountScale)
  else in_int64 (p - AverageCost st) ∧ in_int64 (AverageCost st - p) ∧
       in_int64 (Z.quot (Z.min (Z.abs (Position st)) (Z.abs q) *
                         (Z.sgn (Position st) * (p - AverageCost st))) AmountScale).

Lemma MulAmount_Ok a b : in_int64 (Z.quot (a * b) AmountScale) →
  MulAmount a b = Ok (Z.quot (a * b) AmountScale).
Proof. intros H. unfold MulAmount. apply is_int64b_spec in H. by rewrite H. Qed.

Lemma DivAmount_Ok a b : b ≠ 0 → in_int64 (Z.quot (a * AmountScale) b) →
  DivAmount a b = Ok (Z.quot (a * AmountScale) b).
Proof.
  intros Hb H. unfold DivAmount. apply is_int64b_spec in H. rewrite H.
  by destruct (Z.eqb_spec b 0).
Qed.

Lemma sameDirection_spec P q : q ≠ 0 →
  (P =? 0) || Bool.eqb (0 <? P) (0 <? q) = (0 <=? P * q).
Proof.
  intros. destruct (Z.eqb_spec P 0), (Z.ltb_spec 0 P), (Z.ltb_spec 0 q),
    (Z.leb_spec 0 (P * q)); cbn; try done; nia.
Qed.

Lemma applyTrade_trade st q p :
  q ≠ 0 → trade_fits st q p → applyTrade st q p = Ok (trade st q p).
Proof.
  intros Hq (HP & Hqb & Hsum & HR & HA & Hfit). unfold applyTrade. rewrite sameDirection_spec by done.
  revert HR HA Hfit. unfold trade. set (P := Position st) in *. set (A := AverageCost st) in *.
  destruct (Z.leb_spec 0 (P * q)) as [Hd|Hd]; cbn -[Z.quot Z.mul]; intros HR HA Hfit.
  - destruct Hfit as (Hex & Hadd & Htot). rewrite !MulAmount_Ok by done.
    cbn -[Z.quot Z.mul int64]. rewrite !int64_id by done.
    rewrite DivAmount_Ok; [done|nia|done].
  - destruct Hfit as (Hd1 & Hd2 & Hreal).
    assert ((if P <? 0 then int64 (- P) else P) = Z.abs P) as ->.
    { destruct (Z.ltb_spec P 0); [rewrite int64_id by (unfold_ints; lia)|]; lia. }
    assert ((if q <? 0 then int64 (- q) else q) = Z.abs q) as ->.
    { destruct (Z.ltb_spec q 0); [rewrite int64_id by (unfold_ints; lia)|]; lia. }
    assert ((if Z.abs P <? Z.abs q then Z.abs P else Z.abs q) = Z.min (Z.abs P) (Z.abs q)) as ->.
    { destruct (Z.ltb_spec (Z.abs P) (Z.abs q)); lia. }
    assert ((if 0 <? P then int64 (p - A) else int64 (A - p)) = Z.sgn P * (p - A)) as ->.
    { destruct (Z.ltb_spec 0 P); rewrite int64_id by done; nia. }
    rewrite MulAmount_Ok by done. cbn -[Z.quot Z.mul int64].
    rewrite (int64_id (P + q)), (int64_id (RealizedPnL st + _)), (int64_id (Z.abs q - _))
      by (done || (unfold_ints; lia)). do 2 f_equal.
    destruct (Z.eqb_spec (P + q) 0), (Z.ltb_spec (Z.abs q) (Z.abs P)),
      (Z.eqb_spec (Z.abs q) (Z.abs P)), (Z.ltb_spec 0 (Z.abs q - Z.min (Z.abs P) (Z.abs q)));
      done || nia.
Qed.

(** C16. applyTrade computes the reference accounting: whenever the values the
    trade goes through fit in int64, the wrap-around arithmetic returns exactly
    the unbounded weighted-average-cost update, for extending, reducing, closing
    and flipping trades on either side. *)
Theorem applyTrade_reference st q p :
  q ≠ 0 → trade_fits st q p → applyTrade st q p = Ok (trade st q p).
Proof. apply applyTrade_trade. Qed.

(** ** What a trade does to each field *)

Lemma applyTrade_fields st q p st' : applyTrade st q p = Ok st' →
  rsTenantID st' = rsTenantID st ∧ rsInstrument st' = rsInstrument st ∧
  Position st' = int64 (Position st + q) ∧ LastTransactionID st' = LastTransactionID st.
Proof.
  unfold applyTrade. intros H. destruct (_ || _).
  - apply result_bind_Ok in H as (? & _ & H). apply result_bind_Ok in H as (? & _ & H).
    apply result_bind_Ok in H as (? & _ & [= <-]). done.
  - apply result_bind_Ok in H as (? & _ & [= <-]). done.
Qed.

(** A transaction's effect on the position. *)
Definition signedQuantity (txn : Transaction) : Z :=
  if bool_decide (Side txn = SideBuy) then Quantity txn else - Quantity txn.

Lemma applyTransaction_Ok st txn st' : applyTransaction st txn = Ok st' →
  (Side txn = SideBuy ∨ Side txn = SideSell) ∧
  state_key st' = state_key st ∧
  Position st' = int64 (Position st + signedQuantity txn) ∧
  LastTransactionID st' = Some (ID txn).
Proof.
  unfold applyTransaction, signedQuantity, applyBuy, applySell, state_key.
  intros (st1 & H & [= <-])%result_bind_Ok. cbn.
  case_bool_decide; [|case_bool_decide; [|done]];
    apply applyTrade_fields in H as (-> & -> & -> & _); split_and!; auto.
  int_lia.
Qed.

(** applyTransaction sees a state only up to [state_equiv]. *)
Definition result_equiv (r1 r2 : result ReconciledState) : Prop :=
  match r1, r2 with
  | Ok s1, Ok s2 => state_equiv s1 s2
  | Err e1, Err e2 => e1 = e2
  | _, _ => False
  end.

Lemma result_equiv_bind {A} (r : result A) (f g : A → result ReconciledState) :
  (∀ a, result_equiv (f a) (g a)) → result_equiv (r ≫= f) (r ≫= g).
Proof. intros H. destruct r; cbn; [apply H|done]. Qed.

#[global] Instance applyTrade_proper : Proper (state_equiv ==> eq ==> eq ==> result_equiv) applyTrade.
Proof.
  intros s1 s2 (Ht & Hi & HP & HA & HR & HL) q ? <- p ? <-. unfold applyTrade.
  rewrite HP, HA, HR. destruct (_ || _).
  - do 3 (apply result_equiv_bind; intros ?). by cbn.
  - apply result_equiv_bind; intros ?. by cbn.
Qed.

#[global] Instance applyTransaction_proper :
  Proper (state_equiv ==> eq ==> result_equiv) applyTransaction.
Proof.
  intros s1 s2 He txn ? <-. unfold applyTransaction, applyBuy, applySell.
  assert (∀ q p, result_equiv (applyTrade s1 q p) (applyTrade s2 q p)) as Hp.
  { intros q p. by apply applyTrade_proper. }
  assert (∀ r1 r2, result_equiv r1 r2 →
    result_equiv (r1 ≫= λ st, Ok (with_watermark st (ID txn))) (r2 ≫= λ st, Ok (with_watermark st (ID txn))))
    as Hb.
  { intros [s|e] [s'|e'] H; cbn in *; try done. destruct H as (?&?&?&?&?&?). done. }
  apply Hb. by repeat case_bool_decide.
Qed.

(** Folding ledger rows into a state, stopping at the first error. *)
Fixpoint replay (st : ReconciledState) (rows : list Transaction) : result ReconciledState :=
  match rows with
  | [] => Ok st
  | row :: rows => st ← applyTransaction st row; replay st rows
  end.

Lemma replay_app st l1 l2 : replay st (l1 ++ l2) = replay st l1 ≫= λ st, replay st l2.
Proof.
  revert st. induction l1 as [|row l1 IH]; intros st; cbn; [done|].
  destruct (applyTransaction st row); cbn; auto.
Qed.

Lemma replay_snoc_Ok st l row st' :
  replay st (l ++ [row]) = Ok st' ↔ ∃ st1, replay st l = Ok st1 ∧ applyTransaction st1 row = Ok st'.
Proof.
  rewrite replay_app, result_bind_Ok. split.
  - intros (st1 & H1 & H2). cbn in H2. apply result_bind_Ok in H2 as (? & H2 & [= <-]). eauto.
  - intros (st1 & H1 & H2). exists st1. cbn. by rewrite H2.
Qed.

Definition volume (l : list Transaction) : Z := foldr (λ t z, Quantity t + z) 0 l.
Definition net (l : list Transaction) : Z := foldr (λ t z, signedQuantity t + z) 0 l.

Lemma net_snoc l row : net (l ++ [row]) = net l + signedQuantity row.
Proof. unfold net. induction l as [|x l IH]; cbn; lia. Qed.

Lemma signedQuantity_abs t : Z.abs (signedQuantity t) = Z.abs (Quantity t).
Proof. unfold signedQuantity. case_bool_decide; lia. Qed.

Lemma net_volume l : Forall (λ t, 0 < Quantity t) l → Z.abs (net l) ≤ volume l.
Proof.
  unfold volume, net. induction 1 as [|x l Hx _ IH]; [done|]. cbn.
  pose proof (signedQuantity_abs x). lia.
Qed.

Lemma replay_net tenant instrument l st :
  Forall (λ t, 0 < Quantity t) l → volume l ≤ MaxInt64 →
  replay (zeroState tenant instrument) l = Ok st →
  Position st = net l ∧ state_key st = (tenant, instrument) ∧ LastTransactionID st = ID <$> last l.
Proof.
  revert st. induction l as [|row l IH] using rev_ind; intros st Hq Hv; [by intros [= <-]|].
  intros (st1 & H1 & H2)%replay_snoc_Ok. apply Forall_app in Hq as [Hq Hrow].
  rewrite Forall_singleton in Hrow.
  assert (volume (l ++ [row]) = volume l + Quantity row) as Hva.
  { clear. unfold volume. induction l as [|x l IH]; cbn in *; lia. }
  destruct (IH st1 Hq ltac:(lia) H1) as (HP & Hk & _).
  apply applyTransaction_Ok in H2 as (_ & Hk' & HP' & HL).
  split_and!; [|congruence|by rewrite last_snoc].
  rewrite HP', HP, net_snoc. apply int64_id. pose proof (net_volume l Hq).
  pose proof (signedQuantity_abs row). unfold_ints. lia.
Qed.

(** C17. Conservation: replaying any ledger rows whose total volume fits in int64
    leaves a position of exactly buys minus sells, under the last row's id; no
    intermediate wrap-around survives, and the state stays under its key. *)
Theorem replay_position tenant instrument l st :
  Forall (λ t, 0 < Quantity t) l → volume l ≤ MaxInt64 →
  replay (zeroState tenant instrument) l = Ok st →
  Position st = net l ∧ state_key st = (tenant, instrument) ∧ LastTransactionID st = ID <$> last l.
Proof. apply replay_net. Qed.

Definition sampleRow (id : Z) (event side : string) (quantity price : Z) : Transaction :=
  with_id (sampleTrade event side quantity price) id 0.

Lemma replay_position_witness : ∃ st,
  replay (zeroState "acme" "AAPL")
    [sampleRow 1 "e1" SideBuy 500 10000000000; sampleRow 2 "e2" SideSell 800 20000000000] = Ok st ∧
  Position st = -300.
Proof.
  eexists. split; [vm_compute; reflexivity|].
  eapply (replay_position "acme" "AAPL" [sampleRow 1 "e1" SideBuy 500 10000000000;
    sampleRow 2 "e2" SideSell 800 20000000000]).
  - repeat constructor.
  - vm_compute. congruence.
  - vm_compute. reflexivity.
Defined.

(** The volume bound is needed: ten buys of the largest quantity the API
    accepts, each applied without an error, wrap the stored position of 10^19
    around to a negative one. *)
Theorem MaxAmount_buys_wrap :
  ∃ st, replay (zeroState "acme" "AAPL") (repeat (sampleRow 1 "e" SideBuy MaxAmount 1) 10) = Ok st ∧
    net (repeat (sampleRow 1 "e" SideBuy MaxAmount 1) 10) = 10 * MaxAmount ∧
    Position st = -8446744073709551616.
Proof. eexists. split; [vm_compute; reflexivity|]. split; vm_compute; reflexivity. Qed.

(** The stored average never overstates the cost basis, and understates it by
    less than two scaled units of cost plus one unit of price: for a buy that
    opens or extends a long, (position + q) * average' is at most
    position * average + q * price, and short of it by less than
    2 * AmountScale + (position + q). *)
Theorem extending_average_bounds st q p st' :
  0 ≤ Position st → 0 ≤ AverageCost st → 0 < q → 0 ≤ p →
  trade_fits st q p → applyTrade st q p = Ok st' →
  let cost := Position st * AverageCost st + q * p in
  cost - 2 * AmountScale - (Position st + q) < (Position st + q) * AverageCost st' ≤ cost.
Proof.
  intros HP HA Hq Hp Hfit H. rewrite applyTrade_trade in H by (done || lia).
  injection H as <-. unfold trade. destruct (Z.leb_spec 0 (Position st * q)); [|nia].
  cbn -[Z.quot Z.mul]. rewrite (Z.quot_div_nonneg (Position st * _)), (Z.quot_div_nonneg (q * p))
    by (unfold AmountScale; nia).
  pose proof (Z_div_mod_eq_full (Position st * AverageCost st) AmountScale).
  pose proof (Z.mod_pos_bound (Position st * AverageCost st) AmountScale eq_refl).
  pose proof (Z_div_mod_eq_full (q * p) AmountScale).
  pose proof (Z.mod_pos_bound (q * p) AmountScale eq_refl).
  set (c1 := Position st * AverageCost st / AmountScale) in *.
  set (c2 := q * p / AmountScale) in *.
  assert (0 ≤ c1) by (apply Z.div_pos; unfold AmountScale; nia).
  assert (0 ≤ c2) by (apply Z.div_pos; unfold AmountScale; nia).
  rewrite Z.quot_div_nonneg by (unfold AmountScale; nia).
  pose proof (Z_div_mod_eq_full ((c1 + c2) * AmountScale) (Position st + q)).
  pose proof (Z.mod_pos_bound ((c1 + c2) * AmountScale) (Position st + q) ltac:(lia)).
  lia.
Qed.

Definition sampleState (position average realized : Z) : ReconciledState :=
  with_position (zeroState "acme" "AAPL") position average realized.

Lemma extending_average_bounds_witness :
  300000000 * AverageCost (trade (sampleState 100000000 500 0) 200000000 801) ≤ 210200000000.
Proof.
  refine (proj2 (extending_average_bounds (sampleState 100000000 500 0) 200000000 801 _ _ _ _ _ _ _)).
  - vm_compute. congruence.
  - vm_compute. congruence.
  - reflexivity.
  - vm_compute. congruence.
  - vm_compute. intuition congruence.
  - vm_compute. reflexivity.
Defined.

Lemma applyTrade_reference_witness :
  applyTrade (sampleState 500 300 7) (-800) 900 = Ok (trade (sampleState 500 300 7) (-800) 900).
Proof. apply applyTrade_reference; [lia|vm_compute; intuition congruence]. Defined.

(** ** Concurrent Reconcile calls

    Any number of calls, each a transaction and the rest of its program, share the
    repositories; every repository call is one atomic step, may fail in any way
    the contract allows, and calls arrive at any time. *)
Definition Pool : Type := list (Transaction * prog (result unit)) * Database.

Inductive pool_step : Pool → Pool → Prop :=
  | pool_arrive ts db txn : pool_step (ts, db) (ts ++ [(txn, Reconcile txn)], db)
  | pool_call ts db i txn p p' db' :
      ts !! i = Some (txn, p) → call p db p' db' →
      pool_step (ts, db) (<[i := (txn, p')]> ts, db').

Definition emptyDatabase : Database := {| rows := []; states := ∅ |}.

(** The ledger rows of a (tenant, instrument), in the order they were committed. *)
Definition key_rows (k : string * string) (db : Database) : list Transaction :=
  base.filter (λ r, txn_key r = k) (rows db).

(** Some rows of a key, each at most once, in the order of their ids. *)
Definition picks (k : string * string) (db : Database) (l : list Transaction) : Prop :=
  Forall (λ r, r ∈ key_rows k db) l ∧ StronglySorted (λ r1 r2, ID r1 < ID r2) l.

(** The reconciled state is the accounting of some of its key's rows, each taken
    once and in id order, the newest of them being the watermark. *)
Definition applied (k : string * string) (db : Database) (st : ReconciledState) : Prop :=
  ∃ l st', picks k db l ∧ replay (zeroState k.1 k.2) l = Ok st' ∧
    state_equiv st' st ∧ LastTransactionID st = ID <$> last l.

(** The event id is in the ledger and the state of the row's key has moved up to it. *)
Definition settled (db : Database) (txn : Transaction) : Prop :=
  ∃ row w, row ∈ rows db ∧ EventID row = EventID txn ∧
    watermark db (txn_key row) = Some w ∧ ID row ≤ w.

(** Its own trade is in the ledger and its own key's state has moved up to it. *)
Definition recorded (db : Database) (txn : Transaction) : Prop :=
  ∃ row w, row ∈ rows db ∧ same_trade txn row ∧ watermark db (txn_key txn) = Some w ∧ ID row ≤ w.

Definition db_inv (db : Database) : Prop :=
  db_wf db ∧ map_Forall (λ k st, applied k db st) (states db).

(** Where a call is in Reconcile's body and what it knows there. *)
Inductive thread_ok (db : Database) (txn : Transaction) : prog (result unit) → Prop :=
  | at_insert : thread_ok db txn (Reconcile txn)
  | at_lookup : thread_ok db txn (CallGetByEventID (EventID txn) afterDuplicate)
  | at_get row : row ∈ rows db → EventID row = EventID txn → thread_ok db txn (withRow row)
  | at_upsert row u l st st' :
      row ∈ rows db → EventID row = EventID txn →
      picks (txn_key row) db l → Forall (λ r, ID r < ID row) l →
      replay (zeroState (TenantID row) (Instrument row)) l = Ok st →
      applyTransaction st row = Ok st' → state_equiv st' u →
      thread_ok db txn (CallUpsert u finishUpsert)
  | returned_nil : settled db txn → thread_ok db txn (Return (Ok tt))
  | returned_error e : thread_ok db txn (Return (Err e)).

(** *** Progress of the database: rows are only added, watermarks only grow. *)
Definition db_le (db db' : Database) : Prop :=
  rows db `prefix_of` rows db' ∧
  ∀ k w, watermark db k = Some w → ∃ w', watermark db' k = Some w' ∧ w ≤ w'.

#[global] Instance db_le_refl : Reflexive db_le.
Proof. intros db. split; [done|]. intros k w ?. by exists w. Qed.

Lemma db_le_trans db1 db2 db3 : db_le db1 db2 → db_le db2 db3 → db_le db1 db3.
Proof.
  intros [Hp1 Hw1] [Hp2 Hw2]. split; [by etrans|]. intros k w (w1 & H1 & ?)%Hw1.
  apply Hw2 in H1 as (w2 & ? & ?). exists w2. split; [done|lia].
Qed.

Lemma inserted_le txn db row db' : inserted txn db row db' → db_le db db'.
Proof. intros (_ & _ & ->). split; cbn; [by apply prefix_app_r|]. intros k w ?. by exists w. Qed.

Lemma upserted_le st db db' : upserted st db db' → db_le db db'.
Proof.
  intros (Ha & st' & (Ht&Hi&_&_&_&HL) & ->). split; [done|]. intros k w. unfold watermark. cbn.
  destruct (decide (k = state_key st)) as [->|Hne].
  - unfold advances in Ha. destruct (states db !! state_key st) as [old|] eqn:E; cbn; [|done].
    intros Hw. rewrite Hw in Ha. rewrite lookup_insert_eq. cbn. rewrite <-HL.
    destruct (LastTransactionID st) as [b|]; [|done]. exists b. split; [done|]. bool_props. lia.
  - rewrite lookup_insert_ne by done. intros Hw. by exists w.
Qed.

Lemma call_le {A} (p p' : prog A) db db' : call p db p' db' → db_le db db'.
Proof.
  intros [txn k ? r ? H|id k ? r ? H|t i k ? r ? H|st k ? r ? H].
  - destruct r as [row|e]; cbn in H; [by eapply inserted_le|].
    destruct (errors_Is e _); [by destruct H as [-> _]|].
    destruct H as [->|[row H]]; [done|by eapply inserted_le].
  - by destruct H as [-> _].
  - by destruct H as [-> _].
  - destruct r as [u|e]; cbn in H; [by eapply upserted_le|].
    destruct (errors_Is e _); [by destruct H as [-> _]|].
    destruct H as [->|H]; [done|by eapply upserted_le].
Qed.

Lemma picks_le k db db' l : db_le db db' → picks k db l → picks k db' l.
Proof.
  intros [[l' Hl] _] [Hin Hs]. split; [|done]. eapply Forall_impl; [exact Hin|]. intros r.
  unfold key_rows. rewrite Hl, filter_app, elem_of_app. auto.
Qed.

Lemma picks_nil k db : picks k db [].
Proof. by split; constructor. Qed.

Lemma picks_snoc k db l row : picks k db l → row ∈ key_rows k db → Forall (λ r, ID r < ID row) l → picks k db (l ++ [row]).
Proof.
  intros [Hin Hs] Hrow Hlt. split; [apply Forall_app; by repeat constructor|].
  apply StronglySorted_app. split_and!; [|done|repeat constructor].
  intros x y Hx ->%list_elem_of_singleton. rewrite Forall_forall in Hlt. auto.
Qed.

Lemma settled_le db db' txn : db_le db db' → settled db txn → settled db' txn.
Proof.
  intros [Hp Hw] (row & w & Hin & He & Hwm & Hle). apply Hw in Hwm as (w' & ? & ?).
  exists row, w'. split_and!; [|done..|lia]. destruct Hp as [l ->]. apply elem_of_app. auto.
Qed.

Lemma thread_ok_le db db' txn p : db_le db db' → thread_ok db txn p → thread_ok db' txn p.
Proof.
  intros Hle Ht. pose proof Hle as [[l Hl] _].
  assert (∀ row, row ∈ rows db → row ∈ rows db') as Hin by (intros; rewrite Hl; apply elem_of_app; auto).
  destruct Ht as [| |row ? ?|row u l' st st' ? ? Hs ? ? ? ?| |]; try by constructor; eauto.
  - apply (at_upsert db' txn row u l' st st'); auto. by eapply picks_le.
  - constructor. by eapply settled_le.
Qed.

Lemma applied_rows_le k db db' st : db_le db db' → applied k db st → applied k db' st.
Proof.
  intros Hle (l & st' & Hs & ?). exists l, st'. split; [|done]. by eapply picks_le.
Qed.

(** *** Steps *)

(** The list behind an applied state sits at or below its watermark. *)
Lemma applied_below k db l st st' row :
  picks k db l → LastTransactionID st = ID <$> last l →
  state_equiv st' st → (match LastTransactionID st with Some id => ID row <=? id | None => false end) = false →
  Forall (λ r, ID r < ID row) l.
Proof.
  intros [_ Hsl] HL _ Hg. destruct l as [|x l _] using rev_ind; [constructor|].
  rewrite last_snoc in HL. cbn in HL. rewrite HL in Hg. bool_props.
  apply StronglySorted_app in Hsl as (Hlt & _ & _). apply Forall_app. split.
  - apply Forall_forall. intros y Hy. specialize (Hlt y x Hy (list_elem_of_here _ _)). lia.
  - by repeat constructor.
Qed.

Lemma db_inv_same_states db db' :
  db_inv db → db_wf db' → db_le db db' → states db' = states db → db_inv db'.
Proof.
  intros [_ Ha] Hwf Hle Hst. split; [done|]. rewrite Hst. intros k st Hk.
  eapply applied_rows_le; [done|]. by apply Ha.
Qed.

(** Computing the update: from a state the invariant vouches for, the call either
    returns nil because the state is already there, returns an error, or goes on
    to an upsert it knows to be one application further. *)
Lemma foldInto_ok db txn row st l st0 :
  db_wf db → row ∈ rows db → EventID row = EventID txn →
  picks (txn_key row) db l →
  replay (zeroState (TenantID row) (Instrument row)) l = Ok st0 → state_equiv st0 st →
  LastTransactionID st = ID <$> last l →
  (is_Some (LastTransactionID st) → states db !! txn_key row = Some st) →
  thread_ok db txn (foldInto row st).
Proof.
  intros Hwf Hin He Hl Hrep Heq HL Hst. unfold foldInto.
  destruct (match LastTransactionID st with Some id => ID row <=? id | None => false end) eqn:Hg.
  - destruct (LastTransactionID st) as [w|] eqn:Hw; [|done]. bool_props.
    constructor. exists row, w. split_and!; [done..| |done]. unfold watermark.
    by rewrite (Hst ltac:(done)).
  - destruct (applyTransaction st row) as [u|e] eqn:Hu; [|constructor].
    pose proof (applyTransaction_proper st0 st Heq row row eq_refl) as Hp. rewrite Hu in Hp.
    destruct (applyTransaction st0 row) as [u0|] eqn:Hu0; [|done].
    apply (at_upsert db txn row u l st0 u0); auto. by eapply applied_below.
Qed.

(** A state stored by an upsert is one application further. *)
Lemma upserted_inv db db' row u l st st' :
  db_inv db → row ∈ rows db → picks (txn_key row) db l →
  Forall (λ r, ID r < ID row) l →
  replay (zeroState (TenantID row) (Instrument row)) l = Ok st →
  applyTransaction st row = Ok st' → state_equiv st' u → state_key u = txn_key row →
  upserted u db db' → db_inv db'.
Proof.
  intros [Hwf Ha] Hin Hl Hlt Hrep Happ Heq Hkey Hup. pose proof (upserted_wf _ _ _ Hwf Hup) as Hwf'.
  destruct Hup as (_ & u' & Hu' & ->). split; [done|]. rewrite Hkey. apply map_Forall_insert_2; [|].
  - exists (l ++ [row]), st'. cbn. split_and!.
    + apply (picks_snoc _ db); [done| |done]. by apply list_elem_of_filter.
    + apply replay_snoc_Ok. eauto.
    + by transitivity u.
    + rewrite last_snoc. cbn. destruct (applyTransaction_Ok _ _ _ Happ) as (_ & _ & _ & <-).
      destruct Heq as (?&?&?&?&?&->). symmetry. apply Hu'.
  - exact Ha.
Qed.

Lemma replay_key st l st' : replay st l = Ok st' → state_key st' = state_key st.
Proof.
  revert st. induction l as [|row l IH]; intros st; cbn; [by intros [= ->]|].
  intros (st1 & H1 & H2)%result_bind_Ok. apply IH in H2 as ->. by apply applyTransaction_Ok in H1 as (_ & Hk & _).
Qed.

Lemma upsert_key row u l st st' :
  replay (zeroState (TenantID row) (Instrument row)) l = Ok st →
  applyTransaction st row = Ok st' → state_equiv st' u →
  state_key u = txn_key row ∧ LastTransactionID u = Some (ID row).
Proof.
  intros Hrep Happ Heq. apply replay_key in Hrep. apply applyTransaction_Ok in Happ as (_&Hk&_&HL).
  rewrite <-(state_equiv_key st' u Heq), Hk, Hrep. destruct Heq as (?&?&?&?&?&<-). done.
Qed.

Lemma upserted_settled db db' row u txn :
  row ∈ rows db → EventID row = EventID txn → state_key u = txn_key row →
  LastTransactionID u = Some (ID row) → upserted u db db' → settled db' txn.
Proof.
  intros Hin He Hk HL (_ & u' & (_&_&_&_&_&HL') & ->). exists row, (ID row).
  split_and!; [done..| |lia]. unfold watermark. cbn. rewrite Hk, lookup_insert_eq. cbn. congruence.
Qed.

Lemma stale_settled db row u txn :
  row ∈ rows db → EventID row = EventID txn → state_key u = txn_key row →
  LastTransactionID u = Some (ID row) → advances u db = false → settled db txn.
Proof.
  intros Hin He Hk HL Ha. unfold advances in Ha. rewrite Hk, HL in Ha.
  destruct (states db !! txn_key row) as [old|] eqn:E; [|done].
  destruct (LastTransactionID old) as [w|] eqn:Hw; [|done]. bool_props.
  exists row, w. split_and!; [done..| |done]. unfold watermark. by rewrite E.
Qed.

(** One step of one call keeps the invariant and the call's knowledge. *)
Lemma thread_step db db' txn p p' :
  db_inv db → thread_ok db txn p → call p db p' db' → db_inv db' ∧ thread_ok db' txn p'.
Proof.
  intros Hinv Ht Hc. pose proof (call_le _ _ _ _ Hc) as Hle.
  pose proof (call_preserves_wf _ _ _ _ Hc (proj1 Hinv)) as Hwf'.
  destruct Ht as [| |row Hin He|row u l st st' Hin He Hl Hlt Hrep Happ Heq| |]; inversion Hc; subst.
  - match goal with H : insert_post _ _ ?r _ |- _ => rename H into HP; destruct r as [row|e] end; cbn in HP.
    + destruct HP as ((He&_)&_&->). split; [by apply (db_inv_same_states db)|].
      apply at_get; [|done]. cbn. apply elem_of_app. right. apply list_elem_of_here.
    + cbn. destruct (errors_Is e _).
      * destruct HP as [-> _]. split; [done|constructor].
      * split; [|constructor]. destruct HP as [->|(row&_&_&->)]; [done|]. by apply (db_inv_same_states db).
  - match goal with H : get_by_event_post _ _ ?r _ |- _ => destruct H as [-> HP]; destruct r as [row|e] end;
      (split; [done|]); [|constructor]. destruct HP. by apply at_get.
  - match goal with H : get_post _ _ ?r _ |- _ => destruct H as [-> HP]; destruct r as [st|e] end;
      (split; [done|]); cbn [afterGet].
    + destruct Hinv as [Hwf Ha]. destruct (Ha _ _ HP) as (l & st' & Hl & Hrep & Heq & HL).
      by eapply foldInto_ok.
    + destruct (errors_Is e ErrNotFound); cbn [negb]; [|constructor].
      eapply (foldInto_ok _ _ _ _ []); [apply Hinv|done|done|apply picks_nil|done..|].
      by intros [??].
  - destruct (upsert_key _ _ _ _ _ Hrep Happ Heq) as [Hk HL].
    match goal with H : upsert_post _ _ ?r _ |- _ => rename H into HP; destruct r as [[]|e] end; cbn in HP |- *.
    + split; [by eapply upserted_inv|]. constructor. by eapply upserted_settled.
    + destruct (errors_Is e ErrStaleReconciledState).
      * destruct HP as [-> HP]. split; [done|]. constructor. by eapply stale_settled.
      * split; [|constructor]. destruct HP as [->|HP]; [done|by eapply upserted_inv].
Qed.

Lemma pool_inv ts db : rtc pool_step ([], emptyDatabase) (ts, db) →
  db_inv db ∧ Forall (λ t, thread_ok db t.1 t.2) ts.
Proof.
  intros H. apply (rtc_ind_r (λ s, db_inv s.2 ∧ Forall (λ t, thread_ok s.2 t.1 t.2) s.1)
    ([], emptyDatabase)) in H; [done|..]; clear.
  - split; [|constructor]. split; [split; [split; constructor|apply map_Forall_empty]|].
    apply map_Forall_empty.
  - intros s1 s2 _ Hstep [Hinv Hts].
    destruct Hstep as [ts0 db0 txn|ts0 db0 i txn p p' db' Hi Hc]; cbn in *.
    + split; [done|]. apply Forall_app. split; [done|]. repeat constructor.
    + assert (thread_ok db0 txn p) as Hp by (rewrite Forall_lookup in Hts; apply (Hts i _ Hi)).
      destruct (thread_step _ _ _ _ _ Hinv Hp Hc) as [Hinv' Hp']. split; [done|].
      apply Forall_insert; [|done]. eapply Forall_impl; [exact Hts|].
      intros [txn' q] ?. eapply thread_ok_le; [|done]. by eapply call_le.
Qed.

(** C5. No double counting, in any interleaving and under any faults: starting
    from empty tables, with any number of concurrent Reconcile calls (redeliveries
    included) failing and retrying in any way, each reconciled state is at all
    times the weighted-average-cost accounting of some of its own key's ledger
    rows, every one of them taken once and in id order, and its watermark is the
    id of the last of them.  Ledger rows keep unique event ids. *)
Theorem Reconcile_never_double_counts ts db k st :
  rtc pool_step ([], emptyDatabase) (ts, db) → states db !! k = Some st →
  NoDup (EventID <$> rows db) ∧ applied k db st.
Proof.
  intros [[[[_ Hs] _] Ha] _]%pool_inv Hk. split; [done|by apply Ha].
Qed.

(** A ledger row is a trade some call arrived with. *)
Definition arrived (ts : list (Transaction * prog (result unit))) (row : Transaction) : Prop :=
  ∃ t, t ∈ ts.*1 ∧ same_trade t row.

Lemma call_rows db db' txn p p' :
  thread_ok db txn p → call p db p' db' → ∀ row, row ∈ rows db' → row ∈ rows db ∨ same_trade txn row.
Proof.
  intros Ht Hc row. destruct Ht as [| |r ? ?|r u l st st' ? ? ? ? ? ? ?| |]; inversion Hc; subst.
  - match goal with H : insert_post _ _ ?r _ |- _ => rename H into HP; destruct r as [r|e] end; cbn in HP.
    + destruct HP as (He & _ & ->). cbn. set_solver.
    + destruct (errors_Is e _); [destruct HP as [-> _]; auto|].
      destruct HP as [->|(r & He & _ & ->)]; [auto|cbn; set_solver].
  - match goal with H : get_by_event_post _ _ _ _ |- _ => destruct H as [-> _] end. auto.
  - match goal with H : get_post _ _ _ _ |- _ => destruct H as [-> _] end. auto.
  - match goal with H : upsert_post _ _ ?r _ |- _ => rename H into HP; destruct r as [[]|e] end; cbn in HP.
    + destruct HP as (_ & ? & _ & ->). auto.
    + destruct (errors_Is e _); [destruct HP as [-> _]; auto|].
      destruct HP as [->|(_ & ? & _ & ->)]; auto.
Qed.

Lemma rows_arrived ts db : rtc pool_step ([], emptyDatabase) (ts, db) → Forall (arrived ts) (rows db).
Proof.
  intros H. apply (rtc_ind_r (λ s, Forall (arrived s.1) (rows s.2)) ([], emptyDatabase)) in H; [done|constructor|].
  clear. intros [ts0 db0] s2 Hr Hstep IH. apply pool_inv in Hr as [_ Hts]. cbn in IH.
  inversion Hstep as [? ? txn|? ? i txn p p' db' Hi Hc]; subst; cbn;
    apply Forall_forall; rewrite Forall_forall in IH.
  - intros row (t & Ht & Hs)%IH. exists t. rewrite fmap_app. set_solver.
  - assert ((<[i:=(txn, p')]> ts0).*1 = ts0.*1) as E.
    { rewrite list_fmap_insert. apply list_insert_id. by rewrite list_lookup_fmap, Hi. }
    unfold arrived. rewrite E. intros row Hrow.
    destruct (call_rows _ _ _ _ _ (Forall_lookup_1 _ _ _ _ Hts Hi) Hc row Hrow) as [Hin|Hin]; [by apply IH|].
    exists txn. split; [|done]. apply (list_elem_of_fmap_2 fst _ (txn, p)). by eapply list_elem_of_lookup_2.
Qed.

(** A row under the transaction's id: its own trade, or another one. *)
Lemma settled_by db txn row w : row ∈ rows db → watermark db (txn_key row) = Some w → ID row ≤ w →
  same_trade txn row → recorded db txn.
Proof. intros Hin Hw Hle Hs. exists row, w. split_and!; [done..| |done]. by rewrite (same_trade_key _ _ Hs). Qed.

Lemma nil_recorded ts db txn :
  rtc pool_step ([], emptyDatabase) (ts, db) → (txn, Return (Ok tt)) ∈ ts →
  recorded db txn ∨
  ∃ other, other ∈ ts.*1 ∧ EventID other = EventID txn ∧ ¬ same_trade other txn ∧ recorded db other.
Proof.
  intros Hr Hin. pose proof (rows_arrived _ _ Hr) as Ha. rewrite Forall_forall in Ha.
  apply pool_inv in Hr as [_ Hts]. rewrite Forall_forall in Hts. specialize (Hts _ Hin). cbn in Hts.
  assert (settled db txn) as (row & w & Hrow & He & Hw & Hle) by (by inversion Hts).
  destruct (decide (same_trade txn row)) as [Hs|Hs]; [left; by eapply settled_by|right].
  destruct (Ha row Hrow) as (other & Ho & Hso). exists other. split_and!; [done| | |by eapply settled_by].
  - by rewrite (same_trade_event _ _ Hso).
  - intros Hot. apply Hs. by eapply same_trade_trans; [apply same_trade_sym|].
Qed.

(** C6. A nil return settles the transaction: whatever other calls did in between,
    when a Reconcile call has returned nil, its own trade (event id, tenant,
    instrument, side, quantity and price) is in the ledger and the reconciled state
    of its own tenant and instrument has moved to it or past it; the one exception
    is a call that brought another trade under the same event id, and then that
    trade is the one in the ledger. *)
Theorem Reconcile_nil_settles ts db txn :
  rtc pool_step ([], emptyDatabase) (ts, db) → (txn, Return (Ok tt)) ∈ ts →
  recorded db txn ∨
  ∃ other, other ∈ ts.*1 ∧ EventID other = EventID txn ∧ ¬ same_trade other txn ∧ recorded db other.
Proof. apply nil_recorded. Qed.

(** *** A call that runs without interference *)
Lemma exec_pool ts db i txn p a db' :
  exec p db a db' → ts !! i = Some (txn, p) →
  rtc pool_step (ts, db) (<[i := (txn, Return a)]> ts, db').
Proof.
  intros He. revert ts. induction He as [a db|p db p' db1 a db2 Hc He IH]; intros ts Hi.
  - by rewrite list_insert_id.
  - eapply rtc_l; [by eapply pool_call|].
    rewrite <-(list_insert_insert_eq ts i (txn, Return a) (txn, p')).
    apply IH. apply list_lookup_insert_eq. by eapply lookup_lt_Some.
Qed.

Lemma exec_arrives ts db txn a db' :
  exec (Reconcile txn) db a db' → rtc pool_step (ts, db) (ts ++ [(txn, Return a)], db').
Proof.
  intros He. eapply rtc_l; [apply (pool_arrive _ _ txn)|].
  replace (ts ++ [(txn, Return a)]) with (<[length ts := (txn, Return a)]> (ts ++ [(txn, Reconcile txn)])).
  - eapply exec_pool; [done|]. by rewrite lookup_app_r, Nat.sub_diag.
  - rewrite insert_app_r_alt, Nat.sub_diag by done. done.
Qed.

#[local] Existing Instance plainColumns.

(** One call over Postgres, as a run of the pool. *)
Lemma postgres_arrives ts pg txn : pg_inv pg →
  rtc pool_step (ts, tables pg)
    (ts ++ [(txn, Return (run (Reconcile txn) pg).1)], tables (run (Reconcile txn) pg).2).
Proof.
  intros Hi. apply exec_arrives.
  apply (run_exec tables pg_inv (RepositoryLaws0 := postgres_laws (Claws := plainColumnLaws))). done.
Qed.

Definition sampleBuy : Transaction := sampleTrade "e1" SideBuy 500 10000000000.
Definition sampleSell : Transaction := sampleTrade "e2" SideSell 800 20000000000.
Definition afterBuy : Postgres := (run (Reconcile sampleBuy) emptyPostgres).2.

Lemma Reconcile_nil_settles_witness : recorded (tables afterBuy) sampleBuy.
Proof.
  destruct (Reconcile_nil_settles [(sampleBuy, Return (Ok tt))] (tables afterBuy) sampleBuy)
    as [H|(other & Ho & _ & Hn & _)]; [..|exact H|].
  - apply (postgres_arrives [] emptyPostgres sampleBuy emptyPostgres_inv).
  - apply list_elem_of_here.
  - apply list_elem_of_singleton in Ho as ->. exfalso. apply Hn. by repeat split.
Defined.

(** The exception is real: another tenant's trade under an event id that is taken is
    answered nil and is nowhere. *)
Definition foreignBuy : Transaction :=
  {| ID := 0; EventID := EventID sampleBuy; TenantID := "globex"; SchemaVersion := 1; Instrument := "MSFT"; Side := SideBuy;
     Quantity := 70; Price := 100; Currency := "USD"; OccurredAt := 0; ReceivedAt := 0 |}.

Example colliding_event_swallowed :
  let '(res, pg) := run (Reconcile foreignBuy) afterBuy in
  res = Ok tt ∧ TenantID <$> transactions pg = ["acme"] ∧ reconciled_state pg !! txn_key foreignBuy = None.
Proof. vm_compute. split_and!; reflexivity. Qed.

Lemma Reconcile_never_double_counts_witness : ∃ st,
  NoDup (EventID <$> rows (tables afterBuy)) ∧ applied ("acme", "AAPL") (tables afterBuy) st.
Proof.
  eexists. apply (Reconcile_never_double_counts [(sampleBuy, Return (Ok tt))]).
  - apply (postgres_arrives [] emptyPostgres sampleBuy emptyPostgres_inv).
  - vm_compute. reflexivity.
Defined.

(** ** What one undisturbed call does

    Over any lawful repositories, when no call meets an error other than the
    documented sentinels. *)
Section effect.
Context {W : Type} `{!TransactionRepository W, !ReconciledStateRepository W}.
Context (view : W → Database) (inv : W → Prop) `{Hlaws : !RepositoryLaws W view inv}.

(** The state Reconcile starts from, and whether it already covers the row. *)
Definition currentState (db : Database) (row : Transaction) : ReconciledState :=
  default (zeroState (TenantID row) (Instrument row)) (states db !! txn_key row).

Definition covers (db : Database) (row : Transaction) : bool :=
  match watermark db (txn_key row) with Some id => ID row <=? id | None => false end.

(** The effect of folding [row] in: nothing if it is covered, the accounting
    step otherwise, the accounting's error if it has one. *)
Definition folded (row : Transaction) (db : Database) (r : result unit) (db' : Database) : Prop :=
  rows db' = rows db ∧
  if covers db row then r = Ok tt ∧ states db' = states db
  else match applyTransaction (currentState db row) row with
       | Ok u => r = Ok tt ∧ ∃ u', state_equiv u u' ∧ states db' = <[txn_key row := u']> (states db)
       | Err e => r = Err (Wrapf "reconcile: apply transaction %s: %w" e) ∧ states db' = states db
       end.

Lemma currentState_key db row : db_wf db → state_key (currentState db row) = txn_key row.
Proof.
  intros [_ Hk]. unfold currentState. destruct (states db !! txn_key row) as [st|] eqn:E; cbn; [|done].
  by apply Hk.
Qed.

Lemma foldInto_effect w row : inv w → db_wf (view w) →
  calm (foldInto row (currentState (view w) row)) w = true →
  folded row (view w) (run (foldInto row (currentState (view w) row)) w).1
    (view (run (foldInto row (currentState (view w) row)) w).2).
Proof.
  intros Hi Hwf. unfold folded, foldInto.
  assert (match LastTransactionID (currentState (view w) row) with
          | Some id => ID row <=? id | None => false end = covers (view w) row) as ->.
  { unfold covers, watermark, currentState. by destruct (states (view w) !! txn_key row). }
  destruct (covers (view w) row) eqn:Hcov; [done|].
  destruct (applyTransaction (currentState (view w) row) row) as [u|e] eqn:Hu; [|done].
  cbn. rewrite andb_true_iff. intros [He _]. destruct (Upsert_law u w Hi) as [HP _].
  apply applyTransaction_Ok in Hu as (_ & Hk & _ & HL). rewrite currentState_key in Hk by done.
  destruct (Upsert u w) as [r w']. cbn in *. destruct r as [[]|e]; cbn in *.
  - destruct HP as (_ & u' & Hu' & ->). rewrite Hk. cbn. eauto.
  - rewrite orb_false_r in He. rewrite He in HP. destruct HP as [_ Ha]. exfalso. revert Ha Hcov.
    unfold advances, covers, watermark. rewrite Hk, HL.
    destruct (states (view w) !! txn_key row) as [old|]; cbn; [|done].
    destruct (LastTransactionID old); [|done]. intros. bool_props. lia.
Qed.

Lemma withRow_effect w row : inv w → db_wf (view w) → calm (withRow row) w = true →
  folded row (view w) (run (withRow row) w).1 (view (run (withRow row) w).2).
Proof.
  intros Hi Hwf. unfold withRow. cbn [run calm]. rewrite andb_true_iff. intros [He Hcalm].
  destruct (Get_law (TenantID row) (Instrument row) w Hi) as [[Hsame HP] Hi'].
  destruct (Get _ _ w) as [r w']. cbn [fst snd] in *. rewrite <-Hsame in *.
  assert (afterGet row r = foldInto row (currentState (view w') row)) as E.
  { unfold currentState, txn_key. destruct r as [st|e]; cbn in *; [by rewrite HP|].
    rewrite orb_false_r in He. rewrite He in *. cbn. by rewrite (HP eq_refl). }
  rewrite E in *. by apply foldInto_effect.
Qed.

(** C7. One undisturbed Reconcile call does exactly its job on every branch: the
    event's row is the one already stored or is appended now; a row the state
    already covers changes nothing and returns nil; any other row (fresh, or
    inserted by an earlier delivery that stopped short) is folded into the state
    of its own key by one accounting step, nil returned, every other key
    untouched; an accounting error is returned with the states unchanged. *)
Theorem Reconcile_effect txn w :
  inv w → db_wf (view w) → calm (Reconcile txn) w = true →
  ∃ row db, EventID row = EventID txn ∧
    (row ∈ rows (view w) ∧ db = view w ∨ inserted txn (view w) row db) ∧
    folded row db (run (Reconcile txn) w).1 (view (run (Reconcile txn) w).2).
Proof.
  intros Hi Hwf. unfold Reconcile. cbn [run calm]. rewrite andb_true_iff. intros [He Hcalm].
  destruct (Insert_law txn w Hi) as [HP Hi']. destruct (Insert txn w) as [r w']. cbn [fst snd] in *.
  destruct r as [row|e]; cbn [afterInsert] in *.
  - exists row, (view w'). split; [apply HP|]. split; [by right|].
    apply withRow_effect; [done| |done]. by eapply inserted_wf.
  - cbn in He, HP. rewrite orb_false_r in He. rewrite He in *. cbn [negb] in *.
    destruct HP as [Hsame Hex]. cbn [run calm] in *. rewrite andb_true_iff in Hcalm.
    destruct Hcalm as [He2 Hcalm]. destruct (GetByEventID_law (EventID txn) w' Hi') as [[Hs2 HP2] Hi2].
    destruct (GetByEventID (EventID txn) w') as [r2 w2]. cbn [fst snd] in *.
    destruct r2 as [row|e2]; cbn [afterDuplicate] in *.
    + destruct HP2 as [Hin Hev]. exists row, (view w'). rewrite Hsame in *. split; [done|].
      split; [by left|]. rewrite <-Hs2 in *. by apply withRow_effect.
    + cbn in He2. rewrite orb_false_r in He2. apply HP2 in He2. rewrite Hsame in He2.
      apply Exists_exists in Hex as (x & Hx & E). rewrite Forall_forall in He2. by destruct (He2 x Hx).
Qed.
End effect.

Lemma Reconcile_effect_witness : ∃ row db, EventID row = "e2" ∧
  (row ∈ rows (tables afterBuy) ∧ db = tables afterBuy ∨ inserted sampleSell (tables afterBuy) row db) ∧
  folded row db (run (Reconcile sampleSell) afterBuy).1 (tables (run (Reconcile sampleSell) afterBuy).2).
Proof.
  assert (pg_inv afterBuy) as Hinv.
  { refine (proj2 (run_exec tables pg_inv (RepositoryLaws0 := postgres_laws (Claws := plainColumnLaws))
      (Reconcile sampleBuy) emptyPostgres emptyPostgres_inv)). }
  refine (Reconcile_effect tables pg_inv (Hlaws := postgres_laws (Claws := plainColumnLaws))
    sampleSell afterBuy Hinv _ _).
  - apply Hinv.
  - vm_compute. reflexivity.
Defined.

(** A redelivery after a newer transaction is not resumed: the first event is
    inserted but its state update is lost, the next event of the same key goes
    through, and redelivering the first one returns nil without applying it; the
    position holds the second trade only. *)
Theorem superseded_redelivery_not_applied :
  let pg0 := {| transactions := []; reconciled_state := ∅; transactions_id_seq := 1;
                schedule := [(0, Healthy); (0, Healthy); (0, LostBefore "connection reset")]; now := 0 |} in
  let '(r1, pg1) := run (Reconcile sampleBuy) pg0 in
  let '(r2, pg2) := run (Reconcile sampleSell) pg1 in
  let '(r3, pg3) := run (Reconcile sampleBuy) pg2 in
  r1 = Err (Wrapf "reconcile: upsert reconciled state: %w"
              (Wrapf "upsert reconciled state: %w" (Errorf "connection reset"))) ∧
  r2 = Ok tt ∧ r3 = Ok tt ∧ tables pg3 = tables pg2 ∧
  Position <$> (reconciled_state pg3 !! ("acme", "AAPL")) = Some (-800) ∧
  net (transactions pg3) = -300.
Proof. vm_compute. split_and!; reflexivity. Qed.
