(* ===== verification/Exact.v ===== *)
(** * Exact accounting

    When a key's stored state is the accounting of all of its ledger rows, or of all
    but the newest, and how the last steps of Reconcile move from the one to the
    other.  Shared by Sessions (concurrent callers) and InOrder (one processor). *)
From S2P Require Import Prelude GoStrings Ledger Processor.

Lemma elem_of_key_rows k d r : r ∈ key_rows k d ↔ txn_key r = k ∧ r ∈ rows d.
Proof. unfold key_rows. by rewrite list_elem_of_filter. Qed.

Lemma key_rows_snoc k rs sts row : key_rows k {| rows := rs ++ [row]; states := sts |} =
  key_rows k {| rows := rs; states := sts |} ++ (if decide (txn_key row = k) then [row] else []).
Proof. unfold key_rows. cbn. rewrite filter_app, filter_cons, filter_nil. by case_decide. Qed.

Lemma event_determines lg t t' : NoDup (EventID <$> lg) → t ∈ lg → t' ∈ lg → EventID t = EventID t' → t = t'.
Proof.
  intros Hn [i Hi]%list_elem_of_lookup [j Hj]%list_elem_of_lookup E.
  assert (i = j) as ->; [|congruence]. apply (NoDup_lookup (EventID <$> lg) i j (EventID t)); [done|..]; rewrite list_lookup_fmap, ?Hi, ?Hj; cbn; congruence.
Qed.

(** The stored state of [k] is the accounting of exactly [l]. *)
Definition accounts_for (k : string * string) (d : Database) (l : list Transaction) : Prop :=
  match states d !! k with
  | None => l = []
  | Some st => l ≠ [] ∧ (∃ st', replay (zeroState k.1 k.2) l = Ok st' ∧ state_equiv st' st) ∧
      LastTransactionID st = ID <$> last l
  end.

Lemma accounts_watermark k d l : accounts_for k d l → watermark d k = ID <$> last l.
Proof. unfold accounts_for, watermark. destruct (states d !! k); cbn; [by intros (_ & _ & ->)|by intros ->]. Qed.

(** A key's rows have increasing ids. *)
Definition key_ordered (k : string * string) (d : Database) : Prop :=
  StronglySorted (λ r1 r2, ID r1 < ID r2) (key_rows k d).

Lemma sorted_last (l : list Transaction) row x : StronglySorted (λ r1 r2, ID r1 < ID r2) (l ++ [x]) → row ∈ l ++ [x] →
  row = x ∨ ID row < ID x.
Proof.
  intros (H & _ & _)%StronglySorted_app [Hin|Hin%list_elem_of_singleton]%elem_of_app; [right; apply H; [done|apply list_elem_of_here]|by left].
Qed.

Lemma sorted_snoc (l : list Transaction) x : StronglySorted (λ r1 r2, ID r1 < ID r2) l → Forall (λ r, ID r < ID x) l →
  StronglySorted (λ r1 r2, ID r1 < ID r2) (l ++ [x]).
Proof.
  intros Hs Hlt. apply StronglySorted_app. split_and!; [|done|repeat constructor].
  intros r y Hr ->%list_elem_of_singleton. rewrite Forall_forall in Hlt. auto.
Qed.

Lemma accounts_covers k d l row : StronglySorted (λ r1 r2, ID r1 < ID r2) l → accounts_for k d l → row ∈ l → txn_key row = k →
  covers d row = true.
Proof.
  intros Hs Ha Hin Hk. unfold covers. rewrite Hk, (accounts_watermark k d l Ha).
  destruct l as [|x l _] using rev_ind; [by apply not_elem_of_nil in Hin|]. rewrite last_snoc. cbn.
  apply Z.leb_le. destruct (sorted_last l row x Hs Hin) as [->|]; lia.
Qed.

(** A row after the ones accounted for is not covered. *)
Lemma newest_not_covered k d l row : StronglySorted (λ r1 r2, ID r1 < ID r2) (l ++ [row]) → accounts_for k d l →
  txn_key row = k → covers d row = false.
Proof.
  intros Hs Ha Hk. unfold covers. rewrite Hk, (accounts_watermark k d l Ha).
  destruct l as [|x l _] using rev_ind; [done|]. rewrite last_snoc. cbn. apply Z.leb_gt.
  apply StronglySorted_app in Hs as (Hlt & _ & _).
  by apply Hlt; [apply elem_of_app; right; apply list_elem_of_here|apply list_elem_of_here].
Qed.

(** All of a key's rows are in its state, but perhaps the newest. *)
Definition up_to_newest (k : string * string) (d : Database) : Prop :=
  accounts_for k d (key_rows k d) ∨ ∃ l row, key_rows k d = l ++ [row] ∧ accounts_for k d l.

Lemma newest_uncovered k d row : up_to_newest k d → key_ordered k d → row ∈ key_rows k d → covers d row = false →
  ∃ l, key_rows k d = l ++ [row] ∧ accounts_for k d l.
Proof.
  unfold key_ordered. intros Hk Hs Hin Hc. pose proof (proj1 (proj1 (elem_of_key_rows k d row) Hin)) as Hkey.
  destruct Hk as [Ha|(l & x & E & Ha)].
  - by rewrite (accounts_covers k d _ row Hs Ha Hin Hkey) in Hc.
  - rewrite E in Hs, Hin. exists l. apply elem_of_app in Hin as [Hin|Hin%list_elem_of_singleton]; [|by subst].
    apply StronglySorted_app in Hs as (_ & Hs & _). by rewrite (accounts_covers k d l row Hs Ha Hin Hkey) in Hc.
Qed.

(** The update [u] adds [row], the newest of its key, to all the others. *)
Definition adds_newest (u : ReconciledState) (row : Transaction) (d : Database) : Prop :=
  ∃ l st', key_rows (txn_key row) d = l ++ [row] ∧
    replay (zeroState (TenantID row) (Instrument row)) (l ++ [row]) = Ok st' ∧ state_equiv st' u.

Definition update_for (u : ReconciledState) (row : Transaction) : Prop :=
  state_key u = txn_key row ∧ LastTransactionID u = Some (ID row).

(** What applyTransaction makes of the stored state. *)
Lemma apply_newest d row u : up_to_newest (txn_key row) d → key_ordered (txn_key row) d → row ∈ rows d → db_wf d →
  covers d row = false → applyTransaction (currentState d row) row = Ok u → update_for u row ∧ adds_newest u row d.
Proof.
  intros Hk Ho Hin Hwf Hnc Happ. destruct (newest_uncovered _ d row Hk Ho) as (l & Er & Ha); [by apply elem_of_key_rows|done|].
  destruct (applyTransaction_Ok _ _ _ Happ) as (_ & Eks & _ & EL). rewrite currentState_key in Eks by done.
  assert (∃ st0, replay (zeroState (TenantID row) (Instrument row)) l = Ok st0 ∧ state_equiv st0 (currentState d row)) as (st0 & Hrep & Heq).
  { unfold accounts_for in Ha. unfold currentState. destruct (states d !! txn_key row) as [s|]; cbn; [by destruct Ha as (_ & ? & _)|].
    subst l. by eexists. }
  split; [done|]. pose proof (applyTransaction_proper st0 _ Heq row row eq_refl) as Hp. rewrite Happ in Hp.
  destruct (applyTransaction st0 row) as [u0|] eqn:Hu0; [|done].
  exists l, u0. split; [done|]. split; [|done]. apply replay_snoc_Ok. eauto.
Qed.

(** A stored update was one the state did not cover. *)
Lemma upserted_uncovered u row d d' : update_for u row → upserted u d d' → covers d row = false.
Proof.
  intros [Eku Elu] (Hadv & _). unfold covers, watermark. unfold advances in Hadv. rewrite Eku, Elu in Hadv.
  destruct (states d !! txn_key row) as [old|]; cbn; [|done]. destruct (LastTransactionID old); [|done]. bool_props. apply Z.leb_gt. lia.
Qed.

(** Storing it accounts for all rows of the key and leaves the other keys alone. *)
Lemma upserted_newest u row d d' : update_for u row → adds_newest u row d → upserted u d d' →
  rows d' = rows d ∧ accounts_for (txn_key row) d' (key_rows (txn_key row) d') ∧
  ∀ k, k ≠ txn_key row → states d' !! k = states d !! k.
Proof.
  intros [Eku Elu] (l & st' & Er & Hrep & Hst') (_ & u' & Hu' & ->). split; [done|]. split.
  - rewrite (Er : key_rows (txn_key row) {| rows := rows d; states := <[state_key u := u']> (states d) |} = _). unfold accounts_for. cbn [states].
    rewrite Eku, lookup_insert_eq. split; [by destruct l|]. split; [exists st'; split; [done|by transitivity u]|].
    rewrite last_snoc. cbn. rewrite <-Elu. symmetry. apply Hu'.
  - intros k Hne. cbn. by rewrite Eku, lookup_insert_ne.
Qed.

(** The accounting of a key depends on its stored state only. *)
Lemma accounts_for_states k d d' l : states d' !! k = states d !! k → accounts_for k d l → accounts_for k d' l.
Proof. unfold accounts_for. by intros ->. Qed.

(** The position of a state that accounts for all rows. *)
Lemma accounts_position k d st : states d !! k = Some st → accounts_for k d (key_rows k d) →
  Forall (λ t, 0 < Quantity t) (key_rows k d) → volume (key_rows k d) ≤ MaxInt64 → Position st = net (key_rows k d).
Proof.
  unfold accounts_for. intros -> (_ & (st' & Hrep & Heq) & _) Hq Hv.
  destruct (replay_net k.1 k.2 (key_rows k d) st' Hq Hv Hrep) as (HP & _ & _). destruct Heq as (_ & _ & HP' & _). congruence.
Qed.
