(* ===== verification/Sessions.v ===== *)
(** * Overlapping sessions (internal/processor/processor.go over internal/ledger/storage)

    Concurrent Reconcile calls on one Postgres server, with an INSERT in two steps:
    its id is drawn from the sequence, and its row is committed, or refused, later,
    so that rows may appear out of the order of their ids.  Two systems share the
    statements: one in which calls arrive freely, and one in which a key's events
    arrive in order, as Reconcile's comment asks for.  The theorems: free sessions
    keep the accounting of Processor's pool, and in-order delivery makes the accounting exact. *)
From S2P Require Import Prelude GoStrings Ledger Storage Processor Exact.

(** ** Sessions *)
Inductive phase :=
  | Running (p : prog (result unit))
  | Inserting (id : Z).            (* Reconcile's INSERT is in flight with this id *)

Record server := {
  calls : list (Transaction * phase);
  db : Database;
  id_seq : Z          (* next value *)
}.

Definition emptyServer : server := {| calls := []; db := emptyDatabase; id_seq := 1 |}.

Definition is_insert (p : prog (result unit)) : bool := match p with CallInsert _ _ => true | _ => false end.

(** One step of one session; an answer may be lost, an error without effect may
    come at any time, and a call may stop for ever. *)
Inductive statement : server → server → Prop :=
  | insert_begins cs d seq i txn :
      cs !! i = Some (txn, Running (Reconcile txn)) →
      statement (Build_server cs d seq) (Build_server (<[i := (txn, Inserting seq)]> cs) d (seq + 1))
  | insert_commits cs d seq i txn id row r :
      cs !! i = Some (txn, Inserting id) → ID row = id → same_trade txn row →
      Forall (λ r', EventID r' ≠ EventID txn) (rows d) →
      match r with Ok row' => row' = row | Err e => errors_Is e ErrDuplicateEvent = false end →
      statement (Build_server cs d seq)
        (Build_server (<[i := (txn, Running (afterInsert txn r))]> cs)
           {| rows := rows d ++ [row]; states := states d |} seq)
  | insert_refused cs d seq i txn id e :
      cs !! i = Some (txn, Inserting id) →
      (errors_Is e ErrDuplicateEvent = true → Exists (λ r', EventID r' = EventID txn) (rows d)) →
      statement (Build_server cs d seq) (Build_server (<[i := (txn, Running (afterInsert txn (Err e)))]> cs) d seq)
  | other_call cs d seq i txn p p' d' :
      cs !! i = Some (txn, Running p) → is_insert p = false → call p d p' d' →
      statement (Build_server cs d seq) (Build_server (<[i := (txn, Running p')]> cs) d' seq).

Definition arrive (txn : Transaction) (s : server) : server :=
  Build_server (calls s ++ [(txn, Running (Reconcile txn))]) (db s) (id_seq s).

(** Calls arrive freely. *)
Inductive session_step : server → server → Prop :=
  | session_statement s s' : statement s s' → session_step s s'
  | session_arrives s txn : session_step s (arrive txn s).

(** ** The sequence *)
Definition drawn (c : Transaction * phase) : option Z := match c.2 with Inserting id => Some id | Running _ => None end.

(** The sequence is ahead of every id, and no id in flight is used elsewhere. *)
Record seq_ok (s : server) : Prop := {
  seq_rows : Forall (λ r, ID r < id_seq s) (rows (db s));
  seq_flight i c id : calls s !! i = Some c → drawn c = Some id →
    id < id_seq s ∧ Forall (λ r, ID r ≠ id) (rows (db s));
  seq_distinct i j c c' id : calls s !! i = Some c → calls s !! j = Some c' →
    drawn c = Some id → drawn c' = Some id → i = j
}.

Lemma call_rows_same {A} (p p' : prog A) d d' : (match p with CallInsert _ _ => true | _ => false end) = false →
  call p d p' d' → rows d' = rows d.
Proof.
  intros Hp Hc. destruct Hc as [| |? ? ? ? r ? H|? ? ? r ? H]; [done|by destruct H as [-> _]|by destruct H as [-> _]|].
  destruct r as [u|e]; cbn in H; [by destruct H as (_ & ? & _ & ->)|].
  destruct (errors_Is e _); [by destruct H as [-> _]|]. destruct H as [->|(_ & ? & _ & ->)]; done.
Qed.

Lemma lookup_replaced (cs : list (Transaction * phase)) i j c c' : <[i := c]> cs !! j = Some c' →
  (j = i ∧ c' = c) ∨ (j ≠ i ∧ cs !! j = Some c').
Proof.
  intros H. destruct (decide (j = i)) as [->|Hne]; [|right; split; [done|by rewrite list_lookup_insert_ne in H]].
  left. split; [done|]. apply list_lookup_insert_Some in H as [(_ & <- & _)|[? _]]; done.
Qed.

Lemma seq_ok_replace cs d seq i c c0 rs : seq_ok (Build_server cs d seq) → cs !! i = Some c0 →
  drawn c = None → rows d = rs → ∀ sts, seq_ok (Build_server (<[i := c]> cs) {| rows := rs; states := sts |} seq).
Proof.
  intros [H1 H2 H3] Hi Hc <- sts. split; cbn in *; [done|..].
  - intros j c' id [[-> ->]|[_ Hj]]%lookup_replaced Hd; [congruence|by eapply H2].
  - intros j j' c1 c2 id [[-> ->]|[_ Hj]]%lookup_replaced [[-> ->]|[_ Hj']]%lookup_replaced E1 E2; [done|congruence..|by eapply H3].
Qed.

Lemma statement_seq s s' : statement s s' → seq_ok s → seq_ok s'.
Proof.
  destruct 1 as [cs d seq i txn Hi|cs d seq i txn id row r Hi Hid Hs Hall Hr|cs d seq i txn id e Hi He|cs d seq i txn p p' d' Hi Hp Hc];
    intros Hok; pose proof Hok as [H1 H2 H3]; cbn in *.
  - split; cbn.
    + eapply Forall_impl; [exact H1|]. cbn. lia.
    + intros j c id [[-> ->]|[_ Hj]]%lookup_replaced Hd.
      * injection Hd as <-. split; [lia|]. eapply Forall_impl; [exact H1|]. cbn. lia.
      * destruct (H2 j c id Hj Hd). split; [lia|done].
    + assert (∀ j c, cs !! j = Some c → drawn c ≠ Some seq) as Hnew by (intros j c Hj Hd; destruct (H2 j c seq Hj Hd); lia).
      intros j j' c1 c2 id [[-> ->]|[_ Hj]]%lookup_replaced [[-> ->]|[_ Hj']]%lookup_replaced E1 E2; [done|..|by eapply H3].
      * injection E1 as <-. by apply Hnew in Hj'.
      * injection E2 as <-. by apply Hnew in Hj.
  - destruct (H2 i _ id Hi eq_refl) as [Hlt Hfresh].
    pose proof (seq_ok_replace cs d seq i (txn, Running (afterInsert txn r)) _ _ Hok Hi eq_refl eq_refl (states d)) as [K1 K2 K3].
    split; cbn in *; [apply Forall_app; split; [done|]; repeat constructor; lia| |done].
    intros j c id' Hj Hd. destruct (K2 j c id' Hj Hd) as [Hl Hf]. split; [done|]. apply Forall_app. split; [done|].
    repeat constructor. rewrite Hid. intros <-. apply lookup_replaced in Hj as [[-> ->]|[Hne Hj]]; [done|].
    apply Hne. by eapply (H3 j i).
  - destruct d. by eapply seq_ok_replace.
  - pose proof (call_rows_same _ _ _ _ Hp Hc) as E. destruct d' as [rs sts]. cbn in E. by eapply seq_ok_replace.
Qed.

Lemma arrive_seq s txn : seq_ok s → seq_ok (arrive txn s).
Proof.
  intros [H1 H2 H3]. assert (∀ i c id, (calls s ++ [(txn, Running (Reconcile txn))]) !! i = Some c → drawn c = Some id →
    calls s !! i = Some c) as Hl.
  { intros i c id [H|[_ H]]%lookup_app_Some Hd; [done|]. by apply list_lookup_singleton_Some in H as [_ <-]. }
  split; cbn; [done|intros; by eapply H2; eauto|intros; eapply H3; eauto].
Qed.

(** ** Free sessions refine the pool

    Seen from the pool, an INSERT happens when its row is committed. *)
Definition pool_phase (c : Transaction * phase) : Transaction * prog (result unit) :=
  (c.1, match c.2 with Running p => p | Inserting _ => Reconcile c.1 end).
Definition pool_view (s : server) : Pool := (pool_phase <$> calls s, db s).

Lemma pool_view_replace (cs : list (Transaction * phase)) i c : pool_phase <$> <[i := c]> cs = <[i := pool_phase c]> (pool_phase <$> cs).
Proof. apply list_fmap_insert. Qed.

Lemma statement_pool s s' : statement s s' → seq_ok s → pool_view s' = pool_view s ∨ pool_step (pool_view s) (pool_view s').
Proof.
  assert (∀ (cs : list (Transaction * phase)) i c, cs !! i = Some c → (pool_phase <$> cs) !! i = Some (pool_phase c)) as Hl
    by (intros cs i c Hi; by rewrite list_lookup_fmap, Hi).
  destruct 1 as [cs d seq i txn Hi|cs d seq i txn id row r Hi Hid Hs Hall Hr|cs d seq i txn id e Hi He|cs d seq i txn p p' d' Hi Hp Hc];
    intros [_ H2 _]; unfold pool_view; cbn [calls db]; rewrite pool_view_replace.
  - left. f_equal. apply list_insert_id. by rewrite (Hl _ _ _ Hi).
  - right. eapply pool_call; [apply (Hl _ _ _ Hi)|]. apply call_insert. destruct (H2 i _ id Hi eq_refl) as [_ Hf].
    assert (inserted txn d row {| rows := rows d ++ [row]; states := states d |}) as Hins.
    { split; [done|]. split; [|done]. cbn in Hf. rewrite Forall_forall in *. intros r' Hr'. rewrite Hid. auto. }
    destruct r as [row'|e]; cbn; [by subst row'|]. rewrite Hr. right. by exists row.
  - right. eapply pool_call; [apply (Hl _ _ _ Hi)|]. apply call_insert. cbn. destruct (errors_Is e ErrDuplicateEvent); auto.
  - right. by eapply pool_call; [apply (Hl _ _ _ Hi)|].
Qed.

Lemma empty_seq : seq_ok emptyServer.
Proof. split; cbn; [constructor|done|done]. Qed.

Lemma session_reachable s : rtc session_step emptyServer s → seq_ok s ∧ rtc pool_step ([], emptyDatabase) (pool_view s).
Proof.
  apply (rtc_ind_r (λ s, seq_ok s ∧ rtc pool_step ([], emptyDatabase) (pool_view s))); [split; [apply empty_seq|apply rtc_refl]|].
  intros s1 s2 _ Hstep [Hq Hp]. destruct Hstep as [s1 s2 Hs|s1 txn].
  - split; [by eapply statement_seq|]. destruct (statement_pool s1 s2 Hs Hq) as [->|Hs']; [done|by eapply rtc_r].
  - split; [by apply arrive_seq|]. eapply rtc_r; [exact Hp|]. unfold pool_view, arrive. cbn. rewrite fmap_app. apply pool_arrive.
Qed.

(** C8. Overlapping INSERTs are harmless to the accounting: on sessions whose rows are
    committed in any order relative to their ids, with answers lost and calls stopped
    anywhere, event ids stay unique, each stored state is the accounting of some of
    its own key's rows, each taken once and in id order, and a call that has returned
    nil has its own trade in the ledger with its own key's state moved up to it,
    unless another call brought another trade under the same event id. *)
Theorem sessions_account s : rtc session_step emptyServer s →
  NoDup (EventID <$> rows (db s)) ∧
  (∀ k st, states (db s) !! k = Some st → applied k (db s) st) ∧
  (∀ txn, (txn, Running (Return (Ok tt))) ∈ calls s →
   recorded (db s) txn ∨
   ∃ other, other ∈ (calls s).*1 ∧ EventID other = EventID txn ∧ ¬ same_trade other txn ∧ recorded (db s) other).
Proof.
  intros [_ Hp]%session_reachable. pose proof (pool_inv _ _ Hp) as [[[[_ Hs] _] Ha] _].
  split; [done|]. split; [exact Ha|]. intros txn Hin.
  assert ((pool_phase <$> calls s).*1 = (calls s).*1) as <-.
  { rewrite <-list_fmap_compose. apply list_fmap_ext. by intros i [t []] _. }
  apply nil_recorded; [exact Hp|]. exact (list_elem_of_fmap_2 pool_phase _ _ Hin).
Qed.

(** ** In-order delivery

    What Reconcile relies on: a new event of a key arrives once every earlier one of
    that key has been reconciled; events that have arrived may be delivered again at
    any time, by any number of callers.  [log] holds the events in order of arrival. *)
Record delivery := { log : list Transaction; srv : server }.

Definition finished (s : server) (event : UUID) : Prop :=
  ∃ txn, (txn, Running (Return (Ok tt))) ∈ calls s ∧ EventID txn = event.

Inductive delivery_step : delivery → delivery → Prop :=
  | delivery_statement lg s s' : statement s s' → delivery_step (Build_delivery lg s) (Build_delivery lg s')
  | new_event lg s txn :
      Forall (λ t, EventID t ≠ EventID txn) lg →
      Forall (λ t, txn_key t = txn_key txn → finished s (EventID t)) lg →
      delivery_step (Build_delivery lg s) (Build_delivery (lg ++ [txn]) (arrive txn s))
  | redelivered lg s t txn :
      t ∈ lg → same_trade t txn → delivery_step (Build_delivery lg s) (Build_delivery lg (arrive txn s)).

Lemma delivery_session x : rtc delivery_step {| log := []; srv := emptyServer |} x → rtc session_step emptyServer (srv x).
Proof.
  apply (rtc_ind_r (λ x, rtc session_step emptyServer (srv x))); [apply rtc_refl|].
  intros x1 x2 _ Hstep IH. eapply rtc_r; [exact IH|]. destruct Hstep; by constructor.
Qed.

(** The events of a key. *)
Definition log_of (k : string * string) (lg : list Transaction) : list Transaction := base.filter (λ t, txn_key t = k) lg.

(** Where a key's newest event is. *)
Inductive key_state (k : string * string) (lg : list Transaction) (d : Database) : Prop :=
  | key_settled :
      Forall2 same_trade (log_of k lg) (key_rows k d) → accounts_for k d (key_rows k d) → key_state k lg d
  | key_committed l row :
      Forall2 same_trade (log_of k lg) (key_rows k d) → key_rows k d = l ++ [row] → accounts_for k d l → key_state k lg d
  | key_waiting ts t :
      log_of k lg = ts ++ [t] → Forall2 same_trade ts (key_rows k d) → accounts_for k d (key_rows k d) →
      Forall (λ r, EventID r ≠ EventID t) (rows d) → key_state k lg d.

(** An update about to be stored: it comes too late, or adds the newest row to all others. *)
Definition upsert_ok (u : ReconciledState) (d : Database) : Prop :=
  ∃ row, row ∈ rows d ∧ update_for u row ∧ (covers d row = true ∨ adds_newest u row d).

Definition phase_ok (d : Database) (txn : Transaction) (p : phase) : Prop :=
  match p with
  | Inserting id => Forall (λ r, EventID r ≠ EventID txn) (rows d) → Forall (λ r, ID r < id) (key_rows (txn_key txn) d)
  | Running (CallUpsert u _) => upsert_ok u d
  | Running _ => True
  end.

Definition call_ok (lg : list Transaction) (d : Database) (c : Transaction * phase) : Prop :=
  (∃ t, t ∈ lg ∧ same_trade t c.1) ∧ phase_ok d c.1 c.2.

Record delivery_inv (lg : list Transaction) (cs : list (Transaction * phase)) (d : Database) : Prop := {
  inv_events : NoDup (EventID <$> lg);
  inv_keys k : key_state k lg d;
  inv_order k : key_ordered k d;
  inv_calls : Forall (call_ok lg d) cs
}.


Lemma elem_of_log k lg t : t ∈ log_of k lg ↔ txn_key t = k ∧ t ∈ lg.
Proof. unfold log_of. by rewrite list_elem_of_filter. Qed.

Lemma log_of_snoc k lg t : log_of k (lg ++ [t]) = log_of k lg ++ (if decide (txn_key t = k) then [t] else []).
Proof. unfold log_of. rewrite filter_app, filter_cons, filter_nil. by case_decide. Qed.

Lemma key_state_newest k lg d : key_state k lg d → up_to_newest k d.
Proof. intros [_ Ha|l x _ E Ha|ts t _ _ Ha _]; [by left|right; by exists l, x|by left]. Qed.

(** A key with a row its state does not cover has all its events in the ledger. *)
Lemma uncovered_logged k lg d row : key_state k lg d → key_ordered k d → row ∈ key_rows k d → covers d row = false →
  Forall2 same_trade (log_of k lg) (key_rows k d).
Proof.
  intros [H2 _|l x H2 _ _|ts t _ _ Ha _] Ho Hin Hc; [done|done|]. pose proof (proj1 (proj1 (elem_of_key_rows k d row) Hin)) as Hkey.
  by rewrite (accounts_covers k d _ row Ho Ha Hin Hkey) in Hc.
Qed.

(** *** Steps *)
Lemma Forall2_left {A B} (P : A → B → Prop) l l' x : Forall2 P l l' → x ∈ l → ∃ y, y ∈ l' ∧ P x y.
Proof.
  intros H [i Hi]%list_elem_of_lookup. destruct (Forall2_lookup_l _ _ _ _ _ H Hi) as (y & Hy & HP).
  exists y. split; [by eapply list_elem_of_lookup_2|done].
Qed.

Lemma Forall2_right {A B} (P : A → B → Prop) l l' y : Forall2 P l l' → y ∈ l' → ∃ x, x ∈ l ∧ P x y.
Proof.
  intros H [i Hi]%list_elem_of_lookup. destruct (Forall2_lookup_r _ _ _ _ _ H Hi) as (x & Hx & HP).
  exists x. split; [by eapply list_elem_of_lookup_2|done].
Qed.

(** Every row is an event that has arrived. *)
Lemma row_arrived lg d row : (∀ k, key_state k lg d) → row ∈ rows d → ∃ t, t ∈ lg ∧ same_trade t row.
Proof.
  intros Hk Hin. assert (row ∈ key_rows (txn_key row) d) as Hr by by apply elem_of_key_rows.
  assert (∃ t, t ∈ log_of (txn_key row) lg ∧ same_trade t row) as (t & Ht & Hs).
  { destruct (Hk (txn_key row)) as [H2 _|l x H2 _ _|ts t E H2 _ _]; try by eapply Forall2_right.
    destruct (Forall2_right _ _ _ _ H2 Hr) as (t' & Ht' & Hs). exists t'. rewrite E, elem_of_app. auto. }
  exists t. by apply elem_of_log in Ht as [_ Ht].
Qed.

(** An event that has arrived and has no row is the newest of its key. *)
Lemma missing_waiting lg d t : (∀ k, key_state k lg d) → t ∈ lg → Forall (λ r, EventID r ≠ EventID t) (rows d) →
  ∃ ts, log_of (txn_key t) lg = ts ++ [t] ∧ Forall2 same_trade ts (key_rows (txn_key t) d) ∧
    accounts_for (txn_key t) d (key_rows (txn_key t) d).
Proof.
  intros Hk Hin Hno. rewrite Forall_forall in Hno.
  assert (∀ ts, Forall2 same_trade ts (key_rows (txn_key t) d) → t ∉ ts) as Hnot.
  { intros ts H2 Ht. destruct (Forall2_left _ _ _ _ H2 Ht) as (r & [_ Hr]%elem_of_key_rows & Hs).
    apply (Hno r Hr). symmetry. by apply same_trade_event. }
  assert (t ∈ log_of (txn_key t) lg) as Ht by by apply elem_of_log.
  destruct (Hk (txn_key t)) as [H2 _|l x H2 _ _|ts t' E H2 Ha _]; [by apply Hnot in H2|by apply Hnot in H2|].
  rewrite E in Ht. apply elem_of_app in Ht as [Ht|Ht%list_elem_of_singleton]; [by apply Hnot in H2|subst t'].
  by exists ts.
Qed.

Lemma inv_replace lg cs d i c0 c : delivery_inv lg cs d → cs !! i = Some c0 → c.1 = c0.1 → phase_ok d c.1 c.2 →
  delivery_inv lg (<[i := c]> cs) d.
Proof.
  intros [H1 H2 H3 H4] Hi E Hp. split; [done..|]. apply Forall_insert; [done|]. split; [|done]. rewrite E.
  by destruct (Forall_lookup_1 _ _ _ _ H4 Hi).
Qed.

(** A commit appends the newest event's row. *)
Lemma commit_keys lg cs d txn id row i : delivery_inv lg cs d → cs !! i = Some (txn, Inserting id) → ID row = id →
  same_trade txn row → Forall (λ r, EventID r ≠ EventID txn) (rows d) →
  delivery_inv lg cs {| rows := rows d ++ [row]; states := states d |}.
Proof.
  intros [He Hk Ho Hc] Hi Hid Hs Hno. set (d' := {| rows := rows d ++ [row]; states := states d |}).
  destruct (Forall_lookup_1 _ _ _ _ Hc Hi) as [(t & Ht & Hst) Hfl]. cbn in Hst, Hfl. specialize (Hfl Hno).
  pose proof (same_trade_key _ _ Hst) as Ekt. pose proof (same_trade_event _ _ Hst) as Eet.
  pose proof (same_trade_key _ _ Hs) as Ekr. pose proof (same_trade_event _ _ Hs) as Eer.
  assert (same_trade t row) as Htr.
  { destruct Hst as (?&?&?&?&?&?), Hs as (?&?&?&?&?&?). unfold same_trade. split_and!; congruence. }
  destruct (missing_waiting lg d t Hk Ht) as (ts & El & H2 & Ha); [by rewrite Eet|].
  assert (∀ k, accounts_for k d' = accounts_for k d) as Hacc by done.
  assert (∀ k, key_rows k d' = key_rows k d ++ (if decide (txn_key row = k) then [row] else [])) as Hrows
    by (intros k; apply key_rows_snoc).
  split; [done|..].
  - intros k. destruct (decide (txn_key row = k)) as [<-|Hne].
    + assert (txn_key row = txn_key t) as E by congruence. rewrite E.
      apply (key_committed _ _ _ (key_rows (txn_key t) d) row); rewrite ?Hrows, ?(decide_True _ _ E), ?El; [|done|done].
      apply Forall2_app; [done|by constructor].
    + destruct (Hk k) as [K1 K2|l x K1 K2 K3|ts' t' K1 K2 K3 K4].
      * apply key_settled; rewrite ?Hrows, decide_False, List.app_nil_r by done; done.
      * apply (key_committed _ _ _ l x); rewrite ?Hrows, ?decide_False, ?List.app_nil_r by done; done.
      * apply (key_waiting _ _ _ ts' t'); rewrite ?Hrows, ?decide_False, ?List.app_nil_r by done; [done..|].
        apply Forall_app. split; [done|]. repeat constructor. intros E. apply Hne.
        assert (t' ∈ log_of k lg) as [Ek Ht']%elem_of_log by (rewrite K1, elem_of_app; right; apply list_elem_of_here).
        assert (t = t') as <- by (eapply event_determines; [done..|congruence]). congruence.
  - intros k. unfold key_ordered. rewrite Hrows. destruct (decide (txn_key row = k)) as [<-|Hne]; [|rewrite List.app_nil_r; apply Ho].
    apply sorted_snoc; [apply Ho|]. by rewrite <-Ekr, Hid.
  - eapply Forall_impl; [exact Hc|]. intros [txn' p] [(t' & Ht' & Hst') Hp]. split; [by exists t'|]. cbn [fst snd phase_ok] in *.
    destruct p as [p|id']; [destruct p as [| | | |u k']; try done|].
    + destruct Hp as (row' & Hin & Hu & Hor). exists row'. split; [apply elem_of_app; auto|]. split; [done|].
      destruct Hor as [Hcov|(l & st' & Er & Hor)]; [by left|]. destruct (decide (txn_key row = txn_key row')) as [E|Hne].
      * left. change (covers d row' = true). assert (txn_key row' = txn_key t) as E' by congruence.
        eapply (accounts_covers (txn_key t) d (key_rows (txn_key t) d)); [apply Ho|done|by apply elem_of_key_rows|done].
      * right. exists l, st'. by rewrite Hrows, decide_False, List.app_nil_r.
    + intros [Hno' Hne]%Forall_app. rewrite Forall_singleton in Hne. rewrite Hrows.
      destruct (decide (txn_key row = txn_key txn')) as [E|Hne']; [|rewrite List.app_nil_r; by apply Hp].
      pose proof (same_trade_event _ _ Hst') as Eet'. pose proof (same_trade_key _ _ Hst') as Ekt'.
      destruct (missing_waiting lg d t' Hk Ht') as (ts' & El' & _); [by rewrite Eet'|].
      assert (txn_key t' = txn_key t) as Ek by congruence. rewrite Ek, El in El'. apply app_inj_2 in El' as [_ [= ->]]; [|done].
      congruence.
Qed.

(** Storing an update that advances the state settles the key. *)
Lemma upsert_keys lg cs d d' u : delivery_inv lg cs d → upsert_ok u d → upserted u d d' → delivery_inv lg cs d'.
Proof.
  intros [He Hk Ho Hc] (row & Hin & Hu & Hor) Hup. pose proof (upserted_uncovered u row d d' Hu Hup) as Hnc.
  destruct Hor as [Hcov|Hnew]; [congruence|].
  destruct (upserted_newest u row d d' Hu Hnew Hup) as (Er & Hacc & Hother).
  assert (∀ k, key_rows k d' = key_rows k d) as Ek by (intros k; unfold key_rows; by rewrite Er).
  assert (row ∈ key_rows (txn_key row) d) as Hrow by by apply elem_of_key_rows.
  pose proof (uncovered_logged _ lg d row (Hk _) (Ho _) Hrow Hnc) as H2.
  split; [done| |intros k; unfold key_ordered; rewrite Ek; apply Ho|].
  - intros k. destruct (decide (k = txn_key row)) as [->|Hne]; [apply key_settled; [by rewrite Ek|done]|].
    pose proof (λ l, accounts_for_states k d d' l (Hother k Hne)) as Hst.
    destruct (Hk k) as [K1 K2|l' x K1 K2 K3|ts' t' K1 K2 K3 K4].
    + apply key_settled; rewrite Ek; auto.
    + apply (key_committed _ _ _ l' x); rewrite ?Ek; auto.
    + apply (key_waiting _ _ _ ts' t'); rewrite ?Ek, ?Er; auto.
  - eapply Forall_impl; [exact Hc|]. intros [txn' p] [Ht' Hp]. split; [done|]. cbn [fst snd phase_ok] in *.
    destruct p as [p|id']; [destruct p as [| | | |v k']; try done|cbn [phase_ok]; by rewrite Er, Ek].
    destruct Hp as (row' & Hin' & Hu' & Hor'). exists row'. rewrite Er. split; [done|]. split; [done|].
    destruct (decide (txn_key row' = txn_key row)) as [E|Hne].
    + left. eapply (accounts_covers _ d'); [|exact Hacc|rewrite Ek, <-E; by apply elem_of_key_rows|done]. rewrite Ek. apply Ho.
    + destruct Hor' as [Hcov2|(l & st' & Hl)]; [left|right; exists l, st'; by rewrite Ek]. unfold covers, watermark in *. by rewrite Hother.
Qed.

Lemma foldInto_phase lg cs d txn row : delivery_inv lg cs d → row ∈ rows d → db_wf d →
  phase_ok d txn (Running (foldInto row (currentState d row))).
Proof.
  intros [_ Hk Ho _] Hin Hwf. unfold foldInto.
  assert (match LastTransactionID (currentState d row) with Some id => ID row <=? id | None => false end = covers d row) as ->.
  { unfold covers, watermark, currentState. by destruct (states d !! txn_key row). }
  destruct (covers d row) eqn:Hc; [done|]. destruct (applyTransaction _ row) as [u|e] eqn:Happ; [|done].
  destruct (apply_newest d row u (key_state_newest _ _ _ (Hk _)) (Ho _) Hin Hwf Hc Happ) as [Hu Hn].
  exists row. auto.
Qed.

Lemma call_inv lg cs d i txn p p' d' : delivery_inv lg cs d → db_wf d → cs !! i = Some (txn, Running p) →
  thread_ok d txn p → is_insert p = false → call p d p' d' → delivery_inv lg (<[i := (txn, Running p')]> cs) d'.
Proof.
  intros Hi Hwf Hcs Ht Hp Hc. pose proof (Forall_lookup_1 _ _ _ _ (inv_calls _ _ _ Hi) Hcs) as [_ Hph]. cbn in Hph.
  destruct Ht as [| |row Hin He|row u l st st' Hin He Hl Hlt Hrep Happ Heq| |]; [done|..]; inversion Hc; subst.
  - match goal with H : get_by_event_post _ _ ?r _ |- _ => destruct H as [-> _]; destruct r end; by eapply inv_replace.
  - match goal with H : get_post _ _ ?r _ |- _ => destruct H as [-> HP]; destruct r as [st|e] end;
      (eapply inv_replace; [done|done|done|]); cbn [fst snd afterGet].
    + assert (currentState d row = st) as <- by (unfold currentState, txn_key; by rewrite HP). by eapply foldInto_phase.
    + destruct (errors_Is e ErrNotFound) eqn:E; cbn [negb]; [|done]. specialize (HP eq_refl).
      assert (currentState d row = zeroState (TenantID row) (Instrument row)) as <- by (unfold currentState, txn_key; by rewrite HP).
      by eapply foldInto_phase.
  - assert (∀ r, phase_ok d' txn (Running (finishUpsert r))) as Hfin by (intros [|e]; cbn; [done|by destruct (errors_Is e _)]).
    match goal with H : upsert_post _ _ ?r _ |- _ => rename H into HP; assert (d' = d ∨ upserted u d d') as [->|Hup]
      by (destruct r as [[]|e]; cbn in HP; [auto|]; destruct (errors_Is e _); [destruct HP; auto|done]) end.
    + eapply inv_replace; [done|done|done|apply Hfin].
    + eapply inv_replace; [by eapply upsert_keys|done|done|apply Hfin].
Qed.

Lemma statement_inv lg s s' : statement s s' → seq_ok s → delivery_inv lg (calls s) (db s) → db_wf (db s) →
  Forall (λ t, thread_ok (db s) t.1 t.2) (pool_phase <$> calls s) → delivery_inv lg (calls s') (db s').
Proof.
  destruct 1 as [cs d seq i txn Hi|cs d seq i txn id row r Hi Hid Hs Hall Hr|cs d seq i txn id e Hi He|cs d seq i txn p p' d' Hi Hp Hc];
    intros Hq Hinv Hwf Hts; cbn [calls db] in *.
  - eapply inv_replace; [done|done|done|]. intros _. apply Forall_forall. intros r [_ Hr]%elem_of_key_rows.
    pose proof (seq_rows _ Hq) as Hseq. cbn in Hseq. rewrite Forall_forall in Hseq. by apply Hseq.
  - eapply inv_replace; [by eapply commit_keys|done|done|]. destruct r as [row'|e]; cbn; [done|]. by rewrite Hr.
  - eapply inv_replace; [done|done|done|]. cbn. by destruct (errors_Is e _).
  - eapply call_inv; [done|done|done| |done|done]. rewrite Forall_fmap, Forall_forall in Hts.
    apply (Hts (txn, Running p)). by eapply list_elem_of_lookup_2.
Qed.

(** *** Arrivals *)
Lemma finished_settled d cs event : Forall (λ t, thread_ok d t.1 t.2) (pool_phase <$> cs) →
  (∃ txn, (txn, Running (Return (Ok tt))) ∈ cs ∧ EventID txn = event) →
  ∃ row, row ∈ rows d ∧ EventID row = event ∧ covers d row = true.
Proof.
  intros Hts (txn & Hin & <-). rewrite Forall_fmap, Forall_forall in Hts. specialize (Hts _ Hin). cbn in Hts.
  inversion Hts as [| | | |Hs|]; subst. destruct Hs as (row & w & Hr & He & Hw & Hle). exists row. split; [done|]. split; [done|].
  unfold covers. rewrite Hw. by apply Z.leb_le.
Qed.

(** A key whose events have all been reconciled is settled. *)
Lemma all_finished_settled lg cs d k : delivery_inv lg cs d → db_wf d → Forall (λ t, thread_ok d t.1 t.2) (pool_phase <$> cs) →
  Forall (λ t, txn_key t = k → ∃ txn, (txn, Running (Return (Ok tt))) ∈ cs ∧ EventID txn = EventID t) lg →
  Forall2 same_trade (log_of k lg) (key_rows k d) ∧ accounts_for k d (key_rows k d).
Proof.
  intros [He Hk Ho Hc] [[_ Hev] _] Hts Hfin. rewrite Forall_forall in Hfin.
  assert (∀ t, t ∈ log_of k lg → ∃ row, row ∈ rows d ∧ EventID row = EventID t ∧ covers d row = true) as Hset.
  { intros t [Ekt Ht]%elem_of_log. by eapply finished_settled, Hfin. }
  destruct (Hk k) as [H2 Ha|l row H2 Er Ha|ts t El _ _ Hno]; [done|exfalso|exfalso].
  - assert (row ∈ key_rows k d) as Hrow by (rewrite Er, elem_of_app; right; apply list_elem_of_here).
    destruct (Forall2_right _ _ _ _ H2 Hrow) as (t & Ht & Hs). destruct (Hset t Ht) as (row' & Hin' & Ee & Hcov).
    apply elem_of_key_rows in Hrow as [Ekr Hrow].
    assert (row' = row) as -> by (eapply event_determines; [done..|]; rewrite Ee; by apply same_trade_event).
    rewrite (newest_not_covered k d l row) in Hcov; [done| |done|done]. rewrite <-Er. apply Ho.
  - destruct (Hset t) as (row & Hin & Ee & _); [rewrite El, elem_of_app; right; apply list_elem_of_here|].
    rewrite Forall_forall in Hno. by apply (Hno row).
Qed.

Lemma arrive_inv lg lg' cs d txn : delivery_inv lg cs d → (∀ t, t ∈ lg → t ∈ lg') → NoDup (EventID <$> lg') →
  (∀ k, key_state k lg' d) → (∃ t, t ∈ lg' ∧ same_trade t txn) →
  delivery_inv lg' (cs ++ [(txn, Running (Reconcile txn))]) d.
Proof.
  intros [He Hk Ho Hc] Hsub Hn Hk' Ht. split; [done..|]. apply Forall_app. split; [|by repeat constructor].
  eapply Forall_impl; [exact Hc|]. intros c [(t & Hin & Hs) Hp]. split; [|done]. exists t. auto.
Qed.

Lemma new_event_inv lg cs d txn : delivery_inv lg cs d → db_wf d → Forall (λ t, thread_ok d t.1 t.2) (pool_phase <$> cs) →
  Forall (λ t, EventID t ≠ EventID txn) lg →
  Forall (λ t, txn_key t = txn_key txn → ∃ txn, (txn, Running (Return (Ok tt))) ∈ cs ∧ EventID txn = EventID t) lg →
  delivery_inv (lg ++ [txn]) (cs ++ [(txn, Running (Reconcile txn))]) d.
Proof.
  intros Hi Hwf Hts Hnew Hfin. pose proof (all_finished_settled lg cs d _ Hi Hwf Hts Hfin) as [H2 Ha].
  pose proof Hi as [He Hk _ _]. rewrite Forall_forall in Hnew.
  apply (arrive_inv lg); [done|intros t Ht; apply elem_of_app; auto|..].
  - rewrite fmap_app, NoDup_app. split; [done|]. split; [|apply NoDup_singleton].
    intros e (t & -> & Ht)%list_elem_of_fmap E%list_elem_of_singleton. by apply (Hnew t).
  - intros k. destruct (decide (txn_key txn = k)) as [<-|Hne].
    + apply (key_waiting _ _ _ (log_of (txn_key txn) lg) txn); [by rewrite log_of_snoc, decide_True|done|done|].
      apply Forall_forall. intros r Hr E. destruct (row_arrived lg d r Hk Hr) as (t & Ht & Hs).
      apply (Hnew t Ht). rewrite <-E. by apply same_trade_event.
    + assert (log_of k (lg ++ [txn]) = log_of k lg) as El by (by rewrite log_of_snoc, decide_False, List.app_nil_r).
      destruct (Hk k) as [K1 K2|l x K1 K2 K3|ts t K1 K2 K3 K4].
      * apply key_settled; rewrite ?El; done.
      * apply (key_committed _ _ _ l x); rewrite ?El; done.
      * apply (key_waiting _ _ _ ts t); rewrite ?El; done.
  - exists txn. split; [apply elem_of_app; right; apply list_elem_of_here|done].
Qed.

Definition emptyDelivery : delivery := {| log := []; srv := emptyServer |}.

Lemma delivery_pool x : rtc delivery_step emptyDelivery x →
  seq_ok (srv x) ∧ db_wf (db (srv x)) ∧ Forall (λ t, thread_ok (db (srv x)) t.1 t.2) (pool_phase <$> calls (srv x)).
Proof.
  intros [Hq Hp]%delivery_session%session_reachable. split; [done|]. apply pool_inv in Hp as [[Hwf _] Hts]. done.
Qed.

Lemma delivery_reachable x : rtc delivery_step emptyDelivery x → delivery_inv (log x) (calls (srv x)) (db (srv x)).
Proof.
  apply (rtc_ind_r (λ x, delivery_inv (log x) (calls (srv x)) (db (srv x)))).
  - split; cbn; [constructor|intros k; apply key_settled; [constructor|done]|constructor|constructor].
  - intros x1 x2 Hr Hstep IH. destruct (delivery_pool x1 Hr) as (Hq & Hwf & Hts).
    destruct Hstep as [lg s s' Hs|lg s txn Hnew Hfin|lg s t txn Ht Hst]; cbn [log srv] in *.
    + by eapply statement_inv.
    + by apply new_event_inv.
    + pose proof IH as [He Hk _ _]. apply (arrive_inv lg); eauto.
Qed.

Lemma trades_same (lg rs : list Transaction) : Forall2 same_trade lg rs →
  volume rs = volume lg ∧ net rs = net lg ∧ (Forall (λ t, 0 < Quantity t) lg → Forall (λ t, 0 < Quantity t) rs).
Proof.
  unfold volume, net. induction 1 as [|t r lg rs (_ & _ & _ & Es & Eq & _) _ (IH1 & IH2 & IH3)]; [done|]. cbn.
  rewrite IH1, IH2. unfold signedQuantity. rewrite Es, Eq. split; [done|]. split; [done|].
  intros [H1 H2]%Forall_cons. constructor; [lia|auto].
Qed.

(** C4. Exactly once, in order: if a key's new events arrive only after its earlier ones have
    been reconciled, then, whatever the interleaving with other keys and with
    redeliveries to any number of callers, and whatever INSERTs overlap, answers are
    lost or calls die, once its events are reconciled the key's ledger holds exactly
    these events in order, with increasing ids, and its stored state is the
    accounting of exactly them; its position is buys minus sells of all of them, if
    their volume fits in int64. *)
Theorem in_order_exact x k : rtc delivery_step emptyDelivery x →
  Forall (λ t, txn_key t = k → finished (srv x) (EventID t)) (log x) →
  let d := db (srv x) in
  Forall2 same_trade (log_of k (log x)) (key_rows k d) ∧
  key_ordered k d ∧ accounts_for k d (key_rows k d) ∧
  (∀ st, states d !! k = Some st → Forall (λ t, 0 < Quantity t) (log_of k (log x)) →
   volume (log_of k (log x)) ≤ MaxInt64 → Position st = net (log_of k (log x))).
Proof.
  intros Hr Hfin d. subst d. destruct (delivery_pool x Hr) as (_ & Hwf & Hts). pose proof (delivery_reachable x Hr) as Hi.
  destruct (all_finished_settled _ _ _ k Hi Hwf Hts Hfin) as [H2 Ha].
  split; [done|]. split; [by apply (inv_order _ _ _ Hi)|]. split; [done|]. intros st Hst Hq Hv.
  destruct (trades_same _ _ H2) as (Ev & En & Hpos). rewrite <-En.
  apply (accounts_position k); [done|done|by apply Hpos|by rewrite Ev].
Qed.

(** ** A scheduler of sessions that meet no faults *)

(** The next answer of a healthy server to call [i]. *)
Definition answer (d : Database) (p : prog (result unit)) : option (prog (result unit) * Database) :=
  match p with
  | CallGetByEventID id k =>
      Some (k match List.find (λ r, bool_decide (EventID r = id)) (rows d) with
              | Some row => Ok row
              | None => Err (Sentinel ErrNotFound)
              end, d)
  | CallGet t i k =>
      Some (k match states d !! (t, i) with Some st => Ok st | None => Err (Sentinel ErrNotFound) end, d)
  | CallUpsert st k =>
      Some (if advances st d then (k (Ok tt), {| rows := rows d; states := <[state_key st := st]> (states d) |})
            else (k (Err (Sentinel ErrStaleReconciledState)), d))
  | CallInsert _ _ | Return _ => None
  end.

Definition advance (i : nat) (s : server) : option server :=
  match calls s !! i with
  | Some (txn, Inserting id) =>
      if existsb (λ r, bool_decide (EventID r = EventID txn)) (rows (db s))
      then Some (Build_server (<[i := (txn, Running (afterInsert txn (Err (Sentinel ErrDuplicateEvent))))]> (calls s)) (db s) (id_seq s))
      else let row := with_id txn id 0 in
        Some (Build_server (<[i := (txn, Running (afterInsert txn (Ok row)))]> (calls s))
                {| rows := rows (db s) ++ [row]; states := states (db s) |} (id_seq s))
  | Some (txn, Running (CallInsert t k)) =>
      Some (Build_server (<[i := (txn, Inserting (id_seq s))]> (calls s)) (db s) (id_seq s + 1))
  | Some (txn, Running p) =>
      '(p', d') ← answer (db s) p; Some (Build_server (<[i := (txn, Running p')]> (calls s)) d' (id_seq s))
  | None => None
  end.

Lemma answer_call d p p' d' : answer d p = Some (p', d') → call p d p' d'.
Proof.
  destruct p as [a|txn k|id k|t i k|st k]; cbn; try done; [intros [= <- <-]..|].
  - apply call_get_by_event. split; [done|]. destruct (List.find _ _) as [row|] eqn:E.
    + apply List.find_some in E as [Hin E]. bool_props. split; [by apply list_elem_of_In|done].
    + intros _. apply Forall_forall. intros r Hr. apply list_elem_of_In in Hr. pose proof (List.find_none _ _ E r Hr) as Hn. cbn in Hn. by bool_props.
  - apply call_get. split; [done|]. by destruct (states d !! (t, i)) eqn:E.
  - destruct (advances st d) eqn:E; intros [= <- <-]; apply call_upsert; cbn; [|done]. split; [done|]. by exists st.
Qed.

(** A call that is about to INSERT is at the start of its Reconcile. *)
Lemma advance_statement i s s' : Forall (λ t, thread_ok (db s) t.1 t.2) (pool_phase <$> calls s) →
  advance i s = Some s' → statement s s'.
Proof.
  destruct s as [cs d seq]. unfold advance. cbn [calls db id_seq]. intros Hts.
  destruct (cs !! i) as [[txn [p|id]]|] eqn:Hi; [|..|done].
  - rewrite Forall_fmap, Forall_forall in Hts. specialize (Hts (txn, Running p) (list_elem_of_lookup_2 _ _ _ Hi)). cbn in Hts.
    destruct p as [a|t k|id k|t j k|st k]; cbn [answer]; try done.
    + intros [= <-]. assert (CallInsert t k = Reconcile txn) as E by (by inversion Hts). rewrite E in Hi. by apply insert_begins.
    + intros ([p' d'] & H & [= <-])%bind_Some. eapply other_call; [done|done|]. apply answer_call. exact H.
    + intros ([p' d'] & H & [= <-])%bind_Some. eapply other_call; [done|done|]. apply answer_call. exact H.
    + intros ([p' d'] & H & [= <-])%bind_Some. eapply other_call; [done|done|]. apply answer_call. exact H.
  - destruct (existsb _ _) eqn:E; intros [= <-].
    + apply (insert_refused cs d seq i txn id (Sentinel ErrDuplicateEvent) Hi). intros _. apply existsb_exists in E as (r & Hr & E). bool_props.
      apply Exists_exists. exists r. split; [by apply list_elem_of_In|done].
    + apply (insert_commits cs d seq i txn id (with_id txn id 0) (Ok (with_id txn id 0))); [done|done|by repeat split| |done].
      apply existsb_false_Forall in E. eapply Forall_impl; [exact E|]. cbn. intros r H. by bool_props.
Qed.

(** Free arrivals ([inl]) and steps of calls ([inr]). *)
Definition freely (acts : list (Transaction + nat)) : server → option server :=
  λ s, fold_left (λ s a, s ≫= match a with inl txn => λ s, Some (arrive txn s) | inr i => advance i end) acts (Some s).

Lemma freely_None acts : fold_left (λ s a, s ≫= match a with inl txn => λ s, Some (arrive txn s) | inr i => advance i end) acts None = None.
Proof. by induction acts. Qed.

Lemma freely_reachable acts s s' : rtc session_step emptyServer s → freely acts s = Some s' → rtc session_step emptyServer s'.
Proof.
  revert s. unfold freely. induction acts as [|a acts IH]; intros s Hr; cbn; [by intros [= <-]|].
  destruct a as [txn|i]; cbn.
  - apply IH. eapply rtc_r; [done|apply session_arrives].
  - destruct (advance i s) as [s1|] eqn:E; [|by rewrite freely_None]. apply IH. eapply rtc_r; [done|]. apply session_statement.
    destruct (session_reachable s Hr) as [_ Hp]. apply pool_inv in Hp as [_ Hts]. by eapply advance_statement.
Qed.

(** In-order delivery, checked: an event that has arrived before is delivered again,
    a new one has to wait for its key. *)
Definition finishedb (s : server) (event : UUID) : bool :=
  existsb (λ c, bool_decide (EventID c.1 = event) &&
                match c.2 with Running (Return (Ok tt)) => true | _ => false end) (calls s).


Definition deliver (txn : Transaction) (x : delivery) : option delivery :=
  if bool_decide (Exists (λ t, same_trade t txn) (log x)) then Some (Build_delivery (log x) (arrive txn (srv x)))
  else if forallb (λ t, negb (bool_decide (EventID t = EventID txn)) &&
                        (negb (bool_decide (txn_key t = txn_key txn)) || finishedb (srv x) (EventID t))) (log x)
  then Some (Build_delivery (log x ++ [txn]) (arrive txn (srv x)))
  else None.

Definition orderly (acts : list (Transaction + nat)) (x : delivery) : option delivery :=
  fold_left (λ x a, x ≫= match a with
    | inl txn => deliver txn
    | inr i => λ x, s ← advance i (srv x); Some (Build_delivery (log x) s)
    end) acts (Some x).

Lemma finishedb_finished s event : finishedb s event = true → finished s event.
Proof.
  intros ([txn p] & Hin & H)%existsb_exists. cbn in H. apply andb_true_iff in H as [E H]. bool_props.
  exists txn. split; [|done]. apply list_elem_of_In. by repeat case_match; subst.
Qed.

Lemma deliver_step txn x x' : deliver txn x = Some x' → delivery_step x x'.
Proof.
  destruct x as [lg s]. unfold deliver. cbn [log srv]. case_bool_decide as E.
  - intros [= <-]. apply Exists_exists in E as (t & Ht & Hs). by eapply redelivered.
  - destruct (forallb _ _) eqn:Hf; [|done]. intros [= <-]. rewrite forallb_forall in Hf.
    apply new_event; apply Forall_forall; intros t Ht%list_elem_of_In%Hf.
    + apply andb_true_iff in Ht as [Ht _]. by bool_props.
    + intros Ek. apply andb_true_iff in Ht as [_ Ht]. apply orb_true_iff in Ht as [Ht|Ht]; [by bool_props|by apply finishedb_finished].
Qed.

Lemma orderly_None acts : fold_left (λ x a, x ≫= match a with
    | inl txn => deliver txn
    | inr i => λ x, s ← advance i (srv x); Some (Build_delivery (log x) s)
    end) acts None = None.
Proof. by induction acts. Qed.

Lemma orderly_reachable acts x x' : rtc delivery_step emptyDelivery x → orderly acts x = Some x' → rtc delivery_step emptyDelivery x'.
Proof.
  revert x. unfold orderly. induction acts as [|a acts IH]; intros x Hr; cbn; [by intros [= <-]|].
  destruct a as [txn|i].
  - destruct (deliver txn x) as [x1|] eqn:E; [|by rewrite orderly_None]. apply IH. eapply rtc_r; [done|]. by eapply deliver_step.
  - destruct (advance i (srv x)) as [s1|] eqn:E; cbn; [|by rewrite orderly_None]. apply IH. eapply rtc_r; [done|].
    destruct (delivery_pool x Hr) as (_ & _ & Hts). destruct x as [lg s]. apply delivery_statement. by eapply advance_statement.
Qed.

(** ** Witnesses *)
Definition otherTrade : Transaction :=
  {| ID := 0; EventID := "f1"; TenantID := "globex"; SchemaVersion := 1; Instrument := "MSFT"; Side := SideBuy;
     Quantity := 70; Price := 100; Currency := "USD"; OccurredAt := 0; ReceivedAt := 0 |}.

(** Another key's INSERT draws its id first and commits last; the first event is
    delivered again while the second is under way. *)
Definition orderlyActs : list (Transaction + nat) :=
  [inl otherTrade; inl sampleBuy; inr 0; inr 1; inr 1; inr 1; inr 1; inl sampleSell; inr 2; inl sampleBuy; inr 3;
   inr 2; inr 3; inr 0; inr 2; inr 3; inr 3; inr 2]%nat.

Definition orderlyEnd : delivery := default emptyDelivery (orderly orderlyActs emptyDelivery).

Lemma orderlyEnd_reachable : rtc delivery_step emptyDelivery orderlyEnd.
Proof.
  unfold orderlyEnd. destruct (orderly orderlyActs emptyDelivery) as [x|] eqn:E; [|apply rtc_refl].
  by eapply orderly_reachable; [apply rtc_refl|].
Qed.

Example orderly_ids : ID <$> rows (db (srv orderlyEnd)) = [2; 3; 1].
Proof. vm_compute. reflexivity. Qed.

Lemma in_order_exact_witness :
  length (key_rows ("acme", "AAPL") (db (srv orderlyEnd))) = 2%nat ∧
  ∀ st, states (db (srv orderlyEnd)) !! ("acme", "AAPL") = Some st → Position st = -300.
Proof.
  destruct (in_order_exact orderlyEnd ("acme", "AAPL") orderlyEnd_reachable) as (H2 & _ & _ & Hpos).
  - apply (Forall_impl (λ t, negb (bool_decide (txn_key t = ("acme", "AAPL"))) || finishedb (srv orderlyEnd) (EventID t) = true)).
    + apply Forall_forall. intros t Ht. apply list_elem_of_In in Ht. revert t Ht. apply forallb_forall. vm_compute. reflexivity.
    + intros t [H|H]%orb_true_iff Ek; [by bool_props|by apply finishedb_finished].
  - split; [apply Forall2_length in H2; rewrite <-H2; vm_compute; reflexivity|].
    intros st Hst. rewrite (Hpos st Hst); [vm_compute; reflexivity|..].
    + vm_compute. repeat constructor.
    + vm_compute. congruence.
Defined.

(** The order of arrival matters: two events of one key handed to two callers at
    once, as during a rebalance, are both answered nil without any fault, and the
    first one's trade is missing from the state for good. *)
Definition overlapActs : list (Transaction + nat) :=
  [inl sampleBuy; inl sampleSell; inr 0; inr 1; inr 1; inr 1; inr 1; inr 0; inr 0]%nat.

Definition overlapEnd : server := default emptyServer (freely overlapActs emptyServer).

Lemma overlapEnd_reachable : rtc session_step emptyServer overlapEnd.
Proof.
  unfold overlapEnd. destruct (freely overlapActs emptyServer) as [s|] eqn:E; [|apply rtc_refl].
  by eapply freely_reachable; [apply rtc_refl|].
Qed.

Theorem overlapping_callers_lose_a_trade :
  rtc session_step emptyServer overlapEnd ∧
  calls overlapEnd = [(sampleBuy, Running (Return (Ok tt))); (sampleSell, Running (Return (Ok tt)))] ∧
  ID <$> rows (db overlapEnd) = [2; 1] ∧ net (rows (db overlapEnd)) = -300 ∧
  Position <$> states (db overlapEnd) !! ("acme", "AAPL") = Some (-800).
Proof. split; [apply overlapEnd_reachable|]. vm_compute. split_and!; reflexivity. Qed.

Lemma sessions_account_witness :
  NoDup (EventID <$> rows (db overlapEnd)) ∧
  (recorded (db overlapEnd) sampleBuy ∨
   ∃ other, other ∈ (calls overlapEnd).*1 ∧ EventID other = EventID sampleBuy ∧ ¬ same_trade other sampleBuy ∧
     recorded (db overlapEnd) other).
Proof.
  destruct (sessions_account overlapEnd overlapEnd_reachable) as (Hn & _ & Hnil). split; [exact Hn|].
  apply Hnil. assert (calls overlapEnd !! 0%nat = Some (sampleBuy, Running (Return (Ok tt)))) as E by (vm_compute; reflexivity).
  by eapply list_elem_of_lookup_2.
Defined.
