(* ===== verification/Wire.v ===== *)
(** * The Kafka wire format

    The record and payload types internal/ingestion/kafka and
    internal/processor/kafka share, and their JSON.  github.com/google/uuid and the
    text of an error are a [Codec] with the laws the program relies on; [plainCodec]
    is a concrete one. *)
From S2P Require Import Prelude GoStrings GoUtf8 GoJson GoUnmarshal GoTime GoCalendar Ledger.

(** ** Records *)
Record wireEvent := {
  wEventID : string;
  wTenantID : string;
  wSchemaVersion : Z;
  wInstrument : string;
  wSide : string;
  wQuantity : string;
  wPrice : string;
  wCurrency : string;
  wOccurredAt : string
}.

Record kRecord := {
  rTopic : string;
  rPartition : Z;
  rOffset : Z;
  rKey : string;
  rValue : string
}.

Record FetchPartition := {
  fTopic : string;
  fPartition : Z;
  HighWatermark : Z;
  Records : list kRecord
}.

Record Fetches := {
  fetchErrors : list error;      (* fetches.Errors() *)
  partitions : list FetchPartition
}.

(** dlqEvent *)
Record dlqEvent := {
  OriginalTopic : string;
  OriginalPartition : Z;
  OriginalOffset : Z;
  Payload : string;
  FailureReason : string;
  Attempts : Z;
  FailedAt : string
}.

(** ** JSON *)
Definition wire_json (w : wireEvent) : json :=
  JObject [("event_id", JString (wEventID w)); ("tenant_id", JString (wTenantID w));
           ("schema_version", JNumber (Itoa (wSchemaVersion w))); ("instrument", JString (wInstrument w));
           ("side", JString (wSide w)); ("quantity", JString (wQuantity w)); ("price", JString (wPrice w));
           ("currency", JString (wCurrency w)); ("occurred_at", JString (wOccurredAt w))].

Definition wireFields : list (string * setter wireEvent) :=
  [("event_id", SetString (λ x '(Build_wireEvent e t v i s q p c o), Build_wireEvent x t v i s q p c o));
   ("tenant_id", SetString (λ x '(Build_wireEvent e t v i s q p c o), Build_wireEvent e x v i s q p c o));
   ("schema_version", SetInt 32768 (λ x '(Build_wireEvent e t v i s q p c o), Build_wireEvent e t x i s q p c o));
   ("instrument", SetString (λ x '(Build_wireEvent e t v i s q p c o), Build_wireEvent e t v x s q p c o));
   ("side", SetString (λ x '(Build_wireEvent e t v i s q p c o), Build_wireEvent e t v i x q p c o));
   ("quantity", SetString (λ x '(Build_wireEvent e t v i s q p c o), Build_wireEvent e t v i s x p c o));
   ("price", SetString (λ x '(Build_wireEvent e t v i s q p c o), Build_wireEvent e t v i s q x c o));
   ("currency", SetString (λ x '(Build_wireEvent e t v i s q p c o), Build_wireEvent e t v i s q p x o));
   ("occurred_at", SetString (λ x '(Build_wireEvent e t v i s q p c o), Build_wireEvent e t v i s q p c x))].

Definition zeroWire : wireEvent := Build_wireEvent "" "" 0 "" "" "" "" "" "".

Definition marshal_wire (w : wireEvent) : result string := Ok (encode (wire_json w)).
Definition unmarshal_wire (value : string) : result wireEvent := unmarshalStruct wireFields value zeroWire.

Definition dlq_json (e : dlqEvent) : json :=
  JObject [("original_topic", JString (OriginalTopic e)); ("original_partition", JNumber (Itoa (OriginalPartition e)));
           ("original_offset", JNumber (Itoa (OriginalOffset e))); ("payload", JString (Payload e));
           ("failure_reason", JString (FailureReason e)); ("attempts", JNumber (Itoa (Attempts e)));
           ("failed_at", JString (FailedAt e))].

Definition marshal_dlq (e : dlqEvent) : result string := Ok (encode (dlq_json e)).

#[global] Arguments marshal_wire : simpl never.
#[global] Arguments unmarshal_wire : simpl never.
#[global] Arguments marshal_dlq : simpl never.

(** The text fields with every byte that is not UTF-8 replaced. *)
Definition clean_wire (w : wireEvent) : wireEvent :=
  {| wEventID := ToValid (wEventID w); wTenantID := ToValid (wTenantID w); wSchemaVersion := wSchemaVersion w;
     wInstrument := ToValid (wInstrument w); wSide := ToValid (wSide w); wQuantity := ToValid (wQuantity w);
     wPrice := ToValid (wPrice w); wCurrency := ToValid (wCurrency w); wOccurredAt := ToValid (wOccurredAt w) |}.

(** Store the members one by one; an integer needs its range. *)
Ltac store_members :=
  repeat (erewrite storeMembers_cons; [|reflexivity|first [reflexivity | apply storeField_int; unfold_ints; lia]]).

Lemma wire_store w : -32768 ≤ wSchemaVersion w ≤ 32767 →
  storeStruct wireFields (cleaned (wire_json w)) zeroWire = (clean_wire w, true).
Proof. intros Hv. unfold wire_json. rewrite cleaned_object. unfold cleaned_member. cbn [fmap list_fmap fst snd cleaned storeStruct]. store_members. done. Qed.

(** ** Reading a payload back *)
Definition wire_text (w : wireEvent) : Prop :=
  Forall (λ s, ValidString s = true)
    [wEventID w; wTenantID w; wInstrument w; wSide w; wQuantity w; wPrice w; wCurrency w; wOccurredAt w] ∧
  -32768 ≤ wSchemaVersion w ≤ 32767.

Lemma clean_wire_text w : wire_text w → clean_wire w = w.
Proof.
  intros [Ht _]. rewrite !Forall_cons in Ht. destruct Ht as (?&?&?&?&?&?&?&?&_). unfold clean_wire.
  rewrite !ToValid_valid by done. by destruct w.
Qed.

Lemma shallow n : (n ≤ 2)%nat → (n ≤ maxNestingDepth)%nat.
Proof. intros. transitivity 2%nat; [done|]. apply Nat.leb_le. vm_compute. done. Qed.

(** What is marshalled is unmarshalled, up to bytes that are not UTF-8. *)
Lemma unmarshal_marshal_wire w : -32768 ≤ wSchemaVersion w ≤ 32767 →
  ∃ s, marshal_wire w = Ok s ∧ unmarshal_wire s = Ok (clean_wire w).
Proof.
  intros Hv. eexists. split; [reflexivity|]. unfold unmarshal_wire, unmarshalStruct. rewrite readDocument_encode.
  - by rewrite wire_store.
  - cbn [wire_json numbers_ok forallb]. by rewrite number_ok_Itoa by (unfold_ints; lia).
  - apply shallow. cbn. lia.
Qed.

Lemma wire_roundtrip w : wire_text w → ∃ s, marshal_wire w = Ok s ∧ unmarshal_wire s = Ok w.
Proof.
  intros Hw. destruct (unmarshal_marshal_wire w) as (s & Hm & Hu); [apply Hw|]. rewrite clean_wire_text in Hu by done. eauto.
Qed.

Lemma cleaned_dlq e : cleaned (dlq_json e) =
  JObject [("original_topic", JString (ToValid (OriginalTopic e))); ("original_partition", JNumber (Itoa (OriginalPartition e)));
           ("original_offset", JNumber (Itoa (OriginalOffset e))); ("payload", JString (ToValid (Payload e)));
           ("failure_reason", JString (ToValid (FailureReason e))); ("attempts", JNumber (Itoa (Attempts e)));
           ("failed_at", JString (ToValid (FailedAt e)))].
Proof. reflexivity. Qed.

(** A dead-letter event reads back with its place, its payload and its reason. *)
Lemma readDocument_dlq e : in_int32 (OriginalPartition e) → in_int64 (OriginalOffset e) → in_int64 (Attempts e) →
  readDocument (encode (dlq_json e)) = Some (cleaned (dlq_json e)).
Proof.
  intros H1 H2 H3. apply readDocument_encode; [|apply shallow; cbn; lia].
  cbn [dlq_json numbers_ok forallb]. by rewrite !number_ok_Itoa by (unfold_ints; lia).
Qed.

(** github.com/google/uuid, timestamppb's Timestamp (seconds and nanos), and the text
    of an error, whose interpolated values [error] does not keep. *)
Class Codec := {
  uuid_Parse : string → result UUID;
  uuid_String : UUID → string;
  CheckValid : Z * Z → result unit;
  AsTime : Z * Z → Time;
  err_Error : error → string
}.

(** The documented range of a Timestamp: years 1 to 9999, nanos below a second. *)
Definition timestamp_valid (ts : Z * Z) : Prop := -62135596800 ≤ ts.1 ≤ 253402300799 ∧ 0 ≤ ts.2 < 1000000000.

Class CodecLaws `{!Codec} : Prop := {
  uuid_roundtrip u : String.length u = 16%nat →
    uuid_Parse (uuid_String u) = Ok u ∧ is_ascii (uuid_String u) = true;
  uuid_length s u : uuid_Parse s = Ok u → String.length u = 16%nat;
  CheckValid_range ts : CheckValid ts = Ok tt ↔ timestamp_valid ts;
  AsTime_instant ts : timestamp_valid ts → AsTime ts = UTC (ts.1 * Second + ts.2)
}.

Lemma visible_ascii s : string_forallb visible s = true → is_ascii s = true.
Proof. apply string_forallb_impl. unfold visible. intros c H. bool_props. apply Z.ltb_lt. lia. Qed.

(** ** A concrete codec: ids in hexadecimal, timestamps by their range *)
Definition nibble (n : Z) : ascii := ascii_of_N (Z.to_N (97 + n)).
Definition unnibble (c : ascii) : Z := byte c - 97.

Fixpoint hex (s : string) : string :=
  match s with
  | "" => ""
  | String c s => String (nibble (byte c / 16)) (String (nibble (byte c mod 16)) (hex s))
  end.

Fixpoint unhex (s : string) : string :=
  match s with
  | String a (String b s) => String (ascii_of_N (Z.to_N (16 * unnibble a + unnibble b))) (unhex s)
  | _ => ""
  end.

Definition plain_parse_uuid (s : string) : result UUID :=
  if Nat.eqb (String.length (unhex s)) 16 then Ok (unhex s) else Err (Errorf "invalid UUID length").

Definition plain_check (ts : Z * Z) : result unit :=
  if ts.1 <? -62135596800 then Err (Errorf "before 0001-01-01")
  else if 253402300799 <? ts.1 then Err (Errorf "after 9999-12-31")
  else if (ts.2 <? 0) || (1000000000 <=? ts.2) then Err (Errorf "out-of-range nanos")
  else Ok tt.

Definition plainCodec : Codec := {|
  uuid_Parse := plain_parse_uuid;
  uuid_String := hex;
  CheckValid := plain_check;
  AsTime ts := UTC (ts.1 * Second + ts.2);
  err_Error e := match e with Errorf msg | Wrapf msg _ | Wrapf2 msg _ _ => msg | Sentinel _ => "sentinel" end |}.

Lemma byte_nibble n : 0 ≤ n < 16 → byte (nibble n) = 97 + n.
Proof. intros. unfold byte, nibble. rewrite N_ascii_embedding by lia. lia. Qed.

Lemma ascii_byte c : ascii_of_N (Z.to_N (byte c)) = c.
Proof. unfold byte. rewrite N2Z.id. apply ascii_N_embedding. Qed.

Lemma unhex_hex s : unhex (hex s) = s.
Proof.
  induction s as [|c s IH]; cbn [hex unhex]; [done|]. rewrite IH. f_equal.
  pose proof (byte_range c). unfold unnibble.
  rewrite !byte_nibble by (Z.to_euclidean_division_equations; lia).
  rewrite <-(ascii_byte c) at 3. do 2 f_equal. Z.to_euclidean_division_equations; lia.
Qed.

Lemma hex_visible s : string_forallb visible (hex s) = true.
Proof.
  induction s as [|c s IH]; cbn; [done|]. rewrite IH. pose proof (byte_range c). unfold visible.
  rewrite !byte_nibble by (Z.to_euclidean_division_equations; lia).
  repeat (apply andb_true_iff; split); try done; apply Z.leb_le; Z.to_euclidean_division_equations; lia.
Qed.

Lemma digits_visible s : all_digits s = true → string_forallb visible s = true.
Proof.
  apply string_forallb_impl. intros c H%is_digit_range. unfold visible.
  apply andb_true_iff; split; apply Z.leb_le; lia.
Qed.

Lemma FormatUint_visible n : in_uint64 n → string_forallb visible (FormatUint n) = true.
Proof. intros H. apply digits_visible. by apply FormatUint_spec. Qed.

Lemma plainCodecLaws : CodecLaws (H := plainCodec).
Proof.
  split; cbn.
  - intros u Hu. unfold plain_parse_uuid. rewrite unhex_hex, Hu. split; [done|]. apply visible_ascii, hex_visible.
  - intros s u. unfold plain_parse_uuid. destruct (Nat.eqb_spec (String.length (unhex s)) 16); [|done].
    by intros [= <-].
  - intros ts. unfold plain_check, timestamp_valid. case_all; split; try done; lia.
  - done.
Qed.
