(* ===== verification/KafkaConsumer.v ===== *)
(** * Kafka consumer (internal/processor/kafka/consumer.go)

    Decoding, bounded retries, dead-letter routing and the poll loop, over two
    worlds: [D], what the reconciler works on, and [K], the Kafka client with the
    context and the clock.  uuid and the text of an error are a [Codec] parameter.
    The theorems: how often a record is tried, and that none is dropped. *)
From S2P Require Import Prelude GoStrings GoUtf8 GoJson GoCalendar Amount Ledger Wire.

(** The Kafka client, the context and the clock a consumer works with. *)
Class KafkaClient (K : Type) := {
  PollRecords : Z → K → Fetches * K;
  ProduceSync : kRecord → K → result unit * K;
  ctx_Err : K → bool * K;              (* ctx.Err() != nil *)
  time_Now : K → Z * K;
  observeLag : string → Z → K → K;
  observeActiveConsumers : gmap string Z → K → K
}.

Definition all_records (f : Fetches) : list kRecord := concat (Records <$> partitions f).

(** What the consumer relies on: [produced] is what the brokers acknowledged and
    keep, [fetched] what they have handed out to this client. *)
Class KafkaLaws (K : Type) `{!KafkaClient K} (produced fetched : K → list kRecord) : Prop := {
  Produce_ok r k k' : ProduceSync r k = (Ok tt, k') → r ∈ produced k';
  Produce_keeps r k : produced k ⊆ produced (ProduceSync r k).2 ∧ fetched (ProduceSync r k).2 = fetched k;
  ctx_keeps k : produced (ctx_Err k).2 = produced k ∧ fetched (ctx_Err k).2 = fetched k;
  now_keeps k : produced (time_Now k).2 = produced k ∧ fetched (time_Now k).2 = fetched k;
  lag_keeps t z k : produced (observeLag t z k) = produced k ∧ fetched (observeLag t z k) = fetched k;
  active_keeps m k : produced (observeActiveConsumers m k) = produced k ∧
    fetched (observeActiveConsumers m k) = fetched k;
  Poll_keeps n k : produced (PollRecords n k).2 = produced k ∧
    fetched (PollRecords n k).2 = fetched k ++ all_records (PollRecords n k).1
}.

(** Consumer's fields; [metrics] is con.metrics != nil. *)
Record Consumer := {
  topic : string;
  dlqTopic : string;
  maxRetries : Z;
  maxPollRecords : Z;
  metrics : bool
}.

Section consumer.
Context `{Cdc : !Codec} {D K : Type} `{Kcl : !KafkaClient K}.
Context (rec_Reconcile : Transaction → D → result unit * D).
Context (con : Consumer).

Definition decodeTransaction (value : string) : result Transaction :=
  wire ← wrap_err "decode transaction event: unmarshal payload: %w" (unmarshal_wire value);
  eventID ← wrap_err "decode transaction event: parse event id: %w" (uuid_Parse (wEventID wire));
  quantity ← wrap_err "decode transaction event: parse quantity: %w" (ParseAmount (wQuantity wire));
  price ← wrap_err "decode transaction event: parse price: %w" (ParseAmount (wPrice wire));
  occurredAt ← wrap_err "decode transaction event: parse occurred_at: %w"
                 (parse_RFC3339 (wOccurredAt wire));
  Ok {| ID := 0; EventID := eventID; TenantID := wTenantID wire; SchemaVersion := wSchemaVersion wire;
        Instrument := wInstrument wire; Side := wSide wire; Quantity := quantity; Price := price;
        Currency := wCurrency wire; OccurredAt := instant occurredAt; ReceivedAt := 0 |}.

Definition publishToDLQ (record : kRecord) (failureErr : error) (attempts : Z) (k : K) : result unit * K :=
  let '(now, k) := time_Now k in
  let event := {| OriginalTopic := rTopic record; OriginalPartition := rPartition record;
                  OriginalOffset := rOffset record; Payload := rValue record;
                  FailureReason := err_Error failureErr; Attempts := attempts;
                  FailedAt := format_RFC3339Nano (UTC now) |} in
  match marshal_dlq event with
  | Err err => (Err (Wrapf "publish to dlq: marshal failure event: %w" err), k)
  | Ok payload =>
      let dlqRecord := {| rTopic := dlqTopic con; rPartition := 0; rOffset := 0; rKey := rKey record;
                          rValue := payload |} in
      let '(r, k) := ProduceSync dlqRecord k in
      (wrap_err "publish to dlq topic %q: %w" r, k)
  end.

(** The retry loop: [remaining] iterations to go, [attempt] the loop variable.  The
    number of iterations is that of the Go loop as long as [attempt] does not wrap,
    that is for every maxRetries but MaxInt64 - 1. *)
Fixpoint retryLoop (remaining : nat) (attempt : Z) (lastErr : option error) (txn : Transaction) (d : D) (k : K)
    : Z * option error * D * K :=
  match remaining with
  | O => (int64 (maxRetries con + 1), lastErr, d, k)
  | S remaining =>
      let '(r, d) := rec_Reconcile txn d in
      match r with
      | Ok _ => (attempt, None, d, k)
      | Err err =>
          let '(cancelled, k) := ctx_Err k in
          if cancelled then (attempt, Some err, d, k)
          else retryLoop remaining (attempt + 1) (Some err) txn d k
      end
  end.

(** for attempt := 1; attempt <= con.maxRetries+1; attempt++ *)
Definition reconcileWithRetry (txn : Transaction) (d : D) (k : K) : Z * option error * D * K :=
  retryLoop (Z.to_nat (int64 (maxRetries con + 1))) 1 None txn d k.

(** The record callback of Run, the tenant it decoded (if it did) and dlqErr. *)
Definition handleRecord (record : kRecord) (d : D) (k : K) : option string * option error * D * K :=
  match decodeTransaction (rValue record) with
  | Err decodeErr =>
      let '(r, k) := publishToDLQ record decodeErr 1 k in
      match r with
      | Ok _ => (None, None, d, k)
      | Err err =>
          (None, Some (Wrapf "route undecodable record on topic %q partition %d offset %d to dlq: %w" err), d, k)
      end
  | Ok txn =>
      let '(attempts, reconcileErr, d, k) := reconcileWithRetry txn d k in
      match reconcileErr with
      | None => (Some (TenantID txn), None, d, k)
      | Some reconcileErr =>
          let '(r, k) := publishToDLQ record reconcileErr attempts k in
          match r with
          | Ok _ => (Some (TenantID txn), None, d, k)
          | Err err =>
              (Some (TenantID txn), Some (Wrapf "route reconcile failure for event %s to dlq: %w" err), d, k)
          end
      end
  end.

(** partition.EachRecord: the callbacks after a dlqErr return at once.  The
    result is (lastTenantID, lastOffset if a record was seen, dlqErr). *)
Fixpoint eachRecord (records : list kRecord) (lastTenantID : string) (lastOffset : option Z) (d : D) (k : K)
    : string * option Z * option error * D * K :=
  match records with
  | [] => (lastTenantID, lastOffset, None, d, k)
  | record :: records =>
      let '(tenant, dlqErr, d, k) := handleRecord record d k in
      let lastTenantID := default lastTenantID tenant in
      match dlqErr with
      | Some err => (lastTenantID, Some (rOffset record), Some err, d, k)
      | None => eachRecord records lastTenantID (Some (rOffset record)) d k
      end
  end.

(** activePartitionsByTenant[tenant]++ (int32) *)
Definition increment (tenant : string) (m : gmap string Z) : gmap string Z :=
  <[tenant := int32 (default 0 (m !! tenant) + 1)]> m.

(** fetches.EachPartition *)
Fixpoint eachPartition (ps : list FetchPartition) (active : gmap string Z) (d : D) (k : K)
    : gmap string Z * option error * D * K :=
  match ps with
  | [] => (active, None, d, k)
  | p :: ps =>
      let '(tenant, lastOffset, dlqErr, d, k) := eachRecord (Records p) "" None d k in
      let '(active, k) :=
        match lastOffset with
        | Some offset =>
            if metrics con
            then (increment tenant active, observeLag tenant (int64 (HighWatermark p - 1 - offset)) k)
            else (active, k)
        | None => (active, k)
        end in
      match dlqErr with
      | Some err => (active, Some err, d, k)
      | None => eachPartition ps active d k
      end
  end.

(** One turn of Run's loop: None to poll again, or what Run returns. *)
Definition runOnce (d : D) (k : K) : option (result unit) * D * K :=
  let '(fetches, k) := PollRecords (maxPollRecords con) k in
  match fetchErrors fetches with
  | first :: _ =>
      let '(cancelled, k) := ctx_Err k in
      if cancelled then (Some (Ok tt), d, k)
      else (Some (Err (Wrapf "consume transaction events from kafka topic %q partition %d: %w" first)), d, k)
  | [] =>
      let '(cancelled, k) := ctx_Err k in
      if cancelled then (Some (Ok tt), d, k)
      else
        let '(active, dlqErr, d, k) := eachPartition (partitions fetches) ∅ d k in
        let k := if metrics con then observeActiveConsumers active k else k in
        match dlqErr with
        | None => (None, d, k)
        | Some err =>
            let '(cancelled, k) := ctx_Err k in
            if cancelled then (Some (Ok tt), d, k) else (Some (Err err), d, k)
        end
  end.

(** Run for [polls] turns; None while it is still polling. *)
Fixpoint Run (polls : nat) (d : D) (k : K) : option (result unit) * D * K :=
  match polls with
  | O => (None, d, k)
  | S polls =>
      let '(r, d, k) := runOnce d k in
      match r with
      | Some r => (Some r, d, k)
      | None => Run polls d k
      end
  end.

(** ** Retries *)
Section retries.
Context (calls : D → Z) (Hcalls : ∀ txn d, calls (rec_Reconcile txn d).2 = calls d + 1).

Lemma retryLoop_bounds remaining attempt lastErr txn d k n err d' k' :
  retryLoop remaining attempt lastErr txn d k = (n, err, d', k') →
  attempt = int64 (maxRetries con + 1) - Z.of_nat remaining + 1 →
  (remaining = 0%nat → is_Some lastErr) →
  calls d' - calls d = n - attempt + 1 ∧ attempt - 1 ≤ n ≤ int64 (maxRetries con + 1) ∧
  (err = None → attempt ≤ n ∧ ∃ d0, rec_Reconcile txn d0 = (Ok tt, d')).
Proof.
  revert attempt lastErr d k. induction remaining as [|remaining IH]; intros attempt lastErr d k; cbn [retryLoop].
  - intros [= <- <- <- <-] Ha [e He]; [done|]. split_and!; [lia..|]. by rewrite He.
  - pose proof (Hcalls txn d) as Hc. destruct (rec_Reconcile txn d) as [[[]|e] d1] eqn:Hr; cbn in Hc.
    + intros [= <- <- <- <-] Ha _. split_and!; [lia..|]. intros _. split; [lia|eauto].
    + destruct (ctx_Err k) as [[] k1].
      * intros [= <- <- <- <-] Ha _. split_and!; [lia..|done].
      * intros H Ha _. apply IH in H as (H1 & H2 & H3); [|lia|done].
        split_and!; [lia..|]. intros Hn. destruct (H3 Hn). split; [lia|done].
Qed.

(** C22. The retry bound: with any MaxRetries the configuration accepts below
    MaxInt64 - 1, reconcileWithRetry reports exactly the number of Reconcile calls
    it made, at least one and at most MaxRetries + 1, and reports no error only
    if its last call returned nil. *)
Theorem reconcileWithRetry_bounds txn d k n err d' k' :
  0 ≤ maxRetries con < MaxInt64 - 1 →
  reconcileWithRetry txn d k = (n, err, d', k') →
  calls d' = calls d + n ∧ 1 ≤ n ≤ maxRetries con + 1 ∧
  (err = None → ∃ d0, rec_Reconcile txn d0 = (Ok tt, d')).
Proof.
  intros Hm H. unfold reconcileWithRetry in H.
  assert (int64 (maxRetries con + 1) = maxRetries con + 1) as E by (apply int64_id; unfold_ints; lia).
  rewrite E in H. pose proof H as H'. apply retryLoop_bounds in H as (H1 & H2 & H3); [|rewrite E; lia|lia].
  rewrite E in H2. split_and!; [lia| |lia|by intros [_ ?]%H3].
  destruct (Z.to_nat (maxRetries con + 1)) as [|r] eqn:Er; [lia|]. cbn [retryLoop] in H'.
  pose proof (Hcalls txn d) as Hc. destruct (rec_Reconcile txn d) as [[[]|e] d1]; cbn in Hc.
  - simplify_eq. lia.
  - destruct (ctx_Err k) as [[] k1]; [simplify_eq; lia|].
    apply retryLoop_bounds in H' as (_ & H4 & _); [lia|rewrite E; lia|done].
Qed.
End retries.

(** At MaxRetries = MaxInt64, which validate accepts, the bound
    con.maxRetries+1 wraps: the loop body never runs, and every record is reported
    as reconciled without a single Reconcile call. *)
Theorem reconcileWithRetry_wraps txn d k :
  maxRetries con = MaxInt64 → reconcileWithRetry txn d k = (MinInt64, None, d, k).
Proof.
  intros E. unfold reconcileWithRetry. assert (int64 (maxRetries con + 1) = MinInt64) as E' by (by rewrite E).
  rewrite E'. change (Z.to_nat MinInt64) with 0%nat. cbn [retryLoop]. by rewrite E'.
Qed.

(** ** No record is dropped *)
Section accounting.
(** [I] is the invariant of the data, [P] what a nil return of Reconcile
    establishes, which no later call undoes, [Q] what is known of the transactions
    the records carry. *)
Context (Q : Transaction → Prop) (I : D → Prop) (P : Transaction → D → Prop).
Context (I_keeps : ∀ txn d, Q txn → I d → I (rec_Reconcile txn d).2).
Context (P_nil : ∀ txn d d', Q txn → I d → rec_Reconcile txn d = (Ok tt, d') → P txn d').
Context (P_stable : ∀ txn txn' d, Q txn' → I d → P txn d → P txn (rec_Reconcile txn' d).2).

Definition carries (record : kRecord) : Prop := ∀ txn, decodeTransaction (rValue record) = Ok txn → Q txn.

Context (produced fetched : K → list kRecord) `{Klaws : !KafkaLaws K produced fetched}.

(** The record is in the dead-letter topic under its own key, with its payload
    and its place in the source topic. *)
Definition dead_lettered (record : kRecord) (k : K) : Prop :=
  ∃ event payload, marshal_dlq event = Ok payload ∧ Payload event = rValue record ∧
    OriginalTopic event = rTopic record ∧ OriginalPartition event = rPartition record ∧
    OriginalOffset event = rOffset record ∧ in_int64 (Attempts event) ∧
    {| rTopic := dlqTopic con; rPartition := 0; rOffset := 0; rKey := rKey record; rValue := payload |}
      ∈ produced k.

Definition accounted (record : kRecord) (d : D) (k : K) : Prop :=
  (∃ txn, decodeTransaction (rValue record) = Ok txn ∧ P txn d) ∨ dead_lettered record k.

(** The data and the brokers only move forward. *)
Definition forward (d : D) (k : K) (d' : D) (k' : K) : Prop :=
  I d' ∧ (∀ txn, P txn d → P txn d') ∧ produced k ⊆ produced k' ∧ fetched k' = fetched k.

Lemma forward_trans d1 k1 d2 k2 d3 k3 : forward d1 k1 d2 k2 → forward d2 k2 d3 k3 → forward d1 k1 d3 k3.
Proof. intros (?&?&?&?) (?&?&?&?). split; [done|]. split_and!; [auto|by etrans|congruence]. Qed.

Lemma forward_same d k d' k' : I d' → (∀ txn, P txn d → P txn d') →
  produced k' = produced k ∧ fetched k' = fetched k → forward d k d' k'.
Proof. intros HI HP [Hp Hf]. split; [done|]. split_and!; [done|by rewrite Hp|done]. Qed.

Lemma accounted_mono record d k d' k' : (∀ txn, P txn d → P txn d') → produced k ⊆ produced k' →
  accounted record d k → accounted record d' k'.
Proof.
  intros Hd Hk [(txn & ? & ?)|(ev & pl & Hm & H1 & H2 & H3 & H4 & H5 & Hin)]; [left; eauto|].
  right. exists ev, pl. split_and!; auto.
Qed.

Lemma accounted_forward record d k d' k' : forward d k d' k' → accounted record d k → accounted record d' k'.
Proof. intros (_ & Hd & Hk & _). by apply accounted_mono. Qed.

Lemma publishToDLQ_spec record e n d k r k' : I d → in_int64 n → publishToDLQ record e n k = (r, k') →
  forward d k d k' ∧ (r = Ok tt → dead_lettered record k').
Proof.
  intros HI Hn. unfold publishToDLQ.
  pose proof (forward_same d k d (time_Now k).2 HI (λ _ H, H) (now_keeps k)) as Hf.
  destruct (time_Now k) as [t k1]. cbn in Hf. destruct (marshal_dlq _) as [payload|err] eqn:Hm.
  - match goal with |- context [ProduceSync ?r0 k1] =>
      assert (forward d k1 d (ProduceSync r0 k1).2) as Hf2 by (split; [done|split; [done|apply Produce_keeps]]); pose proof (Produce_ok r0 k1) as Hok;
      destruct (ProduceSync r0 k1) as [r1 k2] end.
    intros [= <- <-]. cbn in Hf2. split; [by eapply forward_trans|].
    intros -> %wrap_err_Ok. eexists _, payload. split_and!; [exact Hm|done..|]. by apply Hok.
  - by intros [= <- <-].
Qed.

Lemma retryLoop_forward remaining attempt lastErr txn d k n err d' k' :
  Q txn → I d → retryLoop remaining attempt lastErr txn d k = (n, err, d', k') →
  (remaining = 0%nat → is_Some lastErr) →
  forward d k d' k' ∧ (err = None → P txn d').
Proof.
  intros HQ. revert attempt lastErr d k. induction remaining as [|remaining IH]; intros attempt lastErr d k HI; cbn [retryLoop].
  - intros [= <- <- <- <-] [e ->]; [done|]. split; [|done]. by apply forward_same.
  - pose proof (λ d', P_nil txn d d' HQ HI) as Hnil. pose proof (I_keeps txn d HQ HI) as HI'.
    assert (∀ t, P t d → P t (rec_Reconcile txn d).2) as Hst' by auto.
    destruct (rec_Reconcile txn d) as [[[]|e] d1]; cbn in Hst', HI'.
    + intros [= <- <- <- <-] _. split; [by apply forward_same|]. intros _. by apply Hnil.
    + pose proof (forward_same d k d1 _ HI' Hst' (ctx_keeps k)) as Hc.
      destruct (ctx_Err k) as [[] k1]; cbn in Hc; [by intros [= <- <- <- <-]|].
      intros H _. apply IH in H as [Hf HP]; [|done..]. split; [|done]. by eapply forward_trans.
Qed.

Hypothesis Hmax : 0 ≤ maxRetries con < MaxInt64 - 1.

Lemma retryLoop_attempts remaining attempt lastErr txn d k n err d' k' :
  1 ≤ attempt → attempt + Z.of_nat remaining ≤ maxRetries con + 2 →
  retryLoop remaining attempt lastErr txn d k = (n, err, d', k') → in_int64 n.
Proof.
  revert attempt lastErr d k. induction remaining as [|remaining IH]; intros attempt lastErr d k Ha Hr; cbn [retryLoop].
  - intros [= <- _ _ _]. apply int64_range.
  - destruct (rec_Reconcile txn d) as [[[]|e] d1]; [intros [= <- _ _ _]; unfold_ints; lia|].
    destruct (ctx_Err k) as [[] k1]; [intros [= <- _ _ _]; unfold_ints; lia|]. apply IH; lia.
Qed.

Lemma handleRecord_spec record d k tenant dlqErr d' k' :
  carries record → I d → handleRecord record d k = (tenant, dlqErr, d', k') →
  forward d k d' k' ∧ (dlqErr = None → accounted record d' k').
Proof.
  intros Hcar HI. unfold handleRecord, accounted. destruct (decodeTransaction (rValue record)) as [txn|e] eqn:Hd.
  - unfold reconcileWithRetry. destruct (retryLoop _ _ _ _ _ _) as [[[n err] d1] k1] eqn:Hr.
    assert (int64 (maxRetries con + 1) = maxRetries con + 1) as E by (apply int64_id; unfold_ints; lia).
    assert (in_int64 n) as Hn by (eapply retryLoop_attempts; [..|exact Hr]; [done|rewrite E; lia]).
    apply retryLoop_forward in Hr as [Hf HP]; [|by apply Hcar|done|rewrite E; lia].
    destruct err as [err|].
    + destruct (publishToDLQ _ _ _ k1) as [r k2] eqn:Hp. apply (publishToDLQ_spec _ _ _ d1) in Hp as [Hf2 HQ]; [|apply Hf|done].
      pose proof (forward_trans _ _ _ _ _ _ Hf Hf2).
      destruct r as [[]|e]; intros [= <- <- <- <-]; (split; [done|]); [|done]. intros _. right. by apply HQ.
    + intros [= <- <- <- <-]. split; [done|]. intros _. left. exists txn. auto.
  - destruct (publishToDLQ _ _ _ k) as [r k2] eqn:Hp. apply (publishToDLQ_spec _ _ _ d) in Hp as [Hf2 HQ]; [|done|done].
    destruct r as [[]|e']; intros [= <- <- <- <-]; (split; [done|]); [|done]. intros _. right. by apply HQ.
Qed.

Lemma eachRecord_spec records tenant off d k tenant' off' dlqErr d' k' :
  Forall carries records → I d → eachRecord records tenant off d k = (tenant', off', dlqErr, d', k') →
  forward d k d' k' ∧ (dlqErr = None → Forall (λ r, accounted r d' k') records).
Proof.
  intros Hcar. revert tenant off d k. induction Hcar as [|record records Hr Hcar IH]; intros tenant off d k HI; cbn.
  - intros [= <- <- <- <- <-]. split; [|done]. by apply forward_same.
  - destruct (handleRecord record d k) as [[[t err] d1] k1] eqn:Hh. apply handleRecord_spec in Hh as [Hf HA]; [|done..].
    destruct err as [err|]; [by intros [= <- <- <- <- <-]|]. intros [Hf2 Hall]%IH; [|apply Hf].
    split; [by eapply forward_trans|]. intros Hn. constructor; [|auto].
    eapply accounted_forward; [done|]. by apply HA.
Qed.

Lemma eachPartition_spec ps active d k active' dlqErr d' k' :
  Forall carries (concat (Records <$> ps)) → I d → eachPartition ps active d k = (active', dlqErr, d', k') →
  forward d k d' k' ∧ (dlqErr = None → Forall (λ r, accounted r d' k') (concat (Records <$> ps))).
Proof.
  revert active d k. induction ps as [|p ps IH]; intros active d k; cbn; [intros _ HI|intros [Hcar Hcars]%Forall_app HI].
  - intros [= <- <- <- <-]. split; [|done]. by apply forward_same.
  - destruct (eachRecord (Records p) "" None d k) as [[[[t off] err] d1] k1] eqn:Hr.
    apply eachRecord_spec in Hr as [Hf HA]; [|done..].
    match goal with |- context [let '(_, _) := ?x in _] =>
      assert (produced x.2 = produced k1 ∧ fetched x.2 = fetched k1) as Hx;
        [|destruct x as [active1 k2]] end.
    { destruct off; [|done]. destruct (metrics con); [apply lag_keeps|done]. }
    pose proof (forward_same d1 k1 d1 k2 (proj1 Hf) (λ _ H, H) Hx) as Hs.
    pose proof (forward_trans _ _ _ _ _ _ Hf Hs) as Hf'.
    destruct err as [err|]; [by intros [= <- <- <- <-]|]. intros [Hf2 Hall]%IH; [|done|apply Hf].
    split; [by eapply forward_trans|]. intros Hn. apply Forall_app. split; [|auto].
    eapply Forall_impl; [by apply HA|]. intros r Hr. eapply accounted_forward; [exact Hf2|].
    apply (accounted_forward r d1 k1 d1 k2 Hs Hr).
Qed.

End accounting.

(** Handling records fetches nothing; a turn fetches what it polls. *)
Section fetching.
Context (produced fetched : K → list kRecord) `{Klaws : !KafkaLaws K produced fetched}.
Hypothesis Hmax : 0 ≤ maxRetries con < MaxInt64 - 1.

Lemma eachPartition_fetched ps active d k active' dlqErr d' k' :
  eachPartition ps active d k = (active', dlqErr, d', k') → fetched k' = fetched k.
Proof.
  intros H. apply (eachPartition_spec (λ _, True) (λ _, True) (λ _ _, True) ltac:(done) ltac:(done) ltac:(done)
    produced fetched Hmax) in H as [(_ & _ & _ & Hf) _]; [done| |done]. apply Forall_forall. by intros r _ txn _.
Qed.

Lemma active_fetched active k : fetched (if metrics con then observeActiveConsumers active k else k) = fetched k.
Proof. destruct (metrics con); [apply active_keeps|done]. Qed.

(** The records of a turn that polls again, and what it did with them. *)
Lemma runOnce_turn d k d' k' : runOnce d k = (None, d', k') →
  ∃ records k2 active k3, produced k2 = produced k ∧ fetched k2 = fetched k ++ concat (Records <$> records) ∧
    eachPartition records ∅ d k2 = (active, None, d', k3) ∧
    k' = (if metrics con then observeActiveConsumers active k3 else k3) ∧
    fetched k' = fetched k ++ concat (Records <$> records).
Proof.
  unfold runOnce. pose proof (Poll_keeps (maxPollRecords con) k) as [Hp1 Hp2].
  destruct (PollRecords _ k) as [fs k1]. cbn in Hp1, Hp2. pose proof (ctx_keeps k1) as [Hc1 Hc2].
  destruct (fetchErrors fs); [|by destruct (ctx_Err k1) as [[] ?]].
  destruct (ctx_Err k1) as [[] k2]; [done|]. cbn in Hc1, Hc2.
  destruct (eachPartition _ _ d k2) as [[[active err] d1] k3] eqn:He. destruct err as [err|].
  { by destruct (ctx_Err _) as [[] ?]. }
  intros [= <- <-]. exists (partitions fs), k2, active, k3. rewrite active_fetched, (eachPartition_fetched _ _ _ _ _ _ _ _ He).
  unfold all_records in Hp2. split_and!; [congruence..|done|done|congruence].
Qed.

Lemma Run_fetched polls d k d' k' : Run polls d k = (None, d', k') → fetched k `prefix_of` fetched k'.
Proof.
  revert d k. induction polls as [|polls IH]; intros d k; cbn [Run]; [by intros [= <- <-]|].
  destruct (runOnce d k) as [[[r|] d1] k1] eqn:Hr; [done|].
  apply runOnce_turn in Hr as (records & _ & _ & _ & _ & _ & _ & _ & Hf). intros H%IH.
  etrans; [|exact H]. rewrite Hf. by apply prefix_app_r.
Qed.
End fetching.

Section polling.
Context (Q : Transaction → Prop) (I : D → Prop) (P : Transaction → D → Prop).
Context (I_keeps : ∀ txn d, Q txn → I d → I (rec_Reconcile txn d).2).
Context (P_nil : ∀ txn d d', Q txn → I d → rec_Reconcile txn d = (Ok tt, d') → P txn d').
Context (P_stable : ∀ txn txn' d, Q txn' → I d → P txn d → P txn (rec_Reconcile txn' d).2).
Context (produced fetched : K → list kRecord) `{Klaws : !KafkaLaws K produced fetched}.
Hypothesis Hmax : 0 ≤ maxRetries con < MaxInt64 - 1.

(** A turn that polls again has accounted for what it fetched. *)
Lemma runOnce_spec d k d' k' : Forall (carries Q) (fetched k') → I d → runOnce d k = (None, d', k') →
  I d' ∧ ∃ records, fetched k' = fetched k ++ records ∧ Forall (λ r, accounted P produced r d' k') records ∧
    (∀ txn, P txn d → P txn d') ∧ produced k ⊆ produced k'.
Proof.
  intros Hcar HI H. apply (runOnce_turn produced fetched Hmax) in H as (records & k2 & active & k3 & Hp & Hf2 & He & -> & Hf).
  rewrite Hf in Hcar. apply Forall_app in Hcar as [_ Hcar].
  apply (eachPartition_spec Q I P I_keeps P_nil P_stable produced fetched Hmax) in He as [Hfw HA]; [|done..].
  assert (forward I P produced fetched d' k3 d' (if metrics con then observeActiveConsumers active k3 else k3)) as Hm.
  { destruct (metrics con); [apply forward_same; [apply Hfw|done|apply active_keeps]|apply forward_same; [apply Hfw|done|done]]. }
  pose proof (forward_trans _ _ _ _ _ _ _ _ _ _ Hfw Hm) as (HI' & HP & Hsub & _). rewrite Hp in Hsub.
  split; [done|]. exists (concat (Records <$> records)). split_and!; [done| |done|done].
  eapply Forall_impl; [by apply HA|]. intros r. by eapply accounted_forward.
Qed.

Lemma Run_spec polls d k d' k' : Forall (carries Q) (fetched k') → I d → Run polls d k = (None, d', k') →
  I d' ∧ (∀ txn, P txn d → P txn d') ∧ produced k ⊆ produced k' ∧
  ∀ record, record ∈ fetched k' → record ∈ fetched k ∨ accounted P produced record d' k'.
Proof.
  intros Hcar. revert d k. induction polls as [|polls IH]; intros d k HI; cbn [Run]; [intros [= <- <-]; auto|].
  destruct (runOnce d k) as [[[r|] d1] k1] eqn:Hr; [done|]. intros Hrun.
  assert (Forall (carries Q) (fetched k1)) as Hcar1.
  { pose proof (Run_fetched produced fetched Hmax _ _ _ _ _ Hrun) as [l El]. rewrite El in Hcar. by apply Forall_app in Hcar as [? _]. }
  apply runOnce_spec in Hr as (HI1 & records & Hf & HA & HP1 & Hsub1); [|done..].
  apply IH in Hrun as (HI' & HP & Hsub & Hall); [|done].
  split_and!; [done|by auto|by etrans|]. intros record [Hin|?]%Hall; [|by auto].
  rewrite Hf in Hin. apply elem_of_app in Hin as [?|Hin]; [by auto|]. right.
  rewrite Forall_forall in HA. by eapply accounted_mono, HA.
Qed.
End polling.

Section no_silent_drop.
Context (I : D → Prop) (P : Transaction → D → Prop).
Context (I_keeps : ∀ txn d, I d → I (rec_Reconcile txn d).2).
Context (P_nil : ∀ txn d d', I d → rec_Reconcile txn d = (Ok tt, d') → P txn d').
Context (P_stable : ∀ txn txn' d, I d → P txn d → P txn (rec_Reconcile txn' d).2).
Context (produced fetched : K → list kRecord) `{Klaws : !KafkaLaws K produced fetched}.
Hypothesis Hmax : 0 ≤ maxRetries con < MaxInt64 - 1.

(** C21. No silent drop: while Run keeps polling, every record the brokers have
    handed out so far has either been reconciled with a nil return, with whatever
    that established still standing, or is in the dead-letter topic with its
    payload, its key and its place in the source topic (MaxRetries below
    MaxInt64 - 1). *)
Theorem Run_accounts_for_every_record polls d k d' k' record :
  I d → Run polls d k = (None, d', k') → record ∈ fetched k' →
  record ∈ fetched k ∨ accounted P produced record d' k'.
Proof.
  intros HI Hrun. apply (Run_spec (λ _, True) I P ltac:(auto) ltac:(eauto) ltac:(auto) produced fetched Hmax)
    in Hrun as (_ & _ & _ & H); [by apply H| |done]. apply Forall_forall. by intros r _ txn _.
Qed.
End no_silent_drop.

(** C23. A dead letter can be read: the record's place and payload are in its JSON,
    the payload with every byte that is not UTF-8 replaced by U+FFFD, so that it is
    the record's own exactly when that is valid UTF-8. *)
Theorem dead_letter_readable (produced : K → list kRecord) record k : in_int32 (rPartition record) → in_int64 (rOffset record) →
  dead_lettered produced record k →
  ∃ letter members, letter ∈ produced k ∧ rTopic letter = dlqTopic con ∧ rKey letter = rKey record ∧
    readDocument (rValue letter) = Some (JObject members) ∧
    ("payload", JString (ToValid (rValue record))) ∈ members ∧
    ("original_topic", JString (ToValid (rTopic record))) ∈ members ∧
    ("original_partition", JNumber (Itoa (rPartition record))) ∈ members ∧
    ("original_offset", JNumber (Itoa (rOffset record))) ∈ members ∧
    (ToValid (rValue record) = rValue record ↔ ValidString (rValue record) = true).
Proof.
  intros Hp Ho (ev & pl & [= <-] & H1 & H2 & H3 & H4 & H5 & Hin).
  exists (Build_kRecord (dlqTopic con) 0 0 (rKey record) (GoJson.encode (dlq_json ev))).
  eexists. split; [done|]. split; [done|]. split; [done|]. split.
  { cbn [rValue]. rewrite readDocument_dlq, cleaned_dlq; [reflexivity|congruence|congruence|done]. }
  rewrite <-H1, <-H2, <-H3, <-H4. split; [do 3 apply list_elem_of_further; apply list_elem_of_here|].
  split; [apply list_elem_of_here|]. split; [apply list_elem_of_further, list_elem_of_here|].
  split; [do 2 apply list_elem_of_further; apply list_elem_of_here|].
  split; [intros Ht; rewrite <-Ht; apply ToValid_ValidString|apply ToValid_valid].
Qed.

End consumer.

(** ** A scripted Kafka client *)
Record Script := {
  feed : list Fetches;        (* answers to PollRecords *)
  acks : list bool;           (* outcomes of ProduceSync; then acknowledged *)
  cancels : list bool;        (* readings of ctx.Err; then live *)
  acknowledged : list kRecord;
  handedOut : list kRecord
}.

Definition set_acknowledged (l : list kRecord) (s : Script) : Script :=
  {| feed := feed s; acks := tl (acks s); cancels := cancels s; acknowledged := l; handedOut := handedOut s |}.

#[global] Instance ScriptedClient : KafkaClient Script := {|
  PollRecords _ s :=
    match feed s with
    | [] => ({| fetchErrors := []; partitions := [] |}, s)
    | f :: feed => (f, {| feed := feed; acks := acks s; cancels := cancels s;
                          acknowledged := acknowledged s; handedOut := handedOut s ++ all_records f |})
    end;
  ProduceSync r s :=
    if hd true (acks s) then (Ok tt, set_acknowledged (acknowledged s ++ [r]) s)
    else (Err (Errorf "produce"), set_acknowledged (acknowledged s) s);
  ctx_Err s := (hd false (cancels s),
    {| feed := feed s; acks := acks s; cancels := tl (cancels s); acknowledged := acknowledged s;
       handedOut := handedOut s |});
  time_Now s := (0, s);
  observeLag _ _ s := s;
  observeActiveConsumers _ s := s |}.

Lemma ScriptedLaws : KafkaLaws Script acknowledged handedOut.
Proof.
  split; cbn; try done.
  - intros r k k'. destruct (hd true (acks k)); [|done]. intros [= <-]. cbn. apply elem_of_app. right.
    apply list_elem_of_here.
  - intros r k. destruct (hd true (acks k)); cbn; [|done]. split; [|done]. intros x Hx. apply elem_of_app. auto.
  - intros n k. destruct (feed k); cbn; [|done]. by rewrite List.app_nil_r.
Qed.

Definition sampleConsumer (retries : Z) : Consumer :=
  {| topic := "transaction-events"; dlqTopic := "transaction-events-dlq"; maxRetries := retries;
     maxPollRecords := 0; metrics := true |}.

(** A reconciler that logs its calls and fails the first [n] of them. *)
Definition flaky (n : nat) (txn : Transaction) (calls : list Transaction) : result unit * list Transaction :=
  (if Nat.ltb (length calls) n then Err (Errorf "transient") else Ok tt, calls ++ [txn]).

Definition emptyScript : Script :=
  {| feed := []; acks := []; cancels := []; acknowledged := []; handedOut := [] |}.

Definition sampleTxn : Transaction :=
  {| ID := 0; EventID := "e"; TenantID := "acme"; SchemaVersion := 1; Instrument := "AAPL";
     Side := SideBuy; Quantity := 1; Price := 1; Currency := "USD"; OccurredAt := 0; ReceivedAt := 0 |}.

Lemma reconcileWithRetry_bounds_witness : ∃ d' k',
  reconcileWithRetry (flaky 2) (sampleConsumer 3) sampleTxn [] emptyScript = (3, None, d', k') ∧
  Z.of_nat (length d') = 0 + 3.
Proof.
  eexists _, _. split; [vm_compute; reflexivity|].
  refine (proj1 (reconcileWithRetry_bounds (flaky 2) (sampleConsumer 3) (λ d, Z.of_nat (length d)) _
    sampleTxn [] emptyScript 3 None _ _ _ _)).
  - intros txn d. cbn. rewrite length_app. cbn. lia.
  - vm_compute. intuition congruence.
  - vm_compute. reflexivity.
Defined.

Lemma reconcileWithRetry_wraps_witness :
  reconcileWithRetry (flaky 2) (sampleConsumer MaxInt64) sampleTxn [] emptyScript = (MinInt64, None, [], emptyScript).
Proof. apply reconcileWithRetry_wraps. reflexivity. Defined.

(** One poll: a record whose payload is not JSON, routed to the dead-letter topic. *)
Definition badRecord : kRecord :=
  {| rTopic := "transaction-events"; rPartition := 0; rOffset := 7; rKey := "acme:AAPL"; rValue := "{" |}.

Definition badScript : Script :=
  {| feed := [{| fetchErrors := [];
                 partitions := [{| fTopic := "transaction-events"; fPartition := 0; HighWatermark := 8;
                                   Records := [badRecord] |}] |}];
     acks := []; cancels := []; acknowledged := []; handedOut := [] |}.

#[local] Existing Instance plainCodec.

Lemma Run_accounts_for_every_record_witness : ∃ d' k',
  Run (flaky 0) (sampleConsumer 3) 1 [] badScript = (None, d', k') ∧
  (badRecord ∈ handedOut badScript ∨
   accounted (sampleConsumer 3) (λ txn d, txn ∈ d) acknowledged badRecord d' k').
Proof.
  eexists _, _. split; [vm_compute; reflexivity|].
  refine (Run_accounts_for_every_record (flaky 0) (sampleConsumer 3) (λ _, True) (λ txn d, txn ∈ d) _ _ _
    acknowledged handedOut (Klaws := ScriptedLaws) _ 1 [] badScript _ _ badRecord _ _ _).
  - done.
  - intros txn d d' _. cbn. intros [= <-]. apply elem_of_app. right. apply list_elem_of_here.
  - intros txn txn' d _ Hin. cbn. apply elem_of_app. auto.
  - vm_compute. intuition congruence.
  - done.
  - vm_compute. reflexivity.
  - vm_compute. apply list_elem_of_here.
Defined.

(** The dead letter of a record, in a topic that had none. *)
Definition lettered (record : kRecord) : Script := (publishToDLQ (sampleConsumer 3) record (Errorf "malformed") 1 emptyScript).2.

Lemma lettered_dead record : dead_lettered (sampleConsumer 3) acknowledged record (lettered record).
Proof.
  exists {| OriginalTopic := rTopic record; OriginalPartition := rPartition record; OriginalOffset := rOffset record;
            Payload := rValue record; FailureReason := "malformed"; Attempts := 1; FailedAt := format_RFC3339Nano (UTC 0) |}.
  eexists. split; [reflexivity|]. split_and!; try done; try (cbn; unfold_ints; lia).
  unfold lettered, publishToDLQ. cbn. apply list_elem_of_here.
Qed.

Lemma dead_letter_readable_witness : ∃ letter members,
  letter ∈ acknowledged (lettered badRecord) ∧ rTopic letter = "transaction-events-dlq" ∧
  readDocument (rValue letter) = Some (JObject members) ∧ ("payload", JString "{") ∈ members.
Proof.
  destruct (dead_letter_readable (sampleConsumer 3) acknowledged badRecord (lettered badRecord))
    as (letter & members & Hin & Ht & _ & Hr & Hp & _).
  - vm_compute. intuition congruence.
  - vm_compute. intuition congruence.
  - apply lettered_dead.
  - exists letter, members. split; [exact Hin|]. split; [exact Ht|]. split; [exact Hr|exact Hp].
Defined.

(** A payload that is not UTF-8 is not in its dead letter: two records whose
    payloads differ in such a byte have the same one. *)
Definition byteRecord (b : ascii) : kRecord :=
  {| rTopic := "transaction-events"; rPartition := 0; rOffset := 7; rKey := "acme:AAPL"; rValue := String b "" |}.

Example dead_letter_loses_bytes :
  rValue (byteRecord (ascii_of_N 254)) ≠ rValue (byteRecord (ascii_of_N 255)) ∧
  acknowledged (lettered (byteRecord (ascii_of_N 254))) = acknowledged (lettered (byteRecord (ascii_of_N 255))).
Proof. split; [done|]. vm_compute. reflexivity. Qed.
