(* ===== verification/ProcessorReload.v ===== *)
(** * Hot reload of a dedicated processor's partitions
    (internal/processor/kafka/reload.go)

    A reload reads the tenant partition map, finds this processor's entry, and
    moves the Kafka client from its current manual assignment to the entry's
    range by one Add and one Remove call.  What Source.Load returned is
    an argument; FileTenantPartitionSource is the implementation it has. *)
From S2P Require Import Prelude GoUnmarshal.

Record tenantPartitionMapEntry := { Start : Z; Count : Z }.  (* int32, int32 *)

Definition entryFields : list (string * setter tenantPartitionMapEntry) :=
  [("start", SetInt 2147483648 (λ x e, {| Start := x; Count := Count e |}));
   ("count", SetInt 2147483648 (λ x e, {| Start := Start e; Count := x |}))].

(** FileTenantPartitionSource.Load; [ReadFile] is os.ReadFile.  A nil map has no
    entries. *)
Definition FileTenantPartitionSource_Load (ReadFile : string → result string) (Path : string)
    : result (gmap string tenantPartitionMapEntry) :=
  raw ← wrap_err "read tenant partition map %q: %w" (ReadFile Path);
  entries ← wrap_err "parse tenant partition map %q: %w" (unmarshalMap entryFields {| Start := 0; Count := 0 |} raw);
  Ok (default ∅ entries).

(** for index := int32(0); index < entry.Count; index++ *)
Fixpoint addRange (start index : Z) (n : nat) (partitions : gset Z) : gset Z :=
  match n with
  | O => partitions
  | S n => addRange start (index + 1) n ({[ int32 (start + index) ]} ∪ partitions)
  end.

Definition partitionsForEntry (entry : tenantPartitionMapEntry) : result (gset Z) :=
  if Count entry <? 1 then Err (Errorf "count %d must be >= 1")
  else Ok (addRange (Start entry) 0 (Z.to_nat (Count entry)) ∅).

Definition loadTarget (loaded : result (gmap string tenantPartitionMapEntry)) (tenantID : string)
    : result (gset Z) :=
  entries ← loaded;
  match entries !! tenantID with
  | None => Err (Errorf "tenant %q has no entry in tenant partition map")
  | Some entry => wrap_err "tenant %q: %w" (partitionsForEntry entry)
  end.

(** The calls a reload makes on the Kafka client, in order. *)
Inductive clientOp :=
  | AddConsumePartitions (added : gset Z)      (* each from its start *)
  | RemoveConsumePartitions (removed : gset Z).

Definition applyAssignment (assignment target : gset Z) : list clientOp * gset Z :=
  let added := target ∖ assignment in
  let removed := assignment ∖ target in
  if bool_decide (added = ∅) && bool_decide (removed = ∅) then ([], assignment)
  else
    ((if bool_decide (added = ∅) then [] else [AddConsumePartitions added]) ++
     (if bool_decide (removed = ∅) then [] else [RemoveConsumePartitions removed]),
     target).

(** The assignment and partitionReloadErrorsTotal. *)
Record Reloaded := { assignment : gset Z; reloadErrors : Z }.

Definition reloadOnce (loaded : result (gmap string tenantPartitionMapEntry)) (tenantID : string)
    (s : Reloaded) : list clientOp * Reloaded :=
  match loadTarget loaded tenantID with
  | Err _ => ([], {| assignment := assignment s; reloadErrors := reloadErrors s + 1 |})
  | Ok target =>
      let '(ops, a) := applyAssignment (assignment s) target in
      (ops, {| assignment := a; reloadErrors := reloadErrors s |})
  end.

(** ** What the client consumes *)
Definition consume (consuming : gset Z) (op : clientOp) : gset Z :=
  match op with
  | AddConsumePartitions added => consuming ∪ added
  | RemoveConsumePartitions removed => consuming ∖ removed
  end.

Lemma addRange_spec start index n ps x : x ∈ addRange start index n ps ↔
  x ∈ ps ∨ ∃ i, index ≤ i < index + Z.of_nat n ∧ x = int32 (start + i).
Proof.
  revert index ps. induction n as [|n IH]; intros index ps; cbn.
  - split; [auto|]. intros [?|(i & ? & _)]; [done|lia].
  - rewrite IH, elem_of_union, elem_of_singleton. split.
    + intros [[->|?]|(i & ? & ->)]; [right|by left|right]; [exists index|exists i]; (split; [lia|done]).
    + intros [?|(i & Hi & ->)]; [auto|]. destruct (decide (i = index)) as [->|]; [auto|].
      right. exists i. split; [lia|done].
Qed.

(** A range that fits in int32 expands to exactly its partitions. *)
Theorem partitionsForEntry_range entry ps x :
  1 ≤ Count entry → in_int32 (Start entry) → in_int32 (Start entry + Count entry - 1) →
  partitionsForEntry entry = Ok ps →
  x ∈ ps ↔ Start entry ≤ x < Start entry + Count entry.
Proof.
  intros Hc H1 H2. unfold partitionsForEntry. destruct (Z.ltb_spec (Count entry) 1); [lia|].
  intros [= <-]. rewrite addRange_spec. split.
  - intros [?%not_elem_of_empty|(i & Hi & ->)]; [done|]. rewrite int32_id by (unfold_ints; lia). lia.
  - intros Hx. right. exists (x - Start entry). split; [lia|].
    rewrite int32_id by (unfold_ints; lia). lia.
Qed.

Lemma partitionsForEntry_range_witness : ∃ ps,
  partitionsForEntry {| Start := 2; Count := 4 |} = Ok ps ∧ (5 ∈ ps ↔ 2 ≤ 5 < 2 + 4).
Proof.
  eexists. split; [reflexivity|].
  apply (partitionsForEntry_range {| Start := 2; Count := 4 |}); [cbn; lia|unfold_ints; cbn; lia..|reflexivity].
Defined.

Lemma partitionsForEntry_nonempty entry ps : partitionsForEntry entry = Ok ps → ps ≠ ∅.
Proof.
  unfold partitionsForEntry. destruct (Z.ltb_spec (Count entry) 1); [done|]. intros [= <-] E.
  assert (int32 (Start entry + 0) ∈ addRange (Start entry) 0 (Z.to_nat (Count entry)) ∅) as Hin.
  { apply addRange_spec. right. exists 0. split; [lia|done]. }
  rewrite E in Hin. set_solver.
Qed.

(** Set equalities by deciding membership in the two sets. *)
Ltac set_cases := apply leibniz_equiv; intros x;
  match goal with a : gset Z, b : gset Z |- _ => destruct (decide (x ∈ a)), (decide (x ∈ b)); set_solver end.

Lemma applyAssignment_spec a target : 
  let '(ops, a') := applyAssignment a target in
  a' = target ∧
  ∀ before, before `prefix_of` ops →
    a ∩ target ⊆ foldl consume a before ∧ (a ⊆ foldl consume a before ∨ foldl consume a before = target) ∧
    (before = ops → foldl consume a before = target).
Proof.
  unfold applyAssignment.
  destruct (bool_decide (target ∖ a = ∅)) eqn:E1, (bool_decide (a ∖ target = ∅)) eqn:E2; cbn;
    bool_props.
  - assert (a = target) as -> by set_cases. split; [done|].
    intros before ->%prefix_nil_inv. cbn. split_and!; [set_solver|by left|done].
  - split; [done|]. intros before Hp. destruct before as [|op before]; cbn.
    { split_and!; [set_solver|by left|done]. }
    apply prefix_cons_inv_1 in Hp as Hop. apply prefix_cons_inv_2 in Hp as ->%prefix_nil_inv. subst op. cbn.
    assert (a ∖ (a ∖ target) = target) as -> by set_cases.
    split_and!; [set_solver|by right|done].
  - split; [done|]. intros before Hp. destruct before as [|op before]; cbn.
    { split_and!; [set_solver|by left|done]. }
    apply prefix_cons_inv_1 in Hp as Hop. apply prefix_cons_inv_2 in Hp as ->%prefix_nil_inv. subst op. cbn.
    assert (a ∪ (target ∖ a) = target) as -> by set_cases.
    split_and!; [set_solver|by right|done].
  - split; [done|]. intros before Hp. destruct before as [|op before]; cbn.
    { split_and!; [set_solver|by left|done]. }
    apply prefix_cons_inv_1 in Hp as Hop. apply prefix_cons_inv_2 in Hp. subst op. cbn.
    destruct before as [|op before]; cbn; [split_and!; [set_solver|left; set_solver|done]|].
    apply prefix_cons_inv_1 in Hp as Hop. apply prefix_cons_inv_2 in Hp as ->%prefix_nil_inv. subst op. cbn.
    assert ((a ∪ target ∖ a) ∖ (a ∖ target) = target) as -> by set_cases.
    split_and!; [set_solver|by right|done].
Qed.

(** One reload: its client calls, one by one, and its result. *)
Lemma reloadOnce_spec loaded tenantID s :
  assignment s ≠ ∅ →
  let '(ops, s') := reloadOnce loaded tenantID s in
  (∀ before, before `prefix_of` ops →
    assignment s ∩ assignment s' ⊆ foldl consume (assignment s) before ∧
    foldl consume (assignment s) before ≠ ∅) ∧
  foldl consume (assignment s) ops = assignment s' ∧ assignment s' ≠ ∅ ∧
  match loadTarget loaded tenantID with
  | Ok target => assignment s' = target ∧ reloadErrors s' = reloadErrors s
  | Err _ => ops = [] ∧ assignment s' = assignment s ∧ reloadErrors s' = reloadErrors s + 1
  end.
Proof.
  intros Hne. unfold reloadOnce. destruct (loadTarget loaded tenantID) as [target|e] eqn:Hl; cbn.
  - assert (target ≠ ∅) as Ht.
    { unfold loadTarget in Hl. apply result_bind_Ok in Hl as (entries & _ & Hl).
      destruct (entries !! tenantID); [|done]. apply wrap_err_Ok in Hl. by eapply partitionsForEntry_nonempty. }
    pose proof (applyAssignment_spec (assignment s) target) as Hs.
    destruct (applyAssignment (assignment s) target) as [ops a']. destruct Hs as [-> Hs]. cbn.
    split_and!; try done; [|by apply (Hs ops)].
    intros before Hp. destruct (Hs before Hp) as (H1 & H2 & _). split; [done|].
    destruct H2 as [H2|H2]; [set_solver|by rewrite H2].
  - split_and!; try done. intros before ->%prefix_nil_inv. cbn. split; [set_solver|done].
Qed.

(** A reload never stops consumption: after each client call a reload makes,
    the client still consumes every partition it keeps, and it never goes down to
    none; afterwards it consumes exactly the recorded assignment.  A failed load,
    a missing entry or a malformed entry makes no client call, keeps the
    assignment and counts one reload error. *)
Theorem reloadOnce_keeps_consuming loaded tenantID s :
  assignment s ≠ ∅ →
  let '(ops, s') := reloadOnce loaded tenantID s in
  (∀ before, before `prefix_of` ops →
    assignment s ∩ assignment s' ⊆ foldl consume (assignment s) before ∧
    foldl consume (assignment s) before ≠ ∅) ∧
  foldl consume (assignment s) ops = assignment s' ∧ assignment s' ≠ ∅ ∧
  match loadTarget loaded tenantID with
  | Ok target => assignment s' = target ∧ reloadErrors s' = reloadErrors s
  | Err _ => ops = [] ∧ assignment s' = assignment s ∧ reloadErrors s' = reloadErrors s + 1
  end.
Proof. apply reloadOnce_spec. Qed.

Lemma reloadOnce_keeps_consuming_witness :
  let '(ops, s') := reloadOnce (Ok {[ "acme" := {| Start := 2; Count := 4 |} ]}) "acme"
                      {| assignment := {[0; 1; 2; 3]}; reloadErrors := 0 |} in
  foldl consume {[0; 1; 2; 3]} ops = assignment s' ∧ length ops = 2%nat.
Proof.
  pose proof (reloadOnce_keeps_consuming (Ok {[ "acme" := {| Start := 2; Count := 4 |} ]}) "acme"
    {| assignment := {[0; 1; 2; 3]}; reloadErrors := 0 |}) as H.
  destruct (reloadOnce _ _ _) as [ops s'] eqn:E. split.
  - apply H. cbn. set_solver.
  - vm_compute in E. injection E as <- _. reflexivity.
Defined.
