(* ===== verification/ReloadLoop.v ===== *)
(** * The reload loop and Close
    (internal/processor/kafka/reload.go Run, consumer.go Close)

    TenantPartitionReloader.Run as a goroutine next to the one that calls
    Consumer.Close: a tick starts a reloadOnce, whose client calls are steps of
    their own, and Close cancels the loop, waits for it and closes the client.  The
    ingestion side's Run and Publisher.Close have the same text. *)
From S2P Require Import Prelude GoTime ProcessorReload.

Definition DefaultTenantPartitionReloadInterval : Z := 5 * Second.

(** The interval the ticker is built with. *)
Definition reloadInterval (Interval : Z) : Z := if Interval <=? 0 then DefaultTenantPartitionReloadInterval else Interval.

(** Calls on the Kafka client, by the reloader or by Close. *)
Inductive call := Reassign (op : clientOp) | CloseClient.

Inductive loop_pc :=
  | Selecting                                           (* select on ctx.Done() and ticker.C *)
  | Applying (ops : list clientOp) (next : Reloaded)    (* inside reloadOnce: calls to make *)
  | Exited.

Inductive close_pc := Open | Waiting | Releasing | Closed.  (* before Close; reloadDone.Wait(); client.Close(); after *)

Record state := {
  loop : loop_pc;
  tick : bool;               (* the ticker's channel holds one *)
  stopped : bool;            (* reloadCtx is done *)
  data : Reloaded;
  closer : close_pc;
  calls : list call          (* oldest first *)
}.

Definition start (assignment : gset Z) : state :=
  {| loop := Selecting; tick := false; stopped := false;
     data := {| assignment := assignment; reloadErrors := 0 |}; closer := Open; calls := [] |}.

Section loop.
Context (tenantID : string).

(** [own] steps need neither the clock nor a caller of Close. *)
Inductive step : bool → state → state → Prop :=
  | clock l s d c cs :
      step false (Build_state l false s d c cs) (Build_state l true s d c cs)
  | select_tick s d c cs loaded ops d' :
      reloadOnce loaded tenantID d = (ops, d') →
      step true (Build_state Selecting true s d c cs) (Build_state (Applying ops d') false s d c cs)
  | select_done t d c cs :
      step true (Build_state Selecting t true d c cs) (Build_state Exited t true d c cs)
  | client_call op ops d' t s d c cs :
      step true (Build_state (Applying (op :: ops) d') t s d c cs) (Build_state (Applying ops d') t s d c (cs ++ [Reassign op]))
  | reload_ends d' t s d c cs :
      step true (Build_state (Applying [] d') t s d c cs) (Build_state Selecting t s d' c cs)
  | close_begins l t s d cs :
      step false (Build_state l t s d Open cs) (Build_state l t true d Waiting cs)
  | close_waited t s d cs :
      step true (Build_state Exited t s d Waiting cs) (Build_state Exited t s d Releasing cs)
  | close_ends l t s d cs :
      step true (Build_state l t s d Releasing cs) (Build_state l t s d Closed (cs ++ [CloseClient])).

Definition any_step (s s' : state) : Prop := ∃ own, step own s s'.
Definition reachable (a : gset Z) : state → Prop := rtc any_step (start a).

(** The partitions the client consumes after some calls. *)
Definition consuming (a : gset Z) (cs : list call) : gset Z :=
  foldl (λ c call, match call with Reassign op => consume c op | CloseClient => c end) a cs.

#[local] Arguments consuming : simpl never.

Definition reassigns (cs : list call) : Prop := Forall (λ c, c ≠ CloseClient) cs.

Record inv (a : gset Z) (s : state) : Prop := {
  inv_data : assignment (data s) ≠ ∅;
  inv_loop : match loop s with
             | Selecting | Exited => consuming a (calls s) = assignment (data s)
             | Applying ops next => ∃ loaded before,
                 reloadOnce loaded tenantID (data s) = (before ++ ops, next) ∧
                 consuming a (calls s) = foldl consume (assignment (data s)) before
             end;
  inv_closer : match closer s with
               | Open => stopped s = false ∧ reassigns (calls s) ∧ loop s ≠ Exited
               | Waiting => stopped s = true ∧ reassigns (calls s)
               | Releasing => loop s = Exited ∧ reassigns (calls s)
               | Closed => loop s = Exited ∧ ∃ cs, calls s = cs ++ [CloseClient] ∧ reassigns cs
               end
}.

Lemma consuming_snoc a cs c :
  consuming a (cs ++ [c]) = match c with Reassign op => consume (consuming a cs) op | CloseClient => consuming a cs end.
Proof. unfold consuming. by rewrite foldl_app. Qed.

Lemma reload_step_inv a own s s' : step own s s' → inv a s → inv a s'.
Proof.
  destruct 1 as [l s d c cs|s d c cs loaded ops d' E|t d c cs|op ops d' t s d c cs|d' t s d c cs|l t s d cs|t s d cs|l t s d cs];
    intros [Hd Hl Hc]; cbn in *.
  - by split.
  - split; cbn; [done| |].
    + exists loaded, []. split; [done|]. by rewrite Hl.
    + destruct c; naive_solver.
  - split; cbn; [done|done|]. destruct c; naive_solver.
  - destruct Hl as (loaded & before & E & Hb). split; cbn; [done| |].
    + exists loaded, (before ++ [op]). rewrite <-app_assoc. split; [done|].
      rewrite consuming_snoc, Hb, foldl_app. done.
    + assert (∀ cs, reassigns cs → reassigns (cs ++ [Reassign op])) as Hr.
      { intros cs' H. apply Forall_app. split; [done|]. by repeat constructor. }
      destruct c; naive_solver.
  - destruct Hl as (loaded & before & E & Hb). rewrite app_nil_r in E.
    pose proof (reloadOnce_spec loaded tenantID d Hd) as Hs. rewrite E in Hs. destruct Hs as (_ & Hf & Hne & _).
    split; cbn; [done|by rewrite Hb|]. destruct c; naive_solver.
  - split; cbn; naive_solver.
  - split; cbn; naive_solver.
  - destruct Hc as [-> Hr]. split; cbn; [done|by rewrite consuming_snoc|]. split; [done|]. by exists cs.
Qed.

Lemma reload_reachable_inv a s : a ≠ ∅ → reachable a s → inv a s.
Proof.
  intros Ha Hr. assert (inv a (start a)) as H0.
  { split; cbn; [done|done|]. split; [done|]. split; [constructor|done]. }
  revert H0. induction Hr as [|s1 s2 s3 [own Hs] _ IH]; [done|]. intros Hi. apply IH. by eapply reload_step_inv.
Qed.

(** What is left to do once Close was called. *)
Definition left (s : state) : nat :=
  match closer s with Open => 0 | Waiting => 3 | Releasing => 1 | Closed => 0 end +
  match loop s with Exited => 0 | Selecting => 1 | Applying ops _ => 2 + length ops end.

Lemma reload_finishes a s : inv a s → closer s ≠ Open → ∃ s', rtc (step true) s s' ∧ closer s' = Closed.
Proof.
  remember (left s) as n eqn:Hn. revert s Hn. induction n as [n IH] using lt_wf_ind. intros s -> Hi Hc.
  assert (closer s = Closed ∨ ∃ s1, step true s s1 ∧ (left s1 < left s)%nat ∧ closer s1 ≠ Open) as [?|(s1 & Hs & Hlt & Ho)].
  { destruct Hi as [_ Hl Hcl], s as [l t st d c cs]. cbn in *. destruct c; [done| | |by left].
    - destruct Hcl as [-> _]. right. destruct l as [|[|op ops] d'|].
      + eexists. split; [apply select_done|]. cbn. split; [lia|done].
      + eexists. split; [apply reload_ends|]. cbn. split; [lia|done].
      + eexists. split; [apply client_call|]. cbn. split; [lia|done].
      + eexists. split; [apply close_waited|]. cbn. split; [lia|done].
    - right. eexists. split; [apply close_ends|]. cbn. split; [lia|done]. }
  - exists s. split; [constructor|done].
  - destruct (IH (left s1) Hlt s1 eq_refl) as (s' & Hr & Hf); [by eapply reload_step_inv|done|].
    exists s'. split; [by econstructor|done].
Qed.

(** C26. Hot reload and Close: at every moment, in the middle of a reload too, a client
    that started with partitions consumes some; once Close has returned, the client
    got its Close as the last call, after every call of the reloader, and the
    reloader is gone; and a Close that was called returns, by steps of the two
    goroutines alone. *)
Theorem close_after_last_reload a s : a ≠ ∅ → reachable a s →
  consuming a (calls s) ≠ ∅ ∧
  (∀ cs rest, calls s = cs ++ CloseClient :: rest → rest = [] ∧ reassigns cs ∧ loop s = Exited ∧ closer s = Closed) ∧
  (closer s ≠ Open → ∃ s', rtc (step true) s s' ∧ closer s' = Closed).
Proof.
  intros Ha Hr. pose proof (reload_reachable_inv a s Ha Hr) as Hi. split; [|split; [|by eapply reload_finishes]].
  - destruct Hi as [Hd Hl _]. destruct (loop s) as [|ops d'|]; [by rewrite Hl| |by rewrite Hl].
    destruct Hl as (loaded & before & E & ->). pose proof (reloadOnce_spec loaded tenantID (data s) Hd) as Hs.
    rewrite E in Hs. apply Hs. by exists ops.
  - intros cs rest E. destruct Hi as [_ _ Hc]. assert (¬ reassigns (calls s)) as Hno.
    { rewrite E. intros H. apply Forall_app in H as [_ H]. by apply Forall_cons in H as [? _]. }
    destruct (closer s); [naive_solver..|]. destruct Hc as (Hx & cs' & E' & Hr'). rewrite E in E'.
    destruct rest as [|c rest] using rev_ind.
    + apply app_inj_tail in E' as [-> _]. done.
    + rewrite app_comm_cons, app_assoc in E'. apply app_inj_tail in E' as [<- _].
      apply Forall_app in Hr' as [_ H]. by apply Forall_cons in H as [? _].
Qed.
End loop.

Theorem reloadInterval_positive Interval : 0 < reloadInterval Interval.
Proof. unfold reloadInterval. destruct (Z.leb_spec Interval 0); [vm_compute; done|done]. Qed.

(** ** Witness: Close arrives between the two client calls of a reload *)
Definition shifted : Reloaded := {| assignment := {[2; 3; 4; 5]}; reloadErrors := 0 |}.

Definition between : state :=
  {| loop := Applying [RemoveConsumePartitions {[0; 1]}] shifted; tick := false; stopped := true;
     data := {| assignment := {[0; 1; 2; 3]}; reloadErrors := 0 |}; closer := Waiting;
     calls := [Reassign (AddConsumePartitions {[4; 5]})] |}.

Lemma between_reachable : reachable "acme" {[0; 1; 2; 3]} between.
Proof.
  eapply rtc_l; [exists false; apply clock|].
  eapply rtc_l; [exists true; apply (select_tick _ _ _ _ _ (Ok {["acme" := {| Start := 2; Count := 4 |}]})
    [AddConsumePartitions {[4; 5]}; RemoveConsumePartitions {[0; 1]}] shifted); vm_compute; reflexivity|].
  eapply rtc_l; [exists true; apply client_call|].
  eapply rtc_l; [exists false; apply close_begins|]. constructor.
Qed.

Lemma close_after_last_reload_witness :
  consuming {[0; 1; 2; 3]} [Reassign (AddConsumePartitions {[4; 5]})] ≠ ∅ ∧
  ∃ s', rtc (step "acme" true) between s' ∧ closer s' = Closed.
Proof.
  destruct (close_after_last_reload "acme" {[0; 1; 2; 3]} between) as (H1 & _ & H3).
  - vm_compute. congruence.
  - exact between_reachable.
  - split; [exact H1|]. apply H3. cbn. congruence.
Defined.
