(* ===== verification/Partitioner.v ===== *)
(** * Tenant partitioner (internal/ingestion/kafka/partitioner.go, reload.go)

    The reservation table that confines every tenant to its own range of the
    topic's partitions, in int32 arithmetic with its wrap-around, and the topic
    partitioner that rebuilds it on a hot reload.  A table's pool assignments are
    state: [partitionFor] returns the table afterwards.  A Go panic (integer
    division by zero) is [None]. *)
From S2P Require Import Prelude GoStrings GoUnmarshal.

Definition DefaultPartitionsPerTenant : Z := 1.

(** TenantPartitionConfig: tenant id to partition count (int32). *)
Abbreviation TenantPartitionConfig := (gmap string Z) (only parsing).

(** ** Keys and hashing *)
Definition partitionKey (tenantID instrument : string) : string := tenantID +:+ ":" +:+ instrument.

Definition splitPartitionKey (key : string) : string * string :=
  match cut_byte (λ c, bool_decide (c = ":"%char)) key with
  | None => (key, "")
  | Some (tenantID, instrument) => (tenantID, instrument)
  end.

Definition offset32 : Z := 2166136261.
Definition prime32 : Z := 16777619.

Fixpoint hashLoop (hash : Z) (data : list Z) : Z :=
  match data with
  | [] => hash
  | b :: data => hashLoop (uint32 (Z.lxor hash b * prime32)) data
  end.

Definition hashBytes (data : string) : Z := hashLoop offset32 (bytes data).

(** ** The reservation table *)
Record partitionRange := { start : Z; size : Z }.   (* int32, int32 *)

Record reservationTable := {
  totalPartitions : Z;
  defaultSize : Z;
  explicit : gmap string partitionRange;
  poolStart : Z;
  poolSize : Z;
  poolNext : Z;
  pool : gmap string partitionRange;
  droppedTenants : list string;
  observed : list (string * partitionRange)   (* observePartitionRange calls, oldest first *)
}.

(** The loop over the sorted tenant ids: (explicit, cursor, dropped, observed). *)
Fixpoint reserve (explicitCapacity : Z) (reserved : TenantPartitionConfig) (tenantIDs : list string)
    (cursor : Z) (ranges : gmap string partitionRange) (obs : list (string * partitionRange))
    : gmap string partitionRange * Z * list string * list (string * partitionRange) :=
  match tenantIDs with
  | [] => (ranges, cursor, [], obs)
  | tenantID :: rest =>
      if explicitCapacity <=? cursor then (ranges, cursor, tenantIDs, obs)
      else
        let sz := default 0 (reserved !! tenantID) in
        let sz := if sz <? 1 then 1 else sz in
        let sz := if explicitCapacity <? int32 (cursor + sz)
                  then int32 (explicitCapacity - cursor) else sz in
        let rng := {| start := cursor; size := sz |} in
        reserve explicitCapacity reserved rest (int32 (cursor + sz))
          (<[tenantID := rng]> ranges) (obs ++ [(tenantID, rng)])
  end.

(** [order] is the order in which [range reserved] visits the keys. *)
Definition newReservationTable (order : list string) (reserved : TenantPartitionConfig)
    (defaultSize totalPartitions : Z) : reservationTable :=
  let defaultSize := if defaultSize <? 1 then DefaultPartitionsPerTenant else defaultSize in
  let totalPartitions := if totalPartitions <? 1 then 1 else totalPartitions in
  let explicitCapacity := if 1 <? totalPartitions then totalPartitions - 1 else totalPartitions in
  let tenantIDs := merge_sort String.le order in
  let '(ranges, cursor, dropped, obs) := reserve explicitCapacity reserved tenantIDs 0 ∅ [] in
  {| totalPartitions := totalPartitions; defaultSize := defaultSize; explicit := ranges;
     poolStart := cursor; poolSize := int32 (totalPartitions - cursor); poolNext := cursor;
     pool := ∅; droppedTenants := dropped; observed := obs |}.

(** hash % uint32(size): None is the division-by-zero panic. *)
Definition modSize (hash sz : Z) : option Z :=
  if uint32 sz =? 0 then None else Some (int32 (hash mod uint32 sz)).

Definition poolRangeFor (tenantID : string) (table : reservationTable)
    : option partitionRange * reservationTable :=
  match pool table !! tenantID with
  | Some rng => (Some rng, table)
  | None =>
      let remaining := int32 (int32 (poolStart table + poolSize table) - poolNext table) in
      let sz := if remaining <? defaultSize table then remaining else defaultSize table in
      if sz <=? 0
      then ((λ offset, {| start := int32 (poolStart table + offset); size := 1 |})
              <$> modSize (hashBytes tenantID) (poolSize table), table)
      else
        let rng := {| start := poolNext table; size := sz |} in
        (Some rng,
         {| totalPartitions := totalPartitions table; defaultSize := defaultSize table;
            explicit := explicit table; poolStart := poolStart table; poolSize := poolSize table;
            poolNext := int32 (poolNext table + sz); pool := <[tenantID := rng]> (pool table);
            droppedTenants := droppedTenants table; observed := observed table ++ [(tenantID, rng)] |})
  end.

Definition partitionFor (tenantID instrument : string) (table : reservationTable)
    : option Z * reservationTable :=
  let '(rng, table) :=
    match explicit table !! tenantID with
    | Some rng => (Some rng, table)
    | None => poolRangeFor tenantID table
    end in
  (rng ← rng;
   offset ← modSize (hashBytes instrument) (size rng);
   Some (int32 (start rng + offset)), table).

(** ** The topic partitioner *)

(** The shared state behind the atomic pointer; [version] is the pointer's
    identity, fresh at every store. *)
Record tenantPartitionerState := {
  version : nat;
  stReserved : gmap string Z;
  stDefaultSize : Z
}.

Definition newTenantPartitioner (reserved : TenantPartitionConfig) (defaultSize : Z) : tenantPartitionerState :=
  {| version := 0; stReserved := reserved; stDefaultSize := defaultSize |}.

Definition updateReservations (reserved : TenantPartitionConfig) (defaultSize : Z)
    (shared : tenantPartitionerState) : tenantPartitionerState :=
  {| version := S (version shared); stReserved := reserved; stDefaultSize := defaultSize |}.

(** The table held and the version it was built from; the dropped counter. *)
Record tenantTopicPartitioner := {
  built : option (nat * reservationTable);
  tenantReservationDroppedTotal : Z
}.

(** ForTopic *)
Definition ForTopic : tenantTopicPartitioner := {| built := None; tenantReservationDroppedTotal := 0 |}.

Definition Partition (order : list string) (shared : tenantPartitionerState) (key : string)
    (total : Z) (part : tenantTopicPartitioner) : option Z * tenantTopicPartitioner :=
  let '(table, dropped) :=
    match built part with
    | Some (v, table) =>
        if Nat.eqb v (version shared) && (totalPartitions table =? int32 total)
        then (table, tenantReservationDroppedTotal part)
        else
          let table := newReservationTable order (stReserved shared) (stDefaultSize shared) (int32 total) in
          (table, tenantReservationDroppedTotal part + Z.of_nat (length (droppedTenants table)))
    | None =>
        let table := newReservationTable order (stReserved shared) (stDefaultSize shared) (int32 total) in
        (table, tenantReservationDroppedTotal part + Z.of_nat (length (droppedTenants table)))
    end in
  let '(tenantID, instrument) := splitPartitionKey key in
  let '(p, table) := partitionFor tenantID instrument table in
  (p, {| built := Some (version shared, table); tenantReservationDroppedTotal := dropped |}).

(** ** Hot reload (reload.go) *)
Record tenantPartitionMapEntry := { Start : Z; Count : Z }.   (* int32, int32 *)

(** The loop over the entries, in the order the map is ranged over. *)
Fixpoint reservedCounts (entries : list (string * tenantPartitionMapEntry)) (reserved : TenantPartitionConfig)
    : result (gmap string Z) :=
  match entries with
  | [] => Ok reserved
  | (tenantID, entry) :: entries =>
      if Count entry <? 1
      then Err (Errorf "parse tenant partition map %q: tenant %q count %d must be >= 1")
      else reservedCounts entries (<[tenantID := Count entry]> reserved)
  end.

Definition entryFields : list (string * setter tenantPartitionMapEntry) :=
  [("start", SetInt 2147483648 (λ x e, {| Start := x; Count := Count e |}));
   ("count", SetInt 2147483648 (λ x e, {| Start := Start e; Count := x |}))].

(** FileTenantPartitionSource.Load; [ReadFile] is os.ReadFile and [ranged] the
    order a map is ranged over in. *)
Definition FileTenantPartitionSource_Load (ReadFile : string → result string)
    (ranged : gmap string tenantPartitionMapEntry → list (string * tenantPartitionMapEntry)) (Path : string)
    : result (gmap string Z) :=
  raw ← wrap_err "read tenant partition map %q: %w" (ReadFile Path);
  entries ← wrap_err "parse tenant partition map %q: %w" (unmarshalMap entryFields {| Start := 0; Count := 0 |} raw);
  reservedCounts (ranged (default ∅ entries)) ∅.

(** reloadOnce, [loaded] what Source.Load returned: the shared state and
    tenantReservationReloadErrorTotal. *)
Definition reloadOnce (loaded : result (gmap string Z)) (defaultSize : Z)
    (shared : tenantPartitionerState) (errors : Z) : tenantPartitionerState * Z :=
  match loaded with
  | Err _ => (shared, errors + 1)
  | Ok reserved => (updateReservations reserved defaultSize shared, errors)
  end.

(** ** Exclusive ranges *)

Definition separate (r1 r2 : partitionRange) : Prop :=
  start r1 + size r1 ≤ start r2 ∨ start r2 + size r2 ≤ start r1.

(** Non-empty ranges within [lo, hi), no two tenants' overlapping. *)
Record exclusive (lo hi : Z) (m : gmap string partitionRange) : Prop := {
  exclusive_within : map_Forall (λ _ r, lo ≤ start r ∧ 1 ≤ size r ∧ start r + size r ≤ hi) m;
  exclusive_separate t1 t2 r1 r2 : t1 ≠ t2 → m !! t1 = Some r1 → m !! t2 = Some r2 → separate r1 r2
}.

Lemma exclusive_empty lo hi : exclusive lo hi ∅.
Proof. split; [apply map_Forall_empty|]. intros t1 t2 r1 r2 _ []%lookup_empty_Some. Qed.

(** Taking the next block keeps ranges exclusive. *)
Lemma exclusive_insert lo hi t sz m : exclusive lo hi m → lo ≤ hi → 1 ≤ sz →
  exclusive lo (hi + sz) (<[t := {| start := hi; size := sz |}]> m).
Proof.
  intros [Hr Hd] Hlo Hsz. split.
  - apply map_Forall_insert_2; [cbn; lia|]. eapply map_Forall_impl; [exact Hr|]. cbn. lia.
  - intros t1 t2 r1 r2 Hne H1 H2.
    assert (∀ t' r', m !! t' = Some r' → start r' + size r' ≤ hi) as Hhi.
    { intros t' r' H. apply Hr in H. lia. }
    apply lookup_insert_Some in H1 as [[<- <-]|[? H1]];
      apply lookup_insert_Some in H2 as [[<- <-]|[? H2]]; unfold separate; cbn.
    + done.
    + apply Hhi in H2. lia.
    + apply Hhi in H1. lia.
    + by apply (Hd t1 t2).
Qed.

(** A configuration whose counts cannot carry an int32 cursor past its top. *)
Definition counts_fit (reserved : gmap string Z) (total : Z) : Prop :=
  map_Forall (λ _ count, count + total ≤ MaxInt32) reserved.

Lemma reserve_exclusive cap total reserved ids cursor ranges obs ranges' cursor' dropped obs' :
  reserve cap reserved ids cursor ranges obs = (ranges', cursor', dropped, obs') →
  cap ≤ total < MaxInt32 → counts_fit reserved total → 0 ≤ cursor ≤ cap → exclusive 0 cursor ranges →
  exclusive 0 cursor' ranges' ∧ cursor ≤ cursor' ≤ cap.
Proof.
  intros H Hcap Hfit. revert cursor ranges obs H.
  induction ids as [|t ids IH]; intros cursor ranges obs; cbn [reserve].
  { intros [= <- <- _ _] Hc He. split; [done|lia]. }
  destruct (Z.leb_spec cap cursor) as [Hle|Hlt]; [intros [= <- <- _ _] Hc He; split; [done|lia]|].
  set (sz := if default 0 (reserved !! t) <? 1 then 1 else default 0 (reserved !! t)).
  assert (1 ≤ sz ∧ cursor + sz ≤ MaxInt32) as [Hsz Hfits].
  { subst sz. destruct (reserved !! t) as [n|] eqn:Hn; cbn.
    - apply Hfit in Hn. destruct (Z.ltb_spec n 1); lia.
    - destruct (Z.ltb_spec 0 1); lia. }
  intros H Hc He. clearbody sz.
  set (sz' := if cap <? int32 (cursor + sz) then int32 (cap - cursor) else sz) in H.
  assert (1 ≤ sz' ∧ cursor + sz' ≤ cap) as [Hsz' Hcap'].
  { subst sz'. rewrite !int32_id by (unfold_ints; lia).
    destruct (Z.ltb_spec cap (cursor + sz)); lia. }
  clearbody sz'. rewrite int32_id in H by (unfold_ints; lia).
  apply IH in H as [HE HC]; [split; [done|lia]|lia|]. apply exclusive_insert; [done|lia..].
Qed.

(** The table's invariant: explicit ranges below the pool, pool ranges below
    poolNext, everything within the topic, at least one pool partition. *)
Definition table_wf (table : reservationTable) : Prop :=
  totalPartitions table < MaxInt32 ∧ 1 ≤ defaultSize table ∧
  0 ≤ poolStart table ∧ 1 ≤ poolSize table ∧
  poolStart table + poolSize table = totalPartitions table ∧
  poolStart table ≤ poolNext table ≤ totalPartitions table ∧
  exclusive 0 (poolStart table) (explicit table) ∧
  exclusive (poolStart table) (poolNext table) (pool table).

Lemma newReservationTable_wf order reserved dsize total :
  1 < total < MaxInt32 → counts_fit reserved total →
  table_wf (newReservationTable order reserved dsize total).
Proof.
  intros Ht Hfit. unfold newReservationTable.
  destruct (Z.ltb_spec total 1); [lia|]. destruct (Z.ltb_spec 1 total); [|lia].
  destruct (reserve _ _ _ _ _ _) as [[[ranges cursor] dropped] obs] eqn:Hr.
  apply (reserve_exclusive _ total) in Hr as [HE HC]; [|lia|done|lia|apply exclusive_empty].
  unfold table_wf. cbn. rewrite int32_id by (unfold_ints; lia).
  split_and!; try lia; [|done|apply exclusive_empty].
  unfold DefaultPartitionsPerTenant. destruct (Z.ltb_spec dsize 1); lia.
Qed.

Lemma hashLoop_range h data : in_uint32 h → in_uint32 (hashLoop h data).
Proof. revert h. induction data as [|b data IH]; intros h Hh; cbn; [done|]. apply IH, uint32_range. Qed.

Lemma hashBytes_range data : in_uint32 (hashBytes data).
Proof. apply hashLoop_range. unfold_ints; unfold offset32; lia. Qed.

Lemma modSize_range hash sz : in_uint32 hash → 1 ≤ sz ≤ MaxInt32 →
  ∃ offset, modSize hash sz = Some offset ∧ 0 ≤ offset < sz.
Proof.
  intros Hh Hs. unfold modSize. rewrite uint32_id by (unfold_ints; lia).
  destruct (Z.eqb_spec sz 0); [lia|]. eexists. split; [done|].
  pose proof (Z.mod_pos_bound hash sz). rewrite int32_id by (unfold_ints; lia). lia.
Qed.

(** The range a tenant has in a table, if it has one of its own. *)
Definition rangeOf (table : reservationTable) (tenantID : string) : option partitionRange :=
  match explicit table !! tenantID with
  | Some rng => Some rng
  | None => pool table !! tenantID
  end.

Definition exhausted (table : reservationTable) : Prop := poolNext table = totalPartitions table.

Lemma poolRangeFor_spec t table : table_wf table → explicit table !! t = None →
  ∃ rng table', poolRangeFor t table = (Some rng, table') ∧ table_wf table' ∧
    totalPartitions table' = totalPartitions table ∧ poolStart table' = poolStart table ∧
    explicit table' = explicit table ∧
    (∀ t' r, pool table !! t' = Some r → pool table' !! t' = Some r) ∧
    1 ≤ size rng ∧ poolStart table ≤ start rng ∧ start rng + size rng ≤ totalPartitions table ∧
    (pool table' !! t = Some rng ∨
     pool table !! t = None ∧ exhausted table ∧ table' = table).
Proof.
  intros (Ht & Hd & Hs & Hz & Hsum & Hn & HE & HP) Hex. unfold poolRangeFor.
  destruct (pool table !! t) as [rng|] eqn:Hp.
  { exists rng, table. destruct HP as [HP1 HP2]. pose proof (HP1 _ _ Hp) as Hr. cbn in Hr.
    split_and!; try done; try lia. by left. }
  rewrite Hsum, (int32_id (totalPartitions table)), int32_id by (unfold_ints; lia).
  set (sz := if _ <? _ then _ else _).
  assert (sz ≤ totalPartitions table - poolNext table ∧
    (sz ≤ 0 → poolNext table = totalPartitions table)) as [Hsz Hsz0].
  { subst sz. destruct (Z.ltb_spec (totalPartitions table - poolNext table) (defaultSize table)); lia. }
  clearbody sz. destruct (Z.leb_spec sz 0) as [Hle|Hgt].
  - destruct (modSize_range (hashBytes t) (poolSize table)) as (o & -> & Ho);
      [apply hashBytes_range|unfold_ints; lia|]. cbn. rewrite int32_id by (unfold_ints; lia).
    eexists _, table. split; [done|]. cbn. split_and!; try done; try lia.
    right. split_and!; [done| |done]. unfold exhausted. lia.
  - eexists _, _. split; [done|]. cbn. rewrite int32_id by (unfold_ints; lia).
    assert (exclusive (poolStart table) (poolNext table + sz)
      (<[t := {| start := poolNext table; size := sz |}]> (pool table))) as HP'
      by (apply exclusive_insert; [done|lia..]).
    split_and!; try done; cbn; try lia; [|..].
    + unfold table_wf. cbn. split_and!; done || lia.
    + intros t' r Hr. rewrite lookup_insert_ne; [done|]. congruence.
    + left. apply lookup_insert_eq.
Qed.

(** ** The theorems *)

Lemma partitionFor_spec t i table : table_wf table →
  ∃ rng p table', partitionFor t i table = (Some p, table') ∧ table_wf table' ∧
    totalPartitions table' = totalPartitions table ∧ poolStart table' = poolStart table ∧
    explicit table' = explicit table ∧
    (∀ t' r, rangeOf table t' = Some r → rangeOf table' t' = Some r) ∧
    start rng ≤ p < start rng + size rng ∧ 0 ≤ start rng ∧ start rng + size rng ≤ totalPartitions table ∧
    (explicit table !! t = None → poolStart table ≤ p) ∧
    (∃ offset, modSize (hashBytes i) (size rng) = Some offset ∧ p = int32 (start rng + offset)) ∧
    (rangeOf table' t = Some rng ∨ rangeOf table t = None ∧ exhausted table ∧ table' = table).
Proof.
  intros Hwf. pose proof Hwf as (Ht & Hd & Hs & Hz & Hsum & Hn & HE & HP).
  assert (∀ rng : partitionRange, 0 ≤ start rng → 1 ≤ size rng → start rng + size rng ≤ totalPartitions table →
    ∃ offset, modSize (hashBytes i) (size rng) = Some offset ∧ int32 (start rng + offset) = start rng + offset ∧
      start rng ≤ start rng + offset < start rng + size rng) as Hmod.
  { intros rng H0 H1 H2. destruct (modSize_range (hashBytes i) (size rng)) as (o & Ho & ?);
      [apply hashBytes_range|lia|]. exists o. rewrite int32_id by (unfold_ints; lia). split; [done|lia]. }
  unfold partitionFor, rangeOf. destruct (explicit table !! t) as [rng|] eqn:Hex.
  - pose proof (exclusive_within _ _ _ HE _ _ Hex) as Hr. cbn in Hr.
    destruct (Hmod rng) as (o & Ho & Hi & ?); [lia..|]. exists rng, (int32 (start rng + o)), table.
    cbn. rewrite Ho, Hi. cbn. rewrite Hi. split_and!; try done; try lia; [eauto|]. left. by rewrite Hex.
  - destruct (poolRangeFor_spec t table Hwf Hex)
      as (rng & table' & -> & Hwf' & Htot & Hps & Hexp & Hkeep & H1 & H2 & H3 & Hlast).
    destruct (Hmod rng) as (o & Ho & Hi & ?); [lia..|]. exists rng, (int32 (start rng + o)), table'.
    cbn. rewrite Ho, Hi. cbn. rewrite Hi, Hexp, Hex.
    split; [done|]. split; [done|]. split_and!; try done; try lia.
    + intros t' r. destruct (explicit table !! t'); [done|]. apply Hkeep.
    + eauto.
Qed.

(** Any calls since a table was built. *)
Fixpoint partitionAll (calls : list (string * string)) (table : reservationTable) : reservationTable :=
  match calls with
  | [] => table
  | (t, i) :: calls => partitionAll calls (partitionFor t i table).2
  end.

Lemma partitionFor_own t i table rng : rangeOf table t = Some rng →
  partitionFor t i table =
    (offset ← modSize (hashBytes i) (size rng); Some (int32 (start rng + offset)), table).
Proof.
  unfold rangeOf, partitionFor, poolRangeFor. destruct (explicit table !! t); [by intros [= ->]|].
  by intros ->.
Qed.

Lemma partitionFor_exhausted t i table : table_wf table → exhausted table → (partitionFor t i table).2 = table.
Proof.
  intros Hwf Hx. destruct (rangeOf table t) as [rng|] eqn:Hr; [by rewrite (partitionFor_own _ _ _ _ Hr)|].
  unfold partitionFor. unfold rangeOf in Hr. destruct (explicit table !! t); [done|].
  unfold poolRangeFor. rewrite Hr. unfold exhausted in Hx.
  destruct Hwf as (Ht & Hd & Hs & Hz & Hsum & Hn & _).
  rewrite Hsum, Hx, (int32_id (totalPartitions table)), Z.sub_diag by (unfold_ints; lia).
  change (int32 0) with 0. by destruct (Z.ltb_spec 0 (defaultSize table)); [|lia].
Qed.

Lemma partitionAll_exhausted calls table : table_wf table → exhausted table → partitionAll calls table = table.
Proof.
  intros Hwf Hx. induction calls as [|[t i] calls IH]; cbn; [done|]. by rewrite partitionFor_exhausted.
Qed.

(** What a table keeps over any calls. *)
Lemma partitionAll_keeps calls table : table_wf table →
  let table' := partitionAll calls table in
  table_wf table' ∧ totalPartitions table' = totalPartitions table ∧ poolStart table' = poolStart table ∧
  explicit table' = explicit table ∧ (∀ t r, rangeOf table t = Some r → rangeOf table' t = Some r).
Proof.
  revert table. induction calls as [|[t i] calls IH]; intros table Hwf; cbn [partitionAll]; [by auto|].
  destruct (partitionFor_spec t i table Hwf)
    as (rng & p & table1 & E & Hwf1 & Ht1 & Hp1 & He1 & Hk1 & _).
  rewrite E. destruct (IH table1 Hwf1) as (H1 & H2 & H3 & H4 & H5). cbn.
  split; [done|]. split_and!; [congruence..|auto].
Qed.

(** Different tenants' own ranges are separate, explicit or pooled. *)
Lemma isolated_ranges table t1 t2 r1 r2 : table_wf table → t1 ≠ t2 →
  rangeOf table t1 = Some r1 → rangeOf table t2 = Some r2 → separate r1 r2.
Proof.
  intros (_ & _ & _ & _ & _ & _ & HE & HP) Hne. unfold rangeOf.
  destruct (explicit table !! t1) as [x1|] eqn:H1, (explicit table !! t2) as [x2|] eqn:H2.
  - intros [= ->] [= ->]. by eapply (exclusive_separate _ _ _ HE t1 t2).
  - intros [= ->] H. apply (exclusive_within _ _ _ HE) in H1. apply (exclusive_within _ _ _ HP) in H.
    unfold separate. cbn in *. lia.
  - intros H [= ->]. apply (exclusive_within _ _ _ HE) in H2. apply (exclusive_within _ _ _ HP) in H.
    unfold separate. cbn in *. lia.
  - intros Ha Hb. by eapply (exclusive_separate _ _ _ HP t1 t2).
Qed.

(** Where a call puts its record: inside the tenant's own range, or, for a tenant
    left without one, in the pool. *)
Lemma partitionFor_placed t i table p table' : table_wf table →
  partitionFor t i table = (Some p, table') →
  table_wf table' ∧ poolStart table' = poolStart table ∧ explicit table' = explicit table ∧
  (∀ t' r, rangeOf table t' = Some r → rangeOf table' t' = Some r) ∧
  ((∃ rng, rangeOf table' t = Some rng ∧ start rng ≤ p < start rng + size rng) ∨
   rangeOf table' t = None ∧ poolStart table' ≤ p).
Proof.
  intros Hwf E. destruct (partitionFor_spec t i table Hwf)
    as (rng & p' & t' & E' & Hwf' & _ & Hps & Hex & Hk & Hp & _ & _ & Hpool & _ & Hl).
  rewrite E in E'. injection E' as <- <-. split; [done|]. split_and!; [done..|].
  destruct Hl as [Hown|(Hn & _ & ->)]; [by eauto|]. right. split; [done|]. apply Hpool.
  unfold rangeOf in Hn. by destruct (explicit table !! t).
Qed.

Section table.
Context (order : list string) (reserved : gmap string Z) (dsize total : Z).
Hypothesis Htotal : 1 < total < MaxInt32.
Hypothesis Hcounts : counts_fit reserved total.
Let table0 := newReservationTable order reserved dsize total.

Lemma table0_wf : table_wf table0.
Proof. by apply newReservationTable_wf. Qed.

Lemma table0_total : totalPartitions table0 = total.
Proof.
  subst table0. unfold newReservationTable. destruct (reserve _ _ _ _ _ _) as [[[? ?] ?] ?]. cbn.
  destruct (Z.ltb_spec total 1); lia.
Qed.

(** Every record gets a partition of the topic: over any history of calls on
    a table for at least two partitions, partitionFor never panics and returns an
    index in [0, total). *)
Theorem partitionFor_in_topic calls t i :
  ∃ p, (partitionFor t i (partitionAll calls table0)).1 = Some p ∧ 0 ≤ p < total.
Proof.
  destruct (partitionAll_keeps calls table0 table0_wf) as (Hwf & Htot & _).
  destruct (partitionFor_spec t i _ Hwf) as (rng & p & table' & E & _ & _ & _ & _ & _ & Hp & H0 & H1 & _).
  exists p. rewrite E. split; [done|]. rewrite Htot, table0_total in H1. lia.
Qed.

(** Stickiness: once a (tenant, instrument) has been given a partition, every
    later record of it goes to the same partition, whatever other tenants do in
    between, for reserved, pooled and pool-exhausted tenants alike. *)
Theorem partitionFor_sticky calls t i p table1 calls' :
  partitionFor t i (partitionAll calls table0) = (Some p, table1) →
  (partitionFor t i (partitionAll calls' table1)).1 = Some p.
Proof.
  intros E. destruct (partitionAll_keeps calls table0 table0_wf) as (Hwf & _).
  destruct (partitionFor_spec t i _ Hwf)
    as (rng & p' & table' & E' & Hwf' & _ & _ & _ & _ & _ & _ & _ & _ & (o & Ho & Hp) & Hlast).
  rewrite E in E'. injection E' as <- <-. destruct Hlast as [Hown|(_ & Hx & ->)].
  - destruct (partitionAll_keeps calls' table1 Hwf') as (_ & _ & _ & _ & Hk).
    rewrite (partitionFor_own _ _ _ rng) by (by apply Hk). cbn. rewrite Ho. cbn. by rewrite Hp.
  - rewrite partitionAll_exhausted by done. by rewrite E.
Qed.

Lemma isolated_partitions calls t1 i1 p1 table1 calls' t2 i2 p2 table2 :
  partitionFor t1 i1 (partitionAll calls table0) = (Some p1, table1) →
  partitionFor t2 i2 (partitionAll calls' table1) = (Some p2, table2) →
  t1 ≠ t2 →
  is_Some (explicit table0 !! t1) ∨ is_Some (explicit table0 !! t2) ∨
    is_Some (rangeOf table1 t1) ∧ is_Some (rangeOf table2 t2) →
  p1 ≠ p2.
Proof.
  intros E1 E2 Hne Hown. destruct (partitionAll_keeps calls table0 table0_wf) as (Hwf & _ & Hps & Hex & _).
  destruct (partitionFor_placed t1 i1 _ p1 table1 Hwf E1) as (Hwf1 & Hps1 & Hex1 & _ & Hl1).
  destruct (partitionAll_keeps calls' table1 Hwf1) as (Hwf1b & _ & Hps1b & Hex1b & Hk1b).
  destruct (partitionFor_placed t2 i2 _ p2 table2 Hwf1b E2) as (Hwf2 & Hps2 & Hex2 & Hk2 & Hl2).
  assert (∀ t r, explicit table0 !! t = Some r → rangeOf table2 t = Some r ∧ start r + size r ≤ poolStart table2)
    as Hexp.
  { intros t r H. rewrite <-Hex, <-Hex1, <-Hex1b, <-Hex2 in H. split; [by unfold rangeOf; rewrite H|].
    destruct Hwf2 as (_ & _ & _ & _ & _ & _ & HE & _). apply (exclusive_within _ _ _ HE) in H. cbn in H. lia. }
  destruct Hl1 as [(r1 & Hr1 & Hp1)|[Hn1 Hp1]], Hl2 as [(r2 & Hr2 & Hp2)|[Hn2 Hp2]].
  - assert (rangeOf table2 t1 = Some r1) as Hr1' by auto.
    destruct (isolated_ranges _ _ _ _ _ Hwf2 Hne Hr1' Hr2); lia.
  - assert (rangeOf table2 t1 = Some r1) as Hr1' by auto.
    destruct Hown as [[r H]|[[r H]|[_ [r H]]]]; [|apply Hexp in H as [H _]; congruence|congruence].
    apply Hexp in H as [H ?]. simplify_eq. lia.
  - destruct Hown as [[r H]|[[r H]|[[r H] _]]]; [|apply Hexp in H as [H ?]; simplify_eq; lia|congruence].
    rewrite <-Hex, <-Hex1 in H. unfold rangeOf in Hn1. by rewrite H in Hn1.
  - destruct Hown as [[r H]|[[r H]|[_ [r H]]]]; [|apply Hexp in H as [H _]; congruence|congruence].
    rewrite <-Hex, <-Hex1 in H. unfold rangeOf in Hn1. by rewrite H in Hn1.
Qed.
(** C24. Isolation: two different tenants never share a partition when either has
    an explicit reservation, or when both have a range of their own; only tenants
    that arrive after the pool is exhausted can share, and only pool partitions.  The
    topic has at least two partitions, and the reserved counts can be added to its
    size in int32. *)
Theorem partitionFor_isolated calls t1 i1 p1 table1 calls' t2 i2 p2 table2 :
  partitionFor t1 i1 (partitionAll calls table0) = (Some p1, table1) →
  partitionFor t2 i2 (partitionAll calls' table1) = (Some p2, table2) →
  t1 ≠ t2 →
  is_Some (explicit table0 !! t1) ∨ is_Some (explicit table0 !! t2) ∨
    is_Some (rangeOf table1 t1) ∧ is_Some (rangeOf table2 t2) →
  p1 ≠ p2.
Proof. apply isolated_partitions. Qed.
End table.

(** The table does not depend on Go's map iteration order: any two visits of
    the configuration's keys build the same table. *)
Theorem newReservationTable_deterministic order order' reserved dsize total :
  order ≡ₚ order' →
  newReservationTable order reserved dsize total = newReservationTable order' reserved dsize total.
Proof.
  intros Hp. unfold newReservationTable. replace (merge_sort String.le order') with (merge_sort String.le order).
  - done.
  - apply (Sorted_unique String.le); [apply Sorted_merge_sort, _..|]. by rewrite !merge_sort_Permutation.
Qed.

(** The record key identifies tenant and instrument: splitting the key that
    partitionKey builds gives both back, for tenants without a colon. *)
Theorem splitPartitionKey_partitionKey t i :
  no_byte ":"%char t = true → splitPartitionKey (partitionKey t i) = (t, i).
Proof.
  intros H. unfold splitPartitionKey, partitionKey. rewrite (cut_byte_app _ t ":"%char i); [done| |].
  - exact H.
  - by apply bool_decide_eq_true.
Qed.

(** A single-partition topic with a reservation panics: the reservation takes
    the only partition, the pool is empty, and an unreserved tenant's record
    divides by a zero pool size. *)
Theorem single_partition_panics instrument :
  (partitionFor "other" instrument
     (newReservationTable ["acme"] {[ "acme" := 1 ]} 1 1)).1 = None.
Proof. reflexivity. Qed.

(** A large second reservation escapes the capacity check: cursor + size wraps
    in int32, the range is kept whole, and its partitions lie outside the topic. *)
Theorem reservation_overflow_escapes :
  let table := newReservationTable ["a"; "b"] (<["a" := 1]> {[ "b" := MaxInt32 ]}) 1 8 in
  explicit table !! "b" = Some {| start := 1; size := MaxInt32 |} ∧
  poolStart table = MinInt32 ∧
  ∃ p, (partitionFor "b" "AAPL" table).1 = Some p ∧ 8 ≤ p.
Proof. cbn zeta. split_and!; [vm_compute; reflexivity..|]. eexists. split; [vm_compute; reflexivity|vm_compute; congruence]. Qed.

(** The published start and the partitioner's own start disagree after an
    isolation: a pooled tenant is observed at partition 3, and once its count is
    loaded as a reservation the partitioner moves it to partition 0. *)
Theorem observed_start_moves :
  let before := partitionAll [("a", "X"); ("b", "X"); ("c", "X"); ("acme", "X")]
                  (newReservationTable [] ∅ 1 8) in
  let after := newReservationTable ["acme"] {[ "acme" := 1 ]} 1 8 in
  rangeOf before "acme" = Some {| start := 3; size := 1 |} ∧
  rangeOf after "acme" = Some {| start := 0; size := 1 |}.
Proof. split; vm_compute; reflexivity. Qed.

Lemma reservedCounts_positive entries reserved reserved' :
  reservedCounts entries reserved = Ok reserved' → map_Forall (λ _ n, 1 ≤ n) reserved →
  map_Forall (λ _ n, 1 ≤ n) reserved'.
Proof.
  revert reserved. induction entries as [|[t e] entries IH]; intros reserved; cbn; [by intros [= <-]|].
  destruct (Z.ltb_spec (Count e) 1); [done|]. intros H' Hr. apply (IH _ H').
  by apply map_Forall_insert_2.
Qed.

(** A reload never takes a reservation away: a source that fails, or that holds a
    count below one, leaves the shared state in force and counts an error; a
    source that loads swaps in positive counts under a fresh version. *)
Theorem reloadOnce_keeps_reservations ReadFile ranged Path dsize shared errors :
  let loaded := FileTenantPartitionSource_Load ReadFile ranged Path in
  let '(shared', errors') := reloadOnce loaded dsize shared errors in
  match loaded with
  | Err _ => shared' = shared ∧ errors' = errors + 1
  | Ok reserved => version shared' ≠ version shared ∧ stReserved shared' = reserved ∧
                   map_Forall (λ _ n, 1 ≤ n) (stReserved shared') ∧ errors' = errors
  end.
Proof.
  cbn zeta. destruct (FileTenantPartitionSource_Load _ _ _) as [reserved|e] eqn:E; cbn; [|done].
  split_and!; [lia|done| |done]. apply result_bind_Ok in E as (raw & _ & E).
  apply result_bind_Ok in E as (entries & _ & E). eapply reservedCounts_positive; [exact E|].
  apply map_Forall_empty.
Qed.

(** ** Witnesses *)
Definition sampleReserved : gmap string Z := <["a" := 2]> {[ "b" := 3 ]}.

Lemma sampleReserved_fits : counts_fit sampleReserved 8.
Proof.
  intros t n H. unfold sampleReserved in H. apply lookup_insert_Some in H as [[_ <-]|[_ H]]; [unfold_ints; lia|].
  apply lookup_singleton_Some in H as [_ <-]. unfold_ints; lia.
Qed.

Lemma partitionFor_in_topic_witness : ∃ p,
  (partitionFor "c" "AAPL" (partitionAll [("a", "X"); ("d", "X"); ("e", "X"); ("f", "X")]
     (newReservationTable ["b"; "a"] sampleReserved 1 8))).1 = Some p ∧ 0 ≤ p < 8.
Proof. apply partitionFor_in_topic; [unfold_ints; lia|exact sampleReserved_fits]. Defined.

Lemma partitionFor_sticky_witness : ∃ table1,
  partitionFor "c" "AAPL" (newReservationTable ["b"; "a"] sampleReserved 1 8) = (Some 5, table1) ∧
  (partitionFor "c" "AAPL" (partitionAll [("d", "X"); ("e", "X"); ("f", "X")] table1)).1 = Some 5.
Proof.
  eexists. split; [vm_compute; reflexivity|].
  apply (partitionFor_sticky ["b"; "a"] sampleReserved 1 8 ltac:(unfold_ints; lia) sampleReserved_fits []).
  vm_compute. reflexivity.
Defined.

Lemma partitionFor_isolated_witness : ∃ table1 table2,
  partitionFor "a" "AAPL" (newReservationTable ["b"; "a"] sampleReserved 1 8) = (Some 1, table1) ∧
  partitionFor "z" "AAPL" (partitionAll [("c", "X"); ("d", "X"); ("e", "X")] table1) = (Some 6, table2) ∧
  1 ≠ 6.
Proof.
  eexists _, _. split; [vm_compute; reflexivity|]. split; [vm_compute; reflexivity|].
  refine (partitionFor_isolated ["b"; "a"] sampleReserved 1 8 ltac:(unfold_ints; lia) sampleReserved_fits
    [] "a" "AAPL" 1 _ [("c", "X"); ("d", "X"); ("e", "X")] "z" "AAPL" 6 _ _ _ _ _).
  - vm_compute. reflexivity.
  - vm_compute. reflexivity.
  - congruence.
  - left. vm_compute. eexists. reflexivity.
Defined.

Lemma newReservationTable_deterministic_witness :
  newReservationTable ["b"; "a"] sampleReserved 1 8 = newReservationTable ["a"; "b"] sampleReserved 1 8.
Proof. apply newReservationTable_deterministic. apply Permutation_swap. Defined.

Lemma splitPartitionKey_partitionKey_witness : splitPartitionKey "acme:BRK.B" = ("acme", "BRK.B").
Proof. exact (splitPartitionKey_partitionKey "acme" "BRK.B" eq_refl). Defined.
