(* ===== verification/IngestionReload.v ===== *)
(** * The publisher under hot reload
    (internal/ingestion/kafka/reload.go Run, publisher.go Close)

    The reload loop of the ingestion service next to the calls the Kafka client
    makes on its partitioner and the caller of Publisher.Close: reloads swap the
    reservations between, and never during, two placements.  The theorem is about
    every record ever placed, across all reloads. *)
From S2P Require Import Prelude GoStrings Partitioner.

(** A record the client asked a partition for: the reservations in force (their
    identity and the counts they were loaded with), whether its tenant has an explicit range there, and where it went (None: a panic). *)
Record placement := {
  plVersion : nat;
  plCounts : TenantPartitionConfig;
  plTenant : string;
  plInstrument : string;
  plReserved : bool;
  plPartition : option Z
}.

Inductive loop_pc := Selecting | Loading | Exited.   (* the select; inside reloadOnce; returned *)
Inductive close_pc := Open | Waiting | Releasing | Closed.  (* before Close; reloadDone.Wait(); client.Close(); after *)

Record state := {
  loop : loop_pc;
  tick : bool;                           (* the ticker's channel holds one *)
  stopped : bool;                        (* reloadCtx is done *)
  shared : tenantPartitionerState;
  reloadErrors : Z;
  part : tenantTopicPartitioner;
  placed : list placement;               (* oldest first *)
  closer : close_pc
}.

(** Whether the table the partitioner holds has an explicit range for a tenant. *)
Definition explicitly (part : tenantTopicPartitioner) (tenantID : string) : bool :=
  match built part with
  | Some (_, table) => bool_decide (is_Some (explicit table !! tenantID))
  | None => false
  end.

Section reloads.
Context (total dsize : Z).

Definition start (reserved : TenantPartitionConfig) : state :=
  {| loop := Selecting; tick := false; stopped := false; shared := newTenantPartitioner reserved dsize;
     reloadErrors := 0; part := ForTopic; placed := []; closer := Open |}.

(** [own] steps need neither the clock, nor the client, nor a caller of Close. *)
Inductive step : bool → state → state → Prop :=
  | clock l s sh e p pl c :
      step false (Build_state l false s sh e p pl c) (Build_state l true s sh e p pl c)
  | select_tick s sh e p pl c :
      step true (Build_state Selecting true s sh e p pl c) (Build_state Loading false s sh e p pl c)
  | reload_ends loaded t s sh e p pl c sh' e' :
      reloadOnce loaded dsize sh e = (sh', e') →
      step true (Build_state Loading t s sh e p pl c) (Build_state Selecting t s sh' e' p pl c)
  | select_done t sh e p pl c :
      step true (Build_state Selecting t true sh e p pl c) (Build_state Exited t true sh e p pl c)
  | place key order l t s sh e p pl c r p' :
      c ≠ Closed → order ≡ₚ (map_to_list (stReserved sh)).*1 →
      Partition order sh key total p = (r, p') →
      step false (Build_state l t s sh e p pl c)
        (Build_state l t s sh e p'
          (pl ++ [{| plVersion := version sh; plCounts := stReserved sh; plTenant := (splitPartitionKey key).1;
                     plInstrument := (splitPartitionKey key).2;
                     plReserved := explicitly p' (splitPartitionKey key).1; plPartition := r |}]) c)
  | close_begins l t s sh e p pl :
      step false (Build_state l t s sh e p pl Open) (Build_state l t true sh e p pl Waiting)
  | close_waited t s sh e p pl :
      step true (Build_state Exited t s sh e p pl Waiting) (Build_state Exited t s sh e p pl Releasing)
  | close_ends l t s sh e p pl :
      step true (Build_state l t s sh e p pl Releasing) (Build_state l t s sh e p pl Closed).

Definition any_step (s s' : state) : Prop := ∃ own, step own s s'.
Definition reachable (reserved : TenantPartitionConfig) : state → Prop := rtc any_step (start reserved).

Hypothesis Htotal : 1 < total < MaxInt32.

(** ** The placements under one version are a run of one table *)
Fixpoint placements (table : reservationTable) (es : list placement) (table' : reservationTable) : Prop :=
  match es with
  | [] => table' = table
  | e :: es => ∃ table1, partitionFor (plTenant e) (plInstrument e) table = (plPartition e, table1) ∧
      plReserved e = bool_decide (is_Some (explicit table1 !! plTenant e)) ∧ placements table1 es table'
  end.

Definition call_of (e : placement) : string * string := (plTenant e, plInstrument e).

Lemma placements_app table es es' table' :
  placements table (es ++ es') table' ↔ ∃ table1, placements table es table1 ∧ placements table1 es' table'.
Proof.
  revert table. induction es as [|e es IH]; intros table; cbn; [naive_solver|].
  setoid_rewrite IH. naive_solver.
Qed.

Lemma placements_all table es table' : placements table es table' → table' = partitionAll (call_of <$> es) table.
Proof.
  revert table. induction es as [|e es IH]; intros table; cbn; [done|].
  intros (table1 & E & _ & H). rewrite E. by apply IH.
Qed.

Lemma partitionFor_total t i table r table1 : partitionFor t i table = (r, table1) →
  totalPartitions table1 = totalPartitions table.
Proof. unfold partitionFor, poolRangeFor. repeat case_match; intros [= _ <-]; simplify_eq; done. Qed.

Lemma newReservationTable_total order reserved size : totalPartitions (newReservationTable order reserved size total) = total.
Proof.
  unfold newReservationTable. destruct (reserve _ _ _ _ _ _) as [[[? ?] ?] ?]. cbn. destruct (Z.ltb_spec total 1); lia.
Qed.

Lemma placements_total table es table' : placements table es table' → totalPartitions table' = totalPartitions table.
Proof.
  revert table. induction es as [|e es IH]; intros table; cbn; [by intros ->|].
  intros (table1 & E & _ & H). apply partitionFor_total in E as <-. by apply IH.
Qed.

(** [table] is where the reservations of version [v] are after its placements. *)
Definition epoch (pl : list placement) (v : nat) (reserved : TenantPartitionConfig) (table : reservationTable) : Prop :=
  Forall (λ e, plVersion e = v → plCounts e = reserved) pl ∧
  ∃ order size, placements (newReservationTable order reserved size total) (base.filter (λ e, plVersion e = v) pl) table.

Lemma epoch_total pl v reserved table : epoch pl v reserved table → totalPartitions table = total.
Proof. intros (_ & order & size & ->%placements_total). apply newReservationTable_total. Qed.

Lemma epoch_other pl v reserved table e : plVersion e ≠ v → epoch pl v reserved table → epoch (pl ++ [e]) v reserved table.
Proof.
  intros Hne (Hc & order & size & H). split; [apply Forall_app; by repeat constructor|]. exists order, size.
  rewrite filter_app, filter_cons_False, filter_nil, List.app_nil_r; done.
Qed.

Lemma epoch_snoc pl table e table1 : epoch pl (plVersion e) (plCounts e) table →
  partitionFor (plTenant e) (plInstrument e) table = (plPartition e, table1) →
  plReserved e = bool_decide (is_Some (explicit table1 !! plTenant e)) →
  epoch (pl ++ [e]) (plVersion e) (plCounts e) table1.
Proof.
  intros (Hc & order & size & H) E He. split; [apply Forall_app; by repeat constructor|]. exists order, size.
  rewrite filter_app, filter_cons_True, filter_nil by done. apply placements_app. exists table.
  split; [done|]. cbn. eauto.
Qed.

Lemma epoch_fresh pl v order reserved size :
  Forall (λ e, plVersion e ≠ v) pl → epoch pl v reserved (newReservationTable order reserved size total).
Proof.
  intros Hno. split; [eapply Forall_impl; [exact Hno|]; done|]. exists order, size.
  assert (base.filter (λ e, plVersion e = v) pl = []) as ->; [|done].
  induction Hno as [|e pl He _ IH]; [done|]. by rewrite filter_cons_False.
Qed.

Record inv (s : state) : Prop := {
  inv_epochs : ∀ v, ∃ reserved table, epoch (placed s) v reserved table;
  inv_built : match built (part s) with
              | Some (v, table) => (v ≤ version (shared s))%nat ∧
                  (∃ reserved, epoch (placed s) v reserved table ∧
                     (v = version (shared s) → reserved = stReserved (shared s))) ∧
                  Forall (λ e, (plVersion e ≤ v)%nat) (placed s)
              | None => placed s = []
              end;
  inv_closer : match closer s with
               | Open => True
               | Waiting => stopped s = true
               | Releasing | Closed => loop s = Exited
               end
}.

(** The table a placement works on, rebuilt or not, is where its version is. *)
Lemma Partition_epoch order key s r p' : inv s →
  Partition order (shared s) key total (part s) = (r, p') →
  ∃ table table1, epoch (placed s) (version (shared s)) (stReserved (shared s)) table ∧
    partitionFor (splitPartitionKey key).1 (splitPartitionKey key).2 table = (r, table1) ∧
    built p' = Some (version (shared s), table1).
Proof.
  intros [_ Hb _]. unfold Partition. rewrite int32_id by (unfold_ints; lia).
  destruct (splitPartitionKey key) as [t i]. cbn [fst snd].
  assert (∀ order, Forall (λ e, plVersion e ≠ version (shared s)) (placed s) →
    epoch (placed s) (version (shared s)) (stReserved (shared s)) (newReservationTable order (stReserved (shared s)) (stDefaultSize (shared s)) total))
    as Hnew by (intros; by apply epoch_fresh).
  destruct (built (part s)) as [[v table]|].
  - destruct Hb as (Hv & (rs & He & Hrs) & Hle). destruct (Nat.eqb_spec v (version (shared s))) as [->|Hne]; cbn [andb].
    + rewrite (Hrs eq_refl) in He. rewrite (epoch_total _ _ _ _ He), Z.eqb_refl. cbv iota beta.
      destruct (partitionFor t i table) as [q table1] eqn:E. intros [= <- <-]. cbn. eauto 6.
    + cbv iota beta zeta. destruct (partitionFor t i _) as [q table1] eqn:E. intros [= <- <-].
      eexists _, table1. split; [apply (Hnew order)|by split]. eapply Forall_impl; [exact Hle|]. cbn. lia.
  - cbv zeta iota beta. destruct (partitionFor t i _) as [q table1] eqn:E. intros [= <- <-].
    eexists _, table1. split; [apply (Hnew order)|by split]. by rewrite Hb.
Qed.

Lemma place_inv order key l t s sh e p pl c r p' :
  inv (Build_state l t s sh e p pl c) → Partition order sh key total p = (r, p') →
  inv (Build_state l t s sh e p'
    (pl ++ [{| plVersion := version sh; plCounts := stReserved sh; plTenant := (splitPartitionKey key).1;
               plInstrument := (splitPartitionKey key).2;
               plReserved := explicitly p' (splitPartitionKey key).1; plPartition := r |}]) c).
Proof.
  intros Hi E. destruct (Partition_epoch order key _ r p' Hi E) as (table & table1 & He & Ef & Eb). cbn in He.
  destruct Hi as [Hes Hb Hc]. cbn in *. unfold explicitly. rewrite Eb. set (new := Build_placement _ _ _ _ _ _).
  assert (epoch (pl ++ [new]) (version sh) (stReserved sh) table1) as Hnew by by apply (epoch_snoc pl table new).
  split; cbn; [| |done].
  - intros v. destruct (decide (v = version sh)) as [->|Hne]; [by eexists _, table1|].
    destruct (Hes v) as (rs & tv & Hv). exists rs, tv. by apply epoch_other.
  - rewrite Eb. split; [done|]. split; [by eexists|]. apply Forall_app. split; [|by repeat constructor].
    destruct (built p) as [[v tb]|]; [|by rewrite Hb].
    destruct Hb as (Hv & _ & Hle). eapply Forall_impl; [exact Hle|]. cbn. lia.
Qed.

Lemma reload_inv loaded l l' t s sh e p pl c sh' e' : l ≠ Exited →
  inv (Build_state l t s sh e p pl c) → reloadOnce loaded dsize sh e = (sh', e') →
  inv (Build_state l' t s sh' e' p pl c).
Proof.
  intros Hl [Hes Hb Hc] E. cbn in *. destruct loaded as [reserved|err]; injection E as <- <-; cbn in *.
  - split; cbn; [done| |by destruct c].
    destruct (built p) as [[v tb]|]; [|done]. destruct Hb as (? & (rs & He & _) & ?). split; [lia|]. split; [|done].
    exists rs. split; [done|lia].
  - split; cbn; [done|done|]. by destruct c.
Qed.

Lemma placement_step_inv own s s' : step own s s' → inv s → inv s'.
Proof.
  destruct 1; intros Hi.
  - by destruct Hi; split.
  - destruct Hi as [? ? Hc]. split; cbn in *; [done..|]. by destruct c.
  - eapply reload_inv; [|eassumption..]. done.
  - destruct Hi as [? ? Hc]. split; cbn in *; [done..|]. by destruct c.
  - by eapply place_inv.
  - destruct Hi as [? ? Hc]. by split.
  - destruct Hi as [? ? Hc]. by split.
  - destruct Hi as [? ? Hc]. by split.
Qed.

Lemma placement_reachable_inv reserved s : reachable reserved s → inv s.
Proof.
  intros Hr. assert (inv (start reserved)) as H0.
  { split; cbn; [|done|done]. intros v. eexists _, _. by apply (epoch_fresh _ _ [] reserved dsize). }
  revert H0. induction Hr as [|s1 s2 s3 [own Hs] _ IH]; [done|]. intros Hi. apply IH. by eapply placement_step_inv.
Qed.

(** ** Placements under reservations that fit *)
Lemma epoch_pair before e1 between e2 after :
  (∃ reserved table, epoch (before ++ e1 :: between ++ e2 :: after) (plVersion e1) reserved table) →
  plVersion e1 = plVersion e2 → counts_fit (plCounts e1) total →
  ∃ order size calls calls' table1 table2,
    let table0 := newReservationTable order (plCounts e1) size total in
    partitionFor (plTenant e1) (plInstrument e1) (partitionAll calls table0) = (plPartition e1, table1) ∧
    partitionFor (plTenant e2) (plInstrument e2) (partitionAll calls' table1) = (plPartition e2, table2) ∧
    plReserved e1 = bool_decide (is_Some (explicit table0 !! plTenant e1)) ∧
    plReserved e2 = bool_decide (is_Some (explicit table0 !! plTenant e2)).
Proof.
  intros (reserved & table & Hcs & order & size & H) Hv Hc.
  assert (reserved = plCounts e1) as -> by (apply Forall_app in Hcs as [_ [He _]%Forall_cons]; by rewrite He).
  set (table0 := newReservationTable _ _ _ _) in H.
  rewrite filter_app, filter_cons_True, filter_app, filter_cons_True in H by done.
  apply placements_app in H as (ta & Ha%placements_all & table1 & E1 & R1 & H).
  apply placements_app in H as (tb & Hb%placements_all & table2 & E2 & R2 & _). subst ta tb.
  exists order, size. eexists _, _, table1, table2. cbv zeta. fold table0.
  split; [exact E1|]. split; [exact E2|].
  assert (table_wf table0) as W0 by by apply newReservationTable_wf.
  destruct (partitionAll_keeps (call_of <$> base.filter (λ e, plVersion e = plVersion e1) before) table0 W0) as (Wa & _ & _ & Xa & _).
  destruct (partitionFor_spec (plTenant e1) (plInstrument e1) _ Wa) as (? & ? & t1 & E1' & W1 & _ & _ & X1 & _).
  rewrite E1 in E1'. injection E1' as _ <-.
  destruct (partitionAll_keeps (call_of <$> base.filter (λ e, plVersion e = plVersion e1) between) table1 W1) as (Wb & _ & _ & Xb & _).
  destruct (partitionFor_spec (plTenant e2) (plInstrument e2) _ Wb) as (? & ? & t2 & E2' & _ & _ & _ & X2 & _).
  rewrite E2 in E2'. injection E2' as _ <-. rewrite R1, R2, X2, Xb, X1, Xa. done.
Qed.

Lemma epoch_one before e after :
  (∃ reserved table, epoch (before ++ e :: after) (plVersion e) reserved table) → counts_fit (plCounts e) total →
  ∃ p, plPartition e = Some p ∧ 0 ≤ p < total.
Proof.
  intros (reserved & table & Hcs & order & size & H) Hc. rewrite filter_app, filter_cons_True in H by done.
  assert (reserved = plCounts e) as -> by (apply Forall_app in Hcs as [_ [He _]%Forall_cons]; by rewrite He).
  apply placements_app in H as (ta & ->%placements_all & table1 & E1 & _).
  destruct (partitionFor_in_topic order (plCounts e) size total Htotal Hc
    (call_of <$> base.filter (λ e', plVersion e' = plVersion e) before) (plTenant e) (plInstrument e)) as (p & E & Hp).
  rewrite E1 in E. cbn in E. eauto.
Qed.

(** What is left to do once Close was called. *)
Definition left (s : state) : nat :=
  match closer s with Open => 0 | Waiting => 3 | Releasing => 1 | Closed => 0 end +
  match loop s with Exited => 0 | Selecting => 1 | Loading => 2 end.

Lemma placement_finishes s : inv s → closer s ≠ Open → ∃ s', rtc (step true) s s' ∧ closer s' = Closed.
Proof.
  remember (left s) as n eqn:Hn. revert s Hn. induction n as [n IH] using lt_wf_ind. intros s -> Hi Hc.
  assert (closer s = Closed ∨ ∃ s1, step true s s1 ∧ (left s1 < left s)%nat ∧ closer s1 ≠ Open) as [?|(s1 & Hs & Hlt & Ho)].
  { destruct Hi as [_ _ Hcl], s as [l t st sh e p pl c]. cbn in *. destruct c; [done| | |by left].
    - subst st. right. destruct l.
      + eexists. split; [apply select_done|]. cbn. split; [lia|done].
      + eexists. split; [by apply (reload_ends (Err (Errorf "")))|]. cbn. split; [lia|done].
      + eexists. split; [apply close_waited|]. cbn. split; [lia|done].
    - right. eexists. split; [apply close_ends|]. cbn. subst l. split; [lia|done]. }
  - exists s. split; [constructor|done].
  - destruct (IH (left s1) Hlt s1 eq_refl) as (s' & Hr & Hf); [by eapply placement_step_inv|done|].
    exists s'. split; [by econstructor|done].
Qed.

(** C25. Placement under hot reload: on a topic of at least two partitions, whatever
    maps the reload loop loads and whenever it swaps the reservations, every record
    placed under reservations whose counts can be added to the topic's size in int32
    got a partition of the topic; of two records placed under the same such
    reservations, those of different tenants are on different partitions as soon as
    one of the tenants has an explicit range, and those of one tenant's instrument
    are on the same partition, other reservations before and after notwithstanding.
    A Close that was called returns, by steps of the two goroutines alone. *)
Theorem placements_isolated reserved s : reachable reserved s →
  Forall (λ e, counts_fit (plCounts e) total → ∃ p, plPartition e = Some p ∧ 0 ≤ p < total) (placed s) ∧
  (∀ before e1 between e2 after, placed s = before ++ e1 :: between ++ e2 :: after →
     plVersion e1 = plVersion e2 → counts_fit (plCounts e1) total →
     (plTenant e1 ≠ plTenant e2 → plReserved e1 || plReserved e2 = true → plPartition e1 ≠ plPartition e2) ∧
     (plTenant e1 = plTenant e2 → plInstrument e1 = plInstrument e2 → plPartition e1 = plPartition e2)) ∧
  (closer s ≠ Open → ∃ s', rtc (step true) s s' ∧ closer s' = Closed).
Proof.
  intros Hr. pose proof (placement_reachable_inv reserved s Hr) as Hi. split; [|split; [|by apply placement_finishes]].
  - apply Forall_forall. intros e (before & after & E)%list_elem_of_split.
    apply (epoch_one before e after). rewrite <-E. apply (inv_epochs s Hi).
  - intros before e1 between e2 after E Hv Hc.
    destruct (epoch_pair before e1 between e2 after) as (order & size & calls & calls' & table1 & table2 & E1 & E2 & R1 & R2);
      [rewrite <-E; apply (inv_epochs s Hi)|done|done|].
    assert (plCounts e2 = plCounts e1) as Hsame.
    { destruct (inv_epochs s Hi (plVersion e1)) as (rs & table & Hcs & _). rewrite E in Hcs.
      rewrite Forall_app, Forall_cons, Forall_app, Forall_cons in Hcs. destruct Hcs as (_ & H1 & _ & H2 & _).
      by rewrite H1, H2. }
    destruct (epoch_one before e1 (between ++ e2 :: after)) as (p1 & P1 & _); [rewrite <-E; apply (inv_epochs s Hi)|done|].
    destruct (epoch_one (before ++ e1 :: between) e2 after) as (p2 & P2 & _);
      [rewrite <-List.app_assoc; cbn [List.app app]; rewrite <-E; apply (inv_epochs s Hi)|by rewrite Hsame|].
    rewrite P1 in E1. rewrite P2 in E2. split.
    + intros Ht Hres. rewrite P1, P2. intros [= Hp]. revert Hp.
      apply (isolated_partitions order (plCounts e1) size total Htotal Hc calls _ _ p1 table1 calls' _ _ p2 table2 E1 E2 Ht).
      rewrite R1, R2 in Hres. apply orb_true_iff in Hres as [H|H]; apply bool_decide_eq_true in H; auto.
    + intros Ht Hin. rewrite P1, P2. rewrite <-Ht, <-Hin in E2.
      pose proof (partitionFor_sticky order (plCounts e1) size total Htotal Hc calls _ _ p1 table1 calls' E1) as Hs.
      rewrite E2 in Hs. by injection Hs as ->.
Qed.
End reloads.

(** ** A run: a record before and two after a reload that reserves two partitions *)
Definition acmeReserved : gmap string Z := {["acme" := 2]}.

Definition place_key (key : string) (s : state) : state :=
  let '(r, p') := Partition (map_to_list (stReserved (shared s))).*1 (shared s) key 8 (part s) in
  {| loop := loop s; tick := tick s; stopped := stopped s; shared := shared s; reloadErrors := reloadErrors s;
     part := p';
     placed := placed s ++ [{| plVersion := version (shared s); plCounts := stReserved (shared s); plTenant := (splitPartitionKey key).1;
                               plInstrument := (splitPartitionKey key).2;
                               plReserved := explicitly p' (splitPartitionKey key).1; plPartition := r |}];
     closer := closer s |}.

Lemma reach_place key s : closer s = Open → reachable 8 1 ∅ s → reachable 8 1 ∅ (place_key key s).
Proof.
  intros Hc Hr. eapply rtc_r; [exact Hr|]. exists false. unfold place_key. destruct s as [l t st sh e p pl c]. cbn in *.
  subst c. destruct (Partition _ sh key 8 p) as [r p'] eqn:E. by eapply place.
Qed.

Definition reloaded (s : state) : state :=
  {| loop := Selecting; tick := false; stopped := stopped s; shared := updateReservations acmeReserved 1 (shared s);
     reloadErrors := reloadErrors s; part := part s; placed := placed s; closer := closer s |}.

Definition sampleRun : state := place_key "zeta:AAPL" (place_key "acme:AAPL" (reloaded (place_key "zeta:AAPL" (start 1 ∅)))).

Lemma reach_reload s : loop s = Selecting → tick s = false → reachable 8 1 ∅ s → reachable 8 1 ∅ (reloaded s).
Proof.
  intros Hl Ht Hr. unfold reloaded. destruct s as [l t st sh e p pl c]. cbn in *. subst l t.
  eapply rtc_r; [eapply rtc_r; [eapply rtc_r; [exact Hr|exists false; apply clock]|exists true; apply select_tick]|].
  exists true. by apply (reload_ends 8 1 (Ok acmeReserved)).
Qed.

Lemma sampleRun_reachable : reachable 8 1 ∅ sampleRun.
Proof.
  unfold sampleRun. apply reach_place; [vm_compute; reflexivity|]. apply reach_place; [vm_compute; reflexivity|].
  apply reach_reload; [vm_compute; reflexivity..|]. apply reach_place; [reflexivity|]. constructor.
Qed.

Lemma acmeReserved_fits : counts_fit acmeReserved 8.
Proof. intros t n H. unfold acmeReserved in H. apply lookup_singleton_Some in H as [_ <-]. unfold_ints; lia. Qed.

Lemma placements_isolated_witness :
  ∃ e0 e1 e2, placed sampleRun = [e0; e1; e2] ∧ plReserved e1 = true ∧ plPartition e1 ≠ plPartition e2 ∧
    ∃ p, plPartition e1 = Some p ∧ 0 ≤ p < 8.
Proof.
  destruct (placements_isolated 8 1 ltac:(unfold_ints; lia) ∅ sampleRun) as (Hall & Hpair & _).
  - exact sampleRun_reachable.
  - do 3 eexists. split; [vm_compute; reflexivity|]. split; [reflexivity|]. split.
    + refine (proj1 (Hpair [_] _ [] _ [] _ _ _) _ _); [vm_compute; reflexivity|reflexivity|exact acmeReserved_fits|discriminate|reflexivity].
    + rewrite Forall_forall in Hall. apply Hall; [|exact acmeReserved_fits]. vm_compute. apply list_elem_of_further, list_elem_of_here.
Defined.
