(* ===== verification/Ingestion.v ===== *)
(** * Publishing (internal/ingestion, internal/ingestion/kafka/publisher.go)

    The Publisher port and the chain cmd/ingestion builds on it: the Kafka
    publisher, the circuit breaker, the backpressure limiter and the metrics
    decorator.  A decorator's world is the wrapped publisher's and its own state.
    The last part is the backpressure limiter under concurrent callers. *)
From S2P Require Import Prelude GoStrings GoUtf8 GoJson GoTime GoCalendar Amount CoreBreaker Ledger Wire KafkaConsumer Partitioner.

Definition CurrentSchemaVersion : Z := 1.

Record Event := {
  eEventID : UUID;
  eTenantID : string;
  eSchemaVersion : Z;
  eInstrument : string;
  eSide : string;
  eQuantity : Z;
  ePrice : Z;
  eCurrency : string;
  eOccurredAt : Time
}.

(** ingestion.Publisher *)
Class Publisher (W : Type) := Publish : Event → W → result unit * W.

(** ** Kafka publisher *)
Section kafka.
Context `{Cdc : !Codec} {K : Type} `{Kcl : !KafkaClient K}.

Definition wireOf (event : Event) : wireEvent :=
  {| wEventID := uuid_String (eEventID event); wTenantID := eTenantID event;
     wSchemaVersion := eSchemaVersion event; wInstrument := eInstrument event; wSide := eSide event;
     wQuantity := FormatAmount (eQuantity event); wPrice := FormatAmount (ePrice event);
     wCurrency := eCurrency event; wOccurredAt := format_RFC3339Nano (eOccurredAt event) |}.

Definition Publisher_Publish (topic : string) (event : Event) (k : K) : result unit * K :=
  match marshal_wire (wireOf event) with
  | Err err => (Err (Wrapf "publish transaction event: marshal payload: %w" err), k)
  | Ok payload =>
      let record := {| rTopic := topic; rPartition := 0; rOffset := 0;
                       rKey := partitionKey (eTenantID event) (eInstrument event); rValue := payload |} in
      let '(r, k) := ProduceSync record k in
      (wrap_err "publish transaction event to kafka topic %q: %w" r, k)
  end.
End kafka.

(** ** Circuit breaker *)
Record Broken (W : Type) := { bNext : W; bMachine : Machine; bReadings : list Z }.
Arguments bNext {W} _.
Arguments bMachine {W} _.
Arguments bReadings {W} _.
Arguments Build_Broken {W} _ _ _.

Definition NewCircuitBreaker {W} (next : option W) (config : Config) (readings : list Z) : result (Broken W) :=
  match next with
  | None => Err (Errorf "new circuit breaker: next Publisher must not be nil")
  | Some w => m ← wrap_err "new circuit breaker: %w" (New config); Ok (Build_Broken w m readings)
  end.

Definition failed {A} (r : result A) : bool := match r with Ok _ => false | Err _ => true end.

Definition CircuitBreaker_Publish {W} `{!Publisher W} (event : Event) (b : Broken W) : result unit * Broken W :=
  let '(allowed, isProbe, m) := Allow (hd 0 (bReadings b)) (bMachine b) in
  if negb allowed then (Err (Sentinel ErrOpen), Build_Broken (bNext b) m (tl (bReadings b)))
  else
    let '(r, w) := Publish event (bNext b) in
    (r, Build_Broken w (RecordOutcome (hd 0 (tl (bReadings b))) (failed r) m) (tl (tl (bReadings b)))).

#[global] Instance CircuitBreaker {W} `{!Publisher W} : Publisher (Broken W) := CircuitBreaker_Publish.

(** ** Backpressure limiter: the slots channel is its capacity and occupancy *)
Definition maxBackpressureInFlight : Z := 100000.

Definition validateBackpressure (MaxInFlight : Z) : result unit :=
  if MaxInFlight <=? 0
  then Err (Wrapf "%w: MaxInFlight must be positive" (Sentinel ErrInvalidBackpressureConfig))
  else if maxBackpressureInFlight <? MaxInFlight
  then Err (Wrapf "%w: MaxInFlight must not exceed %d" (Sentinel ErrInvalidBackpressureConfig))
  else Ok tt.

Record Limited (W : Type) := { lNext : W; capacity : Z; slots : Z }.
Arguments lNext {W} _.
Arguments capacity {W} _.
Arguments slots {W} _.
Arguments Build_Limited {W} _ _ _.

Definition NewBackpressureLimiter {W} (next : option W) (MaxInFlight : Z) : result (Limited W) :=
  match next with
  | None => Err (Errorf "new backpressure limiter: next Publisher must not be nil")
  | Some w =>
      _ ← wrap_err "new backpressure limiter: %w" (validateBackpressure MaxInFlight);
      Ok (Build_Limited w MaxInFlight 0)
  end.

(** The select with a default case: a slot, or None at once. *)
Definition acquireSlot {W} (l : Limited W) : option (Limited W) :=
  if slots l <? capacity l then Some (Build_Limited (lNext l) (capacity l) (slots l + 1)) else None.

Definition releaseSlot {W} (l : Limited W) : Limited W :=
  Build_Limited (lNext l) (capacity l) (slots l - 1).

Definition BackpressureLimiter_Publish {W} `{!Publisher W} (event : Event) (l : Limited W)
    : result unit * Limited W :=
  match acquireSlot l with
  | None => (Err (Sentinel ErrPublishQueueFull), l)
  | Some l =>
      let '(r, w) := Publish event (lNext l) in
      (r, releaseSlot (Build_Limited w (capacity l) (slots l)))
  end.

#[global] Instance BackpressureLimiter {W} `{!Publisher W} : Publisher (Limited W) :=
  BackpressureLimiter_Publish.

(** ** Instrumented publisher: the counters, the number of latency observations by
    outcome, and the breaker gauge *)
Record Metrics := {
  transactionsSuccessTotal : Z;
  transactionsFailureTotal : Z;
  publishLatencySuccess : Z;
  publishLatencyFailure : Z;
  breakerState : Z
}.

Definition breakerStateValue (s : State) : Z :=
  match s with Closed => 0 | Open => 2 | HalfOpen => 1 end.

Record Instrumented (W : Type) := { iNext : W; iMetrics : Metrics }.
Arguments iNext {W} _.
Arguments iMetrics {W} _.
Arguments Build_Instrumented {W} _ _.

(** [breaker] reads the state of the breaker inside the wrapped world, if any. *)
Definition InstrumentedPublisher_Publish {W} `{!Publisher W} (breaker : option (W → State)) (event : Event)
    (i : Instrumented W) : result unit * Instrumented W :=
  let '(r, w) := Publish event (iNext i) in
  let m := iMetrics i in
  let m := if failed r
           then {| transactionsSuccessTotal := transactionsSuccessTotal m;
                   transactionsFailureTotal := transactionsFailureTotal m + 1;
                   publishLatencySuccess := publishLatencySuccess m;
                   publishLatencyFailure := publishLatencyFailure m + 1;
                   breakerState := breakerState m |}
           else {| transactionsSuccessTotal := transactionsSuccessTotal m + 1;
                   transactionsFailureTotal := transactionsFailureTotal m;
                   publishLatencySuccess := publishLatencySuccess m + 1;
                   publishLatencyFailure := publishLatencyFailure m;
                   breakerState := breakerState m |} in
  let m := match breaker with
           | None => m
           | Some state =>
               {| transactionsSuccessTotal := transactionsSuccessTotal m;
                  transactionsFailureTotal := transactionsFailureTotal m;
                  publishLatencySuccess := publishLatencySuccess m;
                  publishLatencyFailure := publishLatencyFailure m;
                  breakerState := breakerStateValue (state w) |}
           end in
  (r, Build_Instrumented w m).

(** ** The chain cmd/ingestion/main.go builds *)
Section chain.
Context `{Cdc : !Codec} {K : Type} `{Kcl : !KafkaClient K} (topic : string).

#[local] Instance KafkaPublisher : Publisher K := Publisher_Publish topic.

Abbreviation Chain := (Instrumented (Limited (Broken K))) (only parsing).

Definition chainPublish : Event → Chain → result unit * Chain :=
  InstrumentedPublisher_Publish (Some (λ l, state (bMachine (lNext l)))).

Definition chainClient (c : Chain) : K := bNext (lNext (iNext c)).

(** A chain between calls. *)
Definition chain_ok (c : Chain) : Prop :=
  machine_wf (bMachine (lNext (iNext c))) ∧ slots (iNext c) = 0 ∧ 0 < capacity (iNext c).

Lemma chainPublish_cases event c r c' :
  chain_ok c → chainPublish event c = (r, c') →
  chain_ok c' ∧
  ((r, chainClient c') = Publisher_Publish topic event (chainClient c) ∨
   r = Err (Sentinel ErrOpen) ∧ chainClient c' = chainClient c) ∧
  transactionsSuccessTotal (iMetrics c') =
    transactionsSuccessTotal (iMetrics c) + (if failed r then 0 else 1) ∧
  transactionsFailureTotal (iMetrics c') =
    transactionsFailureTotal (iMetrics c) + (if failed r then 1 else 0) ∧
  breakerState (iMetrics c') = breakerStateValue (state (bMachine (lNext (iNext c')))).
Proof.
  intros (Hm & Hs & Hcap). unfold chainPublish, InstrumentedPublisher_Publish, chainClient, chain_ok.
  unfold Publish at 1, BackpressureLimiter, BackpressureLimiter_Publish, acquireSlot.
  destruct (Z.ltb_spec (slots (iNext c)) (capacity (iNext c))); [|lia]. cbn.
  unfold Publish at 1, CircuitBreaker, CircuitBreaker_Publish.
  set (b := lNext (iNext c)) in *. pose proof (Allow_wf (hd 0 (bReadings b)) _ Hm) as [Hm' _].
  destruct (Allow _ (bMachine b)) as [[allowed p] m]. destruct allowed; cbn in *.
  - unfold Publish, KafkaPublisher. destruct (Publisher_Publish topic event (bNext b)) as [r0 k'].
    intros [= <- <-]. cbn. split; [split; [by apply RecordOutcome_wf|lia]|]. split; [by left|].
    destruct (failed r0); cbn; split_and!; done || lia.
  - intros [= <- <-]. cbn. split; [split; [done|lia]|]. split; [by right|]. split_and!; done || lia.
Qed.

(** The publish chain is honest: a nil result means the wrapped Kafka publish
    itself returned nil for this event; an open breaker reports ErrCircuitOpen and
    does not touch the client; every call is counted once, as a success exactly
    when it returned nil; the slot is always given back, the breaker's invariant
    kept, and the gauge shows the breaker's state after the call. *)
Theorem chainPublish_spec event c r c' :
  chain_ok c → chainPublish event c = (r, c') →
  chain_ok c' ∧
  ((r, chainClient c') = Publisher_Publish topic event (chainClient c) ∨
   r = Err (Sentinel ErrOpen) ∧ chainClient c' = chainClient c) ∧
  transactionsSuccessTotal (iMetrics c') =
    transactionsSuccessTotal (iMetrics c) + (if failed r then 0 else 1) ∧
  transactionsFailureTotal (iMetrics c') =
    transactionsFailureTotal (iMetrics c) + (if failed r then 1 else 0) ∧
  breakerState (iMetrics c') = breakerStateValue (state (bMachine (lNext (iNext c')))).
Proof. apply chainPublish_cases. Qed.
End chain.

(** ** From publisher to processor *)

(** Events whose fields the payload carries; the offset may be one that is not
    written the way it was read. *)
Definition carried (e : Event) : Prop :=
  String.length (eEventID e) = 16%nat ∧
  Forall (λ s, ValidString s = true) [eTenantID e; eInstrument e; eSide e; eCurrency e] ∧
  -32768 ≤ eSchemaVersion e ≤ 32767 ∧
  (in_int64 (eQuantity e) ∧ eQuantity e ≠ MinInt64) ∧ (in_int64 (ePrice e) ∧ ePrice e ≠ MinInt64) ∧
  year_ok (eOccurredAt e) ∧ -90000 ≤ zone (eOccurredAt e) ≤ 90000.

(** Events the wire format carries faithfully. *)
Definition publishable (e : Event) : Prop := carried e ∧ zone_ok (zone (eOccurredAt e)).

(** The transaction an event stands for. *)
Definition transactionOf (e : Event) : Transaction :=
  {| ID := 0; EventID := eEventID e; TenantID := eTenantID e; SchemaVersion := eSchemaVersion e;
     Instrument := eInstrument e; Side := eSide e; Quantity := eQuantity e; Price := ePrice e;
     Currency := eCurrency e; OccurredAt := instant (eOccurredAt e); ReceivedAt := 0 |}.

Lemma string_forallb_take_drop p n s : string_forallb p s = true →
  string_forallb p (string_take n s) = true ∧ string_forallb p (string_drop n s) = true.
Proof. rewrite <-(string_take_drop n s) at 1. rewrite string_forallb_app. apply andb_true_iff. Qed.

Lemma FormatAmount_visible v : in_int64 v → string_forallb visible (FormatAmount v) = true.
Proof.
  intros Hv. unfold FormatAmount. set (m := if v <? 0 then uint64 _ else uint64 v).
  assert (in_uint64 m) as Hm by (subst m; destruct (v <? 0); apply uint64_range).
  clearbody m. pose proof (FormatUint_visible m Hm) as Hd. cbn zeta.
  set (digits := if _ <=? _ then _ else _).
  assert (string_forallb visible digits = true) as Hdig.
  { subst digits. destruct (_ <=? _); [|done].
    rewrite string_forallb_app, Hd, string_forallb_repeat; done. }
  clearbody digits. rewrite !string_forallb_app.
  destruct (string_forallb_take_drop visible
    (Z.to_nat (Z.of_nat (String.length digits) - amountFractionDigits)) digits Hdig) as [-> ->].
  by destruct (v <? 0).
Qed.

Section roundtrip.
Context `{Cdc : !Codec} `{Cl : !CodecLaws}.

(** Decoding a published payload comes down to reading the time back. *)
Lemma decode_carried e : carried e →
  ∃ payload, marshal_wire (wireOf e) = Ok payload ∧
    (∀ t, parseTime (format_RFC3339Nano (eOccurredAt e)) = Some t → instant t = instant (eOccurredAt e) →
      decodeTransaction payload = Ok (transactionOf e)) ∧
    (parseTime (format_RFC3339Nano (eOccurredAt e)) = None → failed (decodeTransaction payload) = true).
Proof.
  intros (Hid & Htxt & Hv & [Hq Hq'] & [Hp Hp'] & Hy & Hz).
  destruct (uuid_roundtrip (eEventID e) Hid) as [Hu Hu'].
  rewrite !Forall_cons in Htxt. destruct Htxt as (H1 & H2 & H3 & H4 & _).
  assert (∀ s, is_ascii s = true → ValidString s = true) as Hascii by apply ValidString_ascii.
  destruct (wire_roundtrip (wireOf e)) as (s & Hm & Hd).
  { split; [|done]. pose proof (format_ascii _ Hy Hz).
    repeat constructor; cbn; auto using visible_ascii, FormatAmount_visible. }
  exists s. split; [done|]. unfold decodeTransaction. rewrite Hd. cbn. rewrite Hu. cbn.
  rewrite !format_parse_roundtrip by done. cbn. unfold parse_RFC3339.
  split; [intros t -> Ht; cbn; by rewrite Ht|by intros ->].
Qed.

Lemma decode_published e : publishable e →
  ∃ payload, marshal_wire (wireOf e) = Ok payload ∧ decodeTransaction payload = Ok (transactionOf e).
Proof.
  intros [Hc Hz]. destruct (decode_carried e Hc) as (s & Hm & Hd & _). exists s. split; [done|].
  eapply Hd; [|reflexivity]. apply parse_format; [|done]. apply Hc.
Qed.

(** An event whose offset is 24 hours and 60 minutes is published as a payload
    the processor cannot decode. *)
Lemma decode_25h e payload : carried e → Z.abs (zone (eOccurredAt e)) = 90000 →
  marshal_wire (wireOf e) = Ok payload → failed (decodeTransaction payload) = true.
Proof.
  intros Hc Hz Hm. destruct (decode_carried e Hc) as (s & Hm' & _ & Hd). rewrite Hm in Hm'. injection Hm' as <-.
  apply Hd, parse_format_25h; [|done]. apply Hc.
Qed.

Context {K : Type} `{Kcl : !KafkaClient K}.
Context (produced fetched : K → list kRecord) `{Klaws : !KafkaLaws K produced fetched}.

Lemma published_wire topic e k k' : Publisher_Publish topic e k = (Ok tt, k') →
  ∃ record, record ∈ produced k' ∧ rTopic record = topic ∧
    rKey record = partitionKey (eTenantID e) (eInstrument e) ∧ marshal_wire (wireOf e) = Ok (rValue record).
Proof.
  unfold Publisher_Publish. destruct (marshal_wire (wireOf e)) as [payload|]; [|done].
  set (record := {| rValue := payload |}). destruct (ProduceSync record k) as [r k1] eqn:Hp.
  intros [= Hr <-]. apply wrap_err_Ok in Hr as ->. exists record. split_and!; try done.
  by eapply Produce_ok.
Qed.

(** What was published is what the processor decodes: a nil Publish leaves a
    record in the topic, under the event's tenant and instrument key, whose
    payload the processor's decoder reads back as exactly the event's transaction:
    ids, amounts and instant included. *)
Theorem Publish_decodes topic e k k' :
  publishable e → Publisher_Publish topic e k = (Ok tt, k') →
  ∃ record, record ∈ produced k' ∧ rTopic record = topic ∧
    rKey record = partitionKey (eTenantID e) (eInstrument e) ∧
    decodeTransaction (rValue record) = Ok (transactionOf e).
Proof.
  intros He (record & ? & ? & ? & Hm)%published_wire. destruct (decode_published e He) as (payload & Hm' & Hd).
  rewrite Hm in Hm'. injection Hm' as <-. by exists record.
Qed.
End roundtrip.

(** ** Concurrent callers of the backpressure limiter *)

(** Calls inside the wrapped Publish, by caller; [rejected] counts refusals. *)
Record LimiterSystem := { limiter : Limited unit; inside : list nat; rejected : nat }.

Inductive limiter_step : LimiterSystem → LimiterSystem → Prop :=
  | enter s caller l :
      acquireSlot (limiter s) = Some l →
      limiter_step s {| limiter := l; inside := caller :: inside s; rejected := rejected s |}
  | refuse s :
      acquireSlot (limiter s) = None →
      limiter_step s {| limiter := limiter s; inside := inside s; rejected := S (rejected s) |}
  | leave s before caller after :
      inside s = before ++ caller :: after →
      limiter_step s {| limiter := releaseSlot (limiter s); inside := before ++ after;
                        rejected := rejected s |}.

(** C32. The in-flight bound: however callers interleave, the calls inside the
    wrapped publisher are never more than MaxInFlight, the occupied slots are
    exactly those calls, and a caller is refused at once if and only if MaxInFlight
    calls are inside. *)
Theorem limiter_bounds MaxInFlight l0 s :
  NewBackpressureLimiter (Some tt) MaxInFlight = Ok l0 →
  rtc limiter_step {| limiter := l0; inside := []; rejected := 0 |} s →
  Z.of_nat (length (inside s)) ≤ MaxInFlight ∧ slots (limiter s) = Z.of_nat (length (inside s)) ∧
  (acquireSlot (limiter s) = None ↔ Z.of_nat (length (inside s)) = MaxInFlight).
Proof.
  intros Hnew Hr.
  assert (capacity l0 = MaxInFlight ∧ slots l0 = 0 ∧ 0 < MaxInFlight) as (Hc & Hs & Hpos).
  { unfold NewBackpressureLimiter in Hnew. apply result_bind_Ok in Hnew as ([] & Hv & [= <-]).
    apply wrap_err_Ok in Hv. unfold validateBackpressure in Hv. cbn.
    destruct (Z.leb_spec MaxInFlight 0); [done|]. split_and!; done || lia. }
  assert (capacity (limiter s) = MaxInFlight ∧ slots (limiter s) = Z.of_nat (length (inside s)) ∧
    Z.of_nat (length (inside s)) ≤ MaxInFlight) as (Hcap & Hslots & Hle).
  { apply (rtc_ind_r (λ s, capacity (limiter s) = MaxInFlight ∧
      slots (limiter s) = Z.of_nat (length (inside s)) ∧ Z.of_nat (length (inside s)) ≤ MaxInFlight)
      {| limiter := l0; inside := []; rejected := 0 |}) in Hr; [done|cbn; split_and!; done || lia|].
    clear. intros s1 s2 _ Hstep (Hc & Hs & Hle).
    destruct Hstep as [s1 caller l Ha|s1 Ha|s1 before caller after Hin]; cbn.
    - unfold acquireSlot in Ha. destruct (Z.ltb_spec (slots (limiter s1)) (capacity (limiter s1))); [|done].
      injection Ha as <-. cbn. split_and!; [done|lia|lia].
    - done.
    - rewrite Hin in Hs, Hle. rewrite length_app in *. cbn in *. split_and!; [done|lia|lia]. }
  split_and!; [done..|]. unfold acquireSlot. rewrite Hcap, Hslots.
  destruct (Z.ltb_spec (Z.of_nat (length (inside s))) MaxInFlight); split; done || lia.
Qed.

Lemma limiter_bounds_witness :
  let s := {| limiter := Build_Limited tt 1 1; inside := [7%nat]; rejected := 1%nat |} in
  acquireSlot (limiter s) = None ↔ Z.of_nat (length (inside s)) = 1.
Proof.
  refine (proj2 (proj2 (limiter_bounds 1 (Build_Limited tt 1 0) _ eq_refl _))).
  eapply rtc_l; [apply (enter _ 7%nat (Build_Limited tt 1 1)); reflexivity|].
  eapply rtc_l; [apply refuse; reflexivity|]. apply rtc_refl.
Defined.

(** ** Witnesses *)
#[local] Existing Instance plainCodec.

Definition soldEvent : Event :=
  {| eEventID := "0123456789abcdef"; eTenantID := "acme"; eSchemaVersion := 1; eInstrument := "AAPL";
     eSide := SideSell; eQuantity := -250000000; ePrice := 100; eCurrency := "USD"; eOccurredAt := UTC 7 |}.

Lemma Publish_decodes_witness : ∃ record,
  record ∈ acknowledged (Publisher_Publish "transaction-events" soldEvent emptyScript).2 ∧
  rTopic record = "transaction-events" ∧ rKey record = "acme:AAPL" ∧
  decodeTransaction (rValue record) = Ok (transactionOf soldEvent).
Proof.
  refine (Publish_decodes (Cl := plainCodecLaws) acknowledged handedOut (Klaws := ScriptedLaws)
    "transaction-events" soldEvent emptyScript _ _ _).
  - repeat (split || constructor); vm_compute; congruence.
  - vm_compute. reflexivity.
Defined.

(** A breaker that opens on its first failure, over a client that refuses once. *)
Definition brittleChain : Instrumented (Limited (Broken Script)) :=
  Build_Instrumented (Build_Limited (Build_Broken
    {| feed := []; acks := [false]; cancels := []; acknowledged := []; handedOut := [] |}
    {| config := {| FailureThreshold := 1; OpenTimeout := 5; ProbeTimeout := 5 |}; state := Closed;
       consecutiveFailures := 0; openedAt := 0 |} [1; 2]) 3 0)
    {| transactionsSuccessTotal := 4; transactionsFailureTotal := 0; publishLatencySuccess := 0; publishLatencyFailure := 0; breakerState := 0 |}.

Lemma chainPublish_spec_witness :
  let '(r, c') := chainPublish "transaction-events" soldEvent brittleChain in
  chain_ok c' ∧ transactionsFailureTotal (iMetrics c') = 1 ∧ breakerState (iMetrics c') = 2.
Proof.
  destruct (chainPublish "transaction-events" soldEvent brittleChain) as [r c'] eqn:E.
  pose proof E as E'. apply (chainPublish_spec "transaction-events") in E as (Hok & _).
  - split; [exact Hok|]. vm_compute in E'. injection E' as _ <-. split; reflexivity.
  - repeat split; vm_compute; congruence.
Defined.
