(* ===== verification/Api.v ===== *)
(** * Ingestion API (internal/api)

    Request validation, the REST and gRPC transaction handlers, bearer-token
    authentication and the per-key rate limiter.  A REST body is decoded from its
    JSON; generated protobuf types are records. *)
From Stdlib Require Import SpecFloat.
From S2P Require Import Prelude GoStrings GoUtf8 GoJson GoUnmarshal GoTime GoCalendar Amount CoreBreaker Ledger Wire Ingestion Partitioner.

(** ** Field validation *)
Definition isLowerAlphanumeric (char : Z) : bool :=
  ((97 <=? char) && (char <=? 122)) || ((48 <=? char) && (char <=? 57)).
Definition isUpperAlphanumeric (char : Z) : bool :=
  ((65 <=? char) && (char <=? 90)) || ((48 <=? char) && (char <=? 57)).

Definition isValidCurrencyCode (code : string) : bool :=
  Nat.eqb (String.length code) 3 &&
  forallb (λ letter, negb ((letter <? 65) || (90 <? letter))) (runes code).

Definition isValidTenantID (tenantID : string) : bool :=
  negb (Nat.eqb (String.length tenantID) 0 || Nat.ltb 64 (String.length tenantID)) &&
  forallb (λ char, isLowerAlphanumeric char || (char =? 45)) (runes tenantID).

Definition isValidInstrument (instrument : string) : bool :=
  negb (Nat.eqb (String.length instrument) 0 || Nat.ltb 16 (String.length instrument)) &&
  forallb (λ char, isUpperAlphanumeric char || (char =? 46)) (runes instrument).

Definition isJSONWhitespace (data : string) : bool :=
  string_forallb (λ c, (byte c =? 32) || (byte c =? 9) || (byte c =? 13) || (byte c =? 10)) data.

(** ** REST *)
Record TransactionEventRequest := {
  qEventID : string;
  qTenantID : string;
  qInstrument : string;
  qSide : string;
  qQuantity : string;
  qPrice : string;
  qCurrency : string;
  qOccurredAt : string
}.

Definition requestFields : list (string * setter TransactionEventRequest) :=
  [("event_id", SetString (λ x '(Build_TransactionEventRequest e t i s q p c o), Build_TransactionEventRequest x t i s q p c o));
   ("tenant_id", SetString (λ x '(Build_TransactionEventRequest e t i s q p c o), Build_TransactionEventRequest e x i s q p c o));
   ("instrument", SetString (λ x '(Build_TransactionEventRequest e t i s q p c o), Build_TransactionEventRequest e t x s q p c o));
   ("side", SetString (λ x '(Build_TransactionEventRequest e t i s q p c o), Build_TransactionEventRequest e t i x q p c o));
   ("quantity", SetString (λ x '(Build_TransactionEventRequest e t i s q p c o), Build_TransactionEventRequest e t i s x p c o));
   ("price", SetString (λ x '(Build_TransactionEventRequest e t i s q p c o), Build_TransactionEventRequest e t i s q x c o));
   ("currency", SetString (λ x '(Build_TransactionEventRequest e t i s q p c o), Build_TransactionEventRequest e t i s q p x o));
   ("occurred_at", SetString (λ x '(Build_TransactionEventRequest e t i s q p c o), Build_TransactionEventRequest e t i s q p c x))].

Definition request_json (event : TransactionEventRequest) : json :=
  JObject [("event_id", JString (qEventID event)); ("tenant_id", JString (qTenantID event));
           ("instrument", JString (qInstrument event)); ("side", JString (qSide event));
           ("quantity", JString (qQuantity event)); ("price", JString (qPrice event));
           ("currency", JString (qCurrency event)); ("occurred_at", JString (qOccurredAt event))].

(** TransactionEventRequest{}, what Reset leaves. *)
Definition zeroRequest : TransactionEventRequest := Build_TransactionEventRequest "" "" "" "" "" "" "" "".

Section validation.
Context `{Cdc : !Codec}.

(** ParseAmount failed, or the amount is outside (0, MaxAmount]. *)
Definition badAmount (value : string) : bool :=
  match ParseAmount value with
  | Err _ => true
  | Ok v => (v <=? 0) || (MaxAmount <? v)
  end.

Definition amountMessage : string := "must be a positive decimal number no greater than %s".

Definition validate (event : TransactionEventRequest) : result unit :=
  if existsb (λ s, bool_decide (s = ""))
       [qEventID event; qTenantID event; qInstrument event; qSide event; qQuantity event; qPrice event;
        qCurrency event; qOccurredAt event]
  then Err (Errorf "missing required fields")
  else if failed (uuid_Parse (qEventID event)) then Err (Errorf "event_id must be a valid UUID")
  else if negb (isValidTenantID (qTenantID event))
  then Err (Errorf "tenant_id must be 1-64 lowercase letters, digits, or hyphens")
  else if negb (isValidInstrument (qInstrument event))
  then Err (Errorf "instrument must be 1-16 uppercase letters, digits, or dots")
  else if negb (bool_decide (qSide event = SideBuy)) && negb (bool_decide (qSide event = SideSell))
  then Err (Errorf "side must be %q or %q")
  else if badAmount (qQuantity event) then Err (Errorf ("quantity " +:+ amountMessage))
  else if badAmount (qPrice event) then Err (Errorf ("price " +:+ amountMessage))
  else if negb (isValidCurrencyCode (qCurrency event))
  then Err (Errorf "currency must be a 3-letter uppercase ISO 4217 code")
  else if failed (parse_RFC3339 (qOccurredAt event))
  then Err (Errorf "occurred_at must be an RFC3339 timestamp")
  else Ok tt.

Definition toIngestionEvent (event : TransactionEventRequest) : result Event :=
  eventID ← wrap_err "event_id must be a valid UUID: %w" (uuid_Parse (qEventID event));
  quantity ← wrap_err "quantity must be a valid decimal number: %w" (ParseAmount (qQuantity event));
  price ← wrap_err "price must be a valid decimal number: %w" (ParseAmount (qPrice event));
  occurredAt ← wrap_err "occurred_at must be an RFC3339 timestamp: %w" (parse_RFC3339 (qOccurredAt event));
  Ok {| eEventID := eventID; eTenantID := qTenantID event; eSchemaVersion := CurrentSchemaVersion;
        eInstrument := qInstrument event; eSide := qSide event; eQuantity := quantity; ePrice := price;
        eCurrency := qCurrency event; eOccurredAt := occurredAt |}.

(** A response: its status and, for an error, its message. *)
Definition Response : Type := Z * option error.

Definition StatusAccepted : Z := 202.
Definition StatusBadRequest : Z := 400.
Definition StatusUnauthorized : Z := 401.
Definition StatusTooManyRequests : Z := 429.
Definition StatusServiceUnavailable : Z := 503.

Definition maxTransactionEventBytes : nat := 4096.

(** newTransactionHandler on a fresh event and fresh buffers; Pools.v has the
    pooled ones. *)
Definition transactionHandler {W} `{!Publisher W} (body : string) (w : W) : Response * W :=
  if Nat.ltb maxTransactionEventBytes (String.length body)
  then ((StatusBadRequest, Some (Errorf "invalid request body")), w)
  else
    match decodeNext requestFields body zeroRequest with
    | Err _ => ((StatusBadRequest, Some (Errorf "invalid request body")), w)
    | Ok (event, trailing) =>
        if negb (isJSONWhitespace trailing)
        then ((StatusBadRequest, Some (Errorf "invalid request body: trailing data")), w)
        else
          match validate event with
          | Err err => ((StatusBadRequest, Some err), w)
          | Ok _ =>
              match toIngestionEvent event with
              | Err err => ((StatusBadRequest, Some err), w)
              | Ok ingestionEvent =>
                  let '(r, w) := Publish ingestionEvent w in
                  match r with
                  | Err _ =>
                      ((StatusServiceUnavailable, Some (Errorf "failed to publish transaction event")), w)
                  | Ok _ => ((StatusAccepted, None), w)
                  end
              end
          end
    end.

(** ** gRPC *)
Inductive ProtoSide := SIDE_UNSPECIFIED | SIDE_BUY | SIDE_SELL | SIDE_OTHER (n : Z).

(** ingestionv1.TransactionEvent; the timestamp is (seconds, nanos). *)
Record TransactionEvent := {
  pEventId : string;
  pTenantId : string;
  pInstrument : string;
  pSide : ProtoSide;
  pQuantity : Z;
  pPrice : Z;
  pCurrency : string;
  pOccurredAt : option (Z * Z)
}.

Definition sideFromProto (side : ProtoSide) : result string :=
  match side with
  | SIDE_BUY => Ok SideBuy
  | SIDE_SELL => Ok SideSell
  | _ => Err (Errorf "side must be SIDE_BUY or SIDE_SELL")
  end.

Definition validateTransactionEvent (event : TransactionEvent) : result unit :=
  if existsb (λ s, bool_decide (s = ""))
       [pEventId event; pTenantId event; pInstrument event; pCurrency event]
     || bool_decide (pOccurredAt event = None)
  then Err (Errorf "missing required fields")
  else if failed (uuid_Parse (pEventId event)) then Err (Errorf "event_id must be a valid UUID")
  else if negb (isValidTenantID (pTenantId event))
  then Err (Errorf "tenant_id must be 1-64 lowercase letters, digits, or hyphens")
  else if negb (isValidInstrument (pInstrument event))
  then Err (Errorf "instrument must be 1-16 uppercase letters, digits, or dots")
  else
    _ ← sideFromProto (pSide event);
    if (pQuantity event <=? 0) || (MaxAmount <? pQuantity event)
    then Err (Errorf ("quantity " +:+ amountMessage))
    else if (pPrice event <=? 0) || (MaxAmount <? pPrice event)
    then Err (Errorf ("price " +:+ amountMessage))
    else if negb (isValidCurrencyCode (pCurrency event))
    then Err (Errorf "currency must be a 3-letter uppercase ISO 4217 code")
    else wrap_err "occurred_at must be a valid timestamp: %w" (CheckValid (default (0, 0) (pOccurredAt event))).

Definition transactionEventToIngestionEvent (event : TransactionEvent) : result Event :=
  eventID ← wrap_err "event_id must be a valid UUID: %w" (uuid_Parse (pEventId event));
  side ← sideFromProto (pSide event);
  Ok {| eEventID := eventID; eTenantID := pTenantId event; eSchemaVersion := CurrentSchemaVersion;
        eInstrument := pInstrument event; eSide := side; eQuantity := pQuantity event;
        ePrice := pPrice event; eCurrency := pCurrency event;
        eOccurredAt := AsTime (default (0, 0) (pOccurredAt event)) |}.

Inductive code := InvalidArgument | Unavailable | Unauthenticated | ResourceExhausted.

(** IngestTransaction: the accepted event id, or a status. *)
Definition IngestTransaction {W} `{!Publisher W} (req : option TransactionEvent) (w : W)
    : (string + code * error) * W :=
  match req with
  | None => (inr (InvalidArgument, Errorf "event is required"), w)
  | Some event =>
      match validateTransactionEvent event with
      | Err err => (inr (InvalidArgument, err), w)
      | Ok _ =>
          match transactionEventToIngestionEvent event with
          | Err err => (inr (InvalidArgument, err), w)
          | Ok ingestionEvent =>
              let '(r, w) := Publish ingestionEvent w in
              match r with
              | Err _ => (inr (Unavailable, Errorf "failed to publish transaction event"), w)
              | Ok _ => (inl (pEventId event), w)
              end
          end
      end
  end.
End validation.

(** ** Authentication *)
Definition bearerToken (header : string) : option string := CutPrefix header "Bearer ".

(** The values of the request's "authorization" metadata, None without metadata. *)
Definition bearerTokenFromContext (metaData : option (list string)) : option string :=
  match metaData with
  | None => None
  | Some [] => None
  | Some (v :: _) => bearerToken v
  end.

Definition newAPIKeyAuthenticator (keys : list string) : result (list string) :=
  if Nat.eqb (length keys) 0 then Err (Errorf "at least one API key is required")
  else if existsb (λ key, bool_decide (key = "")) keys then Err (Errorf "API key must not be empty")
  else Ok keys.

(** subtle.ConstantTimeCompare: 1 if equal, else 0. *)
Definition ConstantTimeCompare (x y : string) : Z := if bool_decide (x = y) then 1 else 0.

Definition validateToken (validKeys : list string) (token : string) : bool :=
  fold_left (λ m key, Z.lor m (ConstantTimeCompare token key)) validKeys 0 =? 1.

Definition authenticate (validKeys : list string) (metaData : option (list string)) : bool :=
  match bearerTokenFromContext metaData with
  | None => false
  | Some token => validateToken validKeys token
  end.

(** middleware around the rest of the REST stack [next]. *)
Definition authMiddleware {W} (validKeys : list string) (next : W → Response * W) (authorization : string) (w : W)
    : Response * W :=
  match bearerToken authorization with
  | Some token => if validateToken validKeys token then next w
                  else ((StatusUnauthorized, Some (Errorf "missing or invalid bearer token")), w)
  | None => ((StatusUnauthorized, Some (Errorf "missing or invalid bearer token")), w)
  end.

(** ** Rate limiting *)
Definition f64_add (x y : spec_float) : spec_float := SFadd 53 1024 x y.
Definition f64_sub (x y : spec_float) : spec_float := SFsub 53 1024 x y.
Definition f64_one : spec_float := f64_of_Z 1.

(** Go's min: NaN if either argument is. *)
Definition f64_min (x y : spec_float) : spec_float :=
  match x, y with
  | S754_nan, _ | _, S754_nan => S754_nan
  | _, _ => if SFltb y x then y else x
  end.

(** Duration.Seconds *)
Definition Seconds (d : Z) : spec_float :=
  f64_add (f64_of_Z (Z.quot d Second)) (f64_div (f64_of_Z (Z.rem d Second)) (f64_of_Z Second)).

Record tokenBucket := { tokens : spec_float; lastRefill : Z }.

Definition bucketAllow (rate burst : spec_float) (now : Z) (bucket : tokenBucket) : bool * tokenBucket :=
  let elapsed := Seconds (time_Sub now (lastRefill bucket)) in
  let t := f64_min burst (f64_add (tokens bucket) (f64_mul elapsed rate)) in
  if SFltb t f64_one then (false, {| tokens := t; lastRefill := now |})
  else (true, {| tokens := f64_sub t f64_one; lastRefill := now |}).

Definition rateLimiterShardCount : Z := 64.

(** fnv32a, the same FNV-1a loop over the key's bytes. *)
Fixpoint fnv32aLoop (hash : Z) (key : list Z) : Z :=
  match key with
  | [] => hash
  | b :: key => fnv32aLoop (uint32 (Z.lxor hash b * 16777619)) key
  end.
Definition fnv32a (key : string) : Z := fnv32aLoop 2166136261 (bytes key).

Record rateLimiter := {
  rate : spec_float;
  burst : spec_float;
  shards : gmap Z (gmap string tokenBucket)      (* 64 shards; absent is empty *)
}.

Definition newRateLimiter (RequestsPerSecond : spec_float) (Burst : Z) : result rateLimiter :=
  if SFleb RequestsPerSecond (f64_of_Z 0)
  then Err (Errorf "rate limit requests per second must be positive, got %v")
  else if Burst <=? 0 then Err (Errorf "rate limit burst must be positive, got %v")
  else Ok {| rate := RequestsPerSecond; burst := f64_of_Z Burst; shards := ∅ |}.

Definition shardIndex (key : string) : Z := Z.land (fnv32a key) (rateLimiterShardCount - 1).

Definition limiterAllow (now : Z) (key : string) (limiter : rateLimiter) : bool * rateLimiter :=
  let index := shardIndex key in
  let shard := default ∅ (shards limiter !! index) in
  let store bucket := {| rate := rate limiter; burst := burst limiter;
                         shards := <[index := <[key := bucket]> shard]> (shards limiter) |} in
  match shard !! key with
  | Some bucket =>
      let '(ok, bucket) := bucketAllow (rate limiter) (burst limiter) now bucket in
      (ok, store bucket)
  | None => (true, store {| tokens := f64_sub (burst limiter) f64_one; lastRefill := now |})
  end.

(** middleware: 429 over the limit, keyed by the bearer token. *)
Definition rateMiddleware {W} (now : Z) (next : W → Response * W) (authorization : string)
    (limiter : rateLimiter) (w : W) : Response * rateLimiter * W :=
  match bearerToken authorization with
  | None => ((StatusTooManyRequests, Some (Errorf "rate limit exceeded")), limiter, w)
  | Some key =>
      let '(ok, limiter) := limiterAllow now key limiter in
      if ok then let '(rsp, w) := next w in (rsp, limiter, w)
      else ((StatusTooManyRequests, Some (Errorf "rate limit exceeded")), limiter, w)
  end.

(** The two interceptors before a gRPC handler; None lets the request through. *)
Definition healthCheckServicePrefix : string := "/grpc.health.v1.Health/".

Definition interceptors (validKeys : list string) (now : Z) (fullMethod : string)
    (metaData : option (list string)) (limiter : rateLimiter) : option (code * error) * rateLimiter :=
  match CutPrefix fullMethod healthCheckServicePrefix with
  | Some _ => (None, limiter)
  | None =>
      if negb (authenticate validKeys metaData)
      then (Some (Unauthenticated, Errorf "missing or invalid bearer token"), limiter)
      else
        match bearerTokenFromContext metaData with
        | None => (Some (ResourceExhausted, Errorf "rate limit exceeded"), limiter)
        | Some key =>
            let '(ok, limiter) := limiterAllow now key limiter in
            if ok then (None, limiter)
            else (Some (ResourceExhausted, Errorf "rate limit exceeded"), limiter)
        end
  end.

(** ** What validation guarantees *)

Lemma class_visible (p : Z → bool) s : (∀ z, p z = true → 33 ≤ z ≤ 127) →
  forallb p (runes s) = true → string_forallb visible s = true.
Proof.
  intros Hp. rewrite range_loop_ascii by (intros z Hz; apply Hp in Hz; lia).
  rewrite bytes_forallb. apply string_forallb_impl. intros c Hc%Hp. unfold visible.
  apply andb_true_iff; split; apply Z.leb_le; lia.
Qed.

Lemma isLowerAlphanumeric_range z : isLowerAlphanumeric z = true → 48 ≤ z ≤ 57 ∨ 97 ≤ z ≤ 122.
Proof. unfold isLowerAlphanumeric. intros [H|H]%orb_true_iff; bool_props; lia. Qed.
Lemma isUpperAlphanumeric_range z : isUpperAlphanumeric z = true → 48 ≤ z ≤ 57 ∨ 65 ≤ z ≤ 90.
Proof. unfold isUpperAlphanumeric. intros [H|H]%orb_true_iff; bool_props; lia. Qed.

Lemma isValidTenantID_spec t : isValidTenantID t = true →
  string_forallb visible t = true ∧ no_byte ":"%char t = true ∧ (1 ≤ String.length t ≤ 64)%nat.
Proof.
  unfold isValidTenantID. intros H. bool_props.
  match goal with H : forallb ?p _ = true |- _ =>
    assert (∀ z, p z = true → 48 ≤ z ≤ 57 ∨ 97 ≤ z ≤ 122 ∨ z = 45) as Hp end.
  { intros z [Hz%isLowerAlphanumeric_range|Hz]%orb_true_iff; bool_props; lia. }
  split_and!.
  - eapply class_visible; [|done]. intros z Hz%Hp. lia.
  - match goal with H : forallb _ _ = true |- _ => rewrite range_loop_ascii, bytes_forallb in H end;
      [|intros z Hz%Hp; lia].
    match goal with H : string_forallb _ _ = true |- _ => revert H end. apply string_forallb_impl.
    intros c Hc%Hp. apply negb_true_iff, bool_decide_eq_false. intros ->.
    change (byte ":") with 58 in Hc. lia.
  - apply Nat.eqb_neq in H. lia.
  - match goal with H : (64 <? _)%nat = false |- _ => apply Nat.ltb_ge in H end. lia.
Qed.

Lemma isValidInstrument_visible i : isValidInstrument i = true → string_forallb visible i = true.
Proof.
  unfold isValidInstrument. intros H. bool_props. eapply class_visible; [|done].
  intros z [Hz%isUpperAlphanumeric_range|Hz]%orb_true_iff; bool_props; lia.
Qed.

Lemma isValidCurrencyCode_visible c : isValidCurrencyCode c = true →
  string_forallb visible c = true ∧ String.length c = 3%nat.
Proof.
  unfold isValidCurrencyCode. intros H. bool_props. split; [|by apply Nat.eqb_eq].
  eapply class_visible; [|done]. intros z Hz. cbn in Hz. bool_props. lia.
Qed.

Lemma badAmount_spec s : badAmount s = false ↔ ∃ v, ParseAmount s = Ok v ∧ 0 < v ≤ MaxAmount.
Proof.
  unfold badAmount. destruct (ParseAmount s) as [v|e].
  - rewrite orb_false_iff, Z.leb_gt, Z.ltb_ge. split; [intros; by exists v|by intros (? & [= <-] & ?)].
  - split; [done|by intros (? & ? & _)].
Qed.

Lemma failed_false {A} (r : result A) : failed r = false ↔ is_Ok r.
Proof. destruct r; cbn; split; [intros _; by eexists|done|done|by intros []]. Qed.

Lemma side_cases s : negb (bool_decide (s = SideBuy)) && negb (bool_decide (s = SideSell)) = false →
  s = SideBuy ∨ s = SideSell.
Proof. intros H. apply andb_false_iff in H as [H|H]; bool_props; auto. Qed.

(** What the ingestion service lets into Kafka. *)
Definition admissible (e : Event) : Prop :=
  String.length (eEventID e) = 16%nat ∧ isValidTenantID (eTenantID e) = true ∧
  isValidInstrument (eInstrument e) = true ∧ (eSide e = SideBuy ∨ eSide e = SideSell) ∧
  0 < eQuantity e ≤ MaxAmount ∧ 0 < ePrice e ≤ MaxAmount ∧
  isValidCurrencyCode (eCurrency e) = true ∧ eSchemaVersion e = CurrentSchemaVersion.

Lemma admissible_carried e : admissible e → year_ok (eOccurredAt e) → -90000 ≤ zone (eOccurredAt e) ≤ 90000 → carried e.
Proof.
  intros (Hid & Ht & Hi & Hs & Hq & Hp & Hc & Hv) Hy Hz.
  apply isValidTenantID_spec in Ht as (? & _). apply isValidInstrument_visible in Hi.
  apply isValidCurrencyCode_visible in Hc as [? _].
  assert (string_forallb visible (eSide e) = true) by (by destruct Hs as [-> | ->]).
  unfold carried. rewrite Hv. unfold MaxAmount, AmountScale, CurrentSchemaVersion in *.
  assert (∀ s, string_forallb visible s = true → ValidString s = true) by (intros s ?%visible_ascii; by apply ValidString_ascii).
  split_and!; try done; try (unfold_ints; lia). repeat constructor; auto.
Qed.

Section guarantees.
Context `{Cdc : !Codec} `{Cl : !CodecLaws}.

Lemma validate_spec ev : validate ev = Ok tt →
  ∃ e, toIngestionEvent ev = Ok e ∧ admissible e ∧ parseTime (qOccurredAt ev) = Some (eOccurredAt e) ∧ eTenantID e = qTenantID ev ∧
    eInstrument e = qInstrument ev ∧ eSide e = qSide ev ∧ eCurrency e = qCurrency ev.
Proof.
  unfold validate. destruct (existsb _ _); [done|].
  destruct (failed (uuid_Parse (qEventID ev))) eqn:H1; [done|].
  destruct (isValidTenantID (qTenantID ev)) eqn:H2; [|done].
  destruct (isValidInstrument (qInstrument ev)) eqn:H3; [|done]. cbn [negb].
  destruct (negb _ && negb _) eqn:H4; [done|].
  destruct (badAmount (qQuantity ev)) eqn:H5; [done|]. destruct (badAmount (qPrice ev)) eqn:H6; [done|].
  destruct (isValidCurrencyCode (qCurrency ev)) eqn:H7; [|done]. cbn [negb].
  destruct (failed (parse_RFC3339 (qOccurredAt ev))) eqn:H8; [done|]. intros _.
  apply failed_false in H1 as [u Hu]. apply failed_false in H8 as [t Ht].
  apply badAmount_spec in H5 as (q & Hq & ?). apply badAmount_spec in H6 as (p & Hp & ?).
  unfold toIngestionEvent. rewrite Hu, Hq, Hp, Ht. cbn. eexists. split; [done|].
  split; [unfold admissible; cbn; split_and!; try done; try lia; [by eapply uuid_length|by apply side_cases]|].
  split; [|done]. cbn. unfold parse_RFC3339 in Ht. destruct (parseTime (qOccurredAt ev)); congruence.
Qed.

(** Every REST event validation accepts converts to an event the wire format
    carries, unless its offset is the one of 24 hours and 60 minutes. *)
Lemma request_publishable ev : validate ev = Ok tt →
  ∃ e, toIngestionEvent ev = Ok e ∧ admissible e ∧ carried e ∧ (publishable e ∨ Z.abs (zone (eOccurredAt e)) = 90000).
Proof.
  intros (e & He & Ha & Ht & _)%validate_spec. exists e. apply parse_range in Ht as (Hy & Hm & Hr).
  assert (carried e) as Hc by (by apply admissible_carried). split_and!; [done..|].
  destruct (Z.eq_dec (Z.abs (zone (eOccurredAt e))) 90000); [by right|left].
  split; [done|]. unfold zone_ok. Z.to_euclidean_division_equations; lia.
Qed.

(** validate and toIngestionEvent never drift: every request validate accepts
    converts without an error, and the event it becomes is admissible: a
    sixteen-byte id, identifiers in their charsets and lengths, BUY or SELL,
    amounts in (0, MaxAmount], a three-letter currency. *)
Theorem validate_converts ev : validate ev = Ok tt → ∃ e, toIngestionEvent ev = Ok e ∧ admissible e.
Proof. intros (e & ? & ? & _)%validate_spec. by exists e. Qed.

Lemma validateTransactionEvent_spec pe : validateTransactionEvent pe = Ok tt →
  ∃ u side ts, uuid_Parse (pEventId pe) = Ok u ∧ sideFromProto (pSide pe) = Ok side ∧
    pOccurredAt pe = Some ts ∧ CheckValid ts = Ok tt ∧
    isValidTenantID (pTenantId pe) = true ∧ isValidInstrument (pInstrument pe) = true ∧
    0 < pQuantity pe ≤ MaxAmount ∧ 0 < pPrice pe ≤ MaxAmount ∧ isValidCurrencyCode (pCurrency pe) = true.
Proof.
  unfold validateTransactionEvent. destruct (existsb _ _); cbn [orb]; [done|].
  destruct (pOccurredAt pe) as [ts|]; [|done]. cbn [bool_decide default].
  rewrite bool_decide_eq_false_2 by done.
  destruct (failed (uuid_Parse (pEventId pe))) eqn:H1; [done|]. apply failed_false in H1 as [u Hu].
  destruct (isValidTenantID (pTenantId pe)); [|done].
  destruct (isValidInstrument (pInstrument pe)); [|done]. cbn [negb].
  intros (side & Hs & H)%result_bind_Ok. exists u, side, ts.
  destruct (_ || _) eqn:Hq in H; [done|]. destruct (_ || _) eqn:Hp in H; [done|].
  destruct (isValidCurrencyCode (pCurrency pe)); [|done]. cbn [negb] in H. apply wrap_err_Ok in H.
  bool_props. split_and!; done || lia.
Qed.

Lemma timestamp_year_ok ts : timestamp_valid ts → year_ok (UTC (ts.1 * Second + ts.2)).
Proof.
  unfold timestamp_valid, year_ok, wallDay, wallSeconds, Second, daysToEpoch. destruct ts as [sec ns]; cbn [fst snd instant zone UTC].
  intros [? ?]. rewrite Z.div_add_l, (Z.div_small ns) by lia.
  change (daysBeforeYear 10000) with 3652425. Z.to_euclidean_division_equations; lia.
Qed.

(** Every gRPC event validation accepts converts to an admissible event that
    the wire format carries. *)
Lemma transactionEvent_publishable pe : validateTransactionEvent pe = Ok tt →
  ∃ e, transactionEventToIngestionEvent pe = Ok e ∧ admissible e ∧ publishable e.
Proof.
  intros (u & side & ts & Hu & Hs & Ho & Hts & Ht & Hi & Hq & Hp & Hc)%validateTransactionEvent_spec.
  apply CheckValid_range in Hts. unfold transactionEventToIngestionEvent. rewrite Hu, Hs, Ho. cbn.
  rewrite AsTime_instant by done. eexists. split; [done|].
  match goal with |- admissible ?e ∧ _ => assert (admissible e) as Ha end.
  { unfold admissible. cbn. split_and!; try done; try lia; [by eapply uuid_length|].
    destruct (pSide pe); cbn in Hs; [done|injection Hs as <-; auto|injection Hs as <-; auto|done]. }
  split; [done|]. split; [|done]. apply admissible_carried; [done|by apply timestamp_year_ok|done].
Qed.

(** The event with its instant told in UTC. *)
Definition inUTC (e : Event) : Event :=
  {| eEventID := eEventID e; eTenantID := eTenantID e; eSchemaVersion := eSchemaVersion e;
     eInstrument := eInstrument e; eSide := eSide e; eQuantity := eQuantity e; ePrice := ePrice e;
     eCurrency := eCurrency e; eOccurredAt := UTC (instant (eOccurredAt e)) |}.

(** timestamppb.New of an instant. *)
Definition timestampOf (n : Z) : Z * Z := (n / Second, n mod Second).

Lemma timestampOf_valid n : timestamp_valid (timestampOf n) ↔ -62135596800 * Second ≤ n < 253402300800 * Second.
Proof. unfold timestamp_valid, timestampOf, Second. cbn [fst snd]. Z.to_euclidean_division_equations; lia. Qed.

(** The same values as a REST request, as a gRPC event. *)
Definition protoOf (ev : TransactionEventRequest) (q p : Z) (t : Time) : TransactionEvent :=
  {| pEventId := qEventID ev; pTenantId := qTenantID ev; pInstrument := qInstrument ev;
     pSide := if bool_decide (qSide ev = SideBuy) then SIDE_BUY else SIDE_SELL;
     pQuantity := q; pPrice := p; pCurrency := qCurrency ev; pOccurredAt := Some (timestampOf (instant t)) |}.

(** C33. Where the two transports agree: the gRPC event with the values of a REST
    request that validate accepts is accepted exactly when the instant lies, in UTC,
    in the years 1 to 9999, a range the REST validator does not check; then the two
    ingestion events differ only in the offset the instant is told in, and stand
    for the same transaction. *)
Theorem transports_agree ev q p t :
  validate ev = Ok tt →
  ParseAmount (qQuantity ev) = Ok q → ParseAmount (qPrice ev) = Ok p →
  parse_RFC3339 (qOccurredAt ev) = Ok t →
  (validateTransactionEvent (protoOf ev q p t) = Ok tt ↔
   -62135596800 * Second ≤ instant t < 253402300800 * Second) ∧
  ∃ e, toIngestionEvent ev = Ok e ∧ transactionOf (inUTC e) = transactionOf e ∧
    (validateTransactionEvent (protoOf ev q p t) = Ok tt →
     transactionEventToIngestionEvent (protoOf ev q p t) = Ok (inUTC e)).
Proof.
  intros Hval Hq Hp Ht. pose proof Hval as Hval'.
  apply validate_spec in Hval as (e & He & (Hid & Hten & Hins & Hside & Hqr & Hpr & Hcur & _) & _ & E1 & E2 & E3 & E4).
  unfold toIngestionEvent in He. apply result_bind_Ok in He as (u & Hu & He). apply wrap_err_Ok in Hu.
  rewrite Hq, Hp, Ht in He. cbn in He. injection He as <-. cbn in *.
  assert (sideFromProto (if bool_decide (qSide ev = SideBuy) then SIDE_BUY else SIDE_SELL) = Ok (qSide ev)) as Hsd.
  { case_bool_decide as Hs; cbn; [by rewrite Hs|]. destruct Hside as [?| ->]; [done|done]. }
  assert (validateTransactionEvent (protoOf ev q p t) =
    wrap_err "occurred_at must be a valid timestamp: %w" (CheckValid (timestampOf (instant t)))) as Hv.
  { unfold validate in Hval'. cbn [existsb] in Hval'. unfold validateTransactionEvent, protoOf. cbn [existsb].
    cbn [pEventId pTenantId pInstrument pSide pQuantity pPrice pCurrency pOccurredAt].
    rewrite Hu, Hten, Hins, Hsd, Hcur. cbn [failed negb mbind result_bind default].
    destruct (bool_decide (qEventID ev = "")), (bool_decide (qTenantID ev = "")),
      (bool_decide (qInstrument ev = "")), (bool_decide (qCurrency ev = "")); cbn in Hval'; try done;
      try (by rewrite ?orb_true_r in Hval').
    cbn -[timestampOf].
    destruct (Z.leb_spec q 0), (Z.ltb_spec MaxAmount q), (Z.leb_spec p 0), (Z.ltb_spec MaxAmount p);
      try lia. reflexivity. }
  rewrite Hv, wrap_err_Ok, CheckValid_range. split; [apply timestampOf_valid|].
  unfold toIngestionEvent. rewrite Hu, Hq, Hp, Ht. cbn -[timestampOf]. eexists. split; [done|]. split; [done|].
  intros Hts%wrap_err_Ok%CheckValid_range. unfold transactionEventToIngestionEvent, protoOf. cbn -[timestampOf]. rewrite Hu, Hsd. cbn -[timestampOf].
  rewrite AsTime_instant by done. unfold inUTC. cbn -[Z.div Z.modulo]. do 3 f_equal.
  pose proof (Z.div_mod (instant t) Second ltac:(done)). lia.
Qed.

Lemma handler_cases {W} `{!Publisher W} body (w : W) :
  let '(rsp, w') := transactionHandler body w in
  match rsp.1 with
  | 202 => ∃ ev rest e, decodeNext requestFields body zeroRequest = Ok (ev, rest) ∧ validate ev = Ok tt ∧
      toIngestionEvent ev = Ok e ∧ Publish e w = (Ok tt, w')
  | 503 => ∃ ev rest e err, decodeNext requestFields body zeroRequest = Ok (ev, rest) ∧ validate ev = Ok tt ∧
      toIngestionEvent ev = Ok e ∧ Publish e w = (Err err, w')
  | 400 => w' = w
  | _ => False
  end.
Proof.
  unfold transactionHandler. destruct (Nat.ltb _ _); [done|].
  destruct (decodeNext _ body _) as [[ev off]|]; [|done]. destruct (negb _); [done|].
  destruct (validate ev) as [[]|] eqn:Hv; [|done]. destruct (toIngestionEvent ev) as [e|] eqn:He; [|done].
  destruct (Publish e w) as [[[]|err] w'] eqn:Hp; cbn.
  - by exists ev, off, e.
  - by exists ev, off, e, err.
Qed.

(** The trailing bytes isJSONWhitespace accepts are those json.Unmarshal skips. *)
Lemma isJSONWhitespace_skipped s : isJSONWhitespace s = true ↔ skipSpace s = "".
Proof.
  assert (∀ c, isSpace c = ((byte c =? 32) || (byte c =? 9) || (byte c =? 13) || (byte c =? 10))) as Hc.
  { intros [[] [] [] [] [] [] [] []]; vm_compute; reflexivity. }
  unfold isJSONWhitespace. induction s as [|c s IH]; [done|]. cbn [skipSpace string_forallb]. rewrite Hc, andb_true_iff, IH.
  destruct (_ || _); [naive_solver|]. split; [by intros [? _]|done].
Qed.

(** A body the handler takes: at most maxTransactionEventBytes bytes that
    json.Unmarshal reads as one event, which validates and converts to [e]. *)
Definition acceptable (body : string) (e : Event) : Prop :=
  (String.length body ≤ maxTransactionEventBytes)%nat ∧
  ∃ ev, unmarshalStruct requestFields body zeroRequest = Ok ev ∧ validate ev = Ok tt ∧ toIngestionEvent ev = Ok e.

Lemma decodeNext_document body ev : unmarshalStruct requestFields body zeroRequest = Ok ev ↔
  ∃ trailing, decodeNext requestFields body zeroRequest = Ok (ev, trailing) ∧ isJSONWhitespace trailing = true.
Proof.
  unfold unmarshalStruct, decodeNext, readDocument. setoid_rewrite isJSONWhitespace_skipped.
  destruct (nextValue body) as [[v rest]|]; cbn; [|split; [done|by intros (? & ? & _)]].
  destruct (skipSpace rest) as [|c t] eqn:Es; destruct (stored _) as [x|e]; cbn; split; try done;
    try (by intros (? & ? & _)); try (intros [= ->]; by exists rest).
  - by intros (? & [= -> _] & _).
  - intros (? & [= -> <-] & ?). congruence.
Qed.

(** C34. What the REST handler answers: for a body within the size limit that is, as
    a whole, one JSON event which validates, it publishes exactly the event's
    conversion and answers 202 if Publish returned nil and 503 if not; for any
    other body it answers 400 and leaves the publisher alone. *)
Theorem handler_acknowledges_publishes {W} `{!Publisher W} body (w : W) :
  (∀ e, acceptable body e →
   transactionHandler body w =
     (match (Publish e w).1 with
      | Ok _ => (StatusAccepted, None)
      | Err _ => (StatusServiceUnavailable, Some (Errorf "failed to publish transaction event"))
      end, (Publish e w).2)) ∧
  ((∀ e, ¬ acceptable body e) → ∃ err, transactionHandler body w = ((StatusBadRequest, Some err), w)).
Proof.
  unfold transactionHandler, acceptable. setoid_rewrite decodeNext_document. split.
  - intros e (Hlen & ev & (trailing & Hd & Hw) & Hv & He).
    destruct (Nat.ltb_spec maxTransactionEventBytes (String.length body)); [lia|].
    rewrite Hd, Hw, Hv, He. cbn. by destruct (Publish e w) as [[]].
  - intros Hno. destruct (Nat.ltb_spec maxTransactionEventBytes (String.length body)); [by eexists|].
    destruct (decodeNext requestFields body zeroRequest) as [[ev trailing]|]; [|by eexists].
    destruct (isJSONWhitespace trailing) eqn:Hw; cbn; [|by eexists].
    destruct (validate ev) as [[]|] eqn:Hv; [|by eexists].
    destruct (toIngestionEvent ev) as [e|] eqn:He; [|by eexists]. exfalso. apply (Hno e). eauto 10.
Qed.
End guarantees.

(** ** Authentication *)
Lemma validateToken_fold keys token m : (m = 0 ∨ m = 1) →
  fold_left (λ m key, Z.lor m (ConstantTimeCompare token key)) keys m =
    if bool_decide (token ∈ keys) then 1 else m.
Proof.
  revert m. induction keys as [|key keys IH]; intros m Hm; cbn [fold_left].
  - by rewrite bool_decide_eq_false_2 by (by intros ?%elem_of_nil).
  - destruct (decide (token = key)) as [->|Hne].
    + replace (ConstantTimeCompare key key) with 1 by (unfold ConstantTimeCompare; by rewrite bool_decide_eq_true_2).
      rewrite (bool_decide_eq_true_2 (key ∈ key :: keys)) by apply list_elem_of_here.
      replace (Z.lor m 1) with 1 by (by destruct Hm; subst). rewrite IH by auto. by case_bool_decide.
    + replace (ConstantTimeCompare token key) with 0
        by (unfold ConstantTimeCompare; by rewrite bool_decide_eq_false_2).
      rewrite Z.lor_0_r, IH by done.
      rewrite (bool_decide_ext (token ∈ key :: keys) (token ∈ keys)); [done|].
      rewrite elem_of_cons. naive_solver.
Qed.

(** The fixed-time check over every key decides exactly membership: a token is
    accepted if and only if it is one of the configured keys. *)
Theorem validateToken_correct keys token : validateToken keys token = true ↔ token ∈ keys.
Proof.
  unfold validateToken. rewrite validateToken_fold by auto. by case_bool_decide; cbn.
Qed.

Lemma validateToken_elem keys token : validateToken keys token = true → token ∈ keys.
Proof. unfold validateToken. rewrite validateToken_fold by auto. by case_bool_decide; cbn. Qed.

Lemma newAPIKeyAuthenticator_keys keys validKeys : newAPIKeyAuthenticator keys = Ok validKeys →
  validKeys = keys ∧ Forall (λ k, k ≠ "") keys.
Proof.
  unfold newAPIKeyAuthenticator. destruct (Nat.eqb _ _); [done|].
  destruct (existsb _ _) eqn:E; [done|]. intros [= <-]. split; [done|]. revert E.
  induction keys as [|k keys IH]; cbn; [constructor|]. rewrite orb_false_iff. intros [Hk Hks].
  bool_props. constructor; auto.
Qed.

(** Nothing gets past authentication: with keys the constructor accepts, a
    REST request whose header is not "Bearer " and a configured key is answered
    401 with the rest of the stack never run; a gRPC request other than a health
    check passes the interceptors only with such a header; and no configured key
    is empty. *)
Theorem authenticated_only keys validKeys {W} (next : W → Response * W) header (w : W)
    now method meta limiter limiter' :
  newAPIKeyAuthenticator keys = Ok validKeys →
  Forall (λ k, k ≠ "") keys ∧
  ((∀ key, header = "Bearer " +:+ key → key ∉ keys) →
   authMiddleware validKeys next header w =
     ((StatusUnauthorized, Some (Errorf "missing or invalid bearer token")), w)) ∧
  (interceptors validKeys now method meta limiter = (None, limiter') →
   CutPrefix method healthCheckServicePrefix = None →
   ∃ key rest, meta = Some (("Bearer " +:+ key) :: rest) ∧ key ∈ keys).
Proof.
  intros [-> Hne]%newAPIKeyAuthenticator_keys. split; [done|]. split.
  - intros Hno. unfold authMiddleware, bearerToken.
    destruct (CutPrefix header "Bearer ") as [token|] eqn:Hc; [|done]. apply CutPrefix_Some in Hc.
    destruct (validateToken keys token) eqn:Hv; [|done]. apply validateToken_elem in Hv. by apply Hno in Hc.
  - unfold interceptors, authenticate, bearerTokenFromContext, bearerToken. intros H Hm. rewrite Hm in H.
    destruct meta as [[|v rest]|]; [done| |done].
    destruct (CutPrefix v "Bearer ") as [token|] eqn:Hc; [|done].
    apply CutPrefix_Some in Hc. destruct (validateToken keys token) eqn:Hv; [|done].
    apply validateToken_elem in Hv. exists token, rest. by rewrite Hc.
Qed.

(** ** The sharded limiter is one bucket per key *)

Definition bucketOf (limiter : rateLimiter) (key : string) : option tokenBucket :=
  default ∅ (shards limiter !! shardIndex key) !! key.

(** The reference: a single map of buckets. *)
Definition flatAllow (rate burst : spec_float) (now : Z) (key : string) (buckets : gmap string tokenBucket)
    : bool * gmap string tokenBucket :=
  match buckets !! key with
  | Some bucket => let '(ok, bucket) := bucketAllow rate burst now bucket in (ok, <[key := bucket]> buckets)
  | None => (true, <[key := {| tokens := f64_sub burst f64_one; lastRefill := now |}]> buckets)
  end.

Definition shard_sim (limiter : rateLimiter) (buckets : gmap string tokenBucket) : Prop :=
  ∀ key, bucketOf limiter key = buckets !! key.

Lemma bucketOf_insert limiter key bucket key' :
  bucketOf {| rate := rate limiter; burst := burst limiter;
              shards := <[shardIndex key := <[key := bucket]> (default ∅ (shards limiter !! shardIndex key))]>
                          (shards limiter) |} key' =
  if decide (key' = key) then Some bucket else bucketOf limiter key'.
Proof.
  unfold bucketOf. cbn. destruct (decide (shardIndex key' = shardIndex key)) as [E|E].
  - rewrite E, lookup_insert_eq. cbn. destruct (decide (key' = key)) as [->|Hne].
    + by rewrite lookup_insert_eq.
    + by rewrite lookup_insert_ne.
  - rewrite lookup_insert_ne by done. destruct (decide (key' = key)) as [->|]; done.
Qed.

Lemma limiterAllow_sim now key limiter buckets : shard_sim limiter buckets →
  let '(ok, limiter') := limiterAllow now key limiter in
  let '(ok', buckets') := flatAllow (rate limiter) (burst limiter) now key buckets in
  ok = ok' ∧ shard_sim limiter' buckets' ∧ rate limiter' = rate limiter ∧ burst limiter' = burst limiter.
Proof.
  intros Hsim. pose proof (Hsim key) as Hk. unfold limiterAllow, flatAllow. unfold bucketOf in Hk.
  destruct (default ∅ (shards limiter !! shardIndex key) !! key) as [b|]; rewrite <-Hk.
  - destruct (bucketAllow _ _ _ b) as [ok b']. split_and!; try done. intros key'.
    rewrite bucketOf_insert. destruct (decide (key' = key)) as [->|]; [by rewrite lookup_insert_eq|].
    by rewrite lookup_insert_ne.
  - split_and!; try done. intros key'. rewrite bucketOf_insert.
    destruct (decide (key' = key)) as [->|]; [by rewrite lookup_insert_eq|]. by rewrite lookup_insert_ne.
Qed.

(** The decisions over a sequence of (instant, key) requests. *)
Fixpoint limiterRun (reqs : list (Z * string)) (limiter : rateLimiter) : list bool :=
  match reqs with
  | [] => []
  | (now, key) :: reqs => let '(ok, limiter) := limiterAllow now key limiter in ok :: limiterRun reqs limiter
  end.

Fixpoint flatRun (rate burst : spec_float) (reqs : list (Z * string)) (buckets : gmap string tokenBucket)
    : list bool :=
  match reqs with
  | [] => []
  | (now, key) :: reqs =>
      let '(ok, buckets) := flatAllow rate burst now key buckets in ok :: flatRun rate burst reqs buckets
  end.

(** Sharding is invisible: for every sequence of requests, the 64-shard limiter
    takes exactly the decisions of one map with one bucket per key, so keys whose
    hashes collide never spend each other's tokens. *)
Theorem sharding_invisible rps b limiter reqs :
  newRateLimiter rps b = Ok limiter →
  limiterRun reqs limiter = flatRun rps (f64_of_Z b) reqs ∅.
Proof.
  intros Hnew. assert (rate limiter = rps ∧ burst limiter = f64_of_Z b ∧ shards limiter = ∅) as (<- & <- & Hsh).
  { unfold newRateLimiter in Hnew. destruct (SFleb _ _); [done|]. destruct (b <=? 0); [done|].
    by injection Hnew as <-. }
  assert (shard_sim limiter ∅) as Hsim.
  { intros key. unfold bucketOf. by rewrite Hsh, lookup_empty. }
  clear Hnew Hsh. revert limiter Hsim. generalize (∅ : gmap string tokenBucket).
  induction reqs as [|[now key] reqs IH]; intros buckets limiter Hsim; cbn; [done|].
  pose proof (limiterAllow_sim now key limiter buckets Hsim) as H.
  destruct (limiterAllow now key limiter) as [ok limiter'].
  destruct (flatAllow _ _ now key buckets) as [ok' buckets'].
  destruct H as (-> & Hsim' & <- & <-). by rewrite (IH buckets').
Qed.

(** ** Witnesses *)
#[local] Existing Instance plainCodec.

Definition sampleUUID : string := "0123456789abcdef".

Definition sampleRequest : TransactionEventRequest :=
  {| qEventID := hex sampleUUID; qTenantID := "acme-1"; qInstrument := "BRK.B"; qSide := "SELL";
     qQuantity := "12.5"; qPrice := "1e3"; qCurrency := "USD"; qOccurredAt := "1970-01-01T00:00:00.000000007Z" |}.

Definition sampleEvent : Event :=
  {| eEventID := sampleUUID; eTenantID := "acme-1"; eSchemaVersion := 1; eInstrument := "BRK.B";
     eSide := SideSell; eQuantity := 1250000000; ePrice := 100000000000; eCurrency := "USD"; eOccurredAt := UTC 7 |}.

Lemma validate_converts_witness : ∃ e, toIngestionEvent sampleRequest = Ok e ∧ admissible e.
Proof.
  apply (validate_converts (Cl := plainCodecLaws)). vm_compute. reflexivity.
Defined.

Lemma transports_agree_witness :
  validateTransactionEvent (protoOf sampleRequest 1250000000 100000000000 (UTC 7)) = Ok tt ∧
  ∃ e, toIngestionEvent sampleRequest = Ok e ∧
    transactionEventToIngestionEvent (protoOf sampleRequest 1250000000 100000000000 (UTC 7)) = Ok (inUTC e).
Proof.
  destruct (transports_agree (Cl := plainCodecLaws) sampleRequest 1250000000 100000000000 (UTC 7))
    as ([_ Hv] & e & He & _ & Hc); [vm_compute; reflexivity..|].
  assert (validateTransactionEvent (protoOf sampleRequest 1250000000 100000000000 (UTC 7)) = Ok tt) as H
    by (apply Hv; vm_compute; split; [discriminate|reflexivity]).
  split; [exact H|]. exists e. split; [exact He|]. exact (Hc H).
Defined.

(** Outside these years they part, although the gRPC validator is documented to mirror
    the REST one. *)
Definition yearZero : TransactionEventRequest :=
  {| qEventID := hex sampleUUID; qTenantID := "acme-1"; qInstrument := "BRK.B"; qSide := "SELL";
     qQuantity := "12.5"; qPrice := "1e3"; qCurrency := "USD"; qOccurredAt := "0000-06-01T00:00:00Z" |}.

Example year_zero_parts : validate yearZero = Ok tt ∧
  match parse_RFC3339 (qOccurredAt yearZero) with
  | Ok t => failed (validateTransactionEvent (protoOf yearZero 1250000000 100000000000 t)) = true
  | Err _ => False
  end.
Proof. vm_compute. split; reflexivity. Qed.

Lemma authenticated_only_witness :
  authMiddleware ["k1"; "k2"] (λ w, ((StatusAccepted, None), w)) "Bearer k3" tt =
    ((StatusUnauthorized, Some (Errorf "missing or invalid bearer token")), tt).
Proof.
  refine (proj1 (proj2 (authenticated_only ["k1"; "k2"] ["k1"; "k2"]
    (λ w, ((StatusAccepted, None), w)) "Bearer k3" tt 0 "" None
    {| rate := f64_one; burst := f64_one; shards := ∅ |}
    {| rate := f64_one; burst := f64_one; shards := ∅ |} eq_refl)) _).
  intros key E. assert (key = "k3") as -> by (vm_compute in E; congruence).
  rewrite !elem_of_cons, elem_of_nil. intros [|[|]]; done.
Defined.

Lemma sharding_invisible_witness :
  limiterRun [(0, "a"); (0, "a"); (0, "b"); (0, "a")] {| rate := f64_one; burst := f64_of_Z 2; shards := ∅ |}
  = flatRun f64_one (f64_of_Z 2) [(0, "a"); (0, "a"); (0, "b"); (0, "a")] ∅.
Proof. apply sharding_invisible. vm_compute. reflexivity. Defined.
