(* ===== verification/RateBound.v ===== *)
(** * What the rate limiter admits (internal/api/rate_limiter.go)

    The token buckets of Api compute in float64.  Where the configured rate is an
    integer and requests fall on whole seconds, every value is an integer a float64
    holds, and the limiter takes exactly the decisions of an integer token bucket
    per key.  The theorems: that refinement, the number of requests a key gets through
    in a window of time, and that its first burst is never throttled. *)
From Stdlib Require Import SpecFloat.
From S2P Require Import Prelude GoTime FloatInts CoreBreaker Api.

(** ** Float arithmetic on whole seconds *)
Lemma f64_min_int a b : 0 ≤ a < 2 ^ 53 → 0 ≤ b < 2 ^ 53 → f64_min (f64_of_Z a) (f64_of_Z b) = f64_of_Z (Z.min a b).
Proof.
  intros Ha Hb. assert (f64_min (f64_of_Z a) (f64_of_Z b) = if b <? a then f64_of_Z b else f64_of_Z a) as ->.
  { rewrite <-ltb_int by done. unfold f64_min.
    destruct a as [|a|]; [|destruct (f64_of_pos a ltac:(lia)) as (? & ? & -> & _)|lia];
      (destruct b as [|b|]; [done|by destruct (f64_of_pos b ltac:(lia)) as (? & ? & -> & _)|lia]). }
  destruct (Z.ltb_spec b a); f_equal; lia.
Qed.

Lemma Seconds_whole g : 0 ≤ g < 2 ^ 53 → Seconds (g * Second) = f64_of_Z g.
Proof.
  intros Hg. unfold Seconds. rewrite Z.quot_mul, Z.rem_mul by done.
  change (f64_div (f64_of_Z 0) (f64_of_Z Second)) with (f64_of_Z 0). unfold f64_add. rewrite add_int by lia. f_equal. lia.
Qed.

(** ** The reference: integer tokens, counted in seconds *)
Record account := { available : Z; updated : Z }.

Section limiter.
Context (r b : Z).

(** The tokens of a key at second [s]; a key not seen yet has the whole burst. *)
Definition tokensAt (s : Z) (a : option account) : Z :=
  match a with Some a => Z.min b (available a + (s - updated a) * r) | None => b end.

Definition refAllow (s : Z) (a : option account) : bool * account :=
  let t := tokensAt s a in
  if t <? 1 then (false, {| available := t; updated := s |}) else (true, {| available := t - 1; updated := s |}).

Fixpoint refRun (reqs : list (Z * string)) (accounts : gmap string account) : list bool :=
  match reqs with
  | [] => []
  | (s, key) :: reqs =>
      let '(ok, a) := refAllow s (accounts !! key) in ok :: refRun reqs (<[key := a]> accounts)
  end.

(** Requests at seconds that do not decrease, from [lo] to [hi]. *)
Fixpoint chronological (lo : Z) (reqs : list (Z * string)) (hi : Z) : Prop :=
  match reqs with
  | [] => lo ≤ hi
  | (s, _) :: reqs => lo ≤ s ∧ chronological s reqs hi
  end.

(** The requests of [key] that were admitted. *)
Fixpoint admittedOf (key : string) (reqs : list (Z * string)) (decisions : list bool) : Z :=
  match reqs, decisions with
  | (_, key') :: reqs, ok :: decisions =>
      (if bool_decide (key' = key) && ok then 1 else 0) + admittedOf key reqs decisions
  | _, _ => 0
  end.

Fixpoint requestsOf (key : string) (reqs : list (Z * string)) : Z :=
  match reqs with
  | [] => 0
  | (_, key') :: reqs => (if bool_decide (key' = key) then 1 else 0) + requestsOf key reqs
  end.

Lemma chronological_le lo reqs hi : chronological lo reqs hi → lo ≤ hi.
Proof.
  revert lo. induction reqs as [|[s key] reqs IH]; intros lo; cbn; [done|]. intros [? ?%IH]. lia.
Qed.

Lemma chronological_app lo before window hi : chronological lo (before ++ window) hi →
  ∃ mid, chronological lo before mid ∧ chronological mid window hi.
Proof.
  revert lo. induction before as [|[s key] before IH]; intros lo; cbn; [intros H; exists lo; split; [lia|done]|].
  intros [? (mid & ? & ?)%IH]. by exists mid.
Qed.

Lemma refRun_length reqs accounts : length (refRun reqs accounts) = length reqs.
Proof.
  revert accounts. induction reqs as [|[s key] reqs IH]; intros accounts; cbn; [done|].
  destruct (refAllow s (accounts !! key)). cbn. by rewrite IH.
Qed.

(** *** Its bounds *)
Context (Hr : 0 < r) (Hb : 0 < b).

(** An account in order at [s]. *)
Definition account_ok (lo s : Z) (a : account) : Prop := 0 ≤ available a ≤ b ∧ lo ≤ updated a ≤ s.
Definition accounts_ok (lo s : Z) (accounts : gmap string account) : Prop := map_Forall (λ _, account_ok lo s) accounts.

Lemma tokensAt_range lo s a : (∀ x, a = Some x → account_ok lo s x) → 0 ≤ tokensAt s a ≤ b.
Proof. destruct a as [x|]; cbn; [intros H; destruct (H x eq_refl); nia|lia]. Qed.

Lemma refAllow_spec lo s a : lo ≤ s → (∀ x, a = Some x → account_ok lo s x) →
  account_ok lo s (refAllow s a).2 ∧
  tokensAt s (Some (refAllow s a).2) = tokensAt s a - (if (refAllow s a).1 then 1 else 0) ∧
  (1 ≤ tokensAt s a → (refAllow s a).1 = true).
Proof.
  intros Hs Ha. pose proof (tokensAt_range lo s a Ha) as Ht. unfold refAllow.
  destruct (Z.ltb_spec (tokensAt s a) 1); unfold account_ok; cbn; rewrite Z.sub_diag; lia.
Qed.

Lemma tokensAt_later lo s s' a : (∀ x, a = Some x → account_ok lo s x) → s ≤ s' →
  tokensAt s a ≤ tokensAt s' a ≤ tokensAt s a + r * (s' - s).
Proof. intros Ha Hs. destruct a as [x|]; cbn; [destruct (Ha x eq_refl)|]; nia. Qed.

Lemma accounts_later lo s s' accounts : accounts_ok lo s accounts → s ≤ s' → accounts_ok lo s' accounts.
Proof. intros H Hs key a Ha. destruct (H key a Ha) as [? ?]. split; [done|lia]. Qed.

Lemma accounts_lookup lo s accounts key : accounts_ok lo s accounts → ∀ x, accounts !! key = Some x → account_ok lo s x.
Proof. intros H x Hx. by eapply (H key). Qed.

Lemma accounts_step lo s s' key accounts : accounts_ok lo s accounts → lo ≤ s → s ≤ s' →
  accounts_ok lo s' (<[key := (refAllow s' (accounts !! key)).2]> accounts).
Proof.
  intros H Hlo Hs. pose proof (accounts_later lo s s' accounts H Hs) as H'. apply map_Forall_insert_2; [|done].
  apply (refAllow_spec lo s'); [lia|by eapply accounts_lookup].
Qed.

Lemma admitted_potential lo s hi reqs accounts key : accounts_ok lo s accounts → lo ≤ s → chronological s reqs hi →
  admittedOf key reqs (refRun reqs accounts) ≤ tokensAt s (accounts !! key) + r * (hi - s).
Proof.
  revert s accounts. induction reqs as [|[s' key'] reqs IH]; intros s accounts Hok Hlo; cbn.
  { intros Hh. pose proof (tokensAt_range lo s (accounts !! key) (accounts_lookup lo s accounts key Hok)). nia. }
  intros [Hs Hc]. pose proof (accounts_step lo s s' key' accounts Hok Hlo Hs) as Hok'.
  pose proof (accounts_lookup lo s' accounts key' (accounts_later lo s s' accounts Hok Hs)) as Hl.
  destruct (refAllow_spec lo s' (accounts !! key') ltac:(lia) Hl) as (_ & Htok & _).
  destruct (refAllow s' (accounts !! key')) as [ok a]. cbn [fst snd] in *.
  specialize (IH s' _ Hok' ltac:(lia) Hc).
  pose proof (tokensAt_later lo s s' (accounts !! key) (accounts_lookup lo s accounts key Hok) Hs) as Hlater.
  case_bool_decide as E; [subst key'; rewrite lookup_insert_eq in IH|rewrite lookup_insert_ne in IH by done]; cbn [andb].
  - destruct ok; nia.
  - nia.
Qed.

(** A key with tokens for all its requests is never refused. *)
Lemma admitted_all lo s hi reqs accounts key : accounts_ok lo s accounts → lo ≤ s → chronological s reqs hi →
  requestsOf key reqs ≤ tokensAt s (accounts !! key) →
  admittedOf key reqs (refRun reqs accounts) = requestsOf key reqs.
Proof.
  revert s accounts. induction reqs as [|[s' key'] reqs IH]; intros s accounts Hok Hlo; cbn; [done|].
  intros [Hs Hc] Hn. pose proof (accounts_step lo s s' key' accounts Hok Hlo Hs) as Hok'.
  pose proof (accounts_lookup lo s' accounts key' (accounts_later lo s s' accounts Hok Hs)) as Hl.
  destruct (refAllow_spec lo s' (accounts !! key') ltac:(lia) Hl) as (_ & Htok & Hone).
  destruct (refAllow s' (accounts !! key')) as [ok a]. cbn [fst snd] in *.
  pose proof (tokensAt_later lo s s' (accounts !! key) (accounts_lookup lo s accounts key Hok) Hs) as Hlater.
  assert (0 ≤ requestsOf key reqs) as H0.
  { clear. induction reqs as [|[? k] reqs IH]; cbn; [done|]. case_bool_decide; lia. }
  specialize (IH s' _ Hok' ltac:(lia) Hc).
  case_bool_decide as E; [subst key'; rewrite lookup_insert_eq in IH|rewrite lookup_insert_ne in IH by done]; cbn [andb].
  - rewrite (Hone ltac:(lia)) in *. cbn [andb]. rewrite IH; lia.
  - rewrite IH; lia.
Qed.
End limiter.

(** ** The limiter refines the reference *)

(** Second [s] of the model as an instant. *)
Definition instants (origin : Z) (reqs : list (Z * string)) : list (Z * string) :=
  (λ '(s, key), (origin + s * Second, key)) <$> reqs.

Definition bucketFor (origin : Z) (a : account) : tokenBucket :=
  {| tokens := f64_of_Z (available a); lastRefill := origin + updated a * Second |}.

Section refinement.
Context (r b origin lo hi : Z) (Hr : 0 < r) (Hb : 0 < b).
Context (Hr53 : r < 2 ^ 53) (Hfits : b + r * (hi - lo) < 2 ^ 53) (Hspan : (hi - lo) * Second ≤ MaxInt64).

Lemma time_Sub_whole s a : lo ≤ updated a ≤ s → s ≤ hi →
  time_Sub (origin + s * Second) (lastRefill (bucketFor origin a)) = (s - updated a) * Second.
Proof.
  intros Hu Hs. unfold time_Sub, bucketFor. cbn [lastRefill].
  replace (origin + s * Second - (origin + updated a * Second)) with ((s - updated a) * Second) by lia.
  unfold MinInt64, MaxInt64, Second in *. by repeat (case_match; bool_props; [lia|]).
Qed.

Lemma bucketAllow_int s a : account_ok b lo s a → s ≤ hi →
  bucketAllow (f64_of_Z r) (f64_of_Z b) (origin + s * Second) (bucketFor origin a) =
  ((refAllow r b s (Some a)).1, bucketFor origin (refAllow r b s (Some a)).2).
Proof.
  intros [Ha Hu] Hs. assert (0 ≤ (s - updated a) * r ≤ r * (hi - lo)) as Hrefill by nia.
  assert (0 ≤ s - updated a < 2 ^ 53) as Hgap by nia.
  unfold bucketAllow. rewrite (time_Sub_whole s a Hu Hs), Seconds_whole by done.
  unfold f64_mul, f64_add, f64_sub, f64_one. cbn [tokens bucketFor]. rewrite mul_int, add_int, f64_min_int by lia.
  unfold refAllow, tokensAt. set (t := Z.min b (available a + (s - updated a) * r)).
  assert (0 ≤ t < 2 ^ 53) as Ht by lia. rewrite ltb_int by lia. destruct (Z.ltb_spec t 1); [done|].
  cbn [fst snd]. by rewrite sub_int by lia.
Qed.

Lemma flatAllow_int s key accounts : accounts_ok b lo s accounts → lo ≤ s ≤ hi →
  flatAllow (f64_of_Z r) (f64_of_Z b) (origin + s * Second) key (bucketFor origin <$> accounts) =
  ((refAllow r b s (accounts !! key)).1, bucketFor origin <$> <[key := (refAllow r b s (accounts !! key)).2]> accounts).
Proof.
  intros Hok Hs. unfold flatAllow. rewrite lookup_fmap, fmap_insert. destruct (accounts !! key) as [a|] eqn:E; cbn [fmap option_fmap option_map].
  - rewrite bucketAllow_int; [done| |lia]. by eapply (Hok key).
  - unfold refAllow, tokensAt. destruct (Z.ltb_spec b 1); [lia|]. cbn [fst snd]. unfold f64_sub, f64_one.
    by rewrite sub_int by nia.
Qed.

Lemma limiterRun_int s reqs accounts limiter :
  rate limiter = f64_of_Z r → burst limiter = f64_of_Z b → shard_sim limiter (bucketFor origin <$> accounts) →
  accounts_ok b lo s accounts → lo ≤ s → chronological s reqs hi →
  limiterRun (instants origin reqs) limiter = refRun r b reqs accounts.
Proof.
  revert s accounts limiter. induction reqs as [|[s' key] reqs IH]; intros s accounts limiter Hrate Hburst Hsim Hok Hlo; cbn; [done|].
  intros [Hs Hc]. pose proof (chronological_le _ _ _ Hc) as Hh.
  pose proof (limiterAllow_sim (origin + s' * Second) key limiter _ Hsim) as H.
  rewrite Hrate, Hburst, (flatAllow_int s' key accounts (accounts_later b lo s s' accounts Hok Hs) ltac:(lia)) in H.
  pose proof (accounts_step r b Hr Hb lo s s' key accounts Hok Hlo Hs) as Hok'.
  destruct (limiterAllow (origin + s' * Second) key limiter) as [ok limiter'].
  destruct (refAllow r b s' (accounts !! key)) as [ok' a]. cbn [fst snd] in *. destruct H as (-> & Hsim' & Hrate' & Hburst').
  f_equal. apply (IH s'); [congruence|congruence|done|done|lia|done].
Qed.

Lemma newRateLimiter_empty rps limiter : newRateLimiter rps b = Ok limiter →
  rate limiter = rps ∧ burst limiter = f64_of_Z b ∧ shard_sim limiter (bucketFor origin <$> ∅).
Proof.
  unfold newRateLimiter. destruct (SFleb _ _); [done|]. destruct (b <=? 0); [done|]. intros [= <-].
  split; [done|]. split; [done|]. intros key. unfold bucketOf. cbn. by rewrite fmap_empty, !lookup_empty.
Qed.

Lemma limiterRun_ref limiter reqs : newRateLimiter (f64_of_Z r) b = Ok limiter → chronological lo reqs hi →
  limiterRun (instants origin reqs) limiter = refRun r b reqs ∅.
Proof.
  intros (Hrate & Hburst & Hsim)%newRateLimiter_empty Hc. apply (limiterRun_int lo); [done..| |lia|done]. apply map_Forall_empty.
Qed.
End refinement.

Lemma refRun_app r b before window accounts : ∃ accounts',
  refRun r b (before ++ window) accounts = refRun r b before accounts ++ refRun r b window accounts' ∧
  ∀ lo s mid, 0 < r → 0 < b → accounts_ok b lo s accounts → lo ≤ s → chronological s before mid → accounts_ok b lo mid accounts'.
Proof.
  revert accounts. induction before as [|[s key] before IH]; intros accounts; cbn.
  { exists accounts. split; [done|]. intros lo s mid _ _ Hok _ Hs. by eapply accounts_later. }
  destruct (refAllow r b s (accounts !! key)) as [ok a] eqn:E. destruct (IH (<[key := a]> accounts)) as (accounts' & -> & H).
  exists accounts'. split; [done|]. intros lo s0 mid Hr Hb Hok Hlo [Hs Hc]. apply (H lo s); [done|done| |lia|done].
  pose proof (accounts_step r b Hr Hb lo s0 s key accounts Hok Hlo Hs) as Ha. by rewrite E in Ha.
Qed.

(** C40. The rate limiter is a token bucket: with an integer rate, and requests of any
    number of keys on whole seconds, its float64 buckets take exactly the decisions
    of integer ones, as long as burst + rate * span is below 2^53.  So, in any window
    of any such history, a key is admitted at most burst + rate * seconds times, and
    a key with at most burst requests is never refused. *)
Theorem limiter_admits r b origin lo hi limiter before window from to key :
  newRateLimiter (f64_of_Z r) b = Ok limiter → 0 < r < 2 ^ 53 → 0 < b →
  b + r * (hi - lo) < 2 ^ 53 → (hi - lo) * Second ≤ MaxInt64 →
  chronological lo (before ++ window) hi → chronological from window to →
  let decisions := limiterRun (instants origin (before ++ window)) limiter in
  decisions = refRun r b (before ++ window) ∅ ∧
  admittedOf key window (drop (length before) decisions) ≤ b + r * (to - from) ∧
  (requestsOf key (before ++ window) ≤ b → admittedOf key (before ++ window) decisions = requestsOf key (before ++ window)).
Proof.
  intros Hnew [Hr Hr53] Hb Hfits Hspan Hall Hwin decisions.
  assert (decisions = refRun r b (before ++ window) ∅) as -> by by eapply limiterRun_ref. split; [done|].
  split; [|intros Hn; apply (admitted_all r b Hr Hb lo lo hi); [apply map_Forall_empty|lia|done|by rewrite lookup_empty]].
  destruct (refRun_app r b before window ∅) as (accounts & -> & Hok).
  rewrite drop_app_length' by (symmetry; apply refRun_length).
  destruct (chronological_app lo before window hi Hall) as (mid & Hbefore & Hmid).
  pose proof (Hok lo lo mid Hr Hb ltac:(apply map_Forall_empty) ltac:(lia) Hbefore) as Hacc. pose proof (chronological_le _ _ _ Hbefore).
  pose proof (chronological_le _ _ _ Hwin). destruct window as [|[s key'] window]; [cbn; nia|].
  destruct Hmid as [Hms _], Hwin as [Hfs Hwin]. pose proof (accounts_later b lo mid s accounts Hacc Hms) as Hacc'.
  pose proof (admitted_potential r b Hr Hb lo s to ((s, key') :: window) accounts key Hacc' ltac:(lia) ltac:(by split)) as Hpot.
  pose proof (tokensAt_range r b Hr Hb lo s (accounts !! key) (accounts_lookup b lo s accounts key Hacc')). nia.
Qed.

(** ** A witness: bursts of two keys, four requests per second *)
Definition sampleWindow : list (Z * string) := [(7, "k1"); (7, "k1"); (7, "k2"); (8, "k1"); (8, "k1"); (8, "k1"); (8, "k1"); (8, "k1")].

Lemma limiter_admits_witness : ∃ limiter,
  newRateLimiter (f64_of_Z 2) 3 = Ok limiter ∧
  drop 2 (limiterRun (instants 5 ([(0, "k1"); (7, "k1")] ++ sampleWindow)) limiter) =
    [true; true; true; true; true; false; false; false] ∧
  admittedOf "k1" sampleWindow (drop 2 (limiterRun (instants 5 ([(0, "k1"); (7, "k1")] ++ sampleWindow)) limiter)) ≤ 3 + 2 * (8 - 7).
Proof.
  eexists. split; [reflexivity|]. split; [vm_compute; reflexivity|].
  refine (proj1 (proj2 (limiter_admits 2 3 5 0 8 _ [(0, "k1"); (7, "k1")] sampleWindow 7 8 "k1" eq_refl _ _ _ _ _ _))).
  - lia.
  - lia.
  - lia.
  - vm_compute. congruence.
  - cbn. lia.
  - cbn. lia.
Defined.

(** At one instant a key gets its burst through and no more. *)
Example burst_at_once :
  match newRateLimiter (f64_of_Z 100) 4 with
  | Ok limiter => limiterRun (instants 0 (replicate 6 (3, "k1"))) limiter = [true; true; true; true; false; false]
  | Err _ => False
  end.
Proof. vm_compute. reflexivity. Qed.
