(* ===== verification/Pools.v ===== *)
(** * The REST handler over its sync.Pools (internal/api/transaction_handler.go)

    newTransactionHandler with the four pools it draws on, request buffers, readers,
    event structs and response codecs, as the segments between the points where it
    touches them, so that any number of requests interleave ([pool_step]).  A Get
    returns any pooled value or a new one; values may also vanish from a pool.  The
    theorem: requests cannot tell; each is answered as by [freshHandler], which
    uses new buffers and a zero struct for every request. *)
From S2P Require Import Prelude GoStrings GoJson GoUnmarshal GoCalendar Ledger Wire Ingestion Api.

(** sync.Pool.Get: the value at [pick] if there is one, else New's. *)
Definition pool_get {A} (new : A) (pick : nat) (pool : list A) : A * list A :=
  match pool !! pick with Some a => (a, delete pick pool) | None => (new, pool) end.

(** Buffers are the bytes in them; a reader, those it still reads. *)
Record Pools := {
  transactionBodyPool : list string;
  transactionReaderPool : list string;
  transactionEventPool : list TransactionEventRequest;
  jsonResponsePool : list string
}.

Definition newline : string := String "010" "".

(** errorResponse *)
Definition error_json (message : string) : json := JObject [("error", JString message)].

(** json.Encoder.Encode into a buffer. *)
Definition Encode (value : json) (buf : string) : string := buf +:+ encode value +:+ newline.

(** Decoder.Decode into [event], which keeps what was stored before a mismatch. *)
Definition decodeInto (data : string) (event : TransactionEventRequest) : TransactionEventRequest * result string :=
  match nextValue data with
  | None => (event, Err syntaxError)
  | Some (v, rest) =>
      let '(event, ok) := storeStruct requestFields v event in (event, if ok then Ok rest else Err typeError)
  end.

(** Where a request is.  [held] is what is put back when the handler returns. *)
Inductive phase :=
  | Arrived
  | Reading (buffer : string)
  | Decoding (buffer reader : string) (event : TransactionEventRequest)
  | Replying (buffer : string) (held : option (string * TransactionEventRequest)) (status : Z) (value : json)
  | Writing (buffer : string) (held : option (string * TransactionEventRequest)) (status : Z) (codec : string)
  | Answered (status : Z) (bytes : string).

Section handler.
Context `{Cdc : !Codec} {W : Type} `{Pub : !Publisher W}.

(** From the decoded event to the answer: validate, convert, publish. *)
Definition ingest (event : TransactionEventRequest) (w : W) : (Z * json) * W :=
  match validate event with
  | Err err => ((StatusBadRequest, error_json (err_Error err)), w)
  | Ok _ =>
      match toIngestionEvent event with
      | Err err => ((StatusBadRequest, error_json (err_Error err)), w)
      | Ok ingestionEvent =>
          let '(r, w) := Publish ingestionEvent w in
          match r with
          | Err _ => ((StatusServiceUnavailable, error_json "failed to publish transaction event"), w)
          | Ok _ => ((StatusAccepted, request_json event), w)
          end
      end
  end.

(** From the event's Get to the call of writeJSON. *)
Definition decodeAndIngest (reader : string) (event : TransactionEventRequest) (w : W)
    : TransactionEventRequest * (Z * json) * W :=
  match decodeInto reader event with
  | (event, Err _) => (event, (StatusBadRequest, error_json "invalid request body"), w)
  | (event, Ok trailing) =>
      if negb (isJSONWhitespace trailing)
      then (event, (StatusBadRequest, error_json "invalid request body: trailing data"), w)
      else let '(reply, w) := ingest event w in (event, reply, w)
  end.

(** The handler on new buffers and a zero event. *)
Definition freshHandler (body : string) (w : W) : (Z * json) * W :=
  if Nat.ltb maxTransactionEventBytes (String.length body)
  then ((StatusBadRequest, error_json "invalid request body"), w)
  else let '(_, reply, w) := decodeAndIngest body zeroRequest w in (reply, w).

(** ** Its segments over the pools *)

(** body := transactionBodyPool.Get() *)
Definition takeBody (pick : nat) (pools : Pools) : phase * Pools :=
  let '(buffer, bodies) := pool_get "" pick (transactionBodyPool pools) in
  (Reading buffer,
   {| transactionBodyPool := bodies; transactionReaderPool := transactionReaderPool pools;
      transactionEventPool := transactionEventPool pools; jsonResponsePool := jsonResponsePool pools |}).

(** body.ReadFrom(req.Body) through MaxBytesReader, then the reader, reset to the
    buffer's bytes, and the event. *)
Definition readBody (body : string) (pickReader pickEvent : nat) (buffer : string) (pools : Pools) : phase * Pools :=
  let buffer := buffer +:+ string_take maxTransactionEventBytes body in
  if Nat.ltb maxTransactionEventBytes (String.length body)
  then (Replying buffer None StatusBadRequest (error_json "invalid request body"), pools)
  else
    let '(_, readers) := pool_get "" pickReader (transactionReaderPool pools) in
    let '(event, events) := pool_get zeroRequest pickEvent (transactionEventPool pools) in
    (Decoding buffer buffer event,
     {| transactionBodyPool := transactionBodyPool pools; transactionReaderPool := readers;
        transactionEventPool := events; jsonResponsePool := jsonResponsePool pools |}).

Definition handleEvent (buffer reader : string) (event : TransactionEventRequest) (w : W) : phase * W :=
  let '(event, (status, value), w) := decodeAndIngest reader event w in
  (Replying buffer (Some (reader, event)) status value, w).

(** writeJSON up to Encode. *)
Definition takeCodec (pick : nat) (buffer : string) (held : option (string * TransactionEventRequest))
    (status : Z) (value : json) (pools : Pools) : phase * Pools :=
  let '(codec, codecs) := pool_get "" pick (jsonResponsePool pools) in
  (Writing buffer held status (Encode value codec),
   {| transactionBodyPool := transactionBodyPool pools; transactionReaderPool := transactionReaderPool pools;
      transactionEventPool := transactionEventPool pools; jsonResponsePool := codecs |}).

(** TransactionEventRequest.Reset *)
Definition Reset (event : TransactionEventRequest) : TransactionEventRequest := zeroRequest.

(** The response is written and the deferred calls run: the codec's buffer and the
    body's are reset, the event too; the reader goes back as it is. *)
Definition finish (held : option (string * TransactionEventRequest)) (status : Z) (codec : string) (pools : Pools)
    : phase * Pools :=
  (Answered status codec,
   {| transactionBodyPool := "" :: transactionBodyPool pools;
      transactionReaderPool := match held with Some (reader, _) => [reader] | None => [] end ++ transactionReaderPool pools;
      transactionEventPool := match held with Some (_, event) => [Reset event] | None => [] end ++ transactionEventPool pools;
      jsonResponsePool := "" :: jsonResponsePool pools |}).

(** ** Requests in flight *)
Record PoolSystem := { requests : list (string * phase); pools : Pools; world : W }.

Inductive pool_step : PoolSystem → PoolSystem → Prop :=
  | step_arrived body rs ps w :
      pool_step {| requests := rs; pools := ps; world := w |}
        {| requests := rs ++ [(body, Arrived)]; pools := ps; world := w |}
  | step_take_body i body pick rs ps w p ps' :
      rs !! i = Some (body, Arrived) → takeBody pick ps = (p, ps') →
      pool_step {| requests := rs; pools := ps; world := w |}
        {| requests := <[i := (body, p)]> rs; pools := ps'; world := w |}
  | step_read_body i body pick1 pick2 rs ps w buffer p ps' :
      rs !! i = Some (body, Reading buffer) → readBody body pick1 pick2 buffer ps = (p, ps') →
      pool_step {| requests := rs; pools := ps; world := w |}
        {| requests := <[i := (body, p)]> rs; pools := ps'; world := w |}
  | step_handle i body rs ps w buffer reader event p w' :
      rs !! i = Some (body, Decoding buffer reader event) → handleEvent buffer reader event w = (p, w') →
      pool_step {| requests := rs; pools := ps; world := w |}
        {| requests := <[i := (body, p)]> rs; pools := ps; world := w' |}
  | step_take_codec i body pick rs ps w buffer held status value p ps' :
      rs !! i = Some (body, Replying buffer held status value) → takeCodec pick buffer held status value ps = (p, ps') →
      pool_step {| requests := rs; pools := ps; world := w |}
        {| requests := <[i := (body, p)]> rs; pools := ps'; world := w |}
  | step_finish i body rs ps w buffer held status codec p ps' :
      rs !! i = Some (body, Writing buffer held status codec) → finish held status codec ps = (p, ps') →
      pool_step {| requests := rs; pools := ps; world := w |}
        {| requests := <[i := (body, p)]> rs; pools := ps'; world := w |}
  | step_collect rs ps ps' w :
      transactionBodyPool ps' `sublist_of` transactionBodyPool ps →
      transactionReaderPool ps' `sublist_of` transactionReaderPool ps →
      transactionEventPool ps' `sublist_of` transactionEventPool ps →
      jsonResponsePool ps' `sublist_of` jsonResponsePool ps →
      pool_step {| requests := rs; pools := ps; world := w |} {| requests := rs; pools := ps'; world := w |}.

(** ** What it refines: requests answered one at a time by [freshHandler] *)
Record FreshSystem := { answers : list (string * option (Z * string)); freshWorld : W }.

Inductive fresh_step : FreshSystem → FreshSystem → Prop :=
  | fresh_arrived body a w :
      fresh_step {| answers := a; freshWorld := w |} {| answers := a ++ [(body, None)]; freshWorld := w |}
  | fresh_answer i body a w status value w' :
      a !! i = Some (body, None) → freshHandler body w = ((status, value), w') →
      fresh_step {| answers := a; freshWorld := w |}
        {| answers := <[i := (body, Some (status, Encode value ""))]> a; freshWorld := w' |}.

(** The answer a request has been given, once it is decided. *)
Definition decided (p : phase) : option (Z * string) :=
  match p with
  | Replying _ _ status value => Some (status, Encode value "")
  | Writing _ _ status codec => Some (status, codec)
  | Answered status bytes => Some (status, bytes)
  | _ => None
  end.

Definition abstraction (s : PoolSystem) : FreshSystem :=
  {| answers := prod_map id decided <$> requests s; freshWorld := world s |}.

(** ** The invariant: what is pooled is clean *)
Definition pools_clean (ps : Pools) : Prop :=
  Forall (λ b, b = "") (transactionBodyPool ps) ∧ Forall (λ e, e = zeroRequest) (transactionEventPool ps) ∧
  Forall (λ b, b = "") (jsonResponsePool ps).

Definition request_clean (r : string * phase) : Prop :=
  match r.2 with
  | Reading buffer => buffer = ""
  | Decoding buffer reader event => reader = r.1 ∧ event = zeroRequest ∧ (String.length r.1 ≤ maxTransactionEventBytes)%nat
  | _ => True
  end.

Definition system_clean (s : PoolSystem) : Prop := pools_clean (pools s) ∧ Forall request_clean (requests s).

Lemma pool_get_clean {A} (new : A) pick pool : Forall (λ a, a = new) pool →
  (pool_get new pick pool).1 = new ∧ Forall (λ a, a = new) (pool_get new pick pool).2.
Proof.
  intros H. unfold pool_get. destruct (pool !! pick) as [a|] eqn:E; cbn; [|done].
  split; [by eapply (Forall_lookup_1 _ _ _ _ H) in E|by apply Forall_delete].
Qed.

Lemma Forall_sublist {A} (P : A → Prop) l k : l `sublist_of` k → Forall P k → Forall P l.
Proof. intros Hs. rewrite !Forall_forall. intros H x Hx. apply H. by eapply elem_of_sublist. Qed.

Lemma string_take_all n s : (String.length s ≤ n)%nat → string_take n s = s.
Proof. revert s. induction n as [|n IH]; intros [|c s] H; cbn in *; try done; try lia. by rewrite IH by lia. Qed.

(** The pure handler decides a request that has read its body into clean objects. *)
Lemma decodeAndIngest_fresh body w : (String.length body ≤ maxTransactionEventBytes)%nat →
  freshHandler body w = let '(_, reply, w') := decodeAndIngest body zeroRequest w in (reply, w').
Proof. intros H. unfold freshHandler. by destruct (Nat.ltb_spec maxTransactionEventBytes (String.length body)); [lia|]. Qed.

Lemma abstraction_insert rs ps w i r p body : rs !! i = Some r → r.1 = body → decided p = decided r.2 →
  ∀ ps', abstraction {| requests := <[i := (body, p)]> rs; pools := ps'; world := w |} =
    abstraction {| requests := rs; pools := ps; world := w |}.
Proof.
  intros Hi <- Hp ps'. unfold abstraction. cbn. f_equal. rewrite list_fmap_insert. apply list_insert_id.
  rewrite list_lookup_fmap, Hi. cbn. unfold prod_map. cbn. by rewrite Hp.
Qed.

Lemma pool_step_clean s s' : system_clean s → pool_step s s' → system_clean s'.
Proof.
  intros [Hp Hr] Hstep. assert (∀ i r, Forall request_clean (requests s) → request_clean r → Forall request_clean (<[i := r]> (requests s))) as Hins
    by (intros; by apply Forall_insert). pose proof Hp as (Hb & He & Hc).
  destruct Hstep as [body rs ps w|i body pick rs ps w p ps' Hi E|i body pick1 pick2 rs ps w buffer p ps' Hi E
    |i body rs ps w buffer reader event p w' Hi E|i body pick rs ps w buffer held status value p ps' Hi E
    |i body rs ps w buffer held status codec p ps' Hi E|rs ps ps' w H1 H2 H3 H4]; cbn [requests pools world] in *.
  - split; [done|]. apply Forall_app_2; [done|]. by repeat constructor.
  - unfold takeBody in E. pose proof (pool_get_clean "" pick _ Hb) as [H1 H2].
    destruct (pool_get "" pick _) as [b bs]. injection E as <- <-. split; [done|]. by apply Hins.
  - unfold readBody in E. pose proof (Forall_lookup_1 _ _ _ _ Hr Hi) as Hbuf. cbn in Hbuf. subst buffer.
    destruct (Nat.ltb_spec maxTransactionEventBytes (String.length body)); [injection E as <- <-; split; [done|by apply Hins]|].
    rewrite app_nil_l, string_take_all in E by done.
    destruct (pool_get "" pick1 _) as [rd rds]. pose proof (pool_get_clean zeroRequest pick2 _ He) as [H1 H2].
    destruct (pool_get zeroRequest pick2 _) as [e es]. cbn in H1. injection E as <- <-. split; [done|]. by apply Hins.
  - unfold handleEvent in E. destruct (decodeAndIngest reader event w) as [[event' [st v]] w1]. injection E as <- <-.
    split; [done|]. by apply Hins.
  - unfold takeCodec in E. pose proof (pool_get_clean "" pick _ Hc) as [H1 H2].
    destruct (pool_get "" pick _) as [c cs]. injection E as <- <-. split; [done|]. by apply Hins.
  - injection E as <- <-. split; [|by apply Hins]. split_and!; cbn; [by constructor| |by constructor].
    destruct held as [[rd e]|]; [by constructor|done].
  - split; [|done]. split_and!; eapply Forall_sublist; done.
Qed.

(** Each step is one of the fresh system's, or changes nothing there. *)
Lemma pool_step_refines s s' : system_clean s → pool_step s s' →
  abstraction s' = abstraction s ∨ fresh_step (abstraction s) (abstraction s').
Proof.
  intros [(Hb & He & Hc) Hr] Hstep.
  destruct Hstep as [body rs ps w|i body pick rs ps w p ps' Hi E|i body pick1 pick2 rs ps w buffer p ps' Hi E
    |i body rs ps w buffer reader event p w' Hi E|i body pick rs ps w buffer held status value p ps' Hi E
    |i body rs ps w buffer held status codec p ps' Hi E|rs ps ps' w H1 H2 H3 H4]; cbn [requests pools world] in *.
  - right. unfold abstraction. cbn. rewrite fmap_app. apply fresh_arrived.
  - left. unfold takeBody in E. destruct (pool_get "" pick _) as [b bs]. injection E as <- <-. by eapply abstraction_insert.
  - unfold readBody in E. destruct (Nat.ltb_spec maxTransactionEventBytes (String.length body)) as [Hlt|Hle].
    + right. injection E as <- <-. unfold abstraction. cbn. rewrite list_fmap_insert.
      apply (fresh_answer i body _ w StatusBadRequest (error_json "invalid request body")); [by rewrite list_lookup_fmap, Hi|].
      unfold freshHandler. by destruct (Nat.ltb_spec maxTransactionEventBytes (String.length body)); [|lia].
    + left. destruct (pool_get "" pick1 _) as [rd rds]. destruct (pool_get zeroRequest pick2 _) as [e es].
      injection E as <- <-. by eapply abstraction_insert.
  - right. pose proof (Forall_lookup_1 _ _ _ _ Hr Hi) as Hclean. unfold request_clean in Hclean. cbn [fst snd] in Hclean.
    destruct Hclean as (-> & -> & Hle). unfold handleEvent in E.
    pose proof (decodeAndIngest_fresh body w Hle) as Hf.
    destruct (decodeAndIngest body zeroRequest w) as [[event' [st v]] w1]. injection E as <- <-.
    unfold abstraction. cbn [requests world]. rewrite list_fmap_insert. apply (fresh_answer i body _ w st v); [by rewrite list_lookup_fmap, Hi|done].
  - left. unfold takeCodec in E. pose proof (pool_get_clean "" pick _ Hc) as [H1 _].
    destruct (pool_get "" pick _) as [c cs]. cbn in H1. subst c. injection E as <- <-. by eapply abstraction_insert.
  - left. injection E as <- <-. by eapply abstraction_insert.
  - by left.
Qed.

Definition emptyPools : Pools :=
  {| transactionBodyPool := []; transactionReaderPool := []; transactionEventPool := []; jsonResponsePool := [] |}.

Lemma pool_reachable w s : rtc pool_step {| requests := []; pools := emptyPools; world := w |} s →
  system_clean s ∧ rtc fresh_step {| answers := []; freshWorld := w |} (abstraction s).
Proof.
  apply (rtc_ind_r (λ s, system_clean s ∧ rtc fresh_step {| answers := []; freshWorld := w |} (abstraction s))).
  - split; [|apply rtc_refl]. split; [|constructor]. split_and!; constructor.
  - intros s1 s2 _ Hstep [Hc Hf]. split; [by eapply pool_step_clean|].
    destruct (pool_step_refines s1 s2 Hc Hstep) as [->|Hs]; [done|by eapply rtc_r].
Qed.

(** C15. Pooling is invisible: however requests interleave, whatever each Get takes
    from its pool and whatever the pools lose, the answers given so far and the
    publisher's state are those of handling each request alone with new buffers and
    a zero event; no request sees a byte or a field of another. *)
Theorem pools_invisible w s : rtc pool_step {| requests := []; pools := emptyPools; world := w |} s →
  rtc fresh_step {| answers := []; freshWorld := w |} (abstraction s).
Proof. intros H. by apply pool_reachable. Qed.

(** ** The answer on the wire *)
Lemma freshHandler_handler body w :
  (freshHandler body w).1.1 = (transactionHandler body w).1.1 ∧ (freshHandler body w).2 = (transactionHandler body w).2.
Proof.
  unfold freshHandler, transactionHandler, decodeAndIngest, decodeInto, decodeNext.
  destruct (Nat.ltb _ _); [done|]. destruct (nextValue body) as [[v rest]|]; [|done].
  destruct (storeStruct requestFields v zeroRequest) as [ev [|]]; cbn; [|done].
  destruct (negb (isJSONWhitespace rest)); [done|]. unfold ingest.
  destruct (validate ev) as [[]|]; [|done]. destruct (toIngestionEvent ev) as [e|]; [|done].
  by destruct (Publish e w) as [[[]|] w'].
Qed.

(** ** A scheduler: one segment of request [i], every Get at [pick] *)
Definition advance (i pick : nat) (s : PoolSystem) : option PoolSystem :=
  let on (body : string) (r : phase * Pools) :=
    Some {| requests := <[i := (body, r.1)]> (requests s); pools := r.2; world := world s |} in
  match requests s !! i with
  | Some (body, Arrived) => on body (takeBody pick (pools s))
  | Some (body, Reading buffer) => on body (readBody body pick pick buffer (pools s))
  | Some (body, Decoding buffer reader event) =>
      let '(p, w) := handleEvent buffer reader event (world s) in
      Some {| requests := <[i := (body, p)]> (requests s); pools := pools s; world := w |}
  | Some (body, Replying buffer held status value) => on body (takeCodec pick buffer held status value (pools s))
  | Some (body, Writing buffer held status codec) => on body (finish held status codec (pools s))
  | _ => None
  end.

Lemma advance_step i pick s s' : advance i pick s = Some s' → pool_step s s'.
Proof.
  unfold advance. destruct s as [rs ps w]. cbn [requests pools world].
  destruct (rs !! i) as [[body [|buffer|buffer reader event|buffer held status value|buffer held status codec|]]|] eqn:Hi; try done.
  - intros [= <-]. eapply step_take_body; [done|]. apply surjective_pairing.
  - intros [= <-]. eapply step_read_body; [done|]. apply surjective_pairing.
  - destruct (handleEvent _ _ _ _) as [p w'] eqn:E. intros [= <-]. by eapply step_handle.
  - intros [= <-]. eapply step_take_codec; [done|]. apply surjective_pairing.
  - intros [= <-]. eapply step_finish; [done|]. apply surjective_pairing.
Qed.

(** Segments left before the answer is out. *)
Definition segments (p : phase) : nat :=
  match p with Arrived => 5 | Reading _ => 4 | Decoding _ _ _ => 3 | Replying _ _ _ _ => 2 | Writing _ _ _ _ => 1 | Answered _ _ => 0 end.

(** No request waits for another: until it is answered it can always move, and
    each of its moves leaves fewer of its five segments. *)
Theorem requests_progress i pick s body p : requests s !! i = Some (body, p) → (segments p ≠ 0)%nat →
  ∃ s' p', advance i pick s = Some s' ∧ requests s' !! i = Some (body, p') ∧ (segments p' < segments p)%nat.
Proof.
  intros Hi Hp. assert (∀ r, <[i := r]> (requests s) !! i = Some r) as Hins
    by (intros; apply list_lookup_insert_eq; by eapply lookup_lt_Some).
  unfold advance. rewrite Hi. destruct p as [|buffer|buffer reader event|buffer held status value|buffer held status codec|]; try done.
  - eexists _, _. split; [reflexivity|]. split; [apply Hins|]. unfold takeBody. destruct (pool_get _ _ _). cbn. lia.
  - eexists _, _. split; [reflexivity|]. split; [apply Hins|]. unfold readBody. destruct (Nat.ltb _ _); [cbn; lia|].
    destruct (pool_get "" _ _), (pool_get zeroRequest _ _). cbn. lia.
  - destruct (handleEvent _ _ _ _) as [p w'] eqn:E. eexists _, p. split; [reflexivity|]. split; [apply Hins|].
    unfold handleEvent in E. destruct (decodeAndIngest _ _ _) as [[? [? ?]] ?]. injection E as <- _. cbn. lia.
  - eexists _, _. split; [reflexivity|]. split; [apply Hins|]. unfold takeCodec. destruct (pool_get _ _ _). cbn. lia.
  - eexists _, _. split; [reflexivity|]. split; [apply Hins|]. cbn. lia.
Qed.

Definition run_schedule (l : list (nat * nat)) (s : PoolSystem) : option PoolSystem :=
  fold_left (λ s m, s ≫= advance m.1 m.2) l (Some s).

Lemma run_schedule_rtc l s s' : run_schedule l s = Some s' → rtc pool_step s s'.
Proof.
  assert (∀ l, fold_left (λ s m, s ≫= advance m.1 m.2) l None = None) as Hnone by (clear; intros l; by induction l).
  unfold run_schedule. revert s. induction l as [|[i pick] l IH]; intros s; cbn; [by intros [= ->]|].
  destruct (advance i pick s) as [s1|] eqn:E; [|by rewrite Hnone].
  intros H. eapply rtc_l; [by eapply advance_step|by apply IH].
Qed.
End handler.

(** ** Witnesses *)
#[local] Existing Instance plainCodec.
#[local] Instance acceptingPublisher : Publisher nat := λ _ n, (Ok tt, S n).

(** Three requests: a sale, then an empty object and one that is not JSON, which
    are given the sale's buffers and struct. *)
Definition threeRequests : PoolSystem (W := nat) :=
  {| requests := [(encode (request_json sampleRequest), Arrived); ("{}", Arrived); ("{", Arrived)];
     pools := emptyPools; world := 0%nat |}.

Definition interleaving : list (nat * nat) :=
  [(0, 0); (0, 0); (0, 0); (0, 0); (0, 0); (1, 0); (2, 0); (1, 0); (2, 0); (2, 0); (1, 0); (2, 0); (1, 0); (1, 0); (2, 0)]%nat.

Definition served : PoolSystem (W := nat) := default threeRequests (run_schedule interleaving threeRequests).

Example served_answers :
  snd <$> requests served =
    [Answered 202 (encode (request_json sampleRequest) +:+ newline);
     Answered 400 (dq "{'error':'missing required fields'}" +:+ newline);
     Answered 400 (dq "{'error':'invalid request body'}" +:+ newline)] ∧ world served = 1%nat.
Proof. vm_compute. done. Qed.

Lemma pools_invisible_witness : rtc fresh_step {| answers := []; freshWorld := 0%nat |} (abstraction served).
Proof.
  apply pools_invisible.
  eapply rtc_l; [apply (step_arrived (encode (request_json sampleRequest)))|].
  eapply rtc_l; [apply (step_arrived "{}")|]. eapply rtc_l; [apply (step_arrived "{")|].
  apply (run_schedule_rtc interleaving threeRequests). vm_compute. reflexivity.
Defined.

Lemma requests_progress_witness : ∃ s' p', advance 1 0 threeRequests = Some s' ∧
  requests s' !! 1%nat = Some ("{}", p') ∧ (segments p' < segments Arrived)%nat.
Proof. apply (requests_progress 1 0 threeRequests "{}" Arrived); [reflexivity|cbn; lia]. Defined.
