(* ===== verification/GoFloat.v ===== *)
(** * strconv.ParseFloat, and the rate-limit configuration

    The grammar Go reads a float64 with (decimal and hexadecimal literals, digit
    separators, infinities and NaN) and the value it returns: the exact number
    rounded once to the nearest float64, ties to even, through SpecFloat.
    rateLimitConfigFromEnv (cmd/ingestion/main.go) reads its rate through it. *)
From Stdlib Require Import SpecFloat.
From S2P Require Import Prelude GoStrings GoTime EnvConfig Amount CoreBreaker Ledger Wire Ingestion Partitioner Api.

(** ** Characters *)

(** lower(c) = c | ('x' - 'X'): the value compared with lower-case letters. *)
Definition lower (c : ascii) : Z := Z.lor (byte c) 32.

Definition hex_letter (c : ascii) : bool := (97 <=? lower c) && (lower c <=? 102).

(** The digit's value, in base 10 or 16. *)
Definition digit_value (hex : bool) (c : ascii) : option Z :=
  if is_digit c then Some (byte c - 48)
  else if hex && hex_letter c then Some (lower c - 97 + 10)
  else None.

(** ** Special values *)

(** commonPrefixLenIgnoreCase; [prefix] is lower case. *)
Fixpoint commonPrefixLenIgnoreCase (s prefix : string) : nat :=
  match s, prefix with
  | String c s, String p prefix =>
      let c := if in_range 65 90 c then byte c + 32 else byte c in
      if c =? byte p then S (commonPrefixLenIgnoreCase s prefix) else 0
  | _, _ => 0
  end.

Definition infinity (neg : bool) (s : string) (nsign : nat) : option (spec_float * nat) :=
  let n := commonPrefixLenIgnoreCase s "infinity" in
  let n := if Nat.ltb 3 n && Nat.ltb n 8 then 3%nat else n in
  if Nat.eqb n 3 || Nat.eqb n 8 then Some (S754_infinity neg, (nsign + n)%nat) else None.

(** special: the value and the number of bytes read. *)
Definition special (s : string) : option (spec_float * nat) :=
  match s with
  | "" => None
  | String c rest =>
      if bool_decide (c = "+"%char) then infinity false rest 1
      else if bool_decide (c = "-"%char) then infinity true rest 1
      else if lower c =? 105 then infinity false s 0
      else if lower c =? 110
      then if Nat.eqb (commonPrefixLenIgnoreCase s "nan") 3 then Some (S754_nan, 3%nat) else None
      else None
  end.

(** ** Literals *)

(** underscoreOK: an underscore only between digits, or after a base prefix. *)
Inductive saw := SawStart | SawDigit | SawUnderscore | SawOther.

Fixpoint underscoreLoop (hex : bool) (last : saw) (s : string) : bool :=
  match s with
  | "" => match last with SawUnderscore => false | _ => true end
  | String c s =>
      if is_digit c || (hex && hex_letter c) then underscoreLoop hex SawDigit s
      else if bool_decide (c = "_"%char)
      then match last with SawDigit => underscoreLoop hex SawUnderscore s | _ => false end
      else match last with SawUnderscore => false | _ => underscoreLoop hex SawOther s end
  end.

Definition cutSign (s : string) : bool * string :=
  match s with
  | String c rest =>
      if bool_decide (c = "+"%char) then (false, rest)
      else if bool_decide (c = "-"%char) then (true, rest)
      else (false, s)
  | "" => (false, s)
  end.

Definition underscoreOK (s : string) : bool :=
  let s := (cutSign s).2 in
  match s with
  | String c (String p rest) =>
      if bool_decide (c = "0"%char) && ((lower p =? 98) || (lower p =? 111) || (lower p =? 120))
      then underscoreLoop (lower p =? 120) SawDigit rest
      else underscoreLoop false SawStart s
  | _ => underscoreLoop false SawStart s
  end.

(** The digits read so far: their value, their number past leading zeros, the
    position of the point, and what was seen. *)
Record mantissa := { mValue : Z; mDigits : Z; mPoint : Z; sawdot : bool; sawdigits : bool; underscores : bool }.

Definition noDigits : mantissa :=
  {| mValue := 0; mDigits := 0; mPoint := 0; sawdot := false; sawdigits := false; underscores := false |}.

(** The digit loop of readFloat.  Go keeps the first 19 (16) digits of the mantissa
    and whether others follow, and reads the rest again when they decide the
    rounding: [mValue] is the value of them all. *)
Fixpoint digitLoop (hex : bool) (m : mantissa) (s : string) : mantissa * string :=
  match s with
  | "" => (m, "")
  | String c rest =>
      if bool_decide (c = "_"%char)
      then digitLoop hex {| mValue := mValue m; mDigits := mDigits m; mPoint := mPoint m; sawdot := sawdot m;
                            sawdigits := sawdigits m; underscores := true |} rest
      else if bool_decide (c = "."%char)
      then if sawdot m then (m, s)
           else digitLoop hex {| mValue := mValue m; mDigits := mDigits m; mPoint := mDigits m; sawdot := true;
                                 sawdigits := sawdigits m; underscores := underscores m |} rest
      else match digit_value hex c with
           | None => (m, s)
           | Some d =>
               if bool_decide (c = "0"%char) && (mDigits m =? 0)
               then digitLoop hex {| mValue := mValue m; mDigits := mDigits m; mPoint := mPoint m - 1;
                                     sawdot := sawdot m; sawdigits := true; underscores := underscores m |} rest
               else digitLoop hex {| mValue := mValue m * (if hex then 16 else 10) + d; mDigits := mDigits m + 1;
                                     mPoint := mPoint m; sawdot := sawdot m; sawdigits := true;
                                     underscores := underscores m |} rest
           end
  end.

(** The exponent's digits, saturating: its value, the underscores seen, the rest. *)
Fixpoint exponentLoop (e : Z) (under : bool) (s : string) : Z * bool * string :=
  match s with
  | "" => (e, under, "")
  | String c rest =>
      if is_digit c then exponentLoop (if e <? 10000 then e * 10 + byte c - 48 else e) under rest
      else if bool_decide (c = "_"%char) then exponentLoop e true rest
      else (e, under, s)
  end.

(** The exponent part after its letter: None unless a digit follows the sign. *)
Definition readExponent (s : string) : option (Z * bool * string) :=
  let '(neg, digits) := cutSign s in
  match digits with
  | String c _ =>
      if is_digit c
      then let '(e, under, rest) := exponentLoop 0 false digits in Some ((if neg then - e else e), under, rest)
      else None
  | "" => None
  end.

(** A literal's sign, value and exponent (of 10, or of 2 for a hexadecimal one). *)
Record literal := { lNeg : bool; lHex : bool; lMantissa : Z; lExp : Z; lRest : string }.

Definition hexPrefix (s : string) : option string :=
  match s with
  | String c (String x (String d rest)) =>
      if bool_decide (c = "0"%char) && (lower x =? 120) then Some (String d rest) else None
  | _ => None
  end.

Definition readFloat (s : string) : option literal :=
  let '(neg, body) := cutSign s in
  let '(hex, body) := match hexPrefix body with Some rest => (true, rest) | None => (false, body) end in
  let '(m, rest) := digitLoop hex noDigits body in
  if negb (sawdigits m) then None
  else
    let dp := if sawdot m then mPoint m else mDigits m in
    let width := if hex then 4 else 1 in
    let finish (e : Z) (under : bool) (rest : string) :=
      let read := string_take (String.length s - String.length rest) s in
      if (underscores m || under) && negb (underscoreOK read) then None
      else Some {| lNeg := neg; lHex := hex; lMantissa := mValue m;
                   lExp := if mValue m =? 0 then 0 else dp * width + e - mDigits m * width; lRest := rest |} in
    match rest with
    | String c after =>
        if lower c =? (if hex then 112 else 101)
        then match readExponent after with
             | None => None
             | Some (e, under, rest) => finish e under rest
             end
        else if hex then None else finish 0 false rest
    | "" => if hex then None else finish 0 false ""
    end.

(** ** Rounding *)

(** The float64 nearest to +-(num / den). *)
Definition f64_of_ratio (neg : bool) (num den : Z) : spec_float :=
  let '(m, e, l) := SFdiv_core_binary 53 1024 num 0 den 0 in binary_round_aux 53 1024 neg m e l.

Definition f64_signed (neg : bool) (m e : Z) : spec_float :=
  binary_normalize 53 1024 (if neg then - m else m) e neg.

Definition literalValue (l : literal) : spec_float :=
  if lHex l then f64_signed (lNeg l) (lMantissa l) (lExp l)
  else if 0 <=? lExp l then f64_signed (lNeg l) (lMantissa l * 10 ^ lExp l) 0
  else f64_of_ratio (lNeg l) (lMantissa l) (10 ^ (- lExp l)).

Definition is_infinity (f : spec_float) : bool := match f with S754_infinity _ => true | _ => false end.

Definition ParseFloat (s : string) : result spec_float :=
  match special s with
  | Some (f, n) => if Nat.eqb n (String.length s) then Ok f else Err (Sentinel ErrSyntax)
  | None =>
      match readFloat s with
      | None => Err (Sentinel ErrSyntax)
      | Some l =>
          if negb (bool_decide (lRest l = "")) then Err (Sentinel ErrSyntax)
          else if is_infinity (literalValue l) then Err (Sentinel ErrRange)
          else Ok (literalValue l)
      end
  end.

Example literals :
  ParseFloat "50" = Ok (f64_of_Z 50) ∧ ParseFloat "0.1" = Ok (S754_finite false 7205759403792794 (-56)) ∧
  ParseFloat "1_000.5e-1" = Ok (f64_div (f64_of_Z 10005) (f64_of_Z 100)) ∧
  ParseFloat "0x1.8p1" = Ok (f64_of_Z 3) ∧ ParseFloat "-.5" = Ok (f64_div (f64_of_Z (-1)) (f64_of_Z 2)) ∧
  ParseFloat "1e309" = Err (Sentinel ErrRange) ∧ ParseFloat "2.5e-324" = Ok (S754_finite false 1 (-1074)) ∧
  ParseFloat "-0" = Ok (S754_zero true) ∧ ParseFloat "iNf" = Ok (S754_infinity false) ∧ ParseFloat "nan" = Ok S754_nan ∧
  ParseFloat <$> [""; "."; "1e"; "1__0"; "_1"; "1_"; "0x1"; "infin"; "1 "; "+nan"; "1.2.3"; "e5"]
    = replicate 12 (Err (Sentinel ErrSyntax)).
Proof. vm_compute. done. Qed.

(** ** Plain digits *)
Lemma digit_class c : is_digit c = true →
  c ≠ "_"%char ∧ c ≠ "."%char ∧ c ≠ "+"%char ∧ c ≠ "-"%char ∧ (lower c =? 105) = false ∧ (lower c =? 110) = false ∧
  (lower c =? 120) = false.
Proof. destruct c as [[] [] [] [] [] [] [] []]; vm_compute; done. Qed.

Lemma digitLoop_digits m s : all_digits s = true → (mDigits m = 0 → mValue m = 0) → 0 ≤ mDigits m → sawdot m = false →
  ∃ m', digitLoop false m s = (m', "") ∧ mValue m' = horner (mValue m) s ∧ sawdot m' = false ∧
    underscores m' = underscores m ∧ sawdigits m' = (sawdigits m || negb (bool_decide (s = ""))).
Proof.
  revert m. induction s as [|c s IH]; intros m Hd H0 Hn Hdot; cbn [digitLoop].
  - exists m. rewrite bool_decide_true by done. by rewrite orb_false_r.
  - apply andb_true_iff in Hd as [Hc Hd]. pose proof (digit_class c Hc) as (? & ? & _).
    rewrite !bool_decide_false by done. unfold digit_value. rewrite Hc.
    assert (negb (bool_decide (String c s = "")) = true) as -> by done. rewrite orb_true_r.
    destruct (bool_decide (c = "0"%char) && (mDigits m =? 0)) eqn:Hz.
    + bool_props. subst c. edestruct IH as (m' & -> & Hv & Hdt & Hu & Hs); [done|..|exists m'; split; [done|]]; cbn; [auto|lia|done|].
      rewrite Hv, Hdt, Hu, Hs. cbn. by rewrite H0.
    + edestruct IH as (m' & -> & Hv & Hdt & Hu & Hs); [done|..|exists m'; split; [done|]]; cbn; [lia|lia|done|].
      rewrite Hv, Hdt, Hu, Hs. done.
Qed.

(** A text of decimal digits is read as the float64 nearest to its value. *)
Lemma ParseFloat_digits s : all_digits s = true → s ≠ "" →
  ParseFloat s = if is_infinity (f64_of_Z (horner 0 s)) then Err (Sentinel ErrRange) else Ok (f64_of_Z (horner 0 s)).
Proof.
  intros Hd Hne. destruct s as [|c s]; [done|]. pose proof Hd as Hd'. apply andb_true_iff in Hd' as [Hc Hs].
  pose proof (digit_class c Hc) as (_ & _ & Hp & Hm & Hi & Hn & _).
  unfold ParseFloat, special. rewrite !bool_decide_false, Hi, Hn by done.
  unfold readFloat, cutSign. rewrite !bool_decide_false by done.
  assert (hexPrefix (String c s) = None) as ->.
  { destruct s as [|x [|d s]]; [done..|]. cbn. apply andb_true_iff in Hs as [Hx _].
    pose proof (digit_class x Hx) as (_ & _ & _ & _ & _ & _ & ->). by rewrite andb_false_r. }
  destruct (digitLoop_digits noDigits (String c s) Hd) as (m & -> & Hv & Hdot & Hu & Hsd); [done..|].
  rewrite Hsd, Hdot, Hu, Hv. cbn [sawdigits underscores noDigits mValue]. rewrite bool_decide_false by done.
  cbn [orb negb andb lRest lHex lExp lMantissa lNeg]. rewrite bool_decide_true by done. cbn [negb].
  assert ((if horner 0 (String c s) =? 0 then 0 else mDigits m * 1 + 0 - mDigits m * 1) = 0) as ->
    by (destruct (horner 0 (String c s) =? 0); lia).
  unfold literalValue. cbn [lHex lExp lMantissa lNeg]. unfold f64_signed. change (10 ^ 0) with 1.
  rewrite Z.mul_1_r. done.
Qed.

(** ** cmd/ingestion: rateLimitConfigFromEnv *)
Definition defaultRateLimitRequestsPerSecond : Z := 50.
Definition defaultRateLimitBurst : Z := 100.

(** RateLimitConfig: (RequestsPerSecond, Burst). *)
Definition rateLimitConfigFromEnv `{Genv : !Environment} : result (spec_float * Z) :=
  requestsPerSecond ← override "INGESTION_RATE_LIMIT_RPS"
    (λ raw, wrap_err "parse INGESTION_RATE_LIMIT_RPS: %w" (ParseFloat raw)) (f64_of_Z defaultRateLimitRequestsPerSecond);
  burst ← override "INGESTION_RATE_LIMIT_BURST"
    (λ raw, wrap_err "parse INGESTION_RATE_LIMIT_BURST: %w" (Atoi raw)) defaultRateLimitBurst;
  Ok (requestsPerSecond, burst).

(** A bucket whose balance is not a number never refuses. *)
Lemma nan_bucket_allows burst now bucket : (bucketAllow S754_nan burst now bucket).1 = true ∧
  tokens (bucketAllow S754_nan burst now bucket).2 = S754_nan.
Proof.
  unfold bucketAllow. assert (f64_min burst (f64_add (tokens bucket)
    (f64_mul (Seconds (time_Sub now (lastRefill bucket))) S754_nan)) = S754_nan) as ->; [|done].
  unfold f64_mul, f64_add. destruct (Seconds _); cbn; (destruct (tokens bucket); cbn; destruct burst; done).
Qed.

Lemma nan_limiter_allows now key limiter : rate limiter = S754_nan →
  (limiterAllow now key limiter).1 = true ∧ rate (limiterAllow now key limiter).2 = S754_nan.
Proof.
  intros Hr. unfold limiterAllow. destruct (default ∅ (shards limiter !! shardIndex key) !! key) as [b|]; [|done].
  rewrite Hr. pose proof (nan_bucket_allows (burst limiter) now b) as [Ha _].
  destruct (bucketAllow S754_nan (burst limiter) now b) as [ok b']. by cbn in Ha; subst ok.
Qed.

(** A rate of NaN is accepted and turns the limit off: NaN passes the check that the
    rate be positive, and from then on every request of every key is let through,
    at any instants, whatever the burst. *)
Theorem nan_rate_unlimited `{Genv : !Environment} b reqs :
  Getenv "INGESTION_RATE_LIMIT_RPS" = "NaN" → Getenv "INGESTION_RATE_LIMIT_BURST" = "" →
  0 < b →
  rateLimitConfigFromEnv = Ok (S754_nan, 100) ∧
  ∃ limiter, newRateLimiter S754_nan b = Ok limiter ∧ limiterRun reqs limiter = replicate (length reqs) true.
Proof.
  intros Hr Hb Hpos. split; [unfold rateLimitConfigFromEnv, override; by rewrite Hr, Hb|].
  unfold newRateLimiter. cbn [SFleb SFcompare]. destruct (Z.leb_spec b 0); [lia|]. eexists. split; [done|].
  match goal with |- limiterRun _ ?l = _ => assert (rate l = S754_nan) as E by done; revert E; generalize l end.
  induction reqs as [|[now key] reqs IH]; intros limiter E; cbn; [done|].
  destruct (nan_limiter_allows now key limiter E) as [Ha Hl]. destruct (limiterAllow now key limiter) as [ok limiter'].
  cbn in Ha, Hl. subst ok. by rewrite IH.
Qed.

Lemma nan_rate_unlimited_witness : ∃ limiter,
  newRateLimiter S754_nan 1 = Ok limiter ∧ limiterRun [(0, "k"); (0, "k"); (0, "k")] limiter = [true; true; true].
Proof.
  refine (proj2 (nan_rate_unlimited (Genv := λ name, if bool_decide (name = "INGESTION_RATE_LIMIT_RPS") then "NaN" else "")
    1 [(0, "k"); (0, "k"); (0, "k")] _ _ _)).
  - reflexivity.
  - reflexivity.
  - lia.
Defined.
