(* ===== verification/Servers.v ===== *)
(** * The HTTP and gRPC servers (internal/api/server.go, grpc_server.go, health.go)

    NewServer and NewGRPCServer with the handlers they stack, the routing of
    net/http's ServeMux for the three patterns registered, and the dispatch of the
    gRPC methods.  The two transports serve one publisher.  The theorems: only an
    authenticated and admitted request of the right method and path reaches the
    publisher, and the limiters hold buckets for configured keys only. *)
From Stdlib Require Import SpecFloat.
From S2P Require Import Prelude GoStrings GoJson GoTime Amount CoreBreaker Ledger Wire Ingestion Partitioner Api.

(** ** net/http.ServeMux, for literal patterns without a trailing slash *)
Module Mux.

Definition hex_digit (c : ascii) : option Z :=
  if is_digit c then Some (byte c - 48)
  else if in_range 97 102 c then Some (byte c - 87)
  else if in_range 65 70 c then Some (byte c - 55)
  else None.

(** url.PathUnescape; a malformed escape leaves the segment as it is. *)
Fixpoint unescape (s : string) : option string :=
  match s with
  | "" => Some ""
  | String c rest =>
      if bool_decide (c = "%"%char) then
        match rest with
        | String h (String l rest) =>
            h ← hex_digit h; l ← hex_digit l; t ← unescape rest;
            Some (String (ascii_of_N (Z.to_N (16 * h + l))) t)
        | _ => None
        end
      else t ← unescape rest; Some (String c t)
  end.
Definition pathUnescape (s : string) : string := default s (unescape s).

(** path.Clean on a rooted path: the elements kept, last first. *)
Fixpoint cleanElements (elements : list string) (kept : list string) : list string :=
  match elements with
  | [] => kept
  | e :: rest =>
      if bool_decide (e = "") || bool_decide (e = ".") then cleanElements rest kept
      else if bool_decide (e = "..") then cleanElements rest (tail kept)
      else cleanElements rest (e :: kept)
  end.
Definition Clean (p : string) : string :=
  String "/" (Join (reverse (cleanElements (Split p "/") [])) "/").

Fixpoint last_byte (s : string) : option ascii :=
  match s with "" => None | String c "" => Some c | String _ s => last_byte s end.

(** cleanPath: a trailing slash is kept. *)
Definition cleanPath (p : string) : string :=
  let p := match p with "" => "/" | String c _ => if bool_decide (c = "/"%char) then p else String "/" p end in
  let np := Clean p in
  if bool_decide (last_byte p = Some "/"%char) && negb (bool_decide (np = "/")) then np +:+ "/" else np.

(** The unescaped segments of an escaped path; None if it is not rooted. *)
Definition segments (path : string) : option (list string) :=
  match Split path "/" with
  | "" :: (s :: segs) => Some (pathUnescape <$> (s :: segs))
  | _ => None
  end.

Inductive pattern := Healthz | MetricsPage | Transactions.

#[global] Instance pattern_eq_dec : EqDecision pattern.
Proof. solve_decision. Defined.

Definition pattern_of (path : string) : option pattern :=
  match segments path with
  | Some segs =>
      if bool_decide (segs = ["healthz"]) then Some Healthz
      else if bool_decide (segs = ["metrics"]) then Some MetricsPage
      else if bool_decide (segs = ["v1"; "transactions"]) then Some Transactions
      else None
  | None => None
  end.

(** A GET pattern serves HEAD requests too. *)
Definition allows (p : pattern) (method : string) : bool :=
  match p with
  | Healthz | MetricsPage => bool_decide (method = "GET") || bool_decide (method = "HEAD")
  | Transactions => bool_decide (method = "POST")
  end.

Inductive route := Serve (p : pattern) | Redirect (path : string) | NotFound | MethodNotAllowed | ServerOptions | Refused.

(** The mux serves the patterns it has registered. *)
Definition dispatch (registered : list pattern) (method path : string) : route :=
  match pattern_of path with
  | Some p =>
      if negb (bool_decide (p ∈ registered)) then NotFound else if allows p method then Serve p else MethodNotAllowed
  | None => NotFound
  end.

Definition findHandler (registered : list pattern) (method escapedPath : string) : route :=
  if bool_decide (escapedPath = "*") then if bool_decide (method = "OPTIONS") then ServerOptions else Refused
  else if bool_decide (method = "CONNECT") then dispatch registered method escapedPath
  else
    let path := cleanPath escapedPath in
    if negb (bool_decide (path = escapedPath)) then Redirect path else dispatch registered method path.

Lemma findHandler_Serve registered method path p : findHandler registered method path = Serve p →
  allows p method = true ∧ pattern_of path = Some p ∧ p ∈ registered.
Proof.
  assert (∀ q, dispatch registered method q = Serve p → allows p method = true ∧ pattern_of q = Some p ∧ p ∈ registered) as Hd.
  { intros q. unfold dispatch. destruct (pattern_of q) as [p'|]; [|done]. case_bool_decide; cbn [negb]; [|done].
    destruct (allows p' method) eqn:E; [|done]. by intros [= <-]. }
  unfold findHandler. case_bool_decide as H1; [by case_bool_decide|]. case_bool_decide as H2; [apply Hd|].
  cbv zeta. case_bool_decide as H3; cbn [negb]; [|done]. rewrite H3. apply Hd.
Qed.

Lemma pattern_of_Transactions path : pattern_of path = Some Transactions → segments path = Some ["v1"; "transactions"].
Proof.
  unfold pattern_of. destruct (segments path) as [segs|]; [|done]. repeat case_bool_decide; naive_solver.
Qed.

(** The patterns NewServer registers, and the ones of the processor's newMetricsServer. *)
Definition ingestionPatterns : list pattern := [Healthz; MetricsPage; Transactions].
Definition processorPatterns : list pattern := [Healthz; MetricsPage].

Example routes :
  findHandler ingestionPatterns "POST" "/v1/transactions" = Serve Transactions ∧
  findHandler ingestionPatterns "GET" "/v1/transactions" = MethodNotAllowed ∧
  findHandler ingestionPatterns "HEAD" "/healthz" = Serve Healthz ∧
  findHandler ingestionPatterns "POST" "/v1/x/../transactions" = Redirect "/v1/transactions" ∧
  findHandler ingestionPatterns "POST" "//v1/transactions/" = Redirect "/v1/transactions/" ∧
  findHandler ingestionPatterns "POST" "/v1/transactions/" = NotFound ∧
  findHandler ingestionPatterns "POST" "/v1/%74ransactions" = Serve Transactions ∧
  findHandler processorPatterns "POST" "/v1/transactions" = NotFound.
Proof. vm_compute. done. Qed.
End Mux.
Import Mux.

(** ** The two servers *)
Record HttpRequest := {
  hMethod : string;
  hPath : string;            (* escaped *)
  hAuthorization : string;   (* the Authorization header, empty if absent *)
  hBody : string
}.

Record Server := { sKeys : list string; sLimiter : rateLimiter }.

Definition NewServer (apiKeys : list string) (RequestsPerSecond : spec_float) (Burst : Z) : result Server :=
  authenticator ← wrap_err "configure API key authenticator: %w" (newAPIKeyAuthenticator apiKeys);
  limiter ← wrap_err "configure rate limiter: %w" (newRateLimiter RequestsPerSecond Burst);
  Ok {| sKeys := authenticator; sLimiter := limiter |}.

Inductive HttpAnswer :=
  | Answered (rsp : Response)      (* by the transactions route *)
  | Healthy                        (* 200, healthHandler *)
  | Exposition                     (* the metrics page *)
  | Routed (r : route).            (* by the mux: redirect, 404, 405, 400, OPTIONS *)

(** newMetricsServer's handler in cmd/processor: probes and scrapes only. *)
Definition metricsServer (method path : string) : HttpAnswer :=
  match findHandler processorPatterns method path with
  | Serve Healthz => Healthy
  | Serve MetricsPage => Exposition
  | r => Routed r
  end.

(** newTransactionIngestionServer's method and the health service's Check; its List and
    its streaming Watch, which read the same statuses, are left out. *)
Definition transactionIngestionServiceName : string := "ingestion.v1.TransactionIngestionService".
Definition ingestMethod : string := "/" +:+ transactionIngestionServiceName +:+ "/IngestTransaction".
Definition healthCheckMethod : string := healthCheckServicePrefix +:+ "Check".

(** google.golang.org/grpc/health: the serving status by service name. *)
Class HealthServer (H : Type) := {
  health_NewServer : H;
  SetServingStatus : string → bool → H → H;
  health_Shutdown : H → H;
  health_Check : string → H → option bool    (* None: an unknown service *)
}.

Class HealthLaws (H : Type) `{Hs : !HealthServer H} (down : H → Prop) : Prop := {
  New_up : ¬ down health_NewServer;
  Set_keeps service status h : down (SetServingStatus service status h) ↔ down h;
  Check_set service status h : ¬ down h → health_Check service (SetServingStatus service status h) = Some status;
  Check_other service service' status h : service ≠ service' →
    health_Check service' (SetServingStatus service status h) = health_Check service' h;
  Check_shutdown service h : is_Some (health_Check service h) → health_Check service (health_Shutdown h) = Some false
}.

Record GRPCServer (H : Type) := { gKeys : list string; gLimiter : rateLimiter; gHealth : H }.
Arguments gKeys {H} _.
Arguments gLimiter {H} _.
Arguments gHealth {H} _.
Arguments Build_GRPCServer {H} _ _ _.

Definition NewGRPCServer {H} `{Hs : !HealthServer H} (apiKeys : list string) (RequestsPerSecond : spec_float) (Burst : Z)
    : result (GRPCServer H) :=
  authenticator ← wrap_err "configure API key authenticator: %w" (newAPIKeyAuthenticator apiKeys);
  limiter ← wrap_err "configure rate limiter: %w" (newRateLimiter RequestsPerSecond Burst);
  let healthServer := SetServingStatus transactionIngestionServiceName true
                        (SetServingStatus "" true health_NewServer) in
  Ok (Build_GRPCServer authenticator limiter healthServer).

Inductive GrpcAnswer :=
  | Ingested (eventID : string)
  | Status (c : code) (e : error)
  | Health (status : option bool)
  | BadMessage                     (* the payload does not decode *)
  | Unimplemented.

(** A decoded unary call: the event of an IngestTransactionRequest, or the service a
    health check asks for. *)
Record GrpcCall := {
  cMethod : string;
  cMetadata : option (list string);                     (* its "authorization" values *)
  cEvent : result (option TransactionEvent);
  cService : string
}.

Section serving.
Context `{Cdc : !Codec} {H W : Type} `{Hs : !HealthServer H} `{Pub : !Publisher W}.

(** authenticator.middleware(limiter.middleware(newTransactionHandler(publisher))) *)
Definition transactionsRoute (now : Z) (req : HttpRequest) (srv : Server) (w : W) : Response * Server * W :=
  let '(rsp, (limiter, w)) :=
    authMiddleware (sKeys srv)
      (λ '(limiter, w),
         let '(rsp, limiter, w) := rateMiddleware now (transactionHandler (hBody req)) (hAuthorization req) limiter w in
         (rsp, (limiter, w)))
      (hAuthorization req) (sLimiter srv, w) in
  (rsp, {| sKeys := sKeys srv; sLimiter := limiter |}, w).

Definition serveHTTP (now : Z) (req : HttpRequest) (srv : Server) (w : W) : HttpAnswer * Server * W :=
  match findHandler ingestionPatterns (hMethod req) (hPath req) with
  | Serve Healthz => (Healthy, srv, w)
  | Serve MetricsPage => (Exposition, srv, w)
  | Serve Transactions => let '(rsp, srv, w) := transactionsRoute now req srv w in (Answered rsp, srv, w)
  | r => (Routed r, srv, w)
  end.

(** A unary call: the message is decoded before the interceptors run. *)
Definition serveGRPC (now : Z) (call : GrpcCall) (srv : GRPCServer H) (w : W) : GrpcAnswer * GRPCServer H * W :=
  let intercepted := interceptors (gKeys srv) now (cMethod call) (cMetadata call) (gLimiter srv) in
  let srv' := Build_GRPCServer (gKeys srv) intercepted.2 (gHealth srv) in
  if bool_decide (cMethod call = ingestMethod) then
    match cEvent call with
    | Err _ => (BadMessage, srv, w)
    | Ok event =>
        match intercepted.1 with
        | Some (c, e) => (Status c e, srv', w)
        | None =>
            let '(r, w) := IngestTransaction event w in
            (match r with inl id => Ingested id | inr (c, e) => Status c e end, srv', w)
        end
    end
  else if bool_decide (cMethod call = healthCheckMethod) then
    match intercepted.1 with
    | Some (c, e) => (Status c e, srv', w)
    | None => (Health (health_Check (cService call) (gHealth srv)), srv', w)
    end
  else (Unimplemented, srv, w).

(** Both transports over the publisher they share. *)
Record Transports := { rest : Server; grpc : GRPCServer H; publisher : W }.

Inductive request := Http (now : Z) (req : HttpRequest) | Grpc (now : Z) (call : GrpcCall).

Definition serve (r : request) (s : Transports) : (HttpAnswer + GrpcAnswer) * Transports :=
  match r with
  | Http now req =>
      let '(a, srv, w) := serveHTTP now req (rest s) (publisher s) in
      (inl a, {| rest := srv; grpc := grpc s; publisher := w |})
  | Grpc now call =>
      let '(a, srv, w) := serveGRPC now call (grpc s) (publisher s) in
      (inr a, {| rest := rest s; grpc := srv; publisher := w |})
  end.

Fixpoint serve_all (rs : list request) (s : Transports) : Transports :=
  match rs with [] => s | r :: rs => serve_all rs (serve r s).2 end.
End serving.
Arguments Transports H W : clear implicits.

(** ** What reaches the publisher *)

(** The limiter holds buckets for keys of [keys] only. *)
Definition buckets_within (keys : list string) (limiter : rateLimiter) : Prop :=
  ∀ index shard key, shards limiter !! index = Some shard → is_Some (shard !! key) → key ∈ keys.

Lemma newRateLimiter_within keys rps b limiter : newRateLimiter rps b = Ok limiter → buckets_within keys limiter.
Proof.
  unfold newRateLimiter. destruct (SFleb _ _); [done|]. destruct (b <=? 0); [done|]. intros [= <-].
  intros index shard key. cbn. by rewrite lookup_empty.
Qed.

Lemma limiterAllow_within keys now key limiter : key ∈ keys → buckets_within keys limiter →
  buckets_within keys (limiterAllow now key limiter).2.
Proof.
  intros Hk Hw. assert (∀ bucket, buckets_within keys {| rate := rate limiter; burst := burst limiter;
    shards := <[shardIndex key := <[key := bucket]> (default ∅ (shards limiter !! shardIndex key))]> (shards limiter) |}) as Hs.
  { intros bucket index shard key'. cbn. rewrite lookup_insert. case_decide; [|by apply Hw].
    intros [= <-]. rewrite lookup_insert. case_decide; [by subst|]. intros Hin.
    destruct (shards limiter !! shardIndex key) as [sh|] eqn:E; [by eapply Hw|by destruct Hin]. }
  unfold limiterAllow. destruct (default ∅ (shards limiter !! shardIndex key) !! key) as [b|]; [|apply Hs].
  destruct (bucketAllow _ _ _ b) as [ok b']. apply Hs.
Qed.

(** The request presents [key] to the ingestion route of its transport, whose limiter
    has a token for it. *)
Definition admitted {H W} (r : request) (key : string) (s : Transports H W) : Prop :=
  match r with
  | Http now req =>
      hMethod req = "POST" ∧ segments (hPath req) = Some ["v1"; "transactions"] ∧
      hAuthorization req = "Bearer " +:+ key ∧ (limiterAllow now key (sLimiter (rest s))).1 = true
  | Grpc now call =>
      cMethod call = ingestMethod ∧ (∃ others, cMetadata call = Some (("Bearer " +:+ key) :: others)) ∧
      (limiterAllow now key (gLimiter (grpc s))).1 = true
  end.

(** The servers hold the configured keys, and buckets for these only. *)
Definition servers_ok {H W} (keys : list string) (s : Transports H W) : Prop :=
  sKeys (rest s) = keys ∧ gKeys (grpc s) = keys ∧
  buckets_within keys (sLimiter (rest s)) ∧ buckets_within keys (gLimiter (grpc s)).

Section guarded.
Context `{Cdc : !Codec} {H W : Type} `{Hs : !HealthServer H} `{Pub : !Publisher W}.

Lemma transactionsRoute_spec keys now req srv (w : W) :
  sKeys srv = keys → buckets_within keys (sLimiter srv) →
  let '(_, srv', w') := transactionsRoute now req srv w in
  sKeys srv' = keys ∧ buckets_within keys (sLimiter srv') ∧
  (w' ≠ w → ∃ key, key ∈ keys ∧ hAuthorization req = "Bearer " +:+ key ∧ (limiterAllow now key (sLimiter srv)).1 = true).
Proof.
  intros Hk Hw. unfold transactionsRoute, authMiddleware, rateMiddleware. rewrite Hk.
  destruct (bearerToken (hAuthorization req)) as [key|] eqn:Hb; [|by cbn].
  destruct (validateToken keys key) eqn:Hv; [|by cbn]. apply validateToken_elem in Hv.
  pose proof (limiterAllow_within keys now key (sLimiter srv) Hv Hw) as Hin.
  destruct (limiterAllow now key (sLimiter srv)) as [ok limiter] eqn:Ha. cbn in Hin.
  destruct ok; [|by cbn]. destruct (transactionHandler (hBody req) w) as [rsp w']. cbn.
  split; [done|]. split; [done|]. intros _. exists key. rewrite Ha. apply CutPrefix_Some in Hb. done.
Qed.

Lemma interceptors_spec keys now call limiter : buckets_within keys limiter →
  let '(refusal, limiter') := interceptors keys now (cMethod call) (cMetadata call) limiter in
  buckets_within keys limiter' ∧
  (refusal = None → CutPrefix (cMethod call) healthCheckServicePrefix = None →
   ∃ key others, key ∈ keys ∧ cMetadata call = Some (("Bearer " +:+ key) :: others) ∧ (limiterAllow now key limiter).1 = true).
Proof.
  intros Hw. unfold interceptors, authenticate, bearerTokenFromContext.
  destruct (CutPrefix (cMethod call) healthCheckServicePrefix) as [rest|]; [done|].
  destruct (cMetadata call) as [[|v others]|]; [done| |done].
  destruct (bearerToken v) as [key|] eqn:Hb; [|done]. destruct (validateToken keys key) eqn:Hv; [|done]. cbn [negb].
  apply validateToken_elem in Hv. pose proof (limiterAllow_within keys now key limiter Hv Hw) as Hin.
  destruct (limiterAllow now key limiter) as [ok limiter'] eqn:Ha. destruct ok; [|done].
  split; [done|]. intros _ _. apply CutPrefix_Some in Hb as ->. exists key, others. by rewrite Ha.
Qed.

Lemma serve_spec keys r (s : Transports H W) : servers_ok keys s →
  servers_ok keys (serve r s).2 ∧
  (publisher (serve r s).2 ≠ publisher s → ∃ key, key ∈ keys ∧ admitted r key s).
Proof.
  intros (Hr & Hg & Hbr & Hbg). destruct r as [now req|now call]; cbn [serve].
  - unfold serveHTTP. destruct (findHandler ingestionPatterns (hMethod req) (hPath req)) as [[| |]|path| | | |] eqn:Hf;
      try (split; [done|by cbn]).
    pose proof (transactionsRoute_spec keys now req (rest s) (publisher s) Hr Hbr) as Ht.
    destruct (transactionsRoute now req (rest s) (publisher s)) as [[rsp srv] w]. destruct Ht as (Hk & Hw & Hp).
    split; [done|]. cbn [snd publisher]. intros Hne. destruct (Hp Hne) as (key & Hin & Ha & Hl).
    apply findHandler_Serve in Hf as (Hm & Hpt & _). exists key. split; [done|]. cbn in Hm. bool_props.
    apply pattern_of_Transactions in Hpt. done.
  - unfold serveGRPC. rewrite Hg. pose proof (interceptors_spec keys now call (gLimiter (grpc s)) Hbg) as Hi.
    destruct (interceptors keys now (cMethod call) (cMetadata call) (gLimiter (grpc s))) as [refusal limiter].
    destruct Hi as [Hl Hi]. cbn [fst snd]. case_bool_decide as Hm.
    + destruct (cEvent call) as [event|]; [|split; [done|by cbn]].
      destruct refusal as [[c e]|]; [split; [done|by cbn]|].
      destruct (IngestTransaction event (publisher s)) as [answer w]. split; [done|]. intros _.
      destruct Hi as (key & others & Hin & Hmeta & Ha); [done|by rewrite Hm|].
      exists key. split; [done|]. split; [done|]. split; [by exists others|done].
    + case_bool_decide; [destruct refusal as [[c e]|]|]; (split; [done|by cbn]).
Qed.

(** Away from the transactions route the processor's server answers as the ingestion
    service's does, so one probe and one scrape configuration fits both. *)
Lemma metricsServer_agrees now req srv (w : W) : pattern_of (hPath req) ≠ Some Transactions →
  serveHTTP now req srv w = (metricsServer (hMethod req) (hPath req), srv, w).
Proof.
  intros Hp. unfold serveHTTP, metricsServer, findHandler. case_bool_decide; [by case_bool_decide|].
  assert (∀ q, pattern_of q ≠ Some Transactions →
    dispatch ingestionPatterns (hMethod req) q = dispatch processorPatterns (hMethod req) q ∧
    dispatch processorPatterns (hMethod req) q ≠ Serve Transactions) as Hd.
  { intros q Hq. unfold dispatch. destruct (pattern_of q) as [[| |]|]; try done; cbn; by repeat case_match. }
  case_bool_decide; [|cbv zeta; case_bool_decide as E; cbn [negb]; [rewrite E|done]];
    destruct (Hd (hPath req) Hp) as [-> Hn]; by repeat case_match.
Qed.

Lemma serve_all_ok keys rs (s : Transports H W) : servers_ok keys s → servers_ok keys (serve_all rs s).
Proof.
  revert s. induction rs as [|r rs IH]; intros s Hok; cbn [serve_all]; [done|]. apply IH. by apply serve_spec.
Qed.

Lemma servers_start apiKeys rps b srv gsrv (w : W) :
  NewServer apiKeys rps b = Ok srv → NewGRPCServer (H := H) apiKeys rps b = Ok gsrv →
  servers_ok apiKeys {| rest := srv; grpc := gsrv; publisher := w |} ∧ Forall (λ k, k ≠ "") apiKeys.
Proof.
  intros (a & Ha%wrap_err_Ok & H1)%result_bind_Ok (a' & Ha'%wrap_err_Ok & H2)%result_bind_Ok.
  apply result_bind_Ok in H1 as (l & Hl%wrap_err_Ok & [= <-]). apply result_bind_Ok in H2 as (l' & Hl'%wrap_err_Ok & [= <-]).
  apply newAPIKeyAuthenticator_keys in Ha as [-> Hne]. apply newAPIKeyAuthenticator_keys in Ha' as [-> _].
  split; [|done]. split; [done|]. split; [done|]. split; by eapply newRateLimiter_within.
Qed.

(** C31. Both transports guard the publisher: after any history of HTTP and gRPC requests,
    whatever their paths, methods, headers and bodies, the next request changes
    nothing behind the API unless it is a POST of /v1/transactions or a call of
    IngestTransaction that presents a configured API key with a token left in its
    transport's bucket; and the limiters hold buckets for configured keys only, so
    no client without a key makes them grow. *)
Theorem publisher_guarded apiKeys rps b srv gsrv (w : W) history r :
  NewServer apiKeys rps b = Ok srv → NewGRPCServer (H := H) apiKeys rps b = Ok gsrv →
  let s := serve_all history {| rest := srv; grpc := gsrv; publisher := w |} in
  (publisher (serve r s).2 ≠ publisher s → ∃ key, key ≠ "" ∧ key ∈ apiKeys ∧ admitted r key s) ∧
  buckets_within apiKeys (sLimiter (rest s)) ∧ buckets_within apiKeys (gLimiter (grpc s)).
Proof.
  intros Hsrv Hgsrv s. destruct (servers_start apiKeys rps b srv gsrv w Hsrv Hgsrv) as [Hok Hne].
  assert (servers_ok apiKeys s) as Hs' by by apply serve_all_ok.
  split; [|by destruct Hs' as (_ & _ & ? & ?)]. intros Hp.
  destruct (serve_spec apiKeys r s Hs') as [_ Ha]. destruct (Ha Hp) as (key & Hin & Had).
  exists key. split; [|done]. rewrite Forall_forall in Hne. by apply Hne.
Qed.

(** The health service starts out SERVING for the server and for the ingestion
    service, and reports NOT_SERVING for both once Shutdown has begun. *)
Theorem health_follows_lifecycle (down : H → Prop) `{Hl : !HealthLaws H down} apiKeys rps b gsrv service :
  NewGRPCServer apiKeys rps b = Ok gsrv → service = "" ∨ service = transactionIngestionServiceName →
  health_Check service (gHealth gsrv) = Some true ∧
  health_Check service (health_Shutdown (gHealth gsrv)) = Some false.
Proof.
  intros Hnew Hsv. assert (health_Check service (gHealth gsrv) = Some true) as E.
  { apply result_bind_Ok in Hnew as (a & _ & H2). apply result_bind_Ok in H2 as (l & _ & [= <-]). cbn [gHealth].
    destruct Hsv as [-> | ->].
    - rewrite Check_other by done. apply Check_set, New_up.
    - apply Check_set. rewrite Set_keeps. apply New_up. }
  split; [done|]. apply Check_shutdown. by rewrite E.
Qed.
End guarded.

(** ** Witnesses *)
Record MemHealth := { statusMap : gmap string bool; isShutdown : bool }.

Definition memSetStatus (service : string) (status : bool) (h : MemHealth) : MemHealth :=
  if isShutdown h then h else {| statusMap := <[service := status]> (statusMap h); isShutdown := false |}.

#[local] Instance memHealth : HealthServer MemHealth := {|
  health_NewServer := {| statusMap := ∅; isShutdown := false |};
  SetServingStatus := memSetStatus;
  health_Shutdown h := {| statusMap := (λ _, false) <$> statusMap h; isShutdown := true |};
  health_Check service h := statusMap h !! service
|}.

#[local] Instance memHealthLaws : HealthLaws MemHealth (λ h, isShutdown h = true).
Proof.
  split; cbn.
  - done.
  - intros service status [m []]; done.
  - intros service status [m []]; [by intros []|]. intros _. apply lookup_insert_eq.
  - intros service service' status [m []] Hne; [done|]. by apply lookup_insert_ne.
  - intros service h [v E]. by rewrite lookup_fmap, E.
Qed.

#[local] Existing Instance plainCodec.

(** A publisher that counts what it accepts. *)
#[local] Instance countingPublisher : Publisher nat := λ _ n, (Ok tt, S n).

Definition sampleCall : GrpcCall :=
  {| cMethod := ingestMethod; cMetadata := Some ["Bearer k1"];
     cEvent := Ok (Some {| pEventId := hex sampleUUID; pTenantId := "acme-1"; pInstrument := "BRK.B";
       pSide := SIDE_SELL; pQuantity := 1250000000; pPrice := 100000000000; pCurrency := "USD"; pOccurredAt := Some (0, 7) |});
     cService := "" |}.

Definition samplePost : HttpRequest :=
  {| hMethod := "POST"; hPath := "/v1/transactions"; hAuthorization := "Bearer k1"; hBody := encode (request_json sampleRequest) |}.

(** Two keys, one request per second, a burst of one. *)
Definition sampleServer : Server :=
  {| sKeys := ["k1"; "k2"]; sLimiter := {| rate := f64_one; burst := f64_one; shards := ∅ |} |}.
Definition sampleGRPC : GRPCServer MemHealth :=
  match NewGRPCServer ["k1"; "k2"] f64_one 1 with Ok s => s | Err _ => Build_GRPCServer [] (sLimiter sampleServer) health_NewServer end.
Definition sampleTransports : Transports MemHealth nat :=
  {| rest := sampleServer; grpc := sampleGRPC; publisher := 0%nat |}.

Lemma publisher_guarded_witness :
  ∃ key, key ≠ "" ∧ key ∈ ["k1"; "k2"] ∧
    admitted (Grpc 5 sampleCall) key (serve_all [Http 5 samplePost; Http 6 samplePost] sampleTransports).
Proof.
  refine (proj1 (publisher_guarded (H := MemHealth) (W := nat) ["k1"; "k2"] f64_one 1 sampleServer sampleGRPC 0%nat
    [Http 5 samplePost; Http 6 samplePost] (Grpc 5 sampleCall) _ _) _).
  - vm_compute. reflexivity.
  - vm_compute. reflexivity.
  - vm_compute. congruence.
Defined.

Lemma health_follows_lifecycle_witness :
  health_Check "" (gHealth sampleGRPC) = Some true ∧ health_Check "" (health_Shutdown (gHealth sampleGRPC)) = Some false.
Proof.
  apply (health_follows_lifecycle (H := MemHealth) (λ h, isShutdown h = true) ["k1"; "k2"] f64_one 1).
  - vm_compute. reflexivity.
  - by left.
Defined.

(** Each transport has a limiter of its own: with a burst of one, the same key is
    served once by each at the same instant, and refused by each the second time. *)
Example limits_per_transport :
  let s1 := serve (Http 5 samplePost) sampleTransports in
  let s2 := serve (Grpc 5 sampleCall) s1.2 in
  let s3 := serve (Http 5 samplePost) s2.2 in
  let s4 := serve (Grpc 5 sampleCall) s3.2 in
  s1.1 = inl (Answered (StatusAccepted, None)) ∧ s2.1 = inr (Ingested (hex sampleUUID)) ∧
  s3.1 = inl (Answered (StatusTooManyRequests, Some (Errorf "rate limit exceeded"))) ∧
  s4.1 = inr (Status ResourceExhausted (Errorf "rate limit exceeded")) ∧ publisher s4.2 = 2%nat.
Proof. vm_compute. done. Qed.
