(* ===== verification/GrpcShutdown.v ===== *)
(** * Starting and stopping the gRPC server (internal/api/grpc_server.go)

    GRPCServer.Start, and GRPCServer.Shutdown as a step relation: the caller, the
    goroutine that runs GracefulStop and closes a channel, and the environment (calls
    that arrive and end, a context that expires).  grpc-go's Server is a class with
    the laws its documentation states.  The theorems: what holds when Shutdown has
    returned, and that it returns once its context is done or the calls in flight
    have ended, and its goroutine once the handlers have returned. *)
From S2P Require Import Prelude Api Servers.

(** ** What google.golang.org/grpc promises of a Server

    [GracefulStop] refuses new calls, then blocks until none is pending: the two
    halves are [refuse] and the guard on [pending] of the step that returns.  [Stop]
    closes the connections and cancels the calls on them, but does not wait for
    their handlers, since the server is built without WaitForHandlers: they stay
    pending until they return. *)
Class GrpcServer (G : Type) := {
  rpc_moves : G → G → Prop;        (* a call arrives, or a handler returns *)
  accepting : G → bool;
  pending : G → nat;               (* handlers running *)
  served : G → nat;                (* of these, the ones whose client is still connected *)
  dropped : G → nat;               (* calls whose connection was closed before their end *)
  refuse : G → G;
  Stop : G → G
}.

Class GrpcServerLaws (G : Type) `{Gs : !GrpcServer G} : Prop := {
  served_pending g : (served g ≤ pending g)%nat;
  moves_accepting g g' : rpc_moves g g' → accepting g' = accepting g;
  moves_pending g g' : rpc_moves g g' → accepting g = false → (pending g' ≤ pending g)%nat;
  moves_served g g' : rpc_moves g g' → accepting g = false → (served g' ≤ served g)%nat;
  moves_dropped g g' : rpc_moves g g' → dropped g' = dropped g;
  refuse_accepting g : accepting (refuse g) = false;
  refuse_pending g : pending (refuse g) = pending g;
  refuse_served g : served (refuse g) = served g;
  refuse_dropped g : dropped (refuse g) = dropped g;
  Stop_accepting g : accepting (Stop g) = false;
  Stop_pending g : (pending (Stop g) ≤ pending g)%nat;
  Stop_served g : served (Stop g) = 0%nat
}.

(** ** Start

    [listen] is net.Listen's answer, [Serve] what the server's Serve returns: nil once
    the server is stopped, ErrServerStopped if it already was. *)
Definition GRPCServer_Start {L} (listen : result L) (Serve : L → option error) : error :=
  match listen with
  | Err err => err
  | Ok listener => match Serve listener with Some err => err | None => Sentinel ErrServerStopped end
  end.

(** What cmd/ingestion's goroutine sends for it. *)
Definition grpcServerError (err : error) : option error :=
  if errors_Is err ErrServerStopped then None else Some (Wrapf "ingestion gRPC server: %w" err).

Lemma Start_stopped {L} (l : L) Serve :
  (∀ err, Serve l = Some err → errors_Is err ErrServerStopped = true) →
  grpcServerError (GRPCServer_Start (Ok l) Serve) = None.
Proof. intros Hs. unfold grpcServerError, GRPCServer_Start. destruct (Serve l) as [err|]; [by rewrite Hs|done]. Qed.

Lemma Start_failed {L} listen (Serve : L → option error) err :
  grpcServerError (GRPCServer_Start listen Serve) = Some err →
  ∃ e, err = Wrapf "ingestion gRPC server: %w" e ∧ (listen = Err e ∨ ∃ l, listen = Ok l ∧ Serve l = Some e).
Proof.
  unfold grpcServerError, GRPCServer_Start. destruct listen as [l|e]; [destruct (Serve l) as [e|] eqn:E|];
    try (by case_match); case_match; intros [= <-]; eauto 10.
Qed.

(** ** Shutdown *)
Inductive main_pc :=
  | HealthDown                     (* srv.health.Shutdown() *)
  | Spawn                          (* stopped := make(...); go func() *)
  | Select
  | ForceStop                      (* case <-ctx.Done(): srv.server.Stop() *)
  | ReadErr                        (* return ctx.Err() *)
  | Returned (r : option error).

Inductive stopper_pc :=
  | NotSpawned
  | Graceful                       (* srv.server.GracefulStop() *)
  | Blocked                        (* inside it, new calls refused *)
  | Closing                        (* close(stopped) *)
  | Exited.

Section shutdown.
Context {H G : Type} `{Hs : !HealthServer H} `{Gs : !GrpcServer G}.

Record state := {
  health : H;
  server : G;
  ctxErr : option error;           (* ctx.Err(): None until ctx is done *)
  stopped : bool;                  (* the channel is closed *)
  main : main_pc;
  stopper : stopper_pc
}.

Definition init (h : H) (g : G) (ctx : option error) : state :=
  {| health := h; server := g; ctxErr := ctx; stopped := false; main := HealthDown; stopper := NotSpawned |}.

(** A step of one of Shutdown's two goroutines. *)
Inductive own : state → state → Prop :=
  | health_down h g c st sp :
      own (Build_state h g c st HealthDown sp) (Build_state (health_Shutdown h) g c st Spawn sp)
  | spawn h g c st :
      own (Build_state h g c st Spawn NotSpawned) (Build_state h g c st Select Graceful)
  | graceful_refuses h g c st m :
      own (Build_state h g c st m Graceful) (Build_state h (refuse g) c st m Blocked)
  | graceful_returns h g c st m :
      pending g = 0%nat →
      own (Build_state h g c st m Blocked) (Build_state h g c st m Closing)
  | closes h g c st m :
      own (Build_state h g c st m Closing) (Build_state h g c true m Exited)
  | select_stopped h g c sp :
      own (Build_state h g c true Select sp) (Build_state h g c true (Returned None) sp)
  | select_done h g err st sp :
      own (Build_state h g (Some err) st Select sp) (Build_state h g (Some err) st ForceStop sp)
  | force_stop h g c st sp :
      own (Build_state h g c st ForceStop sp) (Build_state h (Stop g) c st ReadErr sp)
  | read_err h g c st sp :
      own (Build_state h g c st ReadErr sp) (Build_state h g c st (Returned c) sp).

(** The environment: calls, and the context, whose error stays once it is set. *)
Inductive environment : state → state → Prop :=
  | calls_move h g g' c st m sp :
      rpc_moves g g' → environment (Build_state h g c st m sp) (Build_state h g' c st m sp)
  | ctx_expires h g err st m sp :
      environment (Build_state h g None st m sp) (Build_state h g (Some err) st m sp).

(** A run, with the number of Shutdown's own steps. *)
Inductive runs (s0 : state) : nat → state → Prop :=
  | runs_start : runs s0 0 s0
  | runs_own n s s' : runs s0 n s → own s s' → runs s0 (S n) s'
  | runs_environment n s s' : runs s0 n s → environment s s' → runs s0 n s'.

Definition main_measure (m : main_pc) : nat :=
  match m with HealthDown => 5 | Spawn => 4 | Select => 3 | ForceStop => 2 | ReadErr => 1 | Returned _ => 0 end.
Definition stopper_measure (p : stopper_pc) : nat :=
  match p with NotSpawned => 3 | Graceful => 3 | Blocked => 2 | Closing => 1 | Exited => 0 end.
Definition measure (s : state) : nat := (main_measure (main s) + stopper_measure (stopper s))%nat.

Lemma own_measure s s' : own s s' → (measure s' < measure s)%nat.
Proof. destruct 1; unfold measure; cbn; lia. Qed.
Lemma environment_measure s s' : environment s s' → measure s' = measure s.
Proof. by destruct 1. Qed.

Lemma runs_measure s0 n s : runs s0 n s → (n + measure s ≤ measure s0)%nat.
Proof.
  induction 1 as [|n s s' _ IH Ho|n s s' _ IH He]; [done| |].
  - apply own_measure in Ho. lia.
  - apply environment_measure in He. lia.
Qed.

(** *** The invariant *)
Definition begun (m : main_pc) : bool := match m with HealthDown => false | _ => true end.
Definition quiet (g : G) : Prop := accepting g = false ∧ pending g = 0%nat.
Definition cut (g : G) : Prop := accepting g = false ∧ served g = 0%nat.

Record inv (h0 : H) (g0 : G) (s : state) : Prop := {
  inv_health : health s = if begun (main s) then health_Shutdown h0 else h0;
  inv_spawned : stopper s = NotSpawned ↔ (main s = HealthDown ∨ main s = Spawn);
  inv_refusing : match stopper s with
                 | NotSpawned | Graceful => True
                 | Blocked => accepting (server s) = false
                 | Closing | Exited => quiet (server s)
                 end;
  inv_stopped : stopped s = true ↔ stopper s = Exited;
  inv_main : match main s with
             | HealthDown | Spawn | Select => dropped (server s) = dropped g0
             | ForceStop => is_Some (ctxErr s)
             | ReadErr => is_Some (ctxErr s) ∧ cut (server s)
             | Returned None => quiet (server s) ∧ dropped (server s) = dropped g0
             | Returned (Some err) => cut (server s) ∧ ctxErr s = Some err
             end
}.

Context `{Gl : !GrpcServerLaws G}.

Lemma quiet_moves g g' : rpc_moves g g' → quiet g → quiet g'.
Proof.
  intros Hm [Ha Hp]. split; [by rewrite (moves_accepting g g')|]. pose proof (moves_pending g g' Hm Ha). lia.
Qed.
Lemma quiet_refuse g : quiet g → quiet (refuse g).
Proof. intros [_ Hp]. split; [apply refuse_accepting|by rewrite refuse_pending]. Qed.
Lemma quiet_Stop g : quiet g → quiet (Stop g).
Proof. intros [_ Hp]. split; [apply Stop_accepting|]. pose proof (Stop_pending g). lia. Qed.
Lemma cut_moves g g' : rpc_moves g g' → cut g → cut g'.
Proof.
  intros Hm [Ha Hp]. split; [by rewrite (moves_accepting g g')|]. pose proof (moves_served g g' Hm Ha). lia.
Qed.
Lemma cut_refuse g : cut g → cut (refuse g).
Proof. intros [_ Hp]. split; [apply refuse_accepting|by rewrite refuse_served]. Qed.
Lemma cut_Stop g : cut (Stop g).
Proof. split; [apply Stop_accepting|apply Stop_served]. Qed.

Lemma own_inv h0 g0 s s' : own s s' → inv h0 g0 s → inv h0 g0 s'.
Proof.
  destruct 1 as [h g c st sp|h g c st|h g c st m|h g c st m Hp|h g c st m|h g c sp|h g err st sp|h g c st sp|h g c st sp];
    intros [I1 I2 I3 I4 I5]; cbn in *.
  - split; cbn; [by rewrite I1|naive_solver|done..].
  - split; cbn; try done; naive_solver.
  - split; cbn; [done|naive_solver|apply refuse_accepting|naive_solver|].
    destruct m as [| | | | |[err|]]; rewrite ?refuse_dropped; naive_solver eauto using quiet_refuse, cut_refuse.
  - split; cbn; [done|naive_solver|by split|naive_solver|done].
  - split; cbn; [done|naive_solver|done..].
  - assert (sp = Exited) as -> by by apply I4. split; cbn; try done; naive_solver.
  - split; cbn; try done; naive_solver.
  - pose proof (cut_Stop g) as Hq. split; cbn; [done|naive_solver| |done|by split].
    destruct sp; try done; [apply Stop_accepting|by apply quiet_Stop..].
  - split; cbn; try done; [naive_solver|]. destruct I5 as [[err ->] Hq]. done.
Qed.

Lemma environment_inv h0 g0 s s' : environment s s' → inv h0 g0 s → inv h0 g0 s'.
Proof.
  destruct 1 as [h g g' c st m sp Hm|h g err st m sp]; intros [I1 I2 I3 I4 I5]; cbn in *.
  - pose proof (quiet_moves g g' Hm) as Hq. pose proof (cut_moves g g' Hm) as Hcut. split; cbn; try done.
    + destruct sp; auto. by rewrite (moves_accepting g g' Hm).
    + rewrite (moves_dropped g g' Hm). destruct m as [| | | | |[err|]]; naive_solver.
  - split; cbn; try done. destruct m as [| | | | |[e|]]; naive_solver.
Qed.

Lemma runs_inv h0 g0 ctx n s : runs (init h0 g0 ctx) n s → inv h0 g0 s.
Proof.
  induction 1 as [|n s s' _ IH Ho|n s s' _ IH He]; [|by eapply own_inv|by eapply environment_inv].
  split; cbn; try done; naive_solver.
Qed.

(** The caller is never stuck once the context is done. *)
Lemma caller_progress h0 g0 s : inv h0 g0 s → is_Some (ctxErr s) →
  (∃ r, main s = Returned r) ∨ ∃ s', own s s' ∧ main s' ≠ main s.
Proof.
  destruct s as [h g c st m sp]. intros [_ I2 _ _ _]. cbn in *. intros [err ->].
  destruct m as [| | | | |r]; [| | | | |by left; exists r]; right; try (eexists; split; [constructor|done]).
  assert (sp = NotSpawned) as -> by naive_solver. eexists. split; [constructor|done].
Qed.

(** With no handler running, one of the two goroutines can move or both are done. *)
Lemma drained_progress h0 g0 s : inv h0 g0 s → pending (server s) = 0%nat →
  (∃ s', own s s') ∨ ∃ r, main s = Returned r ∧ stopper s = Exited.
Proof.
  destruct s as [h g c st m sp]. intros [I1 I2 I3 I4 I5] Hp. cbn in *.
  destruct sp; try (left; eexists; by constructor).
  - assert (m = HealthDown ∨ m = Spawn) as [-> | ->] by naive_solver; left; eexists; constructor.
  - assert (st = true) as -> by naive_solver. destruct m as [| | | | |r]; try (left; eexists; constructor); naive_solver.
Qed.
End shutdown.
Arguments state H G : clear implicits.

Section stops.
Context {H G : Type} `{Hs : !HealthServer H} `{Gs : !GrpcServer G} `{Gl : !GrpcServerLaws G}.

(** C38. What Shutdown leaves, however calls and the context's end interleave with it: the
    health service reports NOT_SERVING for every service it knew, no call is
    accepted, and none is in flight on an open connection; if nil was returned no
    handler is running and no call was dropped, and an error is the context's own
    (handlers of the calls it cut off may then still be running). *)
Theorem shutdown_result (down : H → Prop) `{Hl : !HealthLaws H down} h0 (g0 : G) ctx n (s : state H G) r :
  runs (init h0 g0 ctx) n s → main s = Returned r →
  (∀ service, is_Some (health_Check service h0) → health_Check service (health s) = Some false) ∧
  accepting (server s) = false ∧ served (server s) = 0%nat ∧
  match r with
  | None => pending (server s) = 0%nat ∧ dropped (server s) = dropped g0
  | Some err => ctxErr s = Some err
  end.
Proof.
  intros [I1 _ _ _ I5]%runs_inv E. rewrite E in I1, I5. cbn in I1.
  split; [intros service; rewrite I1; apply Check_shutdown|]. destruct r as [err|]; destruct I5 as [[Ha Hp] ?]; [done|].
  pose proof (served_pending (server s)). split; [done|]. split; [lia|done].
Qed.

(** C39. Shutdown ends: its two goroutines take at most eight steps between them; once the
    context is done its caller can always take a step of its own until it has
    returned, whatever the calls in flight do; and whenever no handler is running
    one of the goroutines can move or both have finished, so the goroutine of
    GracefulStop is left waiting for handlers only. *)
Theorem shutdown_ends h0 (g0 : G) ctx n (s : state H G) :
  runs (init h0 g0 ctx) n s →
  (n ≤ 8)%nat ∧
  (is_Some (ctxErr s) → (∃ r, main s = Returned r) ∨ ∃ s', own s s' ∧ main s' ≠ main s) ∧
  (pending (server s) = 0%nat → (∃ s', own s s') ∨ ∃ r, main s = Returned r ∧ stopper s = Exited).
Proof.
  intros Hr. split; [|split; [by eapply caller_progress, runs_inv|by eapply drained_progress, runs_inv]].
  apply runs_measure in Hr. unfold measure in Hr. cbn in Hr. lia.
Qed.
End stops.

(** ** Witnesses *)
Record MemServer := { msAccepting : bool; msServed : nat; msCut : nat; msDropped : nat }.

Definition memStop (g : MemServer) : MemServer :=
  {| msAccepting := false; msServed := 0; msCut := msCut g + msServed g; msDropped := msDropped g + msServed g |}.

Inductive mem_moves : MemServer → MemServer → Prop :=
  | mem_arrives p o d : mem_moves {| msAccepting := true; msServed := p; msCut := o; msDropped := d |}
                          {| msAccepting := true; msServed := S p; msCut := o; msDropped := d |}
  | mem_ends a p o d : mem_moves {| msAccepting := a; msServed := S p; msCut := o; msDropped := d |}
                         {| msAccepting := a; msServed := p; msCut := o; msDropped := d |}
  | mem_ends_cut a p o d : mem_moves {| msAccepting := a; msServed := p; msCut := S o; msDropped := d |}
                             {| msAccepting := a; msServed := p; msCut := o; msDropped := d |}.

#[local] Instance memServer : GrpcServer MemServer := {|
  rpc_moves := mem_moves; accepting := msAccepting; pending g := (msServed g + msCut g)%nat; served := msServed;
  dropped := msDropped;
  refuse g := {| msAccepting := false; msServed := msServed g; msCut := msCut g; msDropped := msDropped g |};
  Stop := memStop
|}.

#[local] Instance memServerLaws : GrpcServerLaws MemServer.
Proof. split; try done; try (by (destruct 1; cbn; try done; lia)); intros g; cbn; lia. Qed.

#[local] Existing Instances memHealth memHealthLaws.

(** One call in flight ends after GracefulStop has begun. *)
Definition oneCall : MemServer := {| msAccepting := true; msServed := 1; msCut := 0; msDropped := 0 |}.
Definition noCall : MemServer := {| msAccepting := false; msServed := 0; msCut := 0; msDropped := 0 |}.
Definition downHealth : MemHealth := health_Shutdown (gHealth sampleGRPC).

Lemma drained_run : runs (init (gHealth sampleGRPC) oneCall None) 6
  {| health := downHealth; server := noCall; ctxErr := None; stopped := true; main := Returned None; stopper := Exited |}.
Proof.
  eapply runs_own; [|apply select_stopped]. eapply runs_own; [|apply closes].
  eapply runs_own; [|by apply graceful_returns]. eapply runs_environment; [|apply calls_move, mem_ends].
  eapply runs_own; [|exact (graceful_refuses downHealth oneCall None false Select)]. eapply runs_own; [|apply spawn].
  eapply runs_own; [|apply health_down]. apply runs_start.
Qed.

Lemma shutdown_result_witness :
  health_Check "" downHealth = Some false ∧ pending noCall = 0%nat ∧ msDropped noCall = msDropped oneCall.
Proof.
  destruct (shutdown_result (λ h, isShutdown h = true) _ _ _ _ _ _ drained_run eq_refl) as (Hh & _ & _ & Hp & Hd).
  split; [apply Hh; vm_compute; by eexists|]. by split.
Defined.

(** The context is done while a call is in flight and GracefulStop waits for it. *)
Definition waiting : state MemHealth MemServer :=
  {| health := downHealth; server := refuse oneCall; ctxErr := Some (Errorf "context canceled"); stopped := false;
     main := Select; stopper := Blocked |}.

Lemma waiting_run : runs (init (gHealth sampleGRPC) oneCall (Some (Errorf "context canceled"))) 3 waiting.
Proof.
  eapply runs_own; [|exact (graceful_refuses downHealth oneCall _ false Select)]. eapply runs_own; [|apply spawn].
  eapply runs_own; [|apply health_down]. apply runs_start.
Qed.

Lemma shutdown_ends_witness :
  pending (server waiting) = 1%nat ∧ (∃ s', own waiting s' ∧ main s' ≠ Select) ∧
  ∃ r, Returned None = Returned r ∧ Exited = Exited.
Proof.
  destruct (shutdown_ends _ _ _ _ _ waiting_run) as (_ & Hcaller & _). split; [reflexivity|].
  split; [destruct (Hcaller (mk_is_Some _ _ eq_refl)) as [[r Hr]|H]; [discriminate Hr|exact H]|].
  destruct (shutdown_ends _ _ _ _ _ drained_run) as (_ & _ & Hdone).
  destruct (Hdone eq_refl) as [[s' Hs]|H]; [inversion Hs|exact H].
Defined.

(** A context that is done at once drops the call in flight; its handler may still run. *)
Example expired_context_drops : ∃ s : state MemHealth MemServer,
  runs (init (gHealth sampleGRPC) oneCall (Some (Errorf "context canceled"))) 5 s ∧
  main s = Returned (Some (Errorf "context canceled")) ∧ dropped (server s) = 1%nat ∧ pending (server s) = 1%nat.
Proof.
  eexists. split.
  - eapply runs_own; [|apply read_err]. eapply runs_own; [|apply force_stop]. eapply runs_own; [|apply select_done].
    eapply runs_own; [|apply spawn]. eapply runs_own; [|apply health_down]. apply runs_start.
  - done.
Qed.
