(* ===== verification/System.v ===== *)
(** * The two services together (cmd/ingestion/main.go, cmd/processor/main.go)

    The processor stack is the Kafka consumer over Reconcile over the breaker-
    guarded Postgres repositories; the ingestion stack is the gRPC or REST
    handler over the publish chain.  The theorems compose the components: what the
    consumer has fetched is settled in the ledger or dead-lettered, and what
    ingestion acknowledged, once delivered, is. *)
From S2P Require Import Prelude GoJson GoUnmarshal GoTime GoCalendar Metrics Amount CoreBreaker Ledger Storage LedgerBreaker Processor Wire.
From S2P Require Import KafkaConsumer Partitioner Ingestion Api.

(** ** The processor *)

(** *** The instrumented reconciler (internal/processor/metrics.go) *)
(** The counters by outcome, the number of latency observations by tenant label
    and outcome, and the breaker gauges by repository. *)
Record ReconcilerMetrics := {
  reconciledTotal : gmap string Z;
  durationCounts : gmap (string * string) Z;
  breakerGauges : gmap string Z
}.

Record Observed (W : Type) := { oNext : W; oMetrics : ReconcilerMetrics }.
Arguments oNext {W} _.
Arguments oMetrics {W} _.
Arguments Build_Observed {W} _ _.

Definition increase `{Countable L} (k : L) (m : gmap L Z) : gmap L Z := <[k := default 0 (m !! k) + 1]> m.

(** The gauge value of a repository breaker's state: the constants of
    internal/processor/metrics.go, not of internal/ingestion. *)
Definition breakerStateValue (s : State) : Z :=
  match s with Closed => 0 | Open => 2 | HalfOpen => 1 end.

(** The breakers are optional and only read when a call is recorded. *)
Definition NewInstrumentedReconciler {W} (next : option W) (reportedMetrics : option ReconcilerMetrics)
    : result (Observed W) :=
  match next, reportedMetrics with
  | None, _ => Err (Errorf "new instrumented reconciler: next reconciler must not be nil")
  | Some _, None => Err (Errorf "new instrumented reconciler: metrics must not be nil")
  | Some w, Some m => Ok (Build_Observed w m)
  end.

Definition setGauge {W} (repository : string) (breaker : option (W → State)) (w : W) (m : gmap string Z)
    : gmap string Z :=
  match breaker with
  | Some state => <[repository := breakerStateValue (state w)]> m
  | None => m
  end.

(** [transactionsBreaker] and [statesBreaker] read the breakers' states, if any. *)
Definition InstrumentedReconciler_Reconcile {W} (known : gset string)
    (transactionsBreaker statesBreaker : option (W → State)) (next : Transaction → W → result unit * W)
    (txn : Transaction) (o : Observed W) : result unit * Observed W :=
  let '(res, w) := next txn (oNext o) in
  let outcome := if failed res then "failure" else "success" in
  let label := KnownTenants_TenantLabel known (TenantID txn) in
  let m := oMetrics o in
  (res,
   Build_Observed w
     {| reconciledTotal := increase outcome (reconciledTotal m);
        durationCounts := increase (label, outcome) (durationCounts m);
        breakerGauges := setGauge "reconciled_state" statesBreaker w
                           (setGauge "transactions" transactionsBreaker w (breakerGauges m)) |}).

Section processor.
Context {W : Type} `{!TransactionRepository W, !ReconciledStateRepository W}.
Context (view : W → Database) (inv : W → Prop) `{Hlaws : !RepositoryLaws W view inv}.
Context (known : gset string) (transactionsBreaker statesBreaker : option (W → State)).

(** The reconciler cmd/processor hands to the consumer. *)
Definition reconciler : Transaction → Observed W → result unit * Observed W :=
  InstrumentedReconciler_Reconcile known transactionsBreaker statesBreaker (λ txn, run (Reconcile txn)).

Definition world_ok (o : Observed W) : Prop := inv (oNext o) ∧ db_inv (view (oNext o)).

Lemma exec_keeps txn p db a db' :
  exec p db a db' → db_inv db → thread_ok db txn p →
  db_inv db' ∧ thread_ok db' txn (Return a) ∧ db_le db db'.
Proof.
  induction 1 as [a db|p db p' db1 a db2 Hc He IH]; intros Hi Ht; [done|].
  destruct (thread_step _ _ _ _ _ Hi Ht Hc) as [Hi1 Ht1]. destruct (IH Hi1 Ht1) as (? & ? & Hle).
  split_and!; [done..|]. by eapply db_le_trans; [eapply call_le|].
Qed.

Lemma reconciler_spec txn o : world_ok o →
  world_ok (reconciler txn o).2 ∧ db_le (view (oNext o)) (view (oNext (reconciler txn o).2)) ∧
  ((reconciler txn o).1 = Ok tt → settled (view (oNext (reconciler txn o).2)) txn).
Proof.
  intros [Hi Hdb]. destruct (run_exec view inv (Reconcile txn) (oNext o) Hi) as [He Hi'].
  apply (exec_keeps txn) in He as (? & Ht & ?); [|done|constructor].
  unfold reconciler, InstrumentedReconciler_Reconcile, world_ok.
  destruct (run (Reconcile txn) (oNext o)) as [res w]. cbn in *. split; [done|]. split; [done|].
  intros ->. by inversion Ht.
Qed.

Lemma reconciler_settles txn o o' : world_ok o → reconciler txn o = (Ok tt, o') → settled (view (oNext o')) txn.
Proof. intros Ho E. destruct (reconciler_spec txn o Ho) as (_ & _ & Hs). rewrite E in Hs. by apply Hs. Qed.

Lemma reconciler_stable txn t o : world_ok o → settled (view (oNext o)) txn → settled (view (oNext (reconciler t o).2)) txn.
Proof. intros Ho Hs. destruct (reconciler_spec t o Ho) as (_ & Hle & _). by eapply settled_le. Qed.

Lemma reconciler_accounted `{Cdc : !Codec} {K : Type} `{Kcl : !KafkaClient K}
    (produced fetched : K → list kRecord) `{Klaws : !KafkaLaws K produced fetched} con polls w k w' k' record :
  0 ≤ maxRetries con < MaxInt64 - 1 → world_ok w →
  Run reconciler con polls w k = (None, w', k') → record ∈ fetched k' → record ∉ fetched k →
  accounted con (λ txn o, settled (view (oNext o)) txn) produced record w' k'.
Proof.
  intros Hmax Hw Hrun Hin Hnew.
  destruct (Run_spec reconciler con (λ _, True) world_ok (λ txn o, settled (view (oNext o)) txn)) with
    (produced := produced) (fetched := fetched) (polls := polls) (d := w) (k := k) (d' := w') (k' := k')
    as (_ & _ & _ & H); try done.
  - intros txn w0 _ H0. by apply reconciler_spec.
  - intros txn w0 w1 _ H0 E. by eapply reconciler_settles.
  - intros txn txn' w0 _ H0 Hs. by eapply reconciler_stable.
  - apply Forall_forall. by intros r0 _ txn _.
  - by destruct (H record Hin).
Qed.

(** Its event id is taken by no other trade. *)
Definition owns (txn : Transaction) (db : Database) : Prop :=
  ∀ row, row ∈ rows db → EventID row = EventID txn → same_trade txn row.

Lemma settled_recorded db txn : settled db txn → owns txn db → recorded db txn.
Proof. intros (row & n & Hin & He & Hw & Hle) Ho. eapply settled_by; [done..|]. by apply Ho. Qed.

Lemma exec_rows txn p db a db' : exec p db a db' → db_inv db → thread_ok db txn p →
  ∀ row, row ∈ rows db' → row ∈ rows db ∨ same_trade txn row.
Proof.
  induction 1 as [a db|p db p' db1 a db2 Hc He IH]; intros Hi Ht; [auto|].
  destruct (thread_step _ _ _ _ _ Hi Ht Hc) as [Hi1 Ht1]. intros row [Hin|?]%(IH Hi1 Ht1); [|auto].
  by eapply call_rows.
Qed.

(** A call for the same trade, or under another event id, leaves the id to its owner. *)
Lemma reconciler_owns txn t o : (EventID t = EventID txn → same_trade txn t) →
  world_ok o → owns txn (view (oNext o)) → owns txn (view (oNext (reconciler t o).2)).
Proof.
  intros Hq [Hi Hdb] Ho row. destruct (run_exec view inv (Reconcile t) (oNext o) Hi) as [He _].
  pose proof (exec_rows t _ _ _ _ He Hdb ltac:(constructor)) as Hrows. unfold reconciler, InstrumentedReconciler_Reconcile.
  destruct (run (Reconcile t) (oNext o)) as [res w]. cbn in *. intros [Hin|Hs]%Hrows E; [by apply Ho|].
  eapply same_trade_trans; [apply Hq|exact Hs]. by rewrite (same_trade_event _ _ Hs).
Qed.

(** A record's own trade is recorded, or its event id belongs to another one: a row
    that was there before, or a record that was handed out. *)
Lemma reconciler_records `{Cdc : !Codec} {K : Type} `{Kcl : !KafkaClient K}
    (produced fetched : K → list kRecord) `{Klaws : !KafkaLaws K produced fetched} con polls w k w' k' record txn :
  0 ≤ maxRetries con < MaxInt64 - 1 → world_ok w →
  Run reconciler con polls w k = (None, w', k') → record ∈ fetched k' → record ∉ fetched k →
  decodeTransaction (rValue record) = Ok txn →
  recorded (view (oNext w')) txn ∨ dead_lettered con produced record k' ∨
  ∃ other, EventID other = EventID txn ∧ ¬ same_trade txn other ∧
    (other ∈ rows (view (oNext w)) ∨ ∃ r, r ∈ fetched k' ∧ decodeTransaction (rValue r) = Ok other).
Proof.
  intros Hmax Hw Hrun Hin Hnew Hd. pose (Q t := EventID t = EventID txn → same_trade txn t).
  assert (∀ t, {Q t} + {EventID t = EventID txn ∧ ¬ same_trade txn t}) as Qdec.
  { intros t. unfold Q. destruct (decide (EventID t = EventID txn)), (decide (same_trade txn t)); auto. left. by intros ?. }
  destruct (Forall_Exists_dec _ _ Qdec (rows (view (oNext w)))) as [Hrows|(other & Ho & ? & ?)%Exists_exists].
  2: { right. right. exists other. auto. }
  assert (∀ r, {carries Q r} + {∃ other, decodeTransaction (rValue r) = Ok other ∧ EventID other = EventID txn ∧ ¬ same_trade txn other}) as Cdec.
  { intros r. unfold carries. destruct (decodeTransaction (rValue r)) as [t|]; [|by left].
    destruct (Qdec t) as [?|[? ?]]; [left; by intros ? [= <-]|right; eauto]. }
  destruct (Forall_Exists_dec _ _ Cdec (fetched k')) as [Hcar|(r & Hr & other & Ho & ? & ?)%Exists_exists].
  2: { right. right. exists other. eauto 10. }
  rewrite Forall_forall in Hrows.
  destruct (Run_spec reconciler con Q (λ o, world_ok o ∧ owns txn (view (oNext o))) (λ txn o, settled (view (oNext o)) txn)) with
    (produced := produced) (fetched := fetched) (polls := polls) (d := w) (k := k) (d' := w') (k' := k')
    as ([_ Hown] & _ & _ & H); try done.
  - intros t w0 Hq [H0 Ho]. split; [by apply reconciler_spec|by apply reconciler_owns].
  - intros t w0 w1 _ [H0 _] E. by eapply reconciler_settles.
  - intros t t' w0 _ [H0 _] Hs. by eapply reconciler_stable.
  - destruct (H record Hin) as [?|[(t & Ht & Hs)|?]]; [done| |auto].
    rewrite Hd in Ht. injection Ht as <-. left. by apply settled_recorded.
Qed.
End processor.

(** The breakers of a guarded repository pair, as the instrumentation reads them. *)
Definition transactionsState {W} (g : Guarded W) : State := state (transactionMachine g).
Definition statesState {W} (g : Guarded W) : State := state (stateMachine g).

(** C2. The processor loses nothing: with the breakers around the Postgres stores,
    in any state, under any schedule of connection losses and clock readings,
    while Run keeps polling every record it was handed either decodes to a
    transaction whose event id is in the ledger, the reconciled state of that row's
    tenant and instrument moved up to it, or is in the dead-letter topic with its
    payload, key and place.  MaxRetries is below MaxInt64 - 1, where the retry bound
    would wrap. *)
Theorem processor_settles_or_dead_letters `{Col : !Columns, Claws : !ColumnLaws} `{Cdc : !Codec}
    {K : Type} `{Kcl : !KafkaClient K} (produced fetched : K → list kRecord)
    `{Klaws : !KafkaLaws K produced fetched} known con polls (w w' : Observed (Guarded Postgres)) k k' record :
  0 ≤ maxRetries con < MaxInt64 - 1 → world_ok (guarded_view tables) (guarded_inv pg_inv) w →
  Run (reconciler known (Some transactionsState) (Some statesState)) con polls w k = (None, w', k') →
  record ∈ fetched k' → record ∉ fetched k →
  (∃ txn, decodeTransaction (rValue record) = Ok txn ∧ settled (tables (next (oNext w'))) txn) ∨
  dead_lettered con produced record k'.
Proof.
  intros Hmax Hw Hrun Hin Hnew.
  exact (reconciler_accounted (guarded_view tables) (guarded_inv pg_inv)
    (Hlaws := guarded_laws tables pg_inv (Hlaws := postgres_laws)) known _ _ produced fetched
    con polls w k w' k' record Hmax Hw Hrun Hin Hnew).
Qed.

(** ** From the API to the ledger *)
Section end_to_end.
Context `{Cdc : !Codec} `{Cl : !CodecLaws}.
Context {K : Type} `{Kcl : !KafkaClient K} (produced fetched : K → list kRecord)
  `{Klaws : !KafkaLaws K produced fetched}.
Context (topic : string).

#[local] Instance chainPublisher : Publisher (Instrumented (Limited (Broken K))) := chainPublish topic.

(** The API acknowledges an event: with an id over gRPC, with 202 over REST. *)
Inductive acknowledges (c c' : Instrumented (Limited (Broken K))) (e : Event) : Prop :=
  | by_rpc pe id :
      IngestTransaction (Some pe) c = (inl id, c') → transactionEventToIngestionEvent pe = Ok e → acknowledges c c' e
  | by_rest body ev rest :
      transactionHandler body c = ((StatusAccepted, None), c') →
      decodeNext requestFields body zeroRequest = Ok (ev, rest) → toIngestionEvent ev = Ok e → acknowledges c c' e.

(** A nil result of the chain is an acknowledged record with the event's payload. *)
Lemma chain_published e c c' : chain_ok c → chainPublish topic e c = (Ok tt, c') →
  ∃ record, record ∈ produced (chainClient c') ∧ rTopic record = topic ∧ marshal_wire (wireOf e) = Ok (rValue record).
Proof.
  intros Hc H. apply chainPublish_cases in H as (Hc' & [H|[? _]] & _); [|done|done].
  symmetry in H. apply (published_wire produced fetched) in H as (record & ? & ? & _ & ?). by exists record.
Qed.

Lemma acknowledged_published c c' e : chain_ok c → acknowledges c c' e →
  admissible e ∧ carried e ∧ (publishable e ∨ Z.abs (zone (eOccurredAt e)) = 90000) ∧
  ∃ record, record ∈ produced (chainClient c') ∧ rTopic record = topic ∧ marshal_wire (wireOf e) = Ok (rValue record).
Proof.
  intros Hc [pe id Hi He|body ev rest Hi Hd He].
  - unfold IngestTransaction in Hi. destruct (validateTransactionEvent pe) as [[]|] eqn:Hv; [|done].
    apply transactionEvent_publishable in Hv as (e' & He' & Ha & Hpub). rewrite He in Hi, He'. injection He' as <-.
    unfold Publish, chainPublisher in Hi. destruct (chainPublish topic e c) as [[[]|err] c1] eqn:Hp; [|done].
    injection Hi as _ <-. split; [done|]. split; [apply Hpub|]. split; [by left|]. by eapply chain_published.
  - pose proof (handler_cases body c) as H. rewrite Hi in H. destruct H as (ev' & rest' & e' & Hd' & Hv & He' & Hp).
    assert (ev' = ev) as -> by congruence. assert (e' = e) as -> by congruence.
    apply request_publishable in Hv as (e' & He'' & Ha & Hcar & Hz). assert (e' = e) as -> by congruence.
    split_and!; [done..|]. by eapply chain_published.
Qed.

Context {W : Type} `{!TransactionRepository W, !ReconciledStateRepository W}.
Context (view : W → Database) (inv : W → Prop) `{Hlaws : !RepositoryLaws W view inv}.
Context (known : gset string) (transactionsBreaker statesBreaker : option (W → State)).

(** The brokers deliver: every acknowledged record of the topic has been handed to
    the processor, with its payload, since [k]. *)
Definition delivered (sent : list kRecord) (k k' : K) : Prop :=
  ∀ r, r ∈ sent → rTopic r = topic →
  ∃ r', r' ∈ fetched k' ∧ r' ∉ fetched k ∧ rKey r' = rKey r ∧ rValue r' = rValue r.

(** What becomes of the record of an acknowledged event, once delivered. *)
Lemma acknowledged_accounted c c' e con polls w k w' k' :
  chain_ok c → acknowledges c c' e → 0 ≤ maxRetries con < MaxInt64 - 1 → world_ok view inv w →
  Run (reconciler known transactionsBreaker statesBreaker) con polls w k = (None, w', k') →
  delivered (produced (chainClient c')) k k' →
  ∃ record, marshal_wire (wireOf e) = Ok (rValue record) ∧
    ((∃ txn, decodeTransaction (rValue record) = Ok txn ∧ settled (view (oNext w')) txn) ∨ dead_lettered con produced record k').
Proof.
  intros Hc Ha Hmax Hw Hrun Hdel. destruct (acknowledged_published c c' e Hc Ha) as (_ & _ & _ & r & Hin & Ht & Hm).
  destruct (Hdel r Hin Ht) as (r' & Hf & Hn & _ & Hv). exists r'. split; [by rewrite Hv|].
  exact (reconciler_accounted view inv known transactionsBreaker statesBreaker produced fetched
    con polls w k w' k' r' Hmax Hw Hrun Hf Hn).
Qed.

(** C1. End to end: when the API has acknowledged an event over the publish chain,
    by gRPC or by REST, and the brokers have delivered what they acknowledged to a
    processor that is still polling, the event's own trade (event id, tenant,
    instrument, side, quantity and price) is in the ledger with the reconciled state
    of its own tenant and instrument moved up to it, or the record that carries it is
    in the dead-letter topic, or its event id was taken by another trade: one that
    was in the ledger before, or one that a delivered record carries. *)
Theorem acknowledged_event_reconciled c c' e con polls w k w' k' :
  chain_ok c → acknowledges c c' e → 0 ≤ maxRetries con < MaxInt64 - 1 → world_ok view inv w →
  Run (reconciler known transactionsBreaker statesBreaker) con polls w k = (None, w', k') →
  delivered (produced (chainClient c')) k k' →
  admissible e ∧
    (recorded (view (oNext w')) (transactionOf e) ∨
     (∃ record, dead_lettered con produced record k' ∧ marshal_wire (wireOf e) = Ok (rValue record)) ∨
     ∃ other, EventID other = EventID (transactionOf e) ∧ ¬ same_trade (transactionOf e) other ∧
       (other ∈ rows (view (oNext w)) ∨ ∃ r, r ∈ fetched k' ∧ decodeTransaction (rValue r) = Ok other)).
Proof.
  intros Hc Ha Hmax Hw Hrun Hdel. destruct (acknowledged_published c c' e Hc Ha) as (Hadm & Hcar & Hz & r & Hin & Ht & Hm).
  split; [done|]. destruct (Hdel r Hin Ht) as (r' & Hf & Hn & _ & Hv). rewrite <-Hv in Hm.
  destruct Hz as [Hpub|Hz].
  - destruct (decode_published e Hpub) as (payload & Hm' & Hd). rewrite Hm in Hm'. injection Hm' as <-.
    destruct (reconciler_records view inv known transactionsBreaker statesBreaker produced fetched
      con polls w k w' k' r' _ Hmax Hw Hrun Hf Hn Hd) as [?|[?|?]]; eauto 10.
  - destruct (reconciler_accounted view inv known transactionsBreaker statesBreaker produced fetched
      con polls w k w' k' r' Hmax Hw Hrun Hf Hn) as [(txn & Hd & _)|Hdl]; [|eauto 10].
    pose proof (decode_25h e (rValue r') Hcar Hz Hm) as Hfail. by rewrite Hd in Hfail.
Qed.

(** C35. An event acknowledged with the offset +24:60 or -24:60, which the API
    accepts, never reaches the ledger: its time is published with an offset of 25
    hours, which the processor refuses, and its record is dead-lettered. *)
Theorem offset_25h_dead_lettered c c' e con polls w k w' k' :
  chain_ok c → acknowledges c c' e → Z.abs (zone (eOccurredAt e)) = 90000 →
  0 ≤ maxRetries con < MaxInt64 - 1 → world_ok view inv w →
  Run (reconciler known transactionsBreaker statesBreaker) con polls w k = (None, w', k') →
  delivered (produced (chainClient c')) k k' →
  ∃ record, dead_lettered con produced record k' ∧ marshal_wire (wireOf e) = Ok (rValue record) ∧
    failed (decodeTransaction (rValue record)) = true.
Proof.
  intros Hc Ha Hz Hmax Hw Hrun Hdel. destruct (acknowledged_published c c' e Hc Ha) as (_ & Hcar & _).
  destruct (acknowledged_accounted c c' e con polls w k w' k') as (r & Hm & H); [done..|].
  pose proof (decode_25h e (rValue r) Hcar Hz Hm) as Hfail. exists r.
  destruct H as [(txn & Hd & _)|Hdl]; [by rewrite Hd in Hfail|done].
Qed.
End end_to_end.

(** ** Witnesses: one sale through both services *)
#[local] Existing Instance plainCodec.
#[local] Existing Instance plainColumns.

Definition sampleProto : TransactionEvent :=
  {| pEventId := hex sampleUUID; pTenantId := "acme-1"; pInstrument := "BRK.B"; pSide := SIDE_SELL;
     pQuantity := 1250000000; pPrice := 100000000000; pCurrency := "USD"; pOccurredAt := Some (0, 7) |}.

(** A closed breaker, three slots, a client that acknowledges. *)
Definition sampleChain : Instrumented (Limited (Broken Script)) :=
  Build_Instrumented (Build_Limited (Build_Broken emptyScript sampleMachine [1; 2]) 3 0)
    {| transactionsSuccessTotal := 0; transactionsFailureTotal := 0; publishLatencySuccess := 0; publishLatencyFailure := 0; breakerState := 0 |}.

Definition ingested : (string + code * error) * Instrumented (Limited (Broken Script)) :=
  IngestTransaction (Publisher0 := chainPublisher "transaction-events") (Some sampleProto) sampleChain.

(** What the brokers then hand out: the acknowledged records, with their offsets. *)
Definition sampleFetch : Fetches :=
  {| fetchErrors := [];
     partitions := [{| fTopic := "transaction-events"; fPartition := 0; HighWatermark := 1;
                       Records := acknowledged (chainClient ingested.2) |}] |}.

Definition deliveryScript : Script :=
  {| feed := [sampleFetch]; acks := []; cancels := []; acknowledged := []; handedOut := [] |}.

Definition emptyProcessor : Observed (Guarded Postgres) :=
  Build_Observed (guardedPostgres emptyPostgres)
    {| reconciledTotal := ∅; durationCounts := ∅; breakerGauges := ∅ |}.

Definition processed : option (result unit) * Observed (Guarded Postgres) * Script :=
  Run (reconciler {["acme-1"]} (Some transactionsState) (Some statesState)) (sampleConsumer 3) 1 emptyProcessor
    deliveryScript.

Example processed_metrics : oMetrics processed.1.2 =
  {| reconciledTotal := {[ "success" := 1 ]}; durationCounts := {[ ("acme-1", "success") := 1 ]};
     breakerGauges := <["reconciled_state" := 0]> {[ "transactions" := 0 ]} |}.
Proof. vm_compute. reflexivity. Qed.

Lemma empty_world_ok : world_ok (guarded_view tables) (guarded_inv pg_inv) emptyProcessor.
Proof.
  split; [|split; [split; [split; constructor|]|]; apply map_Forall_empty].
  split; [apply emptyPostgres_inv|]. repeat split; vm_compute; congruence.
Qed.

Lemma processor_settles_or_dead_letters_witness : ∃ record,
  (∃ txn, decodeTransaction (rValue record) = Ok txn ∧ settled (tables (next (oNext processed.1.2))) txn) ∨
  dead_lettered (sampleConsumer 3) acknowledged record processed.2.
Proof.
  eexists. eapply (processor_settles_or_dead_letters (Claws := plainColumnLaws) acknowledged handedOut
    (Klaws := ScriptedLaws) {["acme-1"]} (sampleConsumer 3) 1 emptyProcessor _ deliveryScript).
  - vm_compute. intuition congruence.
  - apply empty_world_ok.
  - vm_compute. reflexivity.
  - vm_compute. apply list_elem_of_here.
  - vm_compute. by intros ?%elem_of_nil.
Defined.

(** Here nothing is dead-lettered and no other trade is about. *)
Lemma acknowledged_event_reconciled_witness :
  admissible sampleEvent ∧ recorded (guarded_view tables (oNext processed.1.2)) (transactionOf sampleEvent).
Proof.
  destruct (acknowledged_event_reconciled (Cl := plainCodecLaws) acknowledged handedOut (Klaws := ScriptedLaws)
    "transaction-events" (guarded_view tables) (guarded_inv pg_inv)
    (Hlaws := guarded_laws tables pg_inv (Hlaws := postgres_laws (Claws := plainColumnLaws)))
    {["acme-1"]} (Some transactionsState) (Some statesState)
    sampleChain ingested.2 sampleEvent (sampleConsumer 3) 1 emptyProcessor deliveryScript processed.1.2 processed.2)
    as [Ha H].
  - repeat split; vm_compute; congruence.
  - apply (by_rpc _ _ _ _ sampleProto (hex sampleUUID)); vm_compute; reflexivity.
  - vm_compute. intuition congruence.
  - apply empty_world_ok.
  - vm_compute. reflexivity.
  - intros r Hin _. exists r. split; [|by split; [intros ?%elem_of_nil|]].
    revert Hin. vm_compute. done.
  - split; [exact Ha|]. destruct H as [H|[(record & (ev & pl & _ & _ & _ & _ & _ & _ & Hin) & _)|(other & _ & Hn & [Ho|(r & Hr & Hd)])]];
      [exact H|exfalso..].
    + assert (acknowledged processed.2 = []) as E by (vm_compute; reflexivity). rewrite E in Hin. by apply elem_of_nil in Hin.
    + assert (rows (guarded_view tables (oNext emptyProcessor)) = []) as E by reflexivity. rewrite E in Ho. by apply elem_of_nil in Ho.
    + assert ((λ r, decodeTransaction (rValue r)) <$> handedOut processed.2 = [Ok (transactionOf sampleEvent)]) as E
        by (vm_compute; reflexivity).
      apply (list_elem_of_fmap_2 (λ r, decodeTransaction (rValue r))) in Hr. rewrite E, list_elem_of_singleton, Hd in Hr.
      injection Hr as ->. apply Hn. by repeat split.
Defined.

(** The same sale over REST, told in an offset of 24 hours and 60 minutes. *)
Definition lateRequest : TransactionEventRequest :=
  {| qEventID := hex sampleUUID; qTenantID := "acme-1"; qInstrument := "BRK.B"; qSide := "SELL";
     qQuantity := "12.5"; qPrice := "1e3"; qCurrency := "USD"; qOccurredAt := "1970-01-02T01:00:00+24:60" |}.

Definition lateEvent : Event :=
  {| eEventID := sampleUUID; eTenantID := "acme-1"; eSchemaVersion := 1; eInstrument := "BRK.B"; eSide := SideSell;
     eQuantity := 1250000000; ePrice := 100000000000; eCurrency := "USD"; eOccurredAt := {| instant := 0; zone := 90000 |} |}.

Definition lateIngested : Response * Instrumented (Limited (Broken Script)) :=
  transactionHandler (Publisher0 := chainPublisher "transaction-events") (GoJson.encode (request_json lateRequest)) sampleChain.

Definition lateScript : Script :=
  {| feed := [{| fetchErrors := [];
                 partitions := [{| fTopic := "transaction-events"; fPartition := 0; HighWatermark := 1;
                                   Records := acknowledged (chainClient lateIngested.2) |}] |}];
     acks := []; cancels := []; acknowledged := []; handedOut := [] |}.

Definition lateProcessed : option (result unit) * Observed (Guarded Postgres) * Script :=
  Run (reconciler {["acme-1"]} (Some transactionsState) (Some statesState)) (sampleConsumer 3) 1 emptyProcessor lateScript.

Lemma offset_25h_dead_lettered_witness : ∃ record,
  dead_lettered (sampleConsumer 3) acknowledged record lateProcessed.2 ∧
  marshal_wire (wireOf lateEvent) = Ok (rValue record) ∧ failed (decodeTransaction (rValue record)) = true.
Proof.
  apply (offset_25h_dead_lettered (Cl := plainCodecLaws) acknowledged handedOut (Klaws := ScriptedLaws)
    "transaction-events" (guarded_view tables) (guarded_inv pg_inv)
    (Hlaws := guarded_laws tables pg_inv (Hlaws := postgres_laws (Claws := plainColumnLaws)))
    {["acme-1"]} (Some transactionsState) (Some statesState)
    sampleChain lateIngested.2 lateEvent (sampleConsumer 3) 1 emptyProcessor lateScript lateProcessed.1.2 lateProcessed.2).
  - repeat split; vm_compute; congruence.
  - apply (by_rest _ _ _ _ (GoJson.encode (request_json lateRequest)) lateRequest ""); vm_compute; reflexivity.
  - vm_compute. reflexivity.
  - vm_compute. intuition congruence.
  - apply empty_world_ok.
  - vm_compute. reflexivity.
  - intros r Hin _. exists r. split; [|by split; [intros ?%elem_of_nil|]].
    revert Hin. vm_compute. done.
Defined.
