(* ===== verification/InOrder.v ===== *)
(** * One processor accounts exactly (cmd/processor)

    Reconcile's comment asks that a key's transactions reach a single caller in
    order.  A processor that is the only one to write handles its records one after
    the other, each retried until Reconcile returns nil or it is dead-lettered.  The
    theorem: as long as nothing is dead-lettered, whatever connections are lost on
    the way, every stored state is the accounting of all of its key's rows. *)
From S2P Require Import Prelude GoStrings GoTime Amount CoreBreaker Ledger Storage LedgerBreaker Processor Exact.
From S2P Require Import Wire KafkaConsumer Metrics System.

(** ** Clean tables *)
Definition clean (d : Database) : Prop :=
  db_wf d ∧ ∀ k, key_ordered k d ∧ accounts_for k d (key_rows k d).

(** Clean but for the row of event [e], which may still be missing from its state. *)
Definition pending (e : UUID) (d : Database) : Prop :=
  db_wf d ∧ ∀ k, key_ordered k d ∧
    (accounts_for k d (key_rows k d) ∨ ∃ l row, key_rows k d = l ++ [row] ∧ accounts_for k d l ∧ EventID row = e).

Lemma clean_pending e d : clean d → pending e d.
Proof. intros [Hwf H]. split; [done|]. intros k. destruct (H k). auto. Qed.

Lemma pending_newest e d k : pending e d → up_to_newest k d.
Proof. intros [_ H]. destruct (H k) as [_ [?|(l & row & ? & ? & _)]]; [by left|right; by exists l, row]. Qed.

Lemma pending_covered e d row : pending e d → row ∈ rows d → EventID row = e → covers d row = true → clean d.
Proof.
  intros [Hwf H] Hin He Hc. split; [done|]. intros k. destruct (H k) as [Ho [?|(l & row' & E & Ha & He')]]; [done|exfalso].
  assert (row' ∈ key_rows k d) as [Hk Hin']%elem_of_key_rows by (rewrite E, elem_of_app; right; apply list_elem_of_here).
  assert (row' = row) as -> by (eapply (event_determines (rows d)); [apply Hwf|done..|congruence]).
  rewrite (newest_not_covered k d l row) in Hc; [done| |done|done]. rewrite <-E. apply Ho.
Qed.

Lemma pending_inserted txn d row d' : pending (EventID txn) d → inserted txn d row d' → newer_ids d d' → pending (EventID txn) d'.
Proof.
  intros [Hwf H] Hins Hnew. pose proof (inserted_wf txn d row d' Hwf Hins) as Hwf'.
  destruct Hins as ((He & _) & Hall & ->). rewrite Forall_forall in Hall.
  assert (Forall (λ r, ID r < ID row) (rows d)) as Hlt.
  { apply Forall_app in Hnew as [_ Hnew]. apply Forall_singleton in Hnew as [Hin|?]; [|done]. by destruct (Hall row Hin). }
  split; [done|]. intros k. destruct (H k) as [Ho Hk]. unfold key_ordered. rewrite key_rows_snoc.
  change (key_rows k {| rows := rows d; states := states d |}) with (key_rows k d).
  assert (accounts_for k d (key_rows k d)) as Ha.
  { destruct Hk as [?|(l & row' & E & _ & He')]; [done|exfalso].
    assert (row' ∈ key_rows k d) as [_ Hin']%elem_of_key_rows by (rewrite E, elem_of_app; right; apply list_elem_of_here).
    by destruct (Hall row' Hin'). }
  case_decide as Ek; [|rewrite List.app_nil_r; by split; [|left]].
  split; [apply sorted_snoc; [done|]; eapply Forall_impl; [apply Forall_forall; intros r [_ Hr]%elem_of_key_rows; exact Hr|]|].
  - rewrite Forall_forall in Hlt. auto.
  - right. by exists (key_rows k d), row.
Qed.

Lemma pending_upserted e d row u d' : pending e d → row ∈ rows d → EventID row = e → update_for u row → adds_newest u row d →
  upserted u d d' → clean d'.
Proof.
  intros [Hwf H] Hin He Hu Hn Hup. destruct (upserted_newest u row d d' Hu Hn Hup) as (Er & Hacc & Hother).
  assert (∀ k, key_rows k d' = key_rows k d) as Ek by (intros k; unfold key_rows; by rewrite Er).
  split; [by eapply upserted_wf|]. intros k. split; [unfold key_ordered; rewrite Ek; by destruct (H k)|].
  destruct (decide (k = txn_key row)) as [->|Hne]; [done|]. rewrite Ek. apply (accounts_for_states k d); [by apply Hother|].
  destruct (H k) as [_ [?|(l & row' & E & _ & He')]]; [done|exfalso]. apply Hne.
  assert (row' ∈ key_rows k d) as [Hk Hin']%elem_of_key_rows by (rewrite E, elem_of_app; right; apply list_elem_of_here).
  assert (row' = row) as -> by (eapply (event_determines (rows d)); [apply Hwf|done..|congruence]). done.
Qed.

(** ** One call *)
Section calls.
Context {W : Type} `{!TransactionRepository W, !ReconciledStateRepository W}.
Context (view : W → Database) (inv : W → Prop) `{Hlaws : !RepositoryLaws W view inv}.

(** What a call for event [e] leaves. *)
Definition reconciled_to (e : UUID) (answer : result unit * W) : Prop :=
  inv answer.2 ∧ pending e (view answer.2) ∧ (answer.1 = Ok tt → clean (view answer.2)).

Lemma foldInto_exact e row w : inv w → pending e (view w) → row ∈ rows (view w) → EventID row = e →
  reconciled_to e (run (foldInto row (currentState (view w) row)) w).
Proof.
  intros Hi Hp Hin He. unfold foldInto.
  assert (match LastTransactionID (currentState (view w) row) with Some id => ID row <=? id | None => false end = covers (view w) row) as ->.
  { unfold covers, watermark, currentState. by destruct (states (view w) !! txn_key row). }
  destruct (covers (view w) row) eqn:Hc; [split; [done|]; split; [done|]; intros _; by eapply pending_covered|].
  destruct (applyTransaction _ row) as [u|err] eqn:Happ; [|done].
  destruct (apply_newest (view w) row u) as [Hu Hn]; [by eapply pending_newest|by apply Hp|done|apply Hp|done|done|].
  cbn. destruct (Upsert_law u w Hi) as [HP Hi']. destruct (Upsert u w) as [r w']. cbn [fst snd] in *.
  assert (view w' = view w ∨ upserted u (view w) (view w')) as Hor
    by (destruct r as [[]|err]; cbn in HP; [auto|]; destruct (errors_Is err _); [destruct HP; auto|done]).
  assert (pending e (view w')) as Hp'.
  { destruct Hor as [->|Hup]; [done|]. by eapply clean_pending, pending_upserted. }
  destruct r as [[]|err]; cbn in HP |- *; [split; [done|]; split; [done|]; intros _; exact (pending_upserted e _ row u _ Hp Hin He Hu Hn HP)|].
  destruct (errors_Is err ErrStaleReconciledState); cbn; [|done]. destruct HP as [Ev Hadv].
  split; [done|]. split; [done|]. cbn. rewrite Ev. intros _. apply (pending_covered e (view w) row Hp Hin He).
  destruct Hu as [Eku Elu]. unfold advances in Hadv. rewrite Eku, Elu in Hadv. unfold covers, watermark.
  destruct (states (view w) !! txn_key row) as [old|]; [|done]. cbn. destruct (LastTransactionID old); [|done]. bool_props. by apply Z.leb_le.
Qed.

Lemma withRow_exact e row w : inv w → pending e (view w) → row ∈ rows (view w) → EventID row = e →
  reconciled_to e (run (withRow row) w).
Proof.
  intros Hi Hp Hin He. cbn. destruct (Get_law (TenantID row) (Instrument row) w Hi) as [[Ev HP] Hi'].
  destruct (Get _ _ w) as [r w']. cbn [fst snd] in *. rewrite <-Ev in *.
  destruct r as [st|err]; cbn [afterGet].
  - assert (currentState (view w') row = st) as <- by (unfold currentState, txn_key; by rewrite HP). by apply foldInto_exact.
  - destruct (errors_Is err ErrNotFound); cbn [negb]; [|done]. specialize (HP eq_refl).
    assert (currentState (view w') row = zeroState (TenantID row) (Instrument row)) as <- by (unfold currentState, txn_key; by rewrite HP).
    by apply foldInto_exact.
Qed.

Lemma Reconcile_exact txn w : inv w → pending (EventID txn) (view w) → reconciled_to (EventID txn) (run (Reconcile txn) w).
Proof.
  intros Hi Hp. cbn. destruct (Insert_law txn w Hi) as [HP Hi']. pose proof (Insert_newer txn w Hi) as Hnew.
  destruct (Insert txn w) as [r w1]. cbn [fst snd] in *.
  destruct r as [row|err]; cbn in HP; cbn [afterInsert].
  - pose proof (pending_inserted txn _ row _ Hp HP Hnew) as Hp1. destruct HP as ((He & _) & _ & Ev).
    assert (row ∈ rows (view w1)) as Hin by (rewrite Ev; apply elem_of_app; right; apply list_elem_of_here).
    by apply withRow_exact.
  - destruct (errors_Is err ErrDuplicateEvent); cbn [negb].
    + destruct HP as [Ev _]. rewrite <-Ev in Hp. cbn. destruct (GetByEventID_law (EventID txn) w1 Hi') as [[Ev2 HP] Hi2].
      destruct (GetByEventID _ w1) as [r2 w2]. cbn [fst snd] in *. rewrite <-Ev2 in *.
      destruct r2 as [row|err2]; cbn [afterDuplicate]; [|done]. destruct HP. by apply withRow_exact.
    + cbn. split; [done|]. split; [|done]. cbn. destruct HP as [->|(row & Hins)]; [done|]. by eapply pending_inserted.
Qed.
End calls.

(** ** The poll loop

    [C] holds between records, [Q txn] while [txn] is retried. *)
Section polling.
Context `{Cdc : !Codec} {D K : Type} `{Kcl : !KafkaClient K} (rec_Reconcile : Transaction → D → result unit * D) (con : Consumer).
Context (C : D → Prop) (Q : Transaction → D → Prop).
Context (Q_start : ∀ txn d, C d → Q txn d).
Context (Q_retry : ∀ txn d, Q txn d → Q txn (rec_Reconcile txn d).2).
Context (Q_nil : ∀ txn d, Q txn d → (rec_Reconcile txn d).1 = Ok tt → C (rec_Reconcile txn d).2).
Context (produced fetched : K → list kRecord) `{Klaws : !KafkaLaws K produced fetched}.
Context (Hmax : 0 ≤ maxRetries con < MaxInt64 - 1).

Notation letter record k := (dead_lettered con produced record k).

Lemma letter_stays record k k' : produced k ⊆ produced k' → letter record k → letter record k'.
Proof. intros Hk (ev & pl & Hm & H1 & H2 & H3 & H4 & H5 & Hin). exists ev, pl. split_and!; auto. Qed.

Lemma retryLoop_clean remaining attempt lastErr txn d k n d' k' :
  Q txn d → (remaining = 0%nat → is_Some lastErr) →
  retryLoop rec_Reconcile con remaining attempt lastErr txn d k = (n, None, d', k') → C d'.
Proof.
  revert attempt lastErr d k. induction remaining as [|remaining IH]; intros attempt lastErr d k HQ Hrem; cbn [retryLoop].
  - intros [= _ -> _ _]. by destruct Hrem.
  - pose proof (Q_retry txn d HQ) as HQ'. pose proof (Q_nil txn d HQ) as Hn.
    destruct (rec_Reconcile txn d) as [[[]|e] d1]; cbn in HQ', Hn; [intros [= _ <- _]; by apply Hn|].
    destruct (ctx_Err k) as [[] k1]; [done|]. by apply IH.
Qed.

(** [C], or some record has been dead-lettered. *)
Definition fine (d : D) (k : K) : Prop := C d ∨ ∃ record, letter record k.

Lemma fine_later d k k' : produced k ⊆ produced k' → fine d k → fine d k'.
Proof. intros Hk [?|(record & Hl)]; [by left|right]. exists record. by eapply letter_stays. Qed.

(** Nothing takes an acknowledged record back. *)
Lemma handleRecord_grows record d k tenant err d' k' : handleRecord rec_Reconcile con record d k = (tenant, err, d', k') →
  produced k ⊆ produced k'.
Proof.
  intros H. by destruct (handleRecord_spec rec_Reconcile con (λ _, True) (λ _, True) (λ _ _, True) ltac:(done) ltac:(done) ltac:(done)
    produced fetched Hmax record d k tenant err d' k' (λ _ _, I) I H) as [(_ & _ & ? & _) _].
Qed.

Lemma dlq_letter record e n k r k' : in_int64 n → publishToDLQ con record e n k = (r, k') → r = Ok tt → letter record k'.
Proof. intros Hn H. by destruct (publishToDLQ_spec con (λ _ : unit, True) (λ _ _, True) produced fetched record e n tt k r k' I Hn H). Qed.

Lemma handleRecord_clean record d k tenant d' k' : fine d k → handleRecord rec_Reconcile con record d k = (tenant, None, d', k') →
  fine d' k'.
Proof.
  intros [HC|Hl] Hh; [|right; destruct Hl as (r & Hl); exists r; eapply letter_stays; [by eapply handleRecord_grows|done]].
  unfold handleRecord in Hh. destruct (decodeTransaction (rValue record)) as [txn|e].
  - assert (int64 (maxRetries con + 1) = maxRetries con + 1) as E by (apply int64_id; unfold_ints; lia).
    unfold reconcileWithRetry in Hh. destruct (retryLoop _ _ _ _ _ txn d k) as [[[n err] d1] k1] eqn:Hr. destruct err as [err|].
    + right. exists record. assert (in_int64 n) as Hn by (eapply retryLoop_attempts; [exact Hmax|..|exact Hr]; [done|rewrite E; lia]).
      destruct (publishToDLQ con record err n k1) as [r k2] eqn:Hp. destruct r as [[]|]; [|done]. injection Hh as _ _ <-.
      by eapply dlq_letter.
    + injection Hh as _ <- <-. left. eapply (retryLoop_clean _ _ _ txn d k); [by apply Q_start| |exact Hr]. rewrite E. lia.
  - right. exists record. destruct (publishToDLQ con record e 1 k) as [r k2] eqn:Hp. destruct r as [[]|]; [|done].
    injection Hh as _ _ <-. eapply (dlq_letter record e 1); [unfold_ints; lia|exact Hp|done].
Qed.

Lemma eachRecord_clean records tenant off d k tenant' off' d' k' : fine d k →
  eachRecord rec_Reconcile con records tenant off d k = (tenant', off', None, d', k') → fine d' k'.
Proof.
  revert tenant off d k. induction records as [|record records IH]; intros tenant off d k Hf; cbn; [by intros [= _ _ <- <-]|].
  destruct (handleRecord rec_Reconcile con record d k) as [[[t err] d1] k1] eqn:Hh. destruct err as [err|]; [done|].
  apply IH. by eapply handleRecord_clean.
Qed.

Lemma eachPartition_clean ps active d k active' d' k' : fine d k →
  eachPartition rec_Reconcile con ps active d k = (active', None, d', k') → fine d' k'.
Proof.
  revert active d k. induction ps as [|p ps IH]; intros active d k Hf; cbn; [by intros [= _ <- <-]|].
  destruct (eachRecord _ con (Records p) "" None d k) as [[[[t off] err] d1] k1] eqn:Hr.
  match goal with |- context [let '(_, _) := ?x in _] =>
    assert (produced k1 ⊆ produced x.2) as Hx; [|destruct x as [active1 k2]] end.
  { destruct off as [o|]; [|done]. destruct (metrics con); [|done]. cbn.
    by destruct (lag_keeps (K := K) t (int64 (HighWatermark p - 1 - o)) k1) as [-> _]. }
  destruct err as [err|]; [done|]. apply IH. eapply fine_later; [exact Hx|]. by eapply eachRecord_clean.
Qed.

Lemma Run_clean polls d k d' k' : fine d k → Run rec_Reconcile con polls d k = (None, d', k') → fine d' k'.
Proof.
  revert d k. induction polls as [|polls IH]; intros d k Hf; cbn [Run]; [by intros [= <- <-]|].
  destruct (runOnce rec_Reconcile con d k) as [[[r|] d1] k1] eqn:Hr; [done|]. apply IH. clear IH.
  unfold runOnce in Hr. pose proof (Poll_keeps (maxPollRecords con) k) as [Hp1 _]. destruct (PollRecords _ k) as [fs k2]. cbn in Hp1.
  pose proof (ctx_keeps k2) as [Hc1 _]. destruct (fetchErrors fs); [|by destruct (ctx_Err k2) as [[] ?]].
  destruct (ctx_Err k2) as [[] k3]; [done|]. cbn in Hc1.
  assert (fine d k3) as Hf3 by (eapply fine_later; [|exact Hf]; by rewrite Hc1, Hp1).
  destruct (eachPartition _ con _ _ d k3) as [[[active err] d2] k4] eqn:He. destruct err as [err|]; [by destruct (ctx_Err _) as [[] ?]|].
  injection Hr as <- <-. apply (eachPartition_clean _ _ d k3) in He; [|done].
  eapply fine_later; [|exact He]. destruct (metrics con); [|done]. by destruct (active_keeps (K := K) active k4) as [-> _].
Qed.
End polling.

(** ** The processor *)
Lemma clean_db_inv d : clean d → db_inv d.
Proof.
  intros [Hwf H]. split; [done|]. intros k st Hst. destruct (H k) as [Ho Ha]. unfold accounts_for in Ha. rewrite Hst in Ha.
  destruct Ha as (_ & (st' & Hrep & Heq) & HL). exists (key_rows k d), st'. split; [|done].
  split; [by apply Forall_forall|done].
Qed.

Section processor.
Context `{Col : !Columns, Claws : !ColumnLaws} `{Cdc : !Codec} {K : Type} `{Kcl : !KafkaClient K}.
Context (produced fetched : K → list kRecord) `{Klaws : !KafkaLaws K produced fetched} (known : gset string).

(** The processor's reconciler, over breakers and Postgres. *)
Notation stack := (reconciler known (Some (transactionsState (W := Postgres))) (Some statesState)).
Notation database w := (tables (next (oNext w))).

Lemma stack_exact txn (w : Observed (Guarded Postgres)) : guarded_inv pg_inv (oNext w) → pending (EventID txn) (database w) →
  guarded_inv pg_inv (oNext (stack txn w).2) ∧ pending (EventID txn) (database (stack txn w).2) ∧
  ((stack txn w).1 = Ok tt → clean (database (stack txn w).2)).
Proof.
  intros Hi Hp. pose proof (Reconcile_exact (guarded_view tables) (guarded_inv pg_inv)
    (Hlaws := guarded_laws tables pg_inv (Hlaws := postgres_laws)) txn (oNext w) Hi Hp) as H.
  unfold reconciler, InstrumentedReconciler_Reconcile. by destruct (run (Reconcile txn) (oNext w)) as [res w'].
Qed.

(** C3. Exact accounting: a processor that is the only one to write, started on clean tables, has
    after any number of polls in which nothing was dead-lettered, and under any
    schedule of connection losses and clock readings, every record it was handed in
    the ledger, every key's ids increasing, and every key's stored state equal to
    the accounting of all of its rows, none missing and none twice; its position is
    buys minus sells of all of them as long as their volume fits in int64. *)
Theorem processor_accounts_exactly con polls (w w' : Observed (Guarded Postgres)) k k' :
  0 ≤ maxRetries con < MaxInt64 - 1 → guarded_inv pg_inv (oNext w) → clean (database w) →
  Run stack con polls w k = (None, w', k') → (∀ record, ¬ dead_lettered con produced record k') →
  let d := database w' in
  (∀ record, record ∈ fetched k' → record ∉ fetched k →
   ∃ txn row, decodeTransaction (rValue record) = Ok txn ∧ row ∈ rows d ∧ EventID row = EventID txn) ∧
  ∀ key, key_ordered key d ∧ accounts_for key d (key_rows key d) ∧
    (∀ st, states d !! key = Some st → volume (key_rows key d) ≤ MaxInt64 → Position st = net (key_rows key d)).
Proof.
  intros Hmax Hi Hc Hrun Hno d. subst d. split.
  - intros record Hin Hnew. destruct (reconciler_accounted (guarded_view tables) (guarded_inv pg_inv)
      (Hlaws := guarded_laws tables pg_inv (Hlaws := postgres_laws)) known (Some transactionsState) (Some statesState) produced fetched con polls w k w' k' record Hmax)
      as [(txn & Hd & row & wm & Hr & He & _)|Hl]; [split; [done|by apply clean_db_inv]|done|done|done| |by apply Hno in Hl].
    by exists txn, row.
  - destruct (Run_clean stack con (λ w, guarded_inv pg_inv (oNext w) ∧ clean (database w))
      (λ txn w, guarded_inv pg_inv (oNext w) ∧ pending (EventID txn) (database w))) with
      (produced := produced) (fetched := fetched) (polls := polls) (d := w) (k := k) (d' := w') (k' := k')
      as [[Hi' [Hwf' Hc']]|(record & Hl)]; try done.
    + intros txn w0 [? ?]. split; [done|by apply clean_pending].
    + intros txn w0 [? ?]. by destruct (stack_exact txn w0) as (? & ? & _).
    + intros txn w0 [? ?] E. destruct (stack_exact txn w0) as (? & _ & Hcl); auto.
    + by left.
    + intros key. destruct (Hc' key) as [Ho Ha]. split; [done|]. split; [done|]. intros st Hst Hv.
      apply (accounts_position key); [done|done| |done]. apply Forall_forall. intros r [_ Hr]%elem_of_key_rows.
      destruct Hi' as [[_ Hck] _]. rewrite Forall_forall in Hck. destruct (Hck r Hr) as [_ Hchk]. unfold checks in Hchk. by bool_props.
    + by apply Hno in Hl.
Qed.
End processor.

(** ** A witness: one sale, its INSERT's answer and its first upsert lost *)
#[local] Existing Instances plainCodec plainColumns.

Definition flakyPostgres : Postgres :=
  {| transactions := []; reconciled_state := ∅; Storage.transactions_id_seq := 1;
     schedule := [(1, LostAfter "reset"); (2, Healthy); (3, Healthy); (4, Healthy); (5, LostBefore "reset")]; now := 0 |}.
Definition flakyProcessor : Observed (Guarded Postgres) :=
  Build_Observed (guardedPostgres flakyPostgres) {| reconciledTotal := ∅; durationCounts := ∅; breakerGauges := ∅ |}.
Definition flakyProcessed : option (result unit) * Observed (Guarded Postgres) * Script :=
  Run (reconciler {["acme-1"]} (Some transactionsState) (Some statesState)) (sampleConsumer 3) 1 flakyProcessor deliveryScript.

Lemma flaky_stored : is_Some (states (tables (next (oNext flakyProcessed.1.2))) !! ("acme-1", "BRK.B")).
Proof. vm_compute. by eexists. Qed.

Lemma processor_accounts_exactly_witness : ∃ st,
  states (tables (next (oNext flakyProcessed.1.2))) !! ("acme-1", "BRK.B") = Some st ∧ Position st = -1250000000.
Proof.
  destruct (processor_accounts_exactly (Claws := plainColumnLaws) acknowledged handedOut (Klaws := ScriptedLaws) {["acme-1"]}
    (sampleConsumer 3) 1 flakyProcessor flakyProcessed.1.2 deliveryScript flakyProcessed.2) as [_ H].
  - vm_compute. intuition congruence.
  - split; [split; [split; [split; constructor|apply map_Forall_empty]|constructor]|]. repeat split; vm_compute; congruence.
  - split; [split; [split; constructor|apply map_Forall_empty]|]. intros k. split; [constructor|reflexivity].
  - vm_compute. reflexivity.
  - intros record (ev & pl & _ & _ & _ & _ & _ & _ & Hin).
    assert (acknowledged flakyProcessed.2 = []) as E by (vm_compute; reflexivity). rewrite E in Hin. by apply not_elem_of_nil in Hin.
  - destruct flaky_stored as [st Hst]. exists st. split; [exact Hst|].
    destruct (H ("acme-1", "BRK.B")) as (_ & _ & Hp). rewrite (Hp st Hst); [vm_compute; reflexivity|].
    vm_compute. congruence.
Defined.

Example flaky_metrics : reconciledTotal (oMetrics flakyProcessed.1.2) = <["failure" := 2]> {[ "success" := 1 ]} ∧
  length (transactions (next (oNext flakyProcessed.1.2))) = 1%nat.
Proof. vm_compute. split; reflexivity. Qed.
