(* ===== verification/ServiceMetrics.v ===== *)
(** * The metrics of the two services and of the operator

    The NewMetrics functions of internal/ingestion, internal/ingestion/kafka,
    internal/processor, internal/processor/kafka and operator/internal/controller
    over a Prometheus client, and the methods that record to them.  The theorems:
    every service registers on a fresh registry, the series a service ever has are
    a finite set fixed at startup, and the instrumented reconciler of System is
    what the registry shows. *)
From Stdlib Require Import SpecFloat.
From S2P Require Import Prelude GoStrings GoTime Metrics CoreBreaker Ledger Processor Ingestion System.

(** ** Code that registers: it may fail, and panic on a wrong label count (None). *)
Definition registration (P A : Type) : Type := P → option (result A * P).

Definition reg_ret {P A} (a : A) : registration P A := λ p, Some (Ok a, p).
Definition reg_bind {P A B} (m : registration P A) (f : A → registration P B) : registration P B :=
  λ p, '(r, p) ← m p; match r with Ok a => f a p | Err e => Some (Err e, p) end.
Definition reg_new {P A} (msg : string) (f : P → result A * P) : registration P A :=
  λ p, let '(r, p) := f p in Some (wrap_err msg r, p).

Notation "'let?' x := m 'in' k" := (reg_bind m (λ x, k)) (at level 10, x pattern, m at level 100, k at level 200).

(** A metric obtained by WithLabelValues: the vector and the label values. *)
Definition child : Type := Collector * list string.

Section metrics.
Context {P : Type} `{Pr : !Prometheus P}.

Definition with_labels (c : Collector) (lvs : list string) : registration P child :=
  λ p, p ← WithLabelValues c lvs p; Some (Ok (c, lvs), p).

(** vec.WithLabelValues(lvs...).Set(v) *)
Definition set_with (c : Collector) (lvs : list string) (v : spec_float) (p : P) : option P :=
  p ← WithLabelValues c lvs p; Some (gauge_Set c lvs v p).
End metrics.

(** ** internal/ingestion/metrics.go *)
Module IngestionMetrics.

Record Metrics := {
  transactionsSuccessTotal : child;
  transactionsFailureTotal : child;
  publishLatencySuccess : child;
  publishLatencyFailure : child;
  breakerState : child
}.

Definition transactionsTotalOpts : Opts := plainOpts "ingestion_transactions_processed_total"
  "Total transaction events accepted by the ingestion publish path, by outcome." [].
Definition publishLatencyOpts : Opts := plainOpts "ingestion_publish_latency_seconds"
  "Latency of a transaction event's publish call, by outcome." LatencyBucketsSeconds.
Definition breakerStateOpts : Opts := plainOpts "ingestion_kafka_circuit_breaker_state"
  "Current state of the ingestion-to-Kafka publish circuit breaker: 0=closed, 1=half_open, 2=open, 3=unknown." [].

Definition NewMetrics {P} `{Pr : !Prometheus P} : registration P Metrics :=
  let? transactionsTotal := reg_new "new ingestion metrics: %w" (NewCounter transactionsTotalOpts ["outcome"]) in
  let? publishLatency := reg_new "new ingestion metrics: %w" (NewHistogram publishLatencyOpts ["outcome"]) in
  let? breakerState := reg_new "new ingestion metrics: %w" (NewGauge breakerStateOpts []) in
  let? success := with_labels transactionsTotal ["success"] in
  let? failure := with_labels transactionsTotal ["failure"] in
  let? latencySuccess := with_labels publishLatency ["success"] in
  let? latencyFailure := with_labels publishLatency ["failure"] in
  let? state := with_labels breakerState [] in
  reg_ret {| transactionsSuccessTotal := success; transactionsFailureTotal := failure;
             publishLatencySuccess := latencySuccess; publishLatencyFailure := latencyFailure;
             breakerState := state |}.

(** What Publish records once next has answered; [state] is the breaker's, if any. *)
Definition recordPublish {P} `{Pr : !Prometheus P} (m : Metrics) (failed : bool) (state : option State) (p : P) : P :=
  let p :=
    if failed
    then let p := counter_Add (transactionsFailureTotal m).1 (transactionsFailureTotal m).2 1 p in
         observer_Observe (publishLatencyFailure m).1 (publishLatencyFailure m).2 p
    else let p := counter_Add (transactionsSuccessTotal m).1 (transactionsSuccessTotal m).2 1 p in
         observer_Observe (publishLatencySuccess m).1 (publishLatencySuccess m).2 p in
  match state with
  | Some s => gauge_Set (breakerState m).1 (breakerState m).2 (f64_of_Z (Ingestion.breakerStateValue s)) p
  | None => p
  end.
End IngestionMetrics.

(** ** internal/ingestion/kafka/metrics.go *)
Module PublisherMetrics.

Record Metrics := {
  tenantReservationDroppedTotal : child;
  tenantReservationReloadErrorTotal : child;
  partitionCount : Collector;
  partitionStart : Collector;
  knownTenants : gset string
}.

Definition tenantReservationDroppedOpts : Opts := plainOpts "ingestion_kafka_tenant_reservation_dropped_total"
  "Total tenants configured in Config.TenantPartitions that could not be given an exclusive partition range because the topic did not have enough partitions to honor every reservation." [].
Definition tenantReservationReloadErrorOpts : Opts := plainOpts "ingestion_kafka_tenant_reservation_reload_errors_total"
  "Total failed attempts to reload the tenant->partition reservation table from TenantPartitionSource (ADR 0007, part 3) — e.g. a missing/unreadable ConfigMap file or malformed JSON. Distinct from tenant_reservation_dropped_total, which counts a different failure mode: a successfully loaded reservation that couldn't be honored because the topic has too few partitions. A failed reload keeps the last-known-good reservations rather than clearing them." [].
Definition partitionCountOpts : Opts := plainOpts "ingestion_kafka_tenant_partition_count"
  "Number of Kafka partitions reserved for a tenant in the tenant->partition reservation table (ADR 0007), by tenant. Read by the operator to populate TradingTenant status.observedPartitionCount." [].
Definition partitionStartOpts : Opts := plainOpts "ingestion_kafka_tenant_partition_start_count"
  "Start index (inclusive) of the contiguous partition range reserved for a tenant in the tenant->partition reservation table (ADR 0007), by tenant. Read by the operator to configure the dedicated processor's manual partition assignment." [].

Definition NewMetrics {P} `{Pr : !Prometheus P} (knownTenants : gset string) : registration P Metrics :=
  let? tenantReservationDropped := reg_new "new kafka metrics: %w" (NewCounter tenantReservationDroppedOpts []) in
  let? tenantReservationReloadError := reg_new "new kafka metrics: %w" (NewCounter tenantReservationReloadErrorOpts []) in
  let? partitionCount := reg_new "new kafka metrics: %w" (NewGauge partitionCountOpts ["tenant"]) in
  let? partitionStart := reg_new "new kafka metrics: %w" (NewGauge partitionStartOpts ["tenant"]) in
  let? dropped := with_labels tenantReservationDropped [] in
  let? reloadError := with_labels tenantReservationReloadError [] in
  reg_ret {| tenantReservationDroppedTotal := dropped; tenantReservationReloadErrorTotal := reloadError;
             partitionCount := partitionCount; partitionStart := partitionStart; knownTenants := knownTenants |}.

Definition observePartitionRange {P} `{Pr : !Prometheus P} (m : Metrics) (tenantID : string) (start count : Z) (p : P)
    : option P :=
  let label := KnownTenants_TenantLabel (knownTenants m) tenantID in
  p ← set_with (partitionCount m) [label] (f64_of_Z count) p;
  set_with (partitionStart m) [label] (f64_of_Z start) p.
End PublisherMetrics.

(** ** internal/processor/metrics.go *)
Module ReconcilerMetrics.

Definition repositoryTransactions : string := "transactions".
Definition repositoryReconciledState : string := "reconciled_state".
Definition outcomeSuccess : string := "success".
Definition outcomeFailure : string := "failure".

Record Metrics := {
  reconciledTotal : gmap string child;                    (* [outcome] *)
  durationObservers : gmap string (gmap string child);    (* [tenant][outcome] *)
  breakerState : gmap string child;                       (* [repository] *)
  knownTenants : gset string
}.

(** The tenant ids, sorted; [elements] is one order in which a map is ranged over. *)
Definition sortedTenantIDs (known : gset string) : list string := merge_sort String.le (elements known).

(** The loop that caches two observers for every tenant label. *)
Fixpoint cacheObservers {P} `{Pr : !Prometheus P} (reconcileDuration : Collector) (tenantLabels : list string)
    (observers : gmap string (gmap string child)) : registration P (gmap string (gmap string child)) :=
  match tenantLabels with
  | [] => reg_ret observers
  | tenantLabel :: rest =>
      let? success := with_labels reconcileDuration [outcomeSuccess; tenantLabel] in
      let? failure := with_labels reconcileDuration [outcomeFailure; tenantLabel] in
      cacheObservers reconcileDuration rest
        (<[tenantLabel := <[outcomeSuccess := success]> {[outcomeFailure := failure]}]> observers)
  end.

Definition reconciledTotalOpts : Opts := plainOpts "processor_transactions_processed_total"
  "Total transaction events reconciled by the processor, by outcome." [].
Definition reconcileDurationOpts : Opts := plainOpts "processor_transaction_duration_seconds"
  "Latency of reconciling one transaction event, by outcome and tenant." LatencyBucketsSeconds.
Definition breakerStateGaugeOpts : Opts := plainOpts "processor_postgres_circuit_breaker_state"
  "Current state of a processor-to-Postgres repository circuit breaker: 0=closed, 1=half_open, 2=open, 3=unknown, by repository." [].

Definition NewMetrics {P} `{Pr : !Prometheus P} (knownTenants : gset string) : registration P Metrics :=
  let? reconciledTotal := reg_new "new processor metrics: %w" (NewCounter reconciledTotalOpts ["outcome"]) in
  let? reconcileDuration := reg_new "new processor metrics: %w" (NewHistogram reconcileDurationOpts ["outcome"; "tenant"]) in
  let? breakerStateGauge := reg_new "new processor metrics: %w" (NewGauge breakerStateGaugeOpts ["repository"]) in
  let tenantLabels := UnknownTenantLabel :: sortedTenantIDs knownTenants in
  let? durationObservers := cacheObservers reconcileDuration tenantLabels ∅ in
  let? success := with_labels reconciledTotal [outcomeSuccess] in
  let? failure := with_labels reconciledTotal [outcomeFailure] in
  let? transactions := with_labels breakerStateGauge [repositoryTransactions] in
  let? reconciledState := with_labels breakerStateGauge [repositoryReconciledState] in
  reg_ret {| reconciledTotal := <[outcomeSuccess := success]> {[outcomeFailure := failure]};
             durationObservers := durationObservers;
             breakerState := <[repositoryTransactions := transactions]> {[repositoryReconciledState := reconciledState]};
             knownTenants := knownTenants |}.

(** None is a nil Observer: a missing tenant reads as a nil inner map. *)
Definition durationObserver (m : Metrics) (outcome tenantID : string) : option child :=
  let tenantLabel := KnownTenants_TenantLabel (knownTenants m) tenantID in
  default ∅ (durationObservers m !! tenantLabel) !! outcome.

(** breakerState[repository].Set(...), for a breaker that is configured. *)
Definition setBreakerState {P} `{Pr : !Prometheus P} (m : Metrics) (repository : string) (state : option State) (p : P)
    : option P :=
  match state with
  | None => Some p
  | Some s => '(c, lvs) ← breakerState m !! repository; Some (gauge_Set c lvs (f64_of_Z (breakerStateValue s)) p)
  end.

(** What InstrumentedReconciler.Reconcile records; None is a call on a nil metric. *)
Definition recordReconcile {P} `{Pr : !Prometheus P} (m : Metrics) (failed : bool) (tenantID : string)
    (transactionsBreaker statesBreaker : option State) (p : P) : option P :=
  let outcome := if failed then outcomeFailure else outcomeSuccess in
  '(counter, lvs) ← reconciledTotal m !! outcome;
  let p := counter_Add counter lvs 1 p in
  '(observer, lvs) ← durationObserver m outcome tenantID;
  let p := observer_Observe observer lvs p in
  p ← setBreakerState m repositoryTransactions transactionsBreaker p;
  setBreakerState m repositoryReconciledState statesBreaker p.
End ReconcilerMetrics.

(** ** internal/processor/kafka/metrics.go *)
Module ConsumerMetrics.

Record Metrics := {
  consumerLagMessages : Collector;
  activeConsumerCount : Collector;
  partitionReloadErrorsTotal : child;
  knownTenants : gset string
}.

Definition consumerLagOpts : Opts := plainOpts "processor_kafka_consumer_lag_messages"
  "Difference between a partition's high watermark and the processor's last consumed offset on that partition, by tenant. Under ADR 0007's pool-exhaustion fallback a partition can carry more than one tenant; in that case this value is attributed only to the last tenant seen in a given poll batch, not to every tenant sharing the partition." [].
Definition activeConsumerCountOpts : Opts := plainOpts "processor_kafka_active_consumer_count"
  "Number of this processor instance's assigned partitions that yielded at least one record for a tenant in the most recent poll batch, by tenant — a proxy for that tenant's active consumer parallelism on this instance. Since consumer group partitions are split across replicas, sum this across instances (e.g. `sum by (tenant)`) for a tenant's cluster-wide active consumer count." [].
Definition partitionReloadErrorsOpts : Opts := plainOpts "processor_kafka_tenant_partition_reload_errors_total"
  "Total failed attempts to reload this dedicated processor's manually assigned partitions from TenantPartitionSource (ADR 0007, part 3) — e.g. a missing/unreadable ConfigMap file, malformed JSON, or a mapping missing this tenant's entry. Distinct from the ingestion side's tenant_reservation_dropped_total, which counts a different failure mode: a reservation that couldn't be honored because the topic has too few partitions. A failed reload keeps the last-known-good assignment rather than clearing it." [].

Definition NewMetrics {P} `{Pr : !Prometheus P} (knownTenants : gset string) : registration P Metrics :=
  let? consumerLag := reg_new "new processor kafka metrics: %w" (NewGauge consumerLagOpts ["tenant"]) in
  let? activeConsumerCount := reg_new "new processor kafka metrics: %w" (NewGauge activeConsumerCountOpts ["tenant"]) in
  let? partitionReloadErrors := reg_new "new processor kafka metrics: %w" (NewCounter partitionReloadErrorsOpts []) in
  let? reloadErrors := with_labels partitionReloadErrors [] in
  reg_ret {| consumerLagMessages := consumerLag; activeConsumerCount := activeConsumerCount;
             partitionReloadErrorsTotal := reloadErrors; knownTenants := knownTenants |}.

Definition observeLag {P} `{Pr : !Prometheus P} (m : Metrics) (tenantID : string) (lag : Z) (p : P) : option P :=
  let lag := if lag <? 0 then 0 else lag in
  set_with (consumerLagMessages m) [KnownTenants_TenantLabel (knownTenants m) tenantID] (f64_of_Z lag) p.

(** The first loop: int32 totals by label, over [counts] in the order visited. *)
Definition activeTotals (known : gset string) (counts : list (string * Z)) : gmap string Z :=
  foldl (λ totals '(tenantID, count),
    let label := KnownTenants_TenantLabel known tenantID in
    <[label := int32 (default 0 (totals !! label) + count)]> totals) ∅ counts.

(** The second loop, over the totals in the order visited. *)
Fixpoint setTotals {P} `{Pr : !Prometheus P} (m : Metrics) (totals : list (string * Z)) (p : P) : option P :=
  match totals with
  | [] => Some p
  | (label, total) :: rest =>
      p ← set_with (activeConsumerCount m) [label] (f64_of_Z total) p; setTotals m rest p
  end.

(** [order1] and [order2] are the orders in which Go ranges over the two maps. *)
Definition observeActiveConsumers {P} `{Pr : !Prometheus P} (m : Metrics)
    (order1 : gmap string Z → list (string * Z)) (order2 : gmap string Z → list (string * Z))
    (counts : gmap string Z) (p : P) : option P :=
  setTotals m (order2 (activeTotals (knownTenants m) (order1 counts))) p.
End ConsumerMetrics.

(** ** What a registration adds *)
Section laws.
Context {P : Type} `{Pr : !Prometheus P} `{Pl : !PrometheusLaws P}.

(** [p'] is [p] with the names [ns] taken and the series [new] where there were
    none. *)
Definition grown (ns : gset string) (new : gmap (string * list string) sample) (p p' : P) : Prop :=
  registered p' = ns ∪ registered p ∧ series p' = series p ∪ new.

Lemma grown_refl p : grown ∅ ∅ p p.
Proof. split; [set_solver|by rewrite map_union_empty]. Qed.

Lemma grown_trans ns1 ns2 new1 new2 p1 p2 p3 :
  grown ns1 new1 p1 p2 → grown ns2 new2 p2 p3 → grown (ns1 ∪ ns2) (new1 ∪ new2) p1 p3.
Proof. intros [Hr Hs] [Hr' Hs']. split; [rewrite Hr', Hr; set_solver|by rewrite Hs', Hs, (assoc (∪))]. Qed.

(** A metric of the program: a plain name within the conventions and the library's
    grammar, so that its registration succeeds. *)
Definition registrable (vec : Collector) : bool :=
  bool_decide (Namespace (cOpts vec) = "") && bool_decide (Subsystem (cOpts vec) = "") &&
  bool_decide (validateName (Name (cOpts vec))
    match Kind vec with CounterVec => [counterSuffix] | _ => gaugeHistogramSuffixes end = Ok tt) &&
  bool_decide (validateLabels (LabelNames vec) = Ok tt) && well_formed vec.

Definition plain (vec : Collector) : Prop := Namespace (cOpts vec) = "" ∧ Subsystem (cOpts vec) = "".

Lemma constructor_ok kind opts labels p :
  let vec := {| Kind := kind; cOpts := opts; LabelNames := labels |} in
  registrable vec = true → Name opts ∉ registered p →
  ∃ p', constructor_of kind opts labels p = (Ok vec, p') ∧ grown {[Name opts]} ∅ p p'.
Proof.
  intros vec Hreg Hfresh. unfold registrable in Hreg. bool_props. subst vec. cbn in *.
  destruct (Register_fresh {| Kind := kind; cOpts := opts; LabelNames := labels |} p) as (p' & HR & Hr & Hs);
    [done|by rewrite BuildFQName_plain|].
  exists p'. rewrite BuildFQName_plain in Hr by done.
  destruct kind; cbn; unfold NewCounter, NewGauge, NewHistogram, newVec;
    repeat match goal with H : _ = Ok tt |- _ => rewrite H; clear H end;
    rewrite HR; (split; [done|]); (split; [done|by rewrite map_union_empty]).
Qed.

(** Sequencing: what [m] returns and adds, then what [f] does. *)
Definition yields {A} (m : registration P A) (a : A) (ns : gset string)
    (new : gmap (string * list string) sample) : Prop :=
  ∀ p, ns ## registered p → ∃ p', m p = Some (Ok a, p') ∧ grown ns new p p'.

Lemma yields_ret {A} (a : A) : yields (reg_ret a) a ∅ ∅.
Proof. intros p _. exists p. split; [done|apply grown_refl]. Qed.

Lemma yields_bind {A B} (m : registration P A) (f : A → registration P B) a b ns1 ns2 new1 new2 :
  yields m a ns1 new1 → yields (f a) b ns2 new2 → ns1 ## ns2 →
  yields (reg_bind m f) b (ns1 ∪ ns2) (new1 ∪ new2).
Proof.
  intros Hm Hf Hd p Hp. destruct (Hm p) as (p1 & E1 & G1); [set_solver|].
  destruct (Hf p1) as (p2 & E2 & G2); [destruct G1 as [-> _]; set_solver|].
  exists p2. unfold reg_bind. rewrite E1. cbn. split; [done|by eapply grown_trans].
Qed.

Lemma yields_new kind err opts labels :
  let vec := {| Kind := kind; cOpts := opts; LabelNames := labels |} in
  registrable vec = true → yields (reg_new err (constructor_of kind opts labels)) vec {[Name opts]} ∅.
Proof.
  intros vec Hreg p Hp. destruct (constructor_ok kind opts labels p) as (p' & E & G);
    [done|set_solver|]. exists p'. unfold reg_new. by rewrite E.
Qed.
Definition yields_NewCounter := yields_new CounterVec.
Definition yields_NewGauge := yields_new GaugeVec.
Definition yields_NewHistogram := yields_new HistogramVec.

(** The name and label values that identify a child's series. *)
Definition key_of (c : child) : string * list string := (BuildFQName (cOpts c.1), c.2).

Lemma yields_with vec lvs :
  plain vec → length lvs = length (LabelNames vec) →
  yields (with_labels vec lvs) (vec, lvs) ∅ {[(Name (cOpts vec), lvs) := fresh_sample (Kind vec)]}.
Proof.
  intros [Hn Hsub] Hlen p _. destruct (WithLabelValues_ok vec lvs p Hlen) as (p' & E & Hr & Hs).
  rewrite BuildFQName_plain in Hs by done. exists p'. unfold with_labels. rewrite E. cbn.
  split; [done|]. split; [by rewrite Hr, (left_id_L ∅ (∪))|done].
Qed.

Lemma yields_eq {A} (m : registration P A) a a' ns ns' new new' :
  yields m a ns new → a = a' → ns = ns' → new = new' → yields m a' ns' new'.
Proof. by intros ? <- <- <-. Qed.
End laws.

(** Walk through a NewMetrics function; the goals left compare the names and series
    collected on the way. *)
Ltac walk_registration :=
  lazymatch goal with
  | |- yields (reg_ret _) _ _ _ => apply yields_ret
  | |- yields (reg_bind ?m _) _ _ _ =>
      eapply yields_bind;
      [ lazymatch m with
        | reg_new ?err (NewCounter ?o ?l) => refine (yields_NewCounter err o l _); vm_compute; reflexivity
        | reg_new ?err (NewGauge ?o ?l) => refine (yields_NewGauge err o l _); vm_compute; reflexivity
        | reg_new ?err (NewHistogram ?o ?l) => refine (yields_NewHistogram err o l _); vm_compute; reflexivity
        | with_labels ?c ?l => refine (yields_with c l (conj eq_refl eq_refl) eq_refl)
        end
      | cbv beta; walk_registration
      | ]
  end.
Ltac decide_closed := apply (bool_decide_unpack _); vm_compute; exact I.

(** ** The series of a service *)
Definition key : Type := string * list string.

Module IngestionSpec.
Import IngestionMetrics.

Definition transactionsTotal : Collector :=
  {| Kind := CounterVec; cOpts := transactionsTotalOpts; LabelNames := ["outcome"] |}.
Definition publishLatency : Collector :=
  {| Kind := HistogramVec; cOpts := publishLatencyOpts; LabelNames := ["outcome"] |}.
Definition breakerGauge : Collector :=
  {| Kind := GaugeVec; cOpts := breakerStateOpts; LabelNames := [] |}.

Definition theMetrics : Metrics :=
  {| transactionsSuccessTotal := (transactionsTotal, ["success"]);
     transactionsFailureTotal := (transactionsTotal, ["failure"]);
     publishLatencySuccess := (publishLatency, ["success"]);
     publishLatencyFailure := (publishLatency, ["failure"]);
     breakerState := (breakerGauge, []) |}.

Lemma ingestion_NewMetrics_yields {P} `{Pr : !Prometheus P} `{Pl : !PrometheusLaws P} :
  yields NewMetrics theMetrics
    {["ingestion_transactions_processed_total"; "ingestion_publish_latency_seconds"; "ingestion_kafka_circuit_breaker_state"]}
    (list_to_map [(("ingestion_transactions_processed_total", ["success"]), Count 0);
      (("ingestion_transactions_processed_total", ["failure"]), Count 0);
      (("ingestion_publish_latency_seconds", ["success"]), Count 0);
      (("ingestion_publish_latency_seconds", ["failure"]), Count 0);
      (("ingestion_kafka_circuit_breaker_state", []), Level (S754_zero false))]).
Proof.
  eapply yields_eq; [unfold NewMetrics; walk_registration; decide_closed|reflexivity|decide_closed..].
Qed.
End IngestionSpec.

Module PublisherSpec.
Import PublisherMetrics.

Definition reservationDropped : Collector :=
  {| Kind := CounterVec; cOpts := tenantReservationDroppedOpts; LabelNames := [] |}.
Definition reloadError : Collector :=
  {| Kind := CounterVec; cOpts := tenantReservationReloadErrorOpts; LabelNames := [] |}.
Definition countGauge : Collector := {| Kind := GaugeVec; cOpts := partitionCountOpts; LabelNames := ["tenant"] |}.
Definition startGauge : Collector := {| Kind := GaugeVec; cOpts := partitionStartOpts; LabelNames := ["tenant"] |}.

Definition theMetrics (known : gset string) : Metrics :=
  {| tenantReservationDroppedTotal := (reservationDropped, []);
     tenantReservationReloadErrorTotal := (reloadError, []);
     partitionCount := countGauge; partitionStart := startGauge; knownTenants := known |}.

Lemma publisher_NewMetrics_yields {P} `{Pr : !Prometheus P} `{Pl : !PrometheusLaws P} known :
  yields (NewMetrics known) (theMetrics known)
    {["ingestion_kafka_tenant_reservation_dropped_total"; "ingestion_kafka_tenant_reservation_reload_errors_total";
      "ingestion_kafka_tenant_partition_count"; "ingestion_kafka_tenant_partition_start_count"]}
    (list_to_map [(("ingestion_kafka_tenant_reservation_dropped_total", []), Count 0);
      (("ingestion_kafka_tenant_reservation_reload_errors_total", []), Count 0)]).
Proof.
  eapply yields_eq; [unfold NewMetrics; walk_registration; decide_closed|reflexivity|decide_closed..].
Qed.
End PublisherSpec.

Module ConsumerSpec.
Import ConsumerMetrics.

Definition lagGauge : Collector := {| Kind := GaugeVec; cOpts := consumerLagOpts; LabelNames := ["tenant"] |}.
Definition activeGauge : Collector := {| Kind := GaugeVec; cOpts := activeConsumerCountOpts; LabelNames := ["tenant"] |}.
Definition reloadErrors : Collector := {| Kind := CounterVec; cOpts := partitionReloadErrorsOpts; LabelNames := [] |}.

Definition theMetrics (known : gset string) : Metrics :=
  {| consumerLagMessages := lagGauge; activeConsumerCount := activeGauge;
     partitionReloadErrorsTotal := (reloadErrors, []); knownTenants := known |}.

Lemma consumer_NewMetrics_yields {P} `{Pr : !Prometheus P} `{Pl : !PrometheusLaws P} known :
  yields (NewMetrics known) (theMetrics known)
    {["processor_kafka_consumer_lag_messages"; "processor_kafka_active_consumer_count";
      "processor_kafka_tenant_partition_reload_errors_total"]}
    {[("processor_kafka_tenant_partition_reload_errors_total", []) := Count 0]}.
Proof.
  eapply yields_eq; [unfold NewMetrics; walk_registration; decide_closed|reflexivity|decide_closed..].
Qed.
End ConsumerSpec.

Module ReconcilerSpec.
Import ReconcilerMetrics.

Definition total : Collector := {| Kind := CounterVec; cOpts := reconciledTotalOpts; LabelNames := ["outcome"] |}.
Definition duration : Collector :=
  {| Kind := HistogramVec; cOpts := reconcileDurationOpts; LabelNames := ["outcome"; "tenant"] |}.
Definition breakerGauge : Collector := {| Kind := GaugeVec; cOpts := breakerStateGaugeOpts; LabelNames := ["repository"] |}.

Definition duration_key (outcome label : string) : key := ("processor_transaction_duration_seconds", [outcome; label]).

Definition cached (observers : gmap string (gmap string child)) (labels : list string)
    : gmap string (gmap string child) :=
  foldl (λ observers label,
    <[label := <[outcomeSuccess := (duration, [outcomeSuccess; label])]>
               {[outcomeFailure := (duration, [outcomeFailure; label])]}]> observers) observers labels.

Fixpoint duration_series (labels : list string) : gmap key sample :=
  match labels with
  | [] => ∅
  | label :: rest =>
      {[duration_key outcomeSuccess label := Count 0]} ∪
      ({[duration_key outcomeFailure label := Count 0]} ∪ duration_series rest)
  end.

Definition theMetrics (known : gset string) : Metrics :=
  {| reconciledTotal := <[outcomeSuccess := (total, [outcomeSuccess])]> {[outcomeFailure := (total, [outcomeFailure])]};
     durationObservers := cached ∅ (UnknownTenantLabel :: sortedTenantIDs known);
     breakerState := <[repositoryTransactions := (breakerGauge, [repositoryTransactions])]>
                       {[repositoryReconciledState := (breakerGauge, [repositoryReconciledState])]};
     knownTenants := known |}.

Section laws.
Context {P : Type} `{Pr : !Prometheus P} `{Pl : !PrometheusLaws P}.

Lemma cacheObservers_yields labels observers :
  yields (cacheObservers duration labels observers) (cached observers labels) ∅ (duration_series labels).
Proof.
  revert observers. induction labels as [|label labels IH]; intros observers; cbn [cacheObservers]; [apply yields_ret|].
  eapply yields_eq; [|reflexivity| |reflexivity].
  - eapply yields_bind; [apply (yields_with duration); [by split|reflexivity]| |].
    + cbv beta. eapply yields_bind; [apply (yields_with duration); [by split|reflexivity]|apply IH|set_solver].
    + set_solver.
  - set_solver.
Qed.

Definition closed_series : gmap key sample :=
  list_to_map [(("processor_transactions_processed_total", [outcomeSuccess]), Count 0);
    (("processor_transactions_processed_total", [outcomeFailure]), Count 0);
    (("processor_postgres_circuit_breaker_state", [repositoryTransactions]), Level (S754_zero false));
    (("processor_postgres_circuit_breaker_state", [repositoryReconciledState]), Level (S754_zero false))].

Lemma reconciler_NewMetrics_yields known :
  yields (NewMetrics known) (theMetrics known)
    {["processor_transactions_processed_total"; "processor_transaction_duration_seconds";
      "processor_postgres_circuit_breaker_state"]}
    (duration_series (UnknownTenantLabel :: sortedTenantIDs known) ∪ closed_series).
Proof.
  unfold NewMetrics. cbv zeta.
  eapply yields_eq.
  - eapply yields_bind; [refine (yields_NewCounter _ _ _ _); vm_compute; reflexivity|cbv beta|].
    + eapply yields_bind; [refine (yields_NewHistogram _ _ _ _); vm_compute; reflexivity|cbv beta|].
      * eapply yields_bind; [refine (yields_NewGauge _ _ _ _); vm_compute; reflexivity|cbv beta|].
        -- eapply yields_bind; [apply cacheObservers_yields|cbv beta; walk_registration; decide_closed|set_solver].
        -- decide_closed.
      * decide_closed.
    + decide_closed.
  - reflexivity.
  - decide_closed.
  - rewrite !map_empty_union. by f_equal.
Qed.
End laws.
End ReconcilerSpec.

(** ** Recording to registered metrics *)
Section recording.
Context {P : Type} `{Pr : !Prometheus P} `{Pl : !PrometheusLaws P}.

Definition vec_key (c : Collector) (lvs : list string) : key := (Name (cOpts c), lvs).

Lemma Add_count c lvs n v p : plain c → 0 ≤ v → series p !! vec_key c lvs = Some (Count n) →
  series (counter_Add c lvs v p) = <[vec_key c lvs := Count (n + v)]> (series p).
Proof.
  intros [Hn Hs] Hv E. pose proof (BuildFQName_plain (cOpts c) Hn Hs) as Hq. unfold vec_key in *. rewrite <-Hq in *.
  by apply Add_series.
Qed.

Lemma Observe_count c lvs n p : plain c → series p !! vec_key c lvs = Some (Count n) →
  series (observer_Observe c lvs p) = <[vec_key c lvs := Count (n + 1)]> (series p).
Proof.
  intros [Hn Hs] E. pose proof (BuildFQName_plain (cOpts c) Hn Hs) as Hq. unfold vec_key in *. rewrite <-Hq in *.
  by apply Observe_series.
Qed.

Lemma Set_level c lvs v p : plain c → series (gauge_Set c lvs v p) = <[vec_key c lvs := Level v]> (series p).
Proof. intros [Hn Hs]. unfold vec_key. rewrite <-(BuildFQName_plain (cOpts c) Hn Hs). apply Set_series. Qed.

Lemma set_with_level c lvs v p : plain c → length lvs = length (LabelNames c) →
  ∃ p', set_with c lvs v p = Some p' ∧ series p' = <[vec_key c lvs := Level v]> (series p).
Proof.
  intros Hp Hlen. destruct (WithLabelValues_ok c lvs p Hlen) as (p1 & E & _ & Hs).
  exists (gauge_Set c lvs v p1). unfold set_with. rewrite E. split; [done|]. rewrite Set_level, Hs by done.
  destruct Hp as [Hn Hsub]. rewrite BuildFQName_plain by done. fold (vec_key c lvs).
  apply map_eq. intros k. destruct (decide (k = vec_key c lvs)) as [->|Hk]; [by rewrite !lookup_insert_eq|].
  rewrite !lookup_insert_ne, lookup_union, lookup_singleton_ne by done. by destruct (series p !! k).
Qed.

(** Every series is allowed, and the counting ones are there. *)
Definition series_inv (allowed counting : key → Prop) (p : P) : Prop :=
  (∀ k, is_Some (series p !! k) → allowed k) ∧
  (∀ k, counting k → ∃ n, series p !! k = Some (Count n)).

Section invariant.
Context (allowed counting : key → Prop).

Lemma inv_Add c lvs v p : plain c → 0 ≤ v → counting (vec_key c lvs) → series_inv allowed counting p →
  series_inv allowed counting (counter_Add c lvs v p).
Proof.
  intros Hp Hv Hk [Ha Hc]. destruct (Hc _ Hk) as [n E].
  split; intros k; rewrite (Add_count c lvs n) by done; destruct (decide (k = vec_key c lvs)) as [->|Hne];
    rewrite ?lookup_insert_eq, ?lookup_insert_ne by done; eauto.
Qed.

Lemma inv_Observe c lvs p : plain c → counting (vec_key c lvs) → series_inv allowed counting p →
  series_inv allowed counting (observer_Observe c lvs p).
Proof.
  intros Hp Hk [Ha Hc]. destruct (Hc _ Hk) as [n E].
  split; intros k; rewrite (Observe_count c lvs n) by done; destruct (decide (k = vec_key c lvs)) as [->|Hne];
    rewrite ?lookup_insert_eq, ?lookup_insert_ne by done; eauto.
Qed.

Lemma inv_level c lvs v p p' : allowed (vec_key c lvs) → ¬ counting (vec_key c lvs) →
  series p' = <[vec_key c lvs := Level v]> (series p) → series_inv allowed counting p → series_inv allowed counting p'.
Proof.
  intros Hk Hn Hs [Ha Hc]. split; intros k; rewrite Hs; destruct (decide (k = vec_key c lvs)) as [->|Hne];
    rewrite ?lookup_insert_eq, ?lookup_insert_ne by done; eauto. done.
Qed.

Lemma inv_Set c lvs v p : plain c → allowed (vec_key c lvs) → ¬ counting (vec_key c lvs) →
  series_inv allowed counting p → series_inv allowed counting (gauge_Set c lvs v p).
Proof. intros. eapply inv_level; [done..|by apply Set_level|done]. Qed.

Lemma inv_set_with c lvs v p : plain c → length lvs = length (LabelNames c) →
  allowed (vec_key c lvs) → ¬ counting (vec_key c lvs) → series_inv allowed counting p →
  ∃ p', set_with c lvs v p = Some p' ∧ series_inv allowed counting p'.
Proof.
  intros Hp Hlen Ha Hn Hi. destruct (set_with_level c lvs v p Hp Hlen) as (p' & E & Hs).
  exists p'. split; [done|by eapply inv_level].
Qed.
End invariant.
End recording.

Lemma size_list_to_set_le (l : list key) : (size (list_to_set l : gset key) ≤ length l)%nat.
Proof.
  induction l as [|x l IH]; cbn; [by rewrite size_empty|].
  rewrite size_union_alt, size_singleton.
  pose proof (subseteq_size (list_to_set l ∖ {[x]}) (list_to_set l : gset key) ltac:(set_solver)). lia.
Qed.

Lemma size_series_le {P} `{Pr : !Prometheus P} (keys : list key) (p : P) :
  (∀ k, is_Some (series p !! k) → k ∈ keys) → (size (series p) ≤ length keys)%nat.
Proof.
  intros H. rewrite <-(size_dom (D := gset key)). etrans; [|apply size_list_to_set_le].
  apply subseteq_size. intros k Hk%elem_of_dom. apply elem_of_list_to_set. auto.
Qed.

(** ** The processor's registry *)
Module ProcessorRegistry.

(** The registrations of cmd/processor, in its order. *)
Definition startup {P} `{Pr : !Prometheus P} (known : gset string)
    : registration P (ReconcilerMetrics.Metrics * ConsumerMetrics.Metrics) :=
  let? reconcilerMetrics := ReconcilerMetrics.NewMetrics known in
  let? consumerMetrics := ConsumerMetrics.NewMetrics known in
  reg_ret (reconcilerMetrics, consumerMetrics).

(** What the service then records, one call at a time. *)
Inductive event :=
  | Reconciled (failed : bool) (tenantID : string) (transactionsBreaker statesBreaker : option State)
  | LagObserved (tenantID : string) (lag : Z)
  | ActiveObserved (order1 order2 : gmap string Z → list (string * Z)) (counts : gmap string Z)
  | ReloadFailed.

(** The two loops visit exactly what is in their maps. *)
Definition visits (order : gmap string Z → list (string * Z)) : Prop := ∀ m, order m ≡ₚ map_to_list m.
Definition event_ok (e : event) : Prop :=
  match e with ActiveObserved order1 order2 _ => visits order1 ∧ visits order2 | _ => True end.

Definition record {P} `{Pr : !Prometheus P} (rm : ReconcilerMetrics.Metrics) (cm : ConsumerMetrics.Metrics)
    (e : event) (p : P) : option P :=
  match e with
  | Reconciled failed tenantID tb sb => ReconcilerMetrics.recordReconcile rm failed tenantID tb sb p
  | LagObserved tenantID lag => ConsumerMetrics.observeLag cm tenantID lag p
  | ActiveObserved order1 order2 counts => ConsumerMetrics.observeActiveConsumers cm order1 order2 counts p
  | ReloadFailed =>
      let '(c, lvs) := ConsumerMetrics.partitionReloadErrorsTotal cm in Some (counter_Add c lvs 1 p)
  end.

Fixpoint record_all {P} `{Pr : !Prometheus P} (rm : ReconcilerMetrics.Metrics) (cm : ConsumerMetrics.Metrics)
    (es : list event) (p : P) : option P :=
  match es with [] => Some p | e :: es => p ← record rm cm e p; record_all rm cm es p end.

Import ReconcilerMetrics ReconcilerSpec ConsumerSpec.

Definition outcomes : list string := [outcomeSuccess; outcomeFailure].
Definition repositories : list string := [repositoryTransactions; repositoryReconciledState].

(** Every series the service can have. *)
Definition keys (known : gset string) : list key :=
  [vec_key total [outcomeSuccess]; vec_key total [outcomeFailure];
   vec_key breakerGauge [repositoryTransactions]; vec_key breakerGauge [repositoryReconciledState];
   vec_key reloadErrors []] ++
  (elements (tenant_labels known) ≫= λ label,
    [duration_key outcomeSuccess label; duration_key outcomeFailure label;
     vec_key lagGauge [label]; vec_key activeGauge [label]]).

Definition counting (known : gset string) (k : key) : Prop :=
  (∃ o, o ∈ outcomes ∧ k = vec_key total [o]) ∨
  (∃ o label, o ∈ outcomes ∧ label ∈ tenant_labels known ∧ k = duration_key o label) ∨
  k = vec_key reloadErrors [].

Lemma length_keys known : (length (keys known) ≤ 9 + 4 * size known)%nat.
Proof.
  assert (∀ l : list string, length (l ≫= λ label,
    [duration_key outcomeSuccess label; duration_key outcomeFailure label;
     vec_key lagGauge [label]; vec_key activeGauge [label]]) = (4 * length l)%nat) as H.
  { induction l as [|x l IH]; [done|]. cbn. rewrite IH. lia. }
  unfold keys. rewrite length_app, H. cbn [length].
  change (length (elements (tenant_labels known))) with (size (tenant_labels known)).
  unfold tenant_labels. rewrite size_union_alt, size_singleton.
  pose proof (subseteq_size (known ∖ {[UnknownTenantLabel]}) known ltac:(set_solver)). lia.
Qed.

Lemma label_keys known label k : label ∈ tenant_labels known →
  k ∈ [duration_key outcomeSuccess label; duration_key outcomeFailure label;
       vec_key lagGauge [label]; vec_key activeGauge [label]] → k ∈ keys known.
Proof.
  intros Hl Hk. apply elem_of_app. right. apply list_elem_of_bind. exists label. split; [done|].
  by apply elem_of_elements.
Qed.

Lemma counting_keys known k : counting known k → k ∈ keys known.
Proof.
  intros [(o & Ho & ->)|[(o & label & Ho & Hl & ->)| ->]].
  - apply elem_of_app. left. unfold outcomes in Ho. set_solver.
  - eapply label_keys; [done|]. unfold outcomes in Ho. set_solver.
  - apply elem_of_app. left. set_solver.
Qed.

Lemma gauge_not_counting known c lvs : c ∈ [breakerGauge; lagGauge; activeGauge] → ¬ counting known (vec_key c lvs).
Proof.
  intros Hc [(o & _ & H)|[(o & l & _ & _ & H)|H]]; apply (f_equal fst) in H; cbn in H;
    repeat (apply elem_of_cons in Hc as [->|Hc]; [by vm_compute in H|]); by apply elem_of_nil in Hc.
Qed.

Lemma elem_of_sortedTenantIDs known t : t ∈ sortedTenantIDs known ↔ t ∈ known.
Proof. unfold sortedTenantIDs. rewrite merge_sort_Permutation. apply elem_of_elements. Qed.

Lemma cached_lookup labels observers label : label ∈ labels →
  cached observers labels !! label =
    Some (<[outcomeSuccess := (duration, [outcomeSuccess; label])]> {[outcomeFailure := (duration, [outcomeFailure; label])]}).
Proof.
  unfold cached. induction labels as [|l labels IH] using rev_ind; [by intros ?%elem_of_nil|].
  intros Hin. rewrite foldl_app. cbn. destruct (decide (l = label)) as [->|Hne]; [apply lookup_insert_eq|].
  rewrite lookup_insert_ne by done. apply IH. set_solver.
Qed.

Lemma durationObserver_found known outcome tenantID : outcome ∈ outcomes →
  durationObserver (ReconcilerSpec.theMetrics known) outcome tenantID =
    Some (duration, [outcome; KnownTenants_TenantLabel known tenantID]).
Proof.
  intros Ho. unfold durationObserver, ReconcilerSpec.theMetrics. cbn [durationObservers knownTenants].
  rewrite cached_lookup.
  - unfold outcomes in Ho. repeat (apply elem_of_cons in Ho as [->|Ho]; [done|]). by apply elem_of_nil in Ho.
  - pose proof (TenantLabel_bounded known tenantID) as H. unfold tenant_labels in H.
    rewrite elem_of_cons, elem_of_sortedTenantIDs. set_solver.
Qed.

Section laws.
Context {P : Type} `{Pr : !Prometheus P} `{Pl : !PrometheusLaws P}.
Context (known : gset string).

Definition inv : P → Prop := series_inv (λ k, k ∈ keys known) (counting known).

Lemma setBreakerState_inv repository state p : repository ∈ repositories → inv p →
  ∃ p', setBreakerState (ReconcilerSpec.theMetrics known) repository state p = Some p' ∧ inv p'.
Proof.
  intros Hr Hi. destruct state as [s|]; cbn [setBreakerState]; [|eauto].
  assert (breakerState (ReconcilerSpec.theMetrics known) !! repository = Some (breakerGauge, [repository])) as ->.
  { unfold repositories in Hr. repeat (apply elem_of_cons in Hr as [->|Hr]; [done|]). by apply elem_of_nil in Hr. }
  cbn. eexists. split; [done|]. apply inv_Set; [by split| |apply gauge_not_counting; set_solver|done].
  apply elem_of_app. left. unfold repositories in Hr. set_solver.
Qed.

Lemma recordReconcile_inv failed tenantID tb sb p : inv p →
  ∃ p', recordReconcile (ReconcilerSpec.theMetrics known) failed tenantID tb sb p = Some p' ∧ inv p'.
Proof.
  intros Hi. unfold recordReconcile. set (outcome := if failed then outcomeFailure else outcomeSuccess).
  assert (outcome ∈ outcomes) as Ho by (subst outcome; destruct failed; unfold outcomes; set_solver).
  assert (reconciledTotal (ReconcilerSpec.theMetrics known) !! outcome = Some (total, [outcome])) as ->
    by (subst outcome; by destruct failed).
  cbn [mbind option_bind]. rewrite durationObserver_found by done. cbn [mbind option_bind].
  set (p1 := observer_Observe _ _ _). assert (inv p1) as H1.
  { apply inv_Observe; [by split| |].
    - right. left. exists outcome, (KnownTenants_TenantLabel known tenantID). auto with go_str.
    - apply inv_Add; [by split|lia|left; eauto|done]. }
  destruct (setBreakerState_inv repositoryTransactions tb p1) as (p2 & -> & H2); [unfold repositories; set_solver|done|].
  cbn [mbind option_bind]. apply setBreakerState_inv; [unfold repositories; set_solver|done].
Qed.

Lemma observeLag_inv tenantID lag p : inv p →
  ∃ p', ConsumerMetrics.observeLag (ConsumerSpec.theMetrics known) tenantID lag p = Some p' ∧ inv p'.
Proof.
  intros Hi. apply inv_set_with; [by split|done| |apply gauge_not_counting; set_solver|done].
  eapply label_keys; [apply (TenantLabel_bounded _ tenantID)|]. cbn. set_solver.
Qed.

Lemma activeTotals_labels counts label : label ∈ dom (ConsumerMetrics.activeTotals known counts) → label ∈ tenant_labels known.
Proof.
  unfold ConsumerMetrics.activeTotals. induction counts as [|[t n] counts IH] using rev_ind; [set_solver|].
  rewrite foldl_app. cbn. rewrite dom_insert_L. intros [->%elem_of_singleton|?]%elem_of_union; auto with go_str.
Qed.

Lemma setTotals_inv totals p : Forall (λ '(label, _), label ∈ tenant_labels known) totals → inv p →
  ∃ p', ConsumerMetrics.setTotals (ConsumerSpec.theMetrics known) totals p = Some p' ∧ inv p'.
Proof.
  intros Ht. revert p. induction Ht as [|[label n] totals Hl _ IH]; intros p Hi; cbn [ConsumerMetrics.setTotals]; [eauto|].
  destruct (inv_set_with (λ k, k ∈ keys known) (counting known) activeGauge [label] (f64_of_Z n) p)
    as (p1 & E & H1); [by split|done| |apply gauge_not_counting; set_solver|done|].
  - eapply label_keys; [done|]. set_solver.
  - cbn [ConsumerMetrics.activeConsumerCount ConsumerSpec.theMetrics]. rewrite E. cbn. by apply IH.
Qed.

Lemma record_inv e p : event_ok e → inv p →
  ∃ p', record (ReconcilerSpec.theMetrics known) (ConsumerSpec.theMetrics known) e p = Some p' ∧ inv p'.
Proof.
  intros He Hi. destruct e as [failed t tb sb|t lag|order1 order2 counts|]; cbn [record].
  - by apply recordReconcile_inv.
  - by apply observeLag_inv.
  - destruct He as [_ H2]. red in H2. apply setTotals_inv; [|done]. apply Forall_forall. intros [label n] Hin.
    rewrite H2 in Hin. apply elem_of_map_to_list in Hin. eapply activeTotals_labels. by eapply elem_of_dom_2.
  - eexists. split; [reflexivity|]. apply inv_Add; [by split|lia|right; by right|done].
Qed.

Lemma record_all_inv es p : Forall event_ok es → inv p →
  ∃ p', record_all (ReconcilerSpec.theMetrics known) (ConsumerSpec.theMetrics known) es p = Some p' ∧ inv p'.
Proof.
  intros Hes. revert p. induction Hes as [|e es He _ IH]; intros p Hi; cbn [record_all]; [eauto|].
  destruct (record_inv e p He Hi) as (p1 & -> & H1). cbn. by apply IH.
Qed.

Lemma duration_series_lookup labels k :
  duration_series labels !! k =
    if bool_decide (k ∈ (labels ≫= λ label, [duration_key outcomeSuccess label; duration_key outcomeFailure label]))
    then Some (Count 0) else None.
Proof.
  induction labels as [|label labels IH]; cbn [duration_series]; [by rewrite lookup_empty|].
  rewrite !lookup_union, IH, !lookup_singleton. cbn.
  repeat case_decide; subst; repeat case_bool_decide; try done; set_solver.
Qed.

Lemma duration_series_other labels k :
  k.1 ≠ "processor_transaction_duration_seconds" → duration_series labels !! k = None.
Proof.
  intros Hk. rewrite duration_series_lookup, bool_decide_false; [done|]. intros (l & H & _)%list_elem_of_bind.
  repeat (apply elem_of_cons in H as [->|H]; [done|]). by apply elem_of_nil in H.
Qed.

Definition names : gset string :=
  {["processor_transactions_processed_total"; "processor_transaction_duration_seconds";
    "processor_postgres_circuit_breaker_state"; "processor_kafka_consumer_lag_messages";
    "processor_kafka_active_consumer_count"; "processor_kafka_tenant_partition_reload_errors_total"]}.

Definition initial : gmap key sample :=
  (duration_series (UnknownTenantLabel :: sortedTenantIDs known) ∪ closed_series) ∪
  {[("processor_kafka_tenant_partition_reload_errors_total", []) := Count 0]}.

Lemma startup_yields :
  yields (startup known) (ReconcilerSpec.theMetrics known, ConsumerSpec.theMetrics known) names initial.
Proof.
  eapply yields_eq.
  - eapply yields_bind; [apply ReconcilerSpec.reconciler_NewMetrics_yields|cbv beta|].
    + eapply yields_bind; [apply ConsumerSpec.consumer_NewMetrics_yields|apply yields_ret|set_solver].
    + decide_closed.
  - reflexivity.
  - decide_closed.
  - by rewrite map_union_empty.
Qed.

Lemma initial_inv p p' : series p = ∅ → grown names initial p p' → inv p'.
Proof.
  intros H0 [_ Hs]. rewrite H0, map_empty_union in Hs. split; intros k; rewrite Hs; unfold initial.
  - intros [v Hv]. apply lookup_union_Some_raw in Hv as [Hv|[_ Hv]].
    + apply lookup_union_Some_raw in Hv as [Hv|[_ Hv]].
      * rewrite duration_series_lookup in Hv. case_bool_decide as Hk; [|done].
        apply list_elem_of_bind in Hk as (label & Hk & Hl). apply (label_keys known label); [|set_solver].
        unfold tenant_labels. rewrite elem_of_cons, elem_of_sortedTenantIDs in Hl. set_solver.
      * apply elem_of_list_to_map_2 in Hv. apply elem_of_app. left. set_solver.
    + apply lookup_singleton_Some in Hv as [<- _]. apply elem_of_app. left. set_solver.
  - intros Hk. exists 0. destruct Hk as [(o & Ho & ->)|[(o & l & Ho & Hl & ->)| ->]].
    + apply lookup_union_Some_raw. left. apply lookup_union_Some_raw. right.
      split; [|unfold outcomes in Ho; repeat (apply elem_of_cons in Ho as [->|Ho]; [done|]); by apply elem_of_nil in Ho].
      by apply duration_series_other.
    + apply lookup_union_Some_raw. left. apply lookup_union_Some_raw. left.
      rewrite duration_series_lookup. rewrite bool_decide_true; [done|]. apply list_elem_of_bind. exists l.
      split; [unfold outcomes in Ho; set_solver|]. rewrite elem_of_cons, elem_of_sortedTenantIDs.
      unfold tenant_labels in Hl. set_solver.
    + rewrite lookup_union_r; [by rewrite lookup_singleton_eq|]. apply lookup_union_None. split; [|done].
      by apply duration_series_other.
Qed.

(** What the registry shows of the reconciler's metrics of System: the counters by
    outcome, the observations by tenant label and outcome, the breaker gauges. *)
Definition shows (p : P) (m : System.ReconcilerMetrics) : Prop :=
  (∀ o, o ∈ outcomes → series p !! vec_key total [o] = Some (Count (default 0 (System.reconciledTotal m !! o)))) ∧
  (∀ o label, o ∈ outcomes → label ∈ tenant_labels known →
     series p !! duration_key o label = Some (Count (default 0 (durationCounts m !! (label, o))))) ∧
  (∀ repository, repository ∈ repositories →
     series p !! vec_key breakerGauge [repository] = Some (Level (f64_of_Z (default 0 (breakerGauges m !! repository))))).

Lemma default_increase {L} `{Countable L} (k k' : L) (m : gmap L Z) :
  default 0 (increase k m !! k') = if decide (k = k') then default 0 (m !! k) + 1 else default 0 (m !! k').
Proof. unfold increase. rewrite lookup_insert. by case_decide. Qed.

Lemma shows_count o label p m : o ∈ outcomes → label ∈ tenant_labels known → shows p m →
  shows (observer_Observe duration [o; label] (counter_Add total [o] 1 p))
    {| System.reconciledTotal := increase o (System.reconciledTotal m);
       durationCounts := increase (label, o) (durationCounts m); breakerGauges := breakerGauges m |}.
Proof.
  intros Ho Hl (Ht & Hd & Hb).
  assert (series (counter_Add total [o] 1 p) =
    <[vec_key total [o] := Count (default 0 (System.reconciledTotal m !! o) + 1)]> (series p)) as H1
    by (apply Add_count; [by split|lia|auto]).
  assert (series (counter_Add total [o] 1 p) !! vec_key duration [o; label] =
    Some (Count (default 0 (durationCounts m !! (label, o))))) as H2 by (rewrite H1, lookup_insert_ne by done; by apply Hd).
  unfold shows. rewrite (Observe_count duration [o; label] _ _ (conj eq_refl eq_refl) H2), H1. split; [|split].
  - intros o' Ho'. cbn [System.reconciledTotal]. rewrite default_increase, lookup_insert_ne, lookup_insert by done.
    destruct (decide (o = o')) as [->|Hne]; [by rewrite decide_True|].
    rewrite decide_False by (unfold vec_key; congruence). auto.
  - intros o' l' Ho' Hl'. cbn [durationCounts]. rewrite default_increase, lookup_insert.
    change (vec_key duration [o; label]) with (duration_key o label).
    destruct (decide ((label, o) = (l', o'))) as [E|Hne].
    + injection E as -> ->. by rewrite decide_True.
    + rewrite decide_False by (unfold duration_key; congruence). rewrite lookup_insert_ne by done. auto.
  - intros r Hr. rewrite !lookup_insert_ne by done. auto.
Qed.

Lemma shows_gauge {W} repository (state : option (W → State)) w p m : repository ∈ repositories → shows p m →
  ∃ p', setBreakerState (ReconcilerSpec.theMetrics known) repository ((λ f, f w) <$> state) p = Some p' ∧
    shows p' {| System.reconciledTotal := System.reconciledTotal m; durationCounts := durationCounts m;
                breakerGauges := setGauge repository state w (breakerGauges m) |}.
Proof.
  intros Hr Hs. destruct state as [f|]; cbn [setBreakerState fmap option_fmap option_map setGauge];
    [|exists p; split; [done|]; by destruct m].
  assert (breakerState (ReconcilerSpec.theMetrics known) !! repository = Some (breakerGauge, [repository])) as ->.
  { unfold repositories in Hr. repeat (apply elem_of_cons in Hr as [->|Hr]; [done|]). by apply elem_of_nil in Hr. }
  cbn [mbind option_bind]. eexists. split; [done|]. destruct Hs as (Ht & Hd & Hb). unfold shows.
  rewrite Set_level by (by split). split; [|split].
  - intros o Ho. rewrite lookup_insert_ne by done. auto.
  - intros o l Ho Hl. rewrite lookup_insert_ne by done. auto.
  - intros r' Hr'. cbn [breakerGauges]. rewrite !lookup_insert.
    destruct (decide (repository = r')) as [->|Hne]; [by rewrite decide_True|].
    rewrite decide_False by (unfold vec_key; congruence). auto.
Qed.

(** The processor's metrics are bounded for good: on a registry without its names
    the registrations succeed, and no sequence of recorded events, whatever the
    tenant ids, panics or makes a series outside a set fixed by the configured
    tenants, of at most 9 + 4n series for n tenants. *)
Theorem processor_series_bounded p es :
  names ## registered p → series p = ∅ → Forall event_ok es →
  ∃ rm cm p0 p', startup known p = Some (Ok (rm, cm), p0) ∧ record_all rm cm es p0 = Some p' ∧
    (∀ k, is_Some (series p' !! k) → k ∈ keys known) ∧ (size (series p') ≤ 9 + 4 * size known)%nat.
Proof.
  intros Hn H0 Hes. destruct (startup_yields p Hn) as (p0 & E & G).
  destruct (record_all_inv es p0 Hes (initial_inv p p0 H0 G)) as (p' & E' & Hi & _).
  exists (ReconcilerSpec.theMetrics known), (ConsumerSpec.theMetrics known), p0, p'. split; [done|]. split; [done|]. split; [done|].
  etrans; [by apply size_series_le|apply length_keys].
Qed.

Lemma initial_shows p p' : series p = ∅ → grown names initial p p' →
  shows p' {| System.reconciledTotal := ∅; durationCounts := ∅; breakerGauges := ∅ |}.
Proof.
  intros H0 [_ Hs]. rewrite H0, map_empty_union in Hs. unfold shows. rewrite Hs. unfold initial.
  cbn [System.reconciledTotal durationCounts breakerGauges]. split; [|split].
  - intros o Ho. unfold outcomes in Ho. rewrite lookup_union_l by by apply lookup_singleton_ne.
    rewrite lookup_union_r by by apply duration_series_other.
    repeat (apply elem_of_cons in Ho as [->|Ho]; [done|]). by apply elem_of_nil in Ho.
  - intros o l Ho Hl. apply lookup_union_Some_raw. left. apply lookup_union_Some_raw. left.
    rewrite duration_series_lookup, bool_decide_true; [by rewrite lookup_empty|]. apply list_elem_of_bind. exists l.
    split; [unfold outcomes in Ho; set_solver|]. rewrite elem_of_cons, elem_of_sortedTenantIDs.
    unfold tenant_labels in Hl. set_solver.
  - intros r Hr. unfold repositories in Hr. rewrite lookup_union_l by by apply lookup_singleton_ne.
    rewrite lookup_union_r by by apply duration_series_other.
    repeat (apply elem_of_cons in Hr as [->|Hr]; [done|]). by apply elem_of_nil in Hr.
Qed.

(** The registry shows what the instrumented reconciler did: it starts out showing
    nothing counted, and every Reconcile finds its metrics, whatever the tenant,
    and leaves the registry showing the counters, observations and breaker gauges
    it computed. *)
Theorem registry_shows_reconciler {W} transactionsBreaker statesBreaker next txn (o : Observed W) p0 p p1 :
  (series p0 = ∅ → startup known p0 = Some (Ok (ReconcilerSpec.theMetrics known, ConsumerSpec.theMetrics known), p1) →
     names ## registered p0 → shows p1 {| System.reconciledTotal := ∅; durationCounts := ∅; breakerGauges := ∅ |}) ∧
  (shows p (oMetrics o) →
   let '(res, o') := InstrumentedReconciler_Reconcile known transactionsBreaker statesBreaker next txn o in
   ∃ p', recordReconcile (ReconcilerSpec.theMetrics known) (failed res) (TenantID txn)
           ((λ f, f (oNext o')) <$> transactionsBreaker) ((λ f, f (oNext o')) <$> statesBreaker) p = Some p' ∧
     shows p' (oMetrics o')).
Proof.
  split.
  - intros H0 E Hn. destruct (startup_yields p0 Hn) as (p' & E' & G). rewrite E in E'. injection E' as <-.
    by eapply initial_shows.
  - intros Hs. unfold InstrumentedReconciler_Reconcile. destruct (next txn (oNext o)) as [res w].
    unfold recordReconcile. change "failure" with outcomeFailure. change "success" with outcomeSuccess.
    set (outcome := if failed res then outcomeFailure else outcomeSuccess).
    assert (outcome ∈ outcomes) as Ho by (subst outcome; destruct (failed res); unfold outcomes; set_solver).
    assert (reconciledTotal (ReconcilerSpec.theMetrics known) !! outcome = Some (total, [outcome])) as ->
      by (subst outcome; by destruct (failed res)).
    cbn [mbind option_bind]. rewrite durationObserver_found by done. cbn [mbind option_bind oNext oMetrics].
    eapply shows_count in Hs; [|exact Ho|apply (TenantLabel_bounded known (TenantID txn))].
    destruct (shows_gauge repositoryTransactions transactionsBreaker w _ _
      ltac:(unfold repositories; set_solver) Hs) as (p2 & -> & H2).
    destruct (shows_gauge repositoryReconciledState statesBreaker w _ _
      ltac:(unfold repositories; set_solver) H2) as (p3 & E & H3).
    exists p3. split; [exact E|exact H3].
Qed.
End laws.
End ProcessorRegistry.

(** ** Active consumers by label *)
Module ActiveConsumers.
Import ConsumerMetrics ConsumerSpec.

Section laws.
Context {P : Type} `{Pr : !Prometheus P} `{Pl : !PrometheusLaws P}.
Context (known : gset string).

(** The counts of the tenants that resolve to [label], added up. *)
Definition label_sum (label : string) (counts : list (string * Z)) : Z :=
  foldr (λ '(t, n) sum, if bool_decide (KnownTenants_TenantLabel known t = label) then n + sum else sum) 0 counts.

Definition has_label (label : string) (counts : list (string * Z)) : Prop :=
  ∃ t n, (t, n) ∈ counts ∧ KnownTenants_TenantLabel known t = label.

Lemma label_sum_app label l k : label_sum label (l ++ k) = label_sum label l + label_sum label k.
Proof. unfold label_sum. induction l as [|[t n] l IH]; [done|]. cbn. rewrite IH. case_bool_decide; lia. Qed.

Lemma label_sum_perm label l k : l ≡ₚ k → label_sum label l = label_sum label k.
Proof.
  unfold label_sum. induction 1 as [|[t n] l k _ IH|[t n] [t' n'] l|l k j _ IH1 _ IH2]; cbn; [done| | |congruence].
  - by rewrite IH.
  - repeat case_bool_decide; lia.
Qed.

Lemma label_sum_none label l : ¬ has_label label l → label_sum label l = 0.
Proof.
  unfold has_label. induction l as [|[t n] l IH]; [done|]. intros Hn. cbn. rewrite bool_decide_false.
  - apply IH. intros (u & m & ? & ?). apply Hn. exists u, m. split; [by right|done].
  - intros E. apply Hn. exists t, n. split; [by left|done].
Qed.

Lemma has_label_dec label l : has_label label l ∨ ¬ has_label label l.
Proof.
  destruct (decide (Exists (λ tn, KnownTenants_TenantLabel known tn.1 = label) l)) as [H|H]; rewrite Exists_exists in H;
    [left|right; intros (t & n & ? & ?); apply H; by exists (t, n)].
  destruct H as ([t n] & ? & ?). by exists t, n.
Qed.

Lemma activeTotals_lookup label l :
  (has_label label l → activeTotals known l !! label = Some (int32 (label_sum label l))) ∧
  (¬ has_label label l → activeTotals known l !! label = None).
Proof.
  unfold activeTotals. induction l as [|[t n] l [IH1 IH2]] using rev_ind; [split; [by intros (? & ? & ?%elem_of_nil & _)|done]|].
  assert (has_label label (l ++ [(t, n)]) ↔ has_label label l ∨ KnownTenants_TenantLabel known t = label) as Hl.
  { unfold has_label. split.
    - intros (u & m & Hin & E). apply elem_of_app in Hin as [?|H]; [left; eauto|].
      apply list_elem_of_singleton in H. injection H as -> ->. by right.
    - intros [(u & m & ? & E)|E]; [exists u, m|exists t, n]; (split; [|done]); apply elem_of_app; [by left|right].
      by apply list_elem_of_singleton. }
  rewrite Hl, foldl_app, label_sum_app. cbn. rewrite lookup_insert. set (tl := KnownTenants_TenantLabel known t) in *.
  case_decide as E; [rewrite E in *; rewrite bool_decide_true by done|rewrite bool_decide_false, Z.add_0_r by done; tauto].
  split; [intros _|tauto]. f_equal. rewrite Z.add_0_r.
  assert (default 0 (foldl (λ totals '(tenantID, count), <[KnownTenants_TenantLabel known tenantID :=
    int32 (default 0 (totals !! KnownTenants_TenantLabel known tenantID) + count)]> totals) ∅ l !! label)
    = int32 (label_sum label l)) as ->; [|int_lia].
  destruct (has_label_dec label l) as [H|H]; [by rewrite IH1|]. rewrite IH2, label_sum_none by done. done.
Qed.

Lemma setTotals_series totals p : NoDup totals.*1 →
  ∃ p', setTotals (theMetrics known) totals p = Some p' ∧
    (∀ label n, (label, n) ∈ totals → series p' !! vec_key activeGauge [label] = Some (Level (f64_of_Z n))) ∧
    (∀ k, (∀ label n, (label, n) ∈ totals → k ≠ vec_key activeGauge [label]) → series p' !! k = series p !! k).
Proof.
  revert p. induction totals as [|[label n] totals IH]; intros p Hnd; cbn [setTotals].
  - exists p. split; [done|]. split; [by intros ? ? ?%elem_of_nil|done].
  - apply NoDup_cons in Hnd as [Hni Hnd].
    destruct (set_with_level activeGauge [label] (f64_of_Z n) p) as (p1 & E & H1); [by split|done|].
    destruct (IH p1 Hnd) as (p' & E' & Hin & Hout). exists p'.
    change (activeConsumerCount (theMetrics known)) with activeGauge. rewrite E. cbn [mbind option_bind].
    split; [done|]. split.
    + intros label' n' [[= -> ->]|?]%elem_of_cons; [|by apply Hin]. rewrite Hout, H1; [by rewrite lookup_insert_eq|].
      intros l m Hl [= ->]. apply Hni. apply list_elem_of_fmap. by exists (l, m).
    + intros k Hk. rewrite Hout, H1; [|intros l m ?; apply (Hk l m); by right].
      rewrite lookup_insert_ne; [done|]. intros <-. by apply (Hk label n); [left|].
Qed.

(** One poll batch on the active-consumer gauge: in whatever order Go ranges over
    the two maps, a label that some tenant of the batch resolves to is set to the
    int32 sum of those tenants' counts, and every other series keeps its value;
    so a tenant with no record in the most recent batch keeps the count of the last
    batch that had one. *)
Theorem active_gauge_by_label order1 order2 counts p :
  ProcessorRegistry.visits order1 → ProcessorRegistry.visits order2 →
  ∃ p', observeActiveConsumers (theMetrics known) order1 order2 counts p = Some p' ∧
    (∀ t, is_Some (counts !! t) → let label := KnownTenants_TenantLabel known t in
       series p' !! vec_key activeGauge [label] =
         Some (Level (f64_of_Z (int32 (label_sum label (map_to_list counts)))))) ∧
    (∀ k, (∀ t, is_Some (counts !! t) → k ≠ vec_key activeGauge [KnownTenants_TenantLabel known t]) →
       series p' !! k = series p !! k).
Proof.
  intros H1 H2. unfold observeActiveConsumers. change (knownTenants (theMetrics known)) with known.
  set (totals := activeTotals known (order1 counts)).
  assert (∀ label n, (label, n) ∈ order2 totals ↔ totals !! label = Some n) as Hin.
  { intros label n. rewrite (H2 totals). apply elem_of_map_to_list. }
  destruct (setTotals_series (order2 totals) p) as (p' & E & Hs & Ho).
  { rewrite (H2 totals). apply NoDup_fst_map_to_list. }
  exists p'. split; [done|]. split.
  - intros t [n Hn]. cbv zeta. set (label := KnownTenants_TenantLabel known t). apply Hs, Hin. rewrite <-(label_sum_perm label (order1 counts)) by apply H1.
    apply activeTotals_lookup. exists t, n. split; [|done]. rewrite (H1 counts). by apply elem_of_map_to_list.
  - intros k Hk. apply Ho. intros label n Hl%Hin.
    destruct (has_label_dec label (order1 counts)) as [(t & m & Ht & <-)|Hno].
    + rewrite (H1 counts) in Ht. apply elem_of_map_to_list in Ht. apply Hk. by eexists.
    + unfold totals in Hl. by rewrite (proj2 (activeTotals_lookup _ _) Hno) in Hl.
Qed.
End laws.
End ActiveConsumers.

(** ** The ingestion service's registry *)
Module IngestionRegistry.

(** The registrations of cmd/ingestion, in its order. *)
Definition startup {P} `{Pr : !Prometheus P} (known : gset string)
    : registration P (PublisherMetrics.Metrics * IngestionMetrics.Metrics) :=
  let? publisherMetrics := PublisherMetrics.NewMetrics known in
  let? ingestionMetrics := IngestionMetrics.NewMetrics in
  reg_ret (publisherMetrics, ingestionMetrics).

Inductive event :=
  | Published (failed : bool) (breaker : option State)
  | RangeObserved (tenantID : string) (start count : Z)
  | TenantsDropped (tenants : list string)
  | ReloadFailed.

Definition record {P} `{Pr : !Prometheus P} (pm : PublisherMetrics.Metrics) (im : IngestionMetrics.Metrics)
    (e : event) (p : P) : option P :=
  match e with
  | Published failed breaker => Some (IngestionMetrics.recordPublish im failed breaker p)
  | RangeObserved tenantID start count => PublisherMetrics.observePartitionRange pm tenantID start count p
  | TenantsDropped tenants =>
      let '(c, lvs) := PublisherMetrics.tenantReservationDroppedTotal pm in
      Some (counter_Add c lvs (Z.of_nat (length tenants)) p)
  | ReloadFailed =>
      let '(c, lvs) := PublisherMetrics.tenantReservationReloadErrorTotal pm in Some (counter_Add c lvs 1 p)
  end.

Fixpoint record_all {P} `{Pr : !Prometheus P} (pm : PublisherMetrics.Metrics) (im : IngestionMetrics.Metrics)
    (es : list event) (p : P) : option P :=
  match es with [] => Some p | e :: es => p ← record pm im e p; record_all pm im es p end.

Import IngestionSpec PublisherSpec.

Definition counting_keys : list key :=
  [vec_key transactionsTotal ["success"]; vec_key transactionsTotal ["failure"];
   vec_key publishLatency ["success"]; vec_key publishLatency ["failure"];
   vec_key reservationDropped []; vec_key reloadError []].

Definition keys (known : gset string) : list key :=
  counting_keys ++ vec_key breakerGauge [] ::
  (elements (tenant_labels known) ≫= λ label, [vec_key countGauge [label]; vec_key startGauge [label]]).

Lemma ingestion_length_keys known : (length (keys known) ≤ 9 + 2 * size known)%nat.
Proof.
  assert (∀ l : list string, length (l ≫= λ label, [vec_key countGauge [label]; vec_key startGauge [label]])
    = (2 * length l)%nat) as H.
  { induction l as [|x l IH]; [done|]. cbn. rewrite IH. lia. }
  unfold keys. rewrite length_app. cbn [length]. rewrite H. cbn [length counting_keys].
  change (length (elements (tenant_labels known))) with (size (tenant_labels known)).
  unfold tenant_labels. rewrite size_union_alt, size_singleton.
  pose proof (subseteq_size (known ∖ {[UnknownTenantLabel]}) known ltac:(set_solver)). lia.
Qed.

Section laws.
Context {P : Type} `{Pr : !Prometheus P} `{Pl : !PrometheusLaws P}.
Context (known : gset string).

Definition inv : P → Prop := series_inv (λ k, k ∈ keys known) (λ k, k ∈ counting_keys).

Lemma ingestion_gauge_not_counting c lvs : c ∈ [breakerGauge; countGauge; startGauge] → vec_key c lvs ∉ counting_keys.
Proof.
  intros Hc H. unfold counting_keys in H.
  repeat (apply elem_of_cons in H as [H|H]; [apply (f_equal fst) in H; cbn in H;
    repeat (apply elem_of_cons in Hc as [->|Hc]; [by vm_compute in H|]); by apply elem_of_nil in Hc|]).
  by apply elem_of_nil in H.
Qed.

Lemma count_inv c lvs v p : plain c → 0 ≤ v → vec_key c lvs ∈ counting_keys → inv p → inv (counter_Add c lvs v p).
Proof. intros. by apply inv_Add. Qed.

Lemma observe_inv c lvs p : plain c → vec_key c lvs ∈ counting_keys → inv p → inv (observer_Observe c lvs p).
Proof. intros. by apply inv_Observe. Qed.

Lemma recordPublish_inv failed breaker p : inv p →
  inv (IngestionMetrics.recordPublish IngestionSpec.theMetrics failed breaker p).
Proof.
  intros Hi. unfold IngestionMetrics.recordPublish. cbv zeta. set (p1 := if failed then _ else _).
  assert (inv p1) as H1.
  { subst p1. destruct failed; (apply observe_inv; [by split|unfold counting_keys; set_solver|]);
      (apply count_inv; [by split|lia|unfold counting_keys; set_solver|done]). }
  destruct breaker as [s|]; [|done]. apply inv_Set; [by split| |apply ingestion_gauge_not_counting; set_solver|done].
  unfold keys. apply elem_of_app. right. apply elem_of_cons. by left.
Qed.

Lemma observePartitionRange_inv tenantID start count p : inv p →
  ∃ p', PublisherMetrics.observePartitionRange (PublisherSpec.theMetrics known) tenantID start count p = Some p' ∧ inv p'.
Proof.
  intros Hi. assert (∀ c v p, c ∈ [countGauge; startGauge] → inv p →
    ∃ p', set_with c [KnownTenants_TenantLabel known tenantID] v p = Some p' ∧ inv p') as Hset.
  { intros c v q Hc Hq. apply inv_set_with; [| | |apply ingestion_gauge_not_counting; set_solver|done].
    - repeat (apply elem_of_cons in Hc as [->|Hc]; [by split|]). by apply elem_of_nil in Hc.
    - repeat (apply elem_of_cons in Hc as [->|Hc]; [done|]). by apply elem_of_nil in Hc.
    - unfold keys. apply elem_of_app. right. apply elem_of_cons. right. apply list_elem_of_bind.
      exists (KnownTenants_TenantLabel known tenantID). split; [set_solver|apply elem_of_elements; auto with go_str]. }
  unfold PublisherMetrics.observePartitionRange, PublisherSpec.theMetrics. cbn zeta.
  destruct (Hset countGauge (f64_of_Z count) p ltac:(set_solver) Hi) as (p1 & E1 & H1).
  destruct (Hset startGauge (f64_of_Z start) p1 ltac:(set_solver) H1) as (p2 & E2 & H2).
  exists p2. cbn [PublisherMetrics.partitionCount PublisherMetrics.partitionStart PublisherMetrics.knownTenants].
  rewrite E1. cbn [mbind option_bind]. done.
Qed.

Lemma ingestion_record_inv e p : inv p →
  ∃ p', record (PublisherSpec.theMetrics known) IngestionSpec.theMetrics e p = Some p' ∧ inv p'.
Proof.
  intros Hi. destruct e as [failed breaker|t start count|tenants|]; cbn [record].
  - eexists. split; [done|by apply recordPublish_inv].
  - by apply observePartitionRange_inv.
  - eexists. split; [reflexivity|]. apply count_inv; [by split|lia|unfold counting_keys; set_solver|done].
  - eexists. split; [reflexivity|]. apply count_inv; [by split|lia|unfold counting_keys; set_solver|done].
Qed.

Lemma ingestion_record_all_inv es p : inv p →
  ∃ p', record_all (PublisherSpec.theMetrics known) IngestionSpec.theMetrics es p = Some p' ∧ inv p'.
Proof.
  revert p. induction es as [|e es IH]; intros p Hi; cbn [record_all]; [eauto|].
  destruct (ingestion_record_inv e p Hi) as (p1 & -> & H1). cbn. by apply IH.
Qed.

Definition names : gset string :=
  {["ingestion_kafka_tenant_reservation_dropped_total"; "ingestion_kafka_tenant_reservation_reload_errors_total";
    "ingestion_kafka_tenant_partition_count"; "ingestion_kafka_tenant_partition_start_count";
    "ingestion_transactions_processed_total"; "ingestion_publish_latency_seconds";
    "ingestion_kafka_circuit_breaker_state"]}.

Definition initial : gmap key sample :=
  <[("ingestion_kafka_circuit_breaker_state", []) := Level (S754_zero false)]>
    (list_to_map ((λ k, (k, Count 0)) <$> counting_keys)).

Lemma ingestion_startup_yields : yields (startup known) (PublisherSpec.theMetrics known, IngestionSpec.theMetrics) names initial.
Proof.
  eapply yields_eq.
  - eapply yields_bind; [apply PublisherSpec.publisher_NewMetrics_yields|cbv beta|].
    + eapply yields_bind; [apply IngestionSpec.ingestion_NewMetrics_yields|apply yields_ret|set_solver].
    + decide_closed.
  - reflexivity.
  - decide_closed.
  - decide_closed.
Qed.

Lemma ingestion_initial_inv p p' : series p = ∅ → grown names initial p p' → inv p'.
Proof.
  intros H0 [_ Hs]. rewrite H0, map_empty_union in Hs. split; intros k; rewrite Hs; unfold initial.
  - intros [v Hv]. apply lookup_insert_Some in Hv as [[<- _]|[_ Hv]]; unfold keys; apply elem_of_app;
      [right; apply elem_of_cons; by left|left].
    apply elem_of_list_to_map_2 in Hv. apply list_elem_of_fmap in Hv as (k' & [= -> ->] & ?). done.
  - intros Hk. exists 0. rewrite lookup_insert_ne.
    + unfold counting_keys in *. repeat (apply elem_of_cons in Hk as [->|Hk]; [done|]). by apply elem_of_nil in Hk.
    + intros <-. by apply (ingestion_gauge_not_counting breakerGauge []); [set_solver|].
Qed.

(** The ingestion service's metrics are bounded the same way: the registrations
    succeed and no sequence of publishes, reservations and reloads panics or makes
    more than 9 + 2n series for n configured tenants. *)
Theorem ingestion_series_bounded p es :
  names ## registered p → series p = ∅ →
  ∃ pm im p0 p', startup known p = Some (Ok (pm, im), p0) ∧ record_all pm im es p0 = Some p' ∧
    (∀ k, is_Some (series p' !! k) → k ∈ keys known) ∧ (size (series p') ≤ 9 + 2 * size known)%nat.
Proof.
  intros Hn H0. destruct (ingestion_startup_yields p Hn) as (p0 & E & G).
  destruct (ingestion_record_all_inv es p0 (ingestion_initial_inv p p0 H0 G)) as (p' & E' & Hi & _).
  exists (PublisherSpec.theMetrics known), IngestionSpec.theMetrics, p0, p'. split; [done|]. split; [done|].
  split; [done|]. etrans; [by apply size_series_le|apply ingestion_length_keys].
Qed.
End laws.
End IngestionRegistry.

(** ** Witnesses: a registry in memory, two tenants, one of them configured *)
Definition anyOrder (m : gmap string Z) : list (string * Z) := reverse (map_to_list m).

Lemma anyOrder_visits : ProcessorRegistry.visits anyOrder.
Proof. intros m. apply reverse_Permutation. Qed.

Definition sampleCounts : gmap string Z := <["acme" := 2]> (<["zeta" := 1]> {["umbrella" := 3]}).

Definition sampleEvents : list ProcessorRegistry.event :=
  [ProcessorRegistry.Reconciled false "acme" (Some Closed) None; ProcessorRegistry.Reconciled true "nobody" None (Some Open);
   ProcessorRegistry.LagObserved "nobody" (-3); ProcessorRegistry.ActiveObserved anyOrder map_to_list sampleCounts;
   ProcessorRegistry.ReloadFailed].

Lemma sampleEvents_ok : Forall ProcessorRegistry.event_ok sampleEvents.
Proof. repeat constructor; [apply anyOrder_visits|intros m; done]. Qed.

Lemma processor_series_bounded_witness :
  ∃ rm cm p0 p', ProcessorRegistry.startup {["acme"]} emptyRegistry = Some (Ok (rm, cm), p0) ∧
    ProcessorRegistry.record_all rm cm sampleEvents p0 = Some p' ∧
    (∀ k, is_Some (series p' !! k) → k ∈ ProcessorRegistry.keys {["acme"]}) ∧ (size (series p') ≤ 9 + 4 * size ({["acme"]} : gset string))%nat.
Proof.
  apply (ProcessorRegistry.processor_series_bounded (P := MemRegistry) {["acme"]} emptyRegistry sampleEvents).
  - apply disjoint_empty_r.
  - reflexivity.
  - exact sampleEvents_ok.
Defined.

Lemma ingestion_series_bounded_witness :
  ∃ pm im p0 p', IngestionRegistry.startup {["acme"]} emptyRegistry = Some (Ok (pm, im), p0) ∧
    IngestionRegistry.record_all pm im [IngestionRegistry.RangeObserved "nobody" 3 1; IngestionRegistry.Published true (Some Open)] p0 = Some p' ∧
    (∀ k, is_Some (series p' !! k) → k ∈ IngestionRegistry.keys {["acme"]}) ∧ (size (series p') ≤ 9 + 2 * size ({["acme"]} : gset string))%nat.
Proof.
  apply (IngestionRegistry.ingestion_series_bounded (P := MemRegistry) {["acme"]} emptyRegistry).
  - apply disjoint_empty_r.
  - reflexivity.
Defined.

Definition sampleRegistry : MemRegistry :=
  match ProcessorRegistry.startup {["acme"]} emptyRegistry with Some (_, p) => p | None => emptyRegistry end.

Lemma sampleStartup : ProcessorRegistry.startup {["acme"]} emptyRegistry =
  Some (Ok (ReconcilerSpec.theMetrics {["acme"]}, ConsumerSpec.theMetrics {["acme"]}), sampleRegistry).
Proof.
  unfold sampleRegistry.
  destruct (ProcessorRegistry.startup_yields {["acme"]} emptyRegistry) as (p & E & _); [apply disjoint_empty_r|].
  by rewrite E.
Qed.

Lemma registry_shows_reconciler_witness :
  ProcessorRegistry.shows {["acme"]} sampleRegistry
    {| System.reconciledTotal := ∅; durationCounts := ∅; breakerGauges := ∅ |}.
Proof.
  refine (proj1 (ProcessorRegistry.registry_shows_reconciler (P := MemRegistry) {["acme"]} (W := unit) None None
    (λ _ w, (Ok tt, w)) sampleBuy (Build_Observed tt {| System.reconciledTotal := ∅; durationCounts := ∅; breakerGauges := ∅ |})
    emptyRegistry emptyRegistry sampleRegistry) _ _ _).
  - reflexivity.
  - exact sampleStartup.
  - apply disjoint_empty_r.
Defined.

(** Two tenants outside the configured ones are added up under one label; a batch
    without acme then leaves its gauge at 2. *)
Lemma active_gauge_by_label_witness :
  ∃ p', ConsumerMetrics.observeActiveConsumers (ConsumerSpec.theMetrics {["acme"]}) anyOrder map_to_list sampleCounts sampleRegistry = Some p' ∧
    series p' !! vec_key ConsumerSpec.activeGauge ["unregistered"] = Some (Level (f64_of_Z 4)) ∧
    ∃ p'', ConsumerMetrics.observeActiveConsumers (ConsumerSpec.theMetrics {["acme"]}) anyOrder map_to_list {["zeta" := 1]} p' = Some p'' ∧
      series p'' !! vec_key ConsumerSpec.activeGauge ["acme"] = Some (Level (f64_of_Z 2)).
Proof.
  destruct (ActiveConsumers.active_gauge_by_label (P := MemRegistry) {["acme"]} anyOrder map_to_list sampleCounts sampleRegistry)
    as (p' & E & Hin & Hout); [exact anyOrder_visits|intros m; reflexivity|].
  exists p'. split; [exact E|]. split; [exact (Hin "zeta" ltac:(eexists; vm_compute; reflexivity))|].
  destruct (ActiveConsumers.active_gauge_by_label (P := MemRegistry) {["acme"]} anyOrder map_to_list {["zeta" := 1]} p')
    as (p'' & E' & _ & Hout'); [exact anyOrder_visits|intros m; reflexivity|].
  exists p''. split; [exact E'|]. rewrite Hout'.
  - exact (Hin "acme" ltac:(eexists; vm_compute; reflexivity)).
  - intros t [n [<- _]%lookup_singleton_Some] H. by vm_compute in H.
Defined.
