(* ===== verification/Lifecycle.v ===== *)
(** * How the services run and stop (cmd/ingestion/main.go, cmd/processor/main.go)

    The concurrent part of the two run functions as step relations: the server
    goroutines with the sync.Once that records a start failure and cancels the run
    context, the result channels, the shutdowns, and the main goroutine.  A step is
    one operation of one goroutine, or of the environment (a signal, a listener
    that fails).  The theorems: every run is finite and ends, nowhere else, with all
    its goroutines finished, and what the run returns. *)
From S2P Require Import Prelude.

(** ** A server goroutine

    What the goroutines of a run share: the once, the variable it guards, and
    whether runCtx is done. *)
Inductive once := Fresh | Running | Done.

Record shared := { startErrOnce : once; startErr : option error; cancelled : bool }.

Inductive server_pc :=
  | Serving                        (* inside Start *)
  | Failed (err : error)           (* Start failed; recordStartErr(wrapped) is next *)
  | Cancelling (err : error)       (* inside the once: startErr is set, cancelRun() is next *)
  | Sending (v : option error)     (* the send on the result channel is next *)
  | Finished.

#[global] Instance server_pc_eq_dec : EqDecision server_pc.
Proof. solve_decision. Defined.

(** The goroutine and its result channel, of capacity one. *)
Record server := { pc : server_pc; channel : option (option error) }.

Definition newServer : server := {| pc := Serving; channel := None |}.
Definition newShared : shared := {| startErrOnce := Fresh; startErr := None; cancelled := false |}.

(** [msg] wraps the error; [closing] says whether the server's Shutdown was called,
    after which Start returns the closed-server error, and only then.  Start may
    fail at any time, a step of the environment ([faults]). *)
Inductive server_step (faults : bool) (msg : string) (closing : bool) : server → shared → server → shared → Prop :=
  | start_fails err c sh :
      faults = true →
      server_step faults msg closing {| pc := Serving; channel := c |} sh
        {| pc := Failed (Wrapf msg err); channel := c |} sh
  | start_closed c sh :
      closing = true →
      server_step faults msg closing {| pc := Serving; channel := c |} sh {| pc := Sending None; channel := c |} sh
  | once_runs err c se ca :
      server_step faults msg closing {| pc := Failed err; channel := c |} {| startErrOnce := Fresh; startErr := se; cancelled := ca |}
        {| pc := Cancelling err; channel := c |} {| startErrOnce := Running; startErr := Some err; cancelled := ca |}
  | once_skipped err c se ca :
      server_step faults msg closing {| pc := Failed err; channel := c |} {| startErrOnce := Done; startErr := se; cancelled := ca |}
        {| pc := Sending (Some err); channel := c |} {| startErrOnce := Done; startErr := se; cancelled := ca |}
  | once_done err c o se ca :
      server_step faults msg closing {| pc := Cancelling err; channel := c |} {| startErrOnce := o; startErr := se; cancelled := ca |}
        {| pc := Sending (Some err); channel := c |} {| startErrOnce := Done; startErr := se; cancelled := true |}
  | send v sh :
      server_step faults msg closing {| pc := Sending v; channel := None |} sh {| pc := Finished; channel := Some v |} sh.

Definition server_measure (s : server) : nat :=
  match pc s with Serving => 4 | Failed _ => 3 | Cancelling _ => 2 | Sending _ => 1 | Finished => 0 end.

Lemma server_step_measure faults msg closing s sh s' sh' :
  server_step faults msg closing s sh s' sh' → (server_measure s' < server_measure s)%nat.
Proof. destruct 1; cbn; lia. Qed.

(** What holds of every server goroutine: a failure it has got past recording is
    recorded, and inside the once it is the one recorded. *)
Definition server_ok (s : server) (sh : shared) : Prop :=
  match pc s with
  | Serving | Failed _ => channel s = None
  | Cancelling err => channel s = None ∧ startErrOnce sh = Running ∧ startErr sh = Some err
  | Sending v => channel s = None ∧ (is_Some v → is_Some (startErr sh) ∧ cancelled sh = true)
  | Finished => ∀ v, channel s = Some v → is_Some v → is_Some (startErr sh) ∧ cancelled sh = true
  end.

(** The variable is set exactly when the once has run, and a finished once has
    cancelled the context. *)
Definition shared_ok (sh : shared) : Prop :=
  (startErrOnce sh = Fresh ↔ startErr sh = None) ∧ (startErrOnce sh = Done → cancelled sh = true).

(** The shared state only moves forward. *)
Definition shared_le (sh sh' : shared) : Prop :=
  (∀ err, startErr sh = Some err → startErr sh' = Some err) ∧ (cancelled sh = true → cancelled sh' = true).

Lemma server_step_ok faults msg closing s sh s' sh' : server_step faults msg closing s sh s' sh' →
  shared_ok sh → server_ok s sh → shared_ok sh' ∧ server_ok s' sh' ∧ shared_le sh sh'.
Proof.
  unfold shared_ok, server_ok, shared_le. destruct 1 as [| | |err c se ca|err c o se ca|]; cbn; intros [[H1 H2] H3] Hs.
  - naive_solver.
  - naive_solver.
  - assert (se = None) as -> by auto. naive_solver.
  - destruct se as [e|]; [|by specialize (H2 eq_refl)]. split; [done|]. split; [|done].
    split; [done|]. intros _. split; [by exists e|auto].
  - destruct Hs as (Hc & -> & ->). split; [done|]. split; [|done]. split; [done|]. intros _. split; [by eexists|done].
  - destruct Hs as [_ Hs]. split; [done|]. split; [|done]. by intros v' [= <-].
Qed.

(** The other goroutine's step leaves this one as it should be, as long as only one
    is inside the once. *)
Lemma server_ok_other faults msg closing s sh s' sh' t : server_step faults msg closing s sh s' sh' →
  shared_ok sh → server_ok s sh → server_ok t sh →
  ¬ (∃ e e', pc s = Cancelling e ∧ pc t = Cancelling e') → server_ok t sh'.
Proof.
  intros Hstep Hsh Hs Ht Hx. pose proof (server_step_ok _ _ _ _ _ _ _ Hstep Hsh Hs) as (_ & _ & Hle & Hca).
  unfold server_ok in *. destruct (pc t) as [|err|err|v|] eqn:E; try done.
  - destruct Ht as (Hc & Ho & Hse). split; [done|]. split; [|by apply Hle].
    destruct Hstep; cbn in *; try done; naive_solver.
  - destruct Ht as [Hc Ht]. split; [done|]. intros [[e He] ?]%Ht. split; [|auto]. exists e. auto.
  - intros v Hv Hv'. destruct (Ht v Hv Hv') as [[e He] ?]. split; [|auto]. exists e. auto.
Qed.

(** A server goroutine can always move, unless it is finished, still serving and not
    being closed, or waiting for another one inside the once. *)
Lemma server_progress faults msg closing s sh : server_ok s sh → shared_ok sh →
  pc s = Finished ∨ (pc s = Serving ∧ closing = false) ∨ (startErrOnce sh = Running ∧ ∃ err, pc s = Failed err) ∨
  ∃ s' sh', server_step faults msg closing s sh s' sh'.
Proof.
  destruct s as [p c], sh as [o se ca]. unfold server_ok. cbn. intros Hs _. destruct p as [|err|err|v|].
  - destruct closing; [|auto]. do 3 right. eexists _, _. by constructor.
  - destruct o; [|right; right; left; eauto|]; do 3 right; eexists _, _; constructor.
  - do 3 right. eexists _, _. constructor.
  - destruct Hs as [-> _]. do 3 right. eexists _, _. constructor.
  - by left.
Qed.

(** A failure on its way to, or in, the result channel. *)
Definition carries (s : server) (err : error) : Prop :=
  pc s = Cancelling err ∨ pc s = Sending (Some err) ∨ channel s = Some (Some err).

Lemma server_step_carries faults msg closing s sh s' sh' : server_step faults msg closing s sh s' sh' →
  server_ok s sh → shared_ok sh →
  (∀ err, carries s err → carries s' err) ∧
  (∀ err, startErr sh' = Some err → startErr sh = Some err ∨ carries s' err).
Proof.
  unfold carries, server_ok. destruct 1; cbn; intros Hs Hsh; naive_solver.
Qed.

(** A Shutdown goroutine. *)
Inductive stop_pc := NotStarted | Spawned | Draining | Stopped.
Definition closing (p : stop_pc) : bool := match p with Draining | Stopped => true | _ => false end.
Definition stop_measure (p : stop_pc) : nat :=
  match p with NotStarted => 3 | Spawned => 2 | Draining => 1 | Stopped => 0 end.

(** ** cmd/ingestion: two servers *)
Module IngestionRun.

(** What run returns; [Joined] is errors.Join over the shutdown errors. *)
Inductive outcome := Nil | One (err : error) | Joined (errs : list error).

Inductive main_pc :=
  | AwaitCancel                          (* <-runCtx.Done() *)
  | LogCheck                             (* if startErr == nil *)
  | SpawnShutdowns
  | AwaitShutdowns                       (* shutdownWG.Wait() *)
  | RecvHttp                             (* httpErr := <-serverErrors *)
  | RecvGrpc (httpErr : option error)    (* grpcErr := <-grpcServerErrors *)
  | Returned (httpErr grpcErr : option error) (r : outcome).

Record state := {
  vars : shared;
  http : server;
  grpc : server;
  httpStop : stop_pc;
  grpcStop : stop_pc;
  shutdownErr : list error;              (* joined so far, oldest first *)
  main : main_pc
}.

Definition init : state :=
  {| vars := newShared; http := newServer; grpc := newServer; httpStop := NotStarted; grpcStop := NotStarted;
     shutdownErr := []; main := AwaitCancel |}.

(** The switch at the end. *)
Definition finish (startErr : option error) (shutdownErr : list error) (httpErr grpcErr : option error) : outcome :=
  match startErr, shutdownErr, httpErr, grpcErr with
  | Some err, _, _, _ => One err
  | None, _ :: _, _, _ => Joined shutdownErr
  | None, [], Some err, _ => One err
  | None, [], None, Some err => One err
  | None, [], None, None => Nil
  end.

Definition httpMsg : string := "ingestion HTTP server: %w".
Definition grpcMsg : string := "ingestion gRPC server: %w".

(** A Shutdown that ends, with its error if it has one. *)
Definition joined (msg : string) (err : option error) (errs : list error) : list error :=
  match err with Some e => errs ++ [Wrapf msg e] | None => errs end.

Inductive step (faults : bool) : state → state → Prop :=
  | signal v h g hs gs se m :
      faults = true → cancelled v = false →
      step faults (Build_state v h g hs gs se m)
        (Build_state {| startErrOnce := startErrOnce v; startErr := startErr v; cancelled := true |} h g hs gs se m)
  | http_moves v h g hs gs se m h' v' :
      server_step faults httpMsg (closing hs) h v h' v' →
      step faults (Build_state v h g hs gs se m) (Build_state v' h' g hs gs se m)
  | grpc_moves v h g hs gs se m g' v' :
      server_step faults grpcMsg (closing gs) g v g' v' →
      step faults (Build_state v h g hs gs se m) (Build_state v' h g' hs gs se m)
  | http_drains v h g gs se m :
      step faults (Build_state v h g Spawned gs se m) (Build_state v h g Draining gs se m)
  | http_stops v h g gs se m err :
      step faults (Build_state v h g Draining gs se m)
        (Build_state v h g Stopped gs (joined "shutdown ingestion HTTP server: %w" err se) m)
  | grpc_drains v h g hs se m :
      step faults (Build_state v h g hs Spawned se m) (Build_state v h g hs Draining se m)
  | grpc_stops v h g hs se m err :
      step faults (Build_state v h g hs Draining se m)
        (Build_state v h g hs Stopped (joined "shutdown ingestion gRPC server: %w" err se) m)
  | main_wakes v h g hs gs se :
      cancelled v = true →
      step faults (Build_state v h g hs gs se AwaitCancel) (Build_state v h g hs gs se LogCheck)
  | main_logs v h g hs gs se :
      step faults (Build_state v h g hs gs se LogCheck) (Build_state v h g hs gs se SpawnShutdowns)
  | main_spawns v h g se :
      step faults (Build_state v h g NotStarted NotStarted se SpawnShutdowns)
        (Build_state v h g Spawned Spawned se AwaitShutdowns)
  | main_waited v h g se :
      step faults (Build_state v h g Stopped Stopped se AwaitShutdowns) (Build_state v h g Stopped Stopped se RecvHttp)
  | main_recv_http v p g hs gs se httpErr :
      step faults (Build_state v {| pc := p; channel := Some httpErr |} g hs gs se RecvHttp)
        (Build_state v {| pc := p; channel := None |} g hs gs se (RecvGrpc httpErr))
  | main_recv_grpc v h p hs gs se httpErr grpcErr :
      step faults (Build_state v h {| pc := p; channel := Some grpcErr |} hs gs se (RecvGrpc httpErr))
        (Build_state v h {| pc := p; channel := None |} hs gs se
          (Returned httpErr grpcErr (finish (startErr v) se httpErr grpcErr))).

(** [n] steps of a run that started. *)
Definition runs (n : nat) (s : state) : Prop := nsteps (step true) n init s.

Definition main_measure (m : main_pc) : nat :=
  match m with
  | AwaitCancel => 6 | LogCheck => 5 | SpawnShutdowns => 4 | AwaitShutdowns => 3 | RecvHttp => 2
  | RecvGrpc _ => 1 | Returned _ _ _ => 0
  end.

Definition measure (s : state) : nat :=
  (if cancelled (vars s) then 0 else 1) + server_measure (http s) + server_measure (grpc s) +
  stop_measure (httpStop s) + stop_measure (grpcStop s) + main_measure (main s).

(** *** The invariant *)
Definition waiting_http (m : main_pc) : bool := match m with RecvGrpc _ | Returned _ _ _ => false | _ => true end.
Definition waiting_grpc (m : main_pc) : bool := match m with Returned _ _ _ => false | _ => true end.

(** A server goroutine that has finished, its result received. *)
Definition drained : server := {| pc := Finished; channel := None |}.

Definition main_ok (s : state) : Prop :=
  match main s with
  | AwaitCancel => httpStop s = NotStarted ∧ grpcStop s = NotStarted
  | LogCheck | SpawnShutdowns => cancelled (vars s) = true ∧ httpStop s = NotStarted ∧ grpcStop s = NotStarted
  | AwaitShutdowns => cancelled (vars s) = true ∧ httpStop s ≠ NotStarted ∧ grpcStop s ≠ NotStarted
  | RecvHttp => cancelled (vars s) = true ∧ httpStop s = Stopped ∧ grpcStop s = Stopped
  | RecvGrpc httpErr =>
      cancelled (vars s) = true ∧ httpStop s = Stopped ∧ grpcStop s = Stopped ∧ http s = drained ∧
      (is_Some httpErr → is_Some (startErr (vars s)))
  | Returned httpErr grpcErr r =>
      cancelled (vars s) = true ∧ httpStop s = Stopped ∧ grpcStop s = Stopped ∧ http s = drained ∧
      grpc s = drained ∧ (is_Some httpErr → is_Some (startErr (vars s))) ∧
      (is_Some grpcErr → is_Some (startErr (vars s))) ∧
      r = finish (startErr (vars s)) (shutdownErr s) httpErr grpcErr
  end.

(** Where the recorded start error is, or went. *)
Definition received (m : main_pc) (err : error) : Prop :=
  match m with
  | RecvGrpc httpErr => httpErr = Some err
  | Returned httpErr grpcErr _ => httpErr = Some err ∨ grpcErr = Some err
  | _ => False
  end.

Record inv (s : state) : Prop := {
  inv_shared : shared_ok (vars s);
  inv_http : server_ok (http s) (vars s);
  inv_grpc : server_ok (grpc s) (vars s);
  inv_once : ¬ (∃ e e', pc (http s) = Cancelling e ∧ pc (grpc s) = Cancelling e');
  inv_running : startErrOnce (vars s) = Running → ∃ e, pc (http s) = Cancelling e ∨ pc (grpc s) = Cancelling e;
  inv_httpChannel : pc (http s) = Finished → waiting_http (main s) = true → is_Some (channel (http s));
  inv_grpcChannel : pc (grpc s) = Finished → waiting_grpc (main s) = true → is_Some (channel (grpc s));
  inv_main : main_ok s;
  inv_carried : ∀ err, startErr (vars s) = Some err → carries (http s) err ∨ carries (grpc s) err ∨ received (main s) err
}.

Lemma ingestion_step_measure faults s s' : step faults s s' → (measure s' < measure s)%nat.
Proof.
  destruct 1 as [v h g hs gs se m Hf Hc|v h g hs gs se m h' v' Hs|v h g hs gs se m g' v' Hs| | | | | | | | | |];
    unfold measure; cbn; try lia.
  all: try (unfold server_measure; cbn; lia).
  - rewrite Hc. lia.
  - pose proof (server_step_measure _ _ _ _ _ _ _ Hs).
    assert (cancelled v = true → cancelled v' = true) by (by destruct Hs).
    destruct (cancelled v), (cancelled v'); naive_solver lia.
  - pose proof (server_step_measure _ _ _ _ _ _ _ Hs).
    assert (cancelled v = true → cancelled v' = true) by (by destruct Hs).
    destruct (cancelled v), (cancelled v'); naive_solver lia.
Qed.
Lemma ingestion_init_inv : inv init.
Proof. split; cbn; try done; naive_solver. Qed.

(** A step of a server goroutine keeps what concerns both goroutines; [other] is the
    one that does not move. *)
Lemma server_step_inv faults msg c s v s' v' other :
  server_step faults msg c s v s' v' → shared_ok v → server_ok s v → server_ok other v →
  ¬ (∃ e e', pc s = Cancelling e ∧ pc other = Cancelling e') →
  (startErrOnce v = Running → ∃ e, pc s = Cancelling e ∨ pc other = Cancelling e) →
  shared_ok v' ∧ server_ok s' v' ∧ server_ok other v' ∧
  ¬ (∃ e e', pc s' = Cancelling e ∧ pc other = Cancelling e') ∧
  (startErrOnce v' = Running → ∃ e, pc s' = Cancelling e ∨ pc other = Cancelling e) ∧
  (pc s' = Finished → is_Some (channel s')) ∧ pc s ≠ Finished.
Proof.
  intros Hst Hv Hs Ho Hx Hr. destruct (server_step_ok _ _ _ _ _ _ _ Hst Hv Hs) as (Hv' & Hs' & _).
  pose proof (server_ok_other _ _ _ _ _ _ _ other Hst Hv Hs Ho Hx) as Ho'.
  split; [done|]. split; [done|]. split; [done|]. split; [|split; [|split]].
  - intros (e & e' & E & E'). unfold server_ok in Ho. rewrite E' in Ho. destruct Hst; cbn in *; naive_solver.
  - destruct Hst; cbn in *; naive_solver.
  - destruct Hst; cbn in *; naive_solver.
  - by destruct Hst.
Qed.

Lemma main_ok_server v h g hs gs se m v' h' g' : shared_le v v' →
  (pc h = Finished → h' = h) → (pc g = Finished → g' = g) →
  (startErr v' = startErr v ∨ pc h ≠ Finished ∨ pc g ≠ Finished) →
  main_ok (Build_state v h g hs gs se m) → main_ok (Build_state v' h' g' hs gs se m).
Proof.
  intros [Hle Hca] Hh Hg Hsame. assert (is_Some (startErr v) → is_Some (startErr v')) as Hsome.
  { intros [e He]. exists e. auto. }
  unfold main_ok. destruct m as [| | | | |he|he ge r]; cbn.
  - done.
  - intros (? & ? & ?). auto.
  - intros (? & ? & ?). auto.
  - intros (? & ? & ?). auto.
  - intros (? & ? & ?). auto.
  - intros (? & ? & ? & -> & ?). rewrite (Hh eq_refl). auto 10.
  - intros (? & ? & ? & -> & -> & ? & ? & ->). destruct Hsame as [->|[?|?]]; [|done..].
    rewrite (Hh eq_refl), (Hg eq_refl). auto 10.
Qed.

Lemma http_step_inv faults v h g hs gs se m h' v' :
  server_step faults httpMsg (closing hs) h v h' v' → inv (Build_state v h g hs gs se m) →
  inv (Build_state v' h' g hs gs se m).
Proof.
  intros Hst [Hv Hh Hg Hx Hr Hch Hcg Hm Hc]. cbn in *.
  destruct (server_step_inv _ _ _ _ _ _ _ g Hst Hv Hh Hg Hx Hr) as (Hv' & Hh' & Hg' & Hx' & Hr' & Hfin & Hnf).
  destruct (server_step_ok _ _ _ _ _ _ _ Hst Hv Hh) as (_ & _ & Hle).
  destruct (server_step_carries _ _ _ _ _ _ _ Hst Hh Hv) as [Hk Hk'].
  split; cbn; try done; [auto| |].
  - apply (main_ok_server v h g); [exact Hle|done|done|right; by left|done].
  - intros err [E|E]%Hk'; [|auto]. destruct (Hc err E) as [?|[?|?]]; auto.
Qed.

Lemma grpc_step_inv faults v h g hs gs se m g' v' :
  server_step faults grpcMsg (closing gs) g v g' v' → inv (Build_state v h g hs gs se m) →
  inv (Build_state v' h g' hs gs se m).
Proof.
  intros Hst [Hv Hh Hg Hx Hr Hch Hcg Hm Hc]. cbn in *.
  destruct (server_step_inv _ _ _ _ _ _ _ h Hst Hv Hg Hh) as (Hv' & Hg' & Hh' & Hx' & Hr' & Hfin & Hnf);
    [naive_solver|naive_solver|].
  destruct (server_step_ok _ _ _ _ _ _ _ Hst Hv Hg) as (_ & _ & Hle).
  destruct (server_step_carries _ _ _ _ _ _ _ Hst Hg Hv) as [Hk Hk'].
  split; cbn; try done; [naive_solver|naive_solver|auto| |].
  - apply (main_ok_server v h g); [exact Hle|done|done|right; by right|done].
  - intros err [E|E]%Hk'; [|auto]. destruct (Hc err E) as [?|[?|?]]; auto.
Qed.

Lemma ingestion_step_inv faults s s' : step faults s s' → inv s → inv s'.
Proof.
  destruct 1 as [v h g hs gs se m Hf Hc|v h g hs gs se m h' v' Hs|v h g hs gs se m g' v' Hs| | | | |
                 v h g hs gs se Hc| | | |v p g hs gs se httpErr|v h p hs gs se httpErr grpcErr]; intros Hi.
  - destruct Hi as [Hv Hh Hg Hx Hr Hch Hcg Hm Hk]. split; cbn in *; try done.
    + destruct Hv. by split.
    + unfold server_ok in *. destruct (pc h); cbn in *; naive_solver.
    + unfold server_ok in *. destruct (pc g); cbn in *; naive_solver.
    + unfold main_ok in *. destruct m; cbn in *; naive_solver.
  - by eapply http_step_inv.
  - by eapply grpc_step_inv.
  - destruct Hi. split; cbn in *; try done. unfold main_ok in *. destruct m; cbn in *; naive_solver.
  - destruct Hi. split; cbn in *; try done. unfold main_ok in *. destruct m; cbn in *; naive_solver.
  - destruct Hi. split; cbn in *; try done. unfold main_ok in *. destruct m; cbn in *; naive_solver.
  - destruct Hi. split; cbn in *; try done. unfold main_ok in *. destruct m; cbn in *; naive_solver.
  - destruct Hi. split; cbn in *; try done; naive_solver.
  - destruct Hi. split; cbn in *; done.
  - destruct Hi. split; cbn in *; try done; naive_solver.
  - destruct Hi. split; cbn in *; try done; naive_solver.
  - destruct Hi as [Hv Hh Hg Hx Hr Hch Hcg Hm Hk]. cbn in *.
    assert (p = Finished ∧ (is_Some httpErr → is_Some (startErr v))) as [-> Hsome].
    { unfold server_ok in Hh. destruct p; cbn in Hh; naive_solver. }
    split; cbn; try done; [naive_solver|]. intros err E. destruct (Hk err E) as [[?|[?|[= ->]]]|[?|?]]; [done..|auto|auto|done].
  - destruct Hi as [Hv Hh Hg Hx Hr Hch Hcg Hm Hk]. cbn in *.
    assert (p = Finished ∧ (is_Some grpcErr → is_Some (startErr v))) as [-> Hsome].
    { unfold server_ok in Hg. destruct p; cbn in Hg; naive_solver. }
    split; cbn; try done; [naive_solver|]. intros err E. destruct (Hk err E) as [?|[[?|[?|[= ->]]]|?]]; [auto|done..|auto|auto].
Qed.

Lemma ingestion_runs_inv n s : runs n s → inv s.
Proof.
  unfold runs. intros H. assert (∀ t, inv t → nsteps (step true) n t s → inv s) as Hind; [|by eapply Hind, H; apply ingestion_init_inv].
  clear H. induction n as [|n IH]; intros t Ht; inversion 1; subst; [done|]. eapply IH; [|done]. by eapply ingestion_step_inv.
Qed.

Definition returned (s : state) : Prop := ∃ httpErr grpcErr r, main s = Returned httpErr grpcErr r.

(** run has returned, and no goroutine of it is left. *)
Definition final (s : state) : Prop :=
  returned s ∧ pc (http s) = Finished ∧ pc (grpc s) = Finished ∧ httpStop s = Stopped ∧ grpcStop s = Stopped.

Lemma ingestion_returned_final s : inv s → returned s → final s.
Proof.
  intros Hi (he & ge & r & E). destruct Hi as [_ _ _ _ _ _ _ Hm _]. unfold main_ok in Hm. rewrite E in Hm.
  destruct Hm as (_ & ? & ? & Hh & Hg & _). split; [by exists he, ge, r|]. by rewrite Hh, Hg.
Qed.

(** A server whose Shutdown was called moves or lets the other one move. *)
Lemma closed_http_moves v h g gs se m : inv (Build_state v h g Stopped gs se m) → pc h ≠ Finished →
  ∃ s', step false (Build_state v h g Stopped gs se m) s'.
Proof.
  intros [Hv Hh Hg _ Hr _ _ _ _] Hf. cbn in *.
  destruct (server_progress false httpMsg true h v Hh Hv) as [?|[[_ ?]|[[Ho [err E]]|(h' & v' & Hs)]]]; [done|done| |].
  - destruct (Hr Ho) as [e [He|He]]; [congruence|]. destruct g as [p c]. cbn in He. subst p.
    destruct v as [o se' ca]. eexists. by apply grpc_moves, once_done.
  - eexists. by apply http_moves.
Qed.

Lemma closed_grpc_moves v h g hs se m : inv (Build_state v h g hs Stopped se m) → pc g ≠ Finished →
  ∃ s', step false (Build_state v h g hs Stopped se m) s'.
Proof.
  intros [Hv Hh Hg _ Hr _ _ _ _] Hf. cbn in *.
  destruct (server_progress false grpcMsg true g v Hg Hv) as [?|[[_ ?]|[[Ho [err E]]|(g' & v' & Hs)]]]; [done|done| |].
  - destruct (Hr Ho) as [e [He|He]]; [|congruence]. destruct h as [p c]. cbn in He. subst p.
    destruct v as [o se' ca]. eexists. by apply http_moves, once_done.
  - eexists. by apply grpc_moves.
Qed.

(** Once the context is done, the run can always go on by itself. *)
Lemma ingestion_progress s : inv s → cancelled (vars s) = true → returned s ∨ ∃ s', step false s s'.
Proof.
  intros Hi Hc. pose proof Hi as [_ _ _ _ _ Hch Hcg Hm _]. destruct s as [v h g hs gs se m]. unfold main_ok in Hm. cbn in *.
  destruct m as [| | | | |he|he ge r]; cbn in Hm; [right..|].
  - eexists. by apply main_wakes.
  - eexists. apply main_logs.
  - destruct Hm as (_ & -> & ->). eexists. apply main_spawns.
  - destruct Hm as (_ & Hh & Hg). destruct hs; [done|eexists; apply http_drains|eexists; by apply (http_stops _ _ _ _ _ _ _ None)|].
    destruct gs; [done|eexists; apply grpc_drains|eexists; by apply (grpc_stops _ _ _ _ _ _ _ None)|eexists; apply main_waited].
  - destruct Hm as (_ & -> & ->). destruct (decide (pc h = Finished)) as [E|E]; [|by apply closed_http_moves].
    destruct h as [p c]. destruct (Hch E eq_refl) as [w Hw]. cbn in Hw. subst c. eexists. apply main_recv_http.
  - destruct Hm as (_ & -> & -> & _). destruct (decide (pc g = Finished)) as [E|E]; [|by apply closed_grpc_moves].
    destruct g as [p c]. destruct (Hcg E eq_refl) as [w Hw]. cbn in Hw. subst c. eexists. apply main_recv_grpc.
  - left. by exists he, ge, r.
Qed.

Lemma ingestion_step_faults s s' : step false s s' → step true s s'.
Proof.
  destruct 1; try done; econstructor; try done; match goal with H : server_step _ _ _ _ _ _ _ |- _ => destruct H end; by constructor.
Qed.

Lemma step_cancelled faults s s' : step faults s s' → cancelled (vars s) = true → cancelled (vars s') = true.
Proof. destruct 1 as [|? ? ? ? ? ? ? ? ? Hs|? ? ? ? ? ? ? ? ? Hs| | | | | | | | | |]; cbn; try done; by destruct Hs. Qed.

Lemma ingestion_finishes s : inv s → cancelled (vars s) = true → ∃ k s', nsteps (step false) k s s' ∧ final s'.
Proof.
  remember (measure s) as m eqn:Hm. revert s Hm. induction m as [m IH] using lt_wf_ind. intros s -> Hi Hc.
  destruct (ingestion_progress s Hi Hc) as [Hr|[s1 Hs]].
  - exists 0%nat, s. split; [constructor|by apply ingestion_returned_final].
  - destruct (IH (measure s1)) with (s := s1) as (k & s' & Hk & Hf); [by eapply ingestion_step_measure|done|by eapply ingestion_step_inv|by eapply step_cancelled|].
    exists (S k), s'. split; [by econstructor|done].
Qed.

Lemma ingestion_runs_measure n s : runs n s → (n + measure s ≤ 21)%nat.
Proof.
  unfold runs. change 21%nat with (measure init). generalize init. induction n as [|n IH]; intros t; inversion 1; subst; [lia|].
  match goal with H : step _ _ _ |- _ => apply ingestion_step_measure in H end.
  match goal with H : nsteps _ _ _ _ |- _ => apply IH in H end. lia.
Qed.

(** C36. The ingestion service always stops: a run is at most 21 steps long; where no step
    is left run has returned and every goroutine of it has finished; and once a
    signal or a failing server has cancelled the run, the two servers, their
    shutdowns and the main goroutine bring it to that end by themselves. *)
Theorem ingestion_run_ends n s : runs n s →
  (n ≤ 21)%nat ∧ ((∀ s', ¬ step true s s') → final s) ∧
  (cancelled (vars s) = true → ∃ k s', nsteps (step false) k s s' ∧ final s').
Proof.
  intros Hn. pose proof (ingestion_runs_inv n s Hn) as Hi. pose proof (ingestion_runs_measure n s Hn).
  split; [lia|]. split; [|by apply ingestion_finishes]. intros Hstuck.
  destruct (cancelled (vars s)) eqn:Hc.
  - destruct (ingestion_progress s Hi Hc) as [?|[s' Hs]]; [by apply ingestion_returned_final|]. by apply ingestion_step_faults, Hstuck in Hs.
  - destruct s as [v h g hs gs se m]. exfalso. eapply Hstuck. by apply signal.
Qed.

(** C37. What run returns: nil exactly when neither server failed and both shutdowns
    succeeded; the first start error recorded, which is one of the two servers',
    whatever else failed; else the joined shutdown errors.  The last two cases of
    its switch are never taken: a server error is always recorded first. *)
Theorem ingestion_run_result n s httpErr grpcErr r :
  runs n s → main s = Returned httpErr grpcErr r →
  (r = Nil ↔ httpErr = None ∧ grpcErr = None ∧ shutdownErr s = []) ∧
  (∀ err, startErr (vars s) = Some err → r = One err ∧ (httpErr = Some err ∨ grpcErr = Some err)) ∧
  (startErr (vars s) = None → httpErr = None ∧ grpcErr = None ∧ (shutdownErr s ≠ [] → r = Joined (shutdownErr s))).
Proof.
  intros Hn E. destruct (ingestion_runs_inv n s Hn) as [_ Hh Hg _ _ _ _ Hm Hk]. unfold main_ok in Hm. rewrite E in Hm, Hk.
  destruct Hm as (_ & _ & _ & Hfh & Hfg & H1 & H2 & ->). rewrite Hfh, Hfg in Hk.
  assert (startErr (vars s) = None → httpErr = None ∧ grpcErr = None) as Hnone.
  { intros Hse. rewrite Hse in H1, H2. split; apply eq_None_not_Some; intros [? ?]; naive_solver. }
  destruct (startErr (vars s)) as [err|] eqn:Hse; cbn.
  - assert (httpErr = Some err ∨ grpcErr = Some err) as Hor.
    { destruct (Hk err eq_refl) as [Hc|[Hc|Hc]]; unfold carries in Hc; cbn in Hc; naive_solver. }
    split; [naive_solver|]. split; [naive_solver|done].
  - destruct (Hnone eq_refl) as [-> ->]. split; [|split; [done|]]; destruct (shutdownErr s); naive_solver.
Qed.

(** The run in which the HTTP listener fails while a signal arrives: the main
    goroutine is about to read startErr where the HTTP goroutine is about to write
    it, and nothing orders the two. *)
Theorem startErr_read_races : ∃ n s v' h', runs n s ∧ main s = LogCheck ∧
  server_step false httpMsg false (http s) (vars s) h' v' ∧ startErr v' ≠ startErr (vars s).
Proof.
  exists 3%nat, (Build_state {| startErrOnce := Fresh; startErr := None; cancelled := true |}
    {| pc := Failed (Wrapf httpMsg (Errorf "bind")); channel := None |} newServer NotStarted NotStarted [] LogCheck).
  eexists _, _. split; [|split; [done|split; [apply once_runs|done]]].
  eapply nsteps_l; [by apply http_moves, start_fails|].
  eapply nsteps_l; [by apply signal|]. eapply nsteps_l; [by apply main_wakes|constructor].
Qed.
End IngestionRun.

(** ** cmd/processor: the consumer loop and the metrics server *)
Module ProcessorRun.

Inductive main_pc :=
  | Consuming                                               (* consumer.Run(runCtx) *)
  | Closing (consumeErr : option error)                     (* metricsServer.Shutdown(shutdownCtx) *)
  | Recv (consumeErr shutdownErr : option error)            (* metricsErr := <-metricsServerErrors *)
  | Returned (consumeErr shutdownErr metricsErr : option error) (r : option error).

Record state := { vars : shared; metrics : server; main : main_pc }.

Definition init : state := {| vars := newShared; metrics := newServer; main := Consuming |}.

(** The switch at the end. *)
Definition finish (startErr consumeErr shutdownErr metricsErr : option error) : option error :=
  match startErr, consumeErr, shutdownErr, metricsErr with
  | Some err, _, _, _ => Some err
  | None, Some err, _, _ => Some (Wrapf "processor consumer: %w" err)
  | None, None, Some err, _ => Some (Wrapf "shutdown processor metrics server: %w" err)
  | None, None, None, Some err => Some err
  | None, None, None, None => None
  end.

Definition shutting (m : main_pc) : bool := match m with Consuming => false | _ => true end.
Definition metricsMsg : string := "processor metrics server: %w".

(** consumer.Run returns an error of the brokers or of the dead-letter topic at any
    time, a step of the environment, and nil once its context is done; Shutdown
    returns by its deadline, with an error or without. *)
Inductive step (faults : bool) : state → state → Prop :=
  | signal v s m :
      faults = true → cancelled v = false →
      step faults (Build_state v s m)
        (Build_state {| startErrOnce := startErrOnce v; startErr := startErr v; cancelled := true |} s m)
  | metrics_moves v s m s' v' :
      server_step faults metricsMsg (shutting m) s v s' v' → step faults (Build_state v s m) (Build_state v' s' m)
  | consume_fails v s err :
      faults = true → step faults (Build_state v s Consuming) (Build_state v s (Closing (Some err)))
  | consume_cancelled v s :
      cancelled v = true → step faults (Build_state v s Consuming) (Build_state v s (Closing None))
  | main_shutdown v s consumeErr shutdownErr :
      step faults (Build_state v s (Closing consumeErr)) (Build_state v s (Recv consumeErr shutdownErr))
  | main_recv v p consumeErr shutdownErr metricsErr :
      step faults (Build_state v {| pc := p; channel := Some metricsErr |} (Recv consumeErr shutdownErr))
        (Build_state v {| pc := p; channel := None |}
          (Returned consumeErr shutdownErr metricsErr (finish (startErr v) consumeErr shutdownErr metricsErr))).

Definition runs (n : nat) (s : state) : Prop := nsteps (step true) n init s.

Definition main_measure (m : main_pc) : nat :=
  match m with Consuming => 3 | Closing _ => 2 | Recv _ _ => 1 | Returned _ _ _ _ => 0 end.

Definition measure (s : state) : nat :=
  (if cancelled (vars s) then 0 else 1) + server_measure (metrics s) + main_measure (main s).

Definition main_ok (s : state) : Prop :=
  match main s with
  | Returned consumeErr shutdownErr metricsErr r =>
      metrics s = {| pc := Finished; channel := None |} ∧ (is_Some metricsErr ↔ is_Some (startErr (vars s))) ∧
      (∀ err, startErr (vars s) = Some err → metricsErr = Some err) ∧
      r = finish (startErr (vars s)) consumeErr shutdownErr metricsErr
  | _ => pc (metrics s) = Finished → is_Some (channel (metrics s))
  end.

Definition waiting (m : main_pc) : bool := match m with Returned _ _ _ _ => false | _ => true end.

Record inv (s : state) : Prop := {
  inv_shared : shared_ok (vars s);
  inv_metrics : server_ok (metrics s) (vars s);
  inv_running : startErrOnce (vars s) = Running → ∃ e, pc (metrics s) = Cancelling e;
  inv_main : main_ok s;
  inv_carried : waiting (main s) = true → ∀ err, startErr (vars s) = Some err → carries (metrics s) err
}.

Lemma processor_step_measure faults s s' : step faults s s' → (measure s' < measure s)%nat.
Proof.
  destruct 1 as [v s m Hf Hc|v s m s' v' Hs| | | |]; unfold measure; cbn; try lia.
  - rewrite Hc. lia.
  - pose proof (server_step_measure _ _ _ _ _ _ _ Hs).
    assert (cancelled v = true → cancelled v' = true) by (by destruct Hs).
    destruct (cancelled v), (cancelled v'); naive_solver lia.
  - unfold server_measure; cbn; lia.
Qed.

Lemma processor_init_inv : inv init.
Proof. split; cbn; try done; naive_solver. Qed.

Lemma processor_step_inv faults s s' : step faults s s' → inv s → inv s'.
Proof.
  destruct 1 as [v s m Hf Hc|v s m s' v' Hs|v s err Hf|v s Hc|v s ce se|v p ce se me]; intros [Hv Hh Hr Hm Hk]; cbn in *.
  - split; cbn; try done.
    + destruct Hv. by split.
    + unfold server_ok in *. destruct (pc s); cbn in *; naive_solver.
  - destruct (server_step_ok _ _ _ _ _ _ _ Hs Hv Hh) as (Hv' & Hh' & _).
    destruct (server_step_carries _ _ _ _ _ _ _ Hs Hh Hv) as [Hk1 Hk2].
    split; cbn; [done|done| | |].
    + destruct Hs; cbn in *; naive_solver.
    + unfold main_ok in *. destruct m; cbn in *; [| | |destruct Hm as [-> _]; inversion Hs];
        destruct Hs; cbn in *; naive_solver.
    + intros Hw err [E|E]%Hk2; [|done]. auto.
  - split; cbn; done.
  - split; cbn; done.
  - split; cbn; done.
  - assert (p = Finished ∧ (is_Some me → is_Some (startErr v))) as [-> Hsome].
    { unfold server_ok in Hh. destruct p; cbn in Hh; naive_solver. }
    assert (∀ err, startErr v = Some err → me = Some err) as Hse.
    { intros err E. unfold carries in Hk. cbn in Hk. naive_solver. }
    split; cbn; try done. unfold main_ok. cbn. split; [done|]. split; [|done].
    split; [done|]. intros [err E]. exists err. auto.
Qed.

Lemma processor_runs_inv n s : runs n s → inv s.
Proof.
  unfold runs. intros H. assert (∀ t, inv t → nsteps (step true) n t s → inv s) as Hind; [|by eapply Hind, H; apply processor_init_inv].
  clear H. induction n as [|n IH]; intros t Ht; inversion 1; subst; [done|]. eapply IH; [|done]. by eapply processor_step_inv.
Qed.

Definition returned (s : state) : Prop := ∃ ce se me r, main s = Returned ce se me r.
Definition final (s : state) : Prop := returned s ∧ pc (metrics s) = Finished.

Lemma processor_returned_final s : inv s → returned s → final s.
Proof.
  intros [_ _ _ Hm _] (ce & se & me & r & E). unfold main_ok in Hm. rewrite E in Hm. destruct Hm as (Hs & _).
  split; [by exists ce, se, me, r|]. by rewrite Hs.
Qed.

Lemma processor_progress s : inv s → cancelled (vars s) = true ∨ shutting (main s) = true → returned s ∨ ∃ s', step false s s'.
Proof.
  intros [Hv Hh Hr Hm _] Hc. destruct s as [v s m]. unfold main_ok in Hm. cbn in *. destruct m as [|ce|ce se|ce se me r]; cbn in *.
  - right. eexists. apply consume_cancelled. naive_solver.
  - right. eexists. apply (main_shutdown _ _ _ _ None).
  - right. destruct (server_progress false metricsMsg true s v Hh Hv) as [E|[[_ ?]|[[Ho [err E]]|(s' & v' & Hs)]]]; [|done| |].
    + destruct (Hm E) as [w Hw], s as [p c]. cbn in Hw. subst c. eexists. apply main_recv.
    + destruct (Hr Ho). congruence.
    + eexists. by apply metrics_moves.
  - left. by exists ce, se, me, r.
Qed.

Lemma processor_step_faults s s' : step false s s' → step true s s'.
Proof.
  destruct 1; try done; econstructor; try done; match goal with H : server_step _ _ _ _ _ _ _ |- _ => destruct H end; by constructor.
Qed.

Lemma step_stopping faults s s' : step faults s s' →
  cancelled (vars s) = true ∨ shutting (main s) = true → cancelled (vars s') = true ∨ shutting (main s') = true.
Proof.
  destruct 1 as [|? ? ? ? ? Hs| | | |]; cbn; try naive_solver.
  assert (cancelled v = true → cancelled v' = true) by (by destruct Hs). naive_solver.
Qed.

Lemma processor_finishes s : inv s → cancelled (vars s) = true ∨ shutting (main s) = true →
  ∃ k s', nsteps (step false) k s s' ∧ final s'.
Proof.
  remember (measure s) as m eqn:Hm. revert s Hm. induction m as [m IH] using lt_wf_ind. intros s -> Hi Hc.
  destruct (processor_progress s Hi Hc) as [Hr|[s1 Hs]].
  - exists 0%nat, s. split; [constructor|by apply processor_returned_final].
  - destruct (IH (measure s1)) with (s := s1) as (k & s' & Hk & Hf); [by eapply processor_step_measure|done|by eapply processor_step_inv|by eapply step_stopping|].
    exists (S k), s'. split; [by econstructor|done].
Qed.

Lemma processor_runs_measure n s : runs n s → (n + measure s ≤ 8)%nat.
Proof.
  unfold runs. change 8%nat with (measure init). generalize init. induction n as [|n IH]; intros t; inversion 1; subst; [lia|].
  match goal with H : step _ _ _ |- _ => apply processor_step_measure in H end.
  match goal with H : nsteps _ _ _ _ |- _ => apply IH in H end. lia.
Qed.

(** The processor's run ends the same way: at most 8 steps, no other end than a
    return with the metrics goroutine finished, and it gets there by itself once
    it is cancelled or its consumer has stopped.  What it returns: nil exactly when
    the metrics server never failed, the consumer loop ended without an error and
    the shutdown succeeded; the metrics server's start error before anything else;
    then the consumer's, then the shutdown's. *)
Theorem processor_run_ends n s : runs n s →
  (n ≤ 8)%nat ∧ ((∀ s', ¬ step true s s') → final s) ∧
  (cancelled (vars s) = true ∨ shutting (main s) = true → ∃ k s', nsteps (step false) k s s' ∧ final s') ∧
  (∀ ce se me r, main s = Returned ce se me r →
     (r = None ↔ me = None ∧ ce = None ∧ se = None) ∧
     (∀ err, me = Some err → startErr (vars s) = Some err ∧ r = Some err) ∧
     (∀ err, me = None → ce = Some err → r = Some (Wrapf "processor consumer: %w" err))).
Proof.
  intros Hn. pose proof (processor_runs_inv n s Hn) as Hi. pose proof (processor_runs_measure n s Hn).
  split; [lia|]. split; [|split; [by apply processor_finishes|]].
  - intros Hstuck. destruct (cancelled (vars s)) eqn:Hc.
    + destruct (processor_progress s Hi (or_introl Hc)) as [?|[s' Hs]]; [by apply processor_returned_final|]. by apply processor_step_faults, Hstuck in Hs.
    + destruct s as [v sv m]. exfalso. eapply Hstuck. by apply signal.
  - intros ce se me r E. destruct Hi as [_ _ _ Hm _]. unfold main_ok in Hm. rewrite E in Hm.
    destruct Hm as (_ & Hme & Hse & ->). destruct (startErr (vars s)) as [e|].
    + rewrite (Hse e eq_refl). cbn. split; [naive_solver|]. naive_solver.
    + assert (me = None) as -> by (apply eq_None_not_Some; intros ?%Hme; by apply is_Some_None in H0).
      destruct ce, se; cbn; naive_solver.
Qed.
End ProcessorRun.

(** ** Witnesses: a listener that fails, and a signal *)
Section witnesses.
Import IngestionRun.

Definition bindErr : error := Wrapf grpcMsg (Errorf "listen tcp :9090: address already in use").
Definition failedVars : shared := {| startErrOnce := Done; startErr := Some bindErr; cancelled := true |}.
Definition over : server := {| pc := Finished; channel := None |}.

(** The gRPC listener fails; the HTTP server is shut down, its drain times out. *)
Lemma sample_run : runs 16 (Build_state failedVars over over Stopped Stopped
  [Wrapf "shutdown ingestion HTTP server: %w" (Errorf "context deadline exceeded")]
  (Returned None (Some bindErr) (One bindErr))).
Proof.
  unfold runs, init, newShared, newServer.
  eapply nsteps_l; [by apply grpc_moves, (start_fails _ _ _ (Errorf "listen tcp :9090: address already in use"))|].
  eapply nsteps_l; [by apply grpc_moves, once_runs|].
  eapply nsteps_l; [by apply grpc_moves, once_done|].
  eapply nsteps_l; [by apply main_wakes|].
  eapply nsteps_l; [by apply main_logs|].
  eapply nsteps_l; [by apply main_spawns|].
  eapply nsteps_l; [by apply http_drains|].
  eapply nsteps_l; [by apply grpc_drains|].
  eapply nsteps_l; [by apply (http_stops _ _ _ _ _ _ _ (Some (Errorf "context deadline exceeded")))|].
  eapply nsteps_l; [by apply (grpc_stops _ _ _ _ _ _ _ None)|].
  eapply nsteps_l; [by apply main_waited|].
  eapply nsteps_l; [by apply http_moves, start_closed|].
  eapply nsteps_l; [by apply http_moves, send|].
  eapply nsteps_l; [by apply main_recv_http|].
  eapply nsteps_l; [by apply grpc_moves, send|].
  eapply nsteps_l; [by apply main_recv_grpc|].
  constructor.
Qed.

Lemma ingestion_run_ends_witness : (16 ≤ 21)%nat ∧ (∃ k s', nsteps (step false) k
  (Build_state failedVars over over Stopped Stopped
    [Wrapf "shutdown ingestion HTTP server: %w" (Errorf "context deadline exceeded")]
    (Returned None (Some bindErr) (One bindErr))) s' ∧ final s').
Proof.
  destruct (ingestion_run_ends 16 _ sample_run) as (H & _ & Hf). split; [exact H|]. apply Hf. reflexivity.
Defined.

Lemma ingestion_run_result_witness : ∃ s r, main s = Returned None (Some bindErr) r ∧ shutdownErr s ≠ [] ∧
  r = One bindErr ∧ (None = Some bindErr ∨ Some bindErr = Some bindErr).
Proof.
  exists (Build_state failedVars over over Stopped Stopped
    [Wrapf "shutdown ingestion HTTP server: %w" (Errorf "context deadline exceeded")]
    (Returned None (Some bindErr) (One bindErr))), (One bindErr). split; [reflexivity|]. split; [|refine (proj1 (proj2 (ingestion_run_result 16 _ None (Some bindErr) (One bindErr) sample_run eq_refl)) bindErr _)].
  - discriminate.
  - reflexivity.
Defined.
End witnesses.

Lemma processor_sample_run : ProcessorRun.runs 1
  (ProcessorRun.Build_state newShared newServer (ProcessorRun.Closing (Some (Errorf "fetch")))).
Proof. eapply nsteps_l; [by apply ProcessorRun.consume_fails|constructor]. Qed.

Lemma processor_run_ends_witness : ∃ k s', nsteps (ProcessorRun.step false) k
  (ProcessorRun.Build_state newShared newServer (ProcessorRun.Closing (Some (Errorf "fetch")))) s' ∧ ProcessorRun.final s'.
Proof.
  apply (ProcessorRun.processor_run_ends 1 _ processor_sample_run). right. reflexivity.
Defined.
