(* ===== verification/Kube.v ===== *)
(** * The Kubernetes objects and API the operator works with

    The TradingTenant type (operator/api/v1alpha1/tradingtenant_types.go), the
    parts of ConfigMap, Deployment and Service the controller reads or writes, and
    the API client as an interface: controller-runtime and the API server are not
    part of this repository, so [KubeLaws] states what they document (optimistic
    concurrency by resource version, the status subresource, finalizers,
    CreateOrUpdate, reads from a cache that may lag behind the server) and the
    controller's theorems hold of any client that keeps it.  [Cluster] is one such
    client. *)
From S2P Require Import Prelude.

(** ** TradingTenant *)
Definition TradingTenantStateStable : string := "Stable".
Definition TradingTenantStateScaling : string := "Scaling".
Definition TradingTenantStateIsolated : string := "Isolated".
Definition TradingTenantStateDegraded : string := "Degraded".

Record ResourceRequirements := { CPURequest : string; MemoryRequest : string }.

Record ScalingPolicy := {
  KafkaLagThreshold : Z;        (* int64, at least 1 *)
  P99LatencyThresholdMs : Z     (* int32, at least 1 *)
}.

Record IsolationPolicy := { DedicatedNodePool : bool }.

Record TradingTenantSpec := {
  sTenantID : string;
  MinReplicas : Z;              (* int32, at least 1 *)
  MaxReplicas : Z;              (* int32, at least MinReplicas *)
  Resources : ResourceRequirements;
  Scaling : ScalingPolicy;
  Isolation : IsolationPolicy
}.

Record TradingTenantStatus := {
  CurrentReplicas : Z;
  sState : string;
  ObservedKafkaLag : Z;
  ObservedP99Ms : Z;
  ObservedPartitionCount : Z;
  LastReconcileTime : Z
}.

Record ObjectMeta := {
  Name : string;
  Namespace : string;
  Labels : gmap string string;
  Controller : option string;      (* the controlling owner *)
  Finalizers : list string;
  Deleting : bool;                 (* DeletionTimestamp is set *)
  ResourceVersion : Z              (* 0 on an object never read from the server *)
}.

Record TradingTenant := {
  tMeta : ObjectMeta;
  Spec : TradingTenantSpec;
  Status : TradingTenantStatus
}.

(** ** The core objects.  The [Defaults] fields stand for everything the
    controller leaves to the API server. *)
Record ConfigMap := { cMeta : ObjectMeta; Data : gmap string string }.

Record Volume := { vName : string; vConfigMap : string; vOptional : bool; vDefaults : string }.

Record Container := {
  cName : string;
  Image : string;
  EnvFrom : list string;                      (* ConfigMap references *)
  Env : list (string * string);
  VolumeMounts : list (string * string * bool); (* name, path, read-only *)
  Ports : list (string * Z);
  cDefaults : string
}.

Record Toleration := { tolKey : string; Operator : string; tolValue : string; Effect : string }.

Record Deployment := {
  dMeta : ObjectMeta;
  Selector : option (gmap string string);
  Replicas : option Z;
  TemplateLabels : gmap string string;
  NodeSelector : gmap string string;
  Tolerations : list Toleration;
  Volumes : list Volume;
  Containers : list Container;
  dDefaults : string
}.

Record ServicePort := { pName : string; Port : Z; TargetPort : Z; pDefaults : string }.

Record Service := {
  svcMeta : ObjectMeta;
  svcSelector : gmap string string;
  svcPorts : list ServicePort;
  svcDefaults : string
}.

Inductive Object :=
  | OTenant (t : TradingTenant)
  | OConfigMap (c : ConfigMap)
  | ODeployment (d : Deployment)
  | OService (s : Service).

#[global] Instance ResourceRequirements_eq_dec : EqDecision ResourceRequirements.
Proof. solve_decision. Defined.
#[global] Instance ScalingPolicy_eq_dec : EqDecision ScalingPolicy.
Proof. solve_decision. Defined.
#[global] Instance IsolationPolicy_eq_dec : EqDecision IsolationPolicy.
Proof. solve_decision. Defined.
#[global] Instance TradingTenantSpec_eq_dec : EqDecision TradingTenantSpec.
Proof. solve_decision. Defined.
#[global] Instance TradingTenantStatus_eq_dec : EqDecision TradingTenantStatus.
Proof. solve_decision. Defined.
#[global] Instance ObjectMeta_eq_dec : EqDecision ObjectMeta.
Proof. solve_decision. Defined.
#[global] Instance TradingTenant_eq_dec : EqDecision TradingTenant.
Proof. solve_decision. Defined.
#[global] Instance ConfigMap_eq_dec : EqDecision ConfigMap.
Proof. solve_decision. Defined.
#[global] Instance Volume_eq_dec : EqDecision Volume.
Proof. solve_decision. Defined.
#[global] Instance Container_eq_dec : EqDecision Container.
Proof. solve_decision. Defined.
#[global] Instance Toleration_eq_dec : EqDecision Toleration.
Proof. solve_decision. Defined.
#[global] Instance Deployment_eq_dec : EqDecision Deployment.
Proof. solve_decision. Defined.
#[global] Instance ServicePort_eq_dec : EqDecision ServicePort.
Proof. solve_decision. Defined.
#[global] Instance Service_eq_dec : EqDecision Service.
Proof. solve_decision. Defined.
#[global] Instance Object_eq_dec : EqDecision Object.
Proof. solve_decision. Defined.

Inductive Kind := KTenant | KConfigMap | KDeployment | KService.
#[global] Instance Kind_eq_dec : EqDecision Kind.
Proof. solve_decision. Defined.
#[global] Instance Kind_countable : Countable Kind.
Proof.
  apply (inj_countable' (λ k, match k with KTenant => 0%nat | KConfigMap => 1%nat | KDeployment => 2%nat | KService => 3%nat end)
    (λ n, match n with 0%nat => KTenant | 1%nat => KConfigMap | 2%nat => KDeployment | _ => KService end)).
  by intros [].
Defined.

(** Kind, namespace, name. *)
Abbreviation ObjectKey := (Kind * string * string)%type (only parsing).

Definition meta (o : Object) : ObjectMeta :=
  match o with
  | OTenant t => tMeta t
  | OConfigMap c => cMeta c
  | ODeployment d => dMeta d
  | OService s => svcMeta s
  end.

Definition kind (o : Object) : Kind :=
  match o with OTenant _ => KTenant | OConfigMap _ => KConfigMap | ODeployment _ => KDeployment | OService _ => KService end.

Definition object_key (o : Object) : ObjectKey := (kind o, Namespace (meta o), Name (meta o)).

Definition with_version (v : Z) (m : ObjectMeta) : ObjectMeta :=
  {| Name := Name m; Namespace := Namespace m; Labels := Labels m; Controller := Controller m;
     Finalizers := Finalizers m; Deleting := Deleting m; ResourceVersion := v |}.

Definition with_deleting (m : ObjectMeta) : ObjectMeta :=
  {| Name := Name m; Namespace := Namespace m; Labels := Labels m; Controller := Controller m;
     Finalizers := Finalizers m; Deleting := true; ResourceVersion := ResourceVersion m |}.

(** The object with its metadata changed. *)
Definition map_meta (g : ObjectMeta → ObjectMeta) (o : Object) : Object :=
  match o with
  | OTenant t => OTenant {| tMeta := g (tMeta t); Spec := Spec t; Status := Status t |}
  | OConfigMap c => OConfigMap {| cMeta := g (cMeta c); Data := Data c |}
  | ODeployment d =>
      ODeployment {| dMeta := g (dMeta d); Selector := Selector d; Replicas := Replicas d;
                     TemplateLabels := TemplateLabels d; NodeSelector := NodeSelector d;
                     Tolerations := Tolerations d; Volumes := Volumes d; Containers := Containers d;
                     dDefaults := dDefaults d |}
  | OService s =>
      OService {| svcMeta := g (svcMeta s); svcSelector := svcSelector s;
                  svcPorts := svcPorts s; svcDefaults := svcDefaults s |}
  end.

Definition set_version (v : Z) : Object → Object := map_meta (with_version v).

(** The object marked for deletion, under version [v]. *)
Definition mark_deleting (v : Z) : Object → Object := map_meta (λ m, with_version v (with_deleting m)).

(** ** The API *)
Inductive OperationResult := OperationResultNone | OperationResultCreated | OperationResultUpdated.
#[global] Instance OperationResult_eq_dec : EqDecision OperationResult.
Proof. solve_decision. Defined.

Class KubeClient (W : Type) := {
  kGet : ObjectKey → W → result Object * W;
  kCreate : Object → W → result Object * W;
  kUpdate : Object → W → result Object * W;
  kStatusUpdate : Object → W → result Object * W;
  kDelete : ObjectKey → W → result unit * W;
  CreateOrUpdate : Object → (Object → result Object) → W → result OperationResult * W;
  SetControllerReference : TradingTenant → ObjectMeta → result ObjectMeta
}.

(** What the server stores: the objects and the latest revision. *)
Record Store := { objects : gmap (Kind * string * string) Object; revision : Z }.

(** What there is to say of a client's world: the server's store, and the keys of
    the reads the client's cache has answered out of date so far. *)
Record View := { live : Store; missed : gset (Kind * string * string) }.

Definition version (o : Object) : Z := ResourceVersion (meta o).

Definition store_wf (s : Store) : Prop :=
  0 ≤ revision s ∧
  map_Forall (λ k o, object_key o = k ∧ 0 < version o ≤ revision s) (objects s).

(** Update does not touch the status subresource; Status().Update only that. *)
Definition keep_status (old new : Object) : Object :=
  match old, new with
  | OTenant t0, OTenant t => OTenant {| tMeta := tMeta t; Spec := Spec t; Status := Status t0 |}
  | _, _ => new
  end.

Definition only_status (old new : Object) : Object :=
  match old, new with
  | OTenant t0, OTenant t => OTenant {| tMeta := tMeta t0; Spec := Spec t0; Status := Status t |}
  | _, _ => old
  end.

Section effects.
(** The server's defaulting. *)
Context (admission : Object → Object).

(** A write stores the admitted object under a new revision, or changes nothing
    when it is what is stored already. *)
Definition written (o : Object) (s s' : Store) : Prop :=
  (∃ v, revision s < v ∧
    s' = {| objects := <[object_key o := set_version v (admission o)]> (objects s); revision := v |}) ∨
  (objects s !! object_key o = Some (admission o) ∧ s' = s).

Definition created (o : Object) (s s' : Store) : Prop :=
  objects s !! object_key o = None ∧ written o s s'.

(** Writes are refused unless they carry the stored object's version. *)
Definition replaced (merge : Object → Object → Object) (o : Object) (s s' : Store) : Prop :=
  ∃ old, objects s !! object_key o = Some old ∧ version o = version old ∧ written (merge old o) s s'.

(** A delete removes an object without finalizers at once; one with finalizers is
    marked and stays until they are gone. *)
Definition deleted (k : ObjectKey) (s s' : Store) : Prop :=
  ∃ old, objects s !! k = Some old ∧
    if bool_decide (Finalizers (meta old) = []) then
      s' = {| objects := delete k (objects s); revision := revision s |}
    else if Deleting (meta old) then s' = s
    else ∃ v, revision s < v ∧ s' = {| objects := <[k := mark_deleting v old]> (objects s); revision := v |}.

Definition get_law (k : ObjectKey) (s : Store) (r : result Object) (s' : Store) : Prop :=
  s' = s ∧
  match r with
  | Ok o => objects s !! k = Some o
  | Err e => errors_Is e StatusNotFound = true → objects s !! k = None
  end.

(** What a cache that lags behind may answer: an object of that key the server
    stored under an earlier version, the stored one if the version is the stored
    one's, or an error (a cache that has not seen the object says NotFound). *)
Definition stale_answer (k : ObjectKey) (s : Store) (r : result Object) : Prop :=
  match r with
  | Ok o => object_key o = k ∧ 0 < version o ≤ revision s ∧
      ∀ o', objects s !! k = Some o' → version o' = version o → o' = o
  | Err _ => True
  end.

(** A call after which [k] counts as missed. *)
Definition misses (k : ObjectKey) (v v' : View) : Prop :=
  v' = {| live := live v; missed := {[k]} ∪ missed v |}.

(** A read through the cache. *)
Definition cached_get_law (k : ObjectKey) (v : View) (r : result Object) (v' : View) : Prop :=
  (get_law k (live v) r (live v') ∧ missed v' = missed v) ∨ (misses k v v' ∧ stale_answer k (live v) r).

Definition create_law (o : Object) (s : Store) (r : result Object) (s' : Store) : Prop :=
  match r with
  | Ok o' => created o s s' ∧ objects s' !! object_key o = Some o'
  | Err e =>
      if errors_Is e StatusAlreadyExists then s' = s ∧ is_Some (objects s !! object_key o)
      else s' = s ∨ created o s s'
  end.

Definition update_law (merge : Object → Object → Object) (o : Object) (s : Store) (r : result Object)
    (s' : Store) : Prop :=
  match r with
  | Ok o' => replaced merge o s s' ∧ objects s' !! object_key o = Some o'
  | Err e => s' = s ∨ replaced merge o s s'
  end.

Definition delete_law (k : ObjectKey) (s : Store) (r : result unit) (s' : Store) : Prop :=
  match r with
  | Ok _ => deleted k s s'
  | Err e =>
      if errors_Is e StatusNotFound then s' = s ∧ objects s !! k = None else s' = s ∨ deleted k s s'
  end.

(** CreateOrUpdate: get, mutate, and create or update if that changed anything. *)
Definition converge (o : Object) (f : Object → result Object) (op : OperationResult) (s s' : Store) : Prop :=
  match op with
  | OperationResultNone => s' = s ∧ ∃ old, objects s !! object_key o = Some old ∧ f old = Ok old
  | OperationResultCreated => ∃ new, f o = Ok new ∧ object_key new = object_key o ∧ created new s s'
  | OperationResultUpdated =>
      ∃ old new, objects s !! object_key o = Some old ∧ f old = Ok new ∧ new ≠ old ∧
        object_key new = object_key o ∧ replaced keep_status new s s'
  end.

Definition create_or_update_law (o : Object) (f : Object → result Object) (s : Store)
    (r : result OperationResult) (s' : Store) : Prop :=
  match r with
  | Ok op => converge o f op s s'
  | Err _ => s' = s ∨ ∃ op, converge o f op s s'
  end.

(** CreateOrUpdate reads through the cache: after a read that was out of date it
    finds nothing to change, or its write is refused (AlreadyExists, a conflict). *)
Definition cached_converge_law (o : Object) (f : Object → result Object) (v : View)
    (r : result OperationResult) (v' : View) : Prop :=
  (create_or_update_law o f (live v) r (live v') ∧ missed v' = missed v) ∨
  (misses (object_key o) v v' ∧ match r with Ok op => op = OperationResultNone | Err _ => True end).
End effects.

(** A write goes to the server. *)
Definition direct {A} (law : Store → result A → Store → Prop) (v : View) (r : result A) (v' : View) : Prop :=
  law (live v) r (live v') ∧ missed v' = missed v.

Class KubeLaws (W : Type) `{!KubeClient W} (view : W → View) (admission : Object → Object) := {
  admit_key o : object_key (admission o) = object_key o;
  admit_version o : version (admission o) = version o;
  admit_tenant t : admission (OTenant t) = OTenant t;
  admit_data c : admission (OConfigMap c) = OConfigMap c;
  admit_replicas d : ∃ d', admission (ODeployment d) = ODeployment d' ∧ (is_Some (Replicas d) → Replicas d' = Replicas d);
  kGet_law k w : cached_get_law k (view w) (kGet k w).1 (view (kGet k w).2);
  kCreate_law o w : direct (create_law admission o) (view w) (kCreate o w).1 (view (kCreate o w).2);
  kUpdate_law o w : version o ≠ 0 →
    direct (update_law admission keep_status o) (view w) (kUpdate o w).1 (view (kUpdate o w).2);
  kStatusUpdate_law o w : version o ≠ 0 →
    direct (update_law admission only_status o) (view w) (kStatusUpdate o w).1 (view (kStatusUpdate o w).2);
  kDelete_law k w : direct (delete_law k) (view w) (kDelete k w).1 (view (kDelete k w).2);
  CreateOrUpdate_law o f w :
    cached_converge_law admission o f (view w) (CreateOrUpdate o f w).1 (view (CreateOrUpdate o f w).2);
  SetControllerReference_law t m m' : SetControllerReference t m = Ok m' →
    m' = {| Name := Name m; Namespace := Namespace m; Labels := Labels m;
            Controller := Some (Name (tMeta t)); Finalizers := Finalizers m; Deleting := Deleting m;
            ResourceVersion := ResourceVersion m |}
}.

(** ** What the effects do to the store *)

(** Nothing outside [ks] changed. *)
Definition frame (ks : list (Kind * string * string)) (s s' : Store) : Prop :=
  store_wf s' ∧ ∀ k, k ∉ ks → objects s' !! k = objects s !! k.

Lemma frame_refl ks s : store_wf s → frame ks s s.
Proof. done. Qed.

Lemma frame_trans ks1 ks2 ks s1 s2 s3 : frame ks1 s1 s2 → frame ks2 s2 s3 → ks1 ⊆ ks → ks2 ⊆ ks → frame ks s1 s3.
Proof.
  intros [_ H1] [Hw H2] Hs1 Hs2. split; [done|]. intros k Hk. rewrite H2, H1; [done|..]; intros Hin; apply Hk; auto.
Qed.

Lemma frame_weaken ks ks' s s' : frame ks s s' → ks ⊆ ks' → frame ks' s s'.
Proof. intros [? Hf] Hs. split; [done|]. intros k Hk. apply Hf. intros Hin. by apply Hk, Hs. Qed.

Lemma map_meta_meta g o : meta (map_meta g o) = g (meta o).
Proof. by destruct o. Qed.
Lemma set_version_key v o : object_key (set_version v o) = object_key o.
Proof. by destruct o. Qed.
Lemma set_version_version v o : version (set_version v o) = v.
Proof. by destruct o. Qed.
Lemma mark_deleting_key v o : object_key (mark_deleting v o) = object_key o.
Proof. by destruct o. Qed.
Lemma mark_deleting_version v o : version (mark_deleting v o) = v.
Proof. by destruct o. Qed.

(** A new revision of one object. *)
Lemma put_frame k o v s : store_wf s → revision s < v → object_key o = k → version o = v →
  frame [k] s {| objects := <[k := o]> (objects s); revision := v |}.
Proof.
  intros [Hrev Hwf] Hv Hk Ho. split; [split; [cbn; lia|]|].
  - cbn. apply map_Forall_insert_2; [split; [done|lia]|].
    eapply map_Forall_impl; [exact Hwf|]. cbn. intros k0 o0 [? ?]. split; [done|lia].
  - cbn. intros k0 Hk0. rewrite lookup_insert_ne; [done|]. intros <-. apply Hk0, list_elem_of_here.
Qed.

(** A delete leaves the key empty, or an object that is being deleted. *)
Definition leaving (s : Store) (k : ObjectKey) : Prop :=
  match objects s !! k with None => True | Some o => Deleting (meta o) = true end.

Lemma deleted_frame k s s' : deleted k s s' → store_wf s → frame [k] s s' ∧ leaving s' k.
Proof.
  intros (old & Hold & Hd) Hwf. destruct (proj2 Hwf _ _ Hold) as [Hk Hv]. unfold leaving. case_bool_decide.
  - subst s'. cbn. rewrite lookup_delete_eq. split; [|done]. destruct Hwf as [Hrev Hwf]. split.
    + split; [done|]. cbn. by apply map_Forall_delete.
    + cbn. intros k' Hk'. rewrite lookup_delete_ne; [done|]. intros <-. apply Hk', list_elem_of_here.
  - destruct (Deleting (meta old)) eqn:Hdel.
    + subst s'. rewrite Hold. by split.
    + destruct Hd as (v & Hv' & ->). split; [apply put_frame; [done..| |]|].
      * by rewrite mark_deleting_key.
      * apply mark_deleting_version.
      * cbn. rewrite lookup_insert_eq. unfold mark_deleting. by rewrite map_meta_meta.
Qed.

(** ** A client over an in-memory store

    [defaults] is what the server writes into the fields of a container the
    controller left empty. *)
Record Cluster := { store : Store }.

Section cluster.
Context (defaults : string).

Definition default_container (c : Container) : Container :=
  {| cName := cName c; Image := Image c; EnvFrom := EnvFrom c; Env := Env c; VolumeMounts := VolumeMounts c;
     Ports := Ports c; cDefaults := if bool_decide (cDefaults c = "") then defaults else cDefaults c |}.

Definition cluster_admit (o : Object) : Object :=
  match o with
  | ODeployment d =>
      ODeployment {| dMeta := dMeta d; Selector := Selector d; Replicas := Replicas d;
                     TemplateLabels := TemplateLabels d; NodeSelector := NodeSelector d;
                     Tolerations := Tolerations d; Volumes := Volumes d;
                     Containers := default_container <$> Containers d; dDefaults := dDefaults d |}
  | o => o
  end.

Definition put (o : Object) (w : Cluster) : result Object * Cluster :=
  let v := revision (store w) + 1 in
  let o' := set_version v (cluster_admit o) in
  (Ok o', {| store := {| objects := <[object_key o := o']> (objects (store w)); revision := v |} |}).

Definition cluster_get (k : ObjectKey) (w : Cluster) : result Object * Cluster :=
  (match objects (store w) !! k with Some o => Ok o | None => Err (Sentinel StatusNotFound) end, w).

Definition cluster_create (o : Object) (w : Cluster) : result Object * Cluster :=
  match objects (store w) !! object_key o with
  | Some _ => (Err (Sentinel StatusAlreadyExists), w)
  | None => put o w
  end.

Definition cluster_replace (merge : Object → Object → Object) (o : Object) (w : Cluster) : result Object * Cluster :=
  match objects (store w) !! object_key o with
  | None => (Err (Sentinel StatusNotFound), w)
  | Some old =>
      if negb (version o =? version old) then (Err (Sentinel StatusConflict), w)
      else if bool_decide (object_key (merge old o) = object_key o) then put (merge old o) w
      else (Err (Errorf "object of another kind"), w)
  end.

Definition cluster_delete (k : ObjectKey) (w : Cluster) : result unit * Cluster :=
  match objects (store w) !! k with
  | None => (Err (Sentinel StatusNotFound), w)
  | Some old =>
      let v := revision (store w) + 1 in
      (Ok tt,
       if bool_decide (Finalizers (meta old) = []) then
         {| store := {| objects := delete k (objects (store w)); revision := revision (store w) |} |}
       else if Deleting (meta old) then w
       else {| store := {| objects := <[k := mark_deleting v old]> (objects (store w)); revision := v |} |})
  end.

Definition op_result (op : OperationResult) (r : result Object * Cluster) : result OperationResult * Cluster :=
  match r with (Ok _, w) => (Ok op, w) | (Err e, w) => (Err e, w) end.

Definition cluster_create_or_update (o : Object) (f : Object → result Object) (w : Cluster)
    : result OperationResult * Cluster :=
  match objects (store w) !! object_key o with
  | None =>
      match f o with
      | Ok new => if bool_decide (object_key new = object_key o) then op_result OperationResultCreated (cluster_create new w)
                  else (Err (Errorf "MutateFn cannot mutate object name and/or object namespace"), w)
      | Err e => (Err e, w)
      end
  | Some old =>
      match f old with
      | Ok new =>
          if bool_decide (object_key new = object_key o) then
            if bool_decide (new = old) then (Ok OperationResultNone, w)
            else op_result OperationResultUpdated (cluster_replace keep_status new w)
          else (Err (Errorf "MutateFn cannot mutate object name and/or object namespace"), w)
      | Err e => (Err e, w)
      end
  end.

Definition cluster_set_controller (t : TradingTenant) (m : ObjectMeta) : result ObjectMeta :=
  match Controller m with
  | Some owner =>
      if bool_decide (owner = Name (tMeta t)) then Ok m else Err (Errorf "already owned by another controller")
  | None =>
      Ok {| Name := Name m; Namespace := Namespace m; Labels := Labels m; Controller := Some (Name (tMeta t));
            Finalizers := Finalizers m; Deleting := Deleting m; ResourceVersion := ResourceVersion m |}
  end.

Definition ClusterClient : KubeClient Cluster := {|
  kGet := cluster_get;
  kCreate := cluster_create;
  kUpdate := cluster_replace keep_status;
  kStatusUpdate := cluster_replace only_status;
  kDelete := cluster_delete;
  CreateOrUpdate := cluster_create_or_update;
  SetControllerReference := cluster_set_controller |}.

Lemma put_written o w : written cluster_admit o (store w) (store (put o w).2) ∧
  objects (store (put o w).2) !! object_key o = Some (set_version (revision (store w) + 1) (cluster_admit o)).
Proof. cbn. split; [left; eexists; split; [|reflexivity]; lia|apply lookup_insert_eq]. Qed.

Lemma replace_law merge o w :
  update_law cluster_admit merge o (store w) (cluster_replace merge o w).1 (store (cluster_replace merge o w).2).
Proof.
  unfold cluster_replace. destruct (objects (store w) !! object_key o) as [old|] eqn:Ho; [|by left].
  destruct (Z.eqb_spec (version o) (version old)); cbn [negb]; [|by left].
  case_bool_decide as Hk; [|by left]. destruct (put_written (merge old o) w) as [Hw Hp].
  split; [by exists old|]. rewrite <-Hk. exact Hp.
Qed.

Lemma create_or_update_spec o f w :
  create_or_update_law cluster_admit o f (store w) (cluster_create_or_update o f w).1
    (store (cluster_create_or_update o f w).2).
Proof.
  unfold cluster_create_or_update. destruct (objects (store w) !! object_key o) as [old|] eqn:Ho.
  - destruct (f old) as [new|] eqn:Hf; [|by left]. case_bool_decide as Hk; [|by left].
    case_bool_decide as Heq; [subst; cbn; eauto|].
    pose proof (replace_law keep_status new w) as Hl.
    destruct (cluster_replace keep_status new w) as [[o'|e] w']; cbn in *; [|destruct Hl as [Hl|Hl]; [by left|right; exists OperationResultUpdated]];
      exists old, new; repeat split; try done. apply Hl.
  - destruct (f o) as [new|] eqn:Hf; [|by left]. case_bool_decide as Hk; [|by left].
    unfold cluster_create. rewrite Hk, Ho. cbn. exists new. repeat split; try done; [by rewrite Hk|apply put_written].
Qed.

(** Its reads are never out of date. *)
Definition cluster_view (w : Cluster) : View := {| live := store w; missed := ∅ |}.

Lemma ClusterLaws : KubeLaws Cluster (KubeClient0 := ClusterClient) cluster_view cluster_admit.
Proof.
  split; cbn.
  - by intros [].
  - by intros [].
  - done.
  - done.
  - intros d. eexists. split; [reflexivity|done].
  - intros k w. left. unfold cluster_get, get_law. cbn. by destruct (objects (store w) !! k).
  - intros o w. split; [|done]. unfold cluster_create. cbn.
    destruct (objects (store w) !! object_key o) eqn:Ho; cbn; [split; [done|by eexists]|].
    split; [split; [done|apply put_written]|apply lookup_insert_eq].
  - intros o w _. split; [apply replace_law|done].
  - intros o w _. split; [apply replace_law|done].
  - intros k w. split; [|done]. unfold cluster_delete. cbn. destruct (objects (store w) !! k) as [old|] eqn:Hk; cbn; [|done].
    exists old. split; [done|]. case_bool_decide; [done|]. destruct (Deleting (meta old)); [done|].
    eexists. split; [|done]. lia.
  - intros o f w. left. split; [apply create_or_update_spec|done].
  - intros t m m'. unfold cluster_set_controller. destruct m as [n ns l [owner|] fs del v]; cbn.
    + case_bool_decide; [|done]. subst. by intros [= <-].
    + by intros [= <-].
Qed.
End cluster.
