(* ===== verification/PromQuery.v ===== *)
(** * Prometheus queries and the operator's configuration
    (operator/internal/promquery/client.go, operator/cmd/main.go)

    The per-tenant query strings, the reading of a query's single sample as a
    rounded integer, and the environment variables of the operator.  The query API
    is a parameter, and so is Go's float-to-integer conversion where the language
    leaves it to the implementation (NaN and values out of range). *)
From Stdlib Require Import SpecFloat.
From S2P Require Import Prelude GoStrings GoTime FloatInts EnvConfig Kube.

(** ** Query strings *)
Definition quote : ascii := "034"%char.
Definition backslash : ascii := "\"%char.

(** strings.ReplaceAll(value, old, new) for a one-byte [old] *)
Fixpoint ReplaceAll (value : string) (old : ascii) (new : string) : string :=
  match value with
  | "" => ""
  | String c value =>
      (if bool_decide (c = old) then new else String c "") +:+ ReplaceAll value old new
  end.

Definition escapePromQLString (value : string) : string :=
  let value := ReplaceAll value backslash (String backslash (String backslash "")) in
  ReplaceAll value quote (String backslash (String quote "")).

Record TenantLabel := { lName : string; lValue : string }.

Definition matcher (label : TenantLabel) : string :=
  escapePromQLString (lName label) +:+ "=" +:+ String quote (escapePromQLString (lValue label) +:+ String quote "").

Definition kafkaLagMetric : string := "processor_kafka_consumer_lag_messages".
Definition latencyBucketMetric : string := "processor_transaction_duration_seconds_bucket".
Definition partitionCountMetric : string := "ingestion_kafka_tenant_partition_count".
Definition partitionStartMetric : string := "ingestion_kafka_tenant_partition_start_count".
Definition latencyQuantileWindow : string := "5m".

Definition selectorQuery (metric : string) (label : TenantLabel) : string :=
  metric +:+ "{" +:+ matcher label +:+ "}".

Definition latencyQuery (label : TenantLabel) : string :=
  "histogram_quantile(0.99, sum(rate(" +:+ selectorQuery latencyBucketMetric label +:+
  "[" +:+ latencyQuantileWindow +:+ "])) by (le))".

(** ** Reading a sample *)
Inductive PromValue := Vector (samples : list spec_float) | OtherValue.

(** math.Round's result: an integer every float64 of its size holds exactly, or
    one of the values Round returns as they are. *)
Inductive rounded := RInt (z : Z) | RInf (negative : bool) | RNaN.

Definition Round (x : spec_float) : rounded :=
  match x with
  | S754_zero _ => RInt 0
  | S754_infinity s => RInf s
  | S754_nan => RNaN
  | S754_finite s m e =>
      let magnitude := if 0 <=? e then Z.pos m * 2 ^ e else (2 * Z.pos m + 2 ^ (- e)) / (2 * 2 ^ (- e)) in
      RInt (if s then - magnitude else magnitude)
  end.

(** rounded > high || rounded < low, both false on NaN *)
Definition outside (x : rounded) (low high : Z) : bool :=
  match x with
  | RInt z => (high <? z) || (z <? low)
  | RInf _ => true
  | RNaN => false
  end.

(** float64(math.MaxInt64) *)
Definition MaxInt64Float : Z := 9223372036854775808.

Class FloatConversion := wild : rounded → Z.

Definition toInt (lo hi : Z) `{!FloatConversion} (x : rounded) : Z :=
  match x with
  | RInt z => if (lo <=? z) && (z <=? hi) then z else wild x
  | _ => wild x
  end.

Section client.
Context `{Fc : !FloatConversion} {P : Type} (Query : string → P → result PromValue * P).

Definition queryScalar (query : string) (p : P) : result spec_float * P :=
  let '(res, p) := Query query p in
  (match res with
   | Err err => Err (Wrapf "querying prometheus (%s): %w" err)
   | Ok OtherValue => Err (Errorf "querying prometheus (%s): unexpected result type %T")
   | Ok (Vector []) => Err (Errorf "querying prometheus (%s): no series matched")
   | Ok (Vector [value]) => Ok value
   | Ok (Vector _) => Err (Errorf "querying prometheus (%s): expected a single series, got %d")
   end, p).

Definition readInt64 (msg : string) (value : spec_float) : result Z :=
  let x := Round value in
  if outside x MinInt64 MaxInt64Float then Err (Errorf msg) else Ok (toInt MinInt64 MaxInt64 x).

Definition readInt32 (msg : string) (value : spec_float) : result Z :=
  let x := Round value in
  if outside x MinInt32 MaxInt32 then Err (Errorf msg) else Ok (toInt MinInt32 MaxInt32 x).

Definition observe (msg query : string) (read : spec_float → result Z) (p : P) : result Z * P :=
  let '(value, p) := queryScalar query p in
  (value ← wrap_err msg value; read value, p).

Definition ObservedKafkaLag (label : TenantLabel) : P → result Z * P :=
  observe "promquery: observed kafka lag: %w" (selectorQuery kafkaLagMetric label)
    (readInt64 "promquery: observed kafka lag: value %v out of range").

Definition ObservedP99Ms (label : TenantLabel) : P → result Z * P :=
  observe "promquery: observed p99 latency: %w" (latencyQuery label)
    (λ value, readInt32 "promquery: observed p99 latency: value %v out of range" (f64_mul value (f64_of_Z 1000))).

Definition ObservedPartitionCount (label : TenantLabel) : P → result Z * P :=
  observe "promquery: observed partition count: %w" (selectorQuery partitionCountMetric label)
    (readInt32 "promquery: observed partition count: value %v out of range").

Definition ObservedPartitionStart (label : TenantLabel) : P → result Z * P :=
  observe "promquery: observed partition start: %w" (selectorQuery partitionStartMetric label)
    (readInt32 "promquery: observed partition start: value %v out of range").
End client.

(** ** Configuration *)
Record Config := { Address : string; Timeout : Z }.

Definition defaultTimeout : Z := 5 * Second.

Definition NewConfigFromEnv `{Genv : !Environment} : Config :=
  {| Address := getenvOr "PROMETHEUS_ADDR" "http://prometheus:9090";
     Timeout := match override "PROMETHEUS_QUERY_TIMEOUT" ParseDuration defaultTimeout with
                | Ok timeout => timeout
                | Err _ => defaultTimeout
                end |}.

(** The timeout NewClient keeps. *)
Definition clientTimeout (cfg : Config) : Z := if Timeout cfg <=? 0 then defaultTimeout else Timeout cfg.

Definition durationFromEnv `{Genv : !Environment} (name : string) (fallback : Z) : result Z :=
  override name (λ raw, wrap_err "parse %s: %w" (ParseDuration raw)) fallback.

Definition configMapEnvFromSourcesFromEnv `{Genv : !Environment} (name : string) : list string :=
  if bool_decide (Getenv name = "") then [] else Services.trimmedFields (Split (Getenv name) ","%char).

Definition keyValueMapFromEnv `{Genv : !Environment} (name : string) : gmap string string :=
  if bool_decide (Getenv name = "") then ∅
  else fold_left (λ pairs pair,
    let '(key, value, found) := Cut (TrimSpace pair) "="%char in
    if negb found || bool_decide (key = "") then pairs else <[key := TrimSpace value]> pairs)
    (Split (Getenv name) ","%char) ∅.

Definition tolerationOf (entry : string) : option Toleration :=
  let '(keyValue, effect, hasEffect) := Cut (TrimSpace entry) ":"%char in
  if negb hasEffect then None
  else
    let effect := TrimSpace effect in
    if negb (bool_decide (effect ∈ ["NoSchedule"; "PreferNoSchedule"; "NoExecute"])) then None
    else
      let '(key, value, hasValue) := Cut keyValue "="%char in
      let key := TrimSpace key in
      if bool_decide (key = "") then None
      else Some {| tolKey := key; Operator := if hasValue : bool then "Equal" else "Exists";
                   tolValue := if hasValue : bool then TrimSpace value else ""; Effect := effect |}.

Definition tolerationsFromEnv `{Genv : !Environment} (name : string) : list Toleration :=
  if bool_decide (Getenv name = "") then [] else omap tolerationOf (Split (Getenv name) ","%char).

(** ** The label value cannot leave its literal *)

(** A PromQL double-quoted string after its opening quote: the value and what
    follows the closing quote.  Only the two escapes the client produces are read;
    a raw newline ends a PromQL string with an error. *)
Fixpoint readLiteral (s : string) : option (string * string) :=
  match s with
  | "" => None
  | String c rest =>
      if bool_decide (c = quote) then Some ("", rest)
      else if bool_decide (c = "010"%char) then None
      else if bool_decide (c = backslash) then
        match rest with
        | String d rest =>
            if bool_decide (d = backslash) || bool_decide (d = quote)
            then prod_map (String d) id <$> readLiteral rest
            else None
        | "" => None
        end
      else prod_map (String c) id <$> readLiteral rest
  end.

Lemma escape_cons c s : escapePromQLString (String c s) =
  (if bool_decide (c = backslash) || bool_decide (c = quote) then String backslash (String c "")
   else String c "") +:+ escapePromQLString s.
Proof.
  unfold escapePromQLString. cbn [ReplaceAll].
  destruct (decide (c = backslash)) as [->|Hb].
  - reflexivity.
  - destruct (decide (c = quote)) as [->|Hq]; [reflexivity|].
    rewrite (bool_decide_eq_false_2 (c = backslash)), (bool_decide_eq_false_2 (c = quote)) by done. cbn [orb].
    rewrite app_cons. cbn [ReplaceAll]. by rewrite bool_decide_eq_false_2.
Qed.

(** A tenant id cannot break out of its query: whatever bytes it holds, as long
    as none is a newline, the literal the matcher writes is read back by PromQL's
    string syntax as exactly that tenant id, and ends where the matcher ends it. *)
Theorem escaped_reads_back value rest :
  no_byte "010"%char value = true →
  readLiteral (escapePromQLString value +:+ String quote rest) = Some (value, rest).
Proof.
  induction value as [|c value IH]; intros Hn; [done|]. rewrite escape_cons.
  unfold no_byte in Hn. cbn in Hn. apply andb_true_iff in Hn as [Hc Hn]. apply IH in Hn. bool_props.
  rewrite app_assoc. set (tail := escapePromQLString value +:+ String quote rest) in *.
  destruct (decide (c = backslash)) as [->|Hb].
  { change (prod_map (String backslash) id <$> readLiteral tail = Some (String backslash value, rest)). by rewrite Hn. }
  destruct (decide (c = quote)) as [->|Hq].
  { change (prod_map (String quote) id <$> readLiteral tail = Some (String quote value, rest)). by rewrite Hn. }
  rewrite !bool_decide_eq_false_2 by done. cbn [orb]. rewrite app_cons, app_nil_l. cbn [readLiteral].
  rewrite !bool_decide_eq_false_2 by done. by rewrite Hn.
Qed.

Lemma escaped_reads_back_witness :
  readLiteral (escapePromQLString (String quote (String "\" "x")) +:+ String quote "}") =
    Some (String quote (String "\" "x"), "}").
Proof. apply escaped_reads_back. reflexivity. Defined.

(** *** The text of an instant selector, as PromQL reads it

    metric{label="value"}: a metric identifier, one label identifier, and a string
    literal.  What is read here is part of PromQL's syntax (no white space, one
    equality matcher). *)
Definition letter (c : ascii) : bool :=
  (65 <=? byte c) && (byte c <=? 90) || (97 <=? byte c) && (byte c <=? 122) || (byte c =? 95).

(** The longest prefix of bytes that satisfy [f], and the rest. *)
Fixpoint span (f : ascii → bool) (s : string) : string * string :=
  match s with
  | "" => ("", "")
  | String c rest => if f c then prod_map (String c) id (span f rest) else ("", s)
  end.

(** [colon]: metric names may hold colons, label names may not. *)
Definition identifier_byte (colon : bool) (c : ascii) : bool :=
  letter c || is_digit c || (colon && bool_decide (c = ":"%char)).

Definition readIdentifier (colon : bool) (s : string) : option (string * string) :=
  match s with
  | String c _ => if is_digit c then None else
      match span (identifier_byte colon) s with ("", _) => None | found => Some found end
  | "" => None
  end.

Fixpoint strip (pre s : string) : option string :=
  match pre, s with
  | "", _ => Some s
  | String a pre, String b s => if bool_decide (a = b) then strip pre s else None
  | _, _ => None
  end.

Definition parseSelector (query : string) : option (string * string * string) :=
  '(metric, rest) ← readIdentifier true query;
  rest ← strip "{" rest;
  '(label, rest) ← readIdentifier false rest;
  rest ← strip (String "=" (String quote "")) rest;
  '(value, rest) ← readLiteral rest;
  if bool_decide (rest = "}") then Some (metric, label, value) else None.

Lemma strip_app pre s : strip pre (pre +:+ s) = Some s.
Proof. induction pre as [|c pre IH]; [done|]. rewrite app_cons. cbn. by rewrite bool_decide_true. Qed.

Lemma span_app f s c rest : string_forallb f s = true → f c = false →
  span f (s +:+ String c rest) = (s, String c rest).
Proof.
  intros Hs Hc. induction s as [|b s IH]; [rewrite app_nil_l; cbn [span]; by rewrite Hc|]. cbn in Hs. apply andb_true_iff in Hs as [Hb Hs].
  rewrite app_cons. cbn. by rewrite Hb, IH.
Qed.

(** A metric or label name. *)
Definition identifier (colon : bool) (s : string) : bool :=
  match s with String c _ => negb (is_digit c) && string_forallb (identifier_byte colon) s | "" => false end.

Lemma readIdentifier_app colon s c rest : identifier colon s = true → identifier_byte colon c = false →
  readIdentifier colon (s +:+ String c rest) = Some (s, String c rest).
Proof.
  destruct s as [|b s]; [done|]. unfold identifier. intros [Hb Hs]%andb_true_iff Hc. unfold readIdentifier.
  rewrite <-(span_app (identifier_byte colon) (String b s) c rest) by done.
  rewrite app_cons at 1. apply negb_true_iff in Hb. rewrite Hb. by rewrite (span_app _ (String b s)).
Qed.

Lemma escape_identifier colon s : identifier colon s = true → escapePromQLString s = s.
Proof.
  destruct s as [|b s]; [done|]. unfold identifier. intros [_ H]%andb_true_iff. revert H. generalize (String b s).
  intros t. induction t as [|c t IH]; [done|]. cbn [string_forallb]. intros [Hc Ht]%andb_true_iff.
  rewrite escape_cons, IH by done.
  rewrite !bool_decide_eq_false_2; [done|..]; intros ->; destruct colon; discriminate Hc.
Qed.

(** The queries the client writes are selectors of the metric and label it means. *)
Lemma selectorQuery_parses metric label : identifier true metric = true → identifier false (lName label) = true →
  no_byte "010"%char (lValue label) = true →
  parseSelector (selectorQuery metric label) = Some (metric, lName label, lValue label).
Proof.
  intros Hm Hl Hv. unfold parseSelector, selectorQuery, matcher. rewrite (escape_identifier false) by done.
  repeat rewrite ?app_assoc, ?app_cons, ?app_nil_l.
  rewrite (readIdentifier_app true metric "{"%char) by done. cbn [mbind option_bind strip].
  rewrite bool_decide_true by done. cbn [mbind option_bind].
  rewrite (readIdentifier_app false (lName label) "="%char) by done. cbn [mbind option_bind strip].
  rewrite !bool_decide_true by done. cbn [mbind option_bind]. rewrite escaped_reads_back by done. done.
Qed.

(** ** Rounding *)

(** [n] is a nearest integer of the sample. *)
Definition nearest (x : spec_float) (n : Z) : Prop :=
  match x with
  | S754_zero _ => n = 0
  | S754_finite s m e =>
      let v := if s then Z.neg m else Z.pos m in
      if 0 <=? e then n = v * 2 ^ e else 2 * Z.abs (n * 2 ^ (- e) - v) ≤ 2 ^ (- e)
  | _ => False
  end.

Lemma Round_nearest x z : Round x = RInt z → nearest x z.
Proof.
  destruct x as [s|s| |s m e]; cbn; try done; [by intros [= <-]|]. intros [= <-].
  destruct (Z.leb_spec 0 e); [destruct s; lia|].
  assert (0 < 2 ^ (- e)) as Hp by (apply Z.pow_pos_nonneg; lia).
  pose proof (Z.div_mod (2 * Z.pos m + 2 ^ (- e)) (2 * 2 ^ (- e)) ltac:(lia)) as Hd.
  pose proof (Z.mod_pos_bound (2 * Z.pos m + 2 ^ (- e)) (2 * 2 ^ (- e)) ltac:(lia)) as Hm.
  set (q := (2 * Z.pos m + 2 ^ (- e)) / (2 * 2 ^ (- e))) in *. destruct s; nia.
Qed.

Lemma readInt_nearest lo hi limit `{Fc : !FloatConversion} x n :
  (if outside (Round x) lo limit then None else Some (toInt lo hi (Round x))) = Some n →
  (nearest x n ∧ lo ≤ n ≤ hi) ∨ x = S754_nan ∨ (∃ z, Round x = RInt z ∧ hi < z ≤ limit).
Proof.
  destruct (Round x) as [z|s|] eqn:E; cbn; [|done|].
  - destruct (Z.ltb_spec limit z); [done|]. destruct (Z.ltb_spec z lo); [done|]. cbn.
    destruct (Z.leb_spec lo z); [|lia]. destruct (Z.leb_spec z hi); cbn; intros [= <-].
    + left. split; [by apply Round_nearest|lia].
    + right. right. exists z. split; [done|lia].
  - intros _. right. left. by destruct x.
Qed.

Lemma Round_f64_of_Z n : 0 ≤ n < 2 ^ 53 → Round (f64_of_Z n) = RInt n.
Proof.
  intros [H0 H]. destruct n as [|m|]; [done| |lia]. destruct (f64_of_pos m H) as (m' & e & -> & He & Hm & _).
  cbn. f_equal. destruct (Z.leb_spec 0 e).
  - assert (e = 0) as -> by lia. cbn in Hm. lia.
  - assert (0 < 2 ^ (- e)) as Hp by (apply Z.pow_pos_nonneg; lia). rewrite Hm.
    symmetry. apply (Z.div_unique_pos _ _ _ (2 ^ (- e))); lia.
Qed.

(** What the reconciler classifies is what Prometheus reported: a partition
    reading accepted by the range check is the sample rounded to a nearest int32,
    and a lag reading a nearest int64; the only samples the checks let through to
    an unspecified conversion are NaN and, for the lag, exactly 2^63. *)
Theorem readings_nearest `{Fc : !FloatConversion} msg x n :
  (readInt32 msg x = Ok n → x ≠ S754_nan → nearest x n ∧ in_int32 n) ∧
  (readInt64 msg x = Ok n → x ≠ S754_nan → Round x ≠ RInt MaxInt64Float → nearest x n ∧ in_int64 n).
Proof.
  unfold readInt32, readInt64. split.
  - intros H Hx. destruct (readInt_nearest MinInt32 MaxInt32 MaxInt32 x n) as [?|[?|(z & _ & ?)]]; [|done|done|lia].
    destruct (outside _ _ _); [done|]. by injection H as ->.
  - intros H Hx Hr. destruct (readInt_nearest MinInt64 MaxInt64 MaxInt64Float x n) as [?|[?|(z & Hz & ?)]]; [|done|done|].
    + destruct (outside _ _ _); [done|]. by injection H as ->.
    + exfalso. apply Hr. rewrite Hz. f_equal. unfold MaxInt64, MaxInt64Float in *. lia.
Qed.

Lemma readings_nearest_witness :
  nearest (f64_div (f64_of_Z 7) (f64_of_Z 2)) 4 ∧ in_int32 4.
Proof.
  refine (proj1 (readings_nearest (Fc := λ _, 0) "" (f64_div (f64_of_Z 7) (f64_of_Z 2)) 4) _ _).
  - vm_compute. reflexivity.
  - vm_compute. discriminate.
Defined.

(** NaN, what histogram_quantile returns without samples, and 2^63 pass the checks
    and yield whatever the platform's conversion yields. *)
Example unchecked_readings `{Fc : !FloatConversion} :
  readInt32 "" (f64_mul S754_nan (f64_of_Z 1000)) = Ok (wild RNaN) ∧
  readInt64 "" (f64_of_Z MaxInt64) = Ok (wild (RInt 9223372036854775808)).
Proof. split; vm_compute; reflexivity. Qed.
