(* ===== verification/PartitionMap.v ===== *)
(** * The shared tenant partition map
    (operator/internal/controller/tenant_partition_map.go)

    mutateTenantPartitionMap as a machine whose states are its points between API
    calls, so that it runs alone over a client ([mutateTenantPartitionMap]) and
    interleaved with the passes of other tenants ([map_step]).  The mapping is read
    from and written to its JSON; a nil Go map is [None]. *)
From S2P Require Import Prelude GoStrings GoUtf8 GoJson GoUnmarshal Wire Kube.

Definition tenantPartitionMapName : string := "tenant-partition-map".
Definition tenantPartitionMapDataKey : string := "mapping.json".

Record tenantPartitionEntry := { eStart : Z; eCount : Z }.   (* int32, int32 *)
#[global] Instance tenantPartitionEntry_eq_dec : EqDecision tenantPartitionEntry.
Proof. solve_decision. Defined.

(** map[string]tenantPartitionEntry, possibly nil *)
Abbreviation mapping := (option (gmap string tenantPartitionEntry)) (only parsing).

Definition entryFields : list (string * setter tenantPartitionEntry) :=
  [("start", SetInt 2147483648 (λ x e, {| eStart := x; eCount := eCount e |}));
   ("count", SetInt 2147483648 (λ x e, {| eStart := eStart e; eCount := x |}))].

Definition zeroEntry : tenantPartitionEntry := {| eStart := 0; eCount := 0 |}.

Definition entry_json (e : tenantPartitionEntry) : json :=
  JObject [("start", JNumber (Itoa (eStart e))); ("count", JNumber (Itoa (eCount e)))].

(** json.Marshal and json.Unmarshal of the mapping. *)
Definition marshal_map (m : mapping) : result string := Ok (encode (map_json entry_json m)).
Definition unmarshal_map (raw : string) : result mapping := unmarshalMap entryFields zeroEntry raw.
#[global] Arguments marshal_map : simpl never.
#[global] Arguments unmarshal_map : simpl never.

(** The width of the two fields, and the keys JSON keeps as they are. *)
Definition entry_ok (e : tenantPartitionEntry) : Prop := in_int32 (eStart e) ∧ in_int32 (eCount e).
Definition mapping_ok (m : gmap string tenantPartitionEntry) : Prop := map_ok entry_ok m.

Lemma entry_store e : entry_ok e →
  numbers_ok (entry_json e) = true ∧ (nesting (entry_json e) ≤ 1)%nat ∧
  storeStruct entryFields (cleaned (entry_json e)) zeroEntry = (e, true).
Proof.
  intros [Hs Hc]. split_and!; [|cbn; lia|].
  - cbn [entry_json numbers_ok forallb]. by rewrite !number_ok_Itoa by (unfold_ints; lia).
  - unfold entry_json. rewrite cleaned_object. unfold cleaned_member. cbn [fmap list_fmap fst snd cleaned storeStruct].
    store_members. by destruct e.
Qed.

Lemma map_roundtrip m : mapping_ok m → ∃ raw, marshal_map (Some m) = Ok raw ∧ raw ≠ "" ∧ unmarshal_map raw = Ok (Some m).
Proof.
  intros Hm. eexists. split; [reflexivity|]. split; [done|]. unfold unmarshal_map.
  by rewrite (unmarshalMap_encode entryFields zeroEntry entry_json entry_ok id entry_store), map_fmap_id.
Qed.

(** The two closures passed as mutate. *)
Inductive mutation :=
  | SetEntry (tenantID : string) (entry : tenantPartitionEntry)
  | RemoveEntry (tenantID : string).

(** None is the panic of an assignment into a nil map. *)
Definition mutate (f : mutation) (m : mapping) : option mapping :=
  match f, m with
  | SetEntry t e, Some m => Some (Some (<[t := e]> m))
  | SetEntry _ _, None => None
  | RemoveEntry t, Some m => Some (Some (delete t m))
  | RemoveEntry _, None => Some None
  end.

(** The same on a map that is not nil. *)
Definition effect (f : mutation) (m : gmap string tenantPartitionEntry) : gmap string tenantPartitionEntry :=
  match f with SetEntry t e => <[t := e]> m | RemoveEntry t => delete t m end.

(** A tenant id is text, and the range's fields are int32. *)
Definition mutation_ok (f : mutation) : Prop :=
  match f with SetEntry t e => ValidString t = true ∧ entry_ok e | RemoveEntry _ => True end.

Lemma effect_ok f m : mutation_ok f → mapping_ok m → mapping_ok (effect f m).
Proof.
  destruct f as [t e|t]; intros Hf Hm; cbn; [by apply map_Forall_insert_2|by apply map_Forall_delete].
Qed.

(** Where a call is: about to Get, Create or Update, or finished. *)
Inductive point :=
  | AtGet
  | AtCreate (configMap : ConfigMap)
  | AtUpdate (configMap : ConfigMap)
  | Returned (r : result unit)
  | Panicked.

Section map.

Definition decodeTenantPartitionMap (raw : string) : result mapping :=
  if bool_decide (raw = "") then Ok (Some ∅) else unmarshal_map raw.

(** configMap.Data[tenantPartitionMapDataKey] *)
Definition rawMap (configMap : ConfigMap) : string := default "" (Data configMap !! tenantPartitionMapDataKey).

Definition with_raw (raw : string) (configMap : ConfigMap) : ConfigMap :=
  {| cMeta := cMeta configMap; Data := <[tenantPartitionMapDataKey := raw]> (Data configMap) |}.

(** From the ConfigMap, fetched or new, to the write. *)
Definition planWrite (f : mutation) (notFound : bool) (configMap : ConfigMap) : point :=
  match decodeTenantPartitionMap (rawMap configMap) with
  | Err err => Returned (Err (Wrapf "decode tenant partition map: %w" err))
  | Ok m =>
      match mutate f m with
      | None => Panicked
      | Some m =>
          match marshal_map m with
          | Err err => Returned (Err (Wrapf "encode tenant partition map: %w" err))
          | Ok encoded =>
              if notFound && bool_decide (default ∅ m = ∅) then Returned (Ok tt)
              else if negb notFound && bool_decide (rawMap configMap = encoded) then Returned (Ok tt)
              else if notFound then AtCreate (with_raw encoded configMap)
              else AtUpdate (with_raw encoded configMap)
          end
      end
  end.

Definition newMap (namespace : string) : ConfigMap :=
  {| cMeta := {| Name := tenantPartitionMapName; Namespace := namespace; Labels := ∅; Controller := None;
                 Finalizers := []; Deleting := false; ResourceVersion := 0 |};
     Data := ∅ |}.

Definition mapKey (namespace : string) : Kind * string * string :=
  (KConfigMap, namespace, tenantPartitionMapName).

Definition afterGet (f : mutation) (namespace : string) (r : result Object) : point :=
  match r with
  | Ok (OConfigMap configMap) => planWrite f false configMap
  | Ok _ => Returned (Err (Errorf "get tenant partition map: wrong kind"))
  | Err err =>
      if negb (errors_Is err StatusNotFound) then Returned (Err (Wrapf "get tenant partition map: %w" err))
      else planWrite f true (newMap namespace)
  end.

Definition afterCreate (r : result Object) : point :=
  match r with
  | Ok _ => Returned (Ok tt)
  | Err err =>
      if errors_Is err StatusAlreadyExists then AtGet
      else Returned (Err (Wrapf "create tenant partition map: %w" err))
  end.

Definition afterUpdate (r : result Object) : point :=
  match r with
  | Ok _ => Returned (Ok tt)
  | Err err => Returned (Err (Wrapf "update tenant partition map: %w" err))
  end.

(** One API call of a machine over a client. *)
Definition advance {W} `{!KubeClient W} (f : mutation) (namespace : string) (p : point) (w : W) : point * W :=
  match p with
  | AtGet => let '(r, w) := kGet (mapKey namespace) w in (afterGet f namespace r, w)
  | AtCreate c => let '(r, w) := kCreate (OConfigMap c) w in (afterCreate r, w)
  | AtUpdate c => let '(r, w) := kUpdate (OConfigMap c) w in (afterUpdate r, w)
  | p => (p, w)
  end.

Fixpoint drive {W} `{!KubeClient W} (calls : nat) (f : mutation) (namespace : string) (p : point) (w : W)
    : point * W :=
  match calls with
  | O => (p, w)
  | S calls => let '(p, w) := advance f namespace p w in drive calls f namespace p w
  end.

(** The whole call, cut after [calls] API calls: Get, then at most one write, and
    again from Get after a lost create race.  Two API calls are enough when the Get
    was up to date and nothing else creates the map ([mutateTenantPartitionMap_spec]). *)
Definition mutateTenantPartitionMap {W} `{!KubeClient W} (calls : nat) (namespace : string) (f : mutation) (w : W)
    : point * W :=
  drive calls f namespace AtGet w.

Definition ensureTenantPartitionMapEntry {W} `{!KubeClient W} (calls : nat) (tenant : TradingTenant)
    (start count : Z) : W → point * W :=
  mutateTenantPartitionMap calls (Namespace (tMeta tenant))
    (SetEntry (sTenantID (Spec tenant)) {| eStart := start; eCount := count |}).

Definition removeTenantPartitionMapEntry {W} `{!KubeClient W} (calls : nat) (tenant : TradingTenant)
    : W → point * W :=
  mutateTenantPartitionMap calls (Namespace (tMeta tenant)) (RemoveEntry (sTenantID (Spec tenant))).

(** ** Interleaved passes

    [threads] are the calls in flight, each with its mutation; every API call is
    one step under the API's laws, ambiguous failures included, and anything else
    may write other objects at any time. *)
Section concurrent.
Context (admission : Object → Object) (namespace : string).

Record MapSystem := { threads : list (mutation * point); server : Store }.

Inductive map_step : MapSystem → MapSystem → Prop :=
  | step_arrive f ts s : mutation_ok f → map_step {| threads := ts; server := s |} {| threads := ts ++ [(f, AtGet)]; server := s |}
  | step_get ts s i f r :
      ts !! i = Some (f, AtGet) → get_law (mapKey namespace) s r s →
      map_step {| threads := ts; server := s |}
        {| threads := <[i := (f, afterGet f namespace r)]> ts; server := s |}
  | step_create ts s i f c r s' :
      ts !! i = Some (f, AtCreate c) → create_law admission (OConfigMap c) s r s' →
      map_step {| threads := ts; server := s |}
        {| threads := <[i := (f, afterCreate r)]> ts; server := s' |}
  | step_update ts s i f c r s' :
      ts !! i = Some (f, AtUpdate c) → update_law admission keep_status (OConfigMap c) s r s' →
      map_step {| threads := ts; server := s |}
        {| threads := <[i := (f, afterUpdate r)]> ts; server := s' |}
  | step_other ts s s' :
      store_wf s' → objects s' !! mapKey namespace = objects s !! mapKey namespace → revision s ≤ revision s' →
      map_step {| threads := ts; server := s |} {| threads := ts; server := s' |}.

(** The mapping the server holds. *)
Definition holds (s : Store) (m : gmap string tenantPartitionEntry) : Prop :=
  match objects s !! mapKey namespace with
  | None => m = ∅
  | Some (OConfigMap c) => decodeTenantPartitionMap (rawMap c) = Ok (Some m)
  | Some _ => False
  end.

(** The mutations of the calls in [log], in order. *)
Definition replayed (fs : list mutation) (log : list nat) (m : gmap string tenantPartitionEntry)
    : gmap string tenantPartitionEntry :=
  fold_left (λ m i, match fs !! i with Some f => effect f m | None => m end) log m.

(** *** The invariant *)
Context (Hadmit : ∀ c, admission (OConfigMap c) = OConfigMap c).

Lemma decode_encoded m : mapping_ok m → ∃ raw, marshal_map (Some m) = Ok raw ∧ raw ≠ "" ∧
  decodeTenantPartitionMap raw = Ok (Some m).
Proof.
  intros Hm. destruct (map_roundtrip m Hm) as (raw & ? & ? & ?). exists raw. split_and!; [done..|].
  unfold decodeTenantPartitionMap. by rewrite bool_decide_eq_false_2.
Qed.

Lemma decoded_ok raw m : decodeTenantPartitionMap raw = Ok (Some m) → mapping_ok m.
Proof.
  unfold decodeTenantPartitionMap. case_bool_decide; [intros [= <-]; apply map_Forall_empty|]. intros Hu.
  assert (map_Forall (λ _ e, entry_ok e) m) as He.
  { apply (unmarshalMap_entries entry_ok entryFields) with (zero := zeroEntry) (data := raw); [| |done].
    - unfold entry_ok. repeat constructor; cbn; unfold_ints; lia.
    - unfold entry_ok, zeroEntry. cbn. unfold_ints; lia. }
  apply unmarshalMap_keys in Hu. intros k e Hk. split; [by eapply Hu|by eapply He].
Qed.

Lemma mutate_effect f m : mutate f (Some m) = Some (Some (effect f m)).
Proof. by destruct f. Qed.

Lemma rawMap_with_raw raw c : rawMap (with_raw raw c) = raw.
Proof. unfold rawMap, with_raw. cbn. by rewrite lookup_insert_eq. Qed.

(** What is planned from a readable map: nothing when the mutation changes
    nothing, else a write of the mutated map. *)
Lemma planWrite_cases f notFound c m :
  mutation_ok f → decodeTenantPartitionMap (rawMap c) = Ok (Some m) → (notFound = true → m = ∅) →
  (planWrite f notFound c = Returned (Ok tt) ∧ effect f m = m) ∨
  ∃ raw, decodeTenantPartitionMap raw = Ok (Some (effect f m)) ∧
    planWrite f notFound c = if notFound then AtCreate (with_raw raw c) else AtUpdate (with_raw raw c).
Proof.
  intros Hf Hd Hn. unfold planWrite. rewrite Hd, mutate_effect.
  destruct (decode_encoded (effect f m)) as (raw & -> & Hne & Hraw); [by eapply effect_ok, decoded_ok|]. cbn [default].
  destruct notFound; cbn [andb negb].
  - case_bool_decide as He; [left|right; by exists raw]. split; [done|]. cbn in He. rewrite He. by rewrite Hn.
  - case_bool_decide as He; [left|right; by exists raw]. split; [done|]. rewrite He in Hd. congruence.
Qed.

Definition thread_inv (s : Store) (log : list nat) (i : nat) (t : mutation * point) : Prop :=
  match t.2 with
  | AtGet => i ∉ log
  | AtCreate c => i ∉ log ∧ object_key (OConfigMap c) = mapKey namespace ∧
      decodeTenantPartitionMap (rawMap c) = Ok (Some (effect t.1 ∅))
  | AtUpdate c => i ∉ log ∧ object_key (OConfigMap c) = mapKey namespace ∧
      version (OConfigMap c) ≤ revision s ∧
      ∀ c0, objects s !! mapKey namespace = Some (OConfigMap c0) → version (OConfigMap c0) = version (OConfigMap c) →
        ∃ m, decodeTenantPartitionMap (rawMap c0) = Ok (Some m) ∧
          decodeTenantPartitionMap (rawMap c) = Ok (Some (effect t.1 m))
  | Returned (Ok _) => i ∈ log
  | Returned (Err _) => True
  | Panicked => False
  end.

Record map_inv (m0 : gmap string tenantPartitionEntry) (sys : MapSystem) (log : list nat) : Prop := {
  mi_nodup : NoDup log;
  mi_range : Forall (λ i, (i < length (threads sys))%nat) log;
  mi_store : store_wf (server sys);
  mi_holds : holds (server sys) (replayed (fst <$> threads sys) log m0);
  mi_threads i t : threads sys !! i = Some t → thread_inv (server sys) log i t
}.

Lemma replayed_snoc fs log i f m : fs !! i = Some f →
  replayed fs (log ++ [i]) m = effect f (replayed fs log m).
Proof. intros Hi. unfold replayed. rewrite fold_left_app. cbn. by rewrite Hi. Qed.

Lemma replayed_arrive fs f log m : Forall (λ i, (i < length fs)%nat) log →
  replayed (fs ++ [f]) log m = replayed fs log m.
Proof.
  unfold replayed. revert m. induction log as [|i log IH]; intros m Hl; cbn; [done|].
  apply Forall_cons in Hl as [Hi Hl]. rewrite lookup_app_l by done. by apply IH.
Qed.

Lemma fst_insert ts i f p p' : ts !! i = Some (f, p) →
  fst <$> (<[i := (f, p')]> ts) = fst <$> (ts : list (mutation * point)).
Proof. intros Hi. rewrite list_fmap_insert. apply list_insert_id. by rewrite list_lookup_fmap, Hi. Qed.

(** A thread moves and the log does not, or the thread is committed. *)
Lemma map_inv_move m0 ts s s' log i f p p' :
  map_inv m0 {| threads := ts; server := s |} log → ts !! i = Some (f, p) → store_wf s' →
  holds s' (replayed (fst <$> ts) log m0) →
  (∀ j t, j ≠ i → ts !! j = Some t → thread_inv s' log j t) → thread_inv s' log i (f, p') →
  map_inv m0 {| threads := <[i := (f, p')]> ts; server := s' |} log.
Proof.
  intros [Hn Hr Hs Hh Ht] Hi Hs' Hh' Hj Hi'. split; cbn in *; [done|by rewrite length_insert|done|..].
  - by rewrite (fst_insert _ _ _ p).
  - intros j t. rewrite list_lookup_insert_Some. intros [(<- & <- & _)|[Hne Hl]]; [done|by apply Hj].
Qed.

Lemma thread_inv_log s log i j t : j ≠ i → thread_inv s log j t → thread_inv s (log ++ [i]) j t.
Proof.
  intros Hne. assert (j ∉ log → j ∉ log ++ [i]) as Hnot.
  { rewrite elem_of_app, list_elem_of_singleton. naive_solver. }
  unfold thread_inv. destruct (t.2) as [|c|c|[[]|]|]; try naive_solver.
  intros. apply elem_of_app. by left.
Qed.

Lemma map_inv_commit m0 ts s s' log i f p p' :
  map_inv m0 {| threads := ts; server := s |} log → ts !! i = Some (f, p) → i ∉ log → store_wf s' →
  holds s' (effect f (replayed (fst <$> ts) log m0)) →
  (∀ j t, j ≠ i → ts !! j = Some t → thread_inv s' log j t) →
  (∃ r, p' = Returned r) →
  map_inv m0 {| threads := <[i := (f, p')]> ts; server := s' |} (log ++ [i]).
Proof.
  intros [Hn Hr Hs Hh Ht] Hi Hnot Hs' Hh' Hj [r ->]. split; cbn in *.
  - apply NoDup_app. split_and!; [done| |by apply NoDup_singleton]. intros x Hx ->%list_elem_of_singleton. done.
  - apply Forall_app. rewrite length_insert. split; [done|]. repeat constructor. by eapply lookup_lt_Some.
  - done.
  - rewrite (fst_insert _ _ _ p) by done. rewrite (replayed_snoc _ _ _ f); [done|].
    by rewrite list_lookup_fmap, Hi.
  - intros j t. rewrite list_lookup_insert_Some. intros [(<- & <- & _)|[Hne Hl]].
    + unfold thread_inv. cbn. destruct r; [|done]. apply elem_of_app. right. apply list_elem_of_here.
    + apply thread_inv_log; [done|]. by apply Hj.
Qed.

(** A write of the map: the new object has a version no call has read yet. *)
Lemma write_map c s s' :
  written admission (OConfigMap c) s s' → store_wf s → object_key (OConfigMap c) = mapKey namespace →
  (s' = s ∧ objects s !! mapKey namespace = Some (OConfigMap c)) ∨
  (store_wf s' ∧ revision s ≤ revision s' ∧
   ∃ c', objects s' !! mapKey namespace = Some (OConfigMap c') ∧ rawMap c' = rawMap c ∧
     revision s < version (OConfigMap c')).
Proof.
  intros [(v & Hv & ->)|[Hsame ->]] [Hrev Hwf] Hk; rewrite Hk, Hadmit in *; [right|by left].
  split; [|split; [cbn; lia|]].
  - split; [cbn; lia|]. cbn [objects revision]. apply map_Forall_insert_2.
    + cbn. split; [exact Hk|]. unfold version. cbn. lia.
    + eapply map_Forall_impl; [exact Hwf|]. cbn. intros k o [? ?]. split; [done|lia].
  - eexists. cbn. rewrite lookup_insert_eq. split; [done|]. split; [done|]. unfold version. cbn. lia.
Qed.

Lemma thread_inv_fresh s s' log i t c' :
  thread_inv s log i t → revision s ≤ revision s' →
  objects s' !! mapKey namespace = Some (OConfigMap c') → revision s < version (OConfigMap c') →
  thread_inv s' log i t.
Proof.
  intros Ht Hrev Hc' Hv. unfold thread_inv in *. destruct (t.2) as [|c|c|[[]|]|]; try done.
  destruct Ht as (? & ? & Hle & _). split; [done|]. split; [done|]. split; [lia|].
  intros c0. rewrite Hc'. intros [= <-] ?. lia.
Qed.

Lemma holds_found s c m : objects s !! mapKey namespace = Some (OConfigMap c) →
  holds s m ↔ decodeTenantPartitionMap (rawMap c) = Ok (Some m).
Proof. intros E. unfold holds. by rewrite E. Qed.

(** Committing a write of [effect f m] over the map [m] the server held. *)
Lemma write_commit m0 ts s s' log i f p p' c :
  map_inv m0 {| threads := ts; server := s |} log → ts !! i = Some (f, p) → i ∉ log →
  written admission (OConfigMap c) s s' → object_key (OConfigMap c) = mapKey namespace →
  decodeTenantPartitionMap (rawMap c) = Ok (Some (effect f (replayed (fst <$> ts) log m0))) →
  (∃ r, p' = Returned r) →
  map_inv m0 {| threads := <[i := (f, p')]> ts; server := s' |} (log ++ [i]).
Proof.
  intros Hinv Hi Hnot Hw Hk Hd Hp'. pose proof Hinv as [Hn Hr Hs Hh Ht]. cbn in *.
  destruct (write_map _ _ _ Hw Hs Hk) as [[-> Hsame]|(Hs' & Hrev & c' & Hc' & Hraw & Hv)].
  - eapply map_inv_commit; [done..| |intros j t _; apply Ht|done]. by apply (holds_found _ c).
  - eapply map_inv_commit; [done|done|done|done| | |done].
    + apply (holds_found _ c'); [done|]. by rewrite Hraw.
    + intros j t _ Hj. eapply thread_inv_fresh; [by apply Ht|done..].
Qed.

Lemma get_step m0 ts s log i f r :
  map_inv m0 {| threads := ts; server := s |} log → ts !! i = Some (f, AtGet) → mutation_ok f →
  get_law (mapKey namespace) s r s →
  ∃ log', map_inv m0 {| threads := <[i := (f, afterGet f namespace r)]> ts; server := s |} log'.
Proof.
  intros Hinv Hi Hf [_ Hr]. pose proof Hinv as [Hn Hra Hs Hh Ht]. cbn in *.
  assert (i ∉ log) as Hnot by apply (Ht i _ Hi).
  assert (∀ p', thread_inv s log i (f, p') →
    map_inv m0 {| threads := <[i := (f, p')]> ts; server := s |} log) as Hmove.
  { intros p' Hp'. eapply map_inv_move; [done..|intros j t _; apply Ht|done]. }
  assert (∀ r0, effect f (replayed (fst <$> ts) log m0) = replayed (fst <$> ts) log m0 →
    map_inv m0 {| threads := <[i := (f, Returned r0)]> ts; server := s |} (log ++ [i])) as Hcommit.
  { intros r0 He. eapply map_inv_commit; [done..|by rewrite He|intros j t _; apply Ht|by exists r0]. }
  destruct r as [[t|c|d|v]|e]; cbn [afterGet]; try (exists log; by apply Hmove).
  - pose proof Hh as Hd. apply (holds_found _ c) in Hd; [|done].
    destruct (planWrite_cases f false c _ Hf Hd) as [[-> He]|(raw & Hraw & ->)]; [done|eauto|].
    exists log. apply Hmove. unfold thread_inv. cbn -[rawMap].
    destruct Hs as [_ Hwf]. destruct (Hwf _ _ Hr) as [Hk Hv].
    split; [done|]. split; [exact Hk|]. split; [apply Hv|]. intros c0 Hc0 _. rewrite Hr in Hc0.
    injection Hc0 as <-. eexists. split; [exact Hd|]. by rewrite rawMap_with_raw.
  - destruct (errors_Is e StatusNotFound); cbn [negb]; [|exists log; by apply Hmove].
    specialize (Hr eq_refl). unfold holds in Hh. rewrite Hr in Hh.
    destruct (planWrite_cases f true (newMap namespace) ∅) as [[-> He]|(raw & Hraw & ->)]; [done..| |].
    + exists (log ++ [i]). apply Hcommit. by rewrite Hh.
    + exists log. apply Hmove. unfold thread_inv. cbn -[rawMap]. by rewrite rawMap_with_raw.
Qed.

Lemma create_step m0 ts s log i f c r s' :
  map_inv m0 {| threads := ts; server := s |} log → ts !! i = Some (f, AtCreate c) →
  create_law admission (OConfigMap c) s r s' →
  ∃ log', map_inv m0 {| threads := <[i := (f, afterCreate r)]> ts; server := s' |} log'.
Proof.
  intros Hinv Hi Hlaw. pose proof Hinv as [Hn Hra Hs Hh Ht]. cbn in *.
  destruct (Ht i _ Hi) as (Hnot & Hk & Hd).
  assert (∀ p', created admission (OConfigMap c) s s' → (∃ r0, p' = Returned r0) →
    map_inv m0 {| threads := <[i := (f, p')]> ts; server := s' |} (log ++ [i])) as Hc.
  { intros p' [Hnone Hw] Hp'. eapply write_commit; [done..| |done].
    rewrite Hk in Hnone. unfold holds in Hh. rewrite Hnone in Hh. by rewrite Hh. }
  assert (∀ p', s' = s → thread_inv s log i (f, p') →
    map_inv m0 {| threads := <[i := (f, p')]> ts; server := s' |} log) as Hmove.
  { intros p' -> Hp'. eapply map_inv_move; [done..|intros j t _; apply Ht|done]. }
  destruct r as [o|e]; cbn in Hlaw |- *.
  - exists (log ++ [i]). apply Hc; [apply Hlaw|eauto].
  - destruct (errors_Is e StatusAlreadyExists); [exists log; apply Hmove; [apply Hlaw|done]|].
    destruct Hlaw as [E|Hcr]; [exists log; by apply Hmove|]. exists (log ++ [i]). eauto.
Qed.

Lemma update_step m0 ts s log i f c r s' :
  map_inv m0 {| threads := ts; server := s |} log → ts !! i = Some (f, AtUpdate c) →
  update_law admission keep_status (OConfigMap c) s r s' →
  ∃ log', map_inv m0 {| threads := <[i := (f, afterUpdate r)]> ts; server := s' |} log'.
Proof.
  intros Hinv Hi Hlaw. pose proof Hinv as [Hn Hra Hs Hh Ht]. cbn in *.
  destruct (Ht i _ Hi) as (Hnot & Hk & _ & Hread).
  assert (∀ p', replaced admission keep_status (OConfigMap c) s s' → (∃ r0, p' = Returned r0) →
    map_inv m0 {| threads := <[i := (f, p')]> ts; server := s' |} (log ++ [i])) as Hc.
  { intros p' (old & Hold & Hv & Hw) Hp'. rewrite Hk in Hold. unfold holds in Hh. rewrite Hold in Hh.
    destruct old as [|c0| |]; [done| |done|done]. cbn [keep_status] in Hw.
    eapply write_commit; [done..| |done].
    destruct (Hread c0 Hold) as (m & Hm & ->); [done|]. rewrite Hh in Hm. injection Hm as <-. done. }
  destruct r as [o|e]; cbn in Hlaw |- *.
  - exists (log ++ [i]). apply Hc; [apply Hlaw|eauto].
  - destruct Hlaw as [->|Hrep]; [|exists (log ++ [i]); eauto].
    exists log. eapply map_inv_move; [done..|intros j t _; apply Ht|done].
Qed.

Definition mutations_ok (sys : MapSystem) : Prop := Forall (λ t, mutation_ok t.1) (threads sys).

Lemma mutations_step sys sys' : mutations_ok sys → map_step sys sys' → mutations_ok sys'.
Proof.
  unfold mutations_ok. intros Hok Hstep.
  destruct Hstep as [f ts s Hf|ts s i f r Hi Hl|ts s i f c r s' Hi Hl|ts s i f c r s' Hi Hl|ts s s' Hwf Ho Hrev];
    cbn in *; [apply Forall_app_2; [done|by repeat constructor]|..|done];
    (apply Forall_insert; [done|]; rewrite Forall_lookup in Hok; exact (Hok _ _ Hi)).
Qed.

Lemma map_inv_step m0 sys sys' log : mutations_ok sys → map_inv m0 sys log → map_step sys sys' → ∃ log', map_inv m0 sys' log'.
Proof.
  intros Hok Hinv Hstep.
  destruct Hstep as [f ts s Hf|ts s i f r Hi Hl|ts s i f c r s' Hi Hl|ts s i f c r s' Hi Hl|ts s s' Hwf Ho Hrev];
    [|eapply get_step; [done..| |done]|by eapply create_step|by eapply update_step|];
    [|unfold mutations_ok in Hok; rewrite Forall_lookup in Hok; exact (Hok _ _ Hi)|].
  - exists log. destruct Hinv as [Hn Hr Hs Hh Ht]; cbn in *. split; cbn; [done| |done| |].
    + eapply Forall_impl; [exact Hr|]. rewrite length_app. cbn. lia.
    + rewrite fmap_app. cbn. rewrite replayed_arrive; [done|]. by rewrite length_fmap.
    + intros i t. rewrite lookup_app_Some. intros [?|[Hge Hi]]; [by apply Ht|].
      destruct (i - length ts)%nat; [injection Hi as <-|done]. cbn.
      intros Hin. rewrite Forall_forall in Hr. apply Hr in Hin. lia.
  - exists log. destruct Hinv as [Hn Hr Hs Hh Ht]; cbn in *. split; cbn; [done..| |].
    + unfold holds in *. by rewrite Ho.
    + intros i t Hi. specialize (Ht i t Hi). unfold thread_inv in *.
      destruct (t.2) as [|c|c|[[]|]|]; try done. rewrite Ho. naive_solver lia.
Qed.

(** C10. No lost update: however the passes of different tenants interleave on the
    shared map, with lost create races, version conflicts and writes whose answer
    was lost, the map the server holds is always the result of applying, one after
    the other, the mutations of some of the calls, each at most once, and every
    call that returned nil is among them; no call panics.  The map the server held at
    first is readable and not null, and reads are answered as of the server's store. *)
Theorem no_lost_updates s0 m0 sys :
  store_wf s0 → holds s0 m0 → rtc map_step {| threads := []; server := s0 |} sys →
  ∃ log, NoDup log ∧ holds (server sys) (replayed (fst <$> threads sys) log m0) ∧
    (∀ i f, threads sys !! i = Some (f, Returned (Ok tt)) → i ∈ log) ∧
    (∀ i f, threads sys !! i ≠ Some (f, Panicked)).
Proof.
  intros Hs Hh Hrtc.
  assert (mutations_ok sys ∧ ∃ log, map_inv m0 sys log) as (_ & log & [Hn _ _ Hh' Ht]).
  { apply (rtc_ind_r (λ sys, mutations_ok sys ∧ ∃ log, map_inv m0 sys log) {| threads := []; server := s0 |}) in Hrtc; [done|..].
    - split; [constructor|]. exists []. split; cbn; [constructor|constructor|done|done|done].
    - intros s1 s2 _ Hstep [Hok [log Hlog]]. split; [by eapply mutations_step|by eapply map_inv_step]. }
  exists log. split_and!; [done|done|intros i f Hi; exact (Ht _ _ Hi)|intros i f Hi; exact (Ht _ _ Hi)].
Qed.

(** *** One call that nothing interferes with *)
Lemma written_elsewhere o s s' k : written admission o s s' → k ≠ object_key o → objects s' !! k = objects s !! k.
Proof. intros [(v & _ & ->)|[_ ->]] Hk; [cbn; by rewrite lookup_insert_ne|done]. Qed.

Lemma write_holds c s s' m :
  written admission (OConfigMap c) s s' → store_wf s → object_key (OConfigMap c) = mapKey namespace →
  decodeTenantPartitionMap (rawMap c) = Ok (Some m) →
  store_wf s' ∧ holds s' m ∧ ∀ k, k ≠ mapKey namespace → objects s' !! k = objects s !! k.
Proof.
  intros Hw Hs Hk Hd. split_and!; [..|intros k Hne; eapply written_elsewhere; [done|by rewrite Hk]];
    destruct (write_map _ _ _ Hw Hs Hk) as [[-> Hsame]|(Hs' & _ & c' & Hc' & Hraw & _)]; try done.
  - by apply (holds_found _ c).
  - apply (holds_found _ c'); [done|]. by rewrite Hraw.
Qed.

Lemma drive_returned {W} `{!KubeClient W} n f r (w : W) : drive n f namespace (Returned r) w = (Returned r, w).
Proof. by induction n as [|n IH]. Qed.

(** What is left after a call: the map it had or the mutated one. *)
Definition moved (f : mutation) (m : gmap string tenantPartitionEntry) (p : point) (s : Store) : Prop :=
  match p with
  | Returned (Ok _) => holds s (effect f m)
  | Returned (Err _) => holds s m ∨ holds s (effect f m)
  | _ => False
  end.

Section alone.
Context {W : Type} `{!KubeClient W} (view : W → View) `{Kl : !KubeLaws W view admission}.

(** The objects a call is about to write are the map, read from the server or new. *)
Definition point_ok (p : point) : Prop :=
  match p with
  | AtCreate c => object_key (OConfigMap c) = mapKey namespace
  | AtUpdate c => object_key (OConfigMap c) = mapKey namespace ∧ version (OConfigMap c) ≠ 0
  | _ => True
  end.

Lemma planWrite_ok f notFound c : object_key (OConfigMap c) = mapKey namespace →
  (notFound = false → version (OConfigMap c) ≠ 0) → point_ok (planWrite f notFound c).
Proof.
  intros Hk Hv. unfold planWrite. destruct (decodeTenantPartitionMap _) as [m|]; [|done].
  destruct (mutate f m) as [m'|]; [|done]. destruct (marshal_map m') as [raw|]; [|done].
  destruct notFound; cbn [andb negb]; case_bool_decide; try done. split; [done|]. by apply Hv.
Qed.

Lemma map_written_frame c s s' : written admission (OConfigMap c) s s' → store_wf s →
  object_key (OConfigMap c) = mapKey namespace → frame [mapKey namespace] s s'.
Proof.
  intros Hw Hwf Hk. split.
  - by destruct (write_map _ _ _ Hw Hwf Hk) as [[-> _]|(? & _)].
  - intros k Hne. eapply written_elsewhere; [done|]. rewrite Hk. intros ->. apply Hne, list_elem_of_here.
Qed.

(** One API call, whatever it reads: only the map may change. *)
Lemma advance_frame f p w : store_wf (live (view w)) → point_ok p →
  point_ok (advance f namespace p w).1 ∧
  frame [mapKey namespace] (live (view w)) (live (view (advance f namespace p w).2)) ∧
  missed (view w) ⊆ missed (view (advance f namespace p w).2).
Proof.
  intros Hwf Hp. destruct p as [|c|c| |]; cbn in Hp |- *; [..|by split_and!|by split_and!].
  - pose proof (kGet_law (mapKey namespace) w) as Hl. destruct (kGet _ w) as [r w1]. cbn in Hl |- *.
    assert (∀ o, r = Ok o → object_key o = mapKey namespace ∧ version o ≠ 0) as Hr.
    { intros o ->. destruct Hl as [[[_ Ho] _]|[_ (Hk & Hv & _)]]; [|split; [done|lia]].
      destruct (proj2 Hwf _ _ Ho) as [Hk Hv]. split; [done|lia]. }
    split.
    + destruct r as [[t|c|d|v]|e]; cbn [afterGet]; try done.
      * destruct (Hr _ eq_refl). by apply planWrite_ok.
      * destruct (errors_Is e StatusNotFound); [|done]. by apply planWrite_ok.
    + destruct Hl as [[[-> _] ->]|[-> _]]; cbn; (split; [by split|set_solver]).
  - pose proof (kCreate_law (OConfigMap c) w) as [Hl Hm]. destruct (kCreate _ w) as [r w1]. cbn in Hl, Hm |- *.
    rewrite Hm. split_and!; [|destruct r as [o|e]; cbn in Hl|done].
    + destruct r as [o|e]; cbn; [done|]. by destruct (errors_Is e StatusAlreadyExists).
    + destruct Hl as [[_ Hw] _]. by eapply map_written_frame.
    + destruct (errors_Is e StatusAlreadyExists); [destruct Hl as [-> _]; by split|].
      destruct Hl as [->|[_ Hw]]; [by split|by eapply map_written_frame].
  - destruct Hp as [Hk Hv]. pose proof (kUpdate_law (OConfigMap c) w Hv) as [Hl Hm].
    destruct (kUpdate _ w) as [r w1]. cbn in Hl, Hm |- *. rewrite Hm.
    assert (replaced admission keep_status (OConfigMap c) (live (view w)) (live (view w1)) →
      frame [mapKey namespace] (live (view w)) (live (view w1))) as Hrep.
    { intros (old & _ & _ & Hw). eapply map_written_frame; [|done|done]. by destruct old. }
    split_and!; [by destruct r|destruct r; cbn in Hl|done].
    + apply Hrep, Hl.
    + destruct Hl as [->|Hl]; [by split|by apply Hrep].
Qed.

Lemma drive_frame n f p w : store_wf (live (view w)) → point_ok p →
  frame [mapKey namespace] (live (view w)) (live (view (drive n f namespace p w).2)) ∧
  missed (view w) ⊆ missed (view (drive n f namespace p w).2).
Proof.
  revert p w. induction n as [|n IH]; intros p w Hwf Hp; cbn [drive]; [split; [by split|done]|].
  pose proof (advance_frame f p w Hwf Hp) as (Hp1 & Hf1 & Hm1). destruct (advance f namespace p w) as [p1 w1].
  cbn in Hp1, Hf1, Hm1. destruct (IH p1 w1 (proj1 Hf1) Hp1) as [Hf2 Hm2].
  split; [by eapply frame_trans|set_solver].
Qed.

(** From an up-to-date read on: the write of the mutated map, if one is needed. *)
Lemma update_planned n f c m w : mutation_ok f → store_wf (live (view w)) →
  objects (live (view w)) !! mapKey namespace = Some (OConfigMap c) → holds (live (view w)) m →
  let '(p, w') := drive (S n) f namespace (planWrite f false c) w in moved f m p (live (view w')).
Proof.
  intros Hf Hs Hr Hh. pose proof Hh as Hd. apply (holds_found _ c) in Hd; [|done].
  destruct (planWrite_cases f false c _ Hf Hd) as [[-> He]|(raw & Hraw & ->)]; [done|..].
  { rewrite drive_returned. cbn. by rewrite He. }
  cbn [drive advance]. destruct (proj2 Hs _ _ Hr) as [Hk Hver].
  pose proof (kUpdate_law (OConfigMap (with_raw raw c)) w ltac:(unfold version in *; cbn in *; lia)) as [Hu _].
  destruct (kUpdate _ w) as [r2 w2]. cbn [fst snd] in Hu.
  assert (replaced admission keep_status (OConfigMap (with_raw raw c)) (live (view w)) (live (view w2)) →
    holds (live (view w2)) (effect f m)) as Hrep.
  { intros (old & Hold & _ & Hw).
    replace (keep_status old (OConfigMap (with_raw raw c))) with (OConfigMap (with_raw raw c)) in Hw
      by (by destruct old).
    destruct (write_holds _ _ _ (effect f m) Hw Hs Hk) as (? & ? & ?); [by rewrite rawMap_with_raw|done]. }
  destruct r2 as [o|e]; cbn in Hu |- *; rewrite drive_returned; cbn; [by apply Hrep, Hu|].
  destruct Hu as [->|Hu]; [by left|right; by apply Hrep].
Qed.

Lemma create_planned n f w : mutation_ok f → store_wf (live (view w)) →
  objects (live (view w)) !! mapKey namespace = None →
  let '(p, w') := drive (S n) f namespace (planWrite f true (newMap namespace)) w in moved f ∅ p (live (view w')).
Proof.
  intros Hf Hs Hr.
  destruct (planWrite_cases f true (newMap namespace) ∅) as [[-> He]|(raw & Hraw & ->)]; [done..| |].
  { rewrite drive_returned. cbn. unfold holds. by rewrite Hr, He. }
  cbn [drive advance]. set (c := with_raw raw (newMap namespace)).
  pose proof (kCreate_law (OConfigMap c) w) as [Hc _]. destruct (kCreate _ w) as [r2 w2]. cbn [fst snd] in Hc.
  assert (created admission (OConfigMap c) (live (view w)) (live (view w2)) →
    holds (live (view w2)) (effect f ∅)) as Hcr.
  { intros [_ Hw]. destruct (write_holds _ _ _ (effect f ∅) Hw Hs eq_refl) as (? & ? & ?);
      [by unfold c; rewrite rawMap_with_raw|done]. }
  destruct r2 as [o|e2]; cbn in Hc |- *; [rewrite drive_returned; by apply Hcr, Hc|].
  destruct (errors_Is e2 StatusAlreadyExists); [destruct Hc as [_ [o Ho]]|].
  { change (object_key (OConfigMap c)) with (mapKey namespace) in Ho. congruence. }
  rewrite drive_returned. cbn. destruct Hc as [->|Hu]; [left|right; by apply Hcr].
  unfold holds. by rewrite Hr.
Qed.

(** Whatever is planned from a readable map needs one API call at most. *)
Lemma planned_returns n f notFound c m w : decodeTenantPartitionMap (rawMap c) = Ok (Some m) →
  (notFound = true → objects (live (view w)) !! object_key (OConfigMap c) = None) →
  ∃ r, (drive (S n) f namespace (planWrite f notFound c) w).1 = Returned r.
Proof.
  intros Hd Hn. unfold planWrite. rewrite Hd, mutate_effect. unfold marshal_map. cbn [default].
  destruct notFound; cbn [andb negb]; case_bool_decide; try (rewrite drive_returned; by eexists); cbn [drive advance].
  - match goal with |- context [kCreate (OConfigMap ?c0) w] => pose proof (kCreate_law (OConfigMap c0) w) as [Hl _] end.
    destruct (kCreate _ w) as [[o|e] w1]; cbn in Hl |- *; [rewrite drive_returned; by eexists|].
    destruct (errors_Is e StatusAlreadyExists); [|rewrite drive_returned; by eexists].
    destruct Hl as [_ [o Ho]]. specialize (Hn eq_refl). unfold object_key in *. cbn in *. congruence.
  - destruct (kUpdate _ w) as [[o|e] w1]; cbn; rewrite drive_returned; by eexists.
Qed.

(** A call that nothing interferes with touches the map only, and either its read
    was out of date or it returns within two API calls, having applied its
    mutation if it returned nil. *)
Lemma mutateTenantPartitionMap_spec n f w m :
  store_wf (live (view w)) → holds (live (view w)) m →
  let '(p, w') := mutateTenantPartitionMap (S (S n)) namespace f w in
  frame [mapKey namespace] (live (view w)) (live (view w')) ∧ missed (view w) ⊆ missed (view w') ∧
  (mapKey namespace ∈ missed (view w') ∨
   (∃ r, p = Returned r) ∧ (mutation_ok f → moved f m p (live (view w')))).
Proof.
  intros Hs Hh. unfold mutateTenantPartitionMap.
  pose proof (drive_frame (S (S n)) f AtGet w Hs I) as [Hfr Hm].
  pose proof (kGet_law (mapKey namespace) w) as Hl. cbn [drive advance] in Hfr, Hm |- *.
  destruct (kGet (mapKey namespace) w) as [r w1]. cbn [fst snd] in Hl.
  change (let '(p, w) := advance f namespace (afterGet f namespace r) w1 in drive n f namespace p w)
    with (drive (S n) f namespace (afterGet f namespace r) w1) in *.
  destruct Hl as [[[Hv Hr] _]|[Hv Hst]].
  - assert ((∃ r0, (drive (S n) f namespace (afterGet f namespace r) w1).1 = Returned r0) ∧
      (mutation_ok f → let '(p, w') := drive (S n) f namespace (afterGet f namespace r) w1 in
         moved f m p (live (view w')))) as Hmv.
    { rewrite <-Hv in Hs, Hh, Hr. destruct r as [[t|c|d|v]|e]; cbn [afterGet];
        try (rewrite drive_returned; split; [by eexists|by left]).
      - split; [|intros Hf; by eapply update_planned].
        eapply planned_returns; [by apply (holds_found (live (view w1)) c)|done].
      - destruct (errors_Is e StatusNotFound); cbn [negb]; [|rewrite drive_returned; split; [by eexists|by left]].
        specialize (Hr eq_refl). pose proof Hh as Hh'. unfold holds in Hh'. rewrite Hr in Hh'. subst m.
        split; [by apply planned_returns with (m := ∅)|intros Hf; by apply create_planned]. }
    destruct (drive (S n) f namespace (afterGet f namespace r) w1) as [p w']. auto.
  - assert (point_ok (afterGet f namespace r)) as Hp.
    { destruct r as [[t|c|d|v]|e]; cbn [afterGet]; try done.
      - destruct Hst as (Hk & Hver & _). apply planWrite_ok; [done|]. intros _. lia.
      - destruct (errors_Is e StatusNotFound); [|done]. by apply planWrite_ok. }
    pose proof (drive_frame (S n) f (afterGet f namespace r) w1) as Hd. rewrite Hv in Hd. cbn [live missed] in Hd.
    specialize (Hd Hs Hp) as [_ Hm1].
    destruct (drive (S n) f namespace (afterGet f namespace r) w1) as [p w']. cbn in *.
    split; [done|]. split; [done|]. left. apply Hm1, elem_of_union. left. by apply elem_of_singleton.
Qed.
End alone.
End concurrent.
End map.

(** ** Witnesses *)
Definition emptyStore : Store := {| objects := ∅; revision := 0 |}.

Definition acmeEntry : mutation := SetEntry "acme" {| eStart := 4; eCount := 2 |}.

(** The map with one entry, as it is created. *)
Definition acmeMap : ConfigMap :=
  match planWrite acmeEntry true (newMap "prod") with AtCreate c => c | _ => newMap "" end.

Lemma no_lost_updates_witness : ∃ s log, NoDup log ∧
  holds "prod" s (replayed [acmeEntry] log ∅) ∧ 0%nat ∈ log.
Proof.
  destruct (no_lost_updates (λ o, o) "prod" (λ c, eq_refl) emptyStore ∅
    {| threads := [(acmeEntry, Returned (Ok tt))];
       server := {| objects := {[ mapKey "prod" := set_version 1 (OConfigMap acmeMap) ]}; revision := 1 |} |})
    as (log & Hn & Hh & Hin & _).
  - split; [done|apply map_Forall_empty].
  - reflexivity.
  - eapply rtc_l; [apply (step_arrive _ _ acmeEntry); vm_compute; intuition congruence|].
    eapply rtc_l; [apply (step_get _ _ _ _ 0 acmeEntry (Err (Sentinel StatusNotFound)));
      [reflexivity|split; [reflexivity|intros _; reflexivity]]|].
    eapply rtc_l; [apply (step_create _ _ _ _ 0 acmeEntry acmeMap (Ok (set_version 1 (OConfigMap acmeMap))));
      [reflexivity|]|apply rtc_refl].
    split; [split; [reflexivity|left; exists 1; split; reflexivity]|reflexivity].
  - eexists _, log. split; [exact Hn|]. split; [exact Hh|]. by eapply (Hin 0%nat acmeEntry).
Defined.

(** A map whose payload is the JSON null decodes to a nil Go map, and publishing an
    entry into it panics. *)
Example null_map_panics :
  planWrite acmeEntry false (with_raw "null" (newMap "prod")) = Panicked.
Proof. reflexivity. Qed.
