(* ===== verification/MapContract.v ===== *)
(** * The partition map between the operator and the services

    operator/internal/controller/tenant_partition_map.go writes the map;
    internal/ingestion/kafka/reload.go and internal/processor/kafka/reload.go read
    it from the file the ConfigMap is mounted as.  Each declares its own entry type:
    the theorem is that the three agree on every map. *)
From S2P Require Import Prelude GoUnmarshal Partitioner ProcessorReload Kube PartitionMap.

Definition processorEntry (e : tenantPartitionEntry) : ProcessorReload.tenantPartitionMapEntry :=
  {| ProcessorReload.Start := eStart e; ProcessorReload.Count := eCount e |}.
Definition ingestionEntry (e : tenantPartitionEntry) : Partitioner.tenantPartitionMapEntry :=
  {| Partitioner.Start := eStart e; Partitioner.Count := eCount e |}.

(** One bad count and the ingestion service refuses the whole map. *)
Lemma reservedCounts_cases l reserved :
  reservedCounts l reserved =
    if forallb (λ p, 1 <=? Partitioner.Count p.2) l
    then Ok (fold_left (λ m p, <[p.1 := Partitioner.Count p.2]> m) l reserved)
    else Err (Errorf "parse tenant partition map %q: tenant %q count %d must be >= 1").
Proof.
  revert reserved. induction l as [|[t e] l IH]; intros reserved; cbn; [done|].
  destruct (Z.ltb_spec (Partitioner.Count e) 1), (Z.leb_spec 1 (Partitioner.Count e)); try lia; [done|]. by rewrite IH.
Qed.

Lemma fold_counts (l : list (string * Partitioner.tenantPartitionMapEntry)) (m : gmap string Z) : NoDup l.*1 →
  fold_left (λ m p, <[p.1 := Partitioner.Count p.2]> m) l m = (Partitioner.Count <$> list_to_map l) ∪ m.
Proof.
  revert m. induction l as [|[t e] l IH]; intros m Hnd.
  { change (list_to_map []) with (∅ : gmap string Partitioner.tenantPartitionMapEntry). by rewrite fmap_empty, (left_id_L ∅ (∪)). }
  rewrite fmap_cons in Hnd. apply NoDup_cons in Hnd as [Hn Hnd]. cbn [fold_left fst snd]. rewrite IH by done.
  cbn [list_to_map foldr fst snd]. change (foldr (λ p, <[p.1 := p.2]>) ∅ l) with (list_to_map l : gmap string Partitioner.tenantPartitionMapEntry).
  rewrite fmap_insert, <-insert_union_l, insert_union_r; [done|]. rewrite lookup_fmap, not_elem_of_list_to_map_1; done.
Qed.

(** Every tenant's count is at least one. *)
Definition counts_positive (m : gmap string tenantPartitionEntry) : Prop := map_Forall (λ _ e, 1 ≤ eCount e) m.

Section contract.
Context (ReadFile : string → result string) (Path : string).
Context (ranged : gmap string Partitioner.tenantPartitionMapEntry → list (string * Partitioner.tenantPartitionMapEntry))
  (Hranged : ∀ m, ranged m ≡ₚ map_to_list m).

Lemma ingestion_counts m :
  reservedCounts (ranged (ingestionEntry <$> m)) ∅ =
    if bool_decide (counts_positive m) then Ok (eCount <$> m)
    else Err (Errorf "parse tenant partition map %q: tenant %q count %d must be >= 1").
Proof.
  rewrite reservedCounts_cases, fold_counts by (rewrite Hranged; apply NoDup_fst_map_to_list).
  assert (forallb (λ p, 1 <=? Partitioner.Count p.2) (ranged (ingestionEntry <$> m)) = bool_decide (counts_positive m)) as ->.
  { apply eq_iff_eq_true. rewrite bool_decide_eq_true, forallb_forall. unfold counts_positive, map_Forall. split.
    - intros H t e Ht. specialize (H (t, ingestionEntry e)). apply Z.leb_le. apply H. apply list_elem_of_In. rewrite Hranged.
      apply elem_of_map_to_list. by rewrite lookup_fmap, Ht.
    - intros H [t e] Hin%list_elem_of_In. rewrite Hranged, elem_of_map_to_list, lookup_fmap in Hin.
      apply fmap_Some in Hin as (e' & He & ->). apply Z.leb_le. by eapply (H t e'). }
  case_bool_decide; [|done]. f_equal. rewrite (right_id_L ∅ (∪)).
  rewrite (list_to_map_proper (ranged (ingestionEntry <$> m)) (map_to_list (ingestionEntry <$> m)));
    [|rewrite Hranged; apply NoDup_fst_map_to_list|apply Hranged].
  rewrite list_to_map_to_list, <-map_fmap_compose. done.
Qed.

(** C11. The services read the map the operator holds: whenever the file is the
    ConfigMap's payload, a dedicated processor loads exactly the ranges of the map
    the operator holds, and the ingestion service exactly its counts, unless some
    tenant's count is below one, when it refuses the whole map.  The payload is not
    empty, as no payload the operator writes is. *)
Theorem services_read_operator_map namespace s c m :
  objects s !! mapKey namespace = Some (OConfigMap c) → holds namespace s m →
  ReadFile Path = Ok (rawMap c) → rawMap c ≠ "" →
  ProcessorReload.FileTenantPartitionSource_Load ReadFile Path = Ok (processorEntry <$> m) ∧
  Partitioner.FileTenantPartitionSource_Load ReadFile ranged Path =
    if bool_decide (counts_positive m) then Ok (eCount <$> m)
    else Err (Errorf "parse tenant partition map %q: tenant %q count %d must be >= 1").
Proof.
  intros Hc Hh HR Hne. unfold holds in Hh. rewrite Hc in Hh. unfold decodeTenantPartitionMap in Hh.
  rewrite bool_decide_eq_false_2 in Hh by done. unfold unmarshal_map in Hh.
  unfold ProcessorReload.FileTenantPartitionSource_Load, Partitioner.FileTenantPartitionSource_Load. rewrite HR. cbn.
  rewrite (unmarshalMap_sim processorEntry entryFields ProcessorReload.entryFields ltac:(by repeat constructor) zeroEntry).
  rewrite (unmarshalMap_sim ingestionEntry entryFields Partitioner.entryFields ltac:(by repeat constructor) zeroEntry), Hh. cbn.
  split; [done|]. apply ingestion_counts.
Qed.
End contract.

(** ** Witness *)
Lemma services_read_operator_map_witness :
  let m := {[ "acme" := {| eStart := 4; eCount := 2 |} ]} in
  ProcessorReload.FileTenantPartitionSource_Load (λ _, Ok (rawMap acmeMap)) "mapping.json" = Ok (processorEntry <$> m) ∧
  Partitioner.FileTenantPartitionSource_Load (λ _, Ok (rawMap acmeMap)) map_to_list "mapping.json" =
    if bool_decide (counts_positive m) then Ok (eCount <$> m)
    else Err (Errorf "parse tenant partition map %q: tenant %q count %d must be >= 1").
Proof.
  refine (services_read_operator_map (λ _, Ok (rawMap acmeMap)) "mapping.json" map_to_list (λ m, reflexivity _) "prod"
    {| objects := {[ mapKey "prod" := OConfigMap acmeMap ]}; revision := 1 |} acmeMap _ _ _ _ _).
  - apply lookup_singleton_eq.
  - vm_compute. reflexivity.
  - reflexivity.
  - vm_compute. congruence.
Defined.
