(* ===== verification/Operator.v ===== *)
(** * The operator (operator/internal/controller)

    The TradingTenant reconcile pass: classification of the observed lag and
    latency, the isolation flag, the dedicated pool's four objects, the shared
    partition map and the status write, over any lawful Kubernetes client and any
    observer.  The per-call deadlines show as errors the client may return; reads may
    be answered from a cache that lags behind ([missed]); a panic and a partition map
    call that needs more than its budget of API calls are outcomes of their own. *)
From S2P Require Import Prelude GoStrings GoUtf8 GoTime EnvConfig Wire ProcessorReload Kube PartitionMap.

(** ** Classification (tradingtenant_controller.go) *)
Record reconcileDecision := {
  dState : string;
  dReplicas : Z;
  setDedicatedNodePool : bool
}.

Definition clampReplicas (value minimum maximum : Z) : Z :=
  if value <? minimum then minimum else if maximum <? value then maximum else value.

Definition classify (spec : TradingTenantSpec) (baseline : Z) (alreadyIsolated : bool)
    (lag p99Ms partitionCount : Z) : reconcileDecision :=
  let lagHigh := KafkaLagThreshold (Scaling spec) <? lag in
  let latencyHigh := P99LatencyThresholdMs (Scaling spec) <? p99Ms in
  if lagHigh && latencyHigh then
    {| dState := TradingTenantStateScaling; dReplicas := MaxReplicas spec; setDedicatedNodePool := false |}
  else if lagHigh && negb latencyHigh && (baseline <? partitionCount) then
    let target := if partitionCount <? MaxReplicas spec then partitionCount else MaxReplicas spec in
    {| dState := TradingTenantStateScaling;
       dReplicas := clampReplicas target (MinReplicas spec) (MaxReplicas spec);
       setDedicatedNodePool := false |}
  else if lagHigh && negb latencyHigh then
    {| dState := TradingTenantStateIsolated; dReplicas := baseline; setDedicatedNodePool := true |}
  else if negb lagHigh && latencyHigh then
    {| dState := TradingTenantStateDegraded; dReplicas := baseline; setDedicatedNodePool := false |}
  else
    {| dState := if alreadyIsolated then TradingTenantStateIsolated else TradingTenantStateStable;
       dReplicas := baseline; setDedicatedNodePool := false |}.

Definition EventTypeNormal : string := "Normal".
Definition EventTypeWarning : string := "Warning".

Definition eventTypeForState (state : string) : string :=
  if bool_decide (state = TradingTenantStateIsolated) || bool_decide (state = TradingTenantStateDegraded)
  then EventTypeWarning else EventTypeNormal.

Definition reasonDedicatedPoolCreated : string := "DedicatedPoolCreated".
Definition reasonDedicatedPoolProvisioned : string := "DedicatedPoolProvisioned".
Definition reasonDedicatedPoolTornDown : string := "DedicatedPoolTornDown".
Definition defaultTenantLabelName : string := "tenant".

Definition isolationTransitionReasons : list string :=
  [TradingTenantStateStable; TradingTenantStateScaling; TradingTenantStateIsolated; TradingTenantStateDegraded;
   reasonDedicatedPoolCreated; reasonDedicatedPoolProvisioned; reasonDedicatedPoolTornDown].

(** ** The dedicated pool (dedicated_pool.go) *)
Record TradingTenantReconciler := {
  TenantLabelName : string;
  RequeueInterval : Z;
  withMetrics : bool;                  (* Metrics != nil *)
  withRecorder : bool;                 (* Recorder != nil *)
  IngestionImage : string;
  ProcessorImage : string;
  IngestionEnvFrom : list string;
  ProcessorEnvFrom : list string;
  DedicatedNodeSelector : gmap string string;
  DedicatedTolerations : list Toleration
}.

Definition componentIngestion : string := "ingestion".
Definition componentProcessor : string := "processor".
Definition labelTenant : string := "controlplane.anwinsenp.dev/tenant".
Definition labelDedicated : string := "controlplane.anwinsenp.dev/dedicated".
Definition labelComponent : string := "controlplane.anwinsenp.dev/component".
Definition ingestionHTTPPort : Z := 8080.
Definition ingestionGRPCPort : Z := 9090.
Definition tenantPartitionMapVolumeName : string := "tenant-partition-map".
Definition tenantPartitionMapMountDir : string := "/etc/tenant-partition-map".
Definition tenantPartitionMapMountPath : string := tenantPartitionMapMountDir +:+ "/" +:+ tenantPartitionMapDataKey.

Definition tenantPartitionMapVolume : Volume :=
  {| vName := tenantPartitionMapVolumeName; vConfigMap := tenantPartitionMapName; vOptional := true;
     vDefaults := "" |}.
Definition tenantPartitionMapVolumeMount : string * string * bool :=
  (tenantPartitionMapVolumeName, tenantPartitionMapMountDir, true).

Definition dedicatedIngestionName (tenant : TradingTenant) : string := Name (tMeta tenant) +:+ "-dedicated-ingestion".
Definition dedicatedProcessorName (tenant : TradingTenant) : string := Name (tMeta tenant) +:+ "-dedicated-processor".
Definition dedicatedServiceName (tenant : TradingTenant) : string := Name (tMeta tenant) +:+ "-dedicated".
Definition dedicatedConfigMapName (tenant : TradingTenant) : string := Name (tMeta tenant) +:+ "-dedicated-partitions".

Definition dedicatedLabels (tenant : TradingTenant) (component : string) : gmap string string :=
  let labels := <[labelDedicated := "true"]> {[ labelTenant := sTenantID (Spec tenant) ]} in
  if bool_decide (component = "") then labels else <[labelComponent := component]> labels.

Definition partitionListString (start count : Z) : string :=
  if count <=? 0 then ""
  else Join ((λ index, Itoa (int32 (start + Z.of_nat index))) <$> seq 0 (Z.to_nat count)) ","%char.

Definition with_labels (labels : gmap string string) (m : ObjectMeta) : ObjectMeta :=
  {| Name := Name m; Namespace := Namespace m; Labels := labels; Controller := Controller m;
     Finalizers := Finalizers m; Deleting := Deleting m; ResourceVersion := ResourceVersion m |}.

(** ObjectMeta{Name: name, Namespace: tenant.Namespace} *)
Definition metaOf (tenant : TradingTenant) (name : string) : ObjectMeta :=
  {| Name := name; Namespace := Namespace (tMeta tenant); Labels := ∅; Controller := None;
     Finalizers := []; Deleting := false; ResourceVersion := 0 |}.

Definition emptyDeployment (m : ObjectMeta) : Deployment :=
  {| dMeta := m; Selector := None; Replicas := None; TemplateLabels := ∅; NodeSelector := ∅; Tolerations := [];
     Volumes := []; Containers := []; dDefaults := "" |}.

(** How a run of Go code ends: it returns, it panics, or it is still running when
    the budget of API calls it was given is used up. *)
Inductive outcome (A : Type) :=
  | Done (res : result A)
  | Panic
  | OutOfCalls.
Arguments Done {A} res.
Arguments Panic {A}.
Arguments OutOfCalls {A}.

(** Code that threads a world. *)
Definition andThen {S A B} (m : S → outcome A * S) (f : A → S → outcome B * S) (s : S) : outcome B * S :=
  let '(o, s) := m s in
  match o with
  | Done (Ok a) => f a s
  | Done (Err e) => (Done (Err e), s)
  | Panic => (Panic, s)
  | OutOfCalls => (OutOfCalls, s)
  end.

Declare Scope call_scope.
Delimit Scope call_scope with call.
Notation "'let!' x ':=' m 'in' k" := (andThen m (λ x, k%call))
  (at level 10, x pattern, m at level 100, k at level 200) : call_scope.

Definition ret {S A} (a : A) (s : S) : outcome A * S := (Done (Ok a), s).

Definition call {S A} (m : S → result A * S) (s : S) : outcome A * S := let '(res, s) := m s in (Done res, s).

(** if err != nil { return fmt.Errorf("msg: %w", err) } *)
Definition orWrap {S A} (msg : string) (m : S → outcome A * S) (s : S) : outcome A * S :=
  let '(o, s) := m s in
  (match o with Done res => Done (wrap_err msg res) | o => o end, s).

Definition wrongKind {A} : result A := Err (Errorf "object of another kind").

Section operator.
Context {W : Type} `{Kc : !KubeClient W}.
Context (r : TradingTenantReconciler).

(** *** The mutate callbacks *)
Definition mutateConfigMap (tenant : TradingTenant) (partitionStart partitionCount : Z) (o : Object) : result Object :=
  match o with
  | OConfigMap c =>
      m ← wrap_err "set controller reference: %w" (SetControllerReference tenant (cMeta c));
      Ok (OConfigMap {| cMeta := with_labels (dedicatedLabels tenant "") m;
                        Data := <["TENANT_ID" := sTenantID (Spec tenant)]>
                                {[ "KAFKA_MANUAL_PARTITIONS" := partitionListString partitionStart partitionCount ]} |})
  | _ => wrongKind
  end.

(** The two Deployments differ in their labels and container. *)
Definition mutateDeployment (tenant : TradingTenant) (component : string) (container : Container) (replicas : Z)
    (o : Object) : result Object :=
  match o with
  | ODeployment d =>
      m ← wrap_err "set controller reference: %w" (SetControllerReference tenant (dMeta d));
      let labels := dedicatedLabels tenant component in
      Ok (ODeployment {| dMeta := with_labels labels m;
                         Selector := Some (default labels (Selector d));
                         Replicas := Some replicas; TemplateLabels := labels;
                         NodeSelector := DedicatedNodeSelector r; Tolerations := DedicatedTolerations r;
                         Volumes := [tenantPartitionMapVolume]; Containers := [container];
                         dDefaults := dDefaults d |})
  | _ => wrongKind
  end.

Definition mutateService (tenant : TradingTenant) (o : Object) : result Object :=
  match o with
  | OService s =>
      m ← wrap_err "set controller reference: %w" (SetControllerReference tenant (svcMeta s));
      Ok (OService {| svcMeta := with_labels (dedicatedLabels tenant "") m;
                      svcSelector := dedicatedLabels tenant componentIngestion;
                      svcPorts := [{| pName := "http"; Port := ingestionHTTPPort; TargetPort := ingestionHTTPPort;
                                      pDefaults := "" |};
                                   {| pName := "grpc"; Port := ingestionGRPCPort; TargetPort := ingestionGRPCPort;
                                      pDefaults := "" |}];
                      svcDefaults := svcDefaults s |})
  | _ => wrongKind
  end.

Definition ingestionContainer : Container :=
  {| cName := "ingestion"; Image := IngestionImage r; EnvFrom := IngestionEnvFrom r;
     Env := [("TENANT_PARTITION_MAP_PATH", tenantPartitionMapMountPath)];
     VolumeMounts := [tenantPartitionMapVolumeMount];
     Ports := [("http", ingestionHTTPPort); ("grpc", ingestionGRPCPort)]; cDefaults := "" |}.

Definition processorContainer (tenant : TradingTenant) : Container :=
  {| cName := "processor"; Image := ProcessorImage r;
     EnvFrom := ProcessorEnvFrom r ++ [dedicatedConfigMapName tenant];
     Env := [("TENANT_PARTITION_MAP_PATH", tenantPartitionMapMountPath)];
     VolumeMounts := [tenantPartitionMapVolumeMount]; Ports := []; cDefaults := "" |}.

(** *** The four get-or-creates *)
Definition ensureDedicatedConfigMap (tenant : TradingTenant) (partitionStart partitionCount : Z)
    : W → result OperationResult * W :=
  CreateOrUpdate (OConfigMap {| cMeta := metaOf tenant (dedicatedConfigMapName tenant); Data := ∅ |})
    (mutateConfigMap tenant partitionStart partitionCount).

Definition ensureDedicatedIngestionDeployment (tenant : TradingTenant) (replicas : Z)
    : W → result OperationResult * W :=
  CreateOrUpdate (ODeployment (emptyDeployment (metaOf tenant (dedicatedIngestionName tenant))))
    (mutateDeployment tenant componentIngestion ingestionContainer replicas).

Definition ensureDedicatedProcessorDeployment (tenant : TradingTenant) (replicas : Z)
    : W → result OperationResult * W :=
  CreateOrUpdate (ODeployment (emptyDeployment (metaOf tenant (dedicatedProcessorName tenant))))
    (mutateDeployment tenant componentProcessor (processorContainer tenant) replicas).

Definition ensureDedicatedService (tenant : TradingTenant) : W → result OperationResult * W :=
  CreateOrUpdate (OService {| svcMeta := metaOf tenant (dedicatedServiceName tenant); svcSelector := ∅;
                              svcPorts := []; svcDefaults := "" |})
    (mutateService tenant).

Definition createdBy (op : OperationResult) : bool := bool_decide (op = OperationResultCreated).

Definition ensureDedicatedPool (tenant : TradingTenant) (partitionStart partitionCount replicas : Z)
    : W → outcome bool * W :=
  (let! configMapResult :=
     orWrap "dedicated configmap: %w" (call (ensureDedicatedConfigMap tenant partitionStart partitionCount)) in
   let! ingestionResult :=
     orWrap "dedicated ingestion deployment: %w" (call (ensureDedicatedIngestionDeployment tenant replicas)) in
   let! processorResult :=
     orWrap "dedicated processor deployment: %w" (call (ensureDedicatedProcessorDeployment tenant replicas)) in
   let! serviceResult := orWrap "dedicated service: %w" (call (ensureDedicatedService tenant)) in
   ret (createdBy configMapResult || createdBy ingestionResult || createdBy processorResult ||
        createdBy serviceResult))%call.

(** The objects tearDownDedicatedPool deletes, in order. *)
Definition dedicatedKeys (tenant : TradingTenant) : list (Kind * string * string) :=
  let namespace := Namespace (tMeta tenant) in
  [(KDeployment, namespace, dedicatedIngestionName tenant);
   (KDeployment, namespace, dedicatedProcessorName tenant);
   (KService, namespace, dedicatedServiceName tenant);
   (KConfigMap, namespace, dedicatedConfigMapName tenant)].

Fixpoint deleteAll (keys : list (Kind * string * string)) (anyDeleted : bool) (w : W) : result bool * W :=
  match keys with
  | [] => (Ok anyDeleted, w)
  | k :: keys =>
      let '(res, w) := kDelete k w in
      match res with
      | Ok _ => deleteAll keys true w
      | Err err =>
          if errors_Is err StatusNotFound then deleteAll keys anyDeleted w
          else (Err (Wrapf "delete %T %s/%s: %w" err), w)
      end
  end.

Definition tearDownDedicatedPool (tenant : TradingTenant) : W → result bool * W :=
  deleteAll (dedicatedKeys tenant) false.

(** ** The reconcile pass *)

(** TenantObserver, scoped by a label (name, value). *)
Class TenantObserver := {
  observedKafkaLag : string * string → W → result Z * W;
  observedP99Ms : string * string → W → result Z * W;
  observedPartitionCount : string * string → W → result Z * W;
  observedPartitionStart : string * string → W → result Z * W
}.
Context `{Ob : !TenantObserver}.

(** The cluster with what a pass reports: events as (reason, type), the
    transition counters, and the duration observations by result. *)
Record OperatorState := {
  cluster : W;
  events : list (string * string);
  transitions : gmap string Z;
  durations : gmap string Z
}.

Definition lift {A} (m : W → outcome A * W) (s : OperatorState) : outcome A * OperatorState :=
  let '(res, w) := m (cluster s) in
  (res, {| cluster := w; events := events s; transitions := transitions s; durations := durations s |}).

Definition bump (k : string) (m : gmap string Z) : gmap string Z := <[k := default 0 (m !! k) + 1]> m.

Definition observeIsolationTransition (reason : string) (m : gmap string Z) : gmap string Z :=
  if bool_decide (reason ∈ isolationTransitionReasons) then bump reason m else m.

Definition recordTransition (reason eventType : string) (s : OperatorState) : outcome unit * OperatorState :=
  (Done (Ok tt),
   {| cluster := cluster s;
      events := if withRecorder r then events s ++ [(reason, eventType)] else events s;
      transitions := if withMetrics r then observeIsolationTransition reason (transitions s) else transitions s;
      durations := durations s |}).

Definition with_isolation (tenant : TradingTenant) : TradingTenant :=
  {| tMeta := tMeta tenant;
     Spec := {| sTenantID := sTenantID (Spec tenant); MinReplicas := MinReplicas (Spec tenant);
                MaxReplicas := MaxReplicas (Spec tenant); Resources := Resources (Spec tenant);
                Scaling := Scaling (Spec tenant); Isolation := {| DedicatedNodePool := true |} |};
     Status := Status tenant |}.

Definition isolated (tenant : TradingTenant) : bool := DedicatedNodePool (Isolation (Spec tenant)).

(** r.Update writes the server's answer back into its argument. *)
Definition updateTenant (tenant : TradingTenant) : W → result TradingTenant * W :=
  λ w,
    let '(res, w) := kUpdate (OTenant tenant) w in
    (match res with Ok (OTenant t) => Ok t | Ok _ => wrongKind | Err e => Err e end, w).

(** How a partition map call ends that has a budget of API calls. *)
Definition mapCall (m : W → point * W) (w : W) : outcome unit * W :=
  let '(p, w) := m w in
  (match p with
   | Returned res => Done res
   | Panicked => Panic
   | AtGet | AtCreate _ | AtUpdate _ => OutOfCalls
   end, w).

(** The budget of API calls of a partition map call. *)
Context (mapCalls : nat).

(** Provisioning or teardown, by the flag. *)
Definition reconcilePool (tenant : TradingTenant) (label : string * string) (partitionCount replicas : Z)
    : OperatorState → outcome unit * OperatorState :=
  (if isolated tenant then
     let! partitionStart := orWrap "reconciling tradingtenant %s: observed partition start: %w" (lift (call (observedPartitionStart label))) in
     let! anyCreated := orWrap "reconciling tradingtenant %s: ensuring dedicated pool: %w"
       (lift (ensureDedicatedPool tenant partitionStart partitionCount replicas)) in
     let! _ := (if anyCreated : bool then recordTransition reasonDedicatedPoolProvisioned EventTypeNormal else ret tt) in
     orWrap "reconciling tradingtenant %s: publishing tenant partition map entry: %w"
       (lift (mapCall (ensureTenantPartitionMapEntry mapCalls tenant partitionStart partitionCount)))
   else
     let! tornDown := orWrap "reconciling tradingtenant %s: tearing down dedicated pool: %w" (lift (call (tearDownDedicatedPool tenant))) in
     let! _ := (if tornDown : bool then recordTransition reasonDedicatedPoolTornDown EventTypeNormal else ret tt) in
     orWrap "reconciling tradingtenant %s: removing tenant partition map entry: %w"
       (lift (mapCall (removeTenantPartitionMapEntry mapCalls tenant))))%call.

Definition baselineOf (tenant : TradingTenant) : Z :=
  if CurrentReplicas (Status tenant) <? MinReplicas (Spec tenant) then MinReplicas (Spec tenant)
  else CurrentReplicas (Status tenant).

Definition with_status (decision : reconcileDecision) (lag p99Ms partitionCount now : Z) (tenant : TradingTenant)
    : TradingTenant :=
  {| tMeta := tMeta tenant; Spec := Spec tenant;
     Status := {| CurrentReplicas := dReplicas decision; sState := dState decision; ObservedKafkaLag := lag;
                  ObservedP99Ms := p99Ms; ObservedPartitionCount := partitionCount; LastReconcileTime := now |} |}.

(** From the fetched tenant to the requeue interval. *)
Definition reconcileTenant (tenant : TradingTenant) (now : Z) : OperatorState → outcome Z * OperatorState :=
  let labelName := if bool_decide (TenantLabelName r = "") then defaultTenantLabelName else TenantLabelName r in
  let label := (labelName, sTenantID (Spec tenant)) in
  (let! lag := orWrap "reconciling tradingtenant %s: observed kafka lag: %w" (lift (call (observedKafkaLag label))) in
   let! p99Ms := orWrap "reconciling tradingtenant %s: observed p99 latency: %w" (lift (call (observedP99Ms label))) in
   let! partitionCount := orWrap "reconciling tradingtenant %s: observed partition count: %w" (lift (call (observedPartitionCount label))) in
   let oldState := sState (Status tenant) in
   let decision := classify (Spec tenant) (baselineOf tenant) (isolated tenant) lag p99Ms partitionCount in
   let! tenant :=
     (if setDedicatedNodePool decision && negb (isolated tenant) then
        let! tenant := orWrap "reconciling tradingtenant %s: updating isolation spec: %w" (lift (call (updateTenant (with_isolation tenant)))) in
        let! _ := recordTransition reasonDedicatedPoolCreated EventTypeNormal in
        ret tenant
      else ret tenant) in
   let! _ := reconcilePool tenant label partitionCount (dReplicas decision) in
   let! _ := orWrap "reconciling tradingtenant %s: updating status: %w"
     (lift (call (kStatusUpdate (OTenant (with_status decision lag p99Ms partitionCount now tenant))))) in
   let! _ := (if bool_decide (dState decision = oldState) then ret tt
              else recordTransition (dState decision) (eventTypeForState (dState decision))) in
   ret (if RequeueInterval r <=? 0 then 30 * Second else RequeueInterval r))%call.

(** Get and the pass; a tenant that is gone is no error. *)
Definition reconcilePass (namespace name : string) (now : Z) (s : OperatorState) : outcome Z * OperatorState :=
  let '(o, s) := lift (call (kGet (KTenant, namespace, name))) s in
  match o with
  | Done (Ok (OTenant tenant)) => reconcileTenant tenant now s
  | Done (Ok _) => (Done wrongKind, s)
  | Done (Err err) => if errors_Is err StatusNotFound then (Done (Ok 0), s) else (Done (Err err), s)
  | Panic => (Panic, s)
  | OutOfCalls => (OutOfCalls, s)
  end.

(** Reconcile, with the deferred duration observation: it runs on a panic too, where
    the named error is still nil. *)
Definition Reconcile (namespace name : string) (now : Z) (s : OperatorState) : outcome Z * OperatorState :=
  let '(o, s) := reconcilePass namespace name now s in
  let observeDuration result :=
    if withMetrics r then
      {| cluster := cluster s; events := events s; transitions := transitions s;
         durations := bump result (durations s) |}
    else s in
  (o,
   match o with
   | Done (Ok _) | Panic => observeDuration "success"
   | Done (Err _) => observeDuration "error"
   | OutOfCalls => s
   end).
End operator.

(** ** The decision table *)

(** The decision for a tenant whose baseline is within its bounds. *)
Lemma classify_bounds spec baseline isolated lag p99Ms partitionCount :
  MinReplicas spec ≤ baseline ≤ MaxReplicas spec →
  baseline ≤ dReplicas (classify spec baseline isolated lag p99Ms partitionCount) ≤ MaxReplicas spec.
Proof. intros Hb. unfold classify, clampReplicas. case_all; lia. Qed.

(** The decision table: for a tenant whose replicas are within its bounds, a
    pass never scales down and never past maxReplicas; it scales exactly when lag
    is high and either latency is high or there is partition headroom, and with
    headroom alone never past what the partitions can use; it isolates exactly
    when lag is high, latency normal and headroom gone; high latency with normal
    lag is Degraded at the same size; and with both normal the tenant is Stable,
    or stays Isolated if it was. *)
Theorem classify_table spec baseline wasIsolated lag p99Ms partitionCount :
  MinReplicas spec ≤ baseline ≤ MaxReplicas spec →
  let d := classify spec baseline wasIsolated lag p99Ms partitionCount in
  let lagHigh := KafkaLagThreshold (Scaling spec) < lag in
  let latencyHigh := P99LatencyThresholdMs (Scaling spec) < p99Ms in
  baseline ≤ dReplicas d ≤ MaxReplicas spec ∧
  (dState d = TradingTenantStateScaling ↔ lagHigh ∧ (latencyHigh ∨ baseline < partitionCount)) ∧
  (dState d = TradingTenantStateScaling → ¬ latencyHigh → dReplicas d = Z.min (MaxReplicas spec) partitionCount) ∧
  (setDedicatedNodePool d = true ↔ lagHigh ∧ ¬ latencyHigh ∧ partitionCount ≤ baseline) ∧
  (dState d = TradingTenantStateDegraded ↔ ¬ lagHigh ∧ latencyHigh) ∧
  (dState d = TradingTenantStateIsolated ↔
     setDedicatedNodePool d = true ∨ ¬ lagHigh ∧ ¬ latencyHigh ∧ wasIsolated = true) ∧
  (dState d ≠ TradingTenantStateScaling → dReplicas d = baseline).
Proof.
  intros Hb d lagHigh latencyHigh. subst d lagHigh latencyHigh. split; [by apply classify_bounds|].
  unfold classify, clampReplicas.
  destruct (Z.ltb_spec (KafkaLagThreshold (Scaling spec)) lag),
    (Z.ltb_spec (P99LatencyThresholdMs (Scaling spec)) p99Ms),
    (Z.ltb_spec baseline partitionCount), (Z.ltb_spec partitionCount (MaxReplicas spec)), wasIsolated; cbn [andb negb dState dReplicas setDedicatedNodePool];
    repeat match goal with |- context [if ?a <? ?b then _ else _] => destruct (Z.ltb_spec a b) end;
    split_and!; unfold TradingTenantStateScaling, TradingTenantStateDegraded, TradingTenantStateIsolated,
      TradingTenantStateStable; try (split; intros); try intros; first [done|lia|naive_solver lia].
Qed.

(** The part of the tenant a pass feeds back: replicas and flag. *)
Definition passOver (spec : TradingTenantSpec) (lag p99Ms partitionCount : Z) (t : Z * bool)
    : string * (Z * bool) :=
  let d := classify spec (if t.1 <? MinReplicas spec then MinReplicas spec else t.1) t.2 lag p99Ms partitionCount in
  (dState d, (dReplicas d, t.2 || setDedicatedNodePool d)).

Lemma second_pass_settles spec lag p99Ms partitionCount t :
  MinReplicas spec ≤ MaxReplicas spec →
  let pass := passOver spec lag p99Ms partitionCount in
  pass (pass (pass t).2).2 = pass (pass t).2.
Proof.
  intros Hb. destruct t as [n flag]. unfold passOver, classify, clampReplicas. cbn [fst snd].
  destruct (Z.ltb_spec (KafkaLagThreshold (Scaling spec)) lag),
    (Z.ltb_spec (P99LatencyThresholdMs (Scaling spec)) p99Ms);
    cbn [andb negb dState dReplicas setDedicatedNodePool orb];
    repeat (match goal with |- context [?a <? ?b] =>
      lazymatch a with context [if _ then _ else _] => fail | _ =>
      lazymatch b with context [if _ then _ else _] => fail | _ =>
      destruct (Z.ltb_spec a b) end end end; cbn [andb negb dState dReplicas setDedicatedNodePool orb]);
    try lia; destruct flag; done.
Qed.

(** C27. Passes settle: under constant signals, whatever replica count and flag a
    tenant starts from, the second pass reaches a state, size and flag that every
    later pass keeps. *)
Theorem passes_settle spec lag p99Ms partitionCount t n :
  MinReplicas spec ≤ MaxReplicas spec →
  let pass := passOver spec lag p99Ms partitionCount in
  pass (Nat.iter (S n) (λ t, (pass t).2) t) = pass (pass t).2.
Proof.
  intros Hb pass. induction n as [|n IH]; [done|]. rewrite Nat.iter_succ, IH.
  by apply second_pass_settles.
Qed.

(** ** The partition list *)
Lemma parseFields_Itoa l : Forall (λ p, 0 ≤ p ≤ MaxInt32) l → Consumer.parseFields (Itoa <$> l) = Ok l.
Proof.
  induction 1 as [|p l Hp Hl IH]; [done|]. cbn [fmap list_fmap Consumer.parseFields].
  replace (Itoa p) with (FormatUint p) by (unfold Itoa; destruct (Z.ltb_spec p 0); [lia|done]).
  rewrite TrimSpace_visible by (apply FormatUint_visible; unfold_ints; lia).
  rewrite Atoi_FormatUint by (unfold_ints; lia). cbn [wrap_err mbind result_bind].
  destruct (Z.ltb_spec p 0); [lia|]. change (list_fmap Z string Itoa l) with (Itoa <$> l). rewrite IH.
  cbn. rewrite int32_id by (unfold_ints; lia). done.
Qed.

Lemma digits_no_comma s : all_digits s = true → no_byte ","%char s = true.
Proof.
  apply string_forallb_impl. intros c H%is_digit_range. apply negb_true_iff, bool_decide_eq_false.
  intros ->. change (byte ",") with 44 in H. lia.
Qed.

Lemma partitionListString_fields start count : 0 ≤ start → 1 ≤ count → start + count - 1 ≤ MaxInt32 →
  partitionListString start count = Join (Itoa <$> seqZ start count) ","%char.
Proof.
  intros Hs Hc Hm. unfold partitionListString. destruct (Z.leb_spec count 0); [lia|]. f_equal.
  unfold seqZ. rewrite <-list_fmap_compose. apply list_fmap_ext. intros i x Hi%lookup_seq. cbn.
  rewrite int32_id by (unfold_ints; lia). f_equal. lia.
Qed.

(** The partitions a dedicated processor starts with are the ones it reloads:
    the list the operator writes into KAFKA_MANUAL_PARTITIONS parses back to the
    reserved range, each partition once, and the range entry it publishes in the
    shared map expands to the same set. *)
Theorem partition_list_agrees start count :
  0 ≤ start → 1 ≤ count → start + count - 1 ≤ MaxInt32 →
  ∃ l ps, Consumer.parsePartitionList (partitionListString start count) = Ok l ∧
    partitionsForEntry {| Start := start; Count := count |} = Ok ps ∧ NoDup l ∧
    ∀ x, (x ∈ l ↔ start ≤ x < start + count) ∧ (x ∈ ps ↔ x ∈ l).
Proof.
  intros Hs Hc Hm. eexists _, _. split_and!.
  - rewrite partitionListString_fields by done. unfold Consumer.parsePartitionList.
    assert (Forall (λ p, 0 ≤ p ≤ MaxInt32) (seqZ start count)) as Hall.
    { apply Forall_forall. intros x Hx%elem_of_seqZ. lia. }
    rewrite Split_Join; [by apply parseFields_Itoa| |].
    + intros E%fmap_nil_inv. apply (f_equal length) in E. rewrite length_seqZ in E. cbn in E. lia.
    + apply Forall_fmap. eapply Forall_impl; [exact Hall|]. cbn. intros p Hp. unfold Itoa.
      destruct (Z.ltb_spec p 0); [lia|]. apply digits_no_comma, FormatUint_spec. unfold_ints; lia.
  - unfold partitionsForEntry. cbn. destruct (Z.ltb_spec count 1); [lia|done].
  - apply NoDup_seqZ.
  - intros x. rewrite elem_of_seqZ. split; [done|]. rewrite addRange_spec, elem_of_empty. split.
    + intros [[]|(i & Hi & ->)]. rewrite int32_id by (unfold_ints; lia). lia.
    + intros Hx. right. exists (x - start). split; [lia|].
      rewrite int32_id by (unfold_ints; lia). lia.
Qed.

(** ** A small program logic for calls: from [P], code returns a value with [Q], or
    an error with [E false], or stops short (panics, or uses up its API calls) with
    [E true]. *)
Definition triple {S A} (P : S → Prop) (m : S → outcome A * S) (Q : A → S → Prop) (E : bool → S → Prop) : Prop :=
  ∀ s, P s → match (m s).1 with
             | Done (Ok a) => Q a (m s).2
             | Done (Err _) => E false (m s).2
             | Panic | OutOfCalls => E true (m s).2
             end.

Lemma triple_andThen {S A B} P (m : S → outcome A * S) (f : A → S → outcome B * S) Q R E :
  triple P m Q E → (∀ a, triple (Q a) (f a) R E) → triple P (andThen m f) R E.
Proof.
  intros Hm Hf s Hs. specialize (Hm s Hs). unfold andThen. destruct (m s) as [[[a|e]| |] s1]; cbn in *; try done.
  by apply Hf.
Qed.

Lemma triple_ret {S A} (a : A) (Q : A → S → Prop) E : triple (Q a) (ret a) Q E.
Proof. by intros s Hs. Qed.

Lemma triple_orWrap {S A} msg P (m : S → outcome A * S) Q E : triple P m Q E → triple P (orWrap msg m) Q E.
Proof.
  intros Hm s Hs. specialize (Hm s Hs). unfold orWrap. by destruct (m s) as [[[a|e]| |] s1].
Qed.

Lemma triple_weaken {S A} (P P' : S → Prop) (m : S → outcome A * S) (Q Q' : A → S → Prop) (E E' : bool → S → Prop) :
  triple P m Q E → (∀ s, P' s → P s) → (∀ a s, Q a s → Q' a s) → (∀ b s, E b s → E' b s) → triple P' m Q' E'.
Proof. intros Hm HP HQ HE s Hs. specialize (Hm s (HP s Hs)). destruct (m s).1 as [[]| |]; auto. Qed.

(** A fact about the value a step returned, for the rest. *)
Lemma triple_pure {S A} (φ : Prop) (P : S → Prop) (m : S → outcome A * S) Q E :
  (φ → triple P m Q E) → triple (λ s, φ ∧ P s) m Q E.
Proof. intros H s [Hφ Hs]. exact (H Hφ s Hs). Qed.

(** A call of the client or the observer always returns. *)
Lemma triple_call {S A} (P : S → Prop) (m : S → result A * S) (Q : A → S → Prop) (E : bool → S → Prop) :
  (∀ s, P s → match (m s).1 with Ok a => Q a (m s).2 | Err _ => E false (m s).2 end) → triple P (call m) Q E.
Proof. intros Hm s Hs. specialize (Hm s Hs). unfold call. by destruct (m s) as [[a|e] s1]. Qed.

(** ** Views: nothing outside [ks] changed, and what was missed stays missed *)
Definition vframe (ks : list (Kind * string * string)) (v v' : View) : Prop :=
  frame ks (live v) (live v') ∧ missed v ⊆ missed v'.

Lemma vframe_refl ks v : store_wf (live v) → vframe ks v v.
Proof. intros Hwf. split; [by split|done]. Qed.

Lemma vframe_trans ks1 ks2 ks v1 v2 v3 : vframe ks1 v1 v2 → vframe ks2 v2 v3 → ks1 ⊆ ks → ks2 ⊆ ks → vframe ks v1 v3.
Proof. intros [H1 M1] [H2 M2] ??. split; [by eapply frame_trans|by etrans]. Qed.

Lemma vframe_weaken ks ks' v v' : vframe ks v v' → ks ⊆ ks' → vframe ks' v v'.
Proof. intros [H M] ?. split; [by eapply frame_weaken|done]. Qed.

Lemma misses_frame k ks v v' : misses k v v' → store_wf (live v) → vframe ks v v' ∧ k ∈ missed v'.
Proof. intros -> Hwf. split; [split; [by split|]|]; cbn; set_solver. Qed.

Lemma vframe_wf ks v v' : vframe ks v v' → store_wf (live v').
Proof. intros [[? _] _]. done. Qed.

Lemma vframe_lookup ks v v' k : vframe ks v v' → k ∉ ks → objects (live v') !! k = objects (live v) !! k.
Proof. intros [[_ Hf] _]. apply Hf. Qed.

Section laws.
Context (admission : Object → Object) {W : Type} `{Kc : !KubeClient W} (view : W → View) `{Kl : !KubeLaws W view admission}.

(** The object a write leaves. *)
Definition stored (o o' : Object) : Prop := o' = admission o ∨ ∃ v, o' = set_version v (admission o).

Lemma written_frame o s s' : written admission o s s' → store_wf s →
  frame [object_key o] s s' ∧ ∃ o', objects s' !! object_key o = Some o' ∧ stored o o'.
Proof.
  intros [(v & Hv & ->)|[Hsame ->]] Hwf; cbn.
  - split.
    + apply put_frame; [done|done|by rewrite set_version_key, admit_key|apply set_version_version].
    + eexists. rewrite lookup_insert_eq. split; [done|]. right. eauto.
  - split; [by split|]. eexists. split; [done|]. by left.
Qed.

(** The result of a get-or-create: an object the callback produced. *)
Definition converged (f : Object → result Object) (o' : Object) : Prop :=
  ∃ base new, f base = Ok new ∧ (o' = new ∨ stored new o').

Lemma converge_frame o f op s s' : converge admission o f op s s' → store_wf s → kind o ≠ KTenant →
  frame [object_key o] s s' ∧ ∃ o', objects s' !! object_key o = Some o' ∧ converged f o'.
Proof.
  intros Hc Hwf Hk. destruct op; cbn in Hc.
  - destruct Hc as (-> & old & Hold & Hf). split; [by split|]. exists old. split; [done|]. exists old, old. auto.
  - destruct Hc as (new & Hf & Hkey & _ & Hw). apply written_frame in Hw as (Hfr & o' & Ho' & Hst); [|done].
    rewrite Hkey in *. split; [done|]. exists o'. split; [done|]. exists o, new. auto.
  - destruct Hc as (old & new & Hold & Hf & _ & Hkey & old' & _ & _ & Hw).
    assert (keep_status old' new = new) as Hkeep.
    { assert (kind new = kind o) as E by (unfold object_key in Hkey; congruence).
      destruct new; [by rewrite <-E in Hk|by destruct old'..]. }
    rewrite Hkeep in Hw. apply written_frame in Hw as (Hfr & o' & Ho' & Hst); [|done].
    rewrite Hkey in *. split; [done|]. exists o'. split; [done|]. exists old, new. auto.
Qed.

(** [φ] holds, or [k] was read out of date. *)
Definition unless_missed (v : View) (k : Kind * string * string) (φ : Prop) : Prop := k ∈ missed v ∨ φ.

(** Get-or-creates done so far: their keys hold what their callbacks produced. *)
Definition ready (dones : list ((Kind * string * string) * (Object → result Object))) (v : View) : Prop :=
  Forall (λ d, unless_missed v d.1 (∃ o', objects (live v) !! d.1 = Some o' ∧ converged d.2 o')) dones.

Lemma ready_frame dones ks v v' : ready dones v → vframe ks v v' → Forall (λ d, d.1 ∉ ks) dones → ready dones v'.
Proof.
  unfold ready. rewrite !Forall_forall. intros Hr Hf Hk d Hd. destruct (Hr d Hd) as [Hm|Ho]; [left|right].
  - by apply Hf.
  - by rewrite (vframe_lookup _ _ _ _ Hf) by auto.
Qed.

Lemma CreateOrUpdate_triple o f v0 ks dones :
  kind o ≠ KTenant → object_key o ∈ ks → Forall (λ d, d.1 ≠ object_key o) dones →
  triple (λ w, vframe ks v0 (view w) ∧ ready dones (view w)) (call (CreateOrUpdate o f))
    (λ _ w, vframe ks v0 (view w) ∧ ready ((object_key o, f) :: dones) (view w))
    (λ b w, b = false ∧ vframe ks v0 (view w)).
Proof.
  intros Hk Hin Hd. apply triple_call. intros w [Hf Hr]. pose proof (CreateOrUpdate_law o f w) as Hl.
  set (w' := (CreateOrUpdate o f w).2) in *. set (res := (CreateOrUpdate o f w).1) in *.
  assert (∀ v', vframe [object_key o] (view w) v' → vframe ks v0 v') as Hgrow.
  { intros v' H. eapply vframe_trans; [exact Hf|exact H|done|by intros ? ->%list_elem_of_singleton]. }
  assert (∀ v', vframe [object_key o] (view w) v' → unless_missed v' (object_key o)
    (∃ o', objects (live v') !! object_key o = Some o' ∧ converged f o') →
    vframe ks v0 v' ∧ ready ((object_key o, f) :: dones) v') as Hdone.
  { intros v' H Ho. split; [by apply Hgrow|]. constructor; [done|]. eapply ready_frame; [exact Hr|exact H|].
    eapply Forall_impl; [exact Hd|]. intros d Hne ?%list_elem_of_singleton. done. }
  destruct Hl as [[Hl Hm]|[Hl Hop]].
  - assert (∀ op, converge admission o f op (live (view w)) (live (view w')) →
      vframe ks v0 (view w') ∧ ready ((object_key o, f) :: dones) (view w')) as Hc.
    { intros op Hc. apply converge_frame in Hc as (Hfr & Ho); [|by eapply vframe_wf|done].
      apply Hdone; [by split; [|rewrite Hm]|by right]. }
    destruct res as [op|e]; cbn in *; [by eapply Hc|]. split; [done|].
    destruct Hl as [E|[op Hl]]; [|by eapply Hc]. apply Hgrow. split; [|by rewrite Hm].
    rewrite E. split; [by eapply vframe_wf|done].
  - apply (misses_frame _ [object_key o]) in Hl as [Hfr Hin']; [|by eapply vframe_wf].
    destruct res; [apply Hdone; [done|by left]|]. split; [done|]. by apply Hgrow.
Qed.

Lemma deleteAll_triple keys any v0 ks gone :
  keys ⊆ ks →
  triple (λ w, vframe ks v0 (view w) ∧ Forall (leaving (live (view w))) gone) (call (deleteAll keys any))
    (λ _ w, vframe ks v0 (view w) ∧ Forall (leaving (live (view w))) (keys ++ gone))
    (λ b w, b = false ∧ vframe ks v0 (view w)).
Proof.
  revert any gone. induction keys as [|k keys IH]; intros any gone Hks; [by intros w Hw|].
  apply triple_call. intros w [Hf Hg]. cbn [deleteAll]. pose proof (kDelete_law k w) as [Hl Hm].
  assert (∀ w1, frame [k] (live (view w)) (live (view w1)) ∧ leaving (live (view w1)) k →
    missed (view w1) = missed (view w) →
    vframe ks v0 (view w1) ∧ Forall (leaving (live (view w1))) (k :: gone)) as Hdel.
  { intros w1 [Hfr Hk] E. split.
    - eapply vframe_trans; [exact Hf|split; [exact Hfr|by rewrite E]|done|].
      intros ? ->%list_elem_of_singleton. apply Hks, list_elem_of_here.
    - constructor; [done|]. rewrite Forall_forall in *. intros k0 Hk0.
      destruct (decide (k0 = k)) as [->|Hne]; [done|]. destruct Hfr as [_ Hfr].
      unfold leaving. rewrite Hfr by (by rewrite list_elem_of_singleton). by apply Hg. }
  assert (∀ any w1, vframe ks v0 (view w1) ∧ Forall (leaving (live (view w1))) (k :: gone) →
    match (deleteAll keys any w1).1 with
    | Ok _ => vframe ks v0 (view (deleteAll keys any w1).2) ∧
        Forall (leaving (live (view (deleteAll keys any w1).2))) ((k :: keys) ++ gone)
    | Err _ => false = false ∧ vframe ks v0 (view (deleteAll keys any w1).2)
    end) as Hgo.
  { intros any1 w1 H1. pose proof (IH any1 (k :: gone) ltac:(intros ??; apply Hks; by right) w1 H1) as H2.
    unfold call in H2. destruct (deleteAll keys any1 w1) as [[b|e] w2]; [|done]. destruct H2 as [? H2]. split; [done|]. revert H2.
    rewrite !Forall_app, !Forall_cons. naive_solver. }
  destruct (kDelete k w) as [[[]|e] w1]; cbn in Hl, Hm.
  - apply Hgo, Hdel; [|done]. apply deleted_frame; [done|by eapply vframe_wf].
  - destruct (errors_Is e StatusNotFound); cbn.
    + destruct Hl as [E Hk]. apply Hgo, Hdel; [|done]. rewrite E. split; [split; [by eapply vframe_wf|done]|].
      unfold leaving. by rewrite Hk.
    + split; [done|]. destruct Hl as [E|Hl].
      * eapply vframe_trans; [exact Hf| |done|done]. split; [|by rewrite Hm]. rewrite E. split; [by eapply vframe_wf|done].
      * apply Hdel; [|done]. apply deleted_frame; [done|by eapply vframe_wf].
Qed.

(** ** The pass *)
Context (r : TradingTenantReconciler).

Lemma triple_lift {A} P (m : W → outcome A * W) Q E : triple P m Q E →
  triple (λ s, P (cluster s)) (lift m) (λ a s, Q a (cluster s)) (λ b s, E b (cluster s)).
Proof. intros Hm s Hs. specialize (Hm _ Hs). unfold lift. by destruct (m (cluster s)) as [[[a|e]| |] w]. Qed.

(** The get-or-creates of a pool, last first. *)
Definition poolObjects (t : TradingTenant) (start count replicas : Z)
    : list ((Kind * string * string) * (Object → result Object)) :=
  let namespace := Namespace (tMeta t) in
  [((KService, namespace, dedicatedServiceName t), mutateService t);
   ((KDeployment, namespace, dedicatedProcessorName t),
     mutateDeployment r t componentProcessor (processorContainer r t) replicas);
   ((KDeployment, namespace, dedicatedIngestionName t),
     mutateDeployment r t componentIngestion (ingestionContainer r) replicas);
   ((KConfigMap, namespace, dedicatedConfigMapName t), mutateConfigMap t start count)].

Lemma ensureDedicatedPool_triple t start count replicas v0 :
  triple (λ w, vframe (dedicatedKeys t) v0 (view w)) (ensureDedicatedPool r t start count replicas)
    (λ _ w, vframe (dedicatedKeys t) v0 (view w) ∧ ready (poolObjects t start count replicas) (view w))
    (λ b w, b = false ∧ vframe (dedicatedKeys t) v0 (view w)).
Proof.
  unfold ensureDedicatedPool.
  eapply triple_andThen; [apply triple_orWrap|intros cm].
  { eapply triple_weaken; [apply (CreateOrUpdate_triple _ _ v0 (dedicatedKeys t) [])|..]; [done| |done|..];
      [unfold dedicatedKeys; cbn; set_solver|intros w Hw; split; [exact Hw|constructor]|done|done]. }
  cbn beta. eapply triple_andThen; [apply triple_orWrap|intros ing].
  { apply CreateOrUpdate_triple; [done|unfold dedicatedKeys; cbn; set_solver|by repeat constructor]. }
  cbn beta. eapply triple_andThen; [apply triple_orWrap|intros pr].
  { apply CreateOrUpdate_triple; [done|unfold dedicatedKeys; cbn; set_solver|].
    repeat constructor; [|done]. cbn. unfold dedicatedProcessorName, dedicatedIngestionName.
    intros [= E]. by apply (inj (String.append _)) in E. }
  cbn beta. eapply triple_andThen; [apply triple_orWrap|intros svc].
  { apply CreateOrUpdate_triple; [done|unfold dedicatedKeys; cbn; set_solver|by repeat constructor]. }
  intros w Hw. exact Hw.
Qed.

Lemma mapKey_pool ns t : mapKey ns ∉ dedicatedKeys t.
Proof.
  unfold dedicatedKeys, mapKey. rewrite !not_elem_of_cons. split_and!; try (intros [=]; done); [|by intros ?%elem_of_nil].
  intros [= _ E]. apply (f_equal String.length) in E. unfold dedicatedConfigMapName in E.
  rewrite length_string_app in E. cbn in E. lia.
Qed.

Lemma holds_frame ns ks v v' m : vframe ks v v' → mapKey ns ∉ ks → holds ns (live v) m → holds ns (live v') m.
Proof. intros Hf Hk. unfold holds. by rewrite (vframe_lookup _ _ _ _ Hf). Qed.

(** A partition map call touches the map only, whatever else [R] is known; it stops
    short only after a read that was out of date. *)
Lemma mapCall_triple n t f v0 m ks (R : View → Prop) :
  let ns := Namespace (tMeta t) in
  mapKey ns ∈ ks → (∀ v v', vframe [mapKey ns] v v' → R v → R v') →
  triple (λ w, vframe ks v0 (view w) ∧ R (view w) ∧ holds ns (live (view w)) m)
    (mapCall (mutateTenantPartitionMap (S (S n)) ns f))
    (λ _ w, vframe ks v0 (view w) ∧ R (view w) ∧
       (mutation_ok f → unless_missed (view w) (mapKey ns) (holds ns (live (view w)) (effect f m))))
    (λ b w, vframe ks v0 (view w) ∧ (b = true → mapKey ns ∈ missed (view w))).
Proof.
  intros ns Hin HR w (Hf & Hr & Hh). unfold mapCall.
  pose proof (mutateTenantPartitionMap_spec admission ns admit_data view n f w m (vframe_wf _ _ _ Hf) Hh) as Hm.
  destruct (mutateTenantPartitionMap _ ns f w) as [p w']. destruct Hm as (Hfr & Hmi & Hp).
  assert (vframe ks v0 (view w')) as Hks.
  { eapply vframe_trans; [exact Hf|split; [exact Hfr|exact Hmi]|done|by intros ? ->%list_elem_of_singleton]. }
  assert (R (view w')) as Hr' by (by eapply HR; [split|]).
  destruct p as [| | |[[]|e]|]; cbn in Hp |- *; (split; [done|]); try naive_solver.
  split; [done|]. intros Hok. destruct Hp as [Hp|[_ Hp]]; [by left|right; auto].
Qed.

Lemma pool_dones t start count replicas ns : Forall (λ d, d.1 ≠ mapKey ns) (poolObjects t start count replicas).
Proof.
  pose proof (mapKey_pool ns t) as Hk. unfold dedicatedKeys in Hk. rewrite !not_elem_of_cons in Hk.
  repeat constructor; cbn; naive_solver.
Qed.

(** The observer reads metrics and leaves the cluster alone; the partition
    readings are int32. *)
Context `{Ob : !TenantObserver (W := W)}.
Definition reads {A} (m : W → result A * W) : Prop := ∀ w, view (m w).2 = view w.
Context (Hobs : ∀ label, reads (observedKafkaLag label) ∧ reads (observedP99Ms label) ∧
  reads (observedPartitionCount label) ∧ reads (observedPartitionStart label)).
Definition typed (m : W → result Z * W) : Prop := ∀ w n, (m w).1 = Ok n → in_int32 n.
Context (Htyped : ∀ label, typed (observedPartitionCount label) ∧ typed (observedPartitionStart label)).

(** What provisioning or teardown in the world [w] leaves, given the map [m] before it. *)
Definition pool_state (t : TradingTenant) (label : string * string) (w : W) (count replicas : Z)
    (m : gmap string tenantPartitionEntry) (v : View) : Prop :=
  let ns := Namespace (tMeta t) in
  let published f := mutation_ok f → unless_missed v (mapKey ns) (holds ns (live v) (effect f m)) in
  if isolated t
  then ∃ start, (observedPartitionStart label w).1 = Ok start ∧ ready (poolObjects t start count replicas) v ∧
         published (SetEntry (sTenantID (Spec t)) {| eStart := start; eCount := count |})
  else Forall (leaving (live v)) (dedicatedKeys t) ∧ published (RemoveEntry (sTenantID (Spec t))).

(** A reading: its value, and the world it leaves. *)
Lemma observe_triple (o : W → result Z * W) w (E : bool → View → Prop) : reads o → E false (view w) →
  triple (λ s, cluster s = w) (lift (call o))
    (λ n s, (o w = (Ok n, cluster s) ∧ view (cluster s) = view w) ∧ cluster s = (o w).2)
    (λ b s, E b (view (cluster s))).
Proof.
  intros Ho HE s Hs. unfold lift, call. rewrite Hs. pose proof (Ho w) as Hv.
  destruct (o w) as [[n|e] w']; cbn in *; [done|by rewrite Hv].
Qed.

Definition passKeys (t : TradingTenant) : list (Kind * string * string) :=
  mapKey (Namespace (tMeta t)) :: dedicatedKeys t.

Lemma dedicatedKeys_pass t : dedicatedKeys t ⊆ passKeys t.
Proof. intros ??. by right. Qed.

Lemma mapKey_pass t : mapKey (Namespace (tMeta t)) ∈ passKeys t.
Proof. apply list_elem_of_here. Qed.

(** Code that ends short has read the partition map out of date. *)
Definition short_of (t : TradingTenant) (b : bool) (v : View) : Prop :=
  b = true → mapKey (Namespace (tMeta t)) ∈ missed v.

(** The pool's calls and then the map's. *)
Definition pool_triple (n : nat) (t : TradingTenant) (label : string * string) (count replicas : Z)
    (m : gmap string tenantPartitionEntry) (w : W) : Prop :=
  triple (λ s, cluster s = w) (reconcilePool r (S (S n)) t label count replicas)
    (λ _ s, vframe (passKeys t) (view w) (view (cluster s)) ∧
       pool_state t label w count replicas m (view (cluster s)))
    (λ b s, vframe (passKeys t) (view w) (view (cluster s)) ∧ short_of t b (view (cluster s))).

Lemma reconcilePool_isolated n t label count replicas w m :
  store_wf (live (view w)) → holds (Namespace (tMeta t)) (live (view w)) m → isolated t = true →
  pool_triple n t label count replicas m w.
Proof.
  intros Hwf Hh Hiso. unfold pool_triple, reconcilePool, pool_state. rewrite Hiso.
  eapply triple_andThen; [apply triple_orWrap, (observe_triple _ w (λ b v, vframe (passKeys t) (view w) v ∧ short_of t b v))|intros start].
  { apply Hobs. }
  { split; [by apply vframe_refl|done]. }
  cbn beta. eapply triple_weaken with (P := λ s, (observedPartitionStart label w).1 = Ok start ∧ view (cluster s) = view w);
    [apply triple_pure; intros Hstart| |intros a s Hs; exact Hs|intros b s Hs; exact Hs].
  2: { intros s [[-> ?] _]. done. }
  eapply triple_andThen; [apply triple_orWrap|intros any].
  { eapply triple_weaken; [apply (triple_lift _ _ _ _ (ensureDedicatedPool_triple t start count replicas (view w)))|..].
    - cbn. intros s ->. by apply vframe_refl.
    - cbn. intros a s Hs. exact Hs.
    - cbn. intros b s [-> Hs]. split; [by eapply vframe_weaken, dedicatedKeys_pass|done]. }
  eapply triple_andThen with (Q := λ _ s, vframe (dedicatedKeys t) (view w) (view (cluster s)) ∧
    ready (poolObjects t start count replicas) (view (cluster s))).
  { intros s Hs. destruct any; exact Hs. }
  intros _. apply triple_orWrap. eapply triple_weaken.
  - apply triple_lift, (mapCall_triple n t _ (view w) m (passKeys t) (ready (poolObjects t start count replicas))); [apply mapKey_pass|].
    intros v v' Hfr Hr. eapply ready_frame; [exact Hr|exact Hfr|].
    eapply Forall_impl; [apply (pool_dones t start count replicas (Namespace (tMeta t)))|].
    intros d Hne ?%list_elem_of_singleton. done.
  - cbn. intros s [Hf Hr]. split_and!; [eapply vframe_weaken; [exact Hf|apply dedicatedKeys_pass]|done|].
    eapply holds_frame; [exact Hf|apply mapKey_pool|done].
  - cbn. intros a s (? & ? & ?). split; [done|]. by exists start.
  - done.
Qed.

Lemma reconcilePool_shared n t label count replicas w m :
  store_wf (live (view w)) → holds (Namespace (tMeta t)) (live (view w)) m → isolated t = false →
  pool_triple n t label count replicas m w.
Proof.
  intros Hwf Hh Hiso. unfold pool_triple, reconcilePool, pool_state. rewrite Hiso.
  eapply triple_andThen; [apply triple_orWrap|intros any].
  { eapply triple_weaken; [apply (triple_lift _ _ _ _
      (deleteAll_triple (dedicatedKeys t) false (view w) (dedicatedKeys t) [] ltac:(done)))|..].
    - cbn. intros s ->. split; [by apply vframe_refl|constructor].
    - cbn. intros a s Hs. exact Hs.
    - cbn. intros b s [-> Hs]. split; [by eapply vframe_weaken, dedicatedKeys_pass|done]. }
  eapply triple_andThen with (Q := λ _ s, vframe (dedicatedKeys t) (view w) (view (cluster s)) ∧
    Forall (leaving (live (view (cluster s)))) (dedicatedKeys t)).
  { intros s Hs. destruct any; exact Hs. }
  intros _. apply triple_orWrap. eapply triple_weaken.
  - apply triple_lift, (mapCall_triple n t _ (view w) m (passKeys t)
      (λ v, Forall (leaving (live v)) (dedicatedKeys t))); [apply mapKey_pass|].
    intros v v' Hfr. rewrite !Forall_forall. intros Hg k Hk. unfold leaving. rewrite (vframe_lookup _ _ _ _ Hfr).
    + by apply Hg.
    + intros ->%list_elem_of_singleton. by apply (mapKey_pool (Namespace (tMeta t)) t).
  - cbn. intros s [Hf Hr]. split_and!; [eapply vframe_weaken; [exact Hf|apply dedicatedKeys_pass]|done|].
    eapply holds_frame; [exact Hf|apply mapKey_pool|done].
  - cbn. intros a s (? & ? & ?). done.
  - done.
Qed.

Lemma reconcilePool_triple n t label count replicas w m :
  store_wf (live (view w)) → holds (Namespace (tMeta t)) (live (view w)) m → pool_triple n t label count replicas m w.
Proof.
  intros Hwf Hh. destruct (isolated t) eqn:E; [by apply reconcilePool_isolated|by apply reconcilePool_shared].
Qed.

(** *** The tenant's own writes *)
Definition tenantKey (t : TradingTenant) : Kind * string * string := object_key (OTenant t).

(** The tenant is stored, with [t]'s spec or that spec with the flag set. *)
Definition kept (t : TradingTenant) (s : Store) : Prop :=
  ∃ t', objects s !! tenantKey t = Some (OTenant t') ∧
    (Spec t' = Spec t ∨ Spec t' = Spec (with_isolation t)).

Definition same_identity (t t' : TradingTenant) : Prop :=
  Name (tMeta t') = Name (tMeta t) ∧ Namespace (tMeta t') = Namespace (tMeta t) ∧
  sTenantID (Spec t') = sTenantID (Spec t).

Lemma stored_tenant t o : stored (OTenant t) o →
  ∃ t', o = OTenant t' ∧ Spec t' = Spec t ∧ Status t' = Status t ∧ same_identity t t'.
Proof. intros [->|[v ->]]; rewrite admit_tenant; eexists; by repeat split. Qed.

Lemma replaced_tenant merge t0 t tm s s' :
  replaced admission merge (OTenant t) s s' → store_wf s → objects s !! tenantKey t = Some (OTenant t0) →
  merge (OTenant t0) (OTenant t) = OTenant tm → tenantKey tm = tenantKey t →
  frame [tenantKey t] s s' ∧
  ∃ t', objects s' !! tenantKey t = Some (OTenant t') ∧ Spec t' = Spec tm ∧ Status t' = Status tm ∧
    same_identity tm t'.
Proof.
  intros (old & Hold & _ & Hw) Hwf H0 Hm Hk. change (object_key (OTenant t)) with (tenantKey t) in Hold.
  rewrite H0 in Hold. injection Hold as <-. rewrite Hm in Hw.
  apply written_frame in Hw as (Hf & o' & Ho & Hst); [|done].
  change (object_key (OTenant tm)) with (tenantKey tm) in Hf, Ho. rewrite Hk in Hf, Ho. split; [done|].
  apply stored_tenant in Hst as (t' & -> & ?). by exists t'.
Qed.

(** A write under another version than the stored one is refused. *)
Lemma update_stale merge o o0 s r0 s' : update_law admission merge o s r0 s' →
  objects s !! object_key o = Some o0 → version o0 ≠ version o → s' = s ∧ ∃ e, r0 = Err e.
Proof.
  intros Hl H0 Hv. assert (¬ replaced admission merge o s s') as Hno.
  { intros (old & Hold & Hver & _). rewrite H0 in Hold. by injection Hold as <-. }
  destruct r0 as [o'|e]; cbn in Hl; [by destruct Hno; apply Hl|]. destruct Hl as [->|?]; [|done]. split; [done|by exists e].
Qed.

Lemma tenant_version t s : store_wf s → objects s !! tenantKey t = Some (OTenant t) → version (OTenant t) ≠ 0.
Proof. intros [_ Hwf] Ht. destruct (Hwf _ _ Ht) as [_ ?]. lia. Qed.

Lemma view_eta v v' : live v' = live v → missed v' = missed v → v' = v.
Proof. destruct v, v'. cbn. by intros -> ->. Qed.

Lemma updateTenant_triple t w : store_wf (live (view w)) → objects (live (view w)) !! tenantKey t = Some (OTenant t) →
  triple (λ w0, w0 = w) (call (updateTenant (with_isolation t)))
    (λ t' w', w' = (kUpdate (OTenant (with_isolation t)) w).2 ∧ vframe [tenantKey t] (view w) (view w') ∧
       objects (live (view w')) !! tenantKey t = Some (OTenant t') ∧
       Spec t' = Spec (with_isolation t) ∧ same_identity t t')
    (λ b w', b = false ∧ vframe [tenantKey t] (view w) (view w') ∧ kept t (live (view w'))).
Proof.
  intros Hwf Ht. apply triple_call. intros ? ->. unfold updateTenant.
  pose proof (kUpdate_law (OTenant (with_isolation t)) w (tenant_version t _ Hwf Ht)) as [Hl Hm].
  destruct (kUpdate _ w) as [res w'] eqn:Ew. cbn [fst snd] in Hl, Hm.
  assert (replaced admission keep_status (OTenant (with_isolation t)) (live (view w)) (live (view w')) →
    vframe [tenantKey t] (view w) (view w') ∧ ∃ t', objects (live (view w')) !! tenantKey t = Some (OTenant t') ∧
      Spec t' = Spec (with_isolation t) ∧ same_identity t t') as Hrep.
  { intros Hr. eapply (replaced_tenant _ t) in Hr as (? & t' & ? & ? & _ & ?); [|done..].
    split; [by split; [|rewrite Hm]|]. by exists t'. }
  destruct res as [o|e]; cbn [update_law] in Hl.
  - destruct Hl as [Hr Ho]. destruct (Hrep Hr) as (Hf & t' & Ho' & Hs & Hi).
    change (object_key (OTenant (with_isolation t))) with (tenantKey t) in Ho. rewrite Ho' in Ho.
    injection Ho as <-. by cbn.
  - cbn. split; [done|]. destruct Hl as [E|Hr].
    + rewrite (view_eta _ _ E Hm). split; [by apply vframe_refl|]. exists t. auto.
    + destruct (Hrep Hr) as (Hf & t' & Ho' & Hs & Hi). split; [done|]. exists t'. auto.
Qed.

Lemma kStatusUpdate_triple t1 t2 v0 : store_wf (live v0) → objects (live v0) !! tenantKey t1 = Some (OTenant t1) →
  tMeta t2 = tMeta t1 → Spec t2 = Spec t1 →
  triple (λ w, view w = v0) (call (kStatusUpdate (OTenant t2)))
    (λ _ w, vframe [tenantKey t1] v0 (view w) ∧
       ∃ t', objects (live (view w)) !! tenantKey t1 = Some (OTenant t') ∧ Spec t' = Spec t1 ∧ Status t' = Status t2)
    (λ b w, b = false ∧ vframe [tenantKey t1] v0 (view w) ∧
       ∃ t', objects (live (view w)) !! tenantKey t1 = Some (OTenant t') ∧ Spec t' = Spec t1).
Proof.
  intros Hwf Ht Hmeta Hspec. apply triple_call. intros w Hw. assert (tenantKey t2 = tenantKey t1) as Hk.
  { unfold tenantKey, object_key. cbn. by rewrite Hmeta. }
  pose proof (kStatusUpdate_law (OTenant t2) w) as Hl.
  ospecialize (Hl _). { unfold version. cbn. rewrite Hmeta. by apply (tenant_version t1 (live v0)). }
  destruct Hl as [Hl Hm]. rewrite Hw in Hl, Hm. destruct (kStatusUpdate _ w) as [res w']. cbn [fst snd] in Hl, Hm |- *.
  assert (replaced admission only_status (OTenant t2) (live v0) (live (view w')) →
    vframe [tenantKey t1] v0 (view w') ∧
    ∃ t', objects (live (view w')) !! tenantKey t1 = Some (OTenant t') ∧ Spec t' = Spec t1 ∧ Status t' = Status t2) as Hrep.
  { intros Hr. eapply (replaced_tenant _ t1) in Hr as (? & t' & ? & ? & ? & _);
      [|done|by rewrite Hk|reflexivity|by rewrite Hk]. rewrite Hk in *. split; [by split; [|rewrite Hm]|]. by exists t'. }
  destruct res as [o|e]; cbn [update_law] in Hl.
  - apply Hrep, Hl.
  - split; [done|]. destruct Hl as [E|Hr]; [rewrite (view_eta _ _ E Hm); split; [by apply vframe_refl|by exists t1]|].
    destruct (Hrep Hr) as (? & t' & ? & ? & _). split; [done|]. by exists t'.
Qed.

(** *** The whole pass *)
Lemma triple_fix {A} (P : View → Prop) (m : OperatorState (W := W) → outcome A * OperatorState) Q E :
  (∀ v, P v → triple (λ s, view (cluster s) = v) m Q E) → triple (λ s, P (view (cluster s))) m Q E.
Proof. intros H s Hs. by apply (H _ Hs s). Qed.

Lemma tenantKey_pass t t' : tenantKey t ∉ passKeys t'.
Proof.
  unfold passKeys, dedicatedKeys, mapKey, tenantKey, object_key. rewrite !not_elem_of_cons.
  split_and!; [intros [=]..|by intros ?%elem_of_nil].
Qed.

Lemma same_identity_key t t' : same_identity t t' → tenantKey t' = tenantKey t.
Proof. intros (Hn & Hns & _). unfold tenantKey, object_key. cbn. by rewrite Hn, Hns. Qed.

Lemma same_identity_keys t t' : same_identity t t' → passKeys t' = passKeys t.
Proof.
  intros (Hn & Hns & _). unfold passKeys, dedicatedKeys, dedicatedIngestionName, dedicatedProcessorName,
    dedicatedServiceName, dedicatedConfigMapName. by rewrite Hn, Hns.
Qed.

Lemma pool_state_frame t t' label w count replicas m v v' : vframe [tenantKey t'] v v' →
  pool_state t label w count replicas m v → pool_state t label w count replicas m v'.
Proof.
  intros Hf. pose proof (tenantKey_pass t' t) as Hk. unfold passKeys in Hk. rewrite not_elem_of_cons in Hk.
  destruct Hk as [Hmap Hks]. unfold pool_state.
  assert (∀ m, unless_missed v (mapKey (Namespace (tMeta t))) (holds (Namespace (tMeta t)) (live v) m) →
    unless_missed v' (mapKey (Namespace (tMeta t))) (holds (Namespace (tMeta t)) (live v') m)) as Hh.
  { intros m0 [H0|H0]; [left; by apply Hf|right]. eapply holds_frame; [done| |done].
    intros ?%list_elem_of_singleton. congruence. }
  destruct (isolated t).
  - intros (start & Hs & Hr & Hm). exists start. split; [done|]. split; [|auto]. eapply ready_frame; [exact Hr|exact Hf|].
    unfold dedicatedKeys in Hks. rewrite !not_elem_of_cons in Hks.
    repeat constructor; cbn; intros ?%list_elem_of_singleton; naive_solver.
  - intros [Hg Hm]. split; [|auto]. rewrite Forall_forall in *. intros k Hk. unfold leaving.
    rewrite (vframe_lookup _ _ _ _ Hf); [by apply Hg|]. intros ->%list_elem_of_singleton. done.
Qed.

(** The spec after the isolation step, and the world it leaves. *)
Definition flagged (t : TradingTenant) (d : reconcileDecision) : TradingTenantSpec :=
  if setDedicatedNodePool d then Spec (with_isolation t) else Spec t.

Definition poolWorld (t : TradingTenant) (d : reconcileDecision) (w : W) : W :=
  if setDedicatedNodePool d && negb (isolated t) then (kUpdate (OTenant (with_isolation t)) w).2 else w.

Lemma with_isolation_isolated t : isolated t = true → Spec (with_isolation t) = Spec t.
Proof. destruct t as [m [? ? ? ? ? [flag]] st]. unfold isolated. cbn. by intros ->. Qed.

Definition isolationStep (t : TradingTenant) (d : reconcileDecision)
    : OperatorState (W := W) → outcome TradingTenant * OperatorState :=
  (if setDedicatedNodePool d && negb (isolated t) then
     let! t := orWrap "reconciling tradingtenant %s: updating isolation spec: %w"
                 (lift (call (updateTenant (with_isolation t)))) in
     let! _ := recordTransition r reasonDedicatedPoolCreated EventTypeNormal in
     ret t
   else ret t)%call.

Lemma isolationStep_triple t d w : store_wf (live (view w)) → objects (live (view w)) !! tenantKey t = Some (OTenant t) →
  triple (λ s, cluster s = w) (isolationStep t d)
    (λ t' s, let w' := poolWorld t d w in
       (vframe [tenantKey t] (view w) (view w') ∧ objects (live (view w')) !! tenantKey t = Some (OTenant t') ∧
        Spec t' = flagged t d ∧ same_identity t t') ∧ cluster s = w')
    (λ b s, b = false ∧ vframe [tenantKey t] (view w) (view (cluster s)) ∧ kept t (live (view (cluster s)))).
Proof.
  intros Hwf Ht. unfold isolationStep, flagged, poolWorld. destruct (setDedicatedNodePool d && negb (isolated t)) eqn:E.
  - bool_props. match goal with H : setDedicatedNodePool d = true |- _ => rewrite H end.
    eapply triple_andThen.
    { exact (triple_orWrap _ _ _ _ _ (triple_lift _ _ _ _ (updateTenant_triple t w Hwf Ht))). }
    intros t' s [<- Hs]. done.
  - intros s <-. cbn. split; [|done]. split; [by apply vframe_refl|]. split; [done|]. split; [|done].
    destruct (setDedicatedNodePool d); [|done]. cbn in E. bool_props. symmetry. by apply with_isolation_isolated.
Qed.

(** The observer's answers, one after the other. *)
Definition signals (label : string * string) (w : W) (lag p99Ms count : Z) (w' : W) : Prop :=
  ∃ w1 w2, observedKafkaLag label w = (Ok lag, w1) ∧ observedP99Ms label w1 = (Ok p99Ms, w2) ∧
    observedPartitionCount label w2 = (Ok count, w').

Definition labelOf (t : TradingTenant) : string * string :=
  (if bool_decide (TenantLabelName r = "") then defaultTenantLabelName else TenantLabelName r, sTenantID (Spec t)).

(** What a pass that returned nil leaves of the tenant and its pool, its pool step
    having begun in the world [w]. *)
Definition pass_result (t : TradingTenant) (m : gmap string tenantPartitionEntry) (now lag p99Ms count : Z) (w : W)
    (v : View) : Prop :=
  let d := classify (Spec t) (baselineOf t) (isolated t) lag p99Ms count in
  ∃ t', objects (live v) !! tenantKey t = Some (OTenant t') ∧ Spec t' = flagged t d ∧
    Status t' = Status (with_status d lag p99Ms count now t) ∧
    ∃ t1, Spec t1 = flagged t d ∧ same_identity t t1 ∧ pool_state t1 (labelOf t) w count (dReplicas d) m v.

Lemma flagged_kept t t' d : Spec t' = flagged t d → Spec t' = Spec t ∨ Spec t' = Spec (with_isolation t).
Proof. unfold flagged. destruct (setDedicatedNodePool d); auto. Qed.

(** From the pool onwards. *)
Definition statusStep (t t1 : TradingTenant) (d : reconcileDecision) (lag p99Ms count now : Z)
    : OperatorState (W := W) → outcome Z * OperatorState :=
  (let! _ := orWrap "reconciling tradingtenant %s: updating status: %w"
     (lift (call (kStatusUpdate (OTenant (with_status d lag p99Ms count now t1))))) in
   let! _ := (if bool_decide (dState d = sState (Status t)) then ret tt
              else recordTransition r (dState d) (eventTypeForState (dState d))) in
   ret (if RequeueInterval r <=? 0 then 30 * Second else RequeueInterval r))%call.

Lemma statusStep_triple t t1 lag p99Ms count now w v2 m :
  let d := classify (Spec t) (baselineOf t) (isolated t) lag p99Ms count in
  store_wf (live v2) → objects (live v2) !! tenantKey t = Some (OTenant t1) → Spec t1 = flagged t d → same_identity t t1 →
  pool_state t1 (labelOf t) w count (dReplicas d) m v2 →
  triple (λ s, view (cluster s) = v2) (statusStep t t1 d lag p99Ms count now)
    (λ _ s, vframe [tenantKey t] v2 (view (cluster s)) ∧ pass_result t m now lag p99Ms count w (view (cluster s)))
    (λ b s, b = false ∧ vframe [tenantKey t] v2 (view (cluster s)) ∧ kept t (live (view (cluster s)))).
Proof.
  intros d Hwf Ht1 Hspec Hid Hpool. pose proof (same_identity_key _ _ Hid) as Hk. rewrite <-Hk in Ht1 |- *.
  unfold statusStep. eapply triple_andThen.
  { eapply triple_weaken; [apply triple_orWrap, triple_lift,
      (kStatusUpdate_triple t1 (with_status d lag p99Ms count now t1) v2 Hwf Ht1 eq_refl eq_refl)|done|..].
    - intros a s Hs. exact Hs.
    - cbn. intros b s (-> & Hf & t' & Ht' & Hs'). split; [done|]. split; [done|]. exists t'. rewrite <-Hk. split; [done|].
      rewrite Hs'. by eapply flagged_kept. }
  intros stored0. cbn beta. eapply triple_andThen with (Q := λ _ s, vframe [tenantKey t1] v2 (view (cluster s)) ∧
    pass_result t m now lag p99Ms count w (view (cluster s))); [|intros _; by intros s Hs].
  intros s (Hf & t' & Ht' & Hs' & Hst').
  assert (pass_result t m now lag p99Ms count w (view (cluster s))) as Hdone.
  { unfold pass_result. fold d. rewrite <-Hk. exists t'. split; [done|]. split; [congruence|]. split; [done|].
    exists t1. split; [done|]. split; [done|]. by eapply pool_state_frame. }
  destruct (bool_decide (dState d = _)); by split.
Qed.

(** The pool's calls leave the tenant as it is stored. *)
Lemma poolStep_triple n t t1 label count replicas w m t0 :
  store_wf (live (view w)) → objects (live (view w)) !! tenantKey t = Some (OTenant t0) → same_identity t t1 →
  holds (Namespace (tMeta t)) (live (view w)) m →
  triple (λ s, cluster s = w) (reconcilePool r (S (S n)) t1 label count replicas)
    (λ _ s, vframe (passKeys t) (view w) (view (cluster s)) ∧
       objects (live (view (cluster s))) !! tenantKey t = Some (OTenant t0) ∧
       pool_state t1 label w count replicas m (view (cluster s)))
    (λ b s, (vframe (passKeys t) (view w) (view (cluster s)) ∧ short_of t b (view (cluster s))) ∧
       objects (live (view (cluster s))) !! tenantKey t = Some (OTenant t0)).
Proof.
  intros Hwf Ht1 Hid Hh. pose proof (same_identity_keys _ _ Hid) as Hkeys.
  assert (∀ v2, vframe (passKeys t1) (view w) v2 →
    vframe (passKeys t) (view w) v2 ∧ objects (live v2) !! tenantKey t = Some (OTenant t0)) as Hstep.
  { intros v2 Hf2. rewrite Hkeys in Hf2. split; [done|].
    rewrite (vframe_lookup _ _ _ _ Hf2); [done|apply tenantKey_pass]. }
  eapply triple_weaken; [apply (reconcilePool_triple n t1 label count replicas w m)|done|..]; [done|..].
  - by destruct Hid as (_ & -> & _).
  - cbn. intros a s [[Hf Ht]%Hstep Hp]. by split_and!.
  - cbn. intros b s [[Hf Ht]%Hstep Hsh]. split; [|done]. split; [done|]. unfold short_of in *.
    by destruct Hid as (_ & <- & _).
Qed.

(** A reading, then the rest in the world it leaves. *)
Lemma observe_then {B} msg (o : W → result Z * W) w (k : Z → OperatorState (W := W) → outcome B * OperatorState)
    (Q : B → OperatorState → Prop) (E : bool → OperatorState → Prop) : reads o →
  (∀ s, view (cluster s) = view w → E false s) →
  (∀ n w', o w = (Ok n, w') → view w' = view w → triple (λ s, cluster s = w') (k n) Q E) →
  triple (λ s, cluster s = w) (andThen (orWrap msg (lift (call o))) k) Q E.
Proof.
  intros Ho HE Hk s Hs. unfold andThen, orWrap, lift, call. rewrite Hs. specialize (Ho w).
  destruct (o w) as [[n|e] w']; [by apply (Hk n w')|]. by apply HE.
Qed.

(** The three readings that open a pass. *)
Lemma readings_triple (Q : Z → OperatorState (W := W) → Prop) (E : bool → OperatorState → Prop) label w
    (k : Z → Z → Z → OperatorState → outcome Z * OperatorState) :
  (∀ s, view (cluster s) = view w → E false s) →
  (∀ lag p99Ms count w3, signals label w lag p99Ms count w3 → view w3 = view w → in_int32 count →
     triple (λ s, cluster s = w3) (k lag p99Ms count) Q E) →
  triple (λ s, cluster s = w)
    (let! lag := orWrap "reconciling tradingtenant %s: observed kafka lag: %w" (lift (call (observedKafkaLag label))) in
     let! p99Ms := orWrap "reconciling tradingtenant %s: observed p99 latency: %w" (lift (call (observedP99Ms label))) in
     let! count := orWrap "reconciling tradingtenant %s: observed partition count: %w" (lift (call (observedPartitionCount label))) in
     k lag p99Ms count)%call Q E.
Proof.
  intros HE Hk. destruct (Hobs label) as (Ho1 & Ho2 & Ho3 & _). destruct (Htyped label) as [Ht _].
  apply observe_then; [done|done|]. intros lag w1 E1 V1. apply observe_then; [done|intros s Hs; apply HE; congruence|].
  intros p99 w2 E2 V2. apply observe_then; [done|intros s Hs; apply HE; congruence|]. intros count w3 E3 V3.
  apply (Hk lag p99 count w3); [by exists w1, w2|congruence|]. apply (Ht w2). by rewrite E3.
Qed.

(** A pass over the tenant as it is stored. *)
Lemma reconcileTenant_triple n t now w m :
  store_wf (live (view w)) → objects (live (view w)) !! tenantKey t = Some (OTenant t) →
  holds (Namespace (tMeta t)) (live (view w)) m →
  triple (λ s, cluster s = w) (reconcileTenant r (S (S n)) t now)
    (λ _ s, vframe (tenantKey t :: passKeys t) (view w) (view (cluster s)) ∧
       ∃ lag p99Ms count w3, signals (labelOf t) w lag p99Ms count w3 ∧ in_int32 count ∧
         let d := classify (Spec t) (baselineOf t) (isolated t) lag p99Ms count in
         pass_result t m now lag p99Ms count (poolWorld t d w3) (view (cluster s)))
    (λ b s, vframe (tenantKey t :: passKeys t) (view w) (view (cluster s)) ∧ short_of t b (view (cluster s)) ∧
       kept t (live (view (cluster s)))).
Proof.
  intros Hwf Ht Hh. set (ks := tenantKey t :: passKeys t).
  assert (∀ v v', vframe ks (view w) v → vframe [tenantKey t] v v' → vframe ks (view w) v') as Hown.
  { intros v v' H1 H2. eapply vframe_trans; [exact H1|exact H2|done|].
    intros ? ->%list_elem_of_singleton. apply list_elem_of_here. }
  unfold reconcileTenant. cbv zeta. fold (labelOf t). apply readings_triple.
  { intros s ->. split; [by apply vframe_refl|]. split; [done|]. exists t. auto. }
  intros lag p99 count w3 Hsig Hw3 Hcount. rewrite <-Hw3 in Hwf, Ht, Hh, Hown |- *.
  set (d := classify _ _ _ lag p99 count). eapply triple_andThen.
  { eapply triple_weaken; [apply (isolationStep_triple t d w3 Hwf Ht)|done|intros a s Hs; exact Hs|].
    cbn. intros b s (-> & Hf & Hkept). split; [|by split]. by apply (Hown (view w3)), Hf; apply vframe_refl. }
  intros t1. cbn zeta beta. set (w4 := poolWorld t d w3). apply triple_pure. intros (Hf1 & Ht1 & Hspec1 & Hid).
  assert (vframe ks (view w3) (view w4)) as Hf1' by (apply (Hown (view w3)); [by apply vframe_refl|done]).
  assert (∀ v2, vframe (passKeys t) (view w4) v2 → vframe ks (view w3) v2) as Hpool.
  { intros v2 H. eapply vframe_trans; [exact Hf1'|exact H|done|intros ? ?; by right]. }
  eapply triple_andThen.
  { eapply triple_weaken; [apply (poolStep_triple n t t1 (labelOf t) count (dReplicas d) w4 m t1)|done|..].
    - by eapply vframe_wf.
    - done.
    - done.
    - eapply holds_frame; [exact Hf1| |done]. by intros ?%list_elem_of_singleton.
    - intros a s Hs. exact Hs.
    - cbn. intros b s [[Hf2 Hsh] Hk2]. split; [by apply Hpool|]. split; [done|]. exists t1. split; [done|]. by eapply flagged_kept. }
  intros []. cbn beta. apply (triple_fix (λ v, vframe (passKeys t) (view w4) v ∧
    objects (live v) !! tenantKey t = Some (OTenant t1) ∧ pool_state t1 (labelOf t) w4 count (dReplicas d) m v)).
  intros v2 (Hf2 & Ht2 & Hps).
  eapply triple_weaken; [apply (statusStep_triple t t1 lag p99 count now w4 v2 m (vframe_wf _ _ _ Hf2) Ht2 Hspec1 Hid Hps)|done|..].
  - cbn. intros a s' [Hf Hr]. split; [by eapply Hown; [apply Hpool|]|]. exists lag, p99, count, w3. by split_and!.
  - cbn. intros b s' (-> & Hf & Hk). split; [by eapply Hown; [apply Hpool|]|]. by split.
Qed.

(** A pass over a tenant read out of date cannot write it, and fails. *)
Lemma reconcileTenant_stale n t t0 now w m :
  store_wf (live (view w)) → objects (live (view w)) !! tenantKey t = Some (OTenant t0) →
  version (OTenant t) ≠ 0 → version (OTenant t0) ≠ version (OTenant t) →
  holds (Namespace (tMeta t)) (live (view w)) m →
  triple (λ s, cluster s = w) (reconcileTenant r (S (S n)) t now) (λ _ _, False)
    (λ b s, vframe (passKeys t) (view w) (view (cluster s)) ∧ short_of t b (view (cluster s)) ∧
       objects (live (view (cluster s))) !! tenantKey t = Some (OTenant t0)).
Proof.
  intros Hwf Ht Hnz Hver Hh. unfold reconcileTenant. cbv zeta. fold (labelOf t). apply readings_triple.
  { intros s ->. by split; [apply vframe_refl|]. }
  intros lag p99 count w3 _ Hw3 _. rewrite <-Hw3 in Hwf, Ht, Hh |- *.
  set (d := classify _ _ _ lag p99 count). eapply triple_andThen with (Q := λ t1 s, t1 = t ∧ cluster s = w3).
  { intros s <-. destruct (setDedicatedNodePool d && negb (isolated t)); [|done].
    unfold andThen, orWrap, lift, call, updateTenant.
    pose proof (kUpdate_law (OTenant (with_isolation t)) (cluster s) Hnz) as [Hl Hm].
    apply update_stale with (o0 := OTenant t0) in Hl as (E & e & He); [|done|done].
    destruct (kUpdate _ (cluster s)) as [res w']. cbn in E, He, Hm. subst res. cbn.
    rewrite (view_eta _ _ E Hm). by split; [apply vframe_refl|]. }
  intros t1. apply triple_pure. intros ->. eapply triple_andThen.
  { eapply triple_weaken; [apply (poolStep_triple n t t (labelOf t) count (dReplicas d) w3 m t0)|done|..]; [done..| |].
    - intros a s Hs. exact Hs.
    - cbn. intros b s [[Hf2 Hsh] Hk2]. by split_and!. }
  intros []. cbn beta. intros s (Hf2 & Ht2 & _). unfold andThen, orWrap, lift, call.
  pose proof (kStatusUpdate_law (OTenant (with_status d lag p99 count now t)) (cluster s) Hnz) as [Hl Hm].
  apply update_stale with (o0 := OTenant t0) in Hl as (E & e & He); [|done|done].
  destruct (kStatusUpdate _ (cluster s)) as [res w']. cbn in E, He, Hm. subst res. cbn.
  rewrite (view_eta _ _ E Hm). by split_and!.
Qed.

(** *** What a provisioned pool is *)
Record provisioned (t : TradingTenant) (start count replicas : Z) (v : View) : Prop := {
  has_partitions :
    let k := (KConfigMap, Namespace (tMeta t), dedicatedConfigMapName t) in
    unless_missed v k (∃ c, objects (live v) !! k = Some (OConfigMap c) ∧
      Data c = <["TENANT_ID" := sTenantID (Spec t)]>
                 {[ "KAFKA_MANUAL_PARTITIONS" := partitionListString start count ]});
  has_ingestion :
    let k := (KDeployment, Namespace (tMeta t), dedicatedIngestionName t) in
    unless_missed v k (∃ d, objects (live v) !! k = Some (ODeployment d) ∧ Replicas d = Some replicas);
  has_processor :
    let k := (KDeployment, Namespace (tMeta t), dedicatedProcessorName t) in
    unless_missed v k (∃ d, objects (live v) !! k = Some (ODeployment d) ∧ Replicas d = Some replicas);
  has_service :
    let k := (KService, Namespace (tMeta t), dedicatedServiceName t) in
    unless_missed v k (is_Some (objects (live v) !! k))
}.

Lemma converged_configmap t start count o : converged (mutateConfigMap t start count) o →
  ∃ c, o = OConfigMap c ∧ Data c = <["TENANT_ID" := sTenantID (Spec t)]>
    {[ "KAFKA_MANUAL_PARTITIONS" := partitionListString start count ]}.
Proof.
  intros (base & new & Hf & Ho). destruct base as [|c0| |]; [done| |done|done]. cbn in Hf.
  apply result_bind_Ok in Hf as (m' & _ & [= <-]).
  destruct Ho as [->|[->|[v ->]]]; rewrite ?admit_data; eexists; (split; [reflexivity|done]).
Qed.

Lemma converged_deployment t component container replicas o :
  converged (mutateDeployment r t component container replicas) o →
  ∃ d, o = ODeployment d ∧ Replicas d = Some replicas.
Proof.
  intros (base & new & Hf & Ho). destruct base as [| |d0|]; [done|done| |done]. cbn in Hf.
  apply result_bind_Ok in Hf as (m' & _ & [= <-]).
  destruct Ho as [->|Ho]; [by eexists|].
  match type of Ho with stored (ODeployment ?d) _ => destruct (admit_replicas d) as (d' & Ha & Hr) end.
  cbn in Hr. specialize (Hr (mk_is_Some _ _ eq_refl)). unfold stored in Ho. rewrite Ha in Ho.
  destruct Ho as [->|[v ->]]; cbn; by eexists.
Qed.

Lemma unless_missed_impl v k (φ ψ : Prop) : unless_missed v k φ → (φ → ψ) → unless_missed v k ψ.
Proof. intros [?|?]; [by left|right; auto]. Qed.

Lemma ready_provisioned t t' start count replicas v : same_identity t t' →
  ready (poolObjects t' start count replicas) v → provisioned t start count replicas v.
Proof.
  intros (Hn & Hns & Hid) Hr. unfold ready, poolObjects in Hr. rewrite !Forall_cons in Hr. cbn in Hr.
  destruct Hr as (H1 & H2 & H3 & H4 & _).
  unfold dedicatedServiceName, dedicatedProcessorName, dedicatedIngestionName, dedicatedConfigMapName in *.
  rewrite Hn, Hns in *. split; cbn zeta.
  - eapply unless_missed_impl; [exact H4|]. intros (o & Ho & C). apply converged_configmap in C as (c & -> & Hd).
    rewrite Hid in Hd. by exists c.
  - eapply unless_missed_impl; [exact H3|]. intros (o & Ho & C). apply converged_deployment in C as (d & -> & Hd). by exists d.
  - eapply unless_missed_impl; [exact H2|]. intros (o & Ho & C). apply converged_deployment in C as (d & -> & Hd). by exists d.
  - eapply unless_missed_impl; [exact H1|]. intros (o & Ho & _). by exists o.
Qed.

Lemma flagged_isolated t t' d : Spec t' = flagged t d → isolated t' = isolated t || setDedicatedNodePool d.
Proof.
  unfold flagged, isolated. intros ->. destruct (setDedicatedNodePool d); cbn; by rewrite ?orb_true_r, ?orb_false_r.
Qed.

(** What the pass promises of the pool, with the pool spelled out. *)
Definition pool_settled (t : TradingTenant) (m : gmap string tenantPartitionEntry) (count replicas : Z) (w : W)
    (flag : bool) (v : View) : Prop :=
  let ns := Namespace (tMeta t) in
  if flag
  then ∃ start, (observedPartitionStart (labelOf t) w).1 = Ok start ∧ provisioned t start count replicas v ∧
         unless_missed v (mapKey ns)
           (holds ns (live v) (<[sTenantID (Spec t) := {| eStart := start; eCount := count |}]> m))
  else Forall (leaving (live v)) (dedicatedKeys t) ∧
         unless_missed v (mapKey ns) (holds ns (live v) (delete (sTenantID (Spec t)) m)).

Lemma pool_state_settled t t1 w count replicas m v : same_identity t t1 → in_int32 count →
  ValidString (sTenantID (Spec t)) = true → pool_state t1 (labelOf t) w count replicas m v →
  pool_settled t m count replicas w (isolated t1) v.
Proof.
  intros Hid Hcount Hten Hpool. pose proof (same_identity_keys _ _ Hid) as Hkeys. unfold passKeys in Hkeys.
  injection Hkeys as _ Hkeys. pose proof Hid as (Hn & Hns & Htid). unfold pool_state in Hpool. unfold pool_settled.
  rewrite Hns, Htid in Hpool. destruct (isolated t1).
  - destruct Hpool as (start & Hs & Hr & Hm). exists start. split; [done|]. split; [by eapply ready_provisioned|].
    apply Hm. split; [done|]. split; [|done]. by eapply (proj2 (Htyped (labelOf t))).
  - destruct Hpool as [Hg Hm]. split; [|by apply Hm]. unfold dedicatedKeys, dedicatedIngestionName,
      dedicatedProcessorName, dedicatedServiceName, dedicatedConfigMapName in *.
    by rewrite Hn, Hns in Hg.
Qed.

(** How a pass over the stored tenant [t] may end, by its outcome. *)
Definition pass_ends (t : TradingTenant) (m : gmap string tenantPartitionEntry) (now : Z) (w : W) (o : outcome Z)
    (v : View) : Prop :=
  ∃ t', objects (live v) !! tenantKey t = Some (OTenant t') ∧
    (Spec t' = Spec t ∨ Spec t' = Spec (with_isolation t)) ∧
    match o with
    | Done (Err _) => True
    | Panic | OutOfCalls => mapKey (Namespace (tMeta t)) ∈ missed v
    | Done (Ok _) =>
        (tenantKey t ∈ missed v ∧ live v = live (view w)) ∨
        ∃ lag p99Ms count w3, signals (labelOf t) (kGet (tenantKey t) w).2 lag p99Ms count w3 ∧
          let d := classify (Spec t) (baselineOf t) (isolated t) lag p99Ms count in
          Status t' = Status (with_status d lag p99Ms count now t) ∧
          isolated t' = isolated t || setDedicatedNodePool d ∧
          pool_settled t m count (dReplicas d) (poolWorld t d w3) (isolated t') v
    end.

Lemma pass_result_ends t m now w o lag p99Ms count w3 v :
  ValidString (sTenantID (Spec t)) = true → in_int32 count →
  signals (labelOf t) (kGet (tenantKey t) w).2 lag p99Ms count w3 →
  let d := classify (Spec t) (baselineOf t) (isolated t) lag p99Ms count in
  pass_result t m now lag p99Ms count (poolWorld t d w3) v → pass_ends t m now w (Done (Ok o)) v.
Proof.
  intros Hten Hcount Hsig d (t' & Ht' & Hspec & Hst & t1 & Hs1 & Hid & Hpool). exists t'. split; [done|].
  split; [by eapply flagged_kept|]. right. exists lag, p99Ms, count, w3. split; [done|]. split; [done|].
  split; [by eapply flagged_isolated|].
  assert (isolated t' = isolated t1) as -> by (unfold isolated; congruence).
  by apply pool_state_settled.
Qed.

Lemma reconcilePass_ends n ns name now s t m :
  ValidString (sTenantID (Spec t)) = true → store_wf (live (view (cluster s))) → tenantKey t = (KTenant, ns, name) →
  objects (live (view (cluster s))) !! tenantKey t = Some (OTenant t) →
  holds (Namespace (tMeta t)) (live (view (cluster s))) m →
  let '(o, s') := reconcilePass r (S (S n)) ns name now s in
  vframe (tenantKey t :: passKeys t) (view (cluster s)) (view (cluster s')) ∧
  pass_ends t m now (cluster s) o (view (cluster s')).
Proof.
  intros Hten Hwf Hk Ht Hh. unfold reconcilePass, lift, call. rewrite <-Hk.
  pose proof (kGet_law (tenantKey t) (cluster s)) as Hget.
  assert (∀ v, vframe (tenantKey t :: passKeys t) (view (cluster s)) v → objects (live v) !! tenantKey t = Some (OTenant t) →
    ∀ e, vframe (tenantKey t :: passKeys t) (view (cluster s)) v ∧ pass_ends t m now (cluster s) (Done (Err e)) v) as Herr.
  { intros v Hf Hv e. split; [done|]. exists t. auto. }
  assert (∀ w', view w' = view (cluster s) ∨ misses (tenantKey t) (view (cluster s)) (view w') →
    store_wf (live (view w')) ∧ objects (live (view w')) !! tenantKey t = Some (OTenant t) ∧
    holds (Namespace (tMeta t)) (live (view w')) m ∧
    vframe (tenantKey t :: passKeys t) (view (cluster s)) (view w')) as Hafter.
  { intros w' [->|Hm]; [split_and!; [done..|by apply vframe_refl]|]. 
    pose proof (misses_frame _ (tenantKey t :: passKeys t) _ _ Hm Hwf) as [Hf _]. rewrite Hm. cbn. split_and!; [done..|by rewrite <-Hm]. }
  destruct (kGet (tenantKey t) (cluster s)) as [res w0] eqn:Eg. cbn [fst snd] in Hget.
  assert (view w0 = view (cluster s) ∨ misses (tenantKey t) (view (cluster s)) (view w0)) as Hw0.
  { destruct Hget as [[[E _] Em]|[E _]]; [left; by apply view_eta|by right]. }
  destruct (Hafter w0 Hw0) as (Hwf0 & Ht0 & Hh0 & Hf0).
  assert (∀ q tr, res = Ok (OTenant tr) → tr = t → let '(o, s') := reconcileTenant r (S (S n)) tr now
      {| cluster := w0; events := events s; transitions := transitions s; durations := q |} in
    vframe (tenantKey t :: passKeys t) (view (cluster s)) (view (cluster s')) ∧
    pass_ends t m now (cluster s) o (view (cluster s'))) as Hfresh.
  { intros q tr -> ->.
    pose proof (reconcileTenant_triple n t now w0 m Hwf0 Ht0 Hh0
      {| cluster := w0; events := events s; transitions := transitions s; durations := q |} eq_refl) as Hp.
    destruct (reconcileTenant r (S (S n)) t now _) as [o s']. cbn [fst snd] in Hp.
    assert (∀ v, vframe (tenantKey t :: passKeys t) (view w0) v →
      vframe (tenantKey t :: passKeys t) (view (cluster s)) v) as Hgo by (intros v Hv; by eapply vframe_trans).
    destruct o as [[q'|e]| |].
    - destruct Hp as (Hf & lag & p99 & count & w3 & Hsig & Hcount & Hres). split; [by apply Hgo|].
      eapply pass_result_ends; [done|done| |exact Hres]. by rewrite Eg.
    - destruct Hp as (Hf & _ & t' & Ht' & Hs'). split; [by apply Hgo|]. by exists t'.
    - destruct Hp as (Hf & Hsh & t' & Ht' & Hs'). split; [by apply Hgo|]. exists t'. split_and!; [done..|by apply Hsh].
    - destruct Hp as (Hf & Hsh & t' & Ht' & Hs'). split; [by apply Hgo|]. exists t'. split_and!; [done..|by apply Hsh]. }
  destruct Hget as [[[_ Hr] _]|[Hm Hst]].
  - destruct res as [o|e].
    + rewrite Ht in Hr. injection Hr as <-. by apply Hfresh.
    + destruct (errors_Is e StatusNotFound); [by rewrite Ht in Hr; specialize (Hr eq_refl)|]. by apply Herr.
  - destruct res as [o|e].
    + destruct Hst as (Hko & Hvo & Hsame). destruct o as [tr|c|d|v]; [|by unfold object_key in Hko..].
      change (object_key (OTenant tr)) with (tenantKey tr) in Hko.
      destruct (decide (version (OTenant t) = version (OTenant tr))) as [E|Hne].
      { specialize (Hsame _ Ht E). injection Hsame as <-. by apply Hfresh. }
      assert (same_identity_names : Namespace (tMeta tr) = Namespace (tMeta t) ∧ Name (tMeta tr) = Name (tMeta t)).
      { unfold tenantKey, object_key in Hko. cbn in Hko. by injection Hko as -> ->. }
      destruct same_identity_names as [Hns Hname].
      assert (passKeys tr = passKeys t) as Hkeys.
      { unfold passKeys, dedicatedKeys, dedicatedIngestionName, dedicatedProcessorName, dedicatedServiceName,
          dedicatedConfigMapName. by rewrite Hns, Hname. }
      pose proof (reconcileTenant_stale n tr t now w0 m Hwf0 ltac:(by rewrite Hko) ltac:(lia) Hne ltac:(by rewrite Hns)
        {| cluster := w0; events := events s; transitions := transitions s; durations := durations s |} eq_refl) as Hp.
      destruct (reconcileTenant r (S (S n)) tr now _) as [o s']. cbn [fst snd] in Hp. rewrite Hkeys, Hko in Hp.
      unfold short_of in Hp. rewrite Hns in Hp.
      assert (∀ v, vframe (passKeys t) (view w0) v → vframe (tenantKey t :: passKeys t) (view (cluster s)) v) as Hgo.
      { intros v Hv. eapply vframe_trans; [exact Hf0|exact Hv|done|]. intros ??. by right. }
      destruct o as [[q'|e]| |]; [done|..]; destruct Hp as (Hf & Hsh & Ht'); (split; [by apply Hgo|]);
        exists t; (split; [done|]); (split; [by left|]); [done|by apply Hsh..].
    + destruct (errors_Is e StatusNotFound); [|by apply Herr]. cbn [cluster]. split; [done|]. exists t.
      split; [done|]. split; [by left|]. left. rewrite Hm. cbn. split; [set_solver|done].
Qed.

(** C9. A reconcile pass does what its decision says and nothing else.  Whatever
    happens, errors, lost answers and reads from a cache that lags behind included,
    only the tenant, its four dedicated objects and the shared partition map may
    change; the tenant's spec stays as it was except that the isolation flag may be
    set, and never cleared.  A pass that returns nil was told by an out-of-date read
    that the tenant is gone and changed nothing, or has stored the status the
    decision table gives for the lag, latency and partition count the observer
    answered for this tenant's label, has set the flag if the table isolates, and has
    left an isolated tenant with its pool provisioned at that size and the partition
    range the observer answered published, any other tenant with its pool's objects
    gone (or, where finalizers hold them, being deleted) and no entry in the map;
    an object of the pool or the map is exempt only if a read of it was out of date.
    The pass panics, or needs more than two API calls for the map, only after such a
    read of the map.  No other writer touches these objects meanwhile; the tenant id
    is UTF-8 and the partition readings are int32, as the API and the observer's
    signature have them. *)
Theorem Reconcile_pass calls ns name now s t m :
  (2 ≤ calls)%nat → ValidString (sTenantID (Spec t)) = true →
  missed (view (cluster s)) = ∅ → store_wf (live (view (cluster s))) →
  objects (live (view (cluster s))) !! (KTenant, ns, name) = Some (OTenant t) →
  holds ns (live (view (cluster s))) m →
  let '(o, s') := Reconcile r calls ns name now s in
  let v := view (cluster s') in
  frame (tenantKey t :: passKeys t) (live (view (cluster s))) (live v) ∧
  ∃ t', objects (live v) !! (KTenant, ns, name) = Some (OTenant t') ∧
    (Spec t' = Spec t ∨ Spec t' = Spec (with_isolation t)) ∧
    match o with
    | Done (Err _) => True
    | Panic | OutOfCalls => mapKey ns ∈ missed v
    | Done (Ok _) =>
        ((KTenant, ns, name) ∈ missed v ∧ live v = live (view (cluster s))) ∨
        ∃ lag p99Ms count w, signals (labelOf t) (kGet (KTenant, ns, name) (cluster s)).2 lag p99Ms count w ∧
          let d := classify (Spec t) (baselineOf t) (isolated t) lag p99Ms count in
          Status t' = Status (with_status d lag p99Ms count now t) ∧
          isolated t' = isolated t || setDedicatedNodePool d ∧
          if isolated t'
          then ∃ start, (observedPartitionStart (labelOf t) (poolWorld t d w)).1 = Ok start ∧
                 provisioned t start count (dReplicas d) v ∧
                 unless_missed v (mapKey ns)
                   (holds ns (live v) (<[sTenantID (Spec t) := {| eStart := start; eCount := count |}]> m))
          else Forall (leaving (live v)) (dedicatedKeys t) ∧
                 unless_missed v (mapKey ns) (holds ns (live v) (delete (sTenantID (Spec t)) m))
    end.
Proof.
  intros Hcalls Hten _ Hwf Ht Hh. pose proof (proj1 (proj2 Hwf _ _ Ht)) as Hk.
  assert (Namespace (tMeta t) = ns) as Hns by (unfold object_key in Hk; cbn in Hk; congruence).
  change (object_key (OTenant t)) with (tenantKey t) in Hk. rewrite <-Hns in Hh. rewrite <-Hk in Ht.
  destruct calls as [|[|n]]; [lia|lia|].
  pose proof (reconcilePass_ends n ns name now s t m Hten Hwf Hk Ht Hh) as Hp.
  unfold Reconcile. destruct (reconcilePass r (S (S n)) ns name now s) as [o s1].
  match goal with |- frame _ _ (live (view (cluster ?s2))) ∧ _ =>
    assert (cluster s2 = cluster s1) as -> by (by destruct o as [[]| |], (withMetrics r)) end.
  destruct Hp as [[Hf _] He]. split; [exact Hf|]. unfold pass_ends, pool_settled in He. by rewrite Hns, Hk in He.
Qed.
End laws.

(** ** Where the code and its documentation part *)

(** The same signals, twice: the first pass scales to the partition count, the
    second isolates. *)
Definition sampleSpec : TradingTenantSpec :=
  {| sTenantID := "acme"; MinReplicas := 1; MaxReplicas := 5;
     Resources := {| CPURequest := "500m"; MemoryRequest := "512Mi" |};
     Scaling := {| KafkaLagThreshold := 100; P99LatencyThresholdMs := 50 |};
     Isolation := {| DedicatedNodePool := false |} |}.

Example repeated_pass_isolates :
  passOver sampleSpec 1000 10 3 (1, false) = (TradingTenantStateScaling, (3, false)) ∧
  passOver sampleSpec 1000 10 3 (3, false) = (TradingTenantStateIsolated, (3, true)).
Proof. split; reflexivity. Qed.

(** An isolated tenant leaves the Isolated state when latency is high. *)
Example isolated_state_leaves :
  dState (classify sampleSpec 3 true 1000 60 3) = TradingTenantStateScaling ∧
  dState (classify sampleSpec 3 true 0 60 3) = TradingTenantStateDegraded.
Proof. split; reflexivity. Qed.

Section divergences.
Context (admission : Object → Object) {W : Type} `{Kc : !KubeClient W} (view : W → View) `{Kl : !KubeLaws W view admission}.
Context (r : TradingTenantReconciler).

(** A server that fills in container fields is updated on every pass: the
    callbacks replace Containers wholesale, so while the stored Deployments carry
    any defaulted container field, ensuring them never finds them up to date
    (unless a read was out of date), however often the pass ran before. *)
Theorem defaulted_deployments_never_settle t replicas w op w' :
  (∀ k d, objects (live (view w)) !! k = Some (ODeployment d) → Forall (λ c, cDefaults c ≠ "") (Containers d)) →
  ensureDedicatedIngestionDeployment r t replicas w = (Ok op, w') ∨
  ensureDedicatedProcessorDeployment r t replicas w = (Ok op, w') →
  missed (view w') = ∅ → op ≠ OperationResultNone.
Proof.
  assert (∀ o component container, cDefaults container = "" →
    (∀ k d, objects (live (view w)) !! k = Some (ODeployment d) → Forall (λ c, cDefaults c ≠ "") (Containers d)) →
    CreateOrUpdate o (mutateDeployment r t component container replicas) w = (Ok op, w') →
    missed (view w') = ∅ → op ≠ OperationResultNone) as Hgen.
  { intros o component container Hc Hst E Hmiss ->.
    pose proof (CreateOrUpdate_law o (mutateDeployment r t component container replicas) w) as Hl.
    rewrite E in Hl. destruct Hl as [[Hl _]|[Hl _]].
    - destruct Hl as (_ & old & Hold & Hf). destruct old as [| |d|]; [done|done| |done]. cbn in Hf.
      apply result_bind_Ok in Hf as (m & _ & Hf). injection Hf as Hd.
      apply Hst in Hold. rewrite <-Hd in Hold. cbn in Hold. apply Forall_cons in Hold as [? _]. done.
    - cbn in Hl. rewrite Hl in Hmiss. cbn in Hmiss. set_solver. }
  intros Hst [E|E] Hmiss; by eapply Hgen in E.
Qed.

Context `{Ob : !TenantObserver (W := W)}.

(** Deleting a TradingTenant leaves its partition map entry: a pass that is told
    its tenant is gone changes nothing on the server, so an entry published while it
    was isolated stays in the shared map for good. *)
Theorem deleted_tenant_keeps_entry calls ns name now s m :
  objects (live (view (cluster s))) !! (KTenant, ns, name) = None →
  (KTenant, ns, name) ∉ missed (view (kGet (KTenant, ns, name) (cluster s)).2) →
  holds ns (live (view (cluster s))) m →
  holds ns (live (view (cluster (Reconcile r calls ns name now s).2))) m.
Proof.
  intros Hnone Hfresh Hh. unfold Reconcile, reconcilePass, lift, call.
  pose proof (kGet_law (KTenant, ns, name) (cluster s)) as Hl.
  destruct (kGet _ (cluster s)) as [res w]. cbn in Hl, Hfresh. destruct Hl as [[[Hv Hr] _]|[Hm _]].
  - destruct res as [o|e]; [by rewrite Hnone in Hr|]. rewrite <-Hv in Hh. by destruct (errors_Is e _), (withMetrics r).
  - rewrite Hm in Hfresh. cbn in Hfresh. set_solver.
Qed.
End divergences.

(** ** Witnesses *)

Definition sampleMeta (name : string) : ObjectMeta :=
  {| Name := name; Namespace := "prod"; Labels := ∅; Controller := None;
     Finalizers := []; Deleting := false; ResourceVersion := 1 |}.

Definition sampleTenant : TradingTenant :=
  {| tMeta := sampleMeta "acme"; Spec := sampleSpec;
     Status := {| CurrentReplicas := 3; sState := ""; ObservedKafkaLag := 0; ObservedP99Ms := 0;
                  ObservedPartitionCount := 0; LastReconcileTime := 0 |} |}.

Definition sampleReconciler : TradingTenantReconciler :=
  {| TenantLabelName := ""; RequeueInterval := 0; withMetrics := true; withRecorder := true;
     IngestionImage := "ingestion:1"; ProcessorImage := "processor:1"; IngestionEnvFrom := ["base"];
     ProcessorEnvFrom := ["base"]; DedicatedNodeSelector := ∅; DedicatedTolerations := [] |}.

Definition sampleCluster : Cluster :=
  {| store := {| objects := {[ (KTenant, "prod", "acme") := OTenant sampleTenant ]}; revision := 1 |} |}.

(** An observer whose readings do not change. *)
Definition steady (lag p99Ms count start : Z) : TenantObserver (W := Cluster) := {|
  observedKafkaLag _ w := (Ok lag, w);
  observedP99Ms _ w := (Ok p99Ms, w);
  observedPartitionCount _ w := (Ok count, w);
  observedPartitionStart _ w := (Ok start, w) |}.

Definition sampleOperator : OperatorState (W := Cluster) :=
  {| cluster := sampleCluster; events := []; transitions := ∅; durations := ∅ |}.

Definition samplePass : outcome Z * OperatorState :=
  Reconcile (Kc := ClusterClient "IfNotPresent") (Ob := steady 1000 10 3 6) sampleReconciler 2 "prod" "acme" 42 sampleOperator.

Example samplePass_events :
  samplePass.1 = Done (Ok (30 * Second)) ∧
  events samplePass.2 = [("DedicatedPoolCreated", "Normal"); ("DedicatedPoolProvisioned", "Normal");
                         ("Isolated", "Warning")].
Proof. split; vm_compute; reflexivity. Qed.

Lemma classify_table_witness :
  setDedicatedNodePool (classify sampleSpec 3 false 1000 10 3) = true ↔ 100 < 1000 ∧ ¬ 50 < 10 ∧ 3 ≤ 3.
Proof. refine (proj1 (proj2 (proj2 (proj2 (classify_table sampleSpec 3 false 1000 10 3 _))))). cbn. lia. Defined.

Lemma passes_settle_witness :
  passOver sampleSpec 1000 10 3 (Nat.iter 6 (λ t, (passOver sampleSpec 1000 10 3 t).2) (0, false)) =
    (TradingTenantStateIsolated, (3, true)).
Proof. refine (eq_trans (passes_settle sampleSpec 1000 10 3 (0, false) 5 _) _); [cbn; lia|reflexivity]. Defined.

Lemma partition_list_agrees_witness : ∃ l ps,
  Consumer.parsePartitionList (partitionListString 6 3) = Ok l ∧
  partitionsForEntry {| Start := 6; Count := 3 |} = Ok ps ∧ NoDup l ∧
  ∀ x, (x ∈ l ↔ 6 ≤ x < 6 + 3) ∧ (x ∈ ps ↔ x ∈ l).
Proof. apply (partition_list_agrees 6 3); unfold_ints; lia. Defined.

Lemma sampleCluster_wf : store_wf (store sampleCluster).
Proof. split; [done|]. apply map_Forall_singleton. vm_compute. intuition congruence. Qed.

Lemma Reconcile_pass_witness : ∃ t' start,
  objects (store (cluster samplePass.2)) !! (KTenant, "prod", "acme") = Some (OTenant t') ∧
  sState (Status t') = TradingTenantStateIsolated ∧ isolated t' = true ∧ start = 6 ∧
  holds "prod" (store (cluster samplePass.2)) {[ "acme" := {| eStart := start; eCount := 3 |} ]}.
Proof.
  assert (∀ label : string * string, reads cluster_view (observedKafkaLag (TenantObserver := steady 1000 10 3 6) label) ∧
    reads cluster_view (observedP99Ms (TenantObserver := steady 1000 10 3 6) label) ∧
    reads cluster_view (observedPartitionCount (TenantObserver := steady 1000 10 3 6) label) ∧
    reads cluster_view (observedPartitionStart (TenantObserver := steady 1000 10 3 6) label)) as Hobs by (by repeat split).
  assert (∀ label : string * string, typed (observedPartitionCount (TenantObserver := steady 1000 10 3 6) label) ∧
    typed (observedPartitionStart (TenantObserver := steady 1000 10 3 6) label)) as Htyped
    by (intros label; split; intros w n [= <-]; unfold_ints; lia).
  pose proof (Reconcile_pass (cluster_admit "IfNotPresent") cluster_view (Kl := ClusterLaws "IfNotPresent")
    sampleReconciler Hobs Htyped 2 "prod" "acme" 42 sampleOperator sampleTenant ∅ (le_n 2) eq_refl eq_refl
    sampleCluster_wf eq_refl eq_refl) as H.
  change (Reconcile _ _ _ _ _ _) with samplePass in H.
  assert (samplePass.1 = Done (Ok (30 * Second))) as E by (vm_compute; reflexivity).
  destruct samplePass as [res s']. cbn [fst snd] in E |- *. rewrite E in H.
  destruct H as (_ & t' & Ht' & _ & H). destruct H as [[H _]|H]; [destruct (not_elem_of_empty _ H)|].
  destruct H as (lag & p99 & count & w & (w1 & w2 & H1 & H2 & H3) & Hst & Hiso & H).
  injection H1 as <- _. injection H2 as <- _. injection H3 as <- _.
  assert (isolated t' = true) as Hi by exact Hiso. rewrite Hi in H.
  destruct H as (start & Hs & _ & Hm). injection Hs as <-. exists t', 6. split; [exact Ht'|].
  split; [rewrite Hst; reflexivity|]. split; [exact Hi|]. split; [reflexivity|].
  destruct Hm as [Hm|Hm]; [destruct (not_elem_of_empty _ Hm)|exact Hm].
Defined.

(** After a pass over a server that defaults containers, the next one updates. *)
Definition defaulted (o : Object) : bool :=
  match o with ODeployment d => forallb (λ c, negb (bool_decide (cDefaults c = ""))) (Containers d) | _ => true end.

Lemma samplePass_defaulted k d : objects (store (cluster samplePass.2)) !! k = Some (ODeployment d) →
  Forall (λ c, cDefaults c ≠ "") (Containers d).
Proof.
  assert (map_Forall (λ _ o, defaulted o = true) (objects (store (cluster samplePass.2)))) as Hall.
  { refine (proj1 (bool_decide_eq_true (map_Forall (λ _ o, defaulted o = true) _)) _). vm_compute. reflexivity. }
  intros Hk. apply Hall in Hk. cbn in Hk. rewrite forallb_forall in Hk. apply Forall_forall.
  intros c Hc. apply list_elem_of_In, Hk in Hc. by bool_props.
Qed.

Lemma defaulted_deployments_never_settle_witness : ∃ op w',
  ensureDedicatedIngestionDeployment (Kc := ClusterClient "IfNotPresent") sampleReconciler sampleTenant 3
    (cluster samplePass.2) = (Ok op, w') ∧ op ≠ OperationResultNone.
Proof.
  destruct (ensureDedicatedIngestionDeployment (Kc := ClusterClient "IfNotPresent") sampleReconciler sampleTenant 3
    (cluster samplePass.2)) as [[op|e] w'] eqn:E.
  - exists op, w'. split; [reflexivity|].
    refine (defaulted_deployments_never_settle (cluster_admit "IfNotPresent") cluster_view (Kl := ClusterLaws "IfNotPresent")
      sampleReconciler sampleTenant 3 (cluster samplePass.2) op w' _ (or_introl E) eq_refl).
    exact samplePass_defaulted.
  - exfalso. apply (f_equal fst) in E. vm_compute in E. discriminate.
Defined.

Lemma deleted_tenant_keeps_entry_witness :
  holds "prod" (live (cluster_view (cluster (Reconcile (Kc := ClusterClient "IfNotPresent") (Ob := steady 1000 10 3 6)
    sampleReconciler 2 "prod" "gone" 42 samplePass.2).2))) {[ "acme" := {| eStart := 6; eCount := 3 |} ]}.
Proof.
  refine (deleted_tenant_keeps_entry (cluster_admit "IfNotPresent") cluster_view (Kl := ClusterLaws "IfNotPresent")
    sampleReconciler 2 "prod" "gone" 42 samplePass.2 _ _ _ _).
  - vm_compute. reflexivity.
  - apply not_elem_of_empty.
  - vm_compute. reflexivity.
Defined.
