(* ===== verification/OperatorMetrics.v ===== *)
(** * The operator's metrics and start-up
    (operator/internal/controller/metrics.go, operator/cmd/main.go run)

    NewMetrics over a Prometheus client, and the two recording methods, which drop
    what has no cached metric; how run builds the reconciler from its environment.
    The registry shows the transition counters that Operator keeps, and the queries
    of the operator find the gauges the two services set. *)
From Stdlib Require Import SpecFloat.
From S2P Require Import Prelude Operator GoStrings GoUtf8 GoTime EnvConfig Kube PromQuery Metrics ServiceMetrics Startup.

Definition resultSuccess : string := "success".
Definition resultError : string := "error".

(** Microseconds. *)
Definition reconcileDurationBucketsSeconds : list Z :=
  [5000; 10000; 25000; 50000; 100000; 250000; 500000; 1000000; 2000000; 5000000; 10000000].

Record Metrics := {
  durationObservers : gmap string child;            (* [result] *)
  isolationTransitionCounters : gmap string child   (* [transition] *)
}.

Definition reconcileDuration : Collector :=
  {| Kind := HistogramVec;
     cOpts := plainOpts "tradingtenant_reconcile_duration_seconds"
       "Duration of TradingTenant reconcile loop passes, by result." reconcileDurationBucketsSeconds;
     LabelNames := ["result"] |}.

Definition isolationTransitions : Collector :=
  {| Kind := CounterVec;
     cOpts := plainOpts "tradingtenant_isolation_transitions_total"
       "Count of TradingTenant reconcile state transitions, by resulting state." [];
     LabelNames := ["transition"] |}.

(** The loop that caches a counter for every reason. *)
Fixpoint cacheCounters {P} `{Pr : !Prometheus P} (reasons : list string) (counters : gmap string child)
    : registration P (gmap string child) :=
  match reasons with
  | [] => reg_ret counters
  | reason :: rest =>
      let? counter := with_labels isolationTransitions [reason] in
      cacheCounters rest (<[reason := counter]> counters)
  end.

Definition NewMetrics {P} `{Pr : !Prometheus P} : registration P Metrics :=
  let? _ := reg_new "new operator metrics: register reconcile duration histogram: %w" (Register reconcileDuration) in
  let? _ := reg_new "new operator metrics: register isolation transitions counter: %w" (Register isolationTransitions) in
  let? counters := cacheCounters isolationTransitionReasons ∅ in
  let? success := with_labels reconcileDuration [resultSuccess] in
  let? error := with_labels reconcileDuration [resultError] in
  reg_ret {| durationObservers := <[resultSuccess := success]> {[resultError := error]};
             isolationTransitionCounters := counters |}.

Definition observeDuration {P} `{Pr : !Prometheus P} (m : Metrics) (result : string) (p : P) : P :=
  match durationObservers m !! result with
  | None => p
  | Some (c, lvs) => observer_Observe c lvs p
  end.

Definition observeIsolationTransition {P} `{Pr : !Prometheus P} (m : Metrics) (reason : string) (p : P) : P :=
  match isolationTransitionCounters m !! reason with
  | None => p
  | Some (c, lvs) => counter_Add c lvs 1 p
  end.

Section laws.
Context {P : Type} `{Pr : !Prometheus P} `{Pl : !PrometheusLaws P}.

Definition names : gset string :=
  {["tradingtenant_reconcile_duration_seconds"; "tradingtenant_isolation_transitions_total"]}.

Definition cachedCounters (counters : gmap string child) (reasons : list string) : gmap string child :=
  foldl (λ m reason, <[reason := (isolationTransitions, [reason])]> m) counters reasons.

Definition theMetrics : Metrics :=
  {| durationObservers := <[resultSuccess := (reconcileDuration, [resultSuccess])]>
                            {[resultError := (reconcileDuration, [resultError])]};
     isolationTransitionCounters := cachedCounters ∅ isolationTransitionReasons |}.

Definition initial : gmap key sample :=
  list_to_map (((λ r, (vec_key isolationTransitions [r], Count 0)) <$> isolationTransitionReasons) ++
    [(vec_key reconcileDuration [resultSuccess], Count 0); (vec_key reconcileDuration [resultError], Count 0)]).

Lemma yields_Register msg c : plain c → well_formed c = true →
  yields (reg_new msg (Register c)) tt {[Name (cOpts c)]} ∅.
Proof.
  intros [Hn Hs] Hw p Hp. pose proof (BuildFQName_plain (cOpts c) Hn Hs) as Hq.
  destruct (Register_fresh c p Hw) as (p' & E & Hr & Hser); [rewrite Hq; set_solver|].
  exists p'. unfold reg_new. rewrite E. split; [done|]. rewrite Hq in Hr. split; [done|by rewrite map_union_empty].
Qed.

Lemma cacheCounters_yields reasons counters :
  yields (cacheCounters reasons counters) (cachedCounters counters reasons) ∅
    (foldr (λ r m, {[vec_key isolationTransitions [r] := Count 0]} ∪ m) ∅ reasons).
Proof.
  revert counters. induction reasons as [|r reasons IH]; intros counters; cbn [cacheCounters]; [apply yields_ret|].
  eapply yields_eq; [|reflexivity| |reflexivity].
  - eapply yields_bind; [apply (yields_with isolationTransitions); [by split|reflexivity]|apply IH|set_solver].
  - set_solver.
Qed.

Lemma NewMetrics_yields : yields NewMetrics theMetrics names initial.
Proof.
  eapply yields_eq.
  - eapply yields_bind; [apply yields_Register; [by split|vm_compute; reflexivity]|cbv beta|].
    + eapply yields_bind; [apply yields_Register; [by split|vm_compute; reflexivity]|cbv beta|].
      * eapply yields_bind; [apply cacheCounters_yields|cbv beta; walk_registration; decide_closed|set_solver].
      * decide_closed.
    + decide_closed.
  - reflexivity.
  - decide_closed.
  - decide_closed.
Qed.

Lemma counters_lookup reason :
  isolationTransitionCounters theMetrics !! reason =
    if bool_decide (reason ∈ isolationTransitionReasons) then Some (isolationTransitions, [reason]) else None.
Proof.
  unfold theMetrics, cachedCounters. cbn [isolationTransitionCounters]. generalize isolationTransitionReasons. intros l.
  induction l as [|r l IH] using rev_ind; [rewrite bool_decide_false by (by intros ?%elem_of_nil); apply lookup_empty|].
  rewrite foldl_app. cbn [foldl]. rewrite lookup_insert.
  destruct (decide (r = reason)) as [->|E]; [rewrite bool_decide_true by (apply elem_of_app; right; by apply list_elem_of_singleton); done|].
  etrans; [exact IH|].
  destruct (decide (reason ∈ l)); [rewrite !bool_decide_true|rewrite !bool_decide_false]; set_solver.
Qed.

(** The registry shows the operator's transition counters. *)
Definition shows (p : P) (transitions : gmap string Z) : Prop :=
  ∀ r, r ∈ isolationTransitionReasons →
    series p !! vec_key isolationTransitions [r] = Some (Count (default 0 (transitions !! r))).

(** The operator's two metrics register, follow the naming conventions the services'
    constructors enforce, start at zero, and from then on show the transition
    counters of the reconcile pass, whatever reason is recorded. *)
Theorem registry_shows_transitions p :
  names ## registered p → series p = ∅ →
  conventional HistogramVec "tradingtenant_reconcile_duration_seconds" ["result"] ∧
  conventional CounterVec "tradingtenant_isolation_transitions_total" ["transition"] ∧
  ∃ m p', NewMetrics p = Some (Ok m, p') ∧ shows p' ∅ ∧
    ∀ q transitions reason, shows q transitions →
      shows (observeIsolationTransition m reason q) (Operator.observeIsolationTransition reason transitions).
Proof.
  intros Hn H0. split; [by apply conventional_valid; vm_compute|]. split; [by apply conventional_valid; vm_compute|].
  destruct (NewMetrics_yields p Hn) as (p' & E & _ & Hs). exists theMetrics, p'. split; [done|]. split.
  - intros r Hr. rewrite Hs, H0, map_empty_union, lookup_empty.
    repeat (apply elem_of_cons in Hr as [->|Hr]; [vm_compute; reflexivity|]). by apply elem_of_nil in Hr.
  - intros q transitions reason Hq r Hr. unfold observeIsolationTransition, Operator.observeIsolationTransition.
    rewrite counters_lookup. case_bool_decide as Hin; [|by apply Hq].
    rewrite (Add_count isolationTransitions [reason] _ 1 q (conj eq_refl eq_refl) ltac:(lia) (Hq reason Hin)).
    unfold Operator.bump. rewrite !lookup_insert. destruct (decide (reason = r)) as [->|Hne].
    + by rewrite decide_True.
    + rewrite decide_False by (unfold vec_key; congruence). by apply Hq.
Qed.
End laws.

Lemma registry_shows_transitions_witness :
  ∃ m p', NewMetrics emptyRegistry = Some (Ok m, p') ∧ shows p' ∅.
Proof.
  destruct (registry_shows_transitions (P := MemRegistry) emptyRegistry) as (_ & _ & m & p' & E & Hs & _).
  - apply disjoint_empty_r.
  - reflexivity.
  - exists m, p'. split; [exact E|exact Hs].
Defined.

(** ** The operator's readings of the services' gauges

    Prometheus scrapes a list of processes: of each, the registry as it is and as it
    was at the last scrape.  A query is text; an instant selector of a gauge with one
    label answers with a sample per process that exported the series when it was last
    scraped. *)
Section readings.
Context {P : Type} `{Pr : !Prometheus P} `{Pl : !PrometheusLaws P} `{Fc : !FloatConversion}.

Record Target := { registry : P; scraped : P }.

Definition gauge_level (c : Collector) (value : string) (p : P) : option spec_float :=
  match series p !! vec_key c [value] with Some (Level x) => Some x | _ => None end.

(** The gauges the operator asks for. *)
Definition queried : list Collector := [ConsumerSpec.lagGauge; PublisherSpec.countGauge; PublisherSpec.startGauge].

(** What Prometheus documents of such a query: the text is read by PromQL's
    syntax, not by the client's, and the answer is from the last scrapes. *)
Definition scrapes (Query : string → list Target → result PromValue * list Target) : Prop :=
  ∀ query c name value targets, c ∈ queried → LabelNames c = [name] → ValidString value = true →
    parseSelector query = Some (Name (cOpts c), name, value) →
    Query query targets = (Ok (Vector (omap (λ t, gauge_level c value (scraped t)) targets)), targets).

Context (Query : string → list Target → result PromValue * list Target) (HQ : scrapes Query).

(** A tenant id PromQL can name: UTF-8 without a newline. *)
Definition nameable (tenantID : string) : bool := ValidString tenantID && no_byte "010"%char tenantID.

(** What the reconciler asks for a tenant under its default label name. *)
Definition tenantLabel (tenantID : string) : TenantLabel :=
  {| lName := defaultTenantLabelName; lValue := tenantID |}.

Lemma queried_identifier c : c ∈ queried → identifier true (Name (cOpts c)) = true.
Proof. unfold queried. rewrite !elem_of_cons, elem_of_nil. by intros [->|[->|[->|[]]]]. Qed.

Lemma observe_selected c tenantID msg read targets : c ∈ queried → LabelNames c = ["tenant"] →
  nameable tenantID = true →
  observe Query msg (selectorQuery (Name (cOpts c)) (tenantLabel tenantID)) read targets =
    (match omap (λ t, gauge_level c tenantID (scraped t)) targets with
     | [] => Err (Wrapf msg (Errorf "querying prometheus (%s): no series matched"))
     | [value] => read value
     | _ => Err (Wrapf msg (Errorf "querying prometheus (%s): expected a single series, got %d"))
     end, targets).
Proof.
  intros Hc Hl [Hu Hv]%andb_true_iff. unfold observe, queryScalar.
  rewrite (HQ _ c "tenant" tenantID targets Hc Hl Hu).
  - by destruct (omap _ targets) as [|x [|y l]].
  - apply (selectorQuery_parses _ (tenantLabel tenantID)); [|done|done]. by apply queried_identifier.
Qed.

(** Only one process exported the series. *)
Definition only_exporter (c : Collector) (tenantID : string) (others : list Target) : Prop :=
  Forall (λ t, gauge_level c tenantID (scraped t) = None) others.

Lemma omap_only c tenantID t v before after : only_exporter c tenantID (before ++ after) →
  gauge_level c tenantID (scraped t) = Some v →
  omap (λ t, gauge_level c tenantID (scraped t)) (before ++ t :: after) = [v].
Proof.
  intros [H1 H2]%Forall_app Hp. rewrite omap_app. cbn. rewrite Hp.
  assert (∀ l, Forall (λ t, gauge_level c tenantID (scraped t) = None) l →
    omap (λ t, gauge_level c tenantID (scraped t)) l = []) as Hnil.
  { intros l. induction 1 as [|q l Hq _ IH]; [done|]. cbn. by rewrite Hq. }
  by rewrite !Hnil.
Qed.

Lemma TenantLabel_known known t : t ∈ known → KnownTenants_TenantLabel known t = t.
Proof. intros H. unfold KnownTenants_TenantLabel. by rewrite bool_decide_true. Qed.

Lemma readInt_f64 msg n : 0 ≤ n < 2 ^ 53 → readInt64 msg (f64_of_Z n) = Ok n.
Proof.
  intros Hn. unfold readInt64. rewrite Round_f64_of_Z by done. unfold outside, toInt.
  rewrite (proj2 (Z.ltb_ge _ _)), (proj2 (Z.ltb_ge _ _)) by (unfold MaxInt64Float, MinInt64; lia).
  by rewrite !(proj2 (Z.leb_le _ _)) by (unfold MinInt64, MaxInt64; lia).
Qed.

Lemma readInt32_f64 msg n : 0 ≤ n ≤ MaxInt32 → readInt32 msg (f64_of_Z n) = Ok n.
Proof.
  intros Hn. unfold readInt32. rewrite Round_f64_of_Z by (unfold MaxInt32 in *; lia). unfold outside, toInt.
  rewrite (proj2 (Z.ltb_ge _ _)), (proj2 (Z.ltb_ge _ _)) by (unfold MaxInt32, MinInt32 in *; lia).
  by rewrite !(proj2 (Z.leb_le _ _)) by (unfold MinInt32, MaxInt32 in *; lia).
Qed.

(** The processor's lag, read back. *)
Lemma lag_read known tenantID lag p now before after :
  tenantID ∈ known → nameable tenantID = true → lag < 2 ^ 53 →
  only_exporter ConsumerSpec.lagGauge tenantID (before ++ after) →
  ∃ p', ConsumerMetrics.observeLag (ConsumerSpec.theMetrics known) tenantID lag p = Some p' ∧
    (ObservedKafkaLag Query (tenantLabel tenantID) (before ++ {| registry := now; scraped := p' |} :: after)).1 = Ok (Z.max 0 lag).
Proof.
  intros Hk Hv Hlag Ho. unfold ConsumerMetrics.observeLag. cbn zeta.
  cbn [ConsumerSpec.theMetrics ConsumerMetrics.consumerLagMessages ConsumerMetrics.knownTenants].
  rewrite TenantLabel_known by done. set (v := if lag <? 0 then 0 else lag).
  assert (v = Z.max 0 lag) as Hm by (unfold v; destruct (Z.ltb_spec lag 0); lia).
  destruct (set_with_level ConsumerSpec.lagGauge [tenantID] (f64_of_Z v) p) as (p' & E & Hs); [by split|done|].
  exists p'. split; [done|]. unfold ObservedKafkaLag.
  rewrite (observe_selected ConsumerSpec.lagGauge) by (done || set_solver). cbn [fst].
  rewrite (omap_only _ _ _ (f64_of_Z v)); [rewrite <-Hm; apply readInt_f64; lia|done|].
  unfold gauge_level. cbn. by rewrite Hs, lookup_insert_eq.
Qed.

(** The range the ingestion service reports, read back. *)
Lemma range_read known tenantID start count p now before after :
  tenantID ∈ known → nameable tenantID = true → 0 ≤ start ≤ MaxInt32 → 0 ≤ count ≤ MaxInt32 →
  only_exporter PublisherSpec.countGauge tenantID (before ++ after) →
  only_exporter PublisherSpec.startGauge tenantID (before ++ after) →
  ∃ p', PublisherMetrics.observePartitionRange (PublisherSpec.theMetrics known) tenantID start count p = Some p' ∧
    let t := {| registry := now; scraped := p' |} in
    (ObservedPartitionCount Query (tenantLabel tenantID) (before ++ t :: after)).1 = Ok count ∧
    (ObservedPartitionStart Query (tenantLabel tenantID) (before ++ t :: after)).1 = Ok start.
Proof.
  intros Hk Hv Hstart Hcount Hoc Hos. unfold PublisherMetrics.observePartitionRange. cbn zeta.
  cbn [PublisherSpec.theMetrics PublisherMetrics.partitionCount PublisherMetrics.partitionStart PublisherMetrics.knownTenants].
  rewrite TenantLabel_known by done.
  destruct (set_with_level PublisherSpec.countGauge [tenantID] (f64_of_Z count) p) as (q & E & Hq); [by split|done|].
  rewrite E. cbn [mbind option_bind].
  destruct (set_with_level PublisherSpec.startGauge [tenantID] (f64_of_Z start) q) as (p' & E' & Hs); [by split|done|].
  exists p'. split; [done|]. unfold ObservedPartitionCount, ObservedPartitionStart.
  rewrite (observe_selected PublisherSpec.countGauge), (observe_selected PublisherSpec.startGauge)
    by (done || set_solver). cbn [fst].
  assert (gauge_level PublisherSpec.startGauge tenantID p' = Some (f64_of_Z start)) as Gs
    by (unfold gauge_level; by rewrite Hs, lookup_insert_eq).
  assert (gauge_level PublisherSpec.countGauge tenantID p' = Some (f64_of_Z count)) as Gc
    by (unfold gauge_level; by rewrite Hs, lookup_insert_ne, Hq, lookup_insert_eq by (intros [=])).
  rewrite (omap_only _ _ _ (f64_of_Z count)), (omap_only _ _ _ (f64_of_Z start)) by done.
  by rewrite !readInt32_f64.
Qed.

(** A tenant outside the configured ones is exported under the shared label, so
    nothing a process records makes it readable. *)
Lemma unknown_unread known tenantID lag p p' :
  tenantID ∉ known → tenantID ≠ UnknownTenantLabel →
  ConsumerMetrics.observeLag (ConsumerSpec.theMetrics known) tenantID lag p = Some p' →
  gauge_level ConsumerSpec.lagGauge tenantID p' = gauge_level ConsumerSpec.lagGauge tenantID p.
Proof.
  intros Hk Hu. unfold ConsumerMetrics.observeLag, KnownTenants_TenantLabel. cbn zeta.
  cbn [ConsumerSpec.theMetrics ConsumerMetrics.consumerLagMessages ConsumerMetrics.knownTenants].
  rewrite bool_decide_false by done. intros H.
  destruct (set_with_level ConsumerSpec.lagGauge [UnknownTenantLabel] (f64_of_Z (if lag <? 0 then 0 else lag)) p)
    as (q & E & Hq); [by split|done|]. rewrite E in H. injection H as <-.
  unfold gauge_level. rewrite Hq, lookup_insert_ne; [done|]. intros [= ?]. done.
Qed.

(** Two exporters of the same tenant make it unreadable. *)
Lemma shared_unread c tenantID msg read p q v w before between after :
  c ∈ queried → LabelNames c = ["tenant"] → nameable tenantID = true →
  gauge_level c tenantID (scraped p) = Some v → gauge_level c tenantID (scraped q) = Some w →
  ∃ e, (observe Query msg (selectorQuery (Name (cOpts c)) (tenantLabel tenantID)) read
    (before ++ p :: between ++ q :: after)).1 = Err e.
Proof.
  intros Hc Hl Hv Hp Hq. rewrite observe_selected by done. cbn [fst].
  rewrite omap_app. cbn. rewrite Hp, omap_app. cbn. rewrite Hq.
  destruct (omap _ before) as [|x [|y l]], (omap _ between) as [|z k]; cbn; eauto.
Qed.

(** The names of the two services' metrics are free in their registries. *)
Definition processorNames : gset string :=
  {["processor_kafka_consumer_lag_messages"; "processor_kafka_active_consumer_count";
    "processor_kafka_tenant_partition_reload_errors_total"]}.
Definition publisherNames : gset string :=
  {["ingestion_kafka_tenant_reservation_dropped_total"; "ingestion_kafka_tenant_reservation_reload_errors_total";
    "ingestion_kafka_tenant_partition_count"; "ingestion_kafka_tenant_partition_start_count"]}.

End readings.
Arguments Target P : clear implicits.

(** *** A Prometheus that answers such queries *)
Definition memQuery (query : string) (targets : list (Target MemRegistry))
    : result PromValue * list (Target MemRegistry) :=
  (match parseSelector query with
   | Some (metric, label, value) =>
       match filter (λ c, Name (cOpts c) = metric) queried with
       | c :: _ => Ok (Vector (omap (λ t, gauge_level c value (scraped t)) targets))
       | [] => Ok (Vector [])
       end
   | None => Err (Errorf "parse error")
   end, targets).

Lemma memQuery_scrapes : scrapes memQuery.
Proof.
  intros query c name value targets Hc Hl _ Hq. unfold memQuery. rewrite Hq.
  unfold queried in Hc. rewrite !elem_of_cons, elem_of_nil in Hc. by destruct Hc as [->|[->|[->|[]]]].
Qed.


(** ** operator/cmd/main.go *)
Definition defaultReconcileTimeout : Z := 5 * Second.
Definition defaultRequeueInterval : Z := 30 * Second.

(** promquery.NewClient; [api_NewClient] is the API client's constructor. *)
Definition NewClient {A} (api_NewClient : string → result A) (cfg : PromQuery.Config) : result (A * Z) :=
  apiClient ← wrap_err "promquery: building prometheus api client: %w" (api_NewClient (Address cfg));
  Ok (apiClient, clientTimeout cfg).

(** controller-runtime's manager: its constructor, the controller registered on it,
    its two health checks, and Start, which blocks until the signal. *)
Record Manager := {
  NewManager : result unit;
  Complete : result unit;
  AddHealthzCheck : result unit;
  AddReadyzCheck : result unit;
  mgr_Start : result unit
}.

Record OperatorService (A : Type) := {
  oReconciler : TradingTenantReconciler;
  oReconcileTimeout : Z;
  oObserver : A * Z
}.
Arguments oReconciler {A} _.
Arguments oReconcileTimeout {A} _.
Arguments oObserver {A} _.

Section start.
Context {P : Type} `{Pr : !Prometheus P} `{Genv : !Environment} {A : Type}.
Context (api_NewClient : string → result A) (mgr : Manager).

(** The reconciler and what has to hold before it is handed to the manager. *)
Definition newReconciler : registration P (OperatorService A) :=
  let? _ := reg_lift "create manager: %w" (NewManager mgr) in
  let? _ := reg_wrap "register operator metrics: %w" NewMetrics in
  let? promClient := reg_lift "create prometheus query client: %w" (NewClient api_NewClient NewConfigFromEnv) in
  let? reconcileTimeout := reg_lift "resolve reconcile timeout: %w"
    (durationFromEnv "OPERATOR_RECONCILE_TIMEOUT" defaultReconcileTimeout) in
  let? requeueInterval := reg_lift "resolve requeue interval: %w"
    (durationFromEnv "OPERATOR_REQUEUE_INTERVAL" defaultRequeueInterval) in
  let reconciler :=
    {| TenantLabelName := Getenv "OPERATOR_TENANT_LABEL_NAME"; RequeueInterval := requeueInterval;
       withMetrics := true; withRecorder := true;
       IngestionImage := Getenv "OPERATOR_INGESTION_IMAGE"; ProcessorImage := Getenv "OPERATOR_PROCESSOR_IMAGE";
       IngestionEnvFrom := configMapEnvFromSourcesFromEnv "OPERATOR_INGESTION_CONFIGMAP_ENV_FROM";
       ProcessorEnvFrom := configMapEnvFromSourcesFromEnv "OPERATOR_PROCESSOR_CONFIGMAP_ENV_FROM";
       DedicatedNodeSelector := keyValueMapFromEnv "OPERATOR_DEDICATED_NODE_SELECTOR";
       DedicatedTolerations := tolerationsFromEnv "OPERATOR_DEDICATED_TOLERATIONS" |} in
  if bool_decide (IngestionImage reconciler = "") || bool_decide (ProcessorImage reconciler = "")
  then λ p, Some (Err (Errorf "OPERATOR_INGESTION_IMAGE and OPERATOR_PROCESSOR_IMAGE must both be set"), p)
  else reg_ret {| oReconciler := reconciler; oReconcileTimeout := reconcileTimeout; oObserver := promClient |}.

Definition runOperator : registration P (OperatorService A) :=
  let? service := newReconciler in
  let? _ := reg_lift "setup TradingTenant controller: %w" (Complete mgr) in
  let? _ := reg_lift "add healthz check: %w" (AddHealthzCheck mgr) in
  let? _ := reg_lift "add readyz check: %w" (AddReadyzCheck mgr) in
  let? _ := reg_lift "run manager: %w" (mgr_Start mgr) in
  reg_ret service.

Lemma clientTimeout_positive cfg : 0 < clientTimeout cfg.
Proof. unfold clientTimeout. destruct (Z.leb_spec (Timeout cfg) 0); [vm_compute; done|done]. Qed.

(** An operator that runs has both images, so a dedicated pool is never provisioned
    without one, and queries Prometheus under a positive timeout. *)
Theorem operator_starts_ready (p p' : P) svc : runOperator p = Some (Ok svc, p') →
  IngestionImage (oReconciler svc) ≠ "" ∧ ProcessorImage (oReconciler svc) ≠ "" ∧ 0 < (oObserver svc).2.
Proof.
  unfold runOperator. intros H. apply reg_bind_Ok in H as (svc' & q & Hn & H). inv_run H.
  unfold newReconciler in Hn. cbv zeta in Hn. repeat (apply reg_bind_Ok in Hn as (? & ? & ? & Hn)).
  destruct (bool_decide _ || bool_decide _) eqn:E in Hn; [discriminate|]. injection Hn as <- <-. bool_props.
  match goal with H : reg_lift _ (NewClient _ _) _ = _ |- _ =>
    apply reg_lift_Ok in H as [H _]; apply result_bind_Ok in H as (c & _ & [= <-]) end.
  split; [done|]. split; [done|]. apply clientTimeout_positive.
Qed.
End start.

Lemma operator_starts_ready_witness : ∃ svc p',
  runOperator (Genv := λ name, if bool_decide (name ∈ ["OPERATOR_INGESTION_IMAGE"; "OPERATOR_PROCESSOR_IMAGE"]) then "img" else "")
    (λ address, Ok address)
    {| NewManager := Ok tt; Complete := Ok tt; AddHealthzCheck := Ok tt; AddReadyzCheck := Ok tt; mgr_Start := Ok tt |}
    emptyRegistry = Some (Ok svc, p') ∧ IngestionImage (oReconciler svc) ≠ "" ∧ 0 < (oObserver svc).2.
Proof.
  destruct (NewMetrics_yields (P := MemRegistry) emptyRegistry) as (p1 & E & _); [apply disjoint_empty_r|].
  eexists _, p1. match goal with |- ?A ∧ _ => assert A as H end.
  - unfold runOperator, newReconciler, reg_bind, reg_lift, reg_wrap. cbn -[NewMetrics]. rewrite E. reflexivity.
  - split; [exact H|]. destruct (operator_starts_ready _ _ _ _ _ H) as (? & _ & ?). split; assumption.
Defined.
